(* ===== verification/_CoqProject ===== *)
-Q . S2P
Prelude.v
Strconv.v
GoTime.v
Md5.v
Core.v
Effects.v
Store.v
MemDriver.v
MemTheorems.v
MemStore.v
Locker.v
MemRun.v
LeaseSafety.v
LockSafety.v
LockTheorems.v
Queue.v
QueueTheorems.v
QueueSafety.v
QueuePool.v
QueueListing.v
TrimTheorems.v
Watcher.v
WatcherTheorems.v
TailTheorems.v
TailInterleaved.v
WatcherRun.v
CrossCopy.v
Filesystem.v
FileDriver.v
FileTheorems.v
FileStore.v
FileReads.v
FileUpdates.v
Unicode.v
NetUrl.v
Remote.v
RemoteTheorems.v
RemoteStore.v
S3Driver.v
S3Theorems.v
S3CopyTheorems.v
GcsDriver.v
GcsTheorems.v
AzureKeys.v
AzureDriver.v
AzureTheorems.v
AzureStore.v
Deployed.v
LockDeployed.v
QueueDeployed.v
FileDeployed.v
Native.v
RemoteBuckets.v
Blobtest.v
Witnesses.v
TailWitnesses.v
FileWitnesses.v
FileConformance.v
RemoteWitnesses.v
DeployedWitnesses.v
