(* ===== verification/Prelude.v ===== *)
(** * blobster, verified

    blobster is a Go library for object storage: one [Bucket] interface with
    conditional writes, drivers for it, and coordination primitives built on
    nothing but those conditional writes, a lease lock, a work queue, and a
    watcher that replicates a queue.  This library models the program's own
    logic, function by function, and proves what makes it correct.

    ** The program and the files

    - blobster.go, the root package's data and helpers: [Core] (attributes,
      options, preconditions, metadata, the list iterator).
    - mem/mem.go, the in-memory driver: [MemDriver] (Module [Mem]), its
      theorems in [MemTheorems].
    - file/file.go, the file driver: [FileDriver] (Module [File]) on the model of
      paths and system calls of [Filesystem], its theorems in [FileTheorems];
      [FileStore] is the driver as a store, [FileReads] and [FileUpdates] its
      range readers and metadata updates.
    - locker.go, the lease lock: [Locker]; its safety under interleaving in
      [LockSafety], its theorems in [LockTheorems].
    - queue.go and queuemessage.go, the work queue: [Queue] and [QueueTheorems];
      one worker among others in [QueueSafety], any number of workers in
      [QueuePool]; what its listings hold in [QueueListing], retention in
      [TrimTheorems].
    - [LeaseSafety] is the part the lock and the queue share: what a process may
      do to a lease record, what it may rely on, and the calls proved to keep it.
    - queuetail.go and watcher.go: [Watcher] (Modules [Tail] and [Watcher]) and
      [WatcherTheorems]; pages of a tail in [TailTheorems], a tail among other
      users of the queue, call by call, in [TailInterleaved], a watcher at work in
      [WatcherRun].
    - crosscopy.go, the handle of an asynchronous copy: [CrossCopy].
    - s3/s3.go, gcs/gcs.go, azureblob/azureblob.go: each has a [Bucket] that
      prefixes keys and compiles options over an interface [backend], which is
      the class [Backend] of [Remote]; the methods of [Bucket] are Module
      [Remote], and [RemoteBuckets] has them for the packages gcs and azureblob,
      whose text is the same.
    - s3/s3.go and s3/crosscopy.go, the S3 backend: [S3Driver] (Module [S3]), its
      theorems in [S3Theorems], those on copies in [S3CopyTheorems].
    - gcs/gcs.go and gcs/crosscopy.go, the Cloud Storage backend: [GcsDriver]
      (Module [GCS]) and [GcsTheorems].
    - azureblob/azureblob.go and azureblob/crosscopy.go, the Azure backend:
      [AzureKeys] (the escaping of names and metadata), [AzureDriver] (Module
      [Azure]), [AzureTheorems] and [AzureStore].
    - blobtest/conformance.go, the suite the drivers are tested with: [Blobtest],
      a program over an interface of drivers; [FileConformance] runs it on the
      file driver.
    - [AssignNative], and the methods [As] and [ErrorAs] of all drivers: [Native].
    - Go's standard library, what the code uses of it: this file (byte
      strings, errors, 64-bit integers), [Strconv], [GoTime], [Md5],
      [Filesystem], [Unicode] (UTF-8, runes), [NetUrl] (URL escaping, base64).

    The definitions keep the names of the source; a name the language reserves
    or that is taken gets a trailing underscore ([Attributes_], [Err_]).  The
    part of a function that is a loop or a long tail is a definition of its
    own next to it ([tryClaim] and [claimed], [Close] and [close_check]).

    ** How the parts interact

    The lock, the queue and the watcher are programs over the [Bucket]
    interface ([Effects]): trees of calls, each answered by its environment.
    [Store] is the contract between them and a driver: what a call may answer
    and do to the objects of a bucket, with the failures and lost answers of a
    remote backend.  The theorems about the clients under concurrency are
    proved against the contract; [MemStore.mem_refines_store] proves that the
    in-memory driver implements it; and [MemRun] runs the same programs on that
    driver for the theorems about single operations.  [Deployed] puts the two
    together: clients whose calls are answered by the code of a driver take the
    steps of the same clients against the contract (class [Implements]);
    [LockDeployed], [QueueDeployed] and [FileDeployed] are the lock and the queue
    on the drivers.

    The remote drivers talk to SDKs that are not part of the repository.  The
    calls of an SDK are the fields of a record [client], functions on an
    arbitrary state [W] of the service; the pipe between a writer and the
    goroutine that uploads, and the bodies of responses, however a connection
    cuts them, are values ([Remote]).  What a service documents is a record of
    laws on those fields ([S3T.s3_laws], [S3C.copy_laws], [GCST.gcs_laws],
    [AzureS.azure_laws]).  [RemoteStore] proves once that the [Bucket] methods
    over a backend that keeps the class [BackendLaws] implement the contract;
    each driver discharges the class from its laws.

    A driver's state is passed explicitly.  The in-memory driver's is a map and
    a version counter of 64 bits.  The file driver's is a file system; its
    operations are sequences of system calls, any of which may fail, and may
    have done part of its work.  What the environment decides, the clock, the
    random generators, [ctx.Err()], a callback's answer, is an argument.

    ** What the theorems show

    - C1, C13, C35: any number of contenders for one lock, interleaved call by
      call, with failing calls, lost answers and dead processes: at most one
      claims the lock within its lease, and live foreign records are respected;
      and that this needs tokens that are new at every write.  A contender's
      clock is the one clock of the model, and the record of a lock is written
      by contenders for it only.  C29: a release deletes its owner's record only.
      C34 is the handover; [LockTheorems] also has the operations one by one, on
      every branch.
    - C2, C3: any number of workers on one message, interleaved in the same way:
      no two have it at once while its payload is there, and the payload is not
      lost before an [Ack].  The message's objects are touched by these workers
      only: nobody enqueues its id again and no retention sweep reaches it.
    - C4 to C8: the in-memory driver, the drivers for S3, Azure and Cloud Storage
      and the file driver implement the store contract, each within limits that
      the theorem states.  C5: S3's token is a hash of the contents, so the clause
      on fresh tokens is replaced.  C6: keys without the marker of the escape
      scheme.  C7: the service refuses a write under [IfNotMatch] of an object
      that is not there.  C8: clean keys, none a directory of another, options
      that JSON can carry, and up to a torn write.
    - C9 to C12: the composition: the lock on the code of the in-memory driver, of
      the Cloud Storage driver and of the file driver, the queue on the in-memory
      driver; [LockDeployed.lock_exclusive_on_azure] is the lock on Azure.  S3 is
      not among them: C35 says why.  In C11 the contenders are in one process and
      share one [Bucket] and its mutex, and no write of a record is torn;
      [FileWitnesses.file_two_buckets_both_create] is what happens with two.
    - C14, C15, C40: the in-memory driver: the state invariant, unique versions,
      the iterator over a listing.  [MemTheorems] has more: one winner per
      compare-and-swap, read after write, errors without effect, range reads with
      the one overflow, sorted and complete listings.
    - C16, C17, C33, C36: the file driver: where keys may land, atomic
      replacement under any failing calls, read after write, the torn commit
      that remains; [FileTheorems.file_sub_escapes] is a [Sub] that does not
      confine.  [FileReads.file_range_read]: a range reader delivers its range in
      whatever pieces it is read, and the rest of it after a seek.
      [FileUpdates.file_update_metadata]: a metadata update replaces the metadata
      under a new token, or changes nothing.
    - C18 to C20, C31, C32: the queue: claims, dead letters, the bound on the count,
      idempotent enqueue, Ack; [QueueTheorems] also has redelivery after a Nack,
      and ids that sort by time and carry it.
    - C21, C38: retention: what a pass deletes and what it leaves, exactly, on a
      queue nobody else changes during it; and that it deletes expired entries only, under every answer.
    - C22, C23, C30: tails: the cursor leaves no message behind while the queue
      changes, between any two calls, if payloads commit within the lag and no
      message is removed between two listing calls of one page
      ([TailWitnesses.tail_skips] is a message skipped because of such a removal);
      a follower catches up; and a page is exactly what one look at the queue
      gives.
    - C24, C39: replication: the local queue gets every message of a source that
      does not change; and a watcher writes to its own buckets only.
    - C25, C26: copies and range reads of the S3 driver, with the multipart plan
      in 64-bit arithmetic and parts answered in any order, and sessions of reads
      and seeks.
    - C27, C28: the Azure driver: copies that are not polled for ever, names that
      survive the escaping; the files named have
      metadata that survive it, copies that succeed exactly when the service says
      so ([AzureT.azure_copy_succeeds_iff]), the reader that is the S3 reader
      ([AzureT.azure_reader_equiv]).
    - [RemoteBuckets.remote_sub_equiv]: sub-buckets of all remote drivers.
    - C37: the Cloud Storage reader that cannot be downloaded.
    - [Native.assign_native_sound]: the escape hatch stores a value only where its
      type allows.

    [MemConformance.mem_conforms] and [FileConformance.file_conforms] run the
    conformance suite on the in-memory driver and on the file driver: no subtest
    of it fails.

    Other theorems about what goes wrong: [AzureKeys.azure_key_collision],
    [AzureKeys.azure_prefix_misses], [AzureT.azure_prefix_leaks],
    [S3T.s3_range_outside_fails], [S3T.s3_range_header_wraps],
    [RemoteWitnesses.s3_range_overflow_wrong_bytes],
    [MemTheorems.mem_range_read_overflow_panics] and
    [WatcherTheorems.watcher_cursor_rewound].

    [Witnesses], [TailWitnesses], [FileWitnesses], [RemoteWitnesses] and
    [DeployedWitnesses] apply
    the theorems that have hypotheses at concrete inputs; [RemoteWitnesses] has a
    small service for each remote driver, on which the laws are proved, and
    [DeployedWitnesses] one whose generations are never used twice.

    ** Fuel and bounds

    Loops of the source without a bound of their own (waiting for a lock or a
    message, paging through a listing, renewing) take a number of rounds and
    return [None] or stop when it is used up; what is proved of their results
    holds for every number.  The list iterator is proved to end: one round more
    than there are entries is enough (C40), as it is for a page of a tail (C23, C30);
    a retention pass ends within its first page (C21), and a watcher needs a round
    for every page of messages (C24).  Reading a response to its end is proved
    to end within as many reads as the body has pieces and bytes (C26), and the
    poll loop of a copy at the first poll that settles it (C27).  The version counter of the
    in-memory driver has 64 bits; theorems that need it not to wrap say so.
    Message ids are compared in the years in which milliseconds have 13 digits
    ([QueueTheorems.id_range]).

    ** What is not modelled

    The SDKs of the remote drivers are parameters.  A hook ([BeforeWrite] and the
    like) may return an error; what it changes in a native request is not
    modelled.  Go's run-time types are the class [Native.Reflect]; an error's own
    [As] method is not asked by [ErrorAs].  encoding/json is the class [File.Json] with its documented round
    trip; Unicode case mapping, content sniffing and the parsing of a URL's host
    are the classes [GoTables], [UpperTable] and [UrlTable].  The laws of a
    service are for one bucket that only the driver's calls change during a call;
    the Azure container holds blobs the driver wrote; objects in Cloud Storage
    are not stored with the gzip encoding the service undoes.  A call of the file
    driver is atomic to the other calls of the same [Bucket] and its [Sub]s, which
    share its mutex, and to nothing else.

    To come, in this order: copies of the file driver under failing calls; range
    reads of Cloud Storage and Azure and metadata updates of the remote drivers as
    theorems; the conformance suite on the remote drivers; the system calls of
    two buckets of the file driver on one directory, interleaved; the sidecar's
    JSON text. *)
From stdpp Require Export prelude strings gmap sorting.
From Stdlib Require Export ZArith Lia Ascii.

Open Scope Z_scope.

(** The development's databases: [blob] for [eauto], and the equations the
    proofs rewrite with before they look at a branch. *)
Create HintDb blob.
Create Rewrite HintDb blob.

(** * Go's byte strings

    A Go [string] and the contents of a Go [[]byte] are both sequences of
    bytes, and the conversions [string(b)] and [[]byte(s)] keep the bytes.
    Both are [string] here.  A nil slice and an empty one are the same value:
    the modelled code only ever asks for their length. *)
Abbreviation bytes := string (only parsing).

(** ** Errors

    The error values the code compares with [errors.Is], and [ErrOther] for
    an error that wraps none of them.  [fmt.Errorf("%w: ...", Sentinel, ...)]
    is its sentinel: only the text differs. *)
Inductive error :=
| ErrNotFound
| ErrPreconditionFailed
| ErrUnsupported
| ErrInvalidOption
| ErrLockHeld
| ErrLockLost
| ErrInvalidLockKey
| ErrNoMessages
| ErrMessageLost
| ErrInvalidQueuePrefix
| ErrInvalidMessageID
| ErrInvalidWatchName
| EOF
| ErrOther (text : string)
| ErrJoin (e1 e2 : error).

#[export] Instance error_eq_dec : EqDecision error.
Proof. solve_decision. Defined.

(** [errors.Is]: [errors.Join] is searched in both of its parts. *)
Fixpoint Is (err target : error) : bool :=
  bool_decide (err = target) ||
  match err with
  | ErrJoin e1 e2 => Is e1 target || Is e2 target
  | _ => false
  end.

Lemma Is_refl err : Is err err = true.
Proof. destruct err; cbn; by rewrite bool_decide_true. Qed.

#[global] Arguments Is : simpl never.

(** [errors.Join(err, other)] with [other] possibly nil. *)
Definition Join (err : error) (other : option error) : error :=
  match other with
  | None => err
  | Some e => ErrJoin err e
  end.

(** A Go [(T, error)] pair: the value when the error is nil. *)
Inductive result (A : Type) :=
| Ok (a : A)
| Err (e : error).
Arguments Ok {A} a.
Arguments Err {A} e.

#[export] Instance result_eq_dec `{EqDecision A} : EqDecision (result A).
Proof. solve_decision. Defined.

#[export] Instance result_ret : MRet result := fun A a => Ok a.
#[export] Instance result_bind : MBind result :=
  fun A B f m => match m with Ok a => f a | Err e => Err e end.

Definition is_Ok {A} (r : result A) : bool :=
  match r with Ok _ => true | Err _ => false end.

(** [ctx.Err()] at the moment the code looks at it. *)
Abbreviation ctx := (option error) (only parsing).

(** ** Machine integers

    [int] and [int64] are 64-bit two's complement, [uint64] is unsigned. *)
Definition int64_min : Z := - 2 ^ 63.
Definition int64_max : Z := 2 ^ 63 - 1.
Definition wrap64 (z : Z) : Z := (z + 2 ^ 63) `mod` 2 ^ 64 - 2 ^ 63.
Definition wrapu64 (z : Z) : Z := z `mod` 2 ^ 64.

Lemma wrap64_id z : int64_min ≤ z ≤ int64_max → wrap64 z = z.
Proof. unfold wrap64, int64_min, int64_max. intros. rewrite Z.mod_small; lia. Qed.

Lemma wrap64_range z : int64_min ≤ wrap64 z ≤ int64_max.
Proof.
  unfold wrap64, int64_min, int64_max.
  pose proof (Z.mod_pos_bound (z + 2 ^ 63) (2 ^ 64)). lia.
Qed.

Lemma wrap64_over z : int64_max < z < 2 ^ 64 → wrap64 z = z - 2 ^ 64.
Proof.
  unfold wrap64, int64_max. intros.
  replace (z + 2 ^ 63) with ((z - 2 ^ 63) + 1 * 2 ^ 64) by lia.
  rewrite Z.mod_add, Z.mod_small by lia. lia.
Qed.

Lemma wrapu64_id z : 0 ≤ z < 2 ^ 64 → wrapu64 z = z.
Proof. apply Z.mod_small. Qed.

(** * Strings *)

Definition strlen (s : string) : Z := Z.of_nat (String.length s).

Fixpoint str_take (n : nat) (s : string) : string :=
  match n, s with
  | S n, String c s => String c (str_take n s)
  | _, _ => ""
  end.

Fixpoint str_drop (n : nat) (s : string) : string :=
  match n, s with
  | S n, String _ s => str_drop n s
  | _, _ => s
  end.

(** [s[lo:hi]]: [None] is the run-time panic of an index out of range. *)
Definition Slice (s : string) (lo hi : Z) : option string :=
  if bool_decide (0 ≤ lo ≤ hi ∧ hi ≤ strlen s)
  then Some (str_take (Z.to_nat (hi - lo)) (str_drop (Z.to_nat lo) s))
  else None.

(** [strings.CutPrefix], [strings.HasPrefix], [strings.TrimPrefix]. *)
Fixpoint CutPrefix (s p : string) {struct p} : option string :=
  match p, s with
  | EmptyString, _ => Some s
  | String c p', String d s' => if decide (c = d) then CutPrefix s' p' else None
  | String _ _, EmptyString => None
  end.

Definition HasPrefix (s p : string) : bool := bool_decide (is_Some (CutPrefix s p)).
Definition TrimPrefix (s p : string) : string := default s (CutPrefix s p).
#[global] Arguments TrimPrefix : simpl never.

(** [strings.Index]: [None] is -1. *)
Fixpoint Index (s sub : string) : option nat :=
  if HasPrefix s sub then Some 0%nat
  else match s with
       | EmptyString => None
       | String _ s' => S <$> Index s' sub
       end.

Definition Contains (s sub : string) : bool := bool_decide (is_Some (Index s sub)).

Fixpoint HasSuffix (s p : string) : bool :=
  bool_decide (s = p) ||
  match s with EmptyString => false | String _ s' => HasSuffix s' p end.

(** [strings.Cut]: the part before the separator and whether it was found. *)
Definition Cut (s sep : string) : string * bool :=
  match Index s sep with
  | Some i => (str_take i s, true)
  | None => (s, false)
  end.

(** ** Facts about strings *)

Section strings.
#[local] Arguments String.append !_ _ / : simpl nomatch.

Lemma string_app_assoc (a b c : string) : (a +:+ b) +:+ c = a +:+ (b +:+ c).
Proof. induction a as [|x a IH]; [done|]. cbn. by f_equal. Qed.

Lemma string_app_nil_r (a : string) : a +:+ "" = a.
Proof. induction a as [|x a IH]; [done|]. cbn. by f_equal. Qed.

Lemma string_length_app (a b : string) :
  String.length (a +:+ b) = (String.length a + String.length b)%nat.
Proof. induction a as [|x a IH]; [done|]. cbn. by f_equal. Qed.

Lemma strlen_app a b : strlen (a +:+ b) = strlen a + strlen b.
Proof. unfold strlen. rewrite string_length_app. lia. Qed.

Lemma strlen_nonneg s : 0 ≤ strlen s.
Proof. unfold strlen. lia. Qed.

Lemma string_app_inj_l p a b : p +:+ a = p +:+ b → a = b.
Proof. induction p as [|x p IH]; cbn; [done|]. intros [= H]. auto. Qed.

#[export] Instance string_app_inj p : Inj (=) (=) (String.app p).
Proof. intros a b. apply string_app_inj_l. Qed.

Lemma string_app_eq_nil a b : a +:+ b = "" → a = "" ∧ b = "".
Proof. by destruct a. Qed.

Lemma str_take_drop n s : str_take n s +:+ str_drop n s = s.
Proof. revert s. induction n as [|n IH]; intros [|c s]; cbn; try done. f_equal. apply IH. Qed.

Lemma str_drop_0 s : str_drop 0 s = s.
Proof. by destruct s. Qed.

Lemma str_take_ge n s : (String.length s ≤ n)%nat → str_take n s = s.
Proof. revert s. induction n as [|n IH]; intros [|c s]; cbn; try done; intros; [lia|]. f_equal. apply IH. lia. Qed.

Lemma str_length_take n s : String.length (str_take n s) = (n `min` String.length s)%nat.
Proof. revert s. induction n as [|n IH]; intros [|c s]; cbn; auto. Qed.

Lemma str_length_drop n s : String.length (str_drop n s) = (String.length s - n)%nat.
Proof. revert s. induction n as [|n IH]; intros [|c s]; cbn; auto. Qed.

Lemma str_drop_ge n s : (String.length s ≤ n)%nat → str_drop n s = "".
Proof.
  revert s. induction n as [|n IH]; intros [|c s]; cbn; intros; try done; [lia|].
  apply IH. lia.
Qed.

Lemma str_take_app_ge n a b :
  (String.length a ≤ n)%nat → str_take n (a +:+ b) = a +:+ str_take (n - String.length a) b.
Proof.
  revert n. induction a as [|c a IH]; intros n; cbn.
  - intros _. by rewrite Nat.sub_0_r.
  - intros. destruct n as [|n]; [lia|]. cbn. f_equal. apply IH. lia.
Qed.

Lemma str_drop_drop a b s : str_drop a (str_drop b s) = str_drop (b + a) s.
Proof.
  revert s. induction b as [|b IH]; intros s; [by rewrite str_drop_0|].
  destruct s as [|c s]; cbn; [by destruct a|apply IH].
Qed.

Lemma str_take_app a b : str_take (String.length a) (a +:+ b) = a.
Proof. rewrite str_take_app_ge by lia. rewrite Nat.sub_diag. destruct b; apply string_app_nil_r. Qed.

Lemma str_drop_app a b : str_drop (String.length a) (a +:+ b) = b.
Proof. induction a as [|c a IH]; cbn; [by destruct b|done]. Qed.

Lemma Slice_Some s lo hi r :
  Slice s lo hi = Some r ↔
  0 ≤ lo ≤ hi ∧ hi ≤ strlen s ∧ r = str_take (Z.to_nat (hi - lo)) (str_drop (Z.to_nat lo) s).
Proof.
  unfold Slice. case_bool_decide as H.
  - split; [|by intros (_ & _ & ->)]. intros [= <-]. by destruct H.
  - split; [done|]. intros (? & ? & _). by destruct H.
Qed.

Lemma Slice_None s lo hi : Slice s lo hi = None ↔ ¬ (0 ≤ lo ≤ hi ∧ hi ≤ strlen s).
Proof. unfold Slice. case_bool_decide as H; split; done || tauto. Qed.

Lemma CutPrefix_Some s p r : CutPrefix s p = Some r ↔ s = p +:+ r.
Proof.
  revert s. induction p as [|c p IH]; intros s; cbn.
  - split; congruence.
  - destruct s as [|d s]; [done|]. case_decide; subst.
    + rewrite IH. split; [by intros ->|by intros [= ->]].
    + split; [done|]. by intros [= -> ->].
Qed.

Lemma CutPrefix_app p r : CutPrefix (p +:+ r) p = Some r.
Proof. by apply CutPrefix_Some. Qed.

Lemma CutPrefix_app_app p a b : CutPrefix (p +:+ a) (p +:+ b) = CutPrefix a b.
Proof. induction p as [|c p IH]; cbn; [done|]. by rewrite decide_True. Qed.

Lemma HasPrefix_spec s p : HasPrefix s p = true ↔ ∃ r, s = p +:+ r.
Proof.
  unfold HasPrefix. rewrite bool_decide_eq_true. unfold is_Some.
  by setoid_rewrite CutPrefix_Some.
Qed.

Lemma HasPrefix_app p r : HasPrefix (p +:+ r) p = true.
Proof. apply HasPrefix_spec. eauto. Qed.

Lemma TrimPrefix_app p r : TrimPrefix (p +:+ r) p = r.
Proof. unfold TrimPrefix. by rewrite CutPrefix_app. Qed.

Lemma Index_Some s sub i :
  Index s sub = Some i → ∃ r, s = str_take i s +:+ sub +:+ r ∧ (i + String.length sub ≤ String.length s)%nat.
Proof.
  revert i. induction s as [|c s IH]; intros i; cbn [Index].
  - destruct (HasPrefix "" sub) eqn:E; [|done]. intros [= <-].
    apply HasPrefix_spec in E as [r ->]. exists r. cbn.
    rewrite string_length_app. split; [done|lia].
  - destruct (HasPrefix (String c s) sub) eqn:E.
    + intros [= <-]. apply HasPrefix_spec in E as [r ->]. exists r. cbn.
      rewrite string_length_app. split; [done|lia].
    + destruct (Index s sub) as [j|] eqn:Ej; [|done]. intros [= <-].
      destruct (IH j) as (r & Hr & ?); [done|]. exists r. cbn. split; [by f_equal|lia].
Qed.

Lemma str_take_Index s sub i :
  Index s sub = Some i → ∃ r, s = str_take (i + String.length sub) s +:+ r.
Proof. intros _. exists (str_drop (i + String.length sub) s). by rewrite str_take_drop. Qed.

Lemma HasSuffix_spec s p : HasSuffix s p = true ↔ ∃ r, s = r +:+ p.
Proof.
  induction s as [|c s IH]; cbn; rewrite orb_true_iff, bool_decide_eq_true.
  - split; [intros [<-|]; [by exists ""|done]|]. intros [r Hr].
    symmetry in Hr. apply string_app_eq_nil in Hr as [_ ->]. by left.
  - rewrite IH. split.
    + intros [<-|[r ->]]; [by exists ""|by exists (String c r)].
    + intros [[|d r] Hr]; cbn in Hr; [by left|]. right. exists r. by simplify_eq.
Qed.

(** ** Lexical order

    Go compares strings byte by byte, as [String.le] does. *)
Definition str_lt (a b : string) : Prop := String.le a b ∧ a ≠ b.

Lemma string_compare_refl s : String.compare s s = Eq.
Proof.
  induction s as [|c s IH]; cbn; [done|].
  assert (Ascii.compare c c = Eq) as ->; [|done].
  unfold Ascii.compare. by rewrite N.compare_refl.
Qed.

Lemma string_compare_app p a b : String.compare (p +:+ a) (p +:+ b) = String.compare a b.
Proof.
  induction p as [|c p IH]; cbn; [done|].
  assert (Ascii.compare c c = Eq) as ->; [|done].
  unfold Ascii.compare. by rewrite N.compare_refl.
Qed.

Lemma string_le_app p a b : String.le (p +:+ a) (p +:+ b) ↔ String.le a b.
Proof. unfold String.le, String.leb. by rewrite string_compare_app. Qed.

Lemma string_leb_le a b : String.leb a b = true ↔ String.le a b.
Proof. unfold String.le. by rewrite Is_true_true. Qed.

Lemma string_leb_gt a b : String.leb a b = false ↔ str_lt b a.
Proof.
  split.
  - intros H. split.
    + destruct (total String.le b a) as [|Hle]; [done|].
      apply string_leb_le in Hle. congruence.
    + intros ->. unfold String.leb in H. by rewrite string_compare_refl in H.
  - intros [Hle Hne]. destruct (String.leb a b) eqn:E; [|done].
    apply string_leb_le in E. by destruct Hne; apply (anti_symm String.le).
Qed.

Lemma str_lt_le_trans a b c : str_lt a b → String.le b c → str_lt a c.
Proof.
  intros [H1 Hne] H2. split; [by trans b|]. intros ->.
  apply Hne. by apply (anti_symm String.le).
Qed.

Lemma str_le_lt_trans a b c : String.le a b → str_lt b c → str_lt a c.
Proof.
  intros H1 [H2 Hne]. split; [by trans b|]. intros ->.
  apply Hne. by apply (anti_symm String.le).
Qed.

#[export] Instance str_lt_trans : Transitive str_lt.
Proof. intros a b c H1 [H2 _]. by eapply str_lt_le_trans. Qed.

Lemma str_lt_app p a b : str_lt (p +:+ a) (p +:+ b) ↔ str_lt a b.
Proof.
  unfold str_lt. rewrite string_le_app. split; intros [? H]; split; auto; intros E; apply H.
  - by subst.
  - by apply string_app_inj_l in E.
Qed.

End strings.

#[export] Hint Rewrite string_app_nil_r str_drop_0 CutPrefix_app TrimPrefix_app : blob.
#[export] Hint Resolve HasPrefix_app strlen_nonneg Is_refl : blob.

(** Rewriting with the equations that never hurt. *)
Ltac blob_simpl := autorewrite with blob.

(** ** Lists *)

Lemma elem_of_window {A} (x : A) n m l : x ∈ take n (drop m l) → x ∈ l.
Proof.
  intros Hx. rewrite <- (take_drop m l), <- (take_drop n (drop m l)).
  rewrite !elem_of_app. auto.
Qed.
