(* ===== verification/Strconv.v ===== *)
(** * Decimal text: the parts of [strconv], [fmt] and
    [encoding/hex] the program uses

    [FormatUint] prints a version counter, [Itoa]/[Atoi] carry page tokens and
    receive counts, [fmt013] is the [%013d] of a message id,
    [EncodeToString] is encoding/hex. *)
From S2P Require Import Prelude.

Definition digit (d : Z) : ascii := Ascii.ascii_of_N (Z.to_N (48 + d)).

Definition digit_val (c : ascii) : option Z :=
  let n := Z.of_N (Ascii.N_of_ascii c) in
  if bool_decide (48 ≤ n ≤ 57) then Some (n - 48) else None.

(** The [w] low decimal digits of [n], most significant first. *)
Fixpoint dec_digits (w : nat) (n : Z) : string :=
  match w with
  | O => ""
  | S w => String (digit ((n `div` 10 ^ Z.of_nat w) `mod` 10)) (dec_digits w n)
  end.

(** How many digits [n] needs; a 64-bit number needs at most 20. *)
Fixpoint ndigits_from (fuel w : nat) (n : Z) : nat :=
  match fuel with
  | O => w
  | S fuel => if bool_decide (n < 10 ^ Z.of_nat w) then w else ndigits_from fuel (S w) n
  end.

Definition ndigits (n : Z) : nat := ndigits_from 20 1 n.

(** [strconv.FormatUint(n, 10)]. *)
Definition FormatUint (n : Z) : string := dec_digits (ndigits n) n.

(** [strconv.Itoa] and [strconv.FormatInt(n, 10)]. *)
Definition Itoa (n : Z) : string :=
  if bool_decide (n < 0) then "-" +:+ FormatUint (- n) else FormatUint n.

Fixpoint parse_digits (acc : Z) (s : string) : option Z :=
  match s with
  | EmptyString => Some acc
  | String c s => d ← digit_val c; parse_digits (10 * acc + d) s
  end.

(** At least one digit, and nothing but digits. *)
Definition parse_nat (s : string) : option Z :=
  match s with EmptyString => None | _ => parse_digits 0 s end.

(** [strconv.Atoi] and [strconv.ParseInt(s, 10, 64)]: an optional sign, at
    least one digit, no other character, and a value that fits. *)
Definition Atoi (s : string) : result Z :=
  let signed :=
    match s with
    | String "+" r => parse_nat r
    | String "-" r => Z.opp <$> parse_nat r
    | _ => parse_nat s
    end%char in
  match signed with
  | Some n => if bool_decide (int64_min ≤ n ≤ int64_max) then Ok n else Err (ErrOther "value out of range")
  | None => Err (ErrOther "invalid syntax")
  end.

(** [encoding/hex.EncodeToString]. *)
Definition hex_digit (n : N) : ascii :=
  Ascii.ascii_of_N (if bool_decide (n < 10)%N then 48 + n else 87 + n)%N.

Fixpoint EncodeToString (b : bytes) : string :=
  match b with
  | EmptyString => ""
  | String c b =>
    let n := Ascii.N_of_ascii c in
    String (hex_digit (n / 16)%N) (String (hex_digit (n mod 16)%N) (EncodeToString b))
  end.

Fixpoint zeros (k : nat) : string :=
  match k with O => "" | S k => String "0" (zeros k) end.

Definition pad0 (w : nat) (s : string) : string := zeros (w - String.length s) +:+ s.

(** [fmt.Sprintf("%013d", n)]: the width counts the sign. *)
Definition fmt013 (n : Z) : string :=
  if bool_decide (n < 0) then "-" +:+ pad0 12 (FormatUint (- n)) else pad0 13 (FormatUint n).

(** ** Facts *)

Lemma digit_val_digit d : 0 ≤ d < 10 → digit_val (digit d) = Some d.
Proof.
  intros H. unfold digit_val, digit.
  rewrite Ascii.N_ascii_embedding by lia.
  rewrite Z2N.id by lia. rewrite bool_decide_true by lia. f_equal. lia.
Qed.

Lemma digit_lt a b : 0 ≤ a < b → b < 10 → Ascii.compare (digit a) (digit b) = Lt.
Proof.
  intros. unfold Ascii.compare, digit.
  rewrite !Ascii.N_ascii_embedding by lia. apply N.compare_lt_iff. lia.
Qed.

Lemma dec_digits_length w n : String.length (dec_digits w n) = w.
Proof. induction w as [|w IH]; [done|]. cbn [dec_digits String.length]. by rewrite IH. Qed.

Lemma pow10_pos w : 0 < 10 ^ Z.of_nat w.
Proof. apply Z.pow_pos_nonneg; lia. Qed.

Lemma pow10_S w : 10 ^ Z.of_nat (S w) = 10 * 10 ^ Z.of_nat w.
Proof. rewrite Nat2Z.inj_succ, Z.pow_succ_r by lia. done. Qed.

Lemma mod_pow10_S w n :
  n `mod` 10 ^ Z.of_nat (S w)
  = (n `div` 10 ^ Z.of_nat w) `mod` 10 * 10 ^ Z.of_nat w + n `mod` 10 ^ Z.of_nat w.
Proof.
  rewrite pow10_S, Z.mul_comm. pose proof (pow10_pos w).
  rewrite Z.rem_mul_r by lia. lia.
Qed.

Lemma parse_dec_digits w n acc :
  parse_digits acc (dec_digits w n) = Some (acc * 10 ^ Z.of_nat w + n `mod` 10 ^ Z.of_nat w).
Proof.
  revert acc. induction w as [|w IH]; intros acc.
  - cbn. rewrite Z.mod_1_r. f_equal. lia.
  - cbn [dec_digits parse_digits].
    rewrite digit_val_digit by (apply Z.mod_pos_bound; lia). cbn.
    rewrite IH. f_equal. rewrite mod_pow10_S, pow10_S. lia.
Qed.

Lemma dec_digits_mod w n m :
  n `mod` 10 ^ Z.of_nat w = m `mod` 10 ^ Z.of_nat w → dec_digits w n = dec_digits w m.
Proof.
  induction w as [|w IH]; [done|].
  rewrite !mod_pow10_S. intros H. pose proof (pow10_pos w) as Hp.
  pose proof (Z.mod_pos_bound n _ Hp). pose proof (Z.mod_pos_bound m _ Hp).
  assert ((n `div` 10 ^ Z.of_nat w) `mod` 10 = (m `div` 10 ^ Z.of_nat w) `mod` 10) as Hd by nia.
  cbn [dec_digits]. rewrite Hd. f_equal. apply IH. nia.
Qed.

Lemma dec_digits_lt w a b x y :
  0 ≤ a < b → b < 10 ^ Z.of_nat w → str_lt (dec_digits w a +:+ x) (dec_digits w b +:+ y).
Proof.
  revert a b. induction w as [|w IH]; intros a b; [cbn; lia|].
  rewrite pow10_S. intros Hab Hb. pose proof (pow10_pos w) as Hp.
  set (p := 10 ^ Z.of_nat w) in *.
  pose proof (Z.div_mod a p ltac:(lia)) as Ha. pose proof (Z.div_mod b p ltac:(lia)) as Hb'.
  pose proof (Z.mod_pos_bound a p Hp). pose proof (Z.mod_pos_bound b p Hp).
  assert (0 ≤ a `div` p) by (apply Z.div_pos; lia).
  assert (b `div` p < 10) by (apply Z.div_lt_upper_bound; lia).
  assert (a `div` p ≤ b `div` p) by (apply Z.div_le_mono; lia).
  change (dec_digits (S w) a +:+ x)
    with (String (digit ((a `div` p) `mod` 10)) (dec_digits w a +:+ x)).
  change (dec_digits (S w) b +:+ y)
    with (String (digit ((b `div` p) `mod` 10)) (dec_digits w b +:+ y)).
  rewrite (Z.mod_small (a `div` p)), (Z.mod_small (b `div` p)) by lia.
  destruct (decide (a `div` p = b `div` p)) as [E|E].
  - rewrite E. change (String ?c ?s) with (String.append (String c "") s).
    apply str_lt_app.
    rewrite (dec_digits_mod w a (a `mod` p)), (dec_digits_mod w b (b `mod` p)).
    + apply IH; nia.
    + by rewrite Zmod_mod.
    + by rewrite Zmod_mod.
  - assert (Ascii.compare (digit (a `div` p)) (digit (b `div` p)) = Lt) as Hc
      by (apply digit_lt; lia).
    split.
    + unfold String.le, String.leb. cbn. by rewrite Hc.
    + intros [= Hd _]. rewrite Hd in Hc. unfold Ascii.compare in Hc.
      by rewrite N.compare_refl in Hc.
Qed.

Lemma ndigits_from_spec fuel w n :
  n < 10 ^ Z.of_nat (w + fuel) → n < 10 ^ Z.of_nat (ndigits_from fuel w n) ∧ (w ≤ ndigits_from fuel w n)%nat.
Proof.
  revert w. induction fuel as [|fuel IH]; intros w; cbn.
  - by rewrite Nat.add_0_r.
  - intros H. case_bool_decide; [by split; [|lia]|].
    destruct (IH (S w)) as [? ?]; [by rewrite Nat.add_succ_l, <- Nat.add_succ_r|]. split; [done|lia].
Qed.

Lemma ndigits_from_min fuel w n k :
  n < 10 ^ Z.of_nat k → (w ≤ k)%nat → (ndigits_from fuel w n ≤ Nat.max k w)%nat ∨ (fuel + w ≤ k)%nat.
Proof.
  revert w. induction fuel as [|fuel IH]; intros w H Hk; cbn; [lia|].
  case_bool_decide as Hw; [lia|].
  destruct (decide (w = k)) as [->|]; [lia|].
  destruct (IH (S w)); [done|lia|lia|lia].
Qed.

Lemma ndigits_spec n : n < 2 ^ 64 → n < 10 ^ Z.of_nat (ndigits n) ∧ (1 ≤ ndigits n)%nat.
Proof. intros H. apply ndigits_from_spec. trans (2 ^ 64); [done|]. by vm_compute. Qed.

Lemma ndigits_le n k : n < 10 ^ Z.of_nat k → (1 ≤ k < 20)%nat → (ndigits n ≤ k)%nat.
Proof. intros H Hk. unfold ndigits. destruct (ndigits_from_min 20 1 n k H ltac:(lia)); lia. Qed.

Lemma parse_FormatUint n : 0 ≤ n < 2 ^ 64 → parse_nat (FormatUint n) = Some n.
Proof.
  intros H. unfold FormatUint. destruct (ndigits_spec n) as [Hn Hw]; [lia|].
  pose proof (parse_dec_digits (ndigits n) n 0) as Hp.
  rewrite Z.mul_0_l, Z.add_0_l, Z.mod_small in Hp by lia.
  destruct (dec_digits (ndigits n) n) eqn:E; [|done].
  pose proof (dec_digits_length (ndigits n) n) as Hl. rewrite E in Hl. cbn [String.length] in Hl. lia.
Qed.

Lemma FormatUint_inj a b :
  0 ≤ a < 2 ^ 64 → 0 ≤ b < 2 ^ 64 → FormatUint a = FormatUint b → a = b.
Proof.
  intros Ha Hb E. apply (f_equal parse_nat) in E.
  rewrite !parse_FormatUint in E by done. by injection E.
Qed.

Lemma FormatUint_nonempty n : n < 2 ^ 64 → FormatUint n ≠ "".
Proof.
  intros H E. destruct (ndigits_spec n H) as [_ Hw].
  pose proof (dec_digits_length (ndigits n) n) as Hl.
  unfold FormatUint in E. rewrite E in Hl. cbn [String.length] in Hl. lia.
Qed.

(** The first character of a printed number is a digit, so neither a sign
    nor the letter that starts the first-page token. *)
Lemma FormatUint_head n : n < 2 ^ 64 → ∃ d s, 0 ≤ d < 10 ∧ FormatUint n = String (digit d) s.
Proof.
  intros H. unfold FormatUint. destruct (ndigits_spec n H) as [_ Hw].
  destruct (ndigits n) as [|w]; [lia|]. eexists _, _. split; [|done].
  apply Z.mod_pos_bound. lia.
Qed.

Lemma digit_cases d : 0 ≤ d < 10 → digit d ∈ (["0"; "1"; "2"; "3"; "4"; "5"; "6"; "7"; "8"; "9"]%char).
Proof.
  intros H. assert (d = 0 ∨ d = 1 ∨ d = 2 ∨ d = 3 ∨ d = 4 ∨ d = 5 ∨ d = 6 ∨ d = 7 ∨ d = 8 ∨ d = 9) by lia.
  destruct_or!; subst; apply (bool_decide_unpack _); by vm_compute.
Qed.

Lemma Atoi_Itoa n : 0 ≤ n ≤ int64_max → Atoi (Itoa n) = Ok n.
Proof.
  intros H. unfold Itoa. rewrite bool_decide_false by lia.
  assert (n < 2 ^ 64) by (unfold int64_max in H; lia).
  destruct (FormatUint_head n) as (d & s & Hd & E); [done|].
  assert (parse_nat (FormatUint n) = Some n) as Hp by (apply parse_FormatUint; lia).
  apply digit_cases in Hd. unfold Atoi. rewrite E in *.
  assert (bool_decide (int64_min ≤ n ≤ int64_max) = true) as Hr
    by (apply bool_decide_true; unfold int64_min; lia).
  rewrite !elem_of_cons, elem_of_nil in Hd.
  destruct_or! Hd; rewrite Hd in *; rewrite Hp; cbn; by rewrite Hr.
Qed.

Lemma zeros_app_dec k w n :
  0 ≤ n < 10 ^ Z.of_nat w → zeros k +:+ dec_digits w n = dec_digits (k + w) n.
Proof.
  intros H. induction k as [|k IH]; [done|].
  change (zeros (S k) +:+ dec_digits w n) with (String "0" (zeros k +:+ dec_digits w n)).
  rewrite IH. cbn [dec_digits Nat.add]. f_equal.
  rewrite Z.div_small, Zmod_0_l; [done|]. split; [lia|].
  eapply Z.lt_le_trans; [apply H|]. apply Z.pow_le_mono_r; lia.
Qed.

(** In the range where 13 digits are enough, [%013d] prints exactly them. *)
Lemma fmt013_digits n : 0 ≤ n < 10 ^ 13 → fmt013 n = dec_digits 13 n.
Proof.
  intros H. unfold fmt013. rewrite bool_decide_false by lia.
  assert (ndigits n ≤ 13)%nat as Hw by (apply ndigits_le; [exact (proj2 H)|lia]).
  destruct (ndigits_spec n) as [Hn _]; [lia|].
  unfold pad0, FormatUint. rewrite dec_digits_length, zeros_app_dec by lia.
  f_equal. lia.
Qed.

Example strconv_examples :
  FormatUint 0 = "0" ∧ FormatUint 18446744073709551615 = "18446744073709551615" ∧
  Itoa (-15) = "-15" ∧ Atoi "+42" = Ok 42 ∧ fmt013 1700000000000 = "1700000000000" ∧
  fmt013 7 = "0000000000007" ∧ fmt013 (-7) = "-000000000007" ∧
  is_Ok (Atoi "1x") = false ∧ is_Ok (Atoi "") = false ∧
  is_Ok (Atoi "9223372036854775808") = false.
Proof. by vm_compute. Qed.
