(* ===== verification/GoTime.v ===== *)
(** * Time: instants, durations and the RFC 3339 text of a lease deadline

    An instant is the number of nanoseconds since the Unix epoch, a duration a
    number of nanoseconds.  [TimeText] is what the lock and the queue rely on
    when they store a deadline as text: [time.Parse] gives back the instant
    [Format] printed.  [rfc3339] implements it: Go's [Format] with the layout
    [time.RFC3339Nano] in any fixed-offset zone, and Go's strict RFC 3339
    parser.  *)
From S2P Require Import Prelude Strconv.

(** [lia] reasons about division by constants in this file. *)
Local Ltac Zify.zify_post_hook ::= Z.to_euclidean_division_equations.

Definition Nanosecond : Z := 1.
Definition Millisecond : Z := 10 ^ 6.
Definition Second : Z := 10 ^ 9.
Definition Hour : Z := 3600 * Second.

(** The zero [time.Time]: January 1, year 1, UTC. *)
Definition zeroTime : Z := - 62135596800 * Second.

(** [Time.UnixMilli] and [time.UnixMilli]: the former rounds down. *)
Definition UnixMilli (t : Z) : Z := t `div` Millisecond.
Definition time_UnixMilli (ms : Z) : Z := ms * Millisecond.

(** [t.Before(u)]. *)
Definition Before (t u : Z) : bool := bool_decide (t < u).

(** The deadline texts the lock and the queue exchange through the bucket.
    [printable] is the range of instants whose year has four digits, where
    [time.RFC3339Nano] is documented to print every digit the instant has. *)
Class TimeText := {
  Format : Z → string;
  Parse : string → result Z;
  printable : Z → Prop;
  Parse_Format t : printable t → Parse (Format t) = Ok t;
}.

Module Calendar.

Definition leap (y : Z) : bool :=
  bool_decide (y `mod` 4 = 0) && (negb (bool_decide (y `mod` 100 = 0)) || bool_decide (y `mod` 400 = 0)).

Definition months (y : Z) : list Z :=
  [31; if leap y then 29 else 28; 31; 30; 31; 30; 31; 31; 30; 31; 30; 31].

Fixpoint split_month (ls : list Z) (m yday : Z) : Z * Z :=
  match ls with
  | [] => (m, yday + 1)
  | l :: ls => if bool_decide (yday < l) then (m, yday + 1) else split_month ls (m + 1) (yday - l)
  end.

Fixpoint days_before (ls : list Z) (m : nat) : Z :=
  match m, ls with
  | S m, l :: ls => l + days_before ls m
  | _, _ => 0
  end.

(** Days from January 1, year 1 to January 1 of year [y]. *)
Definition year_start (y : Z) : Z :=
  365 * (y - 1) + (y - 1) `div` 4 - (y - 1) `div` 100 + (y - 1) `div` 400.

(** The year and the day of the year of a day counted from January 1, year 1:
    400-year, 100-year, 4-year and 1-year cycles, the last century and the
    last year of a cycle taking the leap day. *)
Definition split_year (d : Z) : Z * Z :=
  let n400 := d `div` 146097 in
  let r := d `mod` 146097 in
  let n100 := Z.min 3 (r `div` 36524) in
  let r := r - 36524 * n100 in
  let n4 := r `div` 1461 in
  let r := r `mod` 1461 in
  let n1 := Z.min 3 (r `div` 365) in
  (400 * n400 + 100 * n100 + 4 * n4 + n1 + 1, r - 365 * n1).

(** Days from January 1, year 1 to the Unix epoch. *)
Definition epoch : Z := 719162.

Definition civil_of_day (d : Z) : Z * Z * Z :=
  let '(y, yday) := split_year (d + epoch) in
  let '(m, md) := split_month (months y) 1 yday in
  (y, m, md).

Definition day_of_civil (y m d : Z) : Z :=
  year_start y + days_before (months y) (Z.to_nat (m - 1)) + (d - 1) - epoch.

Definition daysIn (m y : Z) : Z := default 0 (months y !! Z.to_nat (m - 1)).

Lemma split_year_spec d :
  let '(y, yday) := split_year d in
  year_start y + yday = d ∧ 0 ≤ yday < 365 + (if leap y then 1 else 0).
Proof.
  unfold split_year, year_start.
  set (n400 := d `div` 146097). set (r := d `mod` 146097).
  set (n100 := Z.min 3 (r `div` 36524)). set (r1 := r - 36524 * n100).
  set (n4 := r1 `div` 1461). set (r2 := r1 `mod` 1461).
  set (n1 := Z.min 3 (r2 `div` 365)).
  assert (d = 146097 * n400 + r ∧ 0 ≤ r < 146097) as [Hd Hr] by (unfold n400, r; lia).
  assert (r = 36524 * n100 + r1 ∧ 0 ≤ n100 ≤ 3 ∧ 0 ≤ r1 ∧ (n100 = 3 ∧ r1 < 36525 ∨ n100 < 3 ∧ r1 < 36524)) as (Hre & Hn100 & Hr1 & Hr1')
    by (unfold r1, n100; lia).
  assert (r1 = 1461 * n4 + r2 ∧ 0 ≤ r2 < 1461 ∧ 0 ≤ n4 ≤ 24) as (Hr1e & Hr2 & Hn4)
    by (unfold n4, r2; lia).
  assert (0 ≤ n1 ≤ 3 ∧ 0 ≤ r2 - 365 * n1 ∧ (n1 = 3 ∧ r2 - 365 * n1 < 366 ∨ n1 < 3 ∧ r2 - 365 * n1 < 365))
    as (Hn1 & Hyd & Hyd') by (unfold n1; lia).
  clearbody n400 r n100 r1 n4 r2 n1.
  assert ((400 * n400 + 100 * n100 + 4 * n4 + n1 + 1 - 1) `div` 4 = 100 * n400 + 25 * n100 + n4) as -> by lia.
  assert ((400 * n400 + 100 * n100 + 4 * n4 + n1 + 1 - 1) `div` 100 = 4 * n400 + n100) as -> by lia.
  assert ((400 * n400 + 100 * n100 + 4 * n4 + n1 + 1 - 1) `div` 400 = n400) as -> by lia.
  split; [lia|]. split; [lia|].
  destruct (leap _) eqn:L; [lia|].
  unfold leap in L. apply andb_false_iff in L as [L|L].
  - apply bool_decide_eq_false in L. lia.
  - apply orb_false_iff in L as [L1 L2].
    apply negb_false_iff, bool_decide_eq_true in L1. apply bool_decide_eq_false in L2. lia.
Qed.

Lemma split_month_spec ls m yday :
  0 ≤ yday < days_before ls (length ls) →
  let '(m', d) := split_month ls m yday in
  ∃ k l, m' = m + Z.of_nat k ∧ ls !! k = Some l ∧ 1 ≤ d ≤ l ∧ days_before ls k + (d - 1) = yday.
Proof.
  revert m yday. induction ls as [|l ls IH]; intros m yday; cbn; [lia|].
  intros H. case_bool_decide as Hl.
  - exists 0%nat, l. cbn. repeat split; lia.
  - specialize (IH (m + 1) (yday - l)).
    destruct (split_month ls (m + 1) (yday - l)) as [m' d].
    destruct IH as (k & l' & -> & ? & ? & ?); [lia|].
    exists (S k), l'. cbn. repeat split; try done; lia.
Qed.

Lemma months_total y : days_before (months y) (length (months y)) = 365 + (if leap y then 1 else 0).
Proof. unfold months. cbn. destruct (leap y); lia. Qed.

Lemma civil_of_day_spec d :
  let '(y, m, md) := civil_of_day d in
  day_of_civil y m md = d ∧ 1 ≤ m ≤ 12 ∧ 1 ≤ md ≤ daysIn m y.
Proof.
  unfold civil_of_day. pose proof (split_year_spec (d + epoch)) as Hy.
  destruct (split_year (d + epoch)) as [y yday]. destruct Hy as [Hy Hr].
  pose proof (split_month_spec (months y) 1 yday) as Hm.
  destruct (split_month (months y) 1 yday) as [m md].
  destruct Hm as (k & l & -> & Hk & ? & ?); [by rewrite months_total|].
  pose proof (lookup_lt_Some _ _ _ Hk) as Hlt. cbn in Hlt.
  unfold day_of_civil, daysIn. replace (Z.to_nat (1 + Z.of_nat k - 1)) with k by lia.
  rewrite Hk. change (default 0 (Some l)) with l. lia.
Qed.

Lemma daysIn_le m y : daysIn m y ≤ 31.
Proof.
  assert (Forall (λ l, l ≤ 31) (months y)) as H
    by (unfold months; destruct (leap y); repeat constructor; lia).
  unfold daysIn. destruct (months y !! _) as [l|] eqn:E; cbn; [|lia].
  by apply (Forall_lookup_1 _ _ _ _ H E).
Qed.

End Calendar.

Module Rfc3339.
Import Calendar.

(** *** [Time.Format(time.RFC3339Nano)] in a zone [off] minutes east of UTC. *)

(** Drop trailing zeros: the layout's [.999999999] prints no more of the
    fraction than it needs. *)
Fixpoint trim0 (s : string) : string :=
  match s with
  | EmptyString => ""
  | String c r =>
    let r' := trim0 r in
    if bool_decide (c = "0"%char ∧ r' = "") then "" else String c r'
  end.

Definition fmt_frac (ns : Z) : string :=
  if bool_decide (ns = 0) then "" else "." +:+ trim0 (dec_digits 9 ns).

Definition fmt_zone (off : Z) : string :=
  if bool_decide (off = 0) then "Z"
  else (if bool_decide (off < 0) then "-" else "+")
       +:+ dec_digits 2 (Z.abs off `div` 60) +:+ ":" +:+ dec_digits 2 (Z.abs off `mod` 60).

Definition fmt_year (y : Z) : string :=
  if bool_decide (y < 0) then "-" +:+ pad0 4 (FormatUint (- y)) else pad0 4 (FormatUint y).

Definition format (off t : Z) : string :=
  let l := t + off * 60 * Second in
  let '(y, m, d) := civil_of_day (l `div` (86400 * Second)) in
  let sod := (l `mod` (86400 * Second)) `div` Second in
  fmt_year y +:+ "-" +:+ dec_digits 2 m +:+ "-" +:+ dec_digits 2 d +:+ "T"
  +:+ dec_digits 2 (sod `div` 3600) +:+ ":" +:+ dec_digits 2 ((sod `div` 60) `mod` 60)
  +:+ ":" +:+ dec_digits 2 (sod `mod` 60)
  +:+ fmt_frac (l `mod` Second) +:+ fmt_zone off.

(** *** The strict parser: fixed-width fields, each within its range. *)

Definition field (w : nat) (lo hi : Z) (s : string) : option (Z * string) :=
  if bool_decide (w ≤ String.length s)%nat then
    v ← parse_digits 0 (str_take w s);
    if bool_decide (lo ≤ v ≤ hi) then Some (v, str_drop w s) else None
  else None.

Fixpoint digit_run (s : string) : string * string :=
  match s with
  | EmptyString => ("", "")
  | String c r =>
    match digit_val c with
    | Some _ => let '(ds, rest) := digit_run r in (String c ds, rest)
    | None => ("", s)
    end
  end.

(** An optional fraction; digits past the ninth are dropped. *)
Definition parse_frac (s : string) : option (Z * string) :=
  match CutPrefix s "." with
  | Some r =>
    let '(ds, rest) := digit_run r in
    if bool_decide (ds = "") then Some (0, s)
    else ns ← parse_digits 0 (str_take 9 (ds +:+ zeros 9)); Some (ns, rest)
  | None => Some (0, s)
  end.

Definition parse_zone (s : string) : option Z :=
  if bool_decide (s = "Z") then Some 0 else
  match s with
  | String c r =>
    sgn ← (if bool_decide (c = "-"%char) then Some (-1)
           else if bool_decide (c = "+"%char) then Some 1 else None);
    '(hr, r) ← field 2 0 23 r;
    r ← CutPrefix r ":";
    '(mm, r) ← field 2 0 59 r;
    if bool_decide (r = "") then Some (sgn * (hr * 60 + mm)) else None
  | EmptyString => None
  end.

Definition parse_fields (s : string) : option Z :=
  '(y, s) ← field 4 0 9999 s;
  s ← CutPrefix s "-";
  '(m, s) ← field 2 1 12 s;
  s ← CutPrefix s "-";
  '(d, s) ← field 2 1 (daysIn m y) s;
  s ← CutPrefix s "T";
  '(hh, s) ← field 2 0 23 s;
  s ← CutPrefix s ":";
  '(mi, s) ← field 2 0 59 s;
  s ← CutPrefix s ":";
  '(ss, s) ← field 2 0 59 s;
  '(ns, s) ← parse_frac s;
  off ← parse_zone s;
  Some ((day_of_civil y m d * 86400 + hh * 3600 + mi * 60 + ss - off * 60) * Second + ns).

Definition parse (s : string) : result Z :=
  match parse_fields s with
  | Some t => Ok t
  | None => Err (ErrOther "cannot parse as RFC 3339")
  end.

(** *** Round trip *)

Lemma field_app w lo hi v r :
  0 ≤ v < 10 ^ Z.of_nat w → lo ≤ v ≤ hi → field w lo hi (dec_digits w v +:+ r) = Some (v, r).
Proof.
  intros Hv Hr. unfold field. pose proof (dec_digits_length w v) as Hl.
  rewrite bool_decide_true by (rewrite string_length_app; lia).
  set (D := dec_digits w v) in *.
  assert (str_take w (D +:+ r) = D) as -> by (rewrite <- Hl; apply str_take_app).
  assert (str_drop w (D +:+ r) = r) as -> by (rewrite <- Hl; apply str_drop_app).
  unfold D. rewrite parse_dec_digits. cbn.
  rewrite Z.mod_small by done. by rewrite bool_decide_true.
Qed.

Lemma trim0_spec s : trim0 s +:+ zeros (String.length s - String.length (trim0 s)) = s.
Proof.
  induction s as [|c r IH]; [done|]. cbn [trim0]. case_bool_decide as H.
  - destruct H as [-> H]. rewrite H in IH. cbn in IH |- *. rewrite Nat.sub_0_r in IH.
    change (String "0" (zeros (String.length r)) = String "0" r). f_equal. exact IH.
  - cbn [String.length Nat.sub]. change (String c (trim0 r) +:+ ?z) with (String c (trim0 r +:+ z)).
    by f_equal.
Qed.

Lemma str_take_zeros k n : (k ≤ n)%nat → str_take k (zeros n) = zeros k.
Proof. revert n. induction k as [|k IH]; intros [|n] H; try done; [lia|]. cbn. f_equal. apply IH. lia. Qed.

Definition all_digits (s : string) : Prop := ∃ acc v, parse_digits acc s = Some v.

Lemma digit_run_app s r :
  all_digits s → fst (digit_run r) = "" → digit_run (s +:+ r) = (s, r).
Proof.
  intros (acc & v & Hs) Hr. revert acc Hs. induction s as [|c s IH]; intros acc.
  - intros _. change ("" +:+ r) with r. destruct r as [|c r]; [done|]. cbn in *.
    destruct (digit_val c); [|done]. by destruct (digit_run r).
  - cbn [parse_digits]. change (String c s +:+ r) with (String c (s +:+ r)). cbn [digit_run].
    destruct (digit_val c) as [d|]; [|done]. cbn. intros Hs. by rewrite (IH _ Hs).
Qed.

Lemma all_digits_app_l a b : all_digits (a +:+ b) → all_digits a.
Proof.
  intros (acc & v & H). exists acc. revert acc H. induction a as [|c a IH]; intros acc.
  - intros _. by exists acc.
  - change (String c a +:+ b) with (String c (a +:+ b)). cbn [parse_digits].
    destruct (digit_val c); [|done]. cbn. intros H. by destruct (IH _ H) as [v' ?]; exists v'.
Qed.

Lemma parse_frac_app ns r :
  0 ≤ ns < Second → fst (digit_run r) = "" → (∀ x, r ≠ String "." x) →
  parse_frac (fmt_frac ns +:+ r) = Some (ns, r).
Proof.
  intros Hns Hr Hdot. unfold fmt_frac. case_bool_decide as H0.
  - subst. change ("" +:+ r) with r. unfold parse_frac.
    destruct (CutPrefix r ".") as [x|] eqn:E; [|done]. apply CutPrefix_Some in E. by destruct (Hdot x).
  - rewrite string_app_assoc. unfold parse_frac. rewrite CutPrefix_app. pose proof (trim0_spec (dec_digits 9 ns)) as Ht.
    pose proof (parse_dec_digits 9 ns 0) as Hp. rewrite Z.mul_0_l, Z.add_0_l, Z.mod_small in Hp by done.
    rewrite digit_run_app; [|eapply all_digits_app_l; rewrite Ht; by eexists _, _|done].
    rewrite bool_decide_false.
    + set (f := trim0 (dec_digits 9 ns)) in *.
      rewrite dec_digits_length in Ht.
      assert (String.length f ≤ 9)%nat as Hf.
      { apply (f_equal String.length) in Ht. rewrite string_length_app, dec_digits_length in Ht. lia. }
      assert (str_take 9 (f +:+ zeros 9) = dec_digits 9 ns) as ->; [|by rewrite Hp].
      rewrite str_take_app_ge by done. rewrite <- Ht. f_equal.
      apply str_take_zeros. lia.
    + intros E. rewrite E in Ht. cbn [String.length] in Ht. rewrite dec_digits_length, Nat.sub_0_r in Ht.
      change ("" +:+ zeros 9) with (zeros 9) in Ht. rewrite <- Ht in Hp. vm_compute in Hp. congruence.
Qed.

Lemma parse_zone_fmt off : -1440 < off < 1440 → parse_zone (fmt_zone off) = Some off.
Proof.
  intros H. unfold fmt_zone. case_bool_decide as H0; [by subst|].
  assert (0 ≤ Z.abs off `div` 60 < 24) by lia. assert (0 ≤ Z.abs off `mod` 60 < 60) by lia.
  set (h := Z.abs off `div` 60) in *. set (mm := Z.abs off `mod` 60) in *.
  rewrite <- (string_app_nil_r (dec_digits 2 mm)).
  assert (∀ c sgn, (if bool_decide (c = "-"%char) then Some (-1)
           else if bool_decide (c = "+"%char) then Some 1 else None) = Some sgn → c ≠ "Z"%char →
    parse_zone (String c (dec_digits 2 h +:+ ":" +:+ dec_digits 2 mm +:+ "")) = Some (sgn * (h * 60 + mm))) as Hgo.
  { intros c sgn Hsgn Hc. unfold parse_zone. rewrite bool_decide_false by congruence. rewrite Hsgn.
    cbn -[dec_digits field CutPrefix]. rewrite field_app by (change (10 ^ Z.of_nat 2) with 100; lia).
    cbn -[dec_digits field CutPrefix]. rewrite CutPrefix_app.
    cbn -[dec_digits field]. by rewrite field_app by (change (10 ^ Z.of_nat 2) with 100; lia). }
  case_bool_decide as Hneg.
  - etrans; [by apply (Hgo _ (-1))|]. f_equal. unfold h, mm. lia.
  - etrans; [by apply (Hgo _ 1)|]. f_equal. unfold h, mm. lia.
Qed.

Lemma fmt_year_digits y : 0 ≤ y ≤ 9999 → fmt_year y = dec_digits 4 y.
Proof.
  intros H. unfold fmt_year. rewrite bool_decide_false by lia.
  assert (ndigits y ≤ 4)%nat by (apply ndigits_le; [change (10 ^ Z.of_nat 4) with 10000|]; lia).
  destruct (ndigits_spec y) as [? _]; [lia|].
  unfold pad0, FormatUint. rewrite dec_digits_length, zeros_app_dec by lia. f_equal. lia.
Qed.

Lemma fmt_zone_head off :
  fst (digit_run (fmt_zone off)) = "" ∧ ∀ x, fmt_zone off ≠ String "." x.
Proof. unfold fmt_zone. repeat case_bool_decide; done. Qed.

(** Instants whose local year has four digits. *)
Definition year4 (off t : Z) : Prop :=
  0 ≤ (civil_of_day ((t + off * 60 * Second) `div` (86400 * Second))).1.1 ≤ 9999.

(** One field or separator of the text. *)
Local Ltac step := cbn -[dec_digits field CutPrefix parse_frac fmt_frac fmt_zone parse_zone daysIn];
  first [rewrite CutPrefix_app | rewrite field_app by (change (10 ^ Z.of_nat 2) with 100; lia)
        | rewrite field_app by (change (10 ^ Z.of_nat 4) with 10000; lia)].

Lemma parse_format off t :
  -1440 < off < 1440 → year4 off t → parse (format off t) = Ok t.
Proof.
  intros Hoff Hy. unfold parse, format, year4 in *.
  set (l := t + off * 60 * Second) in *.
  pose proof (civil_of_day_spec (l `div` (86400 * Second))) as Hc.
  destruct (civil_of_day (l `div` (86400 * Second))) as [[y m] d]. cbn in Hy.
  destruct Hc as (Hday & Hm & Hd).
  pose proof (daysIn_le m y) as Hdi.
  set (sod := (l `mod` (86400 * Second)) `div` Second).
  assert (0 ≤ sod < 86400) as Hsod by (unfold sod, Second; lia).
  assert (0 ≤ l `mod` Second < Second) as Hns by (apply Z.mod_pos_bound; done).
  destruct (fmt_zone_head off) as [Hz1 Hz2].
  unfold parse_fields. rewrite fmt_year_digits by lia.
  do 11 step. cbn -[parse_frac fmt_frac fmt_zone parse_zone].
  rewrite parse_frac_app by done. cbn -[fmt_zone parse_zone].
  rewrite parse_zone_fmt by done. cbn. f_equal. rewrite Hday.
  unfold sod, l, Second in *. lia.
Qed.

End Rfc3339.

(** The texts of a host whose clock is [off] minutes east of UTC. *)
#[export, refine] Instance rfc3339 (off : Z) (Hoff : -1440 < off < 1440) : TimeText := {|
  Format := Rfc3339.format off;
  Parse := Rfc3339.parse;
  printable := Rfc3339.year4 off;
|}.
Proof. intros t. by apply Rfc3339.parse_format. Defined.

(** UTC, the zone of the worked examples. *)
Definition utc : TimeText := rfc3339 0 ltac:(lia).

Example rfc3339_examples :
  Rfc3339.format 0 1700000000123450000 = "2023-11-14T22:13:20.12345Z" ∧
  Rfc3339.format 330 1700000000000000000 = "2023-11-15T03:43:20+05:30" ∧
  Rfc3339.format 0 zeroTime = "0001-01-01T00:00:00Z" ∧
  Rfc3339.parse "2023-11-15T03:43:20+05:30" = Ok 1700000000000000000 ∧
  is_Ok (Rfc3339.parse "2023-02-30T00:00:00Z") = false ∧
  is_Ok (Rfc3339.parse "soon") = false.
Proof. by vm_compute. Qed.

(** The instants of the three centuries from the epoch print in UTC. *)
Lemma utc_printable t : 0 ≤ t ≤ 10 ^ 19 → @printable utc t.
Proof.
  intros Ht. change (Rfc3339.year4 0 t). unfold Rfc3339.year4, Calendar.civil_of_day.
  assert (0 ≤ (t + 0 * 60 * Second) `div` (86400 * Second) ≤ 10 ^ 6) as Hd.
  { unfold Second. split; [apply Z.div_pos; lia|]. apply Z.div_le_upper_bound; lia. }
  set (d := _ `div` _) in *. clearbody d. unfold Calendar.split_year.
  set (x := d + Calendar.epoch). assert (0 ≤ x ≤ 10 ^ 6 + 719162) as Hx by (unfold x, Calendar.epoch; lia).
  clearbody x. cbn zeta.
  destruct (Calendar.split_month _ _ _) as [m md]. cbn [fst].
  set (r := x `mod` 146097). assert (0 ≤ r < 146097) by (unfold r; lia).
  assert (0 ≤ x `div` 146097 ≤ 20) by lia.
  set (n100 := Z.min 3 (r `div` 36524)). assert (0 ≤ n100 ≤ 3) by (unfold n100; lia).
  assert (0 ≤ r - 36524 * n100 ≤ 36524) by (unfold n100; lia).
  assert (0 ≤ (r - 36524 * n100) `div` 1461 ≤ 25) by lia.
  lia.
Qed.
