(* ===== verification/Md5.v ===== *)
(** * [md5.Sum]

    The checksum the drivers compare with a caller's [ContentMD5] and report
    in an object's attributes, on bytes as 8-bit integers and 32-bit words. *)
From S2P Require Import Prelude.

Module Md5.

Definition w32 (x : Z) : Z := x `mod` 2 ^ 32.
Definition not32 (x : Z) : Z := 2 ^ 32 - 1 - x.
Definition rotl (x s : Z) : Z := w32 (Z.lor (Z.shiftl x s) (Z.shiftr x (32 - s))).

Definition shifts : list Z :=
  [
   7; 12; 17; 22; 7; 12; 17; 22; 7; 12; 17; 22; 7; 12; 17; 22;
   5; 9; 14; 20; 5; 9; 14; 20; 5; 9; 14; 20; 5; 9; 14; 20;
   4; 11; 16; 23; 4; 11; 16; 23; 4; 11; 16; 23; 4; 11; 16; 23;
   6; 10; 15; 21; 6; 10; 15; 21; 6; 10; 15; 21; 6; 10; 15; 21].

Definition sines : list Z :=
  [
   3614090360; 3905402710; 606105819; 3250441966; 4118548399; 1200080426;
   2821735955; 4249261313; 1770035416; 2336552879; 4294925233; 2304563134;
   1804603682; 4254626195; 2792965006; 1236535329; 4129170786; 3225465664;
   643717713; 3921069994; 3593408605; 38016083; 3634488961; 3889429448;
   568446438; 3275163606; 4107603335; 1163531501; 2850285829; 4243563512;
   1735328473; 2368359562; 4294588738; 2272392833; 1839030562; 4259657740;
   2763975236; 1272893353; 4139469664; 3200236656; 681279174; 3936430074;
   3572445317; 76029189; 3654602809; 3873151461; 530742520; 3299628645;
   4096336452; 1126891415; 2878612391; 4237533241; 1700485571; 2399980690;
   4293915773; 2240044497; 1873313359; 4264355552; 2734768916; 1309151649;
   4149444226; 3174756917; 718787259; 3951481745].

Fixpoint bytes_of (s : string) : list Z :=
  match s with
  | EmptyString => []
  | String c s => Z.of_N (Ascii.N_of_ascii c) :: bytes_of s
  end.

Fixpoint string_of (l : list Z) : string :=
  match l with
  | [] => ""
  | b :: l => String (Ascii.ascii_of_N (Z.to_N b)) (string_of l)
  end.

(** Little-endian bytes of the low [8 * n] bits. *)
Fixpoint le_bytes (n : nat) (x : Z) : list Z :=
  match n with
  | O => []
  | S n => x `mod` 256 :: le_bytes n (x `div` 256)
  end.

(** The words of a block, four bytes each, little-endian. *)
Fixpoint words (l : list Z) : list Z :=
  match l with
  | a :: b :: c :: d :: l => a + 2 ^ 8 * b + 2 ^ 16 * c + 2 ^ 24 * d :: words l
  | _ => []
  end.

(** One 0x80 byte, zeros up to 56 bytes of the last block, the bit length. *)
Definition padded (l : list Z) : list Z :=
  let n := Z.of_nat (length l) in
  l ++ 128 :: replicate (Z.to_nat ((55 - n) `mod` 64)) 0 ++ le_bytes 8 (8 * n).

Definition round (i : nat) (m : list Z) (st : Z * Z * Z * Z) : Z * Z * Z * Z :=
  let '(a, b, c, d) := st in
  let '(f, g) :=
    if (i <? 16)%nat then (Z.lor (Z.land b c) (Z.land (not32 b) d), i)
    else if (i <? 32)%nat then (Z.lor (Z.land d b) (Z.land (not32 d) c), ((5 * i + 1) mod 16)%nat)
    else if (i <? 48)%nat then (Z.lxor (Z.lxor b c) d, ((3 * i + 5) mod 16)%nat)
    else (Z.lxor c (Z.lor b (not32 d)), ((7 * i) mod 16)%nat) in
  let f := w32 (f + a + nth i sines 0 + nth g m 0) in
  (d, w32 (b + rotl f (nth i shifts 0)), b, c).

Definition block (m : list Z) (st : Z * Z * Z * Z) : Z * Z * Z * Z :=
  let '(a, b, c, d) := fold_left (fun st i => round i m st) (seq 0 64) st in
  let '(a0, b0, c0, d0) := st in
  (w32 (a0 + a), w32 (b0 + b), w32 (c0 + c), w32 (d0 + d)).

(** The blocks of a padded message: one unit of fuel per 64 bytes. *)
Fixpoint blocks (fuel : nat) (l : list Z) (st : Z * Z * Z * Z) : Z * Z * Z * Z :=
  match fuel, l with
  | S fuel, _ :: _ => blocks fuel (drop 64 l) (block (words (take 64 l)) st)
  | _, _ => st
  end.

Definition sum_bytes (s : string) : list Z :=
  let l := padded (bytes_of s) in
  let '(a, b, c, d) := blocks (length l) l (1732584193, 4023233417, 2562383102, 271733878) in
  le_bytes 4 a ++ le_bytes 4 b ++ le_bytes 4 c ++ le_bytes 4 d.

End Md5.

(** [md5.Sum(p)[:]], sixteen bytes. *)
Definition md5_Sum (p : bytes) : bytes := Md5.string_of (Md5.sum_bytes p).
#[global] Arguments md5_Sum : simpl never.

Lemma md5_Sum_length p : String.length (md5_Sum p) = 16%nat.
Proof.
  unfold md5_Sum, Md5.sum_bytes. destruct (Md5.blocks _ _ _) as [[[a b] c] d]. done.
Qed.

Lemma md5_Sum_nonempty p : strlen (md5_Sum p) > 0.
Proof. unfold strlen. rewrite md5_Sum_length. lia. Qed.

Example md5_examples :
  Md5.sum_bytes "" = [0xd4; 0x1d; 0x8c; 0xd9; 0x8f; 0x00; 0xb2; 0x04; 0xe9; 0x80; 0x09; 0x98; 0xec; 0xf8; 0x42; 0x7e] ∧
  Md5.sum_bytes "abc" = [0x90; 0x01; 0x50; 0x98; 0x3c; 0xd2; 0x4f; 0xb0; 0xd6; 0x96; 0x3f; 0x7d; 0x28; 0xe1; 0x7f; 0x72].
Proof. by vm_compute. Qed.
