(* ===== verification/Core.v ===== *)
(** * The root package's data and helpers (blobster.go)

    Attributes, options, preconditions, metadata and the list iterator.  A
    nil-able pointer is an [option]; a callback ([BeforeWrite] and the like)
    is what it returns when it is called: [None] is a nil callback,
    [Some None] one that returns nil, [Some (Some e)] one that fails. *)
From S2P Require Import Prelude Strconv GoTime Md5.

(** What the code takes from Go's Unicode and MIME tables: the lower-casing of
    a string that is not ASCII, and content sniffing. *)
Class GoTables := {
  unicode_lower : string → string;
  DetectContentType : bytes → string;
}.

Definition FirstPageToken : bytes := "first page".

(** A Go [map[string]string], nil included. *)
Abbreviation metadata := (option (gmap string string)) (only parsing).

Abbreviation hook := (option (option error)) (only parsing).

Definition run_hook (h : hook) : option error := h ≫= id.
#[global] Arguments run_hook : simpl never.

Record Attributes := mkAttributes {
  a_CacheControl : string;
  a_ContentDisposition : string;
  a_ContentEncoding : string;
  a_ContentLanguage : string;
  a_ContentType : string;
  a_Metadata : metadata;
  a_CreateTime : Z;
  a_ModTime : Z;
  a_Size : Z;
  a_MD5 : bytes;
  a_Version : string;
  a_Native : option nat;
}.

Record Capabilities := mkCapabilities {
  ConditionalWrites : bool;
  CapCopy : bool;
  CapList : bool;
  CapListPage : bool;
  RangeRead : bool;
  CapSignedURL : bool;
  CrossRegionCopy : bool;
}.

Record WriterOptions := mkWriterOptions {
  o_BufferSize : Z;
  o_MaxConcurrency : Z;
  o_CacheControl : string;
  o_ContentDisposition : string;
  o_ContentEncoding : string;
  o_ContentLanguage : string;
  o_ContentType : string;
  o_DisableContentTypeDetection : bool;
  o_ContentMD5 : bytes;
  o_Metadata : metadata;
  o_BeforeWrite : hook;
}.

(** [&WriterOptions{}]. *)
Definition zeroWriterOptions : WriterOptions :=
  mkWriterOptions 0 0 "" "" "" "" "" false "" None None.

Record ListOptions := mkListOptions {
  l_Prefix : string;
  l_Delimiter : string;
  l_BeforeList : hook;
}.

Record ListObject := mkListObject {
  lo_Key : string;
  lo_ModTime : Z;
  lo_Size : Z;
  lo_MD5 : bytes;
  lo_IsDir : bool;
}.

(** An [io.Reader] read to its end: the bytes it delivers, and the error it
    ends with, nil being io.EOF. *)
Record source := mkSource {
  s_bytes : bytes;
  s_err : option error;
}.

(** ** Metadata *)

Definition is_ascii (s : string) : bool :=
  forallb (fun c => bool_decide (Ascii.N_of_ascii c < 128)%N) (String.list_ascii_of_string s).

Definition lower_ascii (c : ascii) : ascii :=
  let n := Ascii.N_of_ascii c in
  if bool_decide (65 ≤ n ≤ 90)%N then Ascii.ascii_of_N (n + 32) else c.

Fixpoint string_map (f : ascii → ascii) (s : string) : string :=
  match s with
  | EmptyString => ""
  | String c s => String (f c) (string_map f s)
  end.

(** [strings.ToLower]: byte by byte on ASCII, the Unicode tables otherwise. *)
Definition ToLower `{GoTables} (s : string) : string :=
  if is_ascii s then string_map lower_ascii s else unicode_lower s.

(** [CloneMetadata]: nil stays nil, a map is copied entry by entry. *)
Definition CloneMetadata (md : metadata) : metadata :=
  match md with
  | None => None
  | Some m => Some (foldr (fun '(k, v) out => <[k := v]> out) ∅ (map_to_list m))
  end.

Section metadata.
Context `{GoTables}.

(** The loop of [NormalizeMetadata] over the map's entries, in the order the
    range statement happens to visit them. *)
Fixpoint normalize_entries (es : list (string * string)) (out : gmap string string)
    : result (gmap string string) :=
  match es with
  | [] => Ok out
  | (key, value) :: es =>
    if bool_decide (key = "") then Err ErrInvalidOption
    else
      let normalized := ToLower key in
      match out !! normalized with
      | Some _ => Err ErrInvalidOption
      | None => normalize_entries es (<[normalized := value]> out)
      end
  end.

Definition NormalizeMetadata (md : metadata) : result metadata :=
  match md with
  | None => Ok None
  | Some m => out ← normalize_entries (map_to_list m) ∅; Ok (Some out)
  end.

(** [Attributes.Clone] on a non-nil receiver. *)
Definition Attributes_Clone (a : Attributes) : Attributes :=
  mkAttributes (a_CacheControl a) (a_ContentDisposition a) (a_ContentEncoding a)
    (a_ContentLanguage a) (a_ContentType a) (CloneMetadata (a_Metadata a)) (a_CreateTime a)
    (a_ModTime a) (a_Size a) (a_MD5 a) (a_Version a) (a_Native a).

(** [out.Metadata = metadata] and the other single-field assignments the
    option helpers make. *)
Definition set_o_Metadata (md : metadata) (o : WriterOptions) : WriterOptions :=
  mkWriterOptions (o_BufferSize o) (o_MaxConcurrency o) (o_CacheControl o)
    (o_ContentDisposition o) (o_ContentEncoding o) (o_ContentLanguage o) (o_ContentType o)
    (o_DisableContentTypeDetection o) (o_ContentMD5 o) md (o_BeforeWrite o).

Definition set_o_ContentType (ct : string) (o : WriterOptions) : WriterOptions :=
  mkWriterOptions (o_BufferSize o) (o_MaxConcurrency o) (o_CacheControl o)
    (o_ContentDisposition o) (o_ContentEncoding o) (o_ContentLanguage o) ct
    (o_DisableContentTypeDetection o) (o_ContentMD5 o) (o_Metadata o) (o_BeforeWrite o).

Definition set_o_ContentMD5 (sum : bytes) (o : WriterOptions) : WriterOptions :=
  mkWriterOptions (o_BufferSize o) (o_MaxConcurrency o) (o_CacheControl o)
    (o_ContentDisposition o) (o_ContentEncoding o) (o_ContentLanguage o) (o_ContentType o)
    (o_DisableContentTypeDetection o) sum (o_Metadata o) (o_BeforeWrite o).

(** [WriterOptions.Clone]. *)
Definition WriterOptions_Clone (opts : option WriterOptions) : result WriterOptions :=
  match opts with
  | None => Ok zeroWriterOptions
  | Some o =>
    md ← NormalizeMetadata (o_Metadata o);
    Ok (set_o_Metadata md o)
  end.

Definition PrepareWriteAllOptions (opts : option WriterOptions) (p : bytes) : result WriterOptions :=
  out ← WriterOptions_Clone opts;
  let out :=
    if bool_decide (o_ContentType out = "") && negb (o_DisableContentTypeDetection out)
    then set_o_ContentType (DetectContentType p) out else out in
  let out :=
    if bool_decide (strlen (o_ContentMD5 out) = 0)
    then set_o_ContentMD5 (md5_Sum p) out else out in
  Ok out.

Definition RequireUploadOptions (opts : option WriterOptions) : result WriterOptions :=
  out ← WriterOptions_Clone opts;
  if bool_decide (o_ContentType out = "") then Err ErrInvalidOption else Ok out.

End metadata.

Definition cloneListOptions (opts : option ListOptions) : ListOptions :=
  match opts with
  | None => mkListOptions "" "" None
  | Some o => o
  end.

(** ** Preconditions *)

Record Preconditions := mkPreconditions {
  p_IfNotExists : bool;
  p_IfMatch : string;
  p_IfNotMatch : string;
}.

Definition zeroPreconditions : Preconditions := mkPreconditions false "" "".

Inductive Precondition :=
| IfNotExists
| IfMatch (version : string)
| IfNotMatch (version : string).

(** The three [apply] methods. *)
Definition apply (p : Precondition) (out : Preconditions) : Preconditions :=
  match p with
  | IfNotExists => mkPreconditions true (p_IfMatch out) (p_IfNotMatch out)
  | IfMatch v => mkPreconditions (p_IfNotExists out) v (p_IfNotMatch out)
  | IfNotMatch v => mkPreconditions (p_IfNotExists out) (p_IfMatch out) v
  end.

(** The loop of [CompilePreconditions]; a nil element is skipped. *)
Fixpoint apply_all (ps : list (option Precondition)) (out : Preconditions) : Preconditions :=
  match ps with
  | [] => out
  | None :: ps => apply_all ps out
  | Some p :: ps => apply_all ps (apply p out)
  end.

(** How many kinds of precondition are set. *)
Definition count_set (out : Preconditions) : nat :=
  ((if p_IfNotExists out then 1 else 0)
   + (if bool_decide (p_IfMatch out = "") then 0 else 1)
   + (if bool_decide (p_IfNotMatch out = "") then 0 else 1))%nat.

Definition CompilePreconditions (ps : list (option Precondition)) : result Preconditions :=
  let out := apply_all ps zeroPreconditions in
  if bool_decide (1 < count_set out)%nat then Err ErrInvalidOption else Ok out.

(** ** The list iterator *)

(** [ListPage] of the bucket being listed, at the moment it is called. *)
Abbreviation page_source :=
  (bytes → Z → option ListOptions → result (list ListObject * bytes)) (only parsing).

Record ListIterator := mkListIterator {
  li_opts : ListOptions;
  li_pageToken : bytes;
  li_page : list ListObject;
  li_done : bool;
  li_pageSize : Z;
}.

Definition NewListIterator (opts : option ListOptions) : ListIterator :=
  mkListIterator (cloneListOptions opts) FirstPageToken [] false 1000.

(** [ListIterator.Next].  The loop asks for pages until one has an entry: the
    fuel bounds how many pages one call may fetch, [None] is running out. *)
Fixpoint Next (ListPage : page_source) (fuel : nat) (i : ListIterator)
    : option (ListIterator * result ListObject) :=
  match li_page i with
  | next :: rest =>
    Some (mkListIterator (li_opts i) (li_pageToken i) rest (li_done i) (li_pageSize i), Ok next)
  | [] =>
    if li_done i then Some (i, Err EOF)
    else
      match fuel with
      | O => None
      | S fuel =>
        match ListPage (li_pageToken i) (li_pageSize i) (Some (li_opts i)) with
        | Err e => Some (i, Err e)
        | Ok (page, next) =>
          Next ListPage fuel
            (mkListIterator (li_opts i) next page
               (li_done i || bool_decide (strlen next = 0)) (li_pageSize i))
        end
      end
  end.

(** [ListIterator.All]: the objects yielded, until the consumer stops, the
    listing ends, or an error is kept for the second result. *)
Fixpoint All (ListPage : page_source) (yield : ListObject → bool) (fuel : nat) (i : ListIterator)
    : option (list ListObject * option error) :=
  match fuel with
  | O => None
  | S fuel =>
    match Next ListPage (S fuel) i with
    | None => None
    | Some (_, Err e) => Some ([], if Is e EOF then None else Some e)
    | Some (i', Ok obj) =>
      if yield obj then
        '(objs, err) ← All ListPage yield fuel i'; Some (obj :: objs, err)
      else Some ([obj], None)
    end
  end.

(** ** Facts *)

Lemma CloneMetadata_id md : CloneMetadata md = md.
Proof.
  destruct md as [m|]; [|done]. cbn. f_equal.
  rewrite <- (list_to_map_to_list m) at 2.
  induction (map_to_list m) as [|[k v] l IH]; [done|]. cbn. by rewrite IH.
Qed.

Lemma Attributes_Clone_id a : Attributes_Clone a = a.
Proof. destruct a. unfold Attributes_Clone. cbn. by rewrite CloneMetadata_id. Qed.

#[export] Hint Rewrite CloneMetadata_id Attributes_Clone_id : blob.

Lemma compile_nil : CompilePreconditions [] = Ok zeroPreconditions.
Proof. done. Qed.

Lemma compile_IfNotExists : CompilePreconditions [Some IfNotExists] = Ok (mkPreconditions true "" "").
Proof. done. Qed.

Lemma compile_IfMatch v : CompilePreconditions [Some (IfMatch v)] = Ok (mkPreconditions false v "").
Proof.
  unfold CompilePreconditions, count_set. cbn. rewrite bool_decide_false; [done|].
  repeat case_bool_decide; congruence || lia.
Qed.

Section facts.
Context `{GoTables}.

(** The entries [es] normalise: no empty key, and no two keys that lower-case
    to the same name. *)
Definition normalizable (es : list (string * string)) : Prop :=
  Forall (fun '(k, _) => k ≠ "") es ∧ NoDup (ToLower ∘ fst <$> es).

Definition normalized (es : list (string * string)) : list (string * string) :=
  (fun '(k, v) => (ToLower k, v)) <$> es.

Lemma normalized_fst es : (normalized es).*1 = ToLower ∘ fst <$> es.
Proof. induction es as [|[k v] es IH]; [done|]. cbn. by f_equal. Qed.

Lemma normalize_entries_spec es out :
  (∃ out', normalize_entries es out = Ok out' ∧ normalizable es ∧
     Forall (fun '(k, _) => out !! ToLower k = None) es ∧
     out' = list_to_map (normalized es) ∪ out) ∨
  (normalize_entries es out = Err ErrInvalidOption ∧
     ¬ (normalizable es ∧ Forall (fun '(k, _) => out !! ToLower k = None) es)).
Proof.
  unfold normalizable. revert out. induction es as [|[k v] es IH]; intros out; cbn.
  { left. exists out. repeat split; [constructor..|]. by rewrite map_empty_union. }
  case_bool_decide as Hk; [right; split; [done|]; intros [[Hf _] _]; by inversion Hf|].
  destruct (out !! ToLower k) eqn:Ho.
  { right. split; [done|]. intros [_ Hf]. inversion Hf; simplify_eq. }
  destruct (IH (<[ToLower k:=v]> out)) as [(out' & -> & [Hne Hnd] & Hfr & ->)|[-> Hbad]].
  - left. exists (list_to_map (normalized es) ∪ <[ToLower k:=v]> out).
    assert (Forall (fun '(k', _) => ToLower k' ≠ ToLower k ∧ out !! ToLower k' = None) es) as Hfr'.
    { eapply Forall_impl; [exact Hfr|]. intros [k' v'] Hl.
      apply lookup_insert_None in Hl as [? ?]. done. }
    assert (ToLower k ∉ ToLower ∘ fst <$> es) as Hnin.
    { intros (e & He1 & He2)%list_elem_of_fmap. rewrite Forall_forall in Hfr'.
      specialize (Hfr' e He2). destruct e as [k' v']. by destruct Hfr' as [[]]. }
    repeat split.
    + by constructor.
    + by constructor.
    + constructor; [done|]. eapply Forall_impl; [exact Hfr'|]. by intros [] [].
    + cbn. rewrite <- insert_union_r; [by rewrite insert_union_l|].
      apply not_elem_of_list_to_map_1. by rewrite normalized_fst.
  - right. split; [done|]. intros [[Hne Hnd] Hfr].
    apply Forall_cons in Hne as [_ Hne]. apply NoDup_cons in Hnd as [Hnin Hnd].
    apply Forall_cons in Hfr as [_ Hfr]. apply Hbad. split; [done|].
    rewrite Forall_forall in *. intros [k' v'] He. rewrite lookup_insert_ne; [by apply (Hfr (k', v'))|].
    intros E. apply Hnin. cbn. rewrite E. apply list_elem_of_fmap. by exists (k', v').
Qed.

Lemma normalize_entries_ok es :
  normalizable es → normalize_entries es ∅ = Ok (list_to_map (normalized es)).
Proof.
  intros Hes. destruct (normalize_entries_spec es ∅) as [(out' & -> & _ & _ & ->)|[_ Hbad]].
  - by rewrite map_union_empty.
  - destruct Hbad. split; [done|]. apply Forall_forall. intros [k v] _. apply lookup_empty.
Qed.

Lemma normalize_entries_err es :
  ¬ normalizable es → normalize_entries es ∅ = Err ErrInvalidOption.
Proof.
  intros Hes. by destruct (normalize_entries_spec es ∅) as [(out' & _ & ? & _)|[-> _]].
Qed.

#[export] Instance normalizable_dec es : Decision (normalizable es).
Proof. unfold normalizable. apply and_dec; [|apply _]. apply Forall_dec. intros [k v]. apply _. Defined.

#[export] Instance normalizable_proper : Proper ((≡ₚ) ==> iff) normalizable.
Proof. intros es es' E. unfold normalizable. by rewrite E. Qed.

Lemma normalize_entries_perm es es' :
  es ≡ₚ es' → normalize_entries es ∅ = normalize_entries es' ∅.
Proof.
  intros E. destruct (decide (normalizable es)) as [Hn|Hn].
  - rewrite (normalize_entries_ok es Hn). rewrite E in Hn.
    rewrite (normalize_entries_ok es' Hn). f_equal. apply list_to_map_proper.
    + rewrite normalized_fst. rewrite <- E in Hn. apply Hn.
    + unfold normalized. by rewrite E.
  - rewrite (normalize_entries_err es Hn). rewrite E in Hn.
    by rewrite (normalize_entries_err es' Hn).
Qed.

(** A map whose keys are distinct, non-empty, lower-case ASCII names is its
    own normal form: what the lock and the queue store as metadata. *)
Lemma NormalizeMetadata_lower m :
  (∀ k, is_Some (m !! k) → k ≠ "" ∧ ToLower k = k) → NormalizeMetadata (Some m) = Ok (Some m).
Proof.
  intros Hm. assert (normalized (map_to_list m) = map_to_list m) as Hid.
  { unfold normalized. rewrite <- (list_fmap_id (map_to_list m)) at 2.
    apply list_fmap_ext. intros i [k v] Hl%list_elem_of_lookup_2.
    apply elem_of_map_to_list in Hl. cbn. by destruct (Hm k) as [_ ->]. }
  cbn. rewrite normalize_entries_ok; [cbn; by rewrite Hid, list_to_map_to_list|].
  split.
  - apply Forall_forall. intros [k v] Hl%elem_of_map_to_list. by apply Hm.
  - rewrite <- normalized_fst, Hid. apply NoDup_fst_map_to_list.
Qed.

(** The helpers of the root package fail with one error only. *)
Lemma CompilePreconditions_Err pre e : CompilePreconditions pre = Err e → e = ErrInvalidOption.
Proof. unfold CompilePreconditions. case_bool_decide; [by intros [= <-]|done]. Qed.

Lemma NormalizeMetadata_Err md e : NormalizeMetadata md = Err e → e = ErrInvalidOption.
Proof.
  destruct md as [m|]; [|done]. cbn. destruct (decide (normalizable (map_to_list m))) as [Hn|Hn].
  - by rewrite (normalize_entries_ok _ Hn).
  - rewrite (normalize_entries_err _ Hn). by intros [= <-].
Qed.

Lemma Clone_Err o e : WriterOptions_Clone (Some o) = Err e → e = ErrInvalidOption.
Proof.
  cbn. destruct (NormalizeMetadata (o_Metadata o)) as [md|err] eqn:E; [done|].
  intros [= <-]. by eapply NormalizeMetadata_Err.
Qed.

Lemma PrepareWriteAllOptions_Err opts p e : PrepareWriteAllOptions opts p = Err e → e = ErrInvalidOption.
Proof.
  unfold PrepareWriteAllOptions. destruct (WriterOptions_Clone opts) as [out|err] eqn:E; cbn; [done|].
  intros [= <-]. destruct opts; [by eapply Clone_Err|done].
Qed.

Lemma Prepare_BeforeWrite opts p out :
  PrepareWriteAllOptions opts p = Ok out → o_BeforeWrite out = o_BeforeWrite (default zeroWriterOptions opts).
Proof.
  unfold PrepareWriteAllOptions. destruct opts as [o|]; cbn; [|intros [= <-]; by repeat case_match].
  destruct (NormalizeMetadata _); cbn; [|done]. intros [= <-]. by repeat case_match.
Qed.

Lemma RequireUploadOptions_Err opts e : RequireUploadOptions opts = Err e → e = ErrInvalidOption.
Proof.
  unfold RequireUploadOptions. destruct (WriterOptions_Clone opts) as [out|err] eqn:E; cbn.
  - case_bool_decide; [by intros [= <-]|done].
  - intros [= <-]. destruct opts; [by eapply Clone_Err|done].
Qed.

Lemma RequireUploadOptions_hook opts o :
  RequireUploadOptions opts = Ok o → ∃ o0, opts = Some o0 ∧ o_BeforeWrite o = o_BeforeWrite o0.
Proof.
  unfold RequireUploadOptions. destruct opts as [o0|]; cbn; [|done].
  destruct (NormalizeMetadata _); cbn; [|done]. case_bool_decide; [done|]. intros [= <-]. by exists o0.
Qed.

(** What the options of a write become before they reach a writer: the
    metadata normalised twice, the hook kept. *)
Lemma writeall_options opts p out out' :
  PrepareWriteAllOptions (Some opts) p = Ok out → WriterOptions_Clone (Some out) = Ok out' →
  ∃ md md', NormalizeMetadata (o_Metadata opts) = Ok md ∧ NormalizeMetadata md = Ok md' ∧
    o_Metadata out' = md' ∧ o_BeforeWrite out' = o_BeforeWrite opts.
Proof.
  unfold PrepareWriteAllOptions, WriterOptions_Clone. cbn.
  destruct (NormalizeMetadata (o_Metadata opts)) as [md|] eqn:Hm; [|done]. cbn. intros [= <-].
  match goal with |- context [NormalizeMetadata (o_Metadata ?x)] => assert (o_Metadata x = md) as Hx end.
  { by repeat case_match. }
  rewrite Hx. destruct (NormalizeMetadata md) as [md'|] eqn:Hm'; [|done]. cbn. intros [= <-].
  exists md, md'. split_and!; try done. cbn. by repeat case_match.
Qed.

End facts.
