(* ===== verification/Effects.v ===== *)
(** * Programs over the [Bucket] interface

    The lock, the queue and the watcher are written against the interface
    [blobster.Bucket] and run concurrently on many hosts.  What they do is a
    program: a tree of calls, each answered by the environment.  [op] lists the
    calls and [ans] the type of an answer; [prog] is the tree.  The same
    program is run in sequence against a driver ([run]), and one call at a time
    against a specification, other processes moving in between ([safe]).

    The calls are the [Bucket] methods the root package uses, on a [Handle]
    (which store, and the prefix it is rooted at), and the sources of
    nondeterminism: the clock, the random generators, the waits. *)
From S2P Require Import Prelude Strconv GoTime Core.

(** A [Bucket] value as the root package holds it. *)
Record Handle := mkHandle {
  h_store : nat;
  h_prefix : string;
}.

Definition h_Sub (b : Handle) (p : string) : Handle := mkHandle (h_store b) (h_prefix b +:+ p).
Definition h_key (b : Handle) (key : string) : string := h_prefix b +:+ key.

(** A [Writer] between [NewWriter] and [Close]. *)
Record stream := mkStream {
  sw_bucket : Handle;
  sw_key : string;
  sw_opts : WriterOptions;
  sw_pre : Preconditions;
  sw_buf : bytes;
  sw_closed : bool;
}.

(** Which case of a [select] on ctx.Done(), lock.Done() and a third, ready or
    timed, case was taken. *)
Inductive selected :=
| SelCtx (err : error)
| SelDone
| SelGo.

Inductive op :=
| OAttributes (b : Handle) (key : string)
| OReadAll (b : Handle) (key : string)
| ONewReader (b : Handle) (key : string)
| OListPage (b : Handle) (token : bytes) (size : Z) (opts : ListOptions)
| OWriteAll (b : Handle) (key : string) (p : bytes) (opts : WriterOptions)
    (pre : list (option Precondition))
| ODelete (b : Handle) (key : string) (pre : list (option Precondition))
| ONewWriter (b : Handle) (key : string) (opts : WriterOptions) (pre : list (option Precondition))
| OReadFrom (w : stream) (r : source)
| OClose (w : stream)
| OCloseWithError (w : stream)
| ONow                    (** the injected clock *)
| ORandRead (n : nat)     (** crypto/rand.Read of [n] bytes *)
| ORandN (n : Z)          (** math/rand/v2's [IntN] and [Int64N] *)
| OUuid                   (** uuid.New().String() *)
| OSleep (d : Z)          (** [select] on ctx.Done() and time.After(d): [Some err] is the context *)
| OSelect (d : option Z)  (** [select] on ctx.Done(), lock.Done(), and [default] or time.After(d) *)
| OTick (d : Z).          (** [select] on ctx.Done() and a ticker: [true] is the ticker *)

Definition ans (o : op) : Type :=
  match o with
  | OAttributes _ _ => result Attributes
  | OReadAll _ _ => result bytes
  | ONewReader _ _ => result source
  | OListPage _ _ _ _ => result (list ListObject * bytes)
  | OWriteAll _ _ _ _ _ => result unit
  | ODelete _ _ _ => result unit
  | ONewWriter _ _ _ _ => result stream
  | OReadFrom _ _ => stream * result Z
  | OClose _ => stream * result unit
  | OCloseWithError _ => stream * option error
  | ONow => Z
  | ORandRead _ => result bytes
  | ORandN _ => Z
  | OUuid => string
  | OSleep _ => option error
  | OSelect _ => selected
  | OTick _ => bool
  end%type.

(** [Crash] is a process stopped by a run-time panic. *)
Inductive prog (R : Type) : Type :=
| Ret (r : R)
| Vis (o : op) (k : ans o → prog R)
| Crash.
Arguments Ret {R} r.
Arguments Vis {R} o k.
Arguments Crash {R}.

Definition trigger (o : op) : prog (ans o) := Vis o Ret.

Fixpoint prog_bind {R T} (k : R → prog T) (p : prog R) : prog T :=
  match p with
  | Ret r => k r
  | Vis o c => Vis o (fun a => prog_bind k (c a))
  | Crash => Crash
  end.

#[export] Instance prog_mret : MRet prog := fun R r => Ret r.
#[export] Instance prog_mbind : MBind prog := fun R T k p => prog_bind k p.

(** ** Sequential runs

    [exec] is a driver: its answer to a call ([None] is a panic) and its next
    state.  [env] is what the world outside the driver does during one call; a
    run takes one per call. *)
Record env := mkEnv {
  e_cx : ctx;                  (** ctx.Err() when the driver looks *)
  e_now : Z;                   (** time.Now() in the driver *)
  e_clock : Z;                 (** the injected clock *)
  e_rand : result bytes;
  e_randn : Z → Z;
  e_uuid : string;
  e_wait : option error;       (** how a wait ends: [None] is the timer *)
  e_lost : bool;               (** whether the lock held has been lost by then *)
}.

Section run.
Context {S : Type} (exec : env → ∀ o, S → option (ans o) * S).

Fixpoint run {R} (p : prog R) (envs : nat → env) (s : S) : option R * S :=
  match p with
  | Ret r => (Some r, s)
  | Crash => (None, s)
  | Vis o k =>
    match exec (envs 0%nat) o s with
    | (None, s') => (None, s')
    | (Some a, s') => run (k a) (fun i => envs (1 + i)%nat) s'
    end
  end.

(** A sequence runs its second part from the state, and the calls, its first
    part left. *)
Lemma run_bind {R T} (p : prog R) (f : R → prog T) envs s :
  ∃ m, run (p ≫= f) envs s =
  match run p envs s with
  | (Some r, s') => run (f r) (fun i => envs (m + i)%nat) s'
  | (None, s') => (None, s')
  end.
Proof.
  revert envs s. induction p as [r|o k IH|]; intros envs s; [by exists 0%nat| |by exists 0%nat].
  cbn. destruct (exec (envs 0%nat) o s) as [[a|] s']; [|by exists 0%nat].
  destruct (IH a (fun i => envs (1 + i)%nat) s') as [m Hm]. exists (1 + m)%nat. exact Hm.
Qed.

Lemma run_bind_assoc {R T U} (p : prog R) (f : R → prog T) (k : T → prog U) envs s :
  run ((p ≫= f) ≫= k) envs s = run (p ≫= λ r, f r ≫= k) envs s.
Proof.
  revert envs s. induction p as [r|o c IH|]; intros envs s; [done| |done].
  cbn. destruct (exec (envs 0%nat) o s) as [[a|] s']; [|done]. apply IH.
Qed.

End run.

(** ** What holds under every answer

    [returns p r]: some answers make [p] end with [r]; [emits p o]: some make it
    issue the call [o].  What is proved of all such [r] and [o] holds on every
    driver, whatever else uses it at the same time. *)
Fixpoint returns {R} (p : prog R) (r : R) : Prop :=
  match p with
  | Ret r' => r' = r
  | Vis o k => ∃ a, returns (k a) r
  | Crash => False
  end.

Fixpoint emits {R} (p : prog R) (o : op) : Prop :=
  match p with
  | Vis o' k => o' = o ∨ ∃ a, emits (k a) o
  | _ => False
  end.

Lemma returns_bind {R T} (p : prog R) (f : R → prog T) t :
  returns (p ≫= f) t ↔ ∃ r, returns p r ∧ returns (f r) t.
Proof.
  induction p as [r|o k IH|]; cbn.
  - split; [by eauto|]. by intros (? & -> & ?).
  - split.
    + intros (a & (r & ? & ?)%IH). eauto.
    + intros (r & (a & ?) & ?). exists a. apply IH. eauto.
  - split; [done|]. by intros (? & [] & _).
Qed.

Lemma emits_bind {R T} (p : prog R) (f : R → prog T) o :
  emits (p ≫= f) o ↔ emits p o ∨ ∃ r, returns p r ∧ emits (f r) o.
Proof.
  induction p as [r|o' k IH|]; cbn.
  - split; [by eauto|]. by intros [[]|(? & -> & ?)].
  - split.
    + intros [->|(a & [?|(r & ? & ?)]%IH)]; eauto 6.
    + intros [[->|(a & ?)]|(r & (a & ?) & ?)]; [by left|right; exists a; apply IH; by eauto..].
  - split; [done|]. by intros [[]|(? & [] & _)].
Qed.

Lemma run_returns {S R} (exec : env → ∀ o, S → option (ans o) * S) (p : prog R) envs s r s' :
  run exec p envs s = (Some r, s') → returns p r.
Proof.
  revert envs s. induction p as [r'|o k IH|]; intros envs s; cbn; [by intros [= -> _]| |done].
  destruct (exec (envs 0%nat) o s) as [[a|] s'']; [|done]. intros Hr. exists a. by eapply IH.
Qed.

(** [within A Q post p]: as long as the answers are in [A], the calls of [p] are
    in [Q] and its result in [post]. *)
Section within.
Context (A : ∀ o, ans o → Prop) (Q : op → Prop).

Fixpoint within {R} (post : R → Prop) (p : prog R) : Prop :=
  match p with
  | Ret r => post r
  | Crash => True
  | Vis o k => Q o ∧ ∀ a, A o a → within post (k a)
  end.

Lemma within_bind {R T} (post : T → Prop) (p : prog R) (k : R → prog T) :
  within (λ r, within post (k r)) p → within post (p ≫= k).
Proof. induction p as [r|o c IH|]; cbn; [done| |done]. intros [Hq Hc]. split; [done|]. intros a Ha. by apply IH, Hc. Qed.

Lemma within_mono {R} (P P' : R → Prop) (p : prog R) : (∀ r, P r → P' r) → within P p → within P' p.
Proof.
  intros HP. induction p as [r|o c IH|]; cbn; [by apply HP| |done]. intros [Hq Hc]. split; [done|].
  intros a Ha. by apply IH, Hc.
Qed.
End within.

(** ** Interleaving

    A specification of the calls, as a relation on a shared state, gives every
    program its atomic steps.  [safe] says what holds at a point of a program
    whatever the other processes do: between two calls the shared state moves
    by [rely]; each call keeps the invariant and moves it by [guar]; and at the
    end the result satisfies [post].  It is the weakest such precondition, so
    it is proved by computing on the program. *)
Section interleave.
Context {G : Type} (call : ∀ o, G → ans o → G → Prop).
Context (inv : G → Prop) (rely guar : G → G → Prop).

Fixpoint safe {R} (post : R → G → Prop) (p : prog R) (g : G) : Prop :=
  match p with
  | Ret r => ∀ g', rely g g' → inv g' → post r g'
  | Crash => True
  | Vis o k => ∀ g1, rely g g1 → inv g1 → ∀ a g2, call o g1 a g2 →
      inv g2 ∧ guar g1 g2 ∧ safe post (k a) g2
  end.

Context {rely_trans : Transitive rely}.

(** The assertion at a program point survives the others' steps. *)
Lemma safe_stable {R} (post : R → G → Prop) (p : prog R) g g' :
  safe post p g → rely g g' → safe post p g'.
Proof.
  destruct p as [r|o k|]; cbn; [|intros Hs Hr|done].
  - intros Hs Hr g'' Hr' Hi. apply Hs; [by trans g'|done].
  - intros g1 Hr' Hi. apply Hs; [by trans g'|done].
Qed.

(** One step of the process itself. *)
Lemma safe_step {R} (post : R → G → Prop) o k g a g' `{!Reflexive rely} :
  safe post (Vis (R:=R) o k) g → inv g → call o g a g' →
  inv g' ∧ guar g g' ∧ safe post (k a) g'.
Proof. intros Hs Hi Hc. by apply (Hs g). Qed.

Lemma safe_mono {R} (P Q : R → G → Prop) (p : prog R) g :
  (∀ r g, P r g → Q r g) → safe P p g → safe Q p g.
Proof.
  intros HPQ. revert g. induction p as [r|o k IH|]; intros g; cbn; [|intros Hs g1 Hr Hi a g2 Hc|done].
  - intros Hs g' Hr Hi. by apply HPQ, Hs.
  - destruct (Hs g1 Hr Hi a g2 Hc) as (? & ? & ?). split_and!; try done. by apply IH.
Qed.

(** Sequencing: the first part's postcondition is the second part's start. *)
Lemma safe_bind {R T} (P : R → G → Prop) (Q : T → G → Prop) (p : prog R) (k : R → prog T) g
    `{!Reflexive rely} :
  safe P p g → (∀ r g, inv g → P r g → safe Q (k r) g) →
  safe Q (p ≫= k) g.
Proof.
  intros Hp Hk. revert g Hp. induction p as [r|o c IH|]; intros g; cbn; [|intros Hs g1 Hr Hi a g2 Hc|done].
  - intros Hp. destruct (k r) as [t|o c|] eqn:E; cbn; [|intros g1 Hr Hi a g2 Hc|done].
    + intros g' Hr Hi. specialize (Hk r g' Hi (Hp g' Hr Hi)). rewrite E in Hk. by apply Hk.
    + specialize (Hk r g1 Hi (Hp g1 Hr Hi)). rewrite E in Hk. by apply (Hk g1).
  - destruct (Hs g1 Hr Hi a g2 Hc) as (? & ? & ?). split_and!; try done. by apply IH.
Qed.

Lemma safe_bind_assoc {R T U} (Q : U → G → Prop) (p : prog R) (f : R → prog T) (k : T → prog U) g :
  safe Q (p ≫= λ r, f r ≫= k) g → safe Q ((p ≫= f) ≫= k) g.
Proof.
  revert g. induction p as [r|o c IH|]; intros g; cbn; [done| |done].
  intros Hs g1 Hr Hi a g2 Hc. destruct (Hs g1 Hr Hi a g2 Hc) as (? & ? & ?). split_and!; try done. by apply IH.
Qed.

End interleave.
