(* ===== verification/Store.v ===== *)
(** * The conditional-write store: what a driver promises its clients

    The abstract state of one physical bucket is its objects, each with its
    bytes, metadata and version token, and the tokens given out so far.  [spec]
    is the contract of a call: a relation, because a backend may fail a call
    with an error of its own, and a write or a delete whose answer was lost may
    or may not have happened.  Two clauses carry the coordination primitives: a
    conditional call takes effect only if its precondition holds at that
    moment, and every write gives out a token that was never given out before
    and is not empty. *)
From S2P Require Import Prelude Strconv GoTime Md5 Core Effects.

Record sobject := mkSobject {
  so_data : bytes;
  so_meta : metadata;
  so_version : string;
}.

#[export] Instance sobject_eq_dec : EqDecision sobject.
Proof. solve_decision. Defined.

Record store := mkStore {
  objs : gmap string sobject;
  used : gset string;
}.

(** An error that is neither [ErrNotFound] nor [ErrPreconditionFailed]: the
    caller cannot tell from it what the object's state is. *)
Definition other_error (e : error) : Prop := Is e ErrNotFound = false ∧ Is e ErrPreconditionFailed = false.

(** The callbacks a client's options carry do not answer with a sentinel. *)
Definition hook_ok (h : hook) : Prop := ∀ err, run_hook h = Some err → other_error err.

(** The compiled precondition against the current version, if any. *)
Definition holds (c : Preconditions) (cur : option string) : bool :=
  if p_IfNotExists c then negb (bool_decide (is_Some cur))
  else if negb (bool_decide (p_IfMatch c = "")) then bool_decide (cur = Some (p_IfMatch c))
  else if negb (bool_decide (p_IfNotMatch c = "")) then negb (bool_decide (cur = Some (p_IfNotMatch c)))
  else true.

Definition version_at (s : store) (k : string) : option string := so_version <$> (objs s !! k).

(** Which token a write of [d] may give out.  The contract is [fresh_token];
    [content_token] is a backend whose token is a function of the bytes, and
    [hash_token] one whose token is some hash of them, which may depend on how
    they were sent as well. *)
Abbreviation token_rule := (store → bytes → string → Prop) (only parsing).

Definition fresh_token : token_rule := fun s _ v => v ≠ "" ∧ v ∉ used s.
Definition content_token (f : bytes → string) : token_rule := fun _ d v => v = f d.
Definition hash_token (h : bytes → string → Prop) : token_rule := fun _ d v => h d v.

(** Storing an object under a token the rule allows. *)
Definition gput (rule : token_rule) (s : store) (k : string) (d : bytes) (md : metadata) (s' : store) : Prop :=
  ∃ v, rule s d v ∧
    s' = mkStore (<[k := mkSobject d md v]> (objs s)) ({[v]} ∪ used s).

(** Tokens in use have been given out, and none is empty. *)
Record swf (s : store) : Prop := {
  swf_used k o : objs s !! k = Some o → so_version o ∈ used s;
  swf_nonempty : "" ∉ used s;
}.

Abbreviation put := (gput fresh_token).

Section spec.
Context `{GoTables} (rule : token_rule).

(** A conditional write of [d] with metadata [md] at [k]. *)
Definition gwrite_spec (k : string) (d : bytes) (md : metadata) (c : Preconditions)
    (s : store) (r : result unit) (s' : store) : Prop :=
  match r with
  | Ok _ => holds c (version_at s k) = true ∧ gput rule s k d md s'
  | Err e =>
    (s' = s ∧ (other_error e ∨ holds c (version_at s k) = false)) ∨
    (other_error e ∧ holds c (version_at s k) = true ∧ gput rule s k d md s')
  end.

Definition delete_spec (k : string) (c : Preconditions) (s : store) (r : result unit) (s' : store) : Prop :=
  match r with
  | Ok _ => is_Some (objs s !! k) ∧ holds c (version_at s k) = true ∧
            s' = mkStore (delete k (objs s)) (used s)
  | Err e =>
    (s' = s ∧ (other_error e ∨ objs s !! k = None ∨ holds c (version_at s k) = false)) ∨
    (other_error e ∧ holds c (version_at s k) = true ∧ s' = mkStore (delete k (objs s)) (used s))
  end.

(** A read answers from the object, or [ErrNotFound], or fails. *)
Definition read_spec {A} (k : string) (rel : sobject → A → Prop) (s : store) (r : result A) : Prop :=
  match r with
  | Ok a => ∃ o, objs s !! k = Some o ∧ rel o a
  | Err e => other_error e ∨ objs s !! k = None
  end.

Definition gspec (o : op) (s : store) : ans o → store → Prop :=
  match o return ans o → store → Prop with
  | OAttributes b key => fun r s' => s' = s ∧
      read_spec (h_key b key) (fun o a => a_Version a = so_version o ∧ a_Metadata a = so_meta o) s r
  | OReadAll b key => fun r s' => s' = s ∧ read_spec (h_key b key) (fun o d => d = so_data o) s r
  | ONewReader b key => fun r s' => s' = s ∧
      read_spec (h_key b key) (fun o src => s_bytes src = so_data o ∧ s_err src = None ∨ is_Some (s_err src)) s r
  | OListPage b token size opts => fun r s' => s' = s ∧
      match r with
      | Ok (page, _) => ∀ obj, obj ∈ page → lo_IsDir obj = false → is_Some (objs s !! h_key b (lo_Key obj))
      | Err _ => True
      end
  | OWriteAll b key p opts pre => fun r s' =>
      (∃ e, r = Err e ∧ other_error e ∧ s' = s) ∨
      ∃ c md md', CompilePreconditions pre = Ok c ∧ NormalizeMetadata (o_Metadata opts) = Ok md ∧
        NormalizeMetadata md = Ok md' ∧ gwrite_spec (h_key b key) p md' c s r s'
  | ODelete b key pre => fun r s' =>
      (∃ e, r = Err e ∧ other_error e ∧ s' = s) ∨
      ∃ c, CompilePreconditions pre = Ok c ∧ delete_spec (h_key b key) c s r s'
  | ONewWriter b key opts pre => fun r s' => s' = s ∧
      match r with
      | Ok w => ∃ c o, CompilePreconditions pre = Ok c ∧ WriterOptions_Clone (Some opts) = Ok o ∧
          w = mkStream b key o c "" false
      | Err e => other_error e
      end
  | OReadFrom w r => fun '(w', res) s' => s' = s ∧
      match res with
      | Ok _ => s_err r = None ∧ w' = mkStream (sw_bucket w) (sw_key w) (sw_opts w) (sw_pre w)
                          (sw_buf w +:+ s_bytes r) (sw_closed w)
      | Err e => s_err r = None → other_error e
      end
  | OClose w => fun '(_, res) s' =>
      if sw_closed w then s' = s
      else gwrite_spec (h_key (sw_bucket w) (sw_key w)) (sw_buf w) (o_Metadata (sw_opts w)) (sw_pre w) s res s'
  | OCloseWithError w => fun _ s' => s' = s
  | _ => fun _ s' => s' = s
  end.

(** The physical bucket a call goes to, for the calls that go to one. *)
Definition target (o : op) : option nat :=
  match o with
  | OAttributes b _ | OReadAll b _ | ONewReader b _ | OListPage b _ _ _
  | OWriteAll b _ _ _ _ | ODelete b _ _ | ONewWriter b _ _ _ => Some (h_store b)
  | OReadFrom w _ | OClose w | OCloseWithError w => Some (h_store (sw_bucket w))
  | _ => None
  end.

(** ** The shared world: the physical buckets, and one clock. *)
Record world := mkWorld {
  stores : nat → store;
  clock : Z;
}.

(** The atomic steps of a call in the world: a bucket call moves its bucket by
    [gspec] and nothing else; the clock answers itself. *)
Definition gcall (o : op) (g : world) (a : ans o) (g' : world) : Prop :=
  clock g' = clock g ∧
  match target o with
  | Some n => gspec o (stores g n) a (stores g' n) ∧ ∀ m, m ≠ n → stores g' m = stores g m
  | None => ∀ m, stores g' m = stores g m
  end ∧
  match o return ans o → Prop with
  | ONow => fun t => t = clock g
  | _ => fun _ => True
  end a.

End spec.

(** ** Answers the store may give *)

(** The world after a write of [o] at [k] of bucket [m]. *)
Definition put_in (m : nat) (k : string) (o : sobject) (g : world) : world :=
  mkWorld (fun m' => if decide (m' = m) then
      mkStore (<[k := o]> (objs (stores g m))) ({[so_version o]} ∪ used (stores g m)) else stores g m')
    (clock g).

Lemma put_in_lookup m k o g : objs (stores (put_in m k o g) m) !! k = Some o.
Proof. unfold put_in. cbn. rewrite decide_True by done. apply lookup_insert_eq. Qed.

Section answers.
Context `{GoTables} (rule : token_rule).

Lemma gcall_found b key g o :
  objs (stores g (h_store b)) !! h_key b key = Some o →
  ∃ a, a_Version a = so_version o ∧ a_Metadata a = so_meta o ∧ gcall rule (OAttributes b key) g (Ok a) g.
Proof.
  intros Ho. exists (mkAttributes "" "" "" "" "" (so_meta o) 0 0 0 "" (so_version o) None).
  split; [done|]. split; [done|]. split; [done|]. split; [|done]. split; [|done]. split; [done|]. by exists o.
Qed.

Lemma gcall_read b key g o :
  objs (stores g (h_store b)) !! h_key b key = Some o → gcall rule (OReadAll b key) g (Ok (so_data o)) g.
Proof. intros Ho. split; [done|]. split; [|done]. split; [|done]. split; [done|]. by exists o. Qed.

Lemma gcall_write b key g d opts md pre c v :
  CompilePreconditions pre = Ok c → NormalizeMetadata (o_Metadata opts) = Ok md → NormalizeMetadata md = Ok md →
  holds c (version_at (stores g (h_store b)) (h_key b key)) = true → rule (stores g (h_store b)) d v →
  gcall rule (OWriteAll b key d opts pre) g (Ok ()) (put_in (h_store b) (h_key b key) (mkSobject d md v) g).
Proof.
  intros Hc Hm Hm' Hh Hv. split; [done|]. split; [|done].
  cbn -[CompilePreconditions NormalizeMetadata]. rewrite decide_True by done. split.
  - right. exists c, md, md. split_and!; try done. by exists v.
  - intros m Hne. by rewrite decide_False.
Qed.

End answers.

(** The contract of a driver. *)
Abbreviation write_spec := (gwrite_spec fresh_token).
Abbreviation spec := (gspec fresh_token).
Abbreviation call := (gcall fresh_token).

Section facts.
Context `{GoTables}.

Lemma compile_other pre e : CompilePreconditions pre = Err e → other_error e.
Proof. by intros ->%CompilePreconditions_Err. Qed.
Lemma normalize_other md e : NormalizeMetadata md = Err e → other_error e.
Proof. by intros ->%NormalizeMetadata_Err. Qed.
Lemma clone_other o e : WriterOptions_Clone (Some o) = Err e → other_error e.
Proof. by intros ->%Clone_Err. Qed.

Definition wwf (g : world) : Prop := ∀ n, swf (stores g n).

(** *** Facts *)

Lemma put_swf s k d md s' : swf s → put s k d md s' → swf s'.
Proof.
  intros [Hu Hn] (v & [Hv Hf] & ->). split; cbn; [|set_solver].
  intros k' o [[-> <-]|[_ Ho]]%lookup_insert_Some; cbn; [set_solver|].
  apply Hu in Ho. set_solver.
Qed.

Lemma delete_swf s k : swf s → swf (mkStore (delete k (objs s)) (used s)).
Proof. intros [Hu Hn]. split; cbn; [|done]. intros k' o [_ Ho]%lookup_delete_Some. by apply (Hu k'). Qed.

(** What any call does to a bucket: nothing, a write under a fresh token that
    its precondition allowed, or an allowed delete. *)
Inductive effect (s : store) : store → Prop :=
| effect_none : effect s s
| effect_put k d md s' : put s k d md s' → effect s s'
| effect_delete k : effect s (mkStore (delete k (objs s)) (used s)).

Lemma spec_effect o s a s' : spec o s a s' → effect s s'.
Proof.
  assert (∀ k d md c r, write_spec k d md c s r s' → effect s s') as Hw.
  { intros k d md c [|e]; cbn; [intros [_ Hp]|intros [[-> _]|(_ & _ & Hp)]].
    all: by constructor || by econstructor. }
  assert (∀ k c r, delete_spec k c s r s' → effect s s') as Hd.
  { intros k c [|e]; cbn; [intros (_ & _ & ->)|intros [[-> _]|(_ & _ & ->)]]; by constructor. }
  destruct o; cbn in *; try (intros [-> _]; by constructor); try (intros ->; by constructor).
  - intros [(e & _ & _ & ->)|(c & md & md' & _ & _ & _ & Hs)]; [by constructor|by eapply Hw].
  - intros [(e & _ & _ & ->)|(c & _ & Hs)]; [by constructor|by eapply Hd].
  - destruct a as [w' res]. intros [-> _]. by constructor.
  - destruct a as [w' res]. destruct (sw_closed w); [intros ->; by constructor|by apply Hw].
Qed.

Lemma effect_swf s s' : swf s → effect s s' → swf s'.
Proof. intros Hs [|k d md s'' Hp|k]; [done|by eapply put_swf|by apply delete_swf]. Qed.

Lemma effect_used s s' : effect s s' → used s ⊆ used s'.
Proof. intros [|k d md s'' (v & _ & ->)|k]; cbn; set_solver. Qed.

(** An object seen after a call was there before, or its token is new. *)
Lemma effect_objs s s' k o :
  effect s s' → objs s' !! k = Some o →
  objs s !! k = Some o ∨ so_version o ∉ used s.
Proof.
  intros [|k' d md s'' (v & [_ Hv] & ->)|k']; cbn; [by left|..].
  - intros [[-> <-]|[_ Ho]]%lookup_insert_Some; [by right|by left].
  - intros [_ Ho]%lookup_delete_Some. by left.
Qed.

Lemma call_effect o g a g' n : call o g a g' → effect (stores g n) (stores g' n).
Proof.
  intros (_ & Hc & _). destruct (target o) as [m|].
  - destruct Hc as [Hs Hm]. destruct (decide (n = m)) as [->|Hne]; [by eapply spec_effect|].
    rewrite (Hm n) by done. constructor.
  - rewrite (Hc n). constructor.
Qed.

Lemma call_wwf o g a g' : wwf g → call o g a g' → wwf g'.
Proof. intros Hg Hc n. eapply effect_swf; [apply Hg|by eapply call_effect]. Qed.

Lemma holds_IfMatch v cur : v ≠ "" → holds (mkPreconditions false v "") cur = true ↔ cur = Some v.
Proof. intros Hv. unfold holds. cbn. rewrite (bool_decide_false (v = "")) by done. cbn. apply bool_decide_eq_true. Qed.

Lemma holds_IfNotExists cur : holds (mkPreconditions true "" "") cur = true ↔ cur = None.
Proof. unfold holds. cbn. destruct cur; naive_solver. Qed.

(** The object a call may change: the key it writes or deletes. *)
Definition touches (o : op) : option (nat * string) :=
  match o with
  | OWriteAll b key _ _ _ | ODelete b key _ => Some (h_store b, h_key b key)
  | OClose w => Some (h_store (sw_bucket w), h_key (sw_bucket w) (sw_key w))
  | _ => None
  end.

Lemma write_spec_frame k d md c s r s' k' :
  write_spec k d md c s r s' → k' ≠ k → objs s' !! k' = objs s !! k'.
Proof.
  intros Hw Hne. assert (s' = s ∨ put s k d md s') as [->|(v & _ & ->)]; [|done|by apply lookup_insert_ne].
  destruct r; cbn in Hw; naive_solver.
Qed.

Lemma delete_spec_frame k c s r s' k' :
  delete_spec k c s r s' → k' ≠ k → objs s' !! k' = objs s !! k'.
Proof.
  intros Hd Hne. assert (s' = s ∨ s' = mkStore (delete k (objs s)) (used s)) as [-> | ->];
    [|done|by apply lookup_delete_ne].
  destruct r; cbn in Hd; naive_solver.
Qed.

(** A call leaves every other object as it is. *)
Lemma call_frame o g a g' m k :
  call o g a g' → touches o ≠ Some (m, k) → objs (stores g' m) !! k = objs (stores g m) !! k.
Proof.
  intros (_ & Hc & _) Ht. destruct (target o) as [n|] eqn:En; [|by rewrite Hc].
  destruct Hc as [Hs Hm]. destruct (decide (m = n)) as [->|Hne]; [|by rewrite Hm].
  destruct o; cbn in *; simplify_eq; try (destruct Hs as [-> _]; done).
  - destruct Hs as [(e & _ & _ & ->)|(c & md & md' & _ & _ & _ & Hs)]; [done|].
    eapply write_spec_frame; [exact Hs|congruence].
  - destruct Hs as [(e & _ & _ & ->)|(c & _ & Hs)]; [done|]. eapply delete_spec_frame; [exact Hs|congruence].
  - destruct a as [w' res]. by destruct Hs as [-> _].
  - destruct a as [w' res]. destruct (sw_closed w); [by rewrite Hs|].
    eapply write_spec_frame; [exact Hs|congruence].
Qed.

End facts.
