(* ===== verification/MemDriver.v ===== *)
(** * The in-memory driver (mem/mem.go)

    [state] is the shared [*state] a bucket and its [Sub]s point to; every
    operation that takes the driver's mutex takes the state and returns the
    next one, so an operation is one atomic step.  [time.Now()] and
    [ctx.Err()] are arguments: [now], and one [cx] per place the code looks at
    its context.  [None] of an [option (result _)] is a run-time panic. *)
From S2P Require Import Prelude Strconv GoTime Md5 Core.

Module Mem.

Record object := mkObject {
  data : bytes;
  attrs : Attributes;
}.

Record state := mkState {
  objects : gmap string object;
  nextVersion : Z;
}.

Record Bucket := mkBucket { prefix : string }.

(** [New]: the root bucket and its empty state. *)
Definition New : Bucket := mkBucket "".
Definition NewState : state := mkState ∅ 0.

Definition objectKey (b : Bucket) (key : string) : string := prefix b +:+ key.

Definition Sub (b : Bucket) (p : string) : Bucket := mkBucket (prefix b +:+ p).

Definition Capabilities_ : Capabilities := mkCapabilities true true true true true false false.

Definition conditionsPass (pre : Preconditions) (attrs : option Attributes) (exists_ : bool) : bool :=
  if p_IfNotExists pre then negb exists_
  else if negb (bool_decide (p_IfMatch pre = "")) then
    exists_ && match attrs with
               | Some a => bool_decide (a_Version a = p_IfMatch pre)
               | None => false
               end
  else if negb (bool_decide (p_IfNotMatch pre = "")) then
    negb exists_ || match attrs with
                    | Some a => negb (bool_decide (a_Version a = p_IfNotMatch pre))
                    | None => true
                    end
  else true.

Definition decodePageToken (token : bytes) : result Z :=
  if bool_decide (token = FirstPageToken) then Ok 0
  else match Atoi token with
       | Err _ => Err ErrInvalidOption
       | Ok offset => if bool_decide (offset < 0) then Err ErrInvalidOption else Ok offset
       end.

(** ** Reads *)

Definition Attributes_ (cx : ctx) (b : Bucket) (key : string) (st : state) : result Attributes :=
  match cx with
  | Some err => Err err
  | None =>
    match objects st !! objectKey b key with
    | None => Err ErrNotFound
    | Some obj => Ok (Attributes_Clone (attrs obj))
    end
  end.

Definition Exists (cx : ctx) (b : Bucket) (key : string) (st : state) : result bool :=
  match Attributes_ cx b key st with
  | Err err => if Is err ErrNotFound then Ok false else Err err
  | Ok _ => Ok true
  end.

Definition IsAccessible (cx : ctx) : result bool :=
  match cx with Some err => Err err | None => Ok true end.

Definition SignedURL (cx : ctx) : result string :=
  match cx with Some err => Err err | None => Err ErrUnsupported end.

(** The [reader]: the bytes its [bytes.Reader] delivers, and the attributes
    its methods answer from. *)
Record reader := mkReader {
  r_data : bytes;
  r_attrs : Attributes;
}.

Definition reader_ContentType (r : reader) : string := a_ContentType (r_attrs r).
Definition reader_ModTime (r : reader) : Z := a_ModTime (r_attrs r).
Definition reader_Size (r : reader) : Z := a_Size (r_attrs r).

(** [NewRangeReader]: [offset+length] is an [int64] sum and wraps around. *)
Definition NewRangeReader (cx : ctx) (b : Bucket) (key : string) (offset length : Z)
    (BeforeRead : hook) (st : state) : option (result reader) :=
  match cx, run_hook BeforeRead with
  | Some err, _ => Some (Err err)
  | None, Some err => Some (Err err)
  | None, None =>
    if bool_decide (offset < 0) then Some (Err ErrInvalidOption)
    else
      match objects st !! objectKey b key with
      | None => Some (Err ErrNotFound)
      | Some obj =>
        let d := data obj in
        let offset := if bool_decide (strlen d < offset) then strlen d else offset in
        let end_ := strlen d in
        let end_ :=
          if bool_decide (0 ≤ length) && bool_decide (wrap64 (offset + length) < end_)
          then wrap64 (offset + length) else end_ in
        match Slice d offset end_ with
        | None => None
        | Some part => Some (Ok (mkReader part (Attributes_Clone (attrs obj))))
        end
      end
  end.

Definition NewReader (cx : ctx) (b : Bucket) (key : string) (BeforeRead : hook) (st : state)
    : option (result reader) :=
  NewRangeReader cx b key 0 (-1) BeforeRead st.

Definition ReadAll (cx : ctx) (b : Bucket) (key : string) (st : state) : option (result bytes) :=
  match NewReader cx b key None st with
  | None => None
  | Some (Err err) => Some (Err err)
  | Some (Ok r) => Some (Ok (r_data r))
  end.

(** [Download]: [w] is what the destination writer answers to the bytes
    [io.Copy] hands it. *)
Definition Download (cx : ctx) (b : Bucket) (key : string) (BeforeRead : hook)
    (w : bytes → option error) (st : state) : option (result bytes) :=
  match NewReader cx b key BeforeRead st with
  | None => None
  | Some (Err err) => Some (Err err)
  | Some (Ok r) =>
    match w (r_data r) with
    | Some err => Some (Err err)
    | None => Some (Ok (r_data r))
    end
  end.

(** ** Listing *)

(** The keys under a prefix, in the order [slices.Sort] leaves them. *)
Definition listed_keys (fullPrefix : string) (objs : gmap string object) : list string :=
  merge_sort String.le (filter (fun key => HasPrefix key fullPrefix = true) (map_to_list objs).*1).

(** The directory entry of a key with the delimiter in its rest, if any. *)
Definition dirKey (opts : ListOptions) (relativeKey : string) : option string :=
  if bool_decide (l_Delimiter opts = "") then None
  else
    let rest := TrimPrefix relativeKey (l_Prefix opts) in
    match Index rest (l_Delimiter opts) with
    | None => None
    | Some idx => Some (l_Prefix opts +:+ str_take (idx + String.length (l_Delimiter opts)) rest)
    end.

(** The loop of [listObjectsLocked].  The keys come from the map, so the last
    branch is never taken. *)
Fixpoint list_loop (b : Bucket) (opts : ListOptions) (objs : gmap string object)
    (keys : list string) (seenDirs : gset string) : list ListObject :=
  match keys with
  | [] => []
  | fullKey :: keys =>
    let relativeKey := TrimPrefix fullKey (prefix b) in
    match dirKey opts relativeKey with
    | Some dk =>
      if bool_decide (dk ∈ seenDirs) then list_loop b opts objs keys seenDirs
      else mkListObject dk zeroTime 0 "" true :: list_loop b opts objs keys ({[dk]} ∪ seenDirs)
    | None =>
      match objs !! fullKey with
      | Some obj =>
        mkListObject relativeKey (a_ModTime (attrs obj)) (a_Size (attrs obj)) (a_MD5 (attrs obj)) false
        :: list_loop b opts objs keys seenDirs
      | None => list_loop b opts objs keys seenDirs
      end
    end
  end.

Definition listObjectsLocked (b : Bucket) (opts : ListOptions) (st : state) : list ListObject :=
  list_loop b opts (objects st) (listed_keys (objectKey b (l_Prefix opts)) (objects st)) ∅.

(** [ListPage]: [start+pageSize] is an [int] sum and wraps around; the slice
    expression panics when its bounds are crossed. *)
Definition ListPage (cx : ctx) (b : Bucket) (pageToken : bytes) (pageSize : Z)
    (opts : option ListOptions) (st : state) : option (result (list ListObject * bytes)) :=
  match cx with
  | Some err => Some (Err err)
  | None =>
    if bool_decide (strlen pageToken = 0) then Some (Err EOF)
    else
      match decodePageToken pageToken with
      | Err err => Some (Err err)
      | Ok start =>
        let pageSize := if bool_decide (pageSize ≤ 0) then 1000 else pageSize in
        let opts := cloneListOptions opts in
        match run_hook (l_BeforeList opts) with
        | Some err => Some (Err err)
        | None =>
          let results := listObjectsLocked b opts st in
          let len := Z.of_nat (length results) in
          if bool_decide (len ≤ start) then Some (Ok ([], ""))
          else
            let end_ := Z.min (wrap64 (start + pageSize)) len in
            if bool_decide (start ≤ end_) then
              let page := take (Z.to_nat (end_ - start)) (drop (Z.to_nat start) results) in
              let next := if bool_decide (end_ < len) then Itoa end_ else "" in
              Some (Ok (page, next))
            else None
        end
      end
  end.

(** ** Writes *)

(** A [writer]; its context is looked at by each call. *)
Record writer := mkWriter {
  w_bucket : Bucket;
  w_key : string;
  w_opts : WriterOptions;
  w_preconditions : Preconditions;
  w_buf : bytes;
  w_closed : bool;
}.

Definition set_w_buf (buf : bytes) (w : writer) : writer :=
  mkWriter (w_bucket w) (w_key w) (w_opts w) (w_preconditions w) buf (w_closed w).
Definition set_w_closed (w : writer) : writer :=
  mkWriter (w_bucket w) (w_key w) (w_opts w) (w_preconditions w) (w_buf w) true.

Definition write_after_close : error := ErrOther "blobster mem: write after close".
Definition read_from_after_close : error := ErrOther "blobster mem: read from after close".

(** [writer.Write]: the number of bytes written. *)
Definition Write (cx : ctx) (p : bytes) (w : writer) : writer * result Z :=
  if w_closed w then (w, Err write_after_close)
  else match cx with
       | Some err => (w, Err err)
       | None => (set_w_buf (w_buf w +:+ p) w, Ok (strlen p))
       end.

(** [writer.ReadFrom]: the bytes read before an error stay in the buffer. *)
Definition ReadFrom (cx : ctx) (r : source) (w : writer) : writer * result Z :=
  if w_closed w then (w, Err read_from_after_close)
  else match cx with
       | Some err => (w, Err err)
       | None =>
         (set_w_buf (w_buf w +:+ s_bytes r) w,
          match s_err r with Some err => Err err | None => Ok (strlen (s_bytes r)) end)
       end.

(** The attributes [writer.Close] stores. *)
Definition close_attrs (opts : WriterOptions) (d : bytes) (now version : Z) : Attributes :=
  mkAttributes (o_CacheControl opts) (o_ContentDisposition opts) (o_ContentEncoding opts)
    (o_ContentLanguage opts) (o_ContentType opts) (CloneMetadata (o_Metadata opts)) now now
    (strlen d) (md5_Sum d) (FormatUint version) None.

(** [writer.Close]: commits the buffer if the precondition holds. *)
Definition Close (cx : ctx) (now : Z) (w : writer) (st : state) : writer * result unit * state :=
  if w_closed w then (w, Ok tt, st)
  else
    let w' := set_w_closed w in
    match cx with
    | Some err => (w', Err err, st)
    | None =>
      let d := w_buf w in
      if bool_decide (0 < strlen (o_ContentMD5 (w_opts w)))
         && negb (bool_decide (md5_Sum d = o_ContentMD5 (w_opts w)))
      then (w', Err ErrInvalidOption, st)
      else
        let fullKey := objectKey (w_bucket w) (w_key w) in
        let current := objects st !! fullKey in
        if negb (conditionsPass (w_preconditions w) (attrs <$> current) (bool_decide (is_Some current)))
        then (w', Err ErrPreconditionFailed, st)
        else
          let nv := wrapu64 (nextVersion st + 1) in
          (w', Ok tt,
           mkState (<[fullKey := mkObject d (close_attrs (w_opts w) d now nv)]> (objects st)) nv)
    end.

(** [writer.CloseWithError]. *)
Definition CloseWithError (w : writer) : writer * option error := (set_w_closed w, None).

Section writes.
Context `{GoTables}.

Definition NewWriter (b : Bucket) (key : string) (opts : option WriterOptions)
    (pre : list (option Precondition)) : result writer :=
  compiled ← CompilePreconditions pre;
  cloned ← WriterOptions_Clone opts;
  match run_hook (o_BeforeWrite cloned) with
  | Some err => Err err
  | None => Ok (mkWriter b key cloned compiled "" false)
  end.

(** [WriteAll]; [cx] is the context at the write, [cx'] at the commit. *)
Definition WriteAll (cx cx' : ctx) (now : Z) (b : Bucket) (key : string) (p : bytes)
    (opts : option WriterOptions) (pre : list (option Precondition)) (st : state)
    : result unit * state :=
  match PrepareWriteAllOptions opts p with
  | Err err => (Err err, st)
  | Ok cloned =>
    match NewWriter b key (Some cloned) pre with
    | Err err => (Err err, st)
    | Ok w =>
      match Write cx p w with
      | (w, Err err) => (Err (Join err (CloseWithError w).2), st)
      | (w, Ok _) => let '(_, res, st) := Close cx' now w st in (res, st)
      end
    end
  end.

(** [Upload]: [io.Copy] into the writer is its [ReadFrom]. *)
Definition Upload (cx cx' : ctx) (now : Z) (b : Bucket) (key : string) (r : source)
    (opts : option WriterOptions) (pre : list (option Precondition)) (st : state)
    : result unit * state :=
  match RequireUploadOptions opts with
  | Err err => (Err err, st)
  | Ok cloned =>
    match NewWriter b key (Some cloned) pre with
    | Err err => (Err err, st)
    | Ok w =>
      match ReadFrom cx r w with
      | (w, Err err) => (Err (Join err (CloseWithError w).2), st)
      | (w, Ok _) => let '(_, res, st) := Close cx' now w st in (res, st)
      end
    end
  end.

(** What [Copy] and [UpdateMetadata] change in a clone of the attributes. *)
Definition copy_attrs (a : Attributes) (now version : Z) : Attributes :=
  mkAttributes (a_CacheControl a) (a_ContentDisposition a) (a_ContentEncoding a)
    (a_ContentLanguage a) (a_ContentType a) (a_Metadata a) now now (a_Size a) (a_MD5 a)
    (FormatUint version) None.

Definition update_attrs (a : Attributes) (md : metadata) (now version : Z) : Attributes :=
  mkAttributes (a_CacheControl a) (a_ContentDisposition a) (a_ContentEncoding a)
    (a_ContentLanguage a) (a_ContentType a) (CloneMetadata md) (a_CreateTime a) now (a_Size a)
    (a_MD5 a) (FormatUint version) None.

Definition Copy (cx : ctx) (BeforeCopy : hook) (now : Z) (b : Bucket) (dstKey srcKey : string)
    (st : state) : result unit * state :=
  match cx, run_hook BeforeCopy with
  | Some err, _ => (Err err, st)
  | None, Some err => (Err err, st)
  | None, None =>
    match objects st !! objectKey b srcKey with
    | None => (Err ErrNotFound, st)
    | Some src =>
      let nv := wrapu64 (nextVersion st + 1) in
      (Ok tt,
       mkState (<[objectKey b dstKey :=
                    mkObject (data src) (copy_attrs (Attributes_Clone (attrs src)) now nv)]> (objects st)) nv)
    end
  end.

Definition Delete (cx : ctx) (b : Bucket) (key : string) (pre : list (option Precondition))
    (st : state) : result unit * state :=
  match cx with
  | Some err => (Err err, st)
  | None =>
    match CompilePreconditions pre with
    | Err err => (Err err, st)
    | Ok compiled =>
      let fullKey := objectKey b key in
      match objects st !! fullKey with
      | None => (Err ErrNotFound, st)
      | Some current =>
        if negb (conditionsPass compiled (Some (attrs current)) true)
        then (Err ErrPreconditionFailed, st)
        else (Ok tt, mkState (delete fullKey (objects st)) (nextVersion st))
      end
    end
  end.

Definition UpdateMetadata (cx : ctx) (now : Z) (b : Bucket) (key : string) (md : metadata)
    (st : state) : result string * state :=
  match cx with
  | Some err => (Err err, st)
  | None =>
    match NormalizeMetadata md with
    | Err err => (Err err, st)
    | Ok normalized =>
      let fullKey := objectKey b key in
      match objects st !! fullKey with
      | None => (Err ErrNotFound, st)
      | Some current =>
        let nv := wrapu64 (nextVersion st + 1) in
        let a := update_attrs (Attributes_Clone (attrs current)) normalized now nv in
        (Ok (a_Version a), mkState (<[fullKey := mkObject (data current) a]> (objects st)) nv)
      end
    end
  end.

End writes.

#[global] Arguments Close : simpl never.
#[global] Arguments WriteAll : simpl never.
#[global] Arguments Delete : simpl never.
#[global] Arguments ListPage : simpl never.
#[global] Arguments NewRangeReader : simpl never.

(** [List]: the iterator reads pages of the bucket as it is at each call. *)
Definition List_ (opts : option ListOptions) : ListIterator := NewListIterator opts.

(** ** The driver as a transition system: one step per state-changing method,
    with any arguments, contexts and clock. *)
Section steps.
Context `{GoTables}.

Inductive step (st : state) : state → Prop :=
| step_Close cx now w : step st (Close cx now w st).2
| step_WriteAll cx cx' now b key p opts pre :
    step st (WriteAll cx cx' now b key p opts pre st).2
| step_Upload cx cx' now b key r opts pre :
    step st (Upload cx cx' now b key r opts pre st).2
| step_Copy cx h now b dst src : step st (Copy cx h now b dst src st).2
| step_Delete cx b key pre : step st (Delete cx b key pre st).2
| step_UpdateMetadata cx now b key md : step st (UpdateMetadata cx now b key md st).2.

(** Well-formed states: the counter is a [uint64]; the attributes describe the
    stored bytes; a version token is a counter value already given out, and
    belongs to one object. *)
Record wf (st : state) : Prop := {
  wf_counter : 0 ≤ nextVersion st < 2 ^ 64;
  wf_attrs k o : objects st !! k = Some o →
    a_Size (attrs o) = strlen (data o) ∧ a_MD5 (attrs o) = md5_Sum (data o) ∧
    ∃ n, 1 ≤ n ≤ nextVersion st ∧ a_Version (attrs o) = FormatUint n;
  wf_versions k1 k2 o1 o2 : objects st !! k1 = Some o1 → objects st !! k2 = Some o2 →
    a_Version (attrs o1) = a_Version (attrs o2) → k1 = k2;
}.

(** What a step can do: nothing, store one object under the next version, or
    remove one object. *)
Inductive change (st : state) : state → Prop :=
| change_none : change st st
| change_put k d a :
    a_Size a = strlen d → a_MD5 a = md5_Sum d →
    a_Version a = FormatUint (wrapu64 (nextVersion st + 1)) →
    change st (mkState (<[k := mkObject d a]> (objects st)) (wrapu64 (nextVersion st + 1)))
| change_del k : change st (mkState (delete k (objects st)) (nextVersion st)).
#[local] Hint Constructors change : core.

Lemma Close_change cx now w st : change st (Close cx now w st).2.
Proof.
  unfold Close. destruct (w_closed w); [done|]. destruct cx; [done|].
  destruct (_ && _); [done|]. destruct (negb _); [done|]. by apply change_put.
Qed.

Lemma WriteAll_change cx cx' now b key p opts pre st :
  change st (WriteAll cx cx' now b key p opts pre st).2.
Proof.
  unfold WriteAll. destruct (PrepareWriteAllOptions opts p); [|done].
  destruct (NewWriter _ _ _ _); [|done]. destruct (Write cx p _) as [w []]; [|done].
  pose proof (Close_change cx' now w st). by destruct (Close cx' now w st) as [[]].
Qed.

Lemma Upload_change cx cx' now b key r opts pre st :
  change st (Upload cx cx' now b key r opts pre st).2.
Proof.
  unfold Upload. destruct (RequireUploadOptions opts); [|done].
  destruct (NewWriter _ _ _ _); [|done]. destruct (ReadFrom cx r _) as [w []]; [|done].
  pose proof (Close_change cx' now w st). by destruct (Close cx' now w st) as [[]].
Qed.

Lemma step_change st st' : wf st → step st st' → change st st'.
Proof.
  intros Hwf. destruct 1.
  - apply Close_change.
  - apply WriteAll_change.
  - apply Upload_change.
  - unfold Copy. destruct cx; [done|]. destruct (run_hook h); [done|].
    destruct (objects st !! objectKey b src) as [o|] eqn:E; [|done].
    destruct (wf_attrs st Hwf _ _ E) as (? & ? & _). blob_simpl. by apply change_put.
  - unfold Delete. destruct cx; [done|]. destruct (CompilePreconditions pre); [|done].
    destruct (objects st !! _); [|done]. destruct (negb _); [done|apply change_del].
  - unfold UpdateMetadata. destruct cx; [done|]. destruct (NormalizeMetadata md); [|done].
    destruct (objects st !! objectKey b key) as [o|] eqn:E; [|done].
    destruct (wf_attrs st Hwf _ _ E) as (? & ? & _). blob_simpl. by apply change_put.
Qed.

Lemma wf_New : wf NewState.
Proof. split; cbn; [lia|intros ? ?; by rewrite lookup_empty..]. Qed.

Lemma change_counter st st' : change st st' → nextVersion st + 1 < 2 ^ 64 → 0 ≤ nextVersion st →
  nextVersion st ≤ nextVersion st' ≤ nextVersion st + 1.
Proof. intros Hc ? ?. destruct Hc; cbn; rewrite ?wrapu64_id by lia; lia. Qed.

(** An object present after a step was there before it, or carries the version
    the step gave out. *)
Lemma change_objects st st' k o :
  change st st' → nextVersion st + 1 < 2 ^ 64 → 0 ≤ nextVersion st →
  objects st' !! k = Some o →
  objects st !! k = Some o ∨
  a_Version (attrs o) = FormatUint (nextVersion st') ∧ nextVersion st' = nextVersion st + 1.
Proof.
  intros Hc Hlt H0. destruct Hc as [|k' d a ? ? Hv|k']; cbn; [by left|..].
  - rewrite wrapu64_id in * by lia. rewrite lookup_insert. case_decide; [|by left].
    intros [= <-]. right. cbn. by rewrite Hv.
  - rewrite lookup_delete_Some. intros [_ ?]. by left.
Qed.

Lemma change_wf st st' : wf st → change st st' → nextVersion st + 1 < 2 ^ 64 → wf st'.
Proof.
  intros Hwf Hc Hlt. pose proof (wf_counter st Hwf) as H0.
  pose proof (change_counter st st' Hc Hlt (proj1 H0)) as Hn.
  assert (∀ k o n, objects st !! k = Some o → a_Version (attrs o) = FormatUint n →
            0 ≤ n < 2 ^ 64 → n ≤ nextVersion st) as Hold.
  { intros k o n E Hv Hr. destruct (wf_attrs st Hwf _ _ E) as (_ & _ & m & Hm & Hv').
    rewrite Hv in Hv'. apply FormatUint_inj in Hv'; lia. }
  split; [lia|..].
  - intros k o Ho. destruct Hc as [|k' d a Hs Hmd Hv|k']; cbn in *.
    + by eapply wf_attrs.
    + rewrite wrapu64_id in * by lia. apply lookup_insert_Some in Ho as [[-> <-]|[_ Ho]].
      * cbn. split_and!; try done. exists (nextVersion st + 1). split; [lia|done].
      * destruct (wf_attrs st Hwf _ _ Ho) as (? & ? & n & ? & ?).
        split_and!; try done. exists n. split; [lia|done].
    + apply lookup_delete_Some in Ho as [_ Ho]. by eapply wf_attrs.
  - intros k1 k2 o1 o2 H1 H2 Hv.
    destruct (change_objects st st' k1 o1 Hc Hlt (proj1 H0) H1) as [H1'|[H1' Hn1]];
      destruct (change_objects st st' k2 o2 Hc Hlt (proj1 H0) H2) as [H2'|[H2' Hn2]].
    + by eapply wf_versions.
    + rewrite H2' in Hv. pose proof (Hold _ _ _ H1' Hv). lia.
    + rewrite H1' in Hv. symmetry in Hv. pose proof (Hold _ _ _ H2' Hv). lia.
    + destruct Hc as [|k' d a ? ? ?|k']; cbn in *; [lia| |lia].
      rewrite wrapu64_id in * by lia.
      apply lookup_insert_Some in H1 as [[-> _]|[_ H1]]; apply lookup_insert_Some in H2 as [[-> _]|[_ H2]]; try done.
      * pose proof (Hold _ _ _ H2 H2'). lia.
      * pose proof (Hold _ _ _ H1 H1'). lia.
      * pose proof (Hold _ _ _ H1 H1'). lia.
Qed.

(** Runs shorter than the counter's range stay well-formed. *)
Lemma nsteps_wf n st st' :
  nsteps step n st st' → wf st → nextVersion st + Z.of_nat n < 2 ^ 64 →
  wf st' ∧ nextVersion st ≤ nextVersion st' ≤ nextVersion st + Z.of_nat n.
Proof.
  induction 1 as [st|n st1 st2 st3 Hs Hr IH]; intros Hwf Hlt; [split; [done|lia]|].
  pose proof (wf_counter st1 Hwf) as H0. pose proof (step_change _ _ Hwf Hs) as Hc.
  pose proof (change_counter _ _ Hc ltac:(lia) ltac:(lia)).
  destruct IH as [? ?]; [by eapply change_wf; eauto; lia|lia|]. split; [done|lia].
Qed.

(** Along a run, an object is either one that was there at its start, or it
    carries a version given out during the run. *)
Lemma nsteps_objects n st st' k o :
  nsteps step n st st' → wf st → nextVersion st + Z.of_nat n < 2 ^ 64 →
  objects st' !! k = Some o →
  objects st !! k = Some o ∨
  ∃ v, nextVersion st < v ≤ nextVersion st' ∧ a_Version (attrs o) = FormatUint v.
Proof.
  induction 1 as [st|n st1 st2 st3 Hs Hr IH]; intros Hwf Hlt Ho; [by left|].
  pose proof (wf_counter st1 Hwf) as H0. pose proof (step_change _ _ Hwf Hs) as Hc.
  pose proof (change_counter _ _ Hc ltac:(lia) ltac:(lia)).
  assert (wf st2) as Hwf2 by (eapply change_wf; eauto; lia).
  destruct (nsteps_wf n st2 st3 Hr Hwf2) as [_ ?]; [lia|].
  destruct IH as [Hin|(v & ? & ?)]; [done|lia|done| |right; exists v; split; [lia|done]].
  destruct (change_objects st1 st2 k o Hc ltac:(lia) ltac:(lia) Hin) as [?|[? ?]]; [by left|].
  right. exists (nextVersion st2). split; [lia|done].
Qed.

(** ** What the single operations do *)

Lemma conditionsPass_zero a e : conditionsPass zeroPreconditions a e = true.
Proof. done. Qed.

Lemma conditionsPass_IfNotExists a e :
  conditionsPass (mkPreconditions true "" "") a e = negb e.
Proof. done. Qed.

Lemma conditionsPass_IfMatch v a e :
  v ≠ "" → conditionsPass (mkPreconditions false v "") a e = true ↔
           e = true ∧ ∃ x, a = Some x ∧ a_Version x = v.
Proof.
  intros Hv. unfold conditionsPass. cbn. rewrite (bool_decide_false (v = "")) by done. cbn.
  rewrite andb_true_iff. destruct a as [x|]; [rewrite bool_decide_eq_true|].
  - split; [intros [-> ?]; split; [done|]; by exists x|]. intros [-> (? & [= <-] & ?)]. done.
  - split; [by intros [_ ?]|]. by intros [_ (? & ? & _)].
Qed.

(** [WriteAll] that succeeds has stored exactly its bytes under the next
    version, its precondition held, and nothing else moved. *)
Lemma WriteAll_Ok cx cx' now b key p opts pre st st' :
  WriteAll cx cx' now b key p opts pre st = (Ok tt, st') →
  ∃ cloned cloned' compiled,
    PrepareWriteAllOptions opts p = Ok cloned ∧ WriterOptions_Clone (Some cloned) = Ok cloned' ∧
    CompilePreconditions pre = Ok compiled ∧
    let current := objects st !! objectKey b key in
    conditionsPass compiled (attrs <$> current) (bool_decide (is_Some current)) = true ∧
    st' = mkState (<[objectKey b key :=
                       mkObject p (close_attrs cloned' p now (wrapu64 (nextVersion st + 1)))]> (objects st))
                  (wrapu64 (nextVersion st + 1)).
Proof.
  unfold WriteAll. destruct (PrepareWriteAllOptions opts p) as [cloned|] eqn:Hp; [|done].
  unfold NewWriter. destruct (CompilePreconditions pre) as [compiled|]; [|done].
  destruct (WriterOptions_Clone (Some cloned)) as [cloned'|] eqn:Hc; [|done]. cbn.
  destruct (run_hook (o_BeforeWrite cloned')); [done|]. cbn.
  unfold Write. cbn. destruct cx; [done|]. cbn.
  unfold Close. cbn -[String.append]. destruct cx'; [done|]. change ("" +:+ p) with p.
  destruct (_ && _); [done|]. destruct (conditionsPass _ _ _) eqn:Hpass; [|done].
  cbn. intros [= <-]. by exists cloned, cloned', compiled.
Qed.

(** An operation that returns an error has changed nothing. *)
Lemma Close_Err cx now w st w' e st' : Close cx now w st = (w', Err e, st') → st' = st.
Proof.
  unfold Close. destruct (w_closed w); [done|]. destruct cx; [by intros [= _ _ <-]|].
  destruct (_ && _); [by intros [= _ _ <-]|]. destruct (negb _); [by intros [= _ _ <-]|done].
Qed.

Lemma WriteAll_Err cx cx' now b key p opts pre st e st' :
  WriteAll cx cx' now b key p opts pre st = (Err e, st') → st' = st.
Proof.
  unfold WriteAll. destruct (PrepareWriteAllOptions opts p); [|by intros [= _ <-]].
  destruct (NewWriter _ _ _ _); [|by intros [= _ <-]].
  destruct (Write cx p _) as [w []]; [|by intros [= _ <-]].
  destruct (Close cx' now w st) as [[w' r] st2] eqn:E. intros [= -> <-]. by eapply Close_Err.
Qed.

Lemma Upload_Err cx cx' now b key r opts pre st e st' :
  Upload cx cx' now b key r opts pre st = (Err e, st') → st' = st.
Proof.
  unfold Upload. destruct (RequireUploadOptions opts); [|by intros [= _ <-]].
  destruct (NewWriter _ _ _ _); [|by intros [= _ <-]].
  destruct (ReadFrom cx r _) as [w []]; [|by intros [= _ <-]].
  destruct (Close cx' now w st) as [[w' res] st2] eqn:E. intros [= -> <-]. by eapply Close_Err.
Qed.

Lemma ReadAll_spec cx b key st :
  cx = None → ReadAll cx b key st =
  Some match objects st !! objectKey b key with
       | Some o => Ok (data o)
       | None => Err ErrNotFound
       end.
Proof.
  intros ->. unfold ReadAll, NewReader, NewRangeReader. cbn.
  destruct (objects st !! objectKey b key) as [o|]; [|done].
  rewrite (bool_decide_false (strlen (data o) < 0)) by (pose proof (strlen_nonneg (data o)); lia).
  rewrite (bool_decide_false (0 ≤ -1)) by lia. cbn [andb].
  destruct (Slice (data o) 0 (strlen (data o))) as [part|] eqn:E.
  - apply Slice_Some in E as (_ & _ & ->). change (Z.to_nat 0) with 0%nat. rewrite str_drop_0. cbn [r_data]. rewrite str_take_ge; [done|].
    unfold strlen. lia.
  - apply Slice_None in E. pose proof (strlen_nonneg (data o)). lia.
Qed.

End steps.
End Mem.
