(* ===== verification/MemTheorems.v ===== *)
(** * What the in-memory driver guarantees

    The theorems about [Mem]: the state invariant, version tokens, conditional
    writes, reads after writes, error paths, range reads, listing and paging. *)
From S2P Require Import Prelude Strconv GoTime Md5 Core MemDriver.
Import Mem.

Section theorems.
Context `{GoTables}.

(** ** Versions *)

(** C14: after any run of operations shorter than the range of the version
    counter, started on a new bucket, the state is well-formed: sizes and
    checksums describe the stored bytes, and no two objects share a version. *)
Theorem mem_reachable_wf n st :
  nsteps step n NewState st → Z.of_nat n < 2 ^ 64 → wf st.
Proof. intros Hr Hn. by apply (nsteps_wf n NewState st Hr wf_New). Qed.

(** C15: a version token names one write for ever: an object seen later with a
    token seen earlier is the same object, unchanged, under the same key. *)
Theorem mem_versions_never_reused n m st st' k k' o o' :
  nsteps step n NewState st → nsteps step m st st' → Z.of_nat n + Z.of_nat m < 2 ^ 64 →
  objects st !! k = Some o → objects st' !! k' = Some o' →
  a_Version (attrs o) = a_Version (attrs o') → k = k' ∧ o = o'.
Proof.
  intros Hn Hm Hlt Ho Ho' Hv.
  destruct (nsteps_wf n _ _ Hn wf_New) as [Hwf Hc]; [cbn; lia|]. cbn in Hc.
  destruct (nsteps_wf m _ _ Hm Hwf) as [_ Hc']; [lia|].
  destruct (nsteps_objects m st st' k' o' Hm Hwf ltac:(lia) Ho') as [Hin|(v & Hr & Hv')].
  - assert (k = k') as <- by (by eapply wf_versions). split; [done|congruence].
  - destruct (wf_attrs st Hwf _ _ Ho) as (_ & _ & u & ? & Hu).
    rewrite Hu, Hv' in Hv. apply FormatUint_inj in Hv; lia.
Qed.

Lemma WriteAll_IfMatch_Ok cx cx' now b key p opts v st st' :
  v ≠ "" → WriteAll cx cx' now b key p opts [Some (IfMatch v)] st = (Ok tt, st') →
  ∃ o a, objects st !! objectKey b key = Some o ∧ a_Version (attrs o) = v ∧
    objects st' = <[objectKey b key := mkObject p a]> (objects st) ∧
    a_Version a = FormatUint (wrapu64 (nextVersion st + 1)).
Proof.
  intros Hv Hw. apply WriteAll_Ok in Hw as (cl & cl' & c & _ & _ & Hc & Hpass & ->).
  rewrite compile_IfMatch in Hc. injection Hc as <-.
  apply conditionsPass_IfMatch in Hpass as (_ & x & Hx & Hxv); [|done].
  destruct (objects st !! objectKey b key) as [o|] eqn:E; [|done]. injection Hx as <-.
  eexists o, _. done.
Qed.

(** Once version [v] has been replaced, no object carries it any more. *)
Lemma swapped_out cx cx' now b key p opts v st st1 m st2 k o :
  wf st → v ≠ "" → WriteAll cx cx' now b key p opts [Some (IfMatch v)] st = (Ok tt, st1) →
  nsteps step m st1 st2 → nextVersion st + 1 + Z.of_nat m < 2 ^ 64 →
  objects st2 !! k = Some o → a_Version (attrs o) ≠ v.
Proof.
  intros Hwf Hv Hw Hm Hlt Ho Hov. pose proof (wf_counter st Hwf) as H0.
  destruct (WriteAll_IfMatch_Ok _ _ _ _ _ _ _ _ _ _ Hv Hw) as (o0 & a & Ho0 & Hv0 & Hst1 & Ha).
  pose proof (WriteAll_change cx cx' now b key p opts [Some (IfMatch v)] st) as Hc. rewrite Hw in Hc. cbn in Hc.
  pose proof (change_counter _ _ Hc ltac:(lia) ltac:(lia)) as Hcnt.
  assert (wf st1) as Hwf1 by (eapply change_wf; eauto; lia).
  destruct (wf_attrs st Hwf _ _ Ho0) as (_ & _ & u & Hu & Hu').
  rewrite wrapu64_id in Ha by lia.
  destruct (nsteps_objects m st1 st2 k o Hm Hwf1 ltac:(lia) Ho) as [Hin|(w & Hwr & Hw')].
  - rewrite Hst1 in Hin. apply lookup_insert_Some in Hin as [[_ <-]|[Hne Hin]].
    + cbn in Hov. rewrite Ha, <- Hv0, Hu' in Hov. apply FormatUint_inj in Hov; lia.
    + apply Hne. eapply (wf_versions st Hwf); [exact Ho0|exact Hin|congruence].
  - destruct (nsteps_wf m _ _ Hm Hwf1) as [_ Hc']; [lia|].
    rewrite Hw', <- Hv0, Hu' in Hov. apply FormatUint_inj in Hov; lia.
Qed.

(** A version token wins at most one compare-and-swap: after a write under
    [IfMatch(v)] succeeded, every later write or delete under [IfMatch(v)] of
    the same key, after any run of operations, fails and changes nothing. *)
Theorem mem_cas_single_winner n cx cx' now b key p opts v st st1 m st2 :
  nsteps step n NewState st → Z.of_nat n + 1 + Z.of_nat m < 2 ^ 64 → v ≠ "" →
  WriteAll cx cx' now b key p opts [Some (IfMatch v)] st = (Ok tt, st1) →
  nsteps step m st1 st2 →
  (∀ cx cx' now p opts, ∃ e, WriteAll cx cx' now b key p opts [Some (IfMatch v)] st2 = (Err e, st2)) ∧
  (∀ cx, ∃ e, Delete cx b key [Some (IfMatch v)] st2 = (Err e, st2)).
Proof.
  intros Hn Hlt Hv Hw Hm.
  destruct (nsteps_wf n _ _ Hn wf_New) as [Hwf Hc]; [cbn; lia|]. cbn in Hc.
  assert (∀ k o, objects st2 !! k = Some o → a_Version (attrs o) ≠ v) as Hout.
  { intros k o. eapply swapped_out; eauto. lia. }
  split.
  - intros cx2 cx2' now2 p2 opts2.
    destruct (WriteAll cx2 cx2' now2 b key p2 opts2 [Some (IfMatch v)] st2) as [[[]|e] st3] eqn:E.
    + apply WriteAll_IfMatch_Ok in E as (o & a & Ho & Hov & _); [|done]. by destruct (Hout _ _ Ho).
    + exists e. f_equal. by eapply WriteAll_Err.
  - intros cx2. unfold Delete. destruct cx2 as [e|]; [by exists e|]. rewrite compile_IfMatch.
    destruct (objects st2 !! objectKey b key) as [o|] eqn:E; [|by eexists].
    destruct (conditionsPass _ _ _) eqn:Hp; [|by eexists].
    apply conditionsPass_IfMatch in Hp as (_ & x & [= <-] & Hx); [|done]. by destruct (Hout _ _ E).
Qed.

(** ** Reading back, and error paths *)

(** After a successful [WriteAll] the key reads back exactly the bytes
    written, its attributes describe them and carry the normalised metadata,
    and every other key is as it was. *)
Theorem mem_write_then_read cx cx' now b key p opts pre st st' :
  WriteAll cx cx' now b key p opts pre st = (Ok tt, st') →
  ReadAll None b key st' = Some (Ok p) ∧
  (∃ cloned md a, PrepareWriteAllOptions opts p = Ok cloned ∧
     NormalizeMetadata (o_Metadata cloned) = Ok md ∧ Attributes_ None b key st' = Ok a ∧
     a_Size a = strlen p ∧ a_MD5 a = md5_Sum p ∧ a_Metadata a = md ∧
     a_ContentType a = o_ContentType cloned ∧ a_ModTime a = now) ∧
  (∀ k, k ≠ objectKey b key → objects st' !! k = objects st !! k).
Proof.
  intros (cl & cl' & c & Hp & Hcl & _ & _ & ->)%WriteAll_Ok. split_and!.
  - rewrite ReadAll_spec by done. cbn. by rewrite lookup_insert_eq.
  - cbn in Hcl. destruct (NormalizeMetadata (o_Metadata cl)) as [md|] eqn:Hmd; [|done].
    cbn in Hcl. injection Hcl as <-. eexists cl, md, _. unfold Attributes_. cbn.
    rewrite lookup_insert_eq. blob_simpl. split_and!; try done. cbn. by blob_simpl.
  - intros k Hk. cbn. by rewrite lookup_insert_ne.
Qed.

(** Every operation that returns an error leaves the state as it was: a
    failed precondition, a checksum mismatch, a bad option, a cancelled
    context or a reader that fails half-way commits nothing. *)
Theorem mem_error_changes_nothing st e st' :
  (∀ cx now w w', Close cx now w st = (w', Err e, st') → st' = st) ∧
  (∀ cx cx' now b key p opts pre, WriteAll cx cx' now b key p opts pre st = (Err e, st') → st' = st) ∧
  (∀ cx cx' now b key r opts pre, Upload cx cx' now b key r opts pre st = (Err e, st') → st' = st) ∧
  (∀ cx h now b dst src, Copy cx h now b dst src st = (Err e, st') → st' = st) ∧
  (∀ cx b key pre, Delete cx b key pre st = (Err e, st') → st' = st) ∧
  (∀ cx now b key md, UpdateMetadata cx now b key md st = (Err e, st') → st' = st).
Proof.
  split_and!; intros; eauto using Close_Err, WriteAll_Err, Upload_Err.
  - unfold Copy in *. repeat case_match; simplify_eq; done.
  - unfold Delete in *. repeat case_match; simplify_eq; done.
  - unfold UpdateMetadata in *. repeat case_match; simplify_eq; done.
Qed.

(** A source that fails half-way is reported, and nothing of it becomes
    readable: [Upload] of a failing reader returns that error and leaves the
    bucket as it was. *)
Theorem mem_upload_failing_source cx' now b key r err opts pre st :
  s_err r = Some err →
  ∃ e, Upload None cx' now b key r opts pre st = (Err e, st).
Proof.
  intros Hr. unfold Upload. destruct (RequireUploadOptions opts) as [cl|e]; [|by exists e].
  destruct (NewWriter b key (Some cl) pre) as [w|e] eqn:Hw; [|by exists e].
  unfold ReadFrom. rewrite Hr.
  assert (w_closed w = false) as ->; [|by eexists].
  unfold NewWriter in Hw. destruct (CompilePreconditions pre); [|done].
  destruct (WriterOptions_Clone (Some cl)) as [cl'|]; [|done]. cbn in Hw.
  destruct (run_hook (o_BeforeWrite cl')); [done|]. by injection Hw as <-.
Qed.

(** ** Range reads *)

(** A range read that does not overflow delivers exactly the bytes of the
    object from [offset], at most [length] of them when [length] is not
    negative, and both ends are clipped to the object. *)
Theorem mem_range_read b key offset length st o :
  objects st !! objectKey b key = Some o → strlen (data o) ≤ int64_max →
  0 ≤ offset → length ≤ int64_max - Z.min offset (strlen (data o)) →
  NewRangeReader None b key offset length None st =
  Some (Ok (mkReader
    (let rest := str_drop (Z.to_nat offset) (data o) in
     if bool_decide (length < 0) then rest else str_take (Z.to_nat length) rest) (attrs o))).
Proof.
  intros Ho Hlen H0 Hl. unfold NewRangeReader. cbn. rewrite Ho.
  rewrite (bool_decide_false (offset < 0)) by lia. blob_simpl.
  set (d := data o) in *. set (off := if bool_decide (strlen d < offset) then strlen d else offset).
  pose proof (strlen_nonneg d).
  assert (off = Z.min offset (strlen d)) as Hoff by (unfold off; case_bool_decide; lia).
  assert (str_drop (Z.to_nat offset) d = str_drop (Z.to_nat off) d) as Hdrop.
  { unfold off. case_bool_decide as Hlt; [|done]. unfold strlen in *. rewrite !str_drop_ge; [done|lia..]. }
  assert (String.length (str_drop (Z.to_nat off) d) = Z.to_nat (strlen d - off)) as Hdl.
  { rewrite str_length_drop. unfold strlen in *. lia. }
  rewrite Hdrop. clearbody off. cbn.
  destruct (decide (length < 0)) as [Hneg|Hneg].
  - rewrite (bool_decide_false (0 ≤ length)), (bool_decide_true (length < 0)) by lia. cbn.
    unfold Slice. rewrite bool_decide_true by lia. by rewrite str_take_ge by lia.
  - rewrite (bool_decide_true (0 ≤ length)), (bool_decide_false (length < 0)) by lia. cbn.
    rewrite wrap64_id by (unfold int64_min; lia). unfold Slice.
    destruct (decide (off + length < strlen d)).
    + rewrite (bool_decide_true (off + length < _)) by done. rewrite bool_decide_true by lia.
      by replace (off + length - off) with length by lia.
    + rewrite (bool_decide_false (off + length < _)) by done. rewrite bool_decide_true by lia.
      by rewrite !str_take_ge by lia.
Qed.

(** The range check of the in-memory driver overflows: with an offset
    inside the object and a length so large that [offset+length] exceeds the
    largest [int64], the slice bounds cross and the call panics. *)
Theorem mem_range_read_overflow_panics b key offset length st o :
  objects st !! objectKey b key = Some o → strlen (data o) ≤ int64_max →
  0 < offset ≤ strlen (data o) → length ≤ int64_max → int64_max < offset + length →
  NewRangeReader None b key offset length None st = None.
Proof.
  intros Ho Hlen Hoff Hl Hov. unfold NewRangeReader. cbn. rewrite Ho.
  rewrite (bool_decide_false (offset < 0)), (bool_decide_false (strlen (data o) < offset)) by lia.
  rewrite (wrap64_over (offset + length)) by (unfold int64_max in *; lia).
  unfold int64_max in *. pose proof (strlen_nonneg (data o)).
  rewrite (bool_decide_true (0 ≤ length)), (bool_decide_true (offset + length - 2 ^ 64 < _)) by lia. cbn.
  unfold Slice. by rewrite bool_decide_false by lia.
Qed.

(** ** Listing and paging *)

Lemma listed_keys_elem fullPrefix objs k :
  k ∈ listed_keys fullPrefix objs ↔ HasPrefix k fullPrefix = true ∧ is_Some (objs !! k).
Proof.
  unfold listed_keys. rewrite merge_sort_Permutation, list_elem_of_filter, list_elem_of_fmap.
  split.
  - intros [Hp ([k' o] & -> & Ho%elem_of_map_to_list)]. cbn in *. by split; [|exists o].
  - intros [Hp [o Ho]]. split; [done|]. exists (k, o). by rewrite elem_of_map_to_list.
Qed.

Lemma listed_keys_sorted fullPrefix objs : StronglySorted str_lt (listed_keys fullPrefix objs).
Proof.
  assert (NoDup (listed_keys fullPrefix objs)) as Hnd.
  { unfold listed_keys. rewrite merge_sort_Permutation. apply NoDup_filter, NoDup_fst_map_to_list. }
  assert (StronglySorted String.le (listed_keys fullPrefix objs)) as Hs
    by (apply StronglySorted_merge_sort; apply _).
  induction Hs as [|k l Hs IH Hk]; constructor.
  - apply IH. by inversion Hnd.
  - apply NoDup_cons in Hnd as [Hnin _]. rewrite Forall_forall in *. intros k' Hk'.
    split; [by apply Hk|]. by intros ->.
Qed.

Lemma list_loop_nodelim b opts objs keys seen :
  l_Delimiter opts = "" → Forall (λ k, is_Some (objs !! k)) keys →
  lo_Key <$> list_loop b opts objs keys seen = (λ k, TrimPrefix k (prefix b)) <$> keys.
Proof.
  intros Hd. induction 1 as [|k keys [o Ho] Hks IH]; [done|]. cbn [list_loop].
  unfold dirKey. rewrite Hd, Ho, bool_decide_true by done. by rewrite !fmap_cons, IH.
Qed.

Lemma list_keys b opts st :
  l_Delimiter opts = "" →
  lo_Key <$> listObjectsLocked b opts st
  = (λ k, TrimPrefix k (prefix b)) <$> listed_keys (objectKey b (l_Prefix opts)) (objects st).
Proof.
  intros Hd. apply list_loop_nodelim; [done|]. apply Forall_forall.
  by intros k [_ ?]%listed_keys_elem.
Qed.

(** A listing without delimiter is exactly the bucket's keys under the
    prefix, each once, in lexical order, relative to the bucket's root. *)
Theorem mem_list_sorted_complete b opts st :
  l_Delimiter opts = "" →
  let keys := lo_Key <$> listObjectsLocked b opts st in
  StronglySorted str_lt keys ∧
  ∀ key, key ∈ keys ↔ HasPrefix key (l_Prefix opts) = true ∧ is_Some (objects st !! objectKey b key).
Proof.
  intros Hd. cbn. rewrite list_keys by done. unfold objectKey.
  assert (∀ k, k ∈ listed_keys (prefix b +:+ l_Prefix opts) (objects st) →
            ∃ r, k = prefix b +:+ l_Prefix opts +:+ r) as Hpre.
  { intros k [[r ->]%HasPrefix_spec _]%listed_keys_elem. exists r. by rewrite string_app_assoc. }
  split.
  - pose proof (listed_keys_sorted (prefix b +:+ l_Prefix opts) (objects st)) as Hs. revert Hpre Hs.
    generalize (listed_keys (prefix b +:+ l_Prefix opts) (objects st)) as ks.
    induction ks as [|k ks IH]; [constructor|]. intros Hpre Hs. inversion Hs as [|? ? Hs' Hk]; subst.
    constructor; [apply IH; [|done]; intros; apply Hpre; by right|].
    apply Forall_fmap, Forall_forall. rewrite Forall_forall in Hk. intros k' Hk'.
    destruct (Hpre k) as [r ->]; [by left|]. destruct (Hpre k') as [r' ->]; [by right|].
    specialize (Hk _ Hk'). cbn. blob_simpl. by apply str_lt_app in Hk.
  - intros key. rewrite list_elem_of_fmap. split.
    + intros (k & -> & Hk). destruct (Hpre k Hk) as [r ->]. apply listed_keys_elem in Hk as [_ Hk].
      blob_simpl. split; [|done]. auto with blob.
    + intros [[r ->]%HasPrefix_spec Hk]. exists (prefix b +:+ l_Prefix opts +:+ r).
      blob_simpl. split; [done|]. apply listed_keys_elem. split; [|done].
      apply HasPrefix_spec. exists r. by rewrite string_app_assoc.
Qed.

(** The bucket as the iterator sees it: the pages of one state. *)
Definition pages (b : Bucket) (st : state) (tok : bytes) (size : Z) (opts : option ListOptions)
    : result (list ListObject * bytes) :=
  match ListPage None b tok size opts st with
  | Some r => r
  | None => Err (ErrOther "panic")
  end.

Lemma decode_Itoa e : 0 ≤ e ≤ int64_max → decodePageToken (Itoa e) = Ok e.
Proof.
  intros He. unfold decodePageToken. rewrite bool_decide_false.
  - rewrite Atoi_Itoa by done. by rewrite bool_decide_false by lia.
  - intros E. apply (f_equal Atoi) in E. rewrite Atoi_Itoa in E by done. done.
Qed.

Lemma Itoa_nonempty e : 0 ≤ e ≤ int64_max → strlen (Itoa e) ≠ 0.
Proof.
  intros He E. apply Atoi_Itoa in He. destruct (Itoa e) eqn:Hi; [done|].
  unfold strlen in E. cbn in E. lia.
Qed.

(** One page from offset [e], at a size that cannot overflow. *)
Lemma page_at b st tok e size opts :
  decodePageToken tok = Ok e → strlen tok ≠ 0 → l_BeforeList opts = None → 0 < size → 0 ≤ e →
  let results := listObjectsLocked b opts st in
  Z.of_nat (length results) + size ≤ int64_max →
  ListPage None b tok size (Some opts) st =
  Some (Ok (take (Z.to_nat size) (drop (Z.to_nat e) results),
            if bool_decide (e + size < Z.of_nat (length results)) then Itoa (e + size) else "")).
Proof.
  intros Hd Ht Hh Hs He results Hov. unfold ListPage. cbn.
  rewrite (bool_decide_false (strlen tok = 0)) by done. rewrite Hd.
  rewrite (bool_decide_false (size ≤ 0)) by lia. rewrite Hh. cbn. fold results.
  case_bool_decide as Hlen.
  - rewrite (bool_decide_false (e + size < _)) by lia. rewrite drop_ge by lia. by rewrite take_nil.
  - rewrite wrap64_id by (unfold int64_min; lia).
    destruct (decide (e + size < Z.of_nat (length results))).
    + rewrite Z.min_l by lia. rewrite !bool_decide_true by lia.
      by replace (e + size - e) with size by lia.
    + rewrite Z.min_r by lia. rewrite (bool_decide_true (e ≤ _)) by lia.
      rewrite (bool_decide_false (_ < Z.of_nat (length results))), (bool_decide_false (e + size < _)) by lia.
      do 3 f_equal. rewrite !take_ge by (rewrite length_drop; lia). done.
Qed.

(** The iterator's state stands for the entries still to come. *)
Section iterator.
Context (b : Bucket) (st : state) (opts : ListOptions).
Let results := listObjectsLocked b opts st.
Context (Hhook : l_BeforeList opts = None) (Hlen : Z.of_nat (length results) + 1000 ≤ int64_max).

Definition remaining (i : ListIterator) (rem : list ListObject) : Prop :=
  li_opts i = opts ∧ li_pageSize i = 1000 ∧
  ((li_done i = true ∧ rem = li_page i) ∨
   (li_done i = false ∧ ∃ e, decodePageToken (li_pageToken i) = Ok (Z.of_nat e) ∧
      strlen (li_pageToken i) ≠ 0 ∧ (e < length results ∨ e = 0)%nat ∧
      rem = li_page i ++ drop e results)).

Lemma remaining_start : remaining (NewListIterator (Some opts)) results.
Proof. split; [done|]. split; [done|]. right. split; [done|]. exists 0%nat. split_and!; try done. by right. Qed.

(** Fetching a page keeps what is to come, and brings an entry unless there is none. *)
Lemma remaining_fetch i rem :
  remaining i rem → li_page i = [] → li_done i = false →
  ∃ page next, pages b st (li_pageToken i) (li_pageSize i) (Some (li_opts i)) = Ok (page, next) ∧
    remaining (mkListIterator (li_opts i) next page (li_done i || bool_decide (strlen next = 0))
                 (li_pageSize i)) rem ∧
    (page = [] → rem = [] ∧ strlen next = 0).
Proof.
  intros (Ho & Hs & [[Hd _]|(_ & e & He & Ht & Hlt & ->)]) Hp Hnd; [congruence|].
  unfold pages. rewrite Ho, Hs, Hp.
  rewrite (page_at b st (li_pageToken i) (Z.of_nat e) 1000 opts) by (exact Hlen || done || lia). fold results.
  eexists _, _. split; [done|]. rewrite Nat2Z.id. change (Z.to_nat 1000) with 1000%nat.
  rewrite Hnd. cbn [orb app]. case_bool_decide as Hmore.
  - assert (strlen (Itoa (Z.of_nat e + 1000)) ≠ 0) as Hne by (apply Itoa_nonempty; lia).
    rewrite bool_decide_false by done. split.
    + split; [done|]. split; [done|]. right. split; [done|]. exists (e + 1000)%nat. cbn.
      rewrite decode_Itoa by lia. split_and!; [f_equal; lia|done|left; lia|].
      rewrite <- drop_drop. by rewrite take_drop.
    + intros E. apply (f_equal length) in E. rewrite length_take, length_drop in E. cbn [length] in E. lia.
  - rewrite bool_decide_true by done. split.
    + split; [done|]. split; [done|]. left. split; [done|]. cbn.
      rewrite take_ge; [done|]. rewrite length_drop. lia.
    + intros E. split; [|done]. rewrite take_ge in E by (rewrite length_drop; lia). done.
Qed.

Lemma remaining_Next i rem fuel :
  remaining i rem → (1 ≤ fuel)%nat →
  ∃ i', Next (pages b st) fuel i = Some (i', match rem with [] => Err EOF | x :: _ => Ok x end) ∧
        remaining i' (tail rem).
Proof.
  assert (∀ i rem fuel, remaining i rem → (li_page i = [] → rem = [] ∧ li_done i = true) →
    ∃ i', Next (pages b st) fuel i = Some (i', match rem with [] => Err EOF | x :: _ => Ok x end) ∧
          remaining i' (tail rem)) as Hgo.
  { intros i' rem' fuel' Hr Hpage. destruct Hr as (Ho & Hs & Hr).
    destruct (li_page i') as [|x rest] eqn:Hp.
    - destruct Hpage as [-> Hd]; [done|]. exists i'.
      split; [destruct fuel'; cbn; by rewrite Hp, Hd|]. split; [done|]. split; [done|]. left. by rewrite Hp.
    - destruct fuel'; cbn; rewrite Hp;
        (destruct Hr as [[Hd ->]|(Hd & e & ? & ? & ? & ->)]; eexists; (split; [done|]);
         (split; [done|]); (split; [done|]); [by left|right; split; [done|]; by exists e]). }
  intros Hr Hf. destruct (li_page i) as [|x rest] eqn:Hp; [|apply Hgo; [done|congruence]].
  destruct (li_done i) eqn:Hd.
  { apply Hgo; [done|]. intros _. split; [|done]. destruct Hr as (_ & _ & [[_ ->]|(? & _)]); congruence. }
  destruct (remaining_fetch i rem Hr Hp Hd) as (page & next & Hpg & Hr' & Hempty).
  destruct fuel as [|fuel]; [lia|]. cbn [Next]. rewrite Hp, Hd, Hpg. rewrite Hd in Hr'.
  apply Hgo; [done|]. cbn. intros ->. destruct Hempty as [-> ->]; [done|]. done.
Qed.

Lemma remaining_All i rem fuel :
  remaining i rem → (length rem + 1 ≤ fuel)%nat →
  All (pages b st) (λ _, true) fuel i = Some (rem, None).
Proof.
  revert i rem. induction fuel as [|fuel IH]; intros i rem Hr Hf; [lia|]. cbn [All].
  destruct (remaining_Next i rem (S fuel) Hr) as (i' & -> & Hr'); [lia|].
  destruct rem as [|x rem]; [done|]. cbn in Hr', Hf. by rewrite (IH i' rem) by (done || lia).
Qed.

End iterator.

(** C40: iterating over a bucket that does not change yields its whole listing,
    every entry once and in order, and ends without error, however many pages
    that takes.  The fuel is one more than the number of entries. *)
Theorem mem_iterator_yields_listing b st opts :
  l_BeforeList opts = None →
  Z.of_nat (length (listObjectsLocked b opts st)) + 1000 ≤ int64_max →
  ∀ fuel, (length (listObjectsLocked b opts st) + 1 ≤ fuel)%nat →
  All (pages b st) (λ _, true) fuel (List_ (Some opts)) = Some (listObjectsLocked b opts st, None).
Proof. intros Hh Hl fuel Hf. apply remaining_All with opts; [done|done|apply remaining_start|done]. Qed.

End theorems.
