(* ===== verification/MemStore.v ===== *)
(** * The in-memory driver implements the store

    [exec] answers the calls of a program with the driver's methods, one
    [Mem.state] per physical bucket; [mem_refines_store] is the refinement:
    every answer is one the contract allows. *)
From S2P Require Import Prelude Strconv GoTime Md5 Core Effects Store MemDriver.

Section exec.
Context `{GoTables}.

Definition memBucket (b : Handle) : Mem.Bucket := Mem.mkBucket (h_prefix b).

Definition memWriter (w : stream) : Mem.writer :=
  Mem.mkWriter (memBucket (sw_bucket w)) (sw_key w) (sw_opts w) (sw_pre w) (sw_buf w) (sw_closed w).

Definition memStream (b : Handle) (w : Mem.writer) : stream :=
  mkStream b (Mem.w_key w) (Mem.w_opts w) (Mem.w_preconditions w) (Mem.w_buf w) (Mem.w_closed w).

Definition upd {A} (n : nat) (x : A) (f : nat → A) : nat → A :=
  fun m => if decide (m = n) then x else f m.

Definition exec (e : env) (o : op) (w : nat → Mem.state) : option (ans o) * (nat → Mem.state) :=
  match o return option (ans o) * (nat → Mem.state) with
  | OAttributes b key => (Some (Mem.Attributes_ (e_cx e) (memBucket b) key (w (h_store b))), w)
  | OReadAll b key => (Mem.ReadAll (e_cx e) (memBucket b) key (w (h_store b)), w)
  | ONewReader b key =>
    (match Mem.NewReader (e_cx e) (memBucket b) key None (w (h_store b)) with
     | None => None
     | Some (Err err) => Some (Err err)
     | Some (Ok r) => Some (Ok (mkSource (Mem.r_data r) None))
     end, w)
  | OListPage b token size opts =>
    (Mem.ListPage (e_cx e) (memBucket b) token size (Some opts) (w (h_store b)), w)
  | OWriteAll b key p opts pre =>
    let '(r, st) := Mem.WriteAll (e_cx e) (e_cx e) (e_now e) (memBucket b) key p (Some opts) pre
                      (w (h_store b)) in
    (Some r, upd (h_store b) st w)
  | ODelete b key pre =>
    let '(r, st) := Mem.Delete (e_cx e) (memBucket b) key pre (w (h_store b)) in
    (Some r, upd (h_store b) st w)
  | ONewWriter b key opts pre =>
    (Some (match Mem.NewWriter (memBucket b) key (Some opts) pre with
           | Ok mw => Ok (memStream b mw)
           | Err err => Err err
           end), w)
  | OReadFrom sw r =>
    let '(mw, res) := Mem.ReadFrom (e_cx e) r (memWriter sw) in
    (Some (memStream (sw_bucket sw) mw, res), w)
  | OClose sw =>
    let '(mw, res, st) := Mem.Close (e_cx e) (e_now e) (memWriter sw) (w (h_store (sw_bucket sw))) in
    (Some (memStream (sw_bucket sw) mw, res), upd (h_store (sw_bucket sw)) st w)
  | OCloseWithError sw =>
    let '(mw, err) := Mem.CloseWithError (memWriter sw) in
    (Some (memStream (sw_bucket sw) mw, err), w)
  | ONow => (Some (e_clock e), w)
  | ORandRead n => (Some (e_rand e), w)
  | ORandN n => (Some (e_randn e n), w)
  | OUuid => (Some (e_uuid e), w)
  | OSleep d => (Some (e_wait e), w)
  | OSelect d =>
    (Some (match e_wait e with Some err => SelCtx err | None => if e_lost e then SelDone else SelGo end), w)
  | OTick d => (Some (bool_decide (e_wait e = None)), w)
  end.

(** ** The abstract state of a driver state *)

Definition abs_object (o : Mem.object) : sobject :=
  mkSobject (Mem.data o) (a_Metadata (Mem.attrs o)) (a_Version (Mem.attrs o)).

(** The tokens given out are the counter's values so far. *)
Definition given_out (n : Z) : gset string := list_to_set (FormatUint <$> seqZ 1 n).

Definition abs (st : Mem.state) : store :=
  mkStore (abs_object <$> Mem.objects st) (given_out (Mem.nextVersion st)).

Lemma elem_of_given_out v n : v ∈ given_out n ↔ ∃ i, 1 ≤ i ≤ n ∧ v = FormatUint i.
Proof.
  unfold given_out. rewrite elem_of_list_to_set, list_elem_of_fmap. split.
  - intros (i & -> & Hi%elem_of_seqZ). exists i. split; [lia|done].
  - intros (i & Hi & ->). exists i. split; [done|]. apply elem_of_seqZ. lia.
Qed.

Lemma given_out_succ n : 0 ≤ n → given_out (n + 1) = {[FormatUint (n + 1)]} ∪ given_out n.
Proof.
  intros Hn. apply set_eq. intros v. rewrite elem_of_union, elem_of_singleton, !elem_of_given_out. split.
  - intros (i & Hi & ->). destruct (decide (i = n + 1)) as [->|]; [by left|]. right. exists i. split; [lia|done].
  - intros [->|(i & Hi & ->)]; [exists (n + 1)|exists i]; split; (lia || done).
Qed.

(** The counter's next value has not been given out, and is not empty. *)
Lemma next_fresh st : 0 ≤ Mem.nextVersion st → Mem.nextVersion st + 1 < 2 ^ 64 →
  FormatUint (Mem.nextVersion st + 1) ≠ "" ∧
  FormatUint (Mem.nextVersion st + 1) ∉ given_out (Mem.nextVersion st).
Proof.
  intros H0 Hlt. split; [by apply FormatUint_nonempty|].
  rewrite elem_of_given_out. intros (i & Hi & E). apply FormatUint_inj in E; lia.
Qed.

Lemma abs_version st k :
  version_at (abs st) k = (λ o, a_Version (Mem.attrs o)) <$> Mem.objects st !! k.
Proof. unfold version_at. cbn. rewrite lookup_fmap. by destruct (Mem.objects st !! k). Qed.

Lemma conditionsPass_holds c st k :
  Mem.conditionsPass c (Mem.attrs <$> Mem.objects st !! k) (bool_decide (is_Some (Mem.objects st !! k)))
  = holds c (version_at (abs st) k).
Proof.
  rewrite abs_version. unfold Mem.conditionsPass, holds.
  assert (∀ x y : string, bool_decide (Some x = Some y) = bool_decide (x = y)) as Hs
    by (intros; apply bool_decide_ext; split; congruence).
  assert (∀ y : string, bool_decide (None = Some y) = false) as Hn by (intros; by apply bool_decide_false).
  destruct (Mem.objects st !! k) as [o|]; cbn; by rewrite ?Hs, ?Hn.
Qed.

Lemma abs_put st k d a :
  Mem.wf st → Mem.nextVersion st + 1 < 2 ^ 64 →
  a_Version a = FormatUint (wrapu64 (Mem.nextVersion st + 1)) →
  put (abs st) k d (a_Metadata a)
    (abs (Mem.mkState (<[k := Mem.mkObject d a]> (Mem.objects st)) (wrapu64 (Mem.nextVersion st + 1)))).
Proof.
  intros Hwf Hlt Ha. pose proof (Mem.wf_counter st Hwf).
  rewrite wrapu64_id in * by lia. destruct (next_fresh st) as [Hne Hf]; [lia|done|].
  exists (FormatUint (Mem.nextVersion st + 1)). split; [done|].
  unfold abs. cbn. rewrite fmap_insert, given_out_succ by lia. unfold abs_object at 1. cbn. by rewrite Ha.
Qed.

(** A context error is not one of the store's two sentinels. *)
Definition env_ok (e : env) : Prop := ∀ err, e_cx e = Some err → other_error err.

Lemma other_ErrOther t : other_error (ErrOther t).
Proof. done. Qed.
Lemma other_ErrInvalidOption : other_error ErrInvalidOption.
Proof. done. Qed.

(** A commit of the driver is a conditional write of the store. *)
Lemma Close_spec e mw st w' r st' :
  env_ok e → Mem.wf st → Mem.nextVersion st + 1 < 2 ^ 64 → Mem.w_closed mw = false →
  Mem.Close (e_cx e) (e_now e) mw st = (w', r, st') →
  write_spec (Mem.objectKey (Mem.w_bucket mw) (Mem.w_key mw)) (Mem.w_buf mw)
    (o_Metadata (Mem.w_opts mw)) (Mem.w_preconditions mw) (abs st) r (abs st').
Proof.
  intros He Hwf Hlt Hcl. unfold Mem.Close. rewrite Hcl.
  destruct (e_cx e) as [err|] eqn:Hcx; [intros [= <- <- <-]; left; by eauto|].
  destruct (_ && _); [intros [= <- <- <-]; left; by eauto using other_ErrInvalidOption|].
  rewrite conditionsPass_holds. destruct (holds _ _) eqn:Hh; cbn; intros [= <- <- <-].
  - split; [done|].
    set (a := Mem.close_attrs (Mem.w_opts mw) (Mem.w_buf mw) (e_now e) (wrapu64 (Mem.nextVersion st + 1))).
    assert (o_Metadata (Mem.w_opts mw) = a_Metadata a) as -> by (cbn; by blob_simpl).
    by apply abs_put.
  - left. auto.
Qed.

Lemma WriteAll_spec e b key p opts pre st r st' :
  env_ok e → hook_ok (o_BeforeWrite opts) → Mem.wf st → Mem.nextVersion st + 1 < 2 ^ 64 →
  Mem.WriteAll (e_cx e) (e_cx e) (e_now e) (memBucket b) key p (Some opts) pre st = (r, st') →
  spec (OWriteAll b key p opts pre) (abs st) r (abs st').
Proof.
  intros He Hho Hwf Hlt. cbn [spec]. unfold Mem.WriteAll, PrepareWriteAllOptions. cbn.
  destruct (NormalizeMetadata (o_Metadata opts)) as [md|err] eqn:Hmd; cbn;
    [|intros [= <- <-]; left; exists err; by eauto using normalize_other].
  set (o1 := if bool_decide (o_ContentType opts = "") && _ then _ else _).
  set (o2 := if bool_decide (strlen (o_ContentMD5 o1) = 0) then _ else _).
  assert (o_Metadata o2 = md ∧ o_BeforeWrite o2 = o_BeforeWrite opts) as [Hmd2 Hbw].
  { unfold o2, o1. repeat case_match; done. }
  unfold Mem.NewWriter. destruct (CompilePreconditions pre) as [c|err] eqn:Hc; cbn;
    [|intros [= <- <-]; left; exists err; by eauto using compile_other].
  rewrite Hmd2. destruct (NormalizeMetadata md) as [md'|err] eqn:Hmd'; cbn;
    [|intros [= <- <-]; left; exists err; by eauto using normalize_other].
  rewrite Hbw. destruct (run_hook (o_BeforeWrite opts)) as [err|] eqn:Hr; cbn;
    [intros [= <- <-]; left; by eauto|].
  unfold Mem.Write. cbn. destruct (e_cx e) as [err|] eqn:Hcx; cbn; [intros [= <- <-]; left; by eauto|].
  rewrite <- Hcx. set (mw := Mem.set_w_buf _ _).
  destruct (Mem.Close (e_cx e) (e_now e) mw st) as [[w' r'] st''] eqn:Hcl. intros [= <- <-].
  right. exists c, md, md'. split_and!; try done. by eapply (Close_spec e mw) in Hcl.
Qed.

Lemma Delete_spec e b key pre st r st' :
  env_ok e → Mem.Delete (e_cx e) (memBucket b) key pre st = (r, st') →
  spec (ODelete b key pre) (abs st) r (abs st').
Proof.
  intros He. cbn [spec]. unfold Mem.Delete.
  destruct (e_cx e) as [err|] eqn:Hcx; [intros [= <- <-]; left; by eauto|].
  destruct (CompilePreconditions pre) as [c|err] eqn:Hc;
    [|intros [= <- <-]; left; exists err; by eauto using compile_other].
  change (Mem.objectKey (memBucket b) key) with (h_key b key).
  destruct (Mem.objects st !! h_key b key) as [o|] eqn:Ho.
  - pose proof (conditionsPass_holds c st (h_key b key)) as Hh. rewrite Ho in Hh. cbn in Hh.
    rewrite Hh.
    destruct (holds _ _) eqn:E; cbn; intros [= <- <-]; right; exists c; (split; [done|]); cbn.
    + split_and!; [rewrite lookup_fmap, Ho; by eexists|done|]. unfold abs. cbn. by rewrite fmap_delete.
    + left. auto.
  - intros [= <- <-]. right. exists c. split; [done|]. left. split; [done|]. right. left.
    cbn. by rewrite lookup_fmap, Ho.
Qed.

Lemma list_loop_files b opts objs keys seen obj :
  obj ∈ Mem.list_loop b opts objs keys seen → lo_IsDir obj = false →
  ∃ k, k ∈ keys ∧ is_Some (objs !! k) ∧ lo_Key obj = TrimPrefix k (Mem.prefix b).
Proof.
  revert seen. induction keys as [|k keys IH]; intros seen; cbn; [by intros ?%elem_of_nil|].
  intros Hin Hdir.
  assert (∀ seen, obj ∈ Mem.list_loop b opts objs keys seen →
    ∃ k', k' ∈ k :: keys ∧ is_Some (objs !! k') ∧ lo_Key obj = TrimPrefix k' (Mem.prefix b)) as Hrec.
  { intros seen' Hin'. destruct (IH seen' Hin' Hdir) as (k' & ? & ? & ?). exists k'.
    split_and!; try done. by right. }
  destruct (Mem.dirKey opts _); [case_bool_decide; [by eapply Hrec|]|].
  - apply elem_of_cons in Hin as [->|Hin]; [done|by eapply Hrec].
  - destruct (objs !! k) as [o|] eqn:Ho; [|by eapply Hrec].
    apply elem_of_cons in Hin as [->|Hin]; [|by eapply Hrec].
    exists k. split_and!; [by left|by rewrite Ho; eexists|done].
Qed.

Lemma ListPage_spec e b token size opts st r :
  Mem.ListPage (e_cx e) (memBucket b) token size (Some opts) st = Some r →
  spec (OListPage b token size opts) (abs st) r (abs st).
Proof.
  intros Hl. cbn. split; [done|]. destruct r as [[page next]|]; [|done]. intros obj Hin Hdir.
  assert (obj ∈ Mem.listObjectsLocked (memBucket b) opts st) as Hobj.
  { unfold Mem.ListPage in Hl. repeat (case_match; try done); simplify_eq;
      first [by apply elem_of_nil in Hin|by eapply elem_of_window]. }
  apply list_loop_files in Hobj as (k & Hk & Hso & Hkey); [|done]. rewrite lookup_fmap, Hkey.
  unfold Mem.listed_keys in Hk. rewrite merge_sort_Permutation, list_elem_of_filter in Hk.
  destruct Hk as [[x ->]%HasPrefix_spec _]. unfold Mem.objectKey, memBucket, h_key in *. cbn in *.
  rewrite string_app_assoc in *. blob_simpl. by apply fmap_is_Some.
Qed.

(** The options a client passes carry no callback that answers a sentinel. *)
Definition op_ok (o : op) : Prop :=
  match o with
  | OWriteAll _ _ _ opts _ | ONewWriter _ _ opts _ => hook_ok (o_BeforeWrite opts)
  | _ => True
  end.

Lemma exec_frame e o w a w' m :
  exec e o w = (Some a, w') → target o ≠ Some m → w' m = w m.
Proof.
  destruct o; cbn; intros Hx Ht; repeat case_match; simplify_eq; try done;
    unfold upd; rewrite decide_False; congruence.
Qed.

Lemma upd_eq {A} n (x : A) f : upd n x f n = x.
Proof. unfold upd. by rewrite decide_True. Qed.

Lemma exec_step e o w a w' n : exec e o w = (Some a, w') → w' n = w n ∨ Mem.step (w n) (w' n).
Proof.
  intros Hx. destruct (decide (target o = Some n)) as [Ht|Ht]; [|left; by eapply exec_frame].
  destruct o; cbn in Hx, Ht; simplify_eq.
  5: { destruct (Mem.WriteAll _ _ _ _ _ _ _ _ _) as [r st] eqn:E. injection Hx as <- <-. right. rewrite upd_eq.
       replace st with (r, st).2 by done. rewrite <- E. constructor. }
  5: { destruct (Mem.Delete _ _ _ _ _) as [r st] eqn:E. injection Hx as <- <-. right. rewrite upd_eq.
       replace st with (r, st).2 by done. rewrite <- E. constructor. }
  7: { destruct (Mem.Close _ _ _ _) as [[mw r] st] eqn:E. injection Hx as <- <-. right. rewrite upd_eq.
       replace st with (mw, r, st).2 by done. rewrite <- E. constructor. }
  all: repeat case_match; simplify_eq; by left.
Qed.

Definition absw (w : nat → Mem.state) (t : Z) : world := mkWorld (fun n => abs (w n)) t.

Lemma read_spec_abs {A} (b : Handle) key st (rel : sobject → A → Prop) (f : Mem.object → A) (e : env) :
  env_ok e → (∀ o, rel (abs_object o) (f o)) →
  read_spec (h_key b key) rel (abs st)
    (match e_cx e with
     | Some err => Err err
     | None => match Mem.objects st !! h_key b key with Some o => Ok (f o) | None => Err ErrNotFound end
     end).
Proof.
  intros He Hf. destruct (e_cx e) as [err|] eqn:Hcx; [left; by apply He|].
  destruct (Mem.objects st !! h_key b key) as [o|] eqn:Ho; cbn.
  - exists (abs_object o). rewrite lookup_fmap, Ho. done.
  - right. by rewrite lookup_fmap, Ho.
Qed.

Lemma NewReader_spec e b key st :
  Mem.NewReader (e_cx e) (memBucket b) key None st
  = Some match e_cx e with
         | Some err => Err err
         | None => match Mem.objects st !! h_key b key with
                   | Some o => Ok (Mem.mkReader (Mem.data o) (Mem.attrs o))
                   | None => Err ErrNotFound
                   end
         end.
Proof.
  destruct (e_cx e) as [err|]; [done|].
  pose proof (Mem.ReadAll_spec None (memBucket b) key st eq_refl) as Hr.
  unfold Mem.ReadAll, Mem.NewReader, Mem.NewRangeReader in *. cbn in *.
  change (Mem.objectKey (memBucket b) key) with (h_key b key) in *.
  destruct (Mem.objects st !! h_key b key) as [o|]; [|done].
  rewrite Attributes_Clone_id in *. destruct (Slice _ _ _) as [d|]; [|done]. cbn in Hr. by injection Hr as ->.
Qed.

Lemma NewWriter_spec b key opts pre s :
  hook_ok (o_BeforeWrite opts) →
  (spec (ONewWriter b key opts pre) s
    (match Mem.NewWriter (memBucket b) key (Some opts) pre with
     | Ok mw => Ok (memStream b mw)
     | Err err => Err err
     end) s).
Proof.
  intros Ho. split; [done|]. unfold Mem.NewWriter.
  destruct (CompilePreconditions pre) as [c|err] eqn:Hc; [|by eapply compile_other].
  destruct (WriterOptions_Clone (Some opts)) as [o|err] eqn:Hcl; [|by eapply clone_other].
  cbn -[WriterOptions_Clone].
  assert (o_BeforeWrite o = o_BeforeWrite opts) as ->.
  { cbn in Hcl. destruct (NormalizeMetadata _); [|done]. by injection Hcl as <-. }
  destruct (run_hook (o_BeforeWrite opts)) as [err|] eqn:Hr; [by apply Ho|]. by exists c, o.
Qed.

(** The part of the refinement that is about one bucket. *)
Lemma exec_spec e o w a w' n :
  env_ok e → op_ok o → Mem.wf (w n) → Mem.nextVersion (w n) + 1 < 2 ^ 64 →
  exec e o w = (Some a, w') → target o = Some n → spec o (abs (w n)) a (abs (w' n)).
Proof.
  intros He Ho Hwf Hlt Hx Ht. destruct o; cbn in Hx, Ht, Ho; try done; injection Ht as <-.
  - injection Hx as <- <-. split; [done|]. unfold Mem.Attributes_.
    apply (read_spec_abs b key _ _ (λ o, Attributes_Clone (Mem.attrs o))); [done|].
    intros o. by blob_simpl.
  - unfold Mem.ReadAll in Hx. rewrite NewReader_spec in Hx. injection Hx as Hx <-. split; [done|].
    replace a with (match e_cx e with
      | Some err => Err err
      | None => match Mem.objects (w (h_store b)) !! h_key b key with Some o => Ok (Mem.data o) | None => Err ErrNotFound end
      end) by (destruct (e_cx e), (Mem.objects (w (h_store b)) !! h_key b key); cbn in Hx; congruence).
    by apply read_spec_abs.
  - rewrite NewReader_spec in Hx. injection Hx as Hx <-. split; [done|].
    replace a with (match e_cx e with
      | Some err => Err err
      | None => match Mem.objects (w (h_store b)) !! h_key b key with
                | Some o => Ok (mkSource (Mem.data o) None) | None => Err ErrNotFound end
      end) by (destruct (e_cx e), (Mem.objects (w (h_store b)) !! h_key b key); cbn in Hx; congruence).
    apply (read_spec_abs b key _ _ (λ o, mkSource (Mem.data o) None)); [done|]. intros o. by left.
  - injection Hx as Hx <-. by eapply ListPage_spec.
  - destruct (Mem.WriteAll _ _ _ _ _ _ _ _ _) as [r st] eqn:E. injection Hx as <- <-. rewrite upd_eq.
    by eapply WriteAll_spec.
  - destruct (Mem.Delete _ _ _ _ _) as [r st] eqn:E. injection Hx as <- <-. rewrite upd_eq.
    by eapply Delete_spec.
  - injection Hx as <- <-. by apply NewWriter_spec.
  - unfold Mem.ReadFrom in Hx. cbn in Hx. destruct (sw_closed w0) eqn:Hcl; [by injection Hx as <- <-|].
    destruct (e_cx e) as [err|] eqn:Hcx; injection Hx as <- <-; (split; [done|]); [intros _; by apply He|].
    destruct (s_err r) as [err|] eqn:Hr; [done|]. split; [done|]. destruct w0; cbn in *; by subst.
  - destruct (Mem.Close _ _ _ _) as [[mw r] st] eqn:E. injection Hx as <- <-. cbn. rewrite upd_eq.
    destruct (sw_closed w0) eqn:Hcl.
    + unfold Mem.Close in E. cbn in E. rewrite Hcl in E. by injection E as _ _ <-.
    + by eapply Close_spec in E.
  - by injection Hx as <- <-.
Qed.

(** C4: the in-memory driver implements the conditional-write store: whatever a
    call answers and does to the driver's state, the store's contract allows,
    for every physical bucket, as long as a version counter has room; and the
    driver's state invariant is kept. *)
Theorem mem_refines_store e o w a w' :
  env_ok e → op_ok o → (∀ n, Mem.wf (w n)) → (∀ n, Mem.nextVersion (w n) + 1 < 2 ^ 64) →
  exec e o w = (Some a, w') →
  call o (absw w (e_clock e)) a (absw w' (e_clock e)) ∧ ∀ n, Mem.wf (w' n).
Proof.
  intros He Ho Hwf Hlt Hx. split.
  - split; [done|]. split.
    + destruct (target o) as [n|] eqn:Ht.
      * split; [by eapply exec_spec|]. intros m Hm. cbn. f_equal. eapply exec_frame; [done|congruence].
      * intros m. cbn. f_equal. eapply exec_frame; [done|congruence].
    + destruct o; try done. cbn in Hx. by simplify_eq.
  - intros n. destruct (exec_step _ _ _ _ _ n Hx) as [->|Hs]; [done|].
    eapply Mem.change_wf; [apply Hwf| |apply Hlt]. by apply Mem.step_change.
Qed.

(** ** Calm runs

    With a context that is not done, what each call answers and leaves behind,
    exactly: the equations a sequential run is computed with. *)

Definition calm (e : env) : Prop := e_cx e = None.

(** [o] is an object with bytes [p] and metadata [md] as a write on [st] stores
    it: under the next version, its size and checksum those of its bytes. *)
Record stored (p : bytes) (md : metadata) (st : Mem.state) (o : Mem.object) : Prop := {
  stored_abs : abs_object o = mkSobject p md (FormatUint (wrapu64 (Mem.nextVersion st + 1)));
  stored_size : a_Size (Mem.attrs o) = strlen (Mem.data o);
  stored_md5 : a_MD5 (Mem.attrs o) = md5_Sum (Mem.data o);
}.

Definition put_state (k : string) (o : Mem.object) (st : Mem.state) : Mem.state :=
  Mem.mkState (<[k := o]> (Mem.objects st)) (wrapu64 (Mem.nextVersion st + 1)).

Lemma put_state_wf p md st o k :
  stored p md st o → Mem.wf st → Mem.nextVersion st + 1 < 2 ^ 64 → Mem.wf (put_state k o st).
Proof.
  intros [Ha Hs Hm] Hwf Hlt. eapply Mem.change_wf; [done| |done]. destruct o as [d a].
  apply Mem.change_put; [done..|]. by injection Ha.
Qed.

Lemma delete_state_wf st k :
  Mem.wf st → Mem.wf (Mem.mkState (delete k (Mem.objects st)) (Mem.nextVersion st)).
Proof.
  intros [Hc Ha Hv]. split; cbn; [done|..].
  - intros k' o [_ Ho]%lookup_delete_Some. by eapply Ha.
  - intros k1 k2 o1 o2 [_ H1]%lookup_delete_Some [_ H2]%lookup_delete_Some. by apply Hv.
Qed.

Lemma calm_Attributes e b key w :
  calm e →
  exec e (OAttributes b key) w =
  (Some (match Mem.objects (w (h_store b)) !! h_key b key with
         | Some o => Ok (Mem.attrs o)
         | None => Err ErrNotFound
         end), w).
Proof.
  intros He. cbn. unfold Mem.Attributes_. rewrite He.
  change (Mem.objectKey (memBucket b) key) with (h_key b key).
  destruct (Mem.objects _ !! _); cbn; by blob_simpl.
Qed.

Lemma calm_Now e w : exec e ONow w = (Some (e_clock e), w).
Proof. done. Qed.

Lemma calm_Close e mw st :
  calm e → Mem.w_closed mw = false →
  (o_ContentMD5 (Mem.w_opts mw) = "" ∨ o_ContentMD5 (Mem.w_opts mw) = md5_Sum (Mem.w_buf mw)) →
  let k := Mem.objectKey (Mem.w_bucket mw) (Mem.w_key mw) in
  ∃ o, stored (Mem.w_buf mw) (o_Metadata (Mem.w_opts mw)) st o ∧
  Mem.Close (e_cx e) (e_now e) mw st =
  (Mem.set_w_closed mw,
   if holds (Mem.w_preconditions mw) (version_at (abs st) k) then Ok tt else Err ErrPreconditionFailed,
   if holds (Mem.w_preconditions mw) (version_at (abs st) k) then put_state k o st else st).
Proof.
  intros He Hcl Hmd k. unfold Mem.Close. rewrite Hcl, He.
  exists (Mem.mkObject (Mem.w_buf mw)
    (Mem.close_attrs (Mem.w_opts mw) (Mem.w_buf mw) (e_now e) (wrapu64 (Mem.nextVersion st + 1)))).
  split; [split; [unfold abs_object; cbn; by blob_simpl|done..]|].
  match goal with |- context [if ?c then (_, Err ErrInvalidOption, _) else _] => assert (c = false) as -> end.
  { destruct Hmd as [->| ->]; [done|]. by rewrite (bool_decide_true (md5_Sum _ = _)), andb_false_r. }
  rewrite conditionsPass_holds. fold k. by destruct (holds _ _).
Qed.

Lemma calm_WriteAll e b key p opts pre c md w :
  calm e → o_BeforeWrite opts = None → o_ContentMD5 opts = "" →
  NormalizeMetadata (o_Metadata opts) = Ok md → NormalizeMetadata md = Ok md →
  CompilePreconditions pre = Ok c →
  let n := h_store b in let k := h_key b key in
  ∃ o, stored p md (w n) o ∧
  exec e (OWriteAll b key p opts pre) w =
  (Some (if holds c (version_at (abs (w n)) k) then Ok tt else Err ErrPreconditionFailed),
   upd n (if holds c (version_at (abs (w n)) k) then put_state k o (w n) else w n) w).
Proof.
  intros He Hbw Hm5 Hmd Hmd' Hc n k. cbn [exec]. unfold Mem.WriteAll, PrepareWriteAllOptions, WriterOptions_Clone.
  rewrite Hmd. cbn -[NormalizeMetadata CompilePreconditions].
  set (o1 := if bool_decide (o_ContentType opts = "") && _ then _ else _).
  set (o2 := if bool_decide (strlen (o_ContentMD5 o1) = 0) then _ else _).
  assert (o_Metadata o2 = md ∧ o_BeforeWrite o2 = None ∧ o_ContentMD5 o2 = md5_Sum p) as (Hmd2 & Hbw2 & Hm52).
  { unfold o2, o1. destruct (_ && _); cbn; rewrite Hm5, bool_decide_true; done. }
  unfold Mem.NewWriter, WriterOptions_Clone. rewrite Hc, Hmd2, Hmd'.
  cbn -[NormalizeMetadata CompilePreconditions]. rewrite Hbw2.
  change (run_hook None) with (@None error). unfold Mem.Write. cbn -[NormalizeMetadata CompilePreconditions]. rewrite He.
  set (mw := Mem.set_w_buf _ _).
  destruct (calm_Close e mw (w n)) as (o & Ho & Hcl); [done..|by right|].
  exists o. split; [exact Ho|]. rewrite He in Hcl. subst n. rewrite Hcl. done.
Qed.

Lemma calm_Delete e b key pre c w :
  calm e → CompilePreconditions pre = Ok c →
  let n := h_store b in let k := h_key b key in
  exec e (ODelete b key pre) w =
  (Some (match Mem.objects (w n) !! k with
         | None => Err ErrNotFound
         | Some _ => if holds c (version_at (abs (w n)) k) then Ok tt else Err ErrPreconditionFailed
         end),
   upd n (if bool_decide (is_Some (Mem.objects (w n) !! k)) && holds c (version_at (abs (w n)) k)
          then Mem.mkState (delete k (Mem.objects (w n))) (Mem.nextVersion (w n)) else w n) w).
Proof.
  intros He Hc n k. cbn [exec]. unfold Mem.Delete. rewrite He, Hc.
  change (Mem.objectKey (memBucket b) key) with k. fold n.
  pose proof (conditionsPass_holds c (w n) k) as Hh.
  destruct (Mem.objects (w n) !! k) as [o|] eqn:Ho; [|done]. cbn in Hh. rewrite Hh.
  by destruct (holds _ _).
Qed.

(** The object a stream commits. *)
Lemma calm_NewWriter e b key opts pre c md w :
  o_BeforeWrite opts = None → NormalizeMetadata (o_Metadata opts) = Ok md → CompilePreconditions pre = Ok c →
  exec e (ONewWriter b key opts pre) w = (Some (Ok (mkStream b key (set_o_Metadata md opts) c "" false)), w).
Proof.
  intros Hbw Hmd Hc. cbn [exec]. unfold Mem.NewWriter, WriterOptions_Clone. rewrite Hc, Hmd.
  cbn -[NormalizeMetadata CompilePreconditions]. by rewrite Hbw.
Qed.

Lemma calm_ReadFrom e sw r w :
  calm e → sw_closed sw = false → s_err r = None →
  ∃ n, exec e (OReadFrom sw r) w =
  (Some (mkStream (sw_bucket sw) (sw_key sw) (sw_opts sw) (sw_pre sw) (sw_buf sw +:+ s_bytes r) false, Ok n), w).
Proof.
  intros He Hcl Hr. cbn [exec]. unfold Mem.ReadFrom. cbn. rewrite Hcl, He, Hr. eexists.
  unfold memStream. cbn. by rewrite Hcl.
Qed.

Lemma calm_CloseStream e sw w :
  calm e → sw_closed sw = false → o_ContentMD5 (sw_opts sw) = "" →
  let n := h_store (sw_bucket sw) in let k := h_key (sw_bucket sw) (sw_key sw) in
  ∃ o sw', stored (sw_buf sw) (o_Metadata (sw_opts sw)) (w n) o ∧
  exec e (OClose sw) w =
  (Some (sw', if holds (sw_pre sw) (version_at (abs (w n)) k) then Ok tt else Err ErrPreconditionFailed),
   upd n (if holds (sw_pre sw) (version_at (abs (w n)) k) then put_state k o (w n) else w n) w).
Proof.
  intros He Hcl Hm n k. destruct (calm_Close e (memWriter sw) (w n)) as (o & Ho & Hx); [done..|by left|].
  exists o, (memStream (sw_bucket sw) (Mem.set_w_closed (memWriter sw))). split; [exact Ho|].
  cbn [exec]. fold n. rewrite Hx. done.
Qed.

End exec.

#[global] Arguments exec : simpl never.
