(* ===== verification/Locker.v ===== *)
(** * The lease lock (locker.go)

    A [Locker] keeps one record per lock key: an empty object whose metadata
    names the owner and the end of its lease, and whose version token drives
    the compare-and-swaps.  Every function is a program over the [Bucket]
    interface; the clock it reads is the injected one. *)
From S2P Require Import Prelude Strconv GoTime Md5 Core Effects.

Module Locker.

Definition DefaultLockPrefix : string := ".blobster/locks/".
Definition DefaultLeaseDuration : Z := 15 * Second.
Definition DefaultRetryInterval : Z := 1 * Second.

Definition lockOwnerField : string := "owner".
Definition lockLeaseField : string := "lease".

Record Locker := mkLocker {
  bucket : Handle;
  prefix : string;
  lease : Z;
  renew : Z;
  retry : Z;
}.

(** The [LockerOption]s but [WithLockClock]: the clock is the call [ONow]. *)
Inductive LockerOption :=
| WithLockPrefix (p : string)
| WithLeaseDuration (d : Z)
| WithRenewInterval (d : Z)
| WithRetryInterval (d : Z).

Definition apply_option (opt : LockerOption) (l : Locker) : Locker :=
  match opt with
  | WithLockPrefix p =>
    let p := if negb (bool_decide (p = "")) && negb (HasSuffix p "/") then p +:+ "/" else p in
    mkLocker (bucket l) p (lease l) (renew l) (retry l)
  | WithLeaseDuration d => mkLocker (bucket l) (prefix l) d (renew l) (retry l)
  | WithRenewInterval d => mkLocker (bucket l) (prefix l) (lease l) d (retry l)
  | WithRetryInterval d => mkLocker (bucket l) (prefix l) (lease l) (renew l) d
  end.

Definition NewLocker (b : Handle) (opts : list LockerOption) : Locker :=
  let l := mkLocker b DefaultLockPrefix DefaultLeaseDuration 0 DefaultRetryInterval in
  let l := fold_left (fun l opt => apply_option opt l) opts l in
  let ls := if bool_decide (lease l ≤ 0) then DefaultLeaseDuration else lease l in
  let rn := if bool_decide (renew l ≤ 0) then ls `quot` 3 else renew l in
  let rn := if bool_decide (rn ≤ 0) then ls else rn in
  let rt := if bool_decide (retry l ≤ 0) then DefaultRetryInterval else retry l in
  mkLocker (bucket l) (prefix l) ls rn rt.

(** A held lock.  [lk_stopped] is the closed channel of the renewer that has
    exited; [done] is closed exactly when [lk_finished] is set. *)
Record Lock := mkLock {
  lk_locker : Locker;
  lk_key : string;
  lk_path : string;
  lk_owner : string;
  lk_stopped : bool;
  lk_version : string;
  lk_leaseUntil : Z;
  lk_err : option error;
  lk_finished : bool;
  lk_released : bool;
}.

Definition path (l : Locker) (key : string) : result string :=
  if bool_decide (key = "") then Err ErrInvalidLockKey
  else if HasPrefix key "/" || Contains key ".." then Err ErrInvalidLockKey
  else Ok (prefix l +:+ key).

(** The value of [l.start]: the renewer is the program [renewLoop] below. *)
Definition start (l : Locker) (key path owner version : string) (leaseUntil : Z) : Lock :=
  mkLock l key path owner false version leaseUntil None false false.

Definition finish (err : option error) (lk : Lock) : Lock :=
  if lk_finished lk then lk
  else mkLock (lk_locker lk) (lk_key lk) (lk_path lk) (lk_owner lk) (lk_stopped lk) (lk_version lk)
         (lk_leaseUntil lk) err true (lk_released lk).

Definition set_released (lk : Lock) : Lock :=
  mkLock (lk_locker lk) (lk_key lk) (lk_path lk) (lk_owner lk) (lk_stopped lk) (lk_version lk)
    (lk_leaseUntil lk) (lk_err lk) (lk_finished lk) true.

Definition set_stopped (lk : Lock) : Lock :=
  mkLock (lk_locker lk) (lk_key lk) (lk_path lk) (lk_owner lk) true (lk_version lk)
    (lk_leaseUntil lk) (lk_err lk) (lk_finished lk) (lk_released lk).

Definition renewed (version : string) (leaseUntil : Z) (lk : Lock) : Lock :=
  mkLock (lk_locker lk) (lk_key lk) (lk_path lk) (lk_owner lk) (lk_stopped lk) version leaseUntil
    (lk_err lk) (lk_finished lk) (lk_released lk).

(** [Key], [Owner], [Done] (whether the channel is closed) and [Err]. *)
Definition Key (lk : Lock) : string := lk_key lk.
Definition Owner (lk : Lock) : string := lk_owner lk.
Definition Done (lk : Lock) : bool := lk_finished lk.
Definition Err_ (lk : Lock) : option error := lk_err lk.

(** A read of a possibly nil map, and of a field that may be missing. *)
Definition field_of (fields : metadata) (k : string) : option string := fields ≫= (.!! k).
Definition owner_of (fields : metadata) : string := default "" (field_of fields lockOwnerField).

Section locker.
Context `{TT : TimeText}.

Definition record (l : Locker) (owner : string) (now : Z) : metadata :=
  Some (<[lockOwnerField := owner]> (<[lockLeaseField := Format (now + lease l)]> ∅)).

Definition lockExpired (fields : metadata) (now : Z) : bool :=
  match field_of fields lockLeaseField with
  | None => true
  | Some raw =>
    match Parse raw with
    | Err _ => true
    | Ok until => negb (Before now until)
    end
  end.

Definition getRecord (l : Locker) (path : string) : prog (result (metadata * string)) :=
  attrs ← trigger (OAttributes (bucket l) path);
  match attrs with
  | Err e => mret (Err e)
  | Ok a => mret (Ok (a_Metadata a, a_Version a))
  end.

Definition record_options (fields : metadata) : WriterOptions :=
  mkWriterOptions 0 0 "" "" "" "" "" true "" fields None.

Definition writeRecord (l : Locker) (path : string) (fields : metadata) (pre : Precondition)
    : prog (result string) :=
  r ← trigger (OWriteAll (bucket l) path "" (record_options fields) [Some pre]);
  match r with
  | Err e => mret (Err e)
  | Ok _ =>
    attrs ← trigger (OAttributes (bucket l) path);
    match attrs with
    | Err e => mret (Err e)
    | Ok a => mret (Ok (a_Version a))
    end
  end.

Definition createRecord (l : Locker) (path : string) (fields : metadata) : prog (result string) :=
  writeRecord l path fields IfNotExists.

Definition updateRecord (l : Locker) (path : string) (fields : metadata) (expected : string)
    : prog (result string) :=
  writeRecord l path fields (IfMatch expected).

Definition deleteRecord (l : Locker) (path expected : string) : prog (result unit) :=
  trigger (ODelete (bucket l) path [Some (IfMatch expected)]).

(** [rand.Int64N] panics on an argument that is not positive. *)
Definition jitteredRetry (l : Locker) : prog Z :=
  let bound := wrap64 (retry l + 1) in
  if bool_decide (bound ≤ 0) then Crash
  else r ← trigger (ORandN bound); mret (wrap64 (retry l + r)).

Definition tryAcquire (l : Locker) (key path owner : string) : prog (result Lock) :=
  rec ← getRecord l path;
  now ← trigger ONow;
  match rec with
  | Err err =>
    if Is err ErrNotFound then
      c ← createRecord l path (record l owner now);
      match c with
      | Err cerr =>
        if Is cerr ErrPreconditionFailed then mret (Err ErrLockHeld) else mret (Err cerr)
      | Ok newVersion => mret (Ok (start l key path owner newVersion (now + lease l)))
      end
    else mret (Err err)
  | Ok (fields, version) =>
    if negb (lockExpired fields now) then mret (Err ErrLockHeld)
    else
      u ← updateRecord l path (record l owner now) version;
      match u with
      | Err uerr =>
        if Is uerr ErrPreconditionFailed || Is uerr ErrNotFound then mret (Err ErrLockHeld)
        else mret (Err uerr)
      | Ok newVersion => mret (Ok (start l key path owner newVersion (now + lease l)))
      end
  end.

Definition randomOwner : prog (result string) :=
  r ← trigger (ORandRead 16);
  match r with
  | Err e => mret (Err e)
  | Ok buf => mret (Ok (EncodeToString buf))
  end.

(** [WithLockOwner] is the only [LockOption]: a list of them is a list of
    owners, the last one in force. *)
Definition resolveOwner (opts : list string) : prog (result string) :=
  let owner := fold_left (fun _ o => o) opts "" in
  if negb (bool_decide (owner = "")) then mret (Ok owner) else randomOwner.

Definition TryAcquire (l : Locker) (key : string) (opts : list string) : prog (result Lock) :=
  match path l key with
  | Err e => mret (Err e)
  | Ok p =>
    o ← resolveOwner opts;
    match o with
    | Err e => mret (Err e)
    | Ok owner => tryAcquire l key p owner
    end
  end.

(** The loop of [Acquire]; the fuel bounds the attempts, [None] is running out. *)
Fixpoint acquireLoop (fuel : nat) (l : Locker) (key path owner : string) : prog (option (result Lock)) :=
  match fuel with
  | O => mret None
  | S fuel =>
    r ← tryAcquire l key path owner;
    match r with
    | Ok held => mret (Some (Ok held))
    | Err err =>
      if negb (Is err ErrLockHeld) then mret (Some (Err err))
      else
        d ← jitteredRetry l;
        w ← trigger (OSleep d);
        match w with
        | Some cerr => mret (Some (Err cerr))
        | None => acquireLoop fuel l key path owner
        end
    end
  end.

Definition Acquire (fuel : nat) (l : Locker) (key : string) (opts : list string)
    : prog (option (result Lock)) :=
  match path l key with
  | Err e => mret (Some (Err e))
  | Ok p =>
    o ← resolveOwner opts;
    match o with
    | Err e => mret (Some (Err e))
    | Ok owner => acquireLoop fuel l key p owner
    end
  end.

Definition renewOnce (lk : Lock) (now : Z) : prog (Lock * option error) :=
  let l := lk_locker lk in
  u ← updateRecord l (lk_path lk) (record l (lk_owner lk) now) (lk_version lk);
  match u with
  | Err e => mret (lk, Some e)
  | Ok newVersion => mret (renewed newVersion (now + lease l) lk, None)
  end.

(** One round of the renewer, after the ticker fired: the lock afterwards, and
    whether the loop goes on. *)
Definition renewTick (lk : Lock) : prog (Lock * bool) :=
  now ← trigger ONow;
  if negb (Before now (lk_leaseUntil lk)) then mret (finish (Some ErrLockLost) lk, false)
  else
    r ← renewOnce lk now;
    match r with
    | (lk', Some err) =>
      if Is err ErrPreconditionFailed || Is err ErrNotFound
      then mret (finish (Some ErrLockLost) lk', false)
      else mret (lk', true)
    | (lk', None) => mret (lk', true)
    end.

(** [renewLoop]: rounds until the context is done or the lease is lost.  The
    fuel bounds the rounds; running out of it is stopping between two. *)
Fixpoint renewLoop (fuel : nat) (lk : Lock) : prog Lock :=
  match fuel with
  | O => mret lk
  | S fuel =>
    t ← trigger (OTick (renew (lk_locker lk)));
    if (t : bool) then
      r ← renewTick lk;
      match r with
      | (lk', true) => renewLoop fuel lk'
      | (lk', false) => mret (set_stopped lk')
      end
    else mret (set_stopped lk)
  end.

(** What [Release] does once the renewer has exited. *)
Definition release_record (lk : Lock) : prog (option error) :=
  rec ← getRecord (lk_locker lk) (lk_path lk);
  match rec with
  | Err err => if Is err ErrNotFound then mret None else mret (Some err)
  | Ok (fields, version) =>
    if negb (bool_decide (owner_of fields = lk_owner lk)) then mret None
    else
      d ← deleteRecord (lk_locker lk) (lk_path lk) version;
      match d with
      | Err err =>
        if Is err ErrPreconditionFailed || Is err ErrNotFound then mret None else mret (Some err)
      | Ok _ => mret None
      end
  end.

(** [Release]; [lk] is the lock after the renewer, stopped by the cancelled
    context, has exited. *)
Definition Release (lk : Lock) : prog (Lock * option error) :=
  if lk_released lk then mret (lk, None)
  else
    let lk := finish None (set_stopped (set_released lk)) in
    r ← release_record lk;
    mret (lk, r).

End locker.
End Locker.
