(* ===== verification/MemRun.v ===== *)
(** * Running the coordination programs on the in-memory driver

    The equations of [MemStore] lifted to the steps the lock, the queue and the
    watcher are made of: the compare-and-swap of a record with its read-back,
    the conditional delete, the create-only stream. *)
From S2P Require Import Prelude Strconv GoTime Md5 Core Effects Store MemDriver MemStore Locker.

Section memrun.
Context `{GT : GoTables}.

(** The object [key] names through the bucket [b]. *)
Definition obj (w : nat → Mem.state) (b : Handle) (key : string) : option Mem.object :=
  Mem.objects (w (h_store b)) !! h_key b key.

(** The world after a write of [o] at [key], and after a delete of [key]. *)
Definition wrote (b : Handle) (key : string) (o : Mem.object) (w : nat → Mem.state) : nat → Mem.state :=
  upd (h_store b) (put_state (h_key b key) o (w (h_store b))) w.

Definition removed (b : Handle) (key : string) (w : nat → Mem.state) : nat → Mem.state :=
  upd (h_store b) (Mem.mkState (delete (h_key b key) (Mem.objects (w (h_store b))))
                     (Mem.nextVersion (w (h_store b)))) w.

(** A write that was refused leaves every state as it was. *)
Definition untouched (b : Handle) (w : nat → Mem.state) : nat → Mem.state :=
  upd (h_store b) (w (h_store b)) w.

Lemma obj_wrote b key o w key' :
  obj (wrote b key o w) b key' = if decide (key' = key) then Some o else obj w b key'.
Proof.
  unfold obj, wrote. rewrite upd_eq. cbn. case_decide as Hk; [subst; apply lookup_insert_eq|].
  rewrite lookup_insert_ne; [done|]. intros E%string_app_inj_l. congruence.
Qed.

Lemma obj_removed b key w key' :
  obj (removed b key w) b key' = if decide (key' = key) then None else obj w b key'.
Proof.
  unfold obj, removed. rewrite upd_eq. cbn. case_decide as Hk; [subst; apply lookup_delete_eq|].
  rewrite lookup_delete_ne; [done|]. intros E%string_app_inj_l. congruence.
Qed.

Lemma obj_untouched b w b' key : obj (untouched b w) b' key = obj w b' key.
Proof. unfold obj, untouched, upd. by case_decide as Hk; [rewrite Hk|]. Qed.

Lemma untouched_eq b w n : untouched b w n = w n.
Proof. unfold untouched, upd. by case_decide; subst. Qed.

Lemma wf_wrote b key o w p md :
  stored p md (w (h_store b)) o → Mem.wf (w (h_store b)) → Mem.nextVersion (w (h_store b)) + 1 < 2 ^ 64 →
  Mem.wf (wrote b key o w (h_store b)).
Proof. intros. unfold wrote. rewrite upd_eq. by eapply put_state_wf. Qed.

Lemma wf_removed b key w : Mem.wf (w (h_store b)) → Mem.wf (removed b key w (h_store b)).
Proof. intros. unfold removed. rewrite upd_eq. by apply delete_state_wf. Qed.

Lemma wf_version st k o : Mem.wf st → Mem.objects st !! k = Some o → a_Version (Mem.attrs o) ≠ "".
Proof.
  intros Hwf Ho. destruct (Mem.wf_attrs st Hwf _ _ Ho) as (_ & _ & m & Hm & ->).
  pose proof (Mem.wf_counter st Hwf). apply FormatUint_nonempty. lia.
Qed.

Lemma version_at_obj w b key :
  version_at (abs (w (h_store b))) (h_key b key) = (λ o, a_Version (Mem.attrs o)) <$> obj w b key.
Proof. apply abs_version. Qed.

(** A token read from the object passes [IfMatch]; no object passes [IfNotExists]. *)
Lemma holds_current w b key o :
  Mem.wf (w (h_store b)) → obj w b key = Some o →
  holds (mkPreconditions false (a_Version (Mem.attrs o)) "") (version_at (abs (w (h_store b))) (h_key b key)) = true.
Proof.
  intros Hwf Ho. apply holds_IfMatch; [by eapply wf_version|]. by rewrite version_at_obj, Ho.
Qed.

Lemma holds_absent w b key :
  obj w b key = None →
  holds (mkPreconditions true "" "") (version_at (abs (w (h_store b))) (h_key b key)) = true.
Proof. intros Ho. apply holds_IfNotExists. by rewrite version_at_obj, Ho. Qed.

Lemma holds_present w b key :
  is_Some (obj w b key) →
  holds (mkPreconditions true "" "") (version_at (abs (w (h_store b))) (h_key b key)) = false.
Proof.
  intros [o Ho]. apply not_true_iff_false. intros Hh%holds_IfNotExists. by rewrite version_at_obj, Ho in Hh.
Qed.

(** *** The steps *)

Section steps.
Context (envs : nat → env) (He : ∀ i, calm (envs i)).

Lemma run_now {R} (f : Z → prog R) w :
  run exec (trigger ONow ≫= f) envs w = run exec (f (e_clock (envs 0%nat))) (fun i => envs (1 + i)%nat) w.
Proof. done. Qed.

Lemma run_attributes {R} (f : result Attributes → prog R) b key w :
  run exec (trigger (OAttributes b key) ≫= f) envs w =
  run exec (f (match obj w b key with Some o => Ok (Mem.attrs o) | None => Err ErrNotFound end))
    (fun i => envs (1 + i)%nat) w.
Proof. cbn. by rewrite calm_Attributes by done. Qed.

Lemma run_readRecord {R} (f : result (metadata * string) → prog R) l key w :
  run exec (Locker.getRecord l key ≫= f) envs w =
  run exec (f (match obj w (Locker.bucket l) key with
               | Some o => Ok (a_Metadata (Mem.attrs o), a_Version (Mem.attrs o))
               | None => Err ErrNotFound
               end))
    (fun i => envs (1 + i)%nat) w.
Proof.
  unfold Locker.getRecord. rewrite run_bind_assoc, run_attributes. by destruct (obj w (Locker.bucket l) key).
Qed.

Lemma run_writeRecord {R} (f : result string → prog R) l key md pre c w :
  NormalizeMetadata md = Ok md → CompilePreconditions [Some pre] = Ok c →
  let b := Locker.bucket l in
  ∃ o, stored "" md (w (h_store b)) o ∧
  run exec (Locker.writeRecord l key md pre ≫= f) envs w =
  if holds c (version_at (abs (w (h_store b))) (h_key b key))
  then run exec (f (Ok (a_Version (Mem.attrs o)))) (fun i => envs (2 + i)%nat) (wrote b key o w)
  else run exec (f (Err ErrPreconditionFailed)) (fun i => envs (1 + i)%nat) (untouched b w).
Proof.
  intros Hmd Hc b.
  destruct (calm_WriteAll (envs 0%nat) b key "" (Locker.record_options md) [Some pre] c md w
    (He 0%nat) eq_refl eq_refl Hmd Hmd Hc) as (o & Ho & Hx).
  exists o. split; [exact Ho|]. unfold Locker.writeRecord.
  cbn -[Locker.record_options]. fold b. rewrite Hx. destruct (holds _ _); [|done].
  cbn -[Locker.record_options]. fold (wrote b key o w). rewrite calm_Attributes by done.
  change (Mem.objects (wrote b key o w (h_store b)) !! h_key b key) with (obj (wrote b key o w) b key).
  rewrite obj_wrote, decide_True by done. done.
Qed.

(** A conditional delete of the object just read, and an unconditional one. *)
Lemma run_delete_read {R} (f : result unit → prog R) b key o w :
  Mem.wf (w (h_store b)) → obj w b key = Some o →
  run exec (trigger (ODelete b key [Some (IfMatch (a_Version (Mem.attrs o)))]) ≫= f) envs w =
  run exec (f (Ok tt)) (fun i => envs (1 + i)%nat) (removed b key w).
Proof.
  intros Hwf Ho. cbn -[CompilePreconditions].
  rewrite (calm_Delete _ _ _ _ _ _ (He 0%nat) (compile_IfMatch _)), holds_current by done.
  unfold obj in Ho. rewrite Ho. done.
Qed.

Lemma run_delete {R} (f : result unit → prog R) b key o w :
  obj w b key = Some o →
  run exec (trigger (ODelete b key []) ≫= f) envs w =
  run exec (f (Ok tt)) (fun i => envs (1 + i)%nat) (removed b key w).
Proof.
  intros Ho. cbn -[CompilePreconditions]. rewrite (calm_Delete _ _ _ _ _ _ (He 0%nat) compile_nil).
  unfold obj in Ho. rewrite Ho. done.
Qed.

Lemma run_reader {R} (f : result source → prog R) b key o w :
  obj w b key = Some o →
  run exec (trigger (ONewReader b key) ≫= f) envs w =
  run exec (f (Ok (mkSource (Mem.data o) None))) (fun i => envs (1 + i)%nat) w.
Proof.
  intros Ho. cbn [trigger mbind prog_mbind prog_bind run]. unfold exec. rewrite NewReader_spec, (He 0%nat).
  unfold obj in Ho. rewrite Ho. done.
Qed.

End steps.
End memrun.
