(* ===== verification/LeaseSafety.v ===== *)
(** * Lease records under interleaving

    The lock and the queue keep a lease in one object: its metadata name an
    owner and a deadline, and every change of it is a compare-and-swap on its
    version token.  This file has what both rest on, for one process [me] among
    any number that share the record: a process changes the record only when it
    is its own or its lease is over ([guar]), which is what every other process
    relies on ([rely]); so the record it wrote stays until its deadline
    ([stands]) and the token it read back stays its own ([holding]).

    [void] is a state of the world in which the record no longer matters.  The
    lock has none; for the queue it is that the payload of the message is
    gone. *)
From S2P Require Import Prelude Strconv GoTime Md5 Core Effects Store Locker.

Import Locker.

Section records.
Context `{TT : TimeText}.

(** An expired lease stays expired. *)
Lemma lockExpired_mono f t t' : t ≤ t' → lockExpired f t = true → lockExpired f t' = true.
Proof.
  intros Ht. unfold lockExpired. destruct (field_of f lockLeaseField) as [raw|]; [|done].
  destruct (Parse raw) as [u|]; [|done]. unfold Before. rewrite !negb_true_iff, !bool_decide_eq_false. lia.
Qed.

Lemma lockExpired_mono_false f t t' : t ≤ t' → lockExpired f t' = false → lockExpired f t = false.
Proof.
  intros Ht He. destruct (lockExpired f t) eqn:E; [|done].
  by rewrite (lockExpired_mono f t t' Ht E) in He.
Qed.

(** Metadata that are stored as they are and name [me] until [until]. *)
Record lease_record `{GoTables} (me : string) (until : Z) (f : metadata) : Prop := {
  lr_stored : NormalizeMetadata f = Ok f;
  lr_owner : owner_of f = me;
  lr_expiry t : lockExpired f t = negb (Before t until);
}.

Lemma lease_record_live `{GoTables} me until f t :
  lease_record me until f → t < until → lockExpired f t = false.
Proof. intros Hf Ht. rewrite (lr_expiry _ _ _ Hf). unfold Before. by rewrite bool_decide_true. Qed.

End records.

Section lease.
Context `{GT : GoTables} `{TT : TimeText}.

(** The record lives at key [P] of bucket [n]; the clocks stay between [lo] and
    [hi]. *)
Context (n : nat) (P : string) (lo hi : Z).

Definition rec (g : world) : option sobject := objs (stores g n) !! P.
Definition tokens (g : world) : gset string := used (stores g n).

Definition inv (g : world) : Prop := wwf g ∧ lo ≤ clock g ≤ hi.

Context (void : world → Prop).

(** What holds of every step, whoever makes it. *)
Record moves (g g' : world) : Prop := {
  moves_clock : clock g ≤ clock g';
  moves_used : tokens g ⊆ tokens g';
  moves_fresh o : rec g' = Some o → rec g = Some o ∨ so_version o ∉ tokens g;
  moves_void : void g → void g';
}.

(** What process [me] may rely on: its record is left alone until it expires. *)
Record rely (me : string) (g g' : world) : Prop := {
  rely_moves : moves g g';
  rely_mine o : rec g = Some o → owner_of (so_meta o) = me →
    lockExpired (so_meta o) (clock g') = false → rec g' = Some o ∨ void g';
}.

(** What it guarantees: it changes the record only if it is its own or expired. *)
Record guar (me : string) (g g' : world) : Prop := {
  guar_moves : moves g g';
  guar_clock : clock g' = clock g;
  guar_rec o : rec g = Some o → rec g' ≠ Some o →
    owner_of (so_meta o) = me ∨ lockExpired (so_meta o) (clock g) = true ∨ void g;
}.

#[local] Instance moves_refl : Reflexive moves.
Proof. intros g. split; [done..| |done]. by left. Qed.

#[local] Instance moves_trans : Transitive moves.
Proof.
  intros g1 g2 g3 [Hc1 Hu1 Hf1 Hv1] [Hc2 Hu2 Hf2 Hv2]. split; [lia|set_solver| |by auto].
  intros o [Ho|Ho]%Hf2; [by apply Hf1|]. right. set_solver.
Qed.

Lemma rely_refl me : Reflexive (rely me).
Proof. intros g. split; [done|]. by left. Qed.

Lemma rely_trans me : Transitive (rely me).
Proof.
  intros g1 g2 g3 [Hm1 H1] [Hm2 H2]. split; [by trans g2|]. intros o Ho Hme He.
  destruct (H1 o Ho Hme) as [Ho2|Hv].
  - eapply lockExpired_mono_false; [apply Hm2|done].
  - by apply H2.
  - right. by apply Hm2.
Qed.

#[local] Instance rely_refl_inst me : Reflexive (rely me) := rely_refl me.
#[local] Instance rely_trans_inst me : Transitive (rely me) := rely_trans me.

(** A step of one process is a step another may rely on. *)
Lemma guar_rely me you g g' : me ≠ you → guar me g g' → rely you g g'.
Proof.
  intros Hne [Hm Hc Hg]. split; [done|]. intros o Ho Hyou He.
  destruct (decide (rec g' = Some o)) as [|Hn]; [by left|].
  rewrite Hc in He. destruct (Hg o Ho Hn) as [?|[?|Hv]]; [congruence..|]. right. by apply Hm.
Qed.

(** A step that leaves the record alone. *)
Lemma moves_rely me g g' : moves g g' → rec g' = rec g → rely me g g'.
Proof. intros Hm Hr. split; [done|]. intros o Ho _ _. left. congruence. Qed.

Lemma call_moves o g a g' : call o g a g' → (void g → void g') → moves g g'.
Proof.
  intros Hc Hv. pose proof (call_effect o g a g' n Hc) as He. destruct Hc as [Hcl _]. split.
  - lia.
  - by apply effect_used.
  - intros x Hx. by eapply effect_objs.
  - done.
Qed.

Lemma call_inv o g a g' : inv g → call o g a g' → inv g'.
Proof. intros [Hw Hc] Hcall. split; [by eapply call_wwf|]. destruct Hcall as [-> _]. done. Qed.

Lemma call_clock o g a g' : call o g a g' → clock g' = clock g.
Proof. by intros [-> _]. Qed.

(** A call that leaves the record alone. *)
Lemma call_guar_same me o g a g' : call o g a g' → (void g → void g') → rec g' = rec g → guar me g g'.
Proof. intros Hc Hv Hr. split; [by eapply call_moves|apply Hc|]. intros x Hx Hn. congruence. Qed.

(** ** One process *)

Context (me : string).

(** What a token once seen with metadata [f] says for ever. *)
Definition known (v : string) (f : metadata) (g : world) : Prop :=
  v ∈ tokens g ∧ ∀ o, rec g = Some o → so_version o = v → so_meta o = f.

(** A token that can only be on a record of [me]. *)
Definition own_token (v : string) (g : world) : Prop :=
  v ∈ tokens g ∧ ∀ o, rec g = Some o → so_version o = v → owner_of (so_meta o) = me.

(** Until [until] the record is there, with its owner, and not expired. *)
Definition stands (until : Z) (g : world) : Prop :=
  clock g < until → void g ∨ ∃ o, rec g = Some o ∧ owner_of (so_meta o) = me ∧
    ∀ t, t < until → lockExpired (so_meta o) t = false.

(** And [v] is a token of its own. *)
Definition holding (v : string) (until : Z) (g : world) : Prop :=
  stands until g ∧ (clock g < until → void g ∨ own_token v g).

(** The record is one that [me] may change, as of [now]. *)
Definition yields (now : Z) (g : world) : Prop :=
  ∀ o, rec g = Some o → owner_of (so_meta o) = me ∨ lockExpired (so_meta o) now = true ∨ void g.

Lemma known_moves v f g g' : moves g g' → known v f g → known v f g'.
Proof.
  intros [_ Hu Hf _] [Hv Hk]. split; [set_solver|].
  intros o [Ho|Ho]%Hf Ev; [by apply Hk|]. by subst.
Qed.

Lemma own_token_moves v g g' : moves g g' → own_token v g → own_token v g'.
Proof.
  intros [_ Hu Hf _] [Hv Hk]. split; [set_solver|].
  intros o [Ho|Ho]%Hf Ev; [by apply Hk|]. by subst.
Qed.

Lemma stands_rely until g g' : rely me g g' → stands until g → stands until g'.
Proof.
  intros Hr Hs Hlt. pose proof (moves_clock _ _ (rely_moves _ _ _ Hr)).
  destruct Hs as [Hv|(o & Hro & Hown & Hex)]; [lia|left; by apply Hr|].
  destruct (rely_mine _ _ _ Hr o Hro Hown) as [?|?]; [by apply Hex|right; by exists o|by left].
Qed.

Lemma holding_rely v until g g' : rely me g g' → holding v until g → holding v until g'.
Proof.
  intros Hr [Hs Ht]. split; [by eapply stands_rely|]. intros Hlt.
  pose proof (moves_clock _ _ (rely_moves _ _ _ Hr)).
  destruct Ht as [?|?]; [lia|left; by apply Hr|right]. eapply own_token_moves; [apply Hr|done].
Qed.

(** A record of [me]'s, just written. *)
Lemma stands_record until f o g :
  lease_record me until f → rec g = Some o → so_meta o = f → stands until g.
Proof.
  intros Hf Hr Hm _. right. exists o. rewrite Hm. split_and!; [done|by eapply lr_owner|].
  intros t. by eapply lease_record_live.
Qed.

(** Tokens in the store are never empty. *)
Lemma token_nonempty v g : inv g → v ∈ tokens g → v ≠ "".
Proof. intros [Hw _] Hv ->. by apply (Hw n). Qed.

Lemma rec_known g o : inv g → rec g = Some o → known (so_version o) (so_meta o) g.
Proof.
  intros [Hw _] Ho. split; [by eapply (swf_used _ (Hw n))|].
  intros o' Ho' _. congruence.
Qed.

(** [J] is kept by the process's own reads, and by its write of a record that
    lasts until [until]. *)
Definition kept_read (J : world → Prop) : Prop :=
  ∀ g g', J g → moves g g' → clock g' = clock g → rec g' = rec g → J g'.

Record kept (until : Z) (J : world → Prop) : Prop := {
  kept_reads : kept_read J;
  kept_write g g' f v : J g → moves g g' → clock g' = clock g → lease_record me until f →
    rec g' = Some (mkSobject "" f v) → J g';
}.

Lemma kept_True until : kept until (λ _, True).
Proof. by split. Qed.

Lemma kept_read_holding v until : kept_read (holding v until).
Proof.
  intros g g' [Hs Ht] Hm Hc Hr. split; unfold stands in *; rewrite ?Hc, ?Hr; intros Hlt.
  - destruct (Hs Hlt) as [?|?]; [left; by apply Hm|by right].
  - destruct (Ht Hlt) as [?|?]; [left; by apply Hm|right; by eapply own_token_moves].
Qed.

Lemma kept_holding v until' until : until ≤ until' → kept until' (holding v until).
Proof.
  intros Hle. split; [apply kept_read_holding|]. intros g g' f w [Hs Ht] Hm Hc Hf Hr. split; unfold stands.
  - intros _. right. eexists. split; [exact Hr|]. cbn [so_meta]. split; [by eapply lr_owner|].
    intros t Hlt. eapply lease_record_live; [exact Hf|lia].
  - rewrite Hc. intros Hlt. destruct (Ht Hlt) as [?|?]; [left; by apply Hm|right; by eapply own_token_moves].
Qed.

(** A precondition that names a token known to be on [me]'s or on an expired
    record passes only over such a record. *)
Lemma known_yields g v f now :
  known v f g → v ≠ "" → (owner_of f = me ∨ lockExpired f now = true) →
  ∀ g', rely me g g' → inv g' → holds (mkPreconditions false v "") (so_version <$> rec g') = true →
  yields now g'.
Proof.
  intros Hkn Hv Hf g' Hr _ Hh o Ho. apply (known_moves _ _ _ g') in Hkn as [_ Hkn]; [|apply Hr].
  apply holds_IfMatch in Hh; [|done]. rewrite Ho in Hh. injection Hh as Hh. rewrite (Hkn o Ho Hh). tauto.
Qed.

Lemma own_token_yields g v now :
  inv g → void g ∨ own_token v g →
  ∀ g', rely me g g' → inv g' → holds (mkPreconditions false v "") (so_version <$> rec g') = true →
  yields now g'.
Proof.
  intros Hi [Hvd|Ht] g' Hr _ Hh o Ho; [right; right; by apply Hr|].
  assert (v ≠ "") by (eapply token_nonempty; [exact Hi|apply Ht]).
  destruct (own_token_moves _ _ g' (rely_moves _ _ _ Hr) Ht) as [_ Hown].
  apply holds_IfMatch in Hh; [|done]. rewrite Ho in Hh. injection Hh as Hh. left. by apply Hown.
Qed.

Lemma absent_yields now g' : holds (mkPreconditions true "" "") (so_version <$> rec g') = true → yields now g'.
Proof. intros Hh o Ho. apply holds_IfNotExists in Hh. by rewrite Ho in Hh. Qed.

(** [void] does not depend on the record. *)
Context (Hvoid : ∀ g g', (∀ m k, (m, k) ≠ (n, P) → objs (stores g' m) !! k = objs (stores g m) !! k) →
  void g → void g').

Lemma call_void o g a g' : call o g a g' → touches o = None ∨ touches o = Some (n, P) → void g → void g'.
Proof.
  intros Hc Ht. apply Hvoid. intros m k Hne. eapply call_frame; [exact Hc|]. destruct Ht; congruence.
Qed.

(** The record as the programs reach it: by the path [p] of [l]'s bucket. *)
Context (l : Locker) (p : string).
Context (Hn : h_store (bucket l) = n) (HP : h_key (bucket l) p = P).

(** ** The calls of the programs *)

Lemma call_Attributes g a g' :
  call (OAttributes (bucket l) p) g a g' → rec g' = rec g ∧ tokens g' = tokens g ∧
  match a with
  | Ok at_ => ∃ o, rec g = Some o ∧ a_Version at_ = so_version o ∧ a_Metadata at_ = so_meta o
  | Err _ => True
  end.
Proof.
  intros (_ & [[Hs Hr] _] & _). cbn in Hs, Hr. rewrite Hn, HP in *. unfold rec, tokens. rewrite Hs.
  split_and!; [done..|]. destruct a; [|done]. done.
Qed.

Lemma call_quiet o g a g' : call o g a g' → target o = None → rec g' = rec g.
Proof. intros (_ & Hc & _) Ht. rewrite Ht in Hc. unfold rec. by rewrite Hc. Qed.

Lemma call_write until f g pre a g' c :
  lease_record me until f → CompilePreconditions [Some pre] = Ok c →
  call (OWriteAll (bucket l) p "" (record_options f) [Some pre]) g a g' →
  (rec g' = rec g ∧ ∃ e, a = Err e) ∨
  (holds c (so_version <$> rec g) = true ∧
   ∃ v, (v ∉ tokens g) ∧ rec g' = Some (mkSobject "" f v)).
Proof.
  intros Hf Hc (Hcl & [Hs _] & _). cbn -[NormalizeMetadata CompilePreconditions] in Hs. rewrite Hn, HP in *.
  unfold rec, tokens. pose proof (lr_stored _ _ _ Hf) as HN.
  destruct Hs as [(e & -> & _ & Hs)|(c' & md & md' & Hc' & Hmd & Hmd' & Hw)].
  - left. rewrite Hs. eauto.
  - rewrite Hc in Hc'. injection Hc' as <-. rewrite HN in Hmd. injection Hmd as <-.
    rewrite HN in Hmd'. injection Hmd' as <-.
    destruct a as [[]|e]; cbn in Hw; [|destruct Hw as [[Hs _]|(_ & Hw)]].
    2: { left. rewrite Hs. eauto. }
    all: right; destruct Hw as (Hh & v & [_ Hv] & ->); (split; [done|]); exists v; cbn;
      split; [done|by rewrite lookup_insert_eq].
Qed.

Lemma call_delete g v a g' :
  v ≠ "" → call (ODelete (bucket l) p [Some (IfMatch v)]) g a g' →
  rec g' = rec g ∨ ∃ o, rec g = Some o ∧ so_version o = v.
Proof.
  intros Hv (_ & [Hs _] & _). cbn -[CompilePreconditions] in Hs. rewrite Hn, HP in *. unfold rec.
  destruct Hs as [(e & _ & _ & ->)|(c & Hc & Hd)]; [by left|].
  rewrite compile_IfMatch in Hc. injection Hc as <-.
  assert (holds (mkPreconditions false v "") (version_at (stores g n) P) = true →
    ∃ o, objs (stores g n) !! P = Some o ∧ so_version o = v) as Hh.
  { intros Hh%holds_IfMatch; [|done]. apply fmap_Some in Hh as (o & ? & ?). by exists o. }
  destruct a as [[]|e]; cbn in Hd.
  - destruct Hd as (_ & Hh' & _). right. by apply Hh.
  - destruct Hd as [[-> _]|(_ & Hh' & _)]; [by left|]. right. by apply Hh.
Qed.

(** Calls on the record, or on no bucket, keep [void]. *)
Definition on_record (o : op) : Prop :=
  match o with
  | OAttributes b k | OWriteAll b k _ _ _ | ODelete b k _ => b = bucket l ∧ k = p
  | _ => target o = None
  end.

Lemma call_record_void o g a g' : call o g a g' → on_record o → void g → void g'.
Proof.
  intros Hc Ho. eapply call_void; [exact Hc|]. destruct o; cbn in Ho; try done; try (by left);
    destruct Ho as [-> ->]; cbn; rewrite Hn, HP; by (left + right).
Qed.

Lemma call_record_moves o g a g' : call o g a g' → on_record o → moves g g'.
Proof. intros Hc Ho. eapply call_moves; [exact Hc|]. by eapply call_record_void. Qed.

Lemma call_record_guar o g a g' : call o g a g' → on_record o → rec g' = rec g → guar me g g'.
Proof. intros Hc Ho. eapply call_guar_same; [exact Hc|]. by eapply call_record_void. Qed.

(** Once the record no longer matters, anything may be done to it. *)
Lemma call_void_guar o g a g' : call o g a g' → on_record o → void g → guar me g g'.
Proof. intros Hc Ho Hv. split; [by eapply call_record_moves|apply Hc|]. by eauto. Qed.

(** ** The programs are safe

    [J] is what the process knows besides the invariant while the program
    runs: nothing for an acquisition, what it holds during a renewal. *)

Definition with_inv (J : world → Prop) (g : world) : Prop := inv g ∧ J g.

Abbreviation ok J := (safe call (with_inv J) (rely me) (guar me)).

(** The read of the record: its token is known from then on. *)
Lemma ok_getRecord {R} J (post : R → world → Prop) k g :
  kept_read J →
  (∀ g, inv g → J g → ∀ r,
     match r with Ok (f, v) => known v f g ∧ is_Some (rec g) | Err _ => True end → ok J post (k r) g) →
  ok J post (getRecord l p ≫= k) g.
Proof.
  intros HJ Hk g1 Hr [Hi Hj] a g2 Hc.
  destruct (call_Attributes _ _ _ Hc) as (Hrec & Htok & Ha).
  assert (inv g2) as Hi2 by by eapply call_inv.
  assert (moves g1 g2) as Hm by by eapply call_record_moves.
  assert (J g2) as Hj2 by (eapply HJ; eauto; apply Hc).
  split; [done|]. split; [by eapply call_record_guar|].
  destruct a as [at_|e]; cbn; apply Hk; try done.
  destruct Ha as (o & Ho & -> & ->). rewrite <- Hrec in Ho. split; [by apply rec_known|by eexists].
Qed.

Lemma ok_now {R} J (post : R → world → Prop) k g :
  kept_read J →
  (∀ g', rely me g g' → inv g' → J g' → ok J post (k (clock g')) g') →
  ok J post (Vis ONow k) g.
Proof.
  intros HJ Hk g1 Hr [Hi Hj] a g2 Hc.
  assert (rec g2 = rec g1) as Hrec by by eapply call_quiet.
  assert (inv g2) as Hi2 by by eapply call_inv.
  assert (moves g1 g2) as Hm by by eapply call_record_moves.
  assert (J g2) as Hj2 by (eapply HJ; eauto; apply Hc).
  split; [done|]. split; [by eapply call_record_guar|].
  assert (a = clock g2) as -> by (destruct Hc as (-> & _ & ->); done).
  apply Hk; try done. trans g1; [done|]. by apply moves_rely.
Qed.

(** The compare-and-swap alone: what it writes stands until its deadline. *)
Lemma ok_swap {R} J (post : R → world → Prop) until f now pre c k g :
  kept until J → lease_record me until f → CompilePreconditions [Some pre] = Ok c → now ≤ clock g →
  (∀ g', rely me g g' → inv g' → holds c (so_version <$> rec g') = true → yields now g') →
  (∀ g, inv g → J g → now ≤ clock g → ∀ r : result unit,
     match r with Ok _ => stands until g | Err _ => True end → ok J post (k r) g) →
  ok J post (Vis (OWriteAll (bucket l) p "" (record_options f) [Some pre]) k) g.
Proof.
  intros HJ Hf Hc Hnow Hpre Hk g1 Hr [Hi Hj] a g2 Hcall.
  assert (inv g2) as Hi2 by by eapply call_inv.
  assert (moves g1 g2) as Hm by by eapply call_record_moves.
  assert (clock g ≤ clock g1) by apply Hr. assert (clock g2 = clock g1) as Hcl by apply Hcall.
  destruct (call_write _ _ _ _ _ _ _ Hf Hc Hcall) as [[Hrec [e ->]]|(Hh & v & Hv & Hrec)].
  { assert (J g2) as Hj2 by by eapply (kept_reads _ _ HJ).
    split; [done|]. split; [by eapply call_record_guar|]. apply Hk; [done..|lia|done]. }
  assert (J g2) as Hj2 by by eapply kept_write.
  split; [done|]. split.
  - split; [done..|]. intros o Ho _. destruct (Hpre g1 Hr Hi Hh o Ho) as [?|[He|?]]; [by left| |by eauto].
    right. left. eapply lockExpired_mono; [|exact He]. lia.
  - apply Hk; [done..|lia|]. destruct a; [|done]. by eapply stands_record.
Qed.

(** The compare-and-swap and the read-back of the new token. *)
Lemma ok_writeRecord {R} J (post : R → world → Prop) until f now pre c k g :
  kept until J → lease_record me until f → CompilePreconditions [Some pre] = Ok c → now ≤ clock g →
  (∀ g', rely me g g' → inv g' → holds c (so_version <$> rec g') = true → yields now g') →
  (∀ g, inv g → J g → now ≤ clock g → ∀ r,
     match r with Ok v => holding v until g | Err _ => True end → ok J post (k r) g) →
  ok J post (writeRecord l p f pre ≫= k) g.
Proof.
  intros HJ Hf Hc Hnow Hpre Hk.
  eapply (ok_swap J post until f now pre c); [done..|]. intros g2 Hi2 Hj2 Hn2 [[]|e] Hw; cbn; [|by apply Hk].
  intros g3 Hr3 [Hi3 Hj3] b g4 Hcall4.
  destruct (call_Attributes _ _ _ Hcall4) as (Hrec4 & Htok4 & Hb).
  assert (inv g4) as Hi4 by by eapply call_inv.
  assert (moves g3 g4) as Hm4 by by eapply call_record_moves.
  assert (J g4) as Hj4 by (eapply (kept_reads _ _ HJ); eauto; apply Hcall4).
  split; [done|]. split; [by eapply call_record_guar|].
  assert (now ≤ clock g4) as Hn4.
  { pose proof (moves_clock _ _ (rely_moves _ _ _ Hr3)). destruct Hcall4 as [-> _]. lia. }
  destruct b as [at_|e]; cbn; apply Hk; try done. clear Hk.
  apply (stands_rely _ g2 g3) in Hw; [|done].
  assert (stands until g4) as Hw4 by (eapply stands_rely; [|exact Hw]; by apply moves_rely).
  split; [done|]. intros Hlt. destruct (Hw4 Hlt) as [?|(o & Ho & Hmo & _)]; [by left|]. right.
  destruct Hb as (o' & Ho' & -> & _). assert (o' = o) as -> by congruence.
  destruct (rec_known g3 o Hi3 Ho') as [Ht Hkn]. split; [by rewrite Htok4|].
  intros o'' Ho'' _. assert (o'' = o) as -> by congruence. done.
Qed.

(** A delete of the record under a token on which it yields. *)
Lemma ok_delete {R} J (post : R → world → Prop) now v k g :
  v ≠ "" → now ≤ clock g →
  (∀ g', rely me g g' → inv g' → holds (mkPreconditions false v "") (so_version <$> rec g') = true → yields now g') →
  (∀ g1 g2, J g1 → moves g1 g2 → clock g2 = clock g1 → J g2) →
  (∀ g, inv g → J g → ∀ r : result unit, ok J post (k r) g) →
  ok J post (Vis (ODelete (bucket l) p [Some (IfMatch v)]) k) g.
Proof.
  intros Hv Hnow Hpre HJ Hk g1 Hr [Hi Hj] a g2 Hcall.
  assert (inv g2) as Hi2 by by eapply call_inv.
  assert (moves g1 g2) as Hm by by eapply call_record_moves.
  assert (clock g ≤ clock g1) by apply Hr. assert (clock g2 = clock g1) as Hcl by apply Hcall.
  assert (J g2) as Hj2 by by eapply HJ.
  split; [done|]. split; [|by apply Hk].
  destruct (call_delete _ _ _ _ Hv Hcall) as [Hsame|(o & Ho & Hov)]; [by eapply call_record_guar|].
  split; [done..|]. intros o' Ho' _. assert (o' = o) as -> by congruence.
  assert (yields now g1) as Hy.
  { apply Hpre; [done..|]. rewrite Ho. apply holds_IfMatch; [done|]. cbn. congruence. }
  destruct (Hy o Ho) as [?|[He|?]]; [by eauto| |by eauto].
  right. left. eapply lockExpired_mono; [|exact He]. lia.
Qed.

End lease.
