(* ===== verification/LockSafety.v ===== *)
(** * Mutual exclusion of the lease lock

    Any number of contenders, each with a locker of its own, run the programs of
    [Locker] against one conditional-write store.  Their calls interleave one by
    one, clocks move, other clients work on other objects, calls fail, answers
    are lost, processes die.  The proof is the rely-guarantee argument of
    [LeaseSafety], with no state in which the record does not matter. *)
From stdpp Require Import relations.
From S2P Require Import Prelude Strconv GoTime Md5 Core Effects Store Locker LeaseSafety.

Import Locker.

Lemma ToLower_fields `{GoTables} :
  ToLower lockOwnerField = lockOwnerField ∧ ToLower lockLeaseField = lockLeaseField.
Proof. split; vm_compute; reflexivity. Qed.

Section safety.
Context `{GT : GoTables} `{TT : TimeText}.

(** A record is stored as it is given. *)
Lemma Normalize_record l owner now : NormalizeMetadata (record l owner now) = Ok (record l owner now).
Proof.
  apply NormalizeMetadata_lower. intros k. destruct ToLower_fields as [Ho Hl].
  intros [x [[<- _]|[_ [[<- _]|[_ ?]]%lookup_insert_Some]]%lookup_insert_Some]; [done..|].
  by rewrite lookup_empty in *.
Qed.

Lemma owner_of_record l owner now : owner_of (record l owner now) = owner.
Proof. unfold owner_of, field_of, record. cbn. by rewrite lookup_insert_eq. Qed.

Lemma lockExpired_record l owner now t :
  printable (now + lease l) → lockExpired (record l owner now) t = negb (Before t (now + lease l)).
Proof.
  intros Hp. unfold lockExpired, field_of, record. cbn.
  rewrite lookup_insert_ne, lookup_insert_eq by done. by rewrite (Parse_Format _ Hp).
Qed.

Lemma record_lease l owner now :
  printable (now + lease l) → lease_record owner (now + lease l) (record l owner now).
Proof.
  intros Hp. split; [apply Normalize_record|apply owner_of_record|]. intros t. by apply lockExpired_record.
Qed.

(** The lock record lives at key [P] of bucket [n]; the clocks stay between
    [lo] and [hi]. *)
Context (n : nat) (P : string) (lo hi : Z).

(** The record of a lock always matters. *)
Definition never : world → Prop := λ _, False.

#[local] Abbreviation inv := (inv lo hi).
#[local] Abbreviation rec := (rec n P).
#[local] Abbreviation moves := (moves n P never).
#[local] Abbreviation rely := (rely n P never).
#[local] Abbreviation guar := (guar n P never).

#[local] Instance rely_refl_lock me : Reflexive (rely me) := rely_refl n P never me.
#[local] Instance rely_trans_lock me : Transitive (rely me) := rely_trans n P never me.

Lemma never_local g g' :
  (∀ m k, (m, k) ≠ (n, P) → objs (stores g' m) !! k = objs (stores g m) !! k) → never g → never g'.
Proof. done. Qed.

(** *** One contender *)

Context (l : Locker) (p me : string).

(** What a held lock knows: until [lk_leaseUntil] the record is there, with its
    owner, and not expired. *)
Record held (lk : Lock) (g : world) : Prop := {
  held_locker : lk_locker lk = l;
  held_path : lk_path lk = p;
  held_owner : lk_owner lk = me;
  held_lease : lk_leaseUntil lk ≤ clock g + lease l;
  held_holding : holding n P never me (lk_version lk) (lk_leaseUntil lk) g;
}.

Lemma held_rely lk g g' : rely me g g' → held lk g → held lk g'.
Proof.
  intros Hr []. pose proof (moves_clock _ _ _ _ _ (rely_moves _ _ _ _ _ _ Hr)).
  split; try done; [lia|]. by eapply holding_rely.
Qed.

Lemma held_rec lk g :
  held lk g → clock g < lk_leaseUntil lk → ∃ o, rec g = Some o ∧ owner_of (so_meta o) = me ∧
    ∀ t, t < lk_leaseUntil lk → lockExpired (so_meta o) t = false.
Proof. intros [_ _ _ _ [Hs _]] Hlt. by destruct (Hs Hlt). Qed.

Context (Hn : h_store (bucket l) = n) (HP : h_key (bucket l) p = P).
Context (Hprint : ∀ t, lo ≤ t ≤ hi → printable (t + lease l)).

#[local] Abbreviation with_inv := (with_inv lo hi).
#[local] Abbreviation ok J := (safe call (with_inv J) (rely me) (guar me)).

Lemma kept_read_held lk : kept_read n P never (held lk).
Proof.
  intros g g' [] Hm Hc Hr. split; try done; [by rewrite Hc|]. by eapply kept_read_holding.
Qed.

Lemma kept_held until lk : lk_leaseUntil lk ≤ until → kept n P never me until (held lk).
Proof.
  intros Hle. split; [apply kept_read_held|].
  intros g g' f v [] Hm Hc Hf Hr. split; try done; [by rewrite Hc|].
  by eapply (kept_write _ _ _ _ _ _ (kept_holding n P never me _ _ _ Hle)).
Qed.

(** What a process holds after an acquisition or a renewal that succeeded. *)
Lemma held_start now v g lk :
  now ≤ clock g → holding n P never me v (now + lease l) g →
  lk_locker lk = l → lk_path lk = p → lk_owner lk = me → lk_version lk = v →
  lk_leaseUntil lk = now + lease l → held lk g.
Proof. intros Hnow Hh Hl Hp Ho Hv Hu. split; try done; rewrite ?Hu, ?Hv; [lia|done]. Qed.

Lemma ok_tryAcquire key g :
  ok (λ _, True) (λ r g', match r with Ok lk => held lk g' | Err _ => True end)
    (tryAcquire l key p me) g.
Proof.
  assert (kept_read n P never (λ _, True)) as HT by by intros ??.
  unfold tryAcquire. apply ok_getRecord; try done. intros g1 Hi1 _ r Hr.
  apply (ok_now n P lo hi never me never_local l p Hn HP); [done|]. intros g2 Hr12 Hi2 _.
  assert (lease_record me (clock g2 + lease l) (record l me (clock g2))) as Hf.
  { apply record_lease, Hprint, Hi2. }
  assert (∀ g3 v, clock g2 ≤ clock g3 → holding n P never me v (clock g2 + lease l) g3 →
    ok (λ _, True) (λ r g', match r with Ok lk => held lk g' | Err _ => True end)
      (mret (Ok (start l key p me v (clock g2 + lease l)))) g3) as Hstart.
  { intros g3 v Hle Hh g4 Hr4 _. eapply held_rely; [done|]. by eapply held_start. }
  destruct r as [[f v]|err].
  - destruct Hr as [Hkn _]. apply (known_moves n P never _ _ _ g2) in Hkn; [|apply Hr12].
    destruct (lockExpired f (clock g2)) eqn:He; cbn; [|done].
    assert (v ≠ "") by (eapply token_nonempty; [exact Hi2|apply Hkn]).
    eapply ok_writeRecord; [done..|apply kept_True|exact Hf|apply compile_IfMatch|done| |].
    { eapply known_yields; eauto. }
    intros g3 Hi3 _ Hle [v'|e] Hp3; [by apply Hstart|by destruct (_ || _)].
  - destruct (Is err ErrNotFound); [|done].
    eapply ok_writeRecord; [done..|apply kept_True|exact Hf|apply compile_IfNotExists|done| |].
    { intros g' _ _. apply absent_yields. }
    intros g3 Hi3 _ Hle [v'|e] Hp3; [by apply Hstart|by destruct (Is e _)].
Qed.

Lemma held_same_fields lk lk' g :
  lk_locker lk' = lk_locker lk → lk_path lk' = lk_path lk → lk_owner lk' = lk_owner lk →
  lk_version lk' = lk_version lk → lk_leaseUntil lk' = lk_leaseUntil lk → held lk g → held lk' g.
Proof. intros E1 E2 E3 E4 E5 []. split; rewrite ?E1, ?E2, ?E3, ?E4, ?E5; done. Qed.

Lemma held_finish err lk g : held lk g → held (finish err lk) g.
Proof. unfold finish. destruct (lk_finished lk); [done|]. by apply held_same_fields. Qed.

(** A renewal: the lock is held throughout, and is held as the round leaves it. *)
Lemma ok_renewTick lk g :
  ok (held lk) (λ r g', held r.1 g' ∧ (r.2 = false → lk_finished r.1 = true)) (renewTick lk) g.
Proof.
  assert (∀ g1 g2, rely me g1 g2 ∧ with_inv (held lk) g2 →
    held (finish (Some ErrLockLost) lk) g2 ∧ lk_finished (finish (Some ErrLockLost) lk) = true) as Hfin.
  { intros g1 g2 [_ [_ Hh]]. split; [by apply held_finish|]. unfold finish. by destruct (lk_finished lk) eqn:?. }
  unfold renewTick. apply (ok_now n P lo hi never me never_local l p Hn HP); [apply kept_read_held|].
  intros g1 Hr1 Hi1 Hh1.
  destruct (Before (clock g1) (lk_leaseUntil lk)) eqn:Hb; cbn [negb].
  2: { intros g2 Hr2 Hg2. split; [|intros _]; by apply (Hfin g1 g2). }
  apply bool_decide_eq_true in Hb. destruct (held_holding _ _ Hh1) as [_ Ht]. specialize (Ht Hb).
  unfold renewOnce, updateRecord. rewrite (held_locker _ _ Hh1), (held_path _ _ Hh1), (held_owner _ _ Hh1).
  apply safe_bind_assoc.
  eapply ok_writeRecord; [done..|apply kept_held; apply Hh1|apply record_lease, Hprint, Hi1
    |apply compile_IfMatch|done|by eapply own_token_yields|].
  intros g2 Hi2 Hh2 Hle [v|e] Hp; cbn.
  - intros g3 Hr3 _. split; [|done]. eapply held_rely; [done|]. destruct Hh1. by eapply held_start.
  - destruct (_ || _); intros g3 Hr3 Hg3; [split; [|intros _]; by apply (Hfin g2 g3)|]. split; [apply Hg3|done].
Qed.

(** [Release] is safe, and changes the record only if it is its own. *)
Definition guar_own (g g' : world) : Prop :=
  guar me g g' ∧ (rec g' ≠ rec g → ∃ o, rec g = Some o ∧ owner_of (so_meta o) = me).

Lemma guar_own_same o g a g' : call o g a g' → rec g' = rec g → guar_own g g'.
Proof. intros Hc Hr. split; [by eapply call_guar_same|done]. Qed.

Lemma ok_Release lk g :
  lk_locker lk = l → lk_path lk = p → lk_owner lk = me →
  safe call inv (rely me) guar_own (λ _ _, True) (Release lk) g.
Proof.
  intros Hl Hp Ho. unfold Release. destruct (lk_released lk); [done|].
  set (lk' := finish None (set_stopped (set_released lk))).
  assert (lk_locker lk' = l ∧ lk_path lk' = p ∧ lk_owner lk' = me) as (Hl' & Hp' & Ho').
  { unfold lk', finish. by destruct (lk_finished _). }
  unfold release_record. rewrite Hl', Hp', Ho'.
  intros g1 Hr1 Hi1 a g2 Hc. destruct (call_Attributes _ _ _ _ Hn HP _ _ _ Hc) as (Hrec & Htok & Ha).
  assert (inv g2) as Hi2 by by eapply call_inv.
  split; [done|]. split; [by eapply guar_own_same|].
  destruct a as [at_|err]; cbn; [|by destruct (Is err ErrNotFound)].
  destruct Ha as (o & Hro & -> & ->). rewrite <- Hrec in Hro.
  pose proof (rec_known _ _ _ _ _ _ Hi2 Hro) as Hkn.
  case_bool_decide as Hown; cbn; [|done].
  intros g3 Hr3 Hi3 b g4 Hc4. split; [by eapply call_inv|].
  apply (known_moves n P never _ _ _ g3) in Hkn; [|apply Hr3].
  assert (so_version o ≠ "") as Hne by (eapply token_nonempty; [exact Hi3|apply Hkn]).
  destruct (call_delete _ _ _ _ Hn HP _ _ _ _ Hne Hc4) as [Hsame|(o' & Ho3 & Hv)].
  { split; [by eapply guar_own_same|]. destruct b as [|e]; cbn; [done|]. by destruct (_ || _). }
  assert (owner_of (so_meta o') = me) as Hme by (destruct Hkn as [_ Hkn]; by rewrite (Hkn o' Ho3 Hv)).
  split; [split|].
  - split; [by eapply call_moves|apply Hc4|]. intros o'' Ho'' _. left. congruence.
  - intros _. by exists o'.
  - destruct b as [|e]; cbn; [done|]. by destruct (_ || _).
Qed.

End safety.

(** ** Any number of contenders *)

Record contender := mkContender {
  c_locker : Locker;
  c_key : string;
  c_path : string;
  c_owner : string;
}.

(** What one process is doing.  [Held] is between two rounds of the renewer (or
    after its last one); [Ticking lk q] holds [lk] and is in the middle of a
    round; [Releasing] is after the renewer has stopped. *)
Inductive phase :=
| Idle
| Trying (q : prog (result Lock))
| Held (lk : Lock)
| Ticking (lk : Lock) (q : prog (Lock * bool))
| Releasing (q : prog (Lock * option error))
| Out.

Section pool.
Context (rule : token_rule).
Context `{GT : GoTables} `{TT : TimeText} {I : Type} `{EqDecision I}.
Context (n : nat) (P : string) (lo hi : Z) (cs : I → contender).

Record config := mkConfig {
  cf_world : world;
  cf_phase : I → phase;
}.

Definition set_phase (i : I) (ph : phase) (f : I → phase) : I → phase :=
  fun j => if decide (j = i) then ph else f j.

(** The steps of process [i] that no other process sees. *)
Inductive local (c : contender) : phase → phase → Prop :=
| local_start : local c Idle (Trying (tryAcquire (c_locker c) (c_key c) (c_path c) (c_owner c)))
| local_acquired lk : local c (Trying (Ret (Ok lk))) (Held lk)
| local_retry e : Is e ErrLockHeld = true → local c (Trying (Ret (Err e))) Idle
| local_failed e : local c (Trying (Ret (Err e))) Out
| local_tick lk : lk_finished lk = false → local c (Held lk) (Ticking lk (renewTick lk))
| local_ticked lk lk' go : local c (Ticking lk (Ret (lk', go))) (Held lk')
| local_release lk : local c (Held lk) (Releasing (Release lk))
| local_released r : local c (Releasing (Ret r)) Out
| local_dies ph : local c ph Out.

(** One call of process [i], answered by the store or the clock. *)
Inductive calls (g g' : world) : phase → phase → Prop :=
| calls_try o k a : gcall rule o g a g' → calls g g' (Trying (Vis o k)) (Trying (k a))
| calls_tick lk o k a : gcall rule o g a g' → calls g g' (Ticking lk (Vis o k)) (Ticking lk (k a))
| calls_release o k a : gcall rule o g a g' → calls g g' (Releasing (Vis o k)) (Releasing (k a)).

Inductive step : config → config → Prop :=
| step_local i g ph ph' : local (cs i) (ph i) ph' →
    step (mkConfig g ph) (mkConfig g (set_phase i ph' ph))
| step_call i g g' ph ph' : calls g g' (ph i) ph' →
    step (mkConfig g ph) (mkConfig g' (set_phase i ph' ph))
| step_clock g t ph : clock g ≤ t ≤ hi → step (mkConfig g ph) (mkConfig (mkWorld (stores g) t) ph)
| step_other o g a g' ph : gcall rule o g a g' → rec n P g' = rec n P g →
    step (mkConfig g ph) (mkConfig g' ph).

(** The lock [ph] claims, if it claims one at time [t]. *)
Definition claims (ph : phase) (t : Z) : bool :=
  match ph with
  | Held lk | Ticking lk _ => negb (lk_finished lk) && bool_decide (t < lk_leaseUntil lk)
  | _ => false
  end.

Record contending : Prop := {
  ct_store i : h_store (bucket (c_locker (cs i))) = n;
  ct_key i : h_key (bucket (c_locker (cs i))) (c_path (cs i)) = P;
  ct_owners i j : c_owner (cs i) = c_owner (cs j) → i = j;
  ct_times i t : lo ≤ t ≤ hi → printable (t + lease (c_locker (cs i)));
}.

Definition initial (cf : config) : Prop :=
  inv lo hi (cf_world cf) ∧ ∀ i, cf_phase cf i = Idle.

End pool.

(** ** The invariant of the pool, with the tokens the contract promises *)

Section invariant.
Context `{GT : GoTables} `{TT : TimeText} {I : Type} `{EqDecision I}.
Context (n : nat) (P : string) (lo hi : Z) (cs : I → contender).
Context (Hct : contending n P lo hi cs).

#[local] Abbreviation calls := (calls fresh_token).
#[local] Abbreviation step := (step fresh_token n P hi cs).
#[local] Abbreviation initial := (initial lo hi).

Definition phase_ok (c : contender) (ph : phase) (g : world) : Prop :=
  let held := held n P (c_locker c) (c_path c) (c_owner c) in
  let rely := rely n P never (c_owner c) in
  let guar := guar n P never (c_owner c) in
  match ph with
  | Trying q =>
    safe call (with_inv lo hi (λ _, True)) rely guar (λ r g', match r with Ok lk => held lk g' | Err _ => True end) q g
  | Held lk => held lk g
  | Ticking lk q =>
    held lk g ∧ safe call (with_inv lo hi (held lk)) rely guar
      (λ r g', held r.1 g' ∧ (r.2 = false → lk_finished r.1 = true)) q g
  | Releasing q => safe call (inv lo hi) rely (guar_own n P (c_owner c)) (λ _ _, True) q g
  | Idle | Out => True
  end.

#[local] Instance rely_refl' me : Reflexive (rely n P never me) := rely_refl n P never me.
#[local] Instance rely_trans' me : Transitive (rely n P never me) := rely_trans n P never me.

Lemma phase_ok_rely c ph g g' : rely n P never (c_owner c) g g' → phase_ok c ph g → phase_ok c ph g'.
Proof.
  intros Hr. destruct ph; cbn; try done.
  - intros Hs. eapply safe_stable; [apply rely_trans|exact Hs|exact Hr].
  - by apply held_rely.
  - intros [Hh Hs]. split; [by eapply held_rely|]. eapply safe_stable; [apply rely_trans|exact Hs|exact Hr].
  - intros Hs. eapply safe_stable; [apply rely_trans|exact Hs|exact Hr].
Qed.

Lemma phase_ok_local i ph ph' g :
  inv lo hi g → phase_ok (cs i) ph g → local (cs i) ph ph' → phase_ok (cs i) ph' g.
Proof.
  destruct Hct as [Hst Hk _ Ht]. intros Hi Hok Hl.
  destruct Hl; cbn in *; try done.
  - apply ok_tryAcquire; auto.
  - by apply (Hok g).
  - split; [done|]. apply ok_renewTick; auto.
  - destruct Hok as [Hh Hs]. by apply (Hs g).
  - destruct Hok. apply (ok_Release n P lo hi (c_locker (cs i)) (c_path (cs i))); auto.
Qed.

(** A call keeps the invariant and the caller's assertion, and moves the world
    by the caller's guarantee. *)
Lemma phase_ok_call i ph ph' g g' :
  inv lo hi g → phase_ok (cs i) ph g → calls g g' ph ph' →
  inv lo hi g' ∧ guar n P never (c_owner (cs i)) g g' ∧ phase_ok (cs i) ph' g'.
Proof.
  intros Hi Hok Hc. destruct Hc as [o k a Hc|lk o k a Hc|o k a Hc]; cbn in Hok.
  - destruct (safe_step _ _ _ _ _ _ _ _ _ _ Hok (conj Hi Logic.I) Hc) as ([? _] & ? & ?). done.
  - destruct Hok as [Hh Hs].
    by destruct (safe_step _ _ _ _ _ _ _ _ _ _ Hs (conj Hi Hh) Hc) as ([? ?] & ? & ?).
  - destruct (safe_step _ _ _ _ _ _ _ _ _ _ Hok Hi Hc) as (? & [? _] & ?). done.
Qed.

Definition pool_ok (cf : config) : Prop :=
  inv lo hi (cf_world cf) ∧ ∀ i, phase_ok (cs i) (cf_phase cf i) (cf_world cf).

Lemma pool_ok_moved g g' ph :
  inv lo hi g' → (∀ me, rely n P never me g g') → pool_ok (mkConfig g ph) → pool_ok (mkConfig g' ph).
Proof. intros Hi Hr [_ Hok]. split; [done|]. intros i. eapply phase_ok_rely; [apply Hr|apply Hok]. Qed.

Lemma pool_ok_step cf cf' : step cf cf' → pool_ok cf → pool_ok cf'.
Proof.
  intros [i g ph ph' Hl|i g g' ph ph' Hc|g t ph Ht|o g a g' ph Hc Hr]; cbn.
  - intros [Hi Hok]. split; [done|]. intros j. cbn. unfold set_phase.
    case_decide; [subst; eapply phase_ok_local; [exact Hi|apply Hok|exact Hl]|apply Hok].
  - intros [Hi Hok]. destruct (phase_ok_call _ _ _ _ _ Hi (Hok i) Hc) as (Hi' & Hg & Hph).
    split; [done|]. intros j. cbn. unfold set_phase. case_decide as Hj; [by subst|].
    eapply phase_ok_rely, Hok. eapply guar_rely; [|exact Hg].
    intros E%(ct_owners _ _ _ _ _ Hct). congruence.
  - intros Hok. destruct Hok as [[Hw Hcl] Hok]. eapply pool_ok_moved; [| |split; [split|]; done]; cbn in *.
    + split; [done|]. cbn. lia.
    + intros me. apply moves_rely; [|done]. split; cbn; [lia|done|by left|done].
  - intros Hok. pose proof (call_moves n P never _ _ _ _ Hc (λ H, H)). eapply pool_ok_moved; [..|done].
    + eapply call_inv; [apply Hok|done].
    + intros me. by apply moves_rely.
Qed.

Lemma reachable_ok cf cf' : initial cf → rtc step cf cf' → pool_ok cf'.
Proof.
  intros [Hi Hid] Hs. assert (pool_ok cf) as Hok.
  { split; [done|]. intros i. by rewrite Hid. }
  clear Hi Hid. induction Hs; eauto using pool_ok_step.
Qed.

(** A process that claims the lock is the owner of the record. *)
Lemma claims_owner cf i :
  pool_ok cf → claims (cf_phase cf i) (clock (cf_world cf)) = true →
  ∃ o, rec n P (cf_world cf) = Some o ∧ owner_of (so_meta o) = c_owner (cs i) ∧
       lockExpired (so_meta o) (clock (cf_world cf)) = false.
Proof.
  intros [_ Hok] Hcl. specialize (Hok i). unfold claims, phase_ok in *.
  assert (∀ lk, negb (lk_finished lk) && bool_decide (clock (cf_world cf) < lk_leaseUntil lk) = true →
    held n P (c_locker (cs i)) (c_path (cs i)) (c_owner (cs i)) lk (cf_world cf) →
    ∃ o, rec n P (cf_world cf) = Some o ∧ owner_of (so_meta o) = c_owner (cs i) ∧
       lockExpired (so_meta o) (clock (cf_world cf)) = false) as Hlk.
  { intros lk [_ Hlt%bool_decide_eq_true]%andb_true_iff Hh.
    destruct (held_rec _ _ _ _ _ _ _ Hh Hlt) as (o & ? & ? & He). exists o. by auto. }
  destruct (cf_phase cf i); try done; [by eapply Hlk|]. destruct Hok. by eapply Hlk.
Qed.

(** Two processes never both claim the lock. *)
Lemma claims_unique cf i j :
  pool_ok cf → claims (cf_phase cf i) (clock (cf_world cf)) = true →
  claims (cf_phase cf j) (clock (cf_world cf)) = true → i = j.
Proof.
  intros Hok Hi Hj. destruct (claims_owner _ _ Hok Hi) as (o & Ho & Hoi & _).
  destruct (claims_owner _ _ Hok Hj) as (o' & Ho' & Hoj & _).
  eapply (ct_owners _ _ _ _ _ Hct). congruence.
Qed.

End invariant.
