(* ===== verification/LockTheorems.v ===== *)
(** * What the lease lock guarantees

    Mutual exclusion and the respect of foreign records, over any interleaving
    ([LockSafety]); that mutual exclusion needs the tokens of the contract; and
    what the operations do, run in sequence against the in-memory driver. *)
From stdpp Require Import relations.
From S2P Require Import Prelude Strconv GoTime Md5 Core Effects Store MemDriver MemStore Locker MemRun LeaseSafety LockSafety.

Import Locker.

Section concurrent.
Context `{GT : GoTables} `{TT : TimeText} {I : Type} `{EqDecision I}.
Context (n : nat) (P : string) (lo hi : Z) (cs : I → contender).

#[local] Abbreviation step := (step fresh_token n P hi cs).

(** C1: mutual exclusion.  Whatever the interleaving of the contenders' calls,
    whichever calls fail or lose their answer, and whatever the record held at
    the start, two processes never both claim the lock (a held lock that is not
    finished, before the end of its lease). *)
Theorem lock_mutual_exclusion cf cf' i j :
  contending n P lo hi cs → initial lo hi cf → rtc step cf cf' →
  claims (cf_phase cf' i) (clock (cf_world cf')) = true →
  claims (cf_phase cf' j) (clock (cf_world cf')) = true → i = j.
Proof.
  intros Hct Hin Hs. eapply claims_unique; [exact Hct|]. by eapply reachable_ok.
Qed.

(** C13: a record whose lease is not over is changed or deleted only by a call of
    the process whose owner it names. *)
Theorem lock_live_record_respected cf cf1 cf2 o :
  contending n P lo hi cs → initial lo hi cf → rtc step cf cf1 → step cf1 cf2 →
  rec n P (cf_world cf1) = Some o → lockExpired (so_meta o) (clock (cf_world cf1)) = false →
  rec n P (cf_world cf2) ≠ Some o →
  ∃ i, owner_of (so_meta o) = c_owner (cs i) ∧
       calls fresh_token (cf_world cf1) (cf_world cf2) (cf_phase cf1 i) (cf_phase cf2 i).
Proof.
  intros Hct Hin Hs Hst Ho He Hne. pose proof (reachable_ok _ _ _ _ _ Hct _ _ Hin Hs) as [Hi Hok].
  destruct Hst as [i g ph ph' Hl|i g g' ph ph' Hc|g t ph Ht|op g a g' ph Hc Hr]; cbn in *;
    [by destruct Hne| |by destruct Hne|congruence].
  exists i. unfold set_phase. rewrite decide_True by done. split; [|done].
  destruct (phase_ok_call _ _ _ _ _ _ _ _ _ _ Hi (Hok i) Hc) as (_ & Hg & _).
  destruct (guar_rec _ _ _ _ _ _ Hg o Ho Hne) as [?|[?|[]]]; congruence.
Qed.

(** C29: [Release] touches no record but its owner's, expired or not: whenever a call
    of a release, however it interleaves with the other contenders, changes the
    record of the lock, the record named the releasing owner; a lock taken over by
    another holder is never deleted. *)
Theorem lock_release_own_only cf cf' i o k a g' :
  contending n P lo hi cs → initial lo hi cf → rtc step cf cf' →
  cf_phase cf' i = Releasing (Vis o k) → call o (cf_world cf') a g' →
  rec n P g' ≠ rec n P (cf_world cf') →
  ∃ r, rec n P (cf_world cf') = Some r ∧ owner_of (so_meta r) = c_owner (cs i).
Proof.
  intros Hct Hin Hs Hph Hc Hne. pose proof (reachable_ok _ _ _ _ _ Hct _ _ Hin Hs) as [Hi Hok].
  specialize (Hok i). rewrite Hph in Hok. cbn in Hok.
  destruct (Hok _ (rely_refl _ _ _ _ _) Hi a g' Hc) as (_ & [_ Hown] & _). by apply Hown.
Qed.

End concurrent.

(** ** Runs of the pool

    One contender moves while the others stand still; the two halves of an
    acquisition, before and from its write. *)
Section runs.
Context (rule : token_rule).
Context `{GT : GoTables} `{TT : TimeText} {I : Type} `{EqDecision I}.
Context (n : nat) (P : string) (hi : Z) (cs : I → contender).

#[local] Abbreviation step := (step rule n P hi cs).

(** Process [i] can go to phase [y] and the world to [g'], nobody else moving. *)
Definition goes (i : I) (g : world) (ph : I → phase) (g' : world) (y : phase) : Prop :=
  ∃ ph', rtc step (mkConfig g ph) (mkConfig g' ph') ∧ ph' i = y ∧ ∀ j, j ≠ i → ph' j = ph j.

Lemma goes_trans i g ph g1 y1 g2 y2 :
  goes i g ph g1 y1 → (∀ ph1, ph1 i = y1 → goes i g1 ph1 g2 y2) → goes i g ph g2 y2.
Proof.
  intros (ph1 & Hs & Hi & Hj) H2. destruct (H2 ph1 Hi) as (ph2 & Hs2 & Hi2 & Hj2).
  exists ph2. split; [by etrans|]. split; [done|]. intros j Hne. rewrite Hj2, Hj; done.
Qed.

Lemma goes_local i g ph y : local (cs i) (ph i) y → goes i g ph g y.
Proof.
  intros Hl. exists (set_phase i y ph). split; [apply rtc_once; by constructor|].
  unfold set_phase. split; [by rewrite decide_True|]. intros j Hj. by rewrite decide_False.
Qed.

Lemma goes_call i g ph g' y : calls rule g g' (ph i) y → goes i g ph g' y.
Proof.
  intros Hl. exists (set_phase i y ph). split; [apply rtc_once; by apply step_call|].
  unfold set_phase. split; [by rewrite decide_True|]. intros j Hj. by rewrite decide_False.
Qed.

Lemma call_written b key g l owner now pre c v :
  CompilePreconditions [Some pre] = Ok c →
  holds c (version_at (stores g (h_store b)) (h_key b key)) = true →
  rule (stores g (h_store b)) "" v →
  gcall rule (OWriteAll b key "" (record_options (record l owner now)) [Some pre]) g (Ok ())
    (put_in (h_store b) (h_key b key) (mkSobject "" (record l owner now) v) g).
Proof. intros Hc Hh Hv. by apply (gcall_write _ _ _ _ _ _ _ _ c); try done; apply Normalize_record. Qed.

Section halves.
Context (i : I).
#[local] Abbreviation l := (c_locker (cs i)).
#[local] Abbreviation p := (c_path (cs i)).
Context (Hn : h_store (bucket l) = n) (HP : h_key (bucket l) p = P).

(** What is left of an acquisition once it has decided to write. *)
Definition writing (now : Z) (pre : Precondition) (held : error → bool) : prog (result Lock) :=
  u ← writeRecord l p (record l (c_owner (cs i)) now) pre;
  match u with
  | Err uerr => if held uerr then mret (Err ErrLockHeld) else mret (Err uerr)
  | Ok v => mret (Ok (start l (c_key (cs i)) p (c_owner (cs i)) v (now + lease l)))
  end.

Definition refused (e : error) : bool := Is e ErrPreconditionFailed || Is e ErrNotFound.

(** The first half, over a record that has expired. *)
Lemma goes_deciding g ph o :
  ph i = Idle → rec n P g = Some o → lockExpired (so_meta o) (clock g) = true →
  goes i g ph g (Trying (writing (clock g) (IfMatch (so_version o)) refused)).
Proof.
  intros Hid Ho He. eapply goes_trans.
  { apply goes_local. rewrite Hid. apply local_start. }
  intros ph1 H1. destruct (gcall_found rule (bucket l) p g o) as (a & Hv & Hm & Hc).
  { by rewrite Hn, HP. }
  eapply goes_trans; [apply goes_call; rewrite H1; by apply calls_try|].
  cbn. intros ph2 H2. eapply goes_trans; [apply goes_call; rewrite H2; by apply calls_try|].
  cbn. rewrite Hv, Hm, He. intros ph3 H3. exists ph3. split; [done|]. by split; [exact H3|].
Qed.

(** The second half, when the write is let through. *)
Lemma goes_holding g ph now pre c held v :
  ph i = Trying (writing now pre held) → CompilePreconditions [Some pre] = Ok c →
  holds c (so_version <$> rec n P g) = true → rule (stores g n) "" v →
  goes i g ph (put_in n P (mkSobject "" (record l (c_owner (cs i)) now) v) g)
    (Held (start l (c_key (cs i)) p (c_owner (cs i)) v (now + lease l))).
Proof.
  intros Hw Hc Hh Hv. set (g' := put_in _ _ _ _).
  assert (gcall rule (OWriteAll (bucket l) p "" (record_options (record l (c_owner (cs i)) now)) [Some pre]) g (Ok ()) g') as Hcall.
  { unfold g'. rewrite <- Hn, <- HP. apply (call_written _ _ _ _ _ _ _ c); [done|by rewrite Hn, HP|by rewrite Hn]. }
  destruct (gcall_found rule (bucket l) p g' (mkSobject "" (record l (c_owner (cs i)) now) v)) as (a & Ha & _ & Hca).
  { rewrite Hn, HP. apply put_in_lookup. }
  eapply goes_trans; [apply goes_call; rewrite Hw; by apply calls_try|].
  cbn. intros ph1 H1. eapply goes_trans; [apply goes_call; rewrite H1; by apply calls_try|].
  cbn. rewrite Ha. intros ph2 H2. apply goes_local. rewrite H2. apply local_acquired.
Qed.

End halves.
End runs.

(** ** Mutual exclusion rests on fresh tokens *)

Section content.
Context `{GT : GoTables} `{TT : TimeText} {I : Type} `{EqDecision I}.
Context (tok : bytes → string) (n : nat) (P : string) (lo hi : Z) (cs : I → contender).

(** C35: where the version token is a function of the bytes (an S3 ETag), every
    lock record carries the same token, because its body is empty; the
    compare-and-swap of a takeover then never fails, and two contenders that
    both saw the same expired record both end up holding the lock. *)
Theorem lock_content_token_two_holders g ph o i j :
  contending n P lo hi cs → tok "" ≠ "" → 0 < lease (c_locker (cs i)) → 0 < lease (c_locker (cs j)) →
  (∀ k, ph k = Idle) → i ≠ j → rec n P g = Some o → so_version o = tok "" →
  lockExpired (so_meta o) (clock g) = true →
  ∃ cf, rtc (step (content_token tok) n P hi cs) (mkConfig g ph) cf ∧
    claims (cf_phase cf i) (clock (cf_world cf)) = true ∧
    claims (cf_phase cf j) (clock (cf_world cf)) = true.
Proof.
  intros Hct Htok Hli Hlj Hid Hij Ho Hv He.
  pose proof (ct_store _ _ _ _ _ Hct) as Hst. pose proof (ct_key _ _ _ _ _ Hct) as Hk.
  destruct (goes_deciding (content_token tok) n P hi cs i (Hst i) (Hk i) g ph o (Hid i) Ho He)
    as (ph1 & Hs1 & Hi1 & Hr1).
  assert (ph1 j = Idle) as Hj1 by by rewrite Hr1.
  destruct (goes_deciding (content_token tok) n P hi cs j (Hst j) (Hk j) g ph1 o Hj1 Ho He)
    as (ph2 & Hs2 & Hj2 & Hr2).
  assert (ph2 i = _) as Hi2 by (rewrite Hr2 by done; exact Hi1).
  destruct (goes_holding (content_token tok) n P hi cs i (Hst i) (Hk i) g ph2 _ _ _ _ (tok "") Hi2 (compile_IfMatch _))
    as (ph3 & Hs3 & Hi3 & Hr3); [|done|].
  { rewrite Ho. apply holds_IfMatch; [by rewrite Hv|done]. }
  assert (ph3 j = _) as Hj3 by (rewrite Hr3 by done; exact Hj2).
  set (g1 := put_in _ _ _ _) in Hs3.
  destruct (goes_holding (content_token tok) n P hi cs j (Hst j) (Hk j) g1 ph3 _ _ _ _ (tok "") Hj3 (compile_IfMatch _))
    as (ph4 & Hs4 & Hj4 & Hr4).
  { unfold rec, g1. rewrite put_in_lookup. apply holds_IfMatch; by rewrite Hv. }
  { done. }
  eexists (mkConfig _ ph4). split.
  { etrans; [exact Hs1|]. etrans; [exact Hs2|]. etrans; [exact Hs3|exact Hs4]. }
  cbn.
  rewrite Hr4, Hi3, Hj4 by done. cbn. rewrite !bool_decide_true by lia. done.
Qed.

End content.

(** ** The operations in sequence, on the in-memory driver *)

Section sequential.
Context `{GT : GoTables} `{TT : TimeText}.

(** Runs the write of a record, leaving the stored object and the precondition. *)
Local Ltac run_write Hc o Ho Hr :=
  unfold updateRecord, createRecord;
  match goal with
  | He : ∀ i, calm (?envs i) |- context [run exec (writeRecord ?l ?p (record ?l' ?owner ?now) _ ≫= ?f) ?ev ?w] =>
    destruct (run_writeRecord ev (fun i => He _) f l p (record l' owner now) _ _ w
      (Normalize_record _ _ _) Hc) as (o & Ho & Hr); rewrite Hr
  end.

Lemma tryAcquire_run l key p owner envs w :
  (∀ i, calm (envs i)) → Mem.wf (w (h_store (bucket l))) →
  let now := e_clock (envs 1%nat) in
  if from_option (λ o, negb (lockExpired (a_Metadata (Mem.attrs o)) now)) false (obj w (bucket l) p)
  then run exec (tryAcquire l key p owner) envs w = (Some (Err ErrLockHeld), w)
  else ∃ o, stored "" (record l owner now) (w (h_store (bucket l))) o ∧
    run exec (tryAcquire l key p owner) envs w =
    (Some (Ok (start l key p owner (a_Version (Mem.attrs o)) (now + lease l))), wrote (bucket l) p o w).
Proof.
  intros He Hwf now. unfold tryAcquire. rewrite (run_readRecord _ He), run_now.
  change (e_clock (envs (1 + 0)%nat)) with now.
  destruct (obj w (bucket l) p) as [o|] eqn:Ho; cbn [from_option].
  - destruct (lockExpired _ now) eqn:Hex; cbn [negb]; [|done].
    run_write (compile_IfMatch (a_Version (Mem.attrs o))) o' Ho' Hr. rewrite holds_current by done. exists o'. split; [exact Ho'|reflexivity].
  - rewrite Is_refl. run_write compile_IfNotExists o' Ho' Hr. rewrite holds_absent by done. exists o'. split; [exact Ho'|reflexivity].
Qed.

Lemma Release_run lk envs w :
  (∀ i, calm (envs i)) → Mem.wf (w (h_store (bucket (lk_locker lk)))) → lk_released lk = false →
  let b := bucket (lk_locker lk) in
  ∃ lk', lk_finished lk' = true ∧ lk_released lk' = true ∧
    run exec (Release lk) envs w =
    (Some (lk', None),
     if from_option (λ o, bool_decide (owner_of (a_Metadata (Mem.attrs o)) = lk_owner lk)) false (obj w b (lk_path lk))
     then removed b (lk_path lk) w else w) ∧
    ∀ envs' w', run exec (Release lk') envs' w' = (Some (lk', None), w').
Proof.
  intros He Hwf Hrel b. unfold Release at 1. rewrite Hrel.
  set (lk' := finish None (set_stopped (set_released lk))). exists lk'.
  assert (lk_finished lk' = true ∧ lk_released lk' = true ∧ lk_locker lk' = lk_locker lk ∧
    lk_path lk' = lk_path lk ∧ lk_owner lk' = lk_owner lk) as (Hf & Hr & Hl & Hp & Ho).
  { unfold lk', finish. cbn. destruct (lk_finished lk) eqn:?; by split_and!. }
  split; [done|]. split; [done|]. split; [|intros envs' w'; unfold Release; by rewrite Hr].
  unfold release_record. rewrite Hl, Hp, Ho, run_bind_assoc, (run_readRecord _ He). fold b.
  destruct (obj w b (lk_path lk)) as [o|] eqn:Hob; cbn [from_option]; [|by rewrite Is_refl].
  case_bool_decide; cbn [negb]; [|done]. unfold deleteRecord. fold b.
  rewrite run_bind_assoc, (run_delete_read _ (fun i => He _) _ b _ o) by done. done.
Qed.

(** One round of the renewer.  Past the lease it gives the lock up without
    touching the store; before it, a record that still carries the lock's token
    is rewritten with a lease from now, and the lock follows; a record that
    does not makes it give the lock up, and leaves the store as it was. *)
Theorem lock_renew_spec lk o envs w :
  (∀ i, calm (envs i)) → lk_version lk ≠ "" →
  let l := lk_locker lk in let b := bucket l in let now := e_clock (envs 0%nat) in
  obj w b (lk_path lk) = Some o →
  if bool_decide (now < lk_leaseUntil lk) then
    if bool_decide (a_Version (Mem.attrs o) = lk_version lk) then
      ∃ o', stored "" (record l (lk_owner lk) now) (w (h_store b)) o' ∧
        run exec (renewTick lk) envs w =
        (Some (renewed (a_Version (Mem.attrs o')) (now + lease l) lk, true), wrote b (lk_path lk) o' w)
    else ∃ w', run exec (renewTick lk) envs w = (Some (finish (Some ErrLockLost) lk, false), w') ∧
           ∀ m, w' m = w m
  else run exec (renewTick lk) envs w = (Some (finish (Some ErrLockLost) lk, false), w).
Proof.
  intros He Hv l b now Ho. unfold renewTick. rewrite run_now. fold now. unfold Before.
  case_bool_decide as Hlt; cbn [negb]; [|done]. unfold renewOnce. fold l. rewrite run_bind_assoc.
  run_write (compile_IfMatch (lk_version lk)) o' Ho' Hr. rewrite version_at_obj. fold b. rewrite Ho.
  unfold holds. cbn [p_IfNotExists p_IfMatch fmap option_fmap option_map].
  rewrite (bool_decide_false (lk_version lk = "")) by done. cbn [negb].
  case_bool_decide as Heq; case_bool_decide; try congruence; [exists o'; split; [exact Ho'|reflexivity]|].
  eexists. split; [cbn; by rewrite Is_refl|]. intros m. apply untouched_eq.
Qed.

(** One client after another: acquire as [a], release, acquire as [b]. *)
Definition handover (l : Locker) (key a b : string) : prog (result Lock) :=
  r ← TryAcquire l key [a];
  match r with
  | Err e => mret (Err e)
  | Ok lk => _ ← Release lk; TryAcquire l key [b]
  end.

Lemma TryAcquire_named l key owner p :
  path l key = Ok p → owner ≠ "" → TryAcquire l key [owner] = tryAcquire l key p owner.
Proof. intros Hp Ho. unfold TryAcquire, resolveOwner. rewrite Hp. cbn. by rewrite bool_decide_false. Qed.

(** A single attempt, on every branch.  Over an unexpired record it answers
    [ErrLockHeld] and changes nothing; with no record, or an expired one, it
    stores a record that names the owner and a lease from the clock's reading,
    and returns a lock with that record's version and lease. *)
Theorem lock_tryAcquire_spec l key owner p envs w :
  path l key = Ok p → owner ≠ "" → (∀ i, calm (envs i)) → Mem.wf (w (h_store (bucket l))) →
  let now := e_clock (envs 1%nat) in
  if from_option (λ o, negb (lockExpired (a_Metadata (Mem.attrs o)) now)) false (obj w (bucket l) p)
  then run exec (TryAcquire l key [owner]) envs w = (Some (Err ErrLockHeld), w)
  else ∃ o, stored "" (record l owner now) (w (h_store (bucket l))) o ∧
    run exec (TryAcquire l key [owner]) envs w =
    (Some (Ok (start l key p owner (a_Version (Mem.attrs o)) (now + lease l))), wrote (bucket l) p o w).
Proof. intros Hp Ho. rewrite (TryAcquire_named _ _ _ _ Hp Ho). apply tryAcquire_run. Qed.

(** Releasing a held lock.  The lock is marked finished and released, with
    no error; the record is deleted exactly when it is there and still names
    this owner; a second [Release] does nothing. *)
Theorem lock_release_spec lk envs w :
  (∀ i, calm (envs i)) → Mem.wf (w (h_store (bucket (lk_locker lk)))) → lk_released lk = false →
  let b := bucket (lk_locker lk) in
  ∃ lk', lk_finished lk' = true ∧ lk_released lk' = true ∧
    run exec (Release lk) envs w =
    (Some (lk', None),
     if from_option (λ o, bool_decide (owner_of (a_Metadata (Mem.attrs o)) = lk_owner lk)) false (obj w b (lk_path lk))
     then removed b (lk_path lk) w else w) ∧
    ∀ envs' w', run exec (Release lk') envs' w' = (Some (lk', None), w').
Proof. apply Release_run. Qed.

(** C34: a lock released by one owner is acquired by the next at its first
    attempt, however long the first one's lease still had to run. *)
Theorem lock_handover l key p a b envs w :
  path l key = Ok p → a ≠ "" → b ≠ "" → (∀ i, calm (envs i)) →
  Mem.wf (w (h_store (bucket l))) → Mem.nextVersion (w (h_store (bucket l))) + 1 < 2 ^ 64 →
  obj w (bucket l) p = None →
  ∃ lk w', run exec (handover l key a b) envs w = (Some (Ok lk), w') ∧ lk_owner lk = b ∧ lk_finished lk = false.
Proof.
  intros Hp Ha Hb He Hwf Hlt Hfree. unfold handover.
  rewrite !(TryAcquire_named l key _ p) by done.
  destruct (run_bind exec (tryAcquire l key p a) (fun r => match r with
    | Err e => mret (Err e) | Ok lk => _ ← Release lk; tryAcquire l key p b end) envs w) as [m1 ->].
  pose proof (tryAcquire_run l key p a envs w He Hwf) as H1. cbn zeta in H1. rewrite Hfree in H1.
  destruct H1 as (o1 & Ho1 & ->).
  set (lk := start _ _ _ _ _ _). set (w1 := wrote _ _ _ _).
  assert (Mem.wf (w1 (h_store (bucket l)))) as Hwf1 by by eapply wf_wrote.
  destruct (run_bind exec (Release lk) (fun _ => tryAcquire l key p b) (fun i => envs (m1 + i)%nat) w1) as [m2 ->].
  destruct (Release_run lk (fun i => envs (m1 + i)%nat) w1) as (lk' & _ & _ & -> & _); [done..|].
  cbn [lk start lk_locker lk_path lk_owner]. unfold w1 at 1. rewrite obj_wrote, decide_True by done. cbn [from_option].
  assert (owner_of (a_Metadata (Mem.attrs o1)) = a) as Howner.
  { destruct Ho1 as [Habs _ _]. injection Habs as _ -> _. apply owner_of_record. }
  rewrite bool_decide_true by done. set (w2 := removed _ _ _).
  assert (Mem.wf (w2 (h_store (bucket l)))) as Hwf2 by by apply wf_removed.
  pose proof (tryAcquire_run l key p b (fun i => envs (m1 + (m2 + i))%nat) w2 (fun i => He _) Hwf2) as H3.
  cbn zeta in H3. unfold w2 in H3 at 1. rewrite obj_removed, decide_True in H3 by done.
  destruct H3 as (o2 & _ & H3). eexists _, _. split; [exact H3|done].
Qed.

End sequential.
