(* ===== verification/Queue.v ===== *)
(** * The work queue (queue.go, queuemessage.go)

    A message is a payload object under [msg/] and, while it is claimed, a
    lease record under [lease/].  A claim is the lock's compare-and-swap on the
    lease record, with a count of deliveries; a message delivered too often is
    moved to [dead/]. *)
From S2P Require Import Prelude Strconv GoTime Md5 Core Effects Locker.

Module Queue.

Definition DefaultVisibilityLease : Z := 15 * Second.
Definition DefaultHeadWindow : Z := 256.
Definition DefaultMinPollInterval : Z := 250 * Millisecond.
Definition DefaultMaxPollInterval : Z := 5 * Second.
Definition DefaultTrimBatch : Z := 256.

Definition queueMsgPrefix : string := "msg/".
Definition queueLeasePrefix : string := "lease/".
Definition queueDeadPrefix : string := "dead/".

Definition queueOwnerField : string := "owner".
Definition queueLeaseField : string := "lease".
Definition queueReceivesField : string := "receives".

Definition queueJitterWindow : Z := 16.

Record Queue := mkQueue {
  q_bucket : Handle;
  q_prefix : string;
  q_lease : Z;
  q_renew : Z;
  q_headWindow : Z;
  q_minPoll : Z;
  q_maxPoll : Z;
  q_maxReceives : Z;
  q_retention : Z;
}.

(** The [QueueOption]s but [WithQueueClock]: the clock is the call [ONow]. *)
Inductive QueueOption :=
| WithQueueVisibilityLease (d : Z)
| WithQueueRenewInterval (d : Z)
| WithQueueHeadWindow (n : Z)
| WithQueueReceiveBackoff (low high : Z)
| WithMaxReceives (n : Z)
| WithRetention (d : Z).

Definition apply_option (opt : QueueOption) (q : Queue) : Queue :=
  match opt with
  | WithQueueVisibilityLease d =>
    mkQueue (q_bucket q) (q_prefix q) d (q_renew q) (q_headWindow q) (q_minPoll q) (q_maxPoll q)
      (q_maxReceives q) (q_retention q)
  | WithQueueRenewInterval d =>
    mkQueue (q_bucket q) (q_prefix q) (q_lease q) d (q_headWindow q) (q_minPoll q) (q_maxPoll q)
      (q_maxReceives q) (q_retention q)
  | WithQueueHeadWindow n =>
    mkQueue (q_bucket q) (q_prefix q) (q_lease q) (q_renew q) n (q_minPoll q) (q_maxPoll q)
      (q_maxReceives q) (q_retention q)
  | WithQueueReceiveBackoff low high =>
    mkQueue (q_bucket q) (q_prefix q) (q_lease q) (q_renew q) (q_headWindow q) low high
      (q_maxReceives q) (q_retention q)
  | WithMaxReceives n =>
    mkQueue (q_bucket q) (q_prefix q) (q_lease q) (q_renew q) (q_headWindow q) (q_minPoll q) (q_maxPoll q)
      n (q_retention q)
  | WithRetention d =>
    mkQueue (q_bucket q) (q_prefix q) (q_lease q) (q_renew q) (q_headWindow q) (q_minPoll q) (q_maxPoll q)
      (q_maxReceives q) d
  end.

(** What [NewQueue] does to the fields the options left unset or out of range. *)
Definition normalize (q : Queue) : Queue :=
  let ls := if bool_decide (q_lease q ≤ 0) then DefaultVisibilityLease else q_lease q in
  let rn := if bool_decide (q_renew q ≤ 0) then ls `quot` 3 else q_renew q in
  let rn := if bool_decide (rn ≤ 0) then ls else rn in
  let hw := if bool_decide (q_headWindow q ≤ 0) then DefaultHeadWindow else q_headWindow q in
  let mn := if bool_decide (q_minPoll q ≤ 0) then DefaultMinPollInterval else q_minPoll q in
  let mx := if bool_decide (q_maxPoll q < mn) then mn else q_maxPoll q in
  let mr := if bool_decide (q_maxReceives q < 0) then 0 else q_maxReceives q in
  let rt := if bool_decide (q_retention q < 0) then 0 else q_retention q in
  mkQueue (q_bucket q) (q_prefix q) ls rn hw mn mx mr rt.

Definition NewQueue (b : Handle) (prefix : string) (opts : list QueueOption) : result Queue :=
  if bool_decide (prefix = "") then Err ErrInvalidQueuePrefix
  else if HasPrefix prefix "/" || Contains prefix ".." then Err ErrInvalidQueuePrefix
  else
    let prefix := if HasSuffix prefix "/" then prefix else prefix +:+ "/" in
    let q := mkQueue (h_Sub b prefix) prefix DefaultVisibilityLease 0 DefaultHeadWindow
               DefaultMinPollInterval DefaultMaxPollInterval 0 0 in
    Ok (normalize (fold_left (fun q opt => apply_option opt q) opts q)).

(** ** Message ids *)

Definition newQueueID (now : Z) (uuid : string) : string := fmt013 (UnixMilli now) +:+ "-" +:+ uuid.

(** [strings.Cut] answers the text before the separator and whether it is there. *)
Definition all_digit_bytes (s : string) : bool :=
  forallb (fun c => bool_decide (48 ≤ Ascii.N_of_ascii c ≤ 57)%N) (String.list_ascii_of_string s).

Definition queueIDTime (id : string) : option Z :=
  let '(ts, found) := Cut id "-" in
  if negb found || negb (bool_decide (strlen ts = 13)) then None
  else if negb (all_digit_bytes ts) then None
  else
    match parse_nat ts with
    | None => None
    | Some ms => Some (time_UnixMilli ms)
    end.

Definition validateQueueMessageID (id : string) : option error :=
  if bool_decide (id = "") then Some ErrInvalidMessageID
  else if Contains id "/" || Contains id ".." || bool_decide (id = ".") then Some ErrInvalidMessageID
  else None.

(** ** Messages *)

Record Message := mkMessage {
  m_queue : Queue;
  m_id : string;
  m_msgPath : string;
  m_leasePath : string;
  m_owner : string;
  m_attrs : metadata;
  m_receives : Z;
  m_stopped : bool;
  m_version : string;
  m_leaseUntil : Z;
  m_err : option error;
  m_finished : bool;
  m_settled : bool;
}.

Definition startMessage (q : Queue) (id msgPath leasePath owner : string) (attrs : metadata)
    (receives : Z) (version : string) (leaseUntil : Z) : Message :=
  mkMessage q id msgPath leasePath owner (CloneMetadata attrs) receives false version leaseUntil
    None false false.

(** [ID], [Receives], [Attributes], [Done] and [Err]. *)
Definition ID (m : Message) : string := m_id m.
Definition Receives (m : Message) : Z := m_receives m.
Definition MsgAttributes (m : Message) : metadata := CloneMetadata (m_attrs m).
Definition Done (m : Message) : bool := m_finished m.
Definition Err_ (m : Message) : option error := m_err m.

Definition finish (err : option error) (m : Message) : Message :=
  if m_finished m then m
  else mkMessage (m_queue m) (m_id m) (m_msgPath m) (m_leasePath m) (m_owner m) (m_attrs m) (m_receives m)
         (m_stopped m) (m_version m) (m_leaseUntil m) err true (m_settled m).

Definition set_settled (m : Message) : Message :=
  mkMessage (m_queue m) (m_id m) (m_msgPath m) (m_leasePath m) (m_owner m) (m_attrs m) (m_receives m)
    (m_stopped m) (m_version m) (m_leaseUntil m) (m_err m) (m_finished m) true.

Definition set_stopped (m : Message) : Message :=
  mkMessage (m_queue m) (m_id m) (m_msgPath m) (m_leasePath m) (m_owner m) (m_attrs m) (m_receives m)
    true (m_version m) (m_leaseUntil m) (m_err m) (m_finished m) (m_settled m).

Definition renewed (version : string) (leaseUntil : Z) (m : Message) : Message :=
  mkMessage (m_queue m) (m_id m) (m_msgPath m) (m_leasePath m) (m_owner m) (m_attrs m) (m_receives m)
    (m_stopped m) version leaseUntil (m_err m) (m_finished m) (m_settled m).

(** [settle]: the message afterwards, and whether this call was the first. *)
Definition settle (m : Message) : Message * bool :=
  if m_settled m then (m, false) else (set_settled m, true).

(** ** Lease records *)

Definition queueParseReceives (fields : metadata) : Z :=
  match Atoi (default "" (Locker.field_of fields queueReceivesField)) with
  | Err _ => 0
  | Ok n => if bool_decide (n < 0) then 0 else n
  end.

(** [rand.Int64N(d)] is in [0, d). *)
Definition queueJitter (d : Z) : prog Z :=
  if bool_decide (d ≤ 0) then mret 0
  else r ← trigger (ORandN d); mret (wrap64 (d + r)).

(** [io.Copy] into a writer that is an [io.ReaderFrom], then the commit; a
    failed copy aborts the writer. *)
Definition copy_and_close (w : stream) (r : source) : prog (result unit) :=
  c ← trigger (OReadFrom w r);
  match c with
  | (w', Err err) =>
    cl ← trigger (OCloseWithError w');
    mret (Err (Join err (snd (cl : stream * option error))))
  | (w', Ok _) =>
    cl ← trigger (OClose w');
    mret (snd (cl : stream * result unit))
  end.

Definition payload_options (md : metadata) : WriterOptions :=
  mkWriterOptions 0 0 "" "" "" "" "application/octet-stream" true "" md None.

Definition writePayload (q : Queue) (id : string) (r : source) (attrs : metadata) : prog (result unit) :=
  w ← trigger (ONewWriter (q_bucket q) (queueMsgPrefix +:+ id) (payload_options attrs) [Some IfNotExists]);
  match w with
  | Err err => mret (Err err)
  | Ok w => copy_and_close w r
  end.

(** [Enqueue]; [attrs] is nil when the options are. *)
Definition Enqueue (q : Queue) (r : source) (attrs : metadata) : prog (result string) :=
  now ← trigger ONow;
  uuid ← trigger OUuid;
  let id := newQueueID now uuid in
  e ← writePayload q id r attrs;
  match e with
  | Err err => mret (Err err)
  | Ok _ => mret (Ok id)
  end.

Definition EnqueueWithID (q : Queue) (id : string) (r : source) (attrs : metadata) : prog (result bool) :=
  match validateQueueMessageID id with
  | Some err => mret (Err err)
  | None =>
    e ← writePayload q id r attrs;
    match e with
    | Err err => if Is err ErrPreconditionFailed then mret (Ok true) else mret (Err err)
    | Ok _ => mret (Ok false)
    end
  end.

(** [writeDeadRecord]: the payload streamed into the dead record, which is
    written unconditionally. *)
Definition writeDeadRecord (q : Queue) (id : string) (attrs : metadata) (receives : Z) : prog (result unit) :=
  let meta := Some (<[queueReceivesField := Itoa receives]> (default ∅ (CloneMetadata attrs))) in
  r ← trigger (ONewReader (q_bucket q) (queueMsgPrefix +:+ id));
  match r with
  | Err err => if Is err ErrNotFound then mret (Ok tt) else mret (Err err)
  | Ok r =>
    w ← trigger (ONewWriter (q_bucket q) (queueDeadPrefix +:+ id) (payload_options meta) []);
    match w with
    | Err err => mret (Err err)
    | Ok w => copy_and_close w r
    end
  end.

(** [err != nil && !errors.Is(err, ErrNotFound)] after a delete. *)
Definition delete_failed (r : result unit) : option error :=
  match r with
  | Ok _ => None
  | Err err => if Is err ErrNotFound then None else Some err
  end.

(** The two deletes at the end of [deadLetter]. *)
Definition remove_live (q : Queue) (id leaseVersion : string) : prog (result unit) :=
  d ← trigger (ODelete (q_bucket q) (queueMsgPrefix +:+ id) []);
  match delete_failed d with
  | Some err => mret (Err err)
  | None =>
    d' ← trigger (ODelete (q_bucket q) (queueLeasePrefix +:+ id) [Some (IfMatch leaseVersion)]);
    match d' with
    | Err err =>
      if negb (Is err ErrPreconditionFailed) && negb (Is err ErrNotFound) then mret (Err err) else mret (Ok tt)
    | Ok _ => mret (Ok tt)
    end
  end.

Definition deadLetter (q : Queue) (id : string) (receives : Z) (leaseVersion : string) : prog (result unit) :=
  attrs ← trigger (OAttributes (q_bucket q) (queueMsgPrefix +:+ id));
  match attrs with
  | Err err => if Is err ErrNotFound then remove_live q id leaseVersion else mret (Err err)
  | Ok a =>
    d ← writeDeadRecord q id (a_Metadata a) receives;
    match d with
    | Err err => mret (Err err)
    | Ok _ => remove_live q id leaseVersion
    end
  end.

Definition getLease (q : Queue) (path : string) : prog (result (metadata * string)) :=
  attrs ← trigger (OAttributes (q_bucket q) path);
  match attrs with
  | Err e => mret (Err e)
  | Ok a => mret (Ok (a_Metadata a, a_Version a))
  end.

Section timed.
Context `{TT : TimeText}.

Definition leaseRecord (q : Queue) (owner : string) (now receives : Z) : metadata :=
  Some (<[queueOwnerField := owner]> (<[queueLeaseField := Format (now + q_lease q)]>
    (<[queueReceivesField := Itoa receives]> ∅))).

Definition queueLeaseExpired (fields : metadata) (now : Z) : bool :=
  match Locker.field_of fields queueLeaseField with
  | None => true
  | Some raw =>
    match Parse raw with
    | Err _ => true
    | Ok until => negb (Before now until)
    end
  end.

Definition writeLease (q : Queue) (path owner : string) (now receives : Z) (pre : Precondition)
    : prog (result string) :=
  r ← trigger (OWriteAll (q_bucket q) path "" (Locker.record_options (leaseRecord q owner now receives)) [Some pre]);
  match r with
  | Err e => mret (Err e)
  | Ok _ =>
    attrs ← trigger (OAttributes (q_bucket q) path);
    match attrs with
    | Err e => mret (Err e)
    | Ok a => mret (Ok (a_Version a))
    end
  end.

(** The end of [tryClaim], once the lease is held: the payload must be there. *)
Definition claimed (q : Queue) (id owner : string) (now receives : Z) (newVersion : string)
    : prog (result (option Message)) :=
  attrs ← trigger (OAttributes (q_bucket q) (queueMsgPrefix +:+ id));
  match attrs with
  | Err err =>
    if Is err ErrNotFound then
      _ ← trigger (ODelete (q_bucket q) (queueLeasePrefix +:+ id) [Some (IfMatch newVersion)]);
      mret (Ok None)
    else mret (Err err)
  | Ok a =>
    mret (Ok (Some (startMessage q id (queueMsgPrefix +:+ id) (queueLeasePrefix +:+ id) owner
                      (a_Metadata a) receives newVersion (now + q_lease q))))
  end.

Definition tryClaim (q : Queue) (id owner : string) : prog (result (option Message)) :=
  let leasePath := queueLeasePrefix +:+ id in
  rec ← getLease q leasePath;
  now ← trigger ONow;
  match rec with
  | Err err =>
    if Is err ErrNotFound then
      c ← writeLease q leasePath owner now 1 IfNotExists;
      match c with
      | Err err => if Is err ErrPreconditionFailed then mret (Ok None) else mret (Err err)
      | Ok newVersion => claimed q id owner now 1 newVersion
      end
    else mret (Err err)
  | Ok (fields, version) =>
    if negb (queueLeaseExpired fields now) then mret (Ok None)
    else
      let prev := queueParseReceives fields in
      if bool_decide (0 < q_maxReceives q) && bool_decide (q_maxReceives q ≤ prev) then
        h ← writeLease q leasePath owner now prev (IfMatch version);
        match h with
        | Err err =>
          if Is err ErrPreconditionFailed || Is err ErrNotFound then mret (Ok None) else mret (Err err)
        | Ok holdVersion =>
          d ← deadLetter q id prev holdVersion;
          match d with
          | Err err => mret (Err err)
          | Ok _ => mret (Ok None)
          end
        end
      else
        let receives := wrap64 (prev + 1) in
        u ← writeLease q leasePath owner now receives (IfMatch version);
        match u with
        | Err err =>
          if Is err ErrPreconditionFailed || Is err ErrNotFound then mret (Ok None) else mret (Err err)
        | Ok newVersion => claimed q id owner now receives newVersion
        end
  end.

(** The loop of [tryReceive] over the listed objects, [start] positions on;
    [rest] are the values of [i] still to come. *)
Fixpoint receive_loop (q : Queue) (owner : string) (objs : list ListObject) (start : Z) (rest : list Z)
    : prog (result Message) :=
  match rest with
  | [] => mret (Err ErrNoMessages)
  | i :: rest =>
    match objs !! Z.to_nat ((start + i) `mod` Z.of_nat (length objs)) with
    | None => Crash
    | Some obj =>
      match CutPrefix (lo_Key obj) queueMsgPrefix with
      | None => receive_loop q owner objs start rest
      | Some id =>
        if bool_decide (id = "") then receive_loop q owner objs start rest
        else
          m ← tryClaim q id owner;
          match m with
          | Err err => mret (Err err)
          | Ok (Some msg) => mret (Ok msg)
          | Ok None => receive_loop q owner objs start rest
          end
      end
    end
  end.

Definition tryReceive (q : Queue) : prog (result Message) :=
  o ← Locker.randomOwner;
  match o with
  | Err err => mret (Err err)
  | Ok owner =>
    l ← trigger (OListPage (q_bucket q) FirstPageToken (q_headWindow q) (mkListOptions queueMsgPrefix "" None));
    match l with
    | Err err => mret (Err err)
    | Ok (objs, _) =>
      let n := Z.of_nat (length objs) in
      if bool_decide (n = 0) then mret (Err ErrNoMessages)
      else
        start ← trigger (ORandN (n `min` queueJitterWindow));
        receive_loop q owner objs start (seqZ 0 n)
    end
  end.

Definition TryReceive (q : Queue) : prog (result Message) := tryReceive q.

(** The loop of [Receive]; the fuel bounds the attempts, [None] is running out. *)
Fixpoint receiveLoop (fuel : nat) (q : Queue) (backoff : Z) : prog (option (result Message)) :=
  match fuel with
  | O => mret None
  | S fuel =>
    r ← tryReceive q;
    match r with
    | Ok msg => mret (Some (Ok msg))
    | Err err =>
      if negb (Is err ErrNoMessages) then mret (Some (Err err))
      else
        d ← queueJitter backoff;
        w ← trigger (OSleep d);
        match w with
        | Some cerr => mret (Some (Err cerr))
        | None =>
          receiveLoop fuel q
            (if bool_decide (backoff < q_maxPoll q) then wrap64 (backoff * 2) `min` q_maxPoll q else backoff)
        end
    end
  end.

Definition Receive (fuel : nat) (q : Queue) : prog (option (result Message)) :=
  receiveLoop fuel q (q_minPoll q).

(** ** Operations of a claimed message *)

Definition Body (m : Message) : prog (result source) := trigger (ONewReader (q_bucket (m_queue m)) (m_msgPath m)).
Definition ReadAll (m : Message) : prog (result bytes) := trigger (OReadAll (q_bucket (m_queue m)) (m_msgPath m)).

(** [Ack] once the renewer has exited. *)
Definition ack_record (m : Message) : prog (option error) :=
  let q := m_queue m in
  rec ← getLease q (m_leasePath m);
  match rec with
  | Err err => if Is err ErrNotFound then mret None else mret (Some err)
  | Ok (fields, version) =>
    if negb (bool_decide (Locker.owner_of fields = m_owner m)) then mret None
    else
      d ← trigger (ODelete (q_bucket q) (m_leasePath m) [Some (IfMatch version)]);
      match d with
      | Err err =>
        if Is err ErrPreconditionFailed || Is err ErrNotFound then mret None else mret (Some err)
      | Ok _ =>
        d' ← trigger (ODelete (q_bucket q) (m_msgPath m) []);
        match d' with
        | Err err => if negb (Is err ErrNotFound) then mret (Some err) else mret None
        | Ok _ => mret None
        end
      end
  end.

Definition Ack (m : Message) : prog (Message * option error) :=
  match settle m with
  | (m, false) => mret (m, None)
  | (m, true) =>
    let m := finish None (set_stopped m) in
    r ← ack_record m;
    mret (m, r)
  end.

(** The metadata [Nack] writes: the lease ends now, the count is kept. *)
Definition nack_fields (m : Message) (now : Z) (fields : metadata) : metadata :=
  Some (<[queueOwnerField := m_owner m]> (<[queueLeaseField := Format now]>
    (<[queueReceivesField := Itoa (queueParseReceives fields)]> ∅))).

Definition nack_record (m : Message) : prog (option error) :=
  let q := m_queue m in
  rec ← getLease q (m_leasePath m);
  match rec with
  | Err err => if Is err ErrNotFound then mret None else mret (Some err)
  | Ok (fields, version) =>
    if negb (bool_decide (Locker.owner_of fields = m_owner m)) then mret None
    else
      now ← trigger ONow;
      r ← trigger (OWriteAll (q_bucket q) (m_leasePath m) "" (Locker.record_options (nack_fields m now fields))
                     [Some (IfMatch version)]);
      match r with
      | Err err =>
        if Is err ErrPreconditionFailed || Is err ErrNotFound then mret None else mret (Some err)
      | Ok _ => mret None
      end
  end.

Definition Nack (m : Message) : prog (Message * option error) :=
  match settle m with
  | (m, false) => mret (m, None)
  | (m, true) =>
    let m := finish None (set_stopped m) in
    r ← nack_record m;
    mret (m, r)
  end.

Definition renewOnce (m : Message) (now : Z) : prog (Message * option error) :=
  let q := m_queue m in
  u ← writeLease q (m_leasePath m) (m_owner m) now (m_receives m) (IfMatch (m_version m));
  match u with
  | Err e => mret (m, Some e)
  | Ok newVersion => mret (renewed newVersion (now + q_lease q) m, None)
  end.

(** One round of the renewer, after the ticker fired. *)
Definition renewTick (m : Message) : prog (Message * bool) :=
  now ← trigger ONow;
  if negb (Before now (m_leaseUntil m)) then mret (finish (Some ErrMessageLost) m, false)
  else
    r ← renewOnce m now;
    match r with
    | (m', Some err) =>
      if Is err ErrPreconditionFailed || Is err ErrNotFound
      then mret (finish (Some ErrMessageLost) m', false)
      else mret (m', true)
    | (m', None) => mret (m', true)
    end.

Fixpoint renewLoop (fuel : nat) (m : Message) : prog Message :=
  match fuel with
  | O => mret m
  | S fuel =>
    t ← trigger (OTick (q_renew (m_queue m)));
    if (t : bool) then
      r ← renewTick m;
      match r with
      | (m', true) => renewLoop fuel m'
      | (m', false) => mret (set_stopped m')
      end
    else mret (set_stopped m)
  end.

End timed.

(** ** Retention *)

(** How the scan of one page ends: the sweep returns, or goes on. *)
Inductive sweep :=
| SweepReturn (removed : Z) (err : option error)
| SweepNext (removed budget : Z).

Fixpoint sweep_page (q : Queue) (prefix : string) (horizon : Z) (paired : bool) (objs : list ListObject)
    (removed budget : Z) : prog sweep :=
  match objs with
  | [] => mret (SweepNext removed budget)
  | obj :: objs =>
    match CutPrefix (lo_Key obj) prefix with
    | None => sweep_page q prefix horizon paired objs removed budget
    | Some id =>
      if bool_decide (id = "") then sweep_page q prefix horizon paired objs removed budget
      else
        match queueIDTime id with
        | None => sweep_page q prefix horizon paired objs removed budget
        | Some ts =>
          if negb (Before ts horizon) then mret (SweepReturn removed None)
          else
            d ← trigger (ODelete (q_bucket q) (lo_Key obj) []);
            match delete_failed d with
            | Some err => mret (SweepReturn removed (Some err))
            | None =>
              d' ← (if paired then trigger (ODelete (q_bucket q) (queueLeasePrefix +:+ id) []) else mret (Ok tt));
              match delete_failed d' with
              | Some err => mret (SweepReturn removed (Some err))
              | None =>
                if bool_decide (budget - 1 = 0) then mret (SweepReturn (removed + 1) None)
                else sweep_page q prefix horizon paired objs (removed + 1) (budget - 1)
              end
            end
        end
    end
  end.

(** [trimSweep]'s loop over the pages; the fuel bounds the pages, [None] is
    running out. *)
Fixpoint trimSweep (fuel : nat) (q : Queue) (prefix : string) (horizon : Z) (paired : bool) (token : bytes)
    (removed budget : Z) : prog (option (Z * option error)) :=
  match fuel with
  | O => mret None
  | S fuel =>
    if negb (bool_decide (0 < budget)) then mret (Some (removed, None))
    else
      l ← trigger (OListPage (q_bucket q) token 1000 (mkListOptions prefix "" None));
      match l with
      | Err err => mret (Some (removed, Some err))
      | Ok (objs, next) =>
        s ← sweep_page q prefix horizon paired objs removed budget;
        match s with
        | SweepReturn removed err => mret (Some (removed, err))
        | SweepNext removed budget =>
          if bool_decide (strlen next = 0) then mret (Some (removed, None))
          else trimSweep fuel q prefix horizon paired next removed budget
        end
      end
  end.

Definition Trim (fuel : nat) (q : Queue) : prog (option (Z * option error)) :=
  if bool_decide (q_retention q ≤ 0) then mret (Some (0, Some ErrInvalidOption))
  else
    now ← trigger ONow;
    let horizon := now + - q_retention q in
    s ← trimSweep fuel q queueMsgPrefix horizon true FirstPageToken 0 DefaultTrimBatch;
    match s with
    | None => mret None
    | Some (removed, Some err) => mret (Some (removed, Some err))
    | Some (removed, None) =>
      if bool_decide (DefaultTrimBatch ≤ removed) then mret (Some (removed, None))
      else
        s' ← trimSweep fuel q queueLeasePrefix horizon false FirstPageToken 0 (DefaultTrimBatch - removed);
        match s' with
        | None => mret None
        | Some (swept, err) => mret (Some (removed + swept, err))
        end
    end.

End Queue.
