(* ===== verification/QueueTheorems.v ===== *)
(** * What the queue guarantees

    Message ids, configuration, and what holds of the operations under every
    answer of every store; then the operations run in sequence against the
    in-memory driver. *)
From S2P Require Import Prelude Strconv GoTime Md5 Core Effects Store MemDriver MemStore Locker MemRun Queue.

Import Queue.

(** ** Ids *)

Lemma digit_not_dash d : 0 ≤ d < 10 → digit d ≠ "-"%char.
Proof. intros Hd E. apply digit_val_digit in Hd. by rewrite E in Hd. Qed.

Lemma digit_byte d : 0 ≤ d < 10 → (48 ≤ Ascii.N_of_ascii (digit d) ≤ 57)%N.
Proof.
  intros Hd%digit_val_digit. unfold digit_val in Hd. case_bool_decide; [lia|done].
Qed.

Lemma Index_skip c s : c ≠ "-"%char → Index (String c s) "-" = S <$> Index s "-".
Proof. intros Hc. cbn. unfold HasPrefix. cbn. rewrite decide_False by congruence. done. Qed.

Lemma dec_digits_Index w n rest : Index (dec_digits w n +:+ "-" +:+ rest) "-" = Some w.
Proof.
  induction w as [|w IH]; [by destruct rest|].
  change (dec_digits (S w) n +:+ "-" +:+ rest)
    with (String (digit ((n `div` 10 ^ Z.of_nat w) `mod` 10)) (dec_digits w n +:+ "-" +:+ rest)).
  rewrite Index_skip, IH; [done|]. by apply digit_not_dash, Z.mod_pos_bound.
Qed.

Lemma dec_digits_Cut w n rest : Cut (dec_digits w n +:+ "-" +:+ rest) "-" = (dec_digits w n, true).
Proof.
  unfold Cut. rewrite dec_digits_Index. f_equal.
  rewrite <- (dec_digits_length w n) at 1. apply str_take_app.
Qed.

Lemma dec_digits_bytes w n : all_digit_bytes (dec_digits w n) = true.
Proof.
  unfold all_digit_bytes. induction w as [|w IH]; [done|]. cbn -[Z.pow Z.div].
  rewrite bool_decide_true; [exact IH|]. apply digit_byte, Z.mod_pos_bound. lia.
Qed.

(** Instants whose epoch milliseconds have at most 13 digits: until 2286. *)
Definition id_range (t : Z) : Prop := 0 ≤ UnixMilli t < 10 ^ 13.

(** The id of a message carries its enqueue time: what is read back from it
    is the clock's reading, to the millisecond. *)
Theorem queue_id_time_roundtrip now uuid :
  id_range now → queueIDTime (newQueueID now uuid) = Some (now - now `mod` Millisecond).
Proof.
  intros Hr. unfold queueIDTime, newQueueID. rewrite fmt013_digits by done.
  rewrite dec_digits_Cut. unfold strlen. rewrite dec_digits_length, bool_decide_true, dec_digits_bytes by done.
  cbn [negb orb]. change (parse_nat (dec_digits 13 ?m)) with (parse_digits 0 (dec_digits 13 m)).
  rewrite parse_dec_digits, Z.mul_0_l, Z.mod_small by exact Hr.
  unfold time_UnixMilli, UnixMilli. f_equal. rewrite Z.mod_eq by done. lia.
Qed.

(** Ids sort by enqueue time: of two messages enqueued in different
    milliseconds, whichever hosts made them, the earlier sorts first. *)
Theorem queue_ids_sorted_by_time t t' u u' :
  id_range t → id_range t' → UnixMilli t < UnixMilli t' → str_lt (newQueueID t u) (newQueueID t' u').
Proof.
  intros Ht Ht' Hlt. unfold newQueueID. rewrite !fmt013_digits by done.
  destruct Ht, Ht'. apply dec_digits_lt; [lia|done].
Qed.

(** ** Configuration *)

(** A queue that is built has a positive lease, renewal interval and poll
    interval, a window and limits in range, and a prefix that ends with a slash
    and cannot escape; one that cannot be built reports an invalid prefix. *)
Theorem queue_config_valid b prefix opts :
  match NewQueue b prefix opts with
  | Ok q => 0 < q_lease q ∧ 0 < q_renew q ∧ 0 < q_headWindow q ∧ 0 < q_minPoll q ≤ q_maxPoll q ∧
      0 ≤ q_maxReceives q ∧ 0 ≤ q_retention q ∧
      HasSuffix (q_prefix q) "/" = true ∧ q_bucket q = h_Sub b (q_prefix q) ∧
      (q_prefix q = prefix ∨ q_prefix q = prefix +:+ "/") ∧
      HasPrefix prefix "/" = false ∧ Contains prefix ".." = false
  | Err e => e = ErrInvalidQueuePrefix ∧ (prefix = "" ∨ HasPrefix prefix "/" = true ∨ Contains prefix ".." = true)
  end.
Proof.
  unfold NewQueue. case_bool_decide as Hne; [by split; auto|].
  destruct (HasPrefix prefix "/") eqn:Hp; [by split; auto|].
  destruct (Contains prefix "..") eqn:Hc; [by split; auto|]. cbn [orb].
  set (pre := if HasSuffix prefix "/" then prefix else prefix +:+ "/").
  assert (HasSuffix pre "/" = true ∧ (pre = prefix ∨ pre = prefix +:+ "/")) as [Hsuf Hpre].
  { unfold pre. destruct (HasSuffix prefix "/") eqn:Hs; [by split; auto|].
    split; [|by right]. apply HasSuffix_spec. by exists prefix. }
  set (q0 := mkQueue _ _ _ _ _ _ _ _ _).
  assert (q_prefix q0 = pre ∧ q_bucket q0 = h_Sub b pre) as H0 by done. clearbody q0. revert q0 H0.
  induction opts as [|opt opts IH]; intros q0 [Hq Hb]; cbn [fold_left].
  - unfold normalize. cbn [q_lease q_renew q_headWindow q_minPoll q_maxPoll q_maxReceives q_retention q_prefix q_bucket].
    rewrite Hq, Hb. unfold DefaultVisibilityLease, DefaultHeadWindow, DefaultMinPollInterval, Second, Millisecond.
    split_and!; try done; repeat case_bool_decide; lia.
  - apply IH. by destruct opt.
Qed.

(** ** Under every answer *)

Lemma queueParseReceives_nonneg f : 0 ≤ queueParseReceives f.
Proof. unfold queueParseReceives. destruct (Atoi _); [case_bool_decide; lia|done]. Qed.

Section every.
Context `{TT : TimeText}.

Lemma claimed_receives q id owner now receives v m :
  returns (claimed q id owner now receives v) (Ok (Some m)) → m_receives m = receives.
Proof.
  unfold claimed. rewrite returns_bind. intros ([a|err] & _ & Hr).
  - injection Hr as <-. done.
  - destruct (Is err ErrNotFound); [|done]. rewrite returns_bind in Hr. by destruct Hr as (? & _ & ?).
Qed.

(** C20: the delivery count a claim hands out is at least one and at most the
    bound of [WithMaxReceives], whatever the lease records hold and whoever else
    moves them.  It is the count of the lease record: a message whose lease record
    is lost is counted from one again. *)
Theorem queue_max_receives q id owner m :
  0 < q_maxReceives q ≤ int64_max → returns (tryClaim q id owner) (Ok (Some m)) →
  1 ≤ m_receives m ≤ q_maxReceives q.
Proof.
  intros Hmax. unfold tryClaim. rewrite returns_bind. intros ([[f v]|err] & _ & Hr);
    rewrite returns_bind in Hr; destruct Hr as (now & _ & Hr).
  - destruct (queueLeaseExpired f now); cbn [negb] in Hr; [|done].
    pose proof (queueParseReceives_nonneg f) as Hpos.
    rewrite bool_decide_true in Hr by lia. cbn [andb] in Hr. case_bool_decide as Hlim.
    + rewrite returns_bind in Hr. destruct Hr as ([h|e] & _ & Hr); [|by destruct (_ || _)].
      rewrite returns_bind in Hr. destruct Hr as ([|e] & _ & Hr); done.
    + rewrite returns_bind in Hr. destruct Hr as ([v'|e] & _ & Hr); [|by destruct (_ || _)].
      apply claimed_receives in Hr as ->. unfold int64_max in *. rewrite wrap64_id; unfold int64_min, int64_max; lia.
  - destruct (Is err ErrNotFound); [|done]. rewrite returns_bind in Hr.
    destruct Hr as ([v|e] & _ & Hr); [|by destruct (Is e _)].
    apply claimed_receives in Hr as ->. lia.
Qed.

End every.

(** ** Retention *)

(** A page of the sweep keeps count: what it has removed and what is left of
    the budget add up. *)
Lemma sweep_page_count q prefix horizon paired objs removed budget s :
  0 < budget → returns (sweep_page q prefix horizon paired objs removed budget) s →
  match s with
  | SweepReturn r _ => removed ≤ r ≤ removed + budget
  | SweepNext r b => removed ≤ r ∧ r + b = removed + budget ∧ 0 < b
  end.
Proof.
  revert removed budget. induction objs as [|obj objs IH]; intros removed budget Hb; cbn [sweep_page].
  { intros <-. lia. }
  destruct (CutPrefix (lo_Key obj) prefix) as [id|]; [|by apply IH].
  case_bool_decide; [by apply IH|].
  destruct (queueIDTime id) as [ts|]; [|by apply IH].
  destruct (Before ts horizon); cbn [negb]; [|intros <-; lia].
  rewrite returns_bind. intros (d & _ & Hr).
  destruct (delete_failed d); [cbn in Hr; subst s; lia|].
  rewrite returns_bind in Hr. destruct Hr as (d' & _ & Hr).
  destruct (delete_failed d'); [cbn in Hr; subst s; lia|].
  case_bool_decide; [cbn in Hr; subst s; lia|].
  apply IH in Hr; [|lia]. destruct s; lia.
Qed.

Lemma trimSweep_count fuel q prefix horizon paired token removed budget r err :
  0 ≤ budget → returns (trimSweep fuel q prefix horizon paired token removed budget) (Some (r, err)) →
  removed ≤ r ≤ removed + budget.
Proof.
  revert token removed budget. induction fuel as [|fuel IH]; intros token removed budget Hb; cbn [trimSweep]; [done|].
  case_bool_decide; cbn [negb]; [|intros [= <- <-]; lia].
  rewrite returns_bind. intros ([[objs next]|e] & _ & Hr); [|injection Hr as <- <-; lia].
  rewrite returns_bind in Hr. destruct Hr as (s & Hs & Hr).
  apply sweep_page_count in Hs; [|done]. destruct s as [r' e|r' b']; [injection Hr as <- <-; lia|].
  case_bool_decide; [injection Hr as <- <-; lia|]. apply IH in Hr; lia.
Qed.

(** One pass of [Trim] removes at most [DefaultTrimBatch] entries, both of
    its sweeps counted, under every answer of the store. *)
Theorem queue_trim_bounded fuel q n err :
  returns (Trim fuel q) (Some (n, err)) → 0 ≤ n ≤ DefaultTrimBatch.
Proof.
  unfold Trim. case_bool_decide; [intros [= <- <-]; by unfold DefaultTrimBatch; lia|].
  rewrite returns_bind. intros (now & _ & Hr). rewrite returns_bind in Hr.
  destruct Hr as ([[r [e|]]|] & Hs & Hr); [| |done]; apply trimSweep_count in Hs; try done.
  - injection Hr as <- <-. lia.
  - case_bool_decide; [injection Hr as <- <-; lia|]. rewrite returns_bind in Hr.
    destruct Hr as ([[r' e]|] & Hs' & Hr); [|done]. apply trimSweep_count in Hs'; [|lia].
    injection Hr as <- <-. lia.
Qed.

(** What a sweep may delete: an entry of its prefix stamped before the horizon,
    and, when leases are paired, that entry's lease record. *)
Definition sweepable (q : Queue) (prefix : string) (horizon : Z) (paired : bool) (o : op) : Prop :=
  match o with
  | ODelete b k pre => b = q_bucket q ∧ pre = [] ∧ ∃ id ts, queueIDTime id = Some ts ∧ ts < horizon ∧
      (k = prefix +:+ id ∨ paired = true ∧ k = queueLeasePrefix +:+ id)
  | OListPage b _ _ _ => b = q_bucket q
  | _ => False
  end.

Lemma sweep_page_emits q prefix horizon paired objs removed budget o :
  emits (sweep_page q prefix horizon paired objs removed budget) o → sweepable q prefix horizon paired o.
Proof.
  revert removed budget. induction objs as [|obj objs IH]; intros removed budget; cbn [sweep_page]; [done|].
  destruct (CutPrefix (lo_Key obj) prefix) as [id|] eqn:Hcut; [|by apply IH].
  case_bool_decide; [by apply IH|].
  destruct (queueIDTime id) as [ts|] eqn:Hts; [|by apply IH].
  destruct (Before ts horizon) eqn:Hb; cbn [negb]; [|done]. apply bool_decide_eq_true in Hb.
  apply CutPrefix_Some in Hcut. rewrite emits_bind. intros [[<-|[? []]]|(d & _ & Hr)].
  { cbn. split_and!; [done..|]. exists id, ts. auto. }
  destruct (delete_failed d); [done|]. rewrite emits_bind in Hr. destruct Hr as [Hr|(d' & _ & Hr)].
  { destruct paired; [|done]. destruct Hr as [<-|[? []]]. cbn. split_and!; [done..|]. exists id, ts. auto. }
  destruct (delete_failed d'); [done|]. case_bool_decide; [done|]. by eapply IH.
Qed.

(** C38: retention deletes nothing younger than its horizon and nothing without a
    timestamp: every call of a sweep is a listing of the queue's own bucket, or
    the deletion of an entry whose id is stamped before the horizon (or of that
    entry's lease), under every answer of the store. *)
Theorem queue_trim_only_expired fuel q prefix horizon paired token removed budget o :
  emits (trimSweep fuel q prefix horizon paired token removed budget) o → sweepable q prefix horizon paired o.
Proof.
  revert token removed budget. induction fuel as [|fuel IH]; intros token removed budget; cbn [trimSweep]; [done|].
  destruct (negb _); [done|]. rewrite emits_bind. intros [[<-|[? []]]|([[objs next]|e] & _ & Hr)]; [done| |done].
  rewrite emits_bind in Hr. destruct Hr as [Hr|(s & _ & Hr)]; [by eapply sweep_page_emits|].
  destruct s as [r e|r b]; [done|]. destruct (bool_decide _); [done|]. by eapply IH.
Qed.

(** ** The operations in sequence, on the in-memory driver *)

Section sequential.
Context `{GT : GoTables} `{TT : TimeText}.

Lemma Normalize_fields owner lease receives :
  let md := Some (<[queueOwnerField := owner]> (<[queueLeaseField := lease]>
              (<[queueReceivesField := receives]> ∅))) in
  NormalizeMetadata md = Ok md.
Proof.
  apply NormalizeMetadata_lower. intros k [x Hx].
  assert (k = queueOwnerField ∨ k = queueLeaseField ∨ k = queueReceivesField) as [-> | [-> | ->]].
  { rewrite !lookup_insert_Some, lookup_empty in Hx. naive_solver. }
  all: split; [done|vm_compute; reflexivity].
Qed.

(** A create-only or unconditional stream of a source that does not fail. *)
Lemma run_copy_and_close {R} (f : result unit → prog R) b key opts c r envs w :
  (∀ i, calm (envs i)) → s_err r = None → o_ContentMD5 opts = "" →
  ∃ o, stored (s_bytes r) (o_Metadata opts) (w (h_store b)) o ∧
  run exec (copy_and_close (mkStream b key opts c "" false) r ≫= f) envs w =
  if holds c (version_at (abs (w (h_store b))) (h_key b key))
  then run exec (f (Ok tt)) (fun i => envs (2 + i)%nat) (wrote b key o w)
  else run exec (f (Err ErrPreconditionFailed)) (fun i => envs (2 + i)%nat) (untouched b w).
Proof.
  intros He Hr Hm. unfold copy_and_close.
  destruct (calm_ReadFrom (envs 0%nat) (mkStream b key opts c "" false) r w (He 0%nat) eq_refl Hr) as [m Hx].
  set (sw := mkStream b key opts c ("" +:+ s_bytes r) false).
  destruct (calm_CloseStream (envs 1%nat) sw w (He 1%nat) eq_refl Hm) as (o & sw' & Ho & Hy).
  exists o. split; [exact Ho|]. cbn. rewrite Hx. cbn. fold sw. rewrite Hy. cbn.
  by destruct (holds _ _).
Qed.

Lemma run_writePayload {R} (f : result unit → prog R) q id r attrs md envs w :
  (∀ i, calm (envs i)) → s_err r = None → NormalizeMetadata attrs = Ok md →
  let b := q_bucket q in let key := queueMsgPrefix +:+ id in
  ∃ o, stored (s_bytes r) md (w (h_store b)) o ∧
  run exec (writePayload q id r attrs ≫= f) envs w =
  match obj w b key with
  | None => run exec (f (Ok tt)) (fun i => envs (3 + i)%nat) (wrote b key o w)
  | Some _ => run exec (f (Err ErrPreconditionFailed)) (fun i => envs (3 + i)%nat) (untouched b w)
  end.
Proof.
  intros He Hr Hmd b key. unfold writePayload. rewrite run_bind_assoc. cbn [trigger mbind prog_mbind prog_bind run].
  pose proof (calm_NewWriter (envs 0%nat) b key (payload_options attrs) [Some IfNotExists] _ md w eq_refl Hmd compile_IfNotExists) as Hn.
  unfold b, key in Hn. rewrite Hn. fold b key.
  destruct (run_copy_and_close f b key (set_o_Metadata md (payload_options attrs)) (mkPreconditions true "" "") r
    (fun i => envs (1 + i)%nat) w (fun i => He _) Hr eq_refl) as (o & Ho & Hx).
  exists o. split; [exact Ho|]. cbn [mbind prog_mbind prog_bind]. etrans; [exact Hx|].
  destruct (obj w b key) eqn:Hobj; [rewrite holds_present by (by rewrite Hobj)|rewrite holds_absent by done]; done.
Qed.

(** C31: re-enqueuing under the same id is a no-op.  The first call stores the
    payload and its attributes and reports a new message; a second one, with
    any payload, reports that the message exists and changes nothing. *)
Theorem queue_enqueue_idempotent q id r r' attrs md attrs' envs w :
  (∀ i, calm (envs i)) → validateQueueMessageID id = None → s_err r = None → s_err r' = None →
  NormalizeMetadata attrs = Ok md → is_Ok (NormalizeMetadata attrs') = true →
  let b := q_bucket q in let key := queueMsgPrefix +:+ id in
  obj w b key = None →
  ∃ o w', stored (s_bytes r) md (w (h_store b)) o ∧
    run exec (EnqueueWithID q id r attrs) envs w = (Some (Ok false), wrote b key o w) ∧
    run exec (EnqueueWithID q id r' attrs') envs (wrote b key o w) = (Some (Ok true), w') ∧
    ∀ n, w' n = wrote b key o w n.
Proof.
  intros He Hv Hr Hr' Hmd Hmd' b key Hnew. unfold EnqueueWithID. rewrite Hv.
  destruct (run_writePayload (λ e, match e with
    | Ok _ => mret (Ok false)
    | Err err => if Is err ErrPreconditionFailed then mret (Ok true) else mret (Err err) end)
    q id r attrs md envs w He Hr Hmd) as (o & Ho & Hx).
  fold b key in Hx. rewrite Hnew in Hx.
  destruct (NormalizeMetadata attrs') as [md'|] eqn:Hmd2; [|done].
  destruct (run_writePayload (λ e, match e with
    | Ok _ => mret (Ok false)
    | Err err => if Is err ErrPreconditionFailed then mret (Ok true) else mret (Err err) end)
    q id r' attrs' md' envs (wrote b key o w) He Hr' Hmd2) as (o' & _ & Hy).
  fold b key in Hy. rewrite obj_wrote, decide_True in Hy by done.
  exists o, (untouched b (wrote b key o w)). split; [exact Ho|]. split; [exact Hx|].
  split; [|apply untouched_eq]. etrans; [exact Hy|]. cbn. by rewrite Is_refl.
Qed.

(** *** Claims *)

Definition at_bucket (b : Handle) : Locker.Locker := Locker.mkLocker b "" 0 0 0.

(** The lease's read and write are the lock's, on the queue's bucket. *)
Lemma getLease_record q path : getLease q path = Locker.getRecord (at_bucket (q_bucket q)) path.
Proof. done. Qed.

Lemma run_writeLease {R} (f : result string → prog R) q path owner now receives pre c envs w :
  (∀ i, calm (envs i)) → CompilePreconditions [Some pre] = Ok c →
  let b := q_bucket q in
  holds c (version_at (abs (w (h_store b))) (h_key b path)) = true →
  ∃ o, stored "" (leaseRecord q owner now receives) (w (h_store b)) o ∧
  run exec (writeLease q path owner now receives pre ≫= f) envs w =
  run exec (f (Ok (a_Version (Mem.attrs o)))) (fun i => envs (2 + i)%nat) (wrote b path o w).
Proof.
  intros He Hc b Hh.
  destruct (run_writeRecord envs He f (at_bucket b) path (leaseRecord q owner now receives) pre c w
    (Normalize_fields _ _ _) Hc) as (o & Ho & Hx).
  cbn [at_bucket Locker.bucket] in Ho, Hx. rewrite Hh in Hx. exists o. split; [exact Ho|exact Hx].
Qed.

Lemma keys_apart id id' :
  queueMsgPrefix +:+ id ≠ queueLeasePrefix +:+ id' ∧ queueDeadPrefix +:+ id ≠ queueLeasePrefix +:+ id' ∧
  queueDeadPrefix +:+ id ≠ queueMsgPrefix +:+ id'.
Proof. split_and!; by intros [=]. Qed.

(** The end of a claim, over a payload that is there. *)
Lemma run_claimed q id owner now receives v pl envs w :
  (∀ i, calm (envs i)) → obj w (q_bucket q) (queueMsgPrefix +:+ id) = Some pl →
  run exec (claimed q id owner now receives v) envs w =
  (Some (Ok (Some (startMessage q id (queueMsgPrefix +:+ id) (queueLeasePrefix +:+ id) owner
     (a_Metadata (Mem.attrs pl)) receives v (now + q_lease q)))), w).
Proof. intros He Hpl. unfold claimed. by rewrite (run_attributes _ He), Hpl. Qed.

(** The delivery count a claim gives: one for a message without a lease record,
    one more than the record's otherwise. *)
Definition delivery (lease : option Mem.object) : Z :=
  match lease with
  | None => 1
  | Some o => wrap64 (queueParseReceives (a_Metadata (Mem.attrs o)) + 1)
  end.

Definition claimable (q : Queue) (lease : option Mem.object) (now : Z) : bool :=
  match lease with
  | None => true
  | Some o => queueLeaseExpired (a_Metadata (Mem.attrs o)) now
  end.

Definition exhausted (q : Queue) (lease : option Mem.object) : bool :=
  match lease with
  | None => false
  | Some o => bool_decide (0 < q_maxReceives q ≤ queueParseReceives (a_Metadata (Mem.attrs o)))
  end.

Lemma tryClaim_run q id owner pl envs w :
  (∀ i, calm (envs i)) → let b := q_bucket q in Mem.wf (w (h_store b)) →
  obj w b (queueMsgPrefix +:+ id) = Some pl →
  let leasePath := queueLeasePrefix +:+ id in let lease := obj w b leasePath in
  let now := e_clock (envs 1%nat) in
  exhausted q lease = false →
  if claimable q lease now
  then ∃ o, stored "" (leaseRecord q owner now (delivery lease)) (w (h_store b)) o ∧
    run exec (tryClaim q id owner) envs w =
    (Some (Ok (Some (startMessage q id (queueMsgPrefix +:+ id) leasePath owner (a_Metadata (Mem.attrs pl))
       (delivery lease) (a_Version (Mem.attrs o)) (now + q_lease q)))), wrote b leasePath o w)
  else run exec (tryClaim q id owner) envs w = (Some (Ok None), w).
Proof.
  intros He b Hwf Hpl leasePath lease now Hex. unfold tryClaim.
  rewrite getLease_record, (run_readRecord _ He), run_now. change (e_clock (envs (1 + 0)%nat)) with now.
  cbn [at_bucket Locker.bucket]. fold b leasePath lease.
  assert (∀ o, obj (wrote b leasePath o w) b (queueMsgPrefix +:+ id) = Some pl) as Hpl'.
  { intros o. rewrite obj_wrote, decide_False; [done|]. apply keys_apart. }
  destruct lease as [lo|] eqn:Hlease; cbn [exhausted claimable delivery] in *.
  - destruct (queueLeaseExpired _ now) eqn:Hexp; cbn [negb]; [|done].
    apply bool_decide_eq_false in Hex.
    assert (bool_decide (0 < q_maxReceives q) &&
      bool_decide (q_maxReceives q ≤ queueParseReceives (a_Metadata (Mem.attrs lo))) = false) as ->.
    { apply andb_false_iff. rewrite !bool_decide_eq_false. lia. }
    match goal with |- context [run exec (writeLease _ _ _ _ ?rc _ ≫= ?f)] =>
      destruct (run_writeLease f q leasePath owner now rc _ _ (fun i => envs (2 + i)%nat) w (fun i => He _)
        (compile_IfMatch (a_Version (Mem.attrs lo)))) as (o & Ho & Hx) end; [by apply holds_current|].
    exists o. split; [exact Ho|]. etrans; [exact Hx|]. by apply run_claimed.
  - rewrite Is_refl.
    match goal with |- context [run exec (writeLease _ _ _ _ ?rc _ ≫= ?f)] =>
      destruct (run_writeLease f q leasePath owner now rc _ _ (fun i => envs (2 + i)%nat) w (fun i => He _)
        compile_IfNotExists) as (o & Ho & Hx) end; [by apply holds_absent|].
    exists o. split; [exact Ho|]. etrans; [exact Hx|]. by apply run_claimed.
Qed.

(** *** Dead letters *)

(** Metadata whose names are lower case: what a backend gives back. *)
Definition lower_names (md : metadata) : Prop :=
  ∀ m k, md = Some m → is_Some (m !! k) → k ≠ "" ∧ ToLower k = k.

Definition dead_metadata (md : metadata) (receives : Z) : metadata :=
  Some (<[queueReceivesField := Itoa receives]> (default ∅ md)).

Lemma Normalize_dead md receives :
  lower_names md → NormalizeMetadata (dead_metadata md receives) = Ok (dead_metadata md receives).
Proof.
  intros Hl. apply NormalizeMetadata_lower. intros k [x [[<- _]|[_ Hx]]%lookup_insert_Some].
  - split; [done|vm_compute; reflexivity].
  - destruct md as [m|]; [|cbn in Hx; by rewrite lookup_empty in Hx]. by eapply (Hl m).
Qed.

(** The payload is streamed into the dead record. *)
Lemma run_writeDeadRecord {R} (f : result unit → prog R) q id pl receives envs w :
  (∀ i, calm (envs i)) → let b := q_bucket q in
  obj w b (queueMsgPrefix +:+ id) = Some pl → lower_names (a_Metadata (Mem.attrs pl)) →
  ∃ o, stored (Mem.data pl) (dead_metadata (a_Metadata (Mem.attrs pl)) receives) (w (h_store b)) o ∧
  run exec (writeDeadRecord q id (a_Metadata (Mem.attrs pl)) receives ≫= f) envs w =
  run exec (f (Ok tt)) (fun i => envs (4 + i)%nat) (wrote b (queueDeadPrefix +:+ id) o w).
Proof.
  intros He b Hpl Hlow. unfold writeDeadRecord. rewrite run_bind_assoc, (run_reader _ He _ _ _ pl) by done.
  blob_simpl. fold (dead_metadata (a_Metadata (Mem.attrs pl)) receives). fold b.
  set (md := dead_metadata _ _). set (key := queueDeadPrefix +:+ id).
  pose proof (calm_NewWriter (envs 1%nat) b key (payload_options md) [] _ md w eq_refl (Normalize_dead _ _ Hlow) compile_nil) as Hn.
  rewrite run_bind_assoc. cbn [trigger mbind prog_mbind prog_bind run Nat.add]. rewrite Hn.
  destruct (run_copy_and_close f b key (set_o_Metadata md (payload_options md)) zeroPreconditions (mkSource (Mem.data pl) None)
    (fun i => envs (2 + i)%nat) w (fun i => He _) eq_refl eq_refl) as (o & Ho & Hx).
  exists o. split; [exact Ho|]. exact Hx.
Qed.

(** The live message is removed, payload first. *)
Lemma run_remove_live {R} (f : result unit → prog R) q id pl lo envs w :
  (∀ i, calm (envs i)) → let b := q_bucket q in Mem.wf (w (h_store b)) →
  let msg := queueMsgPrefix +:+ id in let lease := queueLeasePrefix +:+ id in
  obj w b msg = Some pl → obj w b lease = Some lo →
  run exec (remove_live q id (a_Version (Mem.attrs lo)) ≫= f) envs w =
  run exec (f (Ok tt)) (fun i => envs (2 + i)%nat) (removed b lease (removed b msg w)).
Proof.
  intros He b Hwf msg lease Hpl Hlo. unfold remove_live.
  rewrite run_bind_assoc, (run_delete _ He _ _ _ pl) by done. cbn [delete_failed].
  rewrite run_bind_assoc, (run_delete_read _ (fun i => He _) _ _ _ lo); [done|by apply wf_removed|].
  rewrite obj_removed, decide_False; [done|]. intros E. symmetry in E. by apply keys_apart in E.
Qed.

Lemma run_deadLetter {R} (f : result unit → prog R) q id pl lo n envs w :
  (∀ i, calm (envs i)) → let b := q_bucket q in
  Mem.wf (w (h_store b)) → Mem.nextVersion (w (h_store b)) + 1 < 2 ^ 64 →
  let msg := queueMsgPrefix +:+ id in let lease := queueLeasePrefix +:+ id in
  let dead := queueDeadPrefix +:+ id in
  obj w b msg = Some pl → lower_names (a_Metadata (Mem.attrs pl)) → obj w b lease = Some lo →
  ∃ o, stored (Mem.data pl) (dead_metadata (a_Metadata (Mem.attrs pl)) n) (w (h_store b)) o ∧
  run exec (deadLetter q id n (a_Version (Mem.attrs lo)) ≫= f) envs w =
  run exec (f (Ok tt)) (fun i => envs (7 + i)%nat) (removed b lease (removed b msg (wrote b dead o w))).
Proof.
  intros He b Hwf Hlt msg lease dead Hpl Hlow Hlo. unfold deadLetter.
  rewrite run_bind_assoc, (run_attributes _ He). fold b msg. rewrite Hpl, run_bind_assoc.
  destruct (run_writeDeadRecord (λ d, match d with
      | Ok _ => remove_live q id (a_Version (Mem.attrs lo)) | Err err => mret (Err err) end ≫= f)
    q id pl n (fun i => envs (1 + i)%nat) w (fun i => He _) Hpl Hlow) as (o & Ho & Hx).
  exists o. split; [exact Ho|]. etrans; [exact Hx|].
  pose proof (keys_apart id id) as (Hml & Hdl & Hdm).
  apply (run_remove_live f q id pl lo (fun i => envs (5 + i)%nat)); [done|by eapply wf_wrote|..];
    rewrite obj_wrote, decide_False by (subst msg lease dead; congruence); done.
Qed.

(** C19: a message that has been delivered its full allowance is not delivered
    again: the claim moves its payload to the dead prefix, with its attributes
    and the final count, and removes it and its lease from the live queue. *)
Theorem queue_dead_letter q id owner pl lo envs w :
  (∀ i, calm (envs i)) → let b := q_bucket q in
  let msg := queueMsgPrefix +:+ id in let lease := queueLeasePrefix +:+ id in
  Mem.wf (w (h_store b)) → Mem.nextVersion (w (h_store b)) + 2 < 2 ^ 64 →
  obj w b msg = Some pl → lower_names (a_Metadata (Mem.attrs pl)) → obj w b lease = Some lo →
  let n := queueParseReceives (a_Metadata (Mem.attrs lo)) in
  queueLeaseExpired (a_Metadata (Mem.attrs lo)) (e_clock (envs 1%nat)) = true → 0 < q_maxReceives q ≤ n →
  ∃ w' o, run exec (tryClaim q id owner) envs w = (Some (Ok None), w') ∧
    obj w' b msg = None ∧ obj w' b lease = None ∧ obj w' b (queueDeadPrefix +:+ id) = Some o ∧
    Mem.data o = Mem.data pl ∧ a_Metadata (Mem.attrs o) = dead_metadata (a_Metadata (Mem.attrs pl)) n.
Proof.
  intros He b msg lease Hwf Hlt Hpl Hlow Hlo n Hexp Hmax. unfold tryClaim.
  rewrite getLease_record, (run_readRecord _ He), run_now. cbn [at_bucket Locker.bucket].
  fold b lease. rewrite Hlo. change (e_clock (envs (1 + 0)%nat)) with (e_clock (envs 1%nat)).
  rewrite Hexp. cbn [negb]. fold n. rewrite !bool_decide_true by lia. cbn [andb].
  match goal with |- context [run exec (writeLease _ _ _ ?t ?rc _ ≫= ?f) ?ev w] =>
    destruct (run_writeLease f q lease owner t rc _ _ ev w (fun i => He _)
      (compile_IfMatch (a_Version (Mem.attrs lo)))) as (o1 & Ho1 & Hx) end; [by apply holds_current|].
  rewrite Hx. set (w1 := wrote _ _ _ _).
  match goal with |- context [run exec (deadLetter _ _ _ _ ≫= ?f) ?ev _] =>
    destruct (run_deadLetter f q id pl o1 n ev w1 (fun i => He _)) as (o & Ho & Hy) end.
  - eapply wf_wrote; [exact Ho1|exact Hwf|fold b; lia].
  - unfold w1, wrote. rewrite upd_eq. cbn. destruct (Mem.wf_counter _ Hwf). fold b in Hlt |- *. rewrite wrapu64_id; lia.
  - unfold w1. rewrite obj_wrote, decide_False; [done|]. apply keys_apart.
  - done.
  - unfold w1. by rewrite obj_wrote, decide_True.
  - exists (removed b lease (removed b msg (wrote b (queueDeadPrefix +:+ id) o w1))), o.
    split; [exact Hy|]. pose proof (keys_apart id id) as (Hml & Hdl & Hdm). destruct Ho as [Habs _ _].
    injection Habs as Hd Hm _. subst b msg lease w1. split; [|split; [|split; [|split; [exact Hd|exact Hm]]]].
    + rewrite obj_removed, decide_False by congruence. rewrite obj_removed, decide_True by reflexivity. reflexivity.
    + rewrite obj_removed, decide_True by reflexivity. reflexivity.
    + rewrite obj_removed, decide_False by congruence. rewrite obj_removed, decide_False by congruence.
      rewrite obj_wrote, decide_True by reflexivity. reflexivity.
Qed.

(** C18: a claim, on every branch that delivers or skips.  A message whose lease
    is live is skipped and nothing changes; otherwise the lease record is
    written with the owner, the deadline and the count, and the message handed
    out has the payload's attributes, that count, and the record's version. *)
Theorem queue_claim_spec q id owner pl envs w :
  (∀ i, calm (envs i)) → let b := q_bucket q in Mem.wf (w (h_store b)) →
  obj w b (queueMsgPrefix +:+ id) = Some pl →
  let leasePath := queueLeasePrefix +:+ id in let lease := obj w b leasePath in
  let now := e_clock (envs 1%nat) in
  exhausted q lease = false →
  if claimable q lease now
  then ∃ o, stored "" (leaseRecord q owner now (delivery lease)) (w (h_store b)) o ∧
    run exec (tryClaim q id owner) envs w =
    (Some (Ok (Some (startMessage q id (queueMsgPrefix +:+ id) leasePath owner (a_Metadata (Mem.attrs pl))
       (delivery lease) (a_Version (Mem.attrs o)) (now + q_lease q)))), wrote b leasePath o w)
  else run exec (tryClaim q id owner) envs w = (Some (Ok None), w).
Proof. apply tryClaim_run. Qed.

(** *** Settling a message *)

(** The lease record is there and names the message's owner. *)
Definition holds_lease (m : Message) (lease : option Mem.object) : bool :=
  from_option (λ o, bool_decide (Locker.owner_of (a_Metadata (Mem.attrs o)) = m_owner m)) false lease.

Lemma settled_fields m :
  let m' := finish None (set_stopped (set_settled m)) in
  m_queue m' = m_queue m ∧ m_leasePath m' = m_leasePath m ∧ m_msgPath m' = m_msgPath m ∧
  m_owner m' = m_owner m ∧ m_settled m' = true ∧ m_finished m' = true.
Proof. unfold finish. cbn. destruct (m_finished m) eqn:E; by rewrite ?E. Qed.

(** C32: acknowledging removes the lease record and the payload, exactly when the
    lease is still this message's; otherwise the store is left alone.  Either
    way the message is settled, and settling it again does nothing. *)
Theorem queue_ack_spec m pl envs w :
  (∀ i, calm (envs i)) → m_settled m = false → m_leasePath m ≠ m_msgPath m →
  let b := q_bucket (m_queue m) in
  Mem.wf (w (h_store b)) → obj w b (m_msgPath m) = Some pl →
  ∃ m', m_settled m' = true ∧ m_finished m' = true ∧
    run exec (Ack m) envs w =
    (Some (m', None),
     if holds_lease m (obj w b (m_leasePath m))
     then removed b (m_msgPath m) (removed b (m_leasePath m) w) else w) ∧
    (∀ envs' w', run exec (Ack m') envs' w' = (Some (m', None), w')) ∧
    (∀ envs' w', run exec (Nack m') envs' w' = (Some (m', None), w')).
Proof.
  intros He Hns Hne b Hwf Hpl. unfold Ack at 1, settle. rewrite Hns.
  destruct (settled_fields m) as (Hq & Hlp & Hmp & Ho & Hs & Hf). set (m' := finish _ _) in *.
  exists m'. split; [exact Hs|]. split; [exact Hf|]. split.
  2: { split; intros envs' w'; [unfold Ack|unfold Nack]; unfold settle; by rewrite Hs. }
  unfold ack_record. rewrite Hq, Hlp, Hmp, Ho, getLease_record, run_bind_assoc, (run_readRecord _ He).
  cbn [at_bucket Locker.bucket]. fold b.
  destruct (obj w b (m_leasePath m)) as [lo|] eqn:Hlo; cbn [holds_lease from_option]; [|by rewrite Is_refl].
  case_bool_decide; cbn [negb]; [|done].
  rewrite run_bind_assoc, (run_delete_read _ (fun i => He _) _ _ _ lo) by done.
  rewrite run_bind_assoc, (run_delete _ (fun i => He _) _ _ _ pl); [done|].
  by rewrite obj_removed, decide_False.
Qed.

Lemma run_nack_record {R} (f : option error → prog R) m lo envs w :
  (∀ i, calm (envs i)) → let b := q_bucket (m_queue m) in
  Mem.wf (w (h_store b)) → obj w b (m_leasePath m) = Some lo →
  Locker.owner_of (a_Metadata (Mem.attrs lo)) = m_owner m →
  let now := e_clock (envs 1%nat) in
  ∃ o, stored "" (nack_fields m now (a_Metadata (Mem.attrs lo))) (w (h_store b)) o ∧
  run exec (nack_record m ≫= f) envs w =
  run exec (f None) (fun i => envs (3 + i)%nat) (wrote b (m_leasePath m) o w).
Proof.
  intros He b Hwf Hlo Hown now. unfold nack_record.
  rewrite getLease_record, run_bind_assoc, (run_readRecord _ He). cbn [at_bucket Locker.bucket]. fold b.
  rewrite Hlo, bool_decide_true by exact Hown. cbn [negb]. rewrite run_bind_assoc, run_now.
  change (e_clock (envs (1 + 0)%nat)) with now. set (md := nack_fields _ _ _).
  destruct (calm_WriteAll (envs 2%nat) b (m_leasePath m) "" (Locker.record_options md) _ _ md w
    (He 2%nat) eq_refl eq_refl (Normalize_fields _ _ _) (Normalize_fields _ _ _)
    (compile_IfMatch (a_Version (Mem.attrs lo)))) as (o & Ho & Hx).
  exists o. split; [exact Ho|]. rewrite run_bind_assoc. cbn [trigger mbind prog_mbind prog_bind run Nat.add].
  rewrite Hx, holds_current by done. done.
Qed.

Lemma parse_receives_fields owner lease n :
  0 ≤ n ≤ int64_max →
  queueParseReceives (Some (<[queueOwnerField := owner]> (<[queueLeaseField := lease]>
    (<[queueReceivesField := Itoa n]> ∅)))) = n.
Proof.
  intros Hn. unfold queueParseReceives, Locker.field_of. cbn.
  rewrite !lookup_insert_ne, lookup_insert_eq by done. cbn. rewrite Atoi_Itoa by done.
  by rewrite bool_decide_false by lia.
Qed.

(** One worker hands a message back, another one claims it. *)
Definition hand_back (m : Message) (owner : string) : prog (result (option Message)) :=
  _ ← Nack m; tryClaim (m_queue m) (m_id m) owner.

(** A message handed back is redelivered at once, its count one higher: the
    deadline written by [Nack] has passed for every later reading of the clock,
    and the count is kept in the record. *)
Theorem queue_nack_redelivers m owner pl lo envs w :
  let q := m_queue m in let b := q_bucket q in
  let n := queueParseReceives (a_Metadata (Mem.attrs lo)) in
  (∀ i, calm (envs i)) → (∀ i j, (i ≤ j)%nat → e_clock (envs i) ≤ e_clock (envs j)) →
  printable (e_clock (envs 1%nat)) →
  m_settled m = false → m_msgPath m = queueMsgPrefix +:+ m_id m → m_leasePath m = queueLeasePrefix +:+ m_id m →
  Mem.wf (w (h_store b)) → Mem.nextVersion (w (h_store b)) + 1 < 2 ^ 64 →
  obj w b (m_msgPath m) = Some pl → obj w b (m_leasePath m) = Some lo →
  Locker.owner_of (a_Metadata (Mem.attrs lo)) = m_owner m →
  n < int64_max → (q_maxReceives q ≤ 0 ∨ n < q_maxReceives q) →
  ∃ m' w', run exec (hand_back m owner) envs w = (Some (Ok (Some m')), w') ∧
    m_id m' = m_id m ∧ m_owner m' = owner ∧ m_receives m' = n + 1.
Proof.
  intros q b n He Hmono Hpr Hns Hmp Hlp Hwf Hlt Hpl Hlo Hown Hn Hmax.
  assert (0 ≤ n) as Hn0 by apply queueParseReceives_nonneg.
  destruct (settled_fields m) as (Hq & Hlp' & Hmp' & Ho' & Hs & Hf).
  unfold hand_back, Nack, settle. rewrite Hns, run_bind_assoc. set (m1 := finish _ _) in *.
  destruct (run_nack_record (λ r, mret (m1, r) ≫= λ _, tryClaim (m_queue m) (m_id m) owner) m1 lo envs w He)
    as (o & Ho & Hx); [by rewrite Hq|by rewrite Hq, Hlp'|by rewrite Ho'|]. rewrite Hx. rewrite Hq, Hlp' in *. fold q b in Ho |- *.
  set (w1 := wrote _ _ _ _). set (envs' := fun i => envs (3 + i)%nat).
  assert (a_Metadata (Mem.attrs o) = nack_fields m1 (e_clock (envs 1%nat)) (a_Metadata (Mem.attrs lo))) as Hmd
    by (destruct Ho as [Habs _ _]; by injection Habs).
  assert (obj w1 b (queueLeasePrefix +:+ m_id m) = Some o) as Hlease
    by (unfold w1; rewrite Hlp, obj_wrote, decide_True by done; done).
  pose proof (tryClaim_run q (m_id m) owner pl envs' w1 (fun i => He _)) as Hc. cbn zeta in Hc.
  fold b in Hc. rewrite Hlease in Hc. cbn [exhausted claimable delivery] in Hc. rewrite Hmd in Hc.
  assert (queueParseReceives (nack_fields m1 (e_clock (envs 1%nat)) (a_Metadata (Mem.attrs lo))) = n) as Hrc
    by (apply parse_receives_fields; unfold n in *; lia).
  assert (queueLeaseExpired (nack_fields m1 (e_clock (envs 1%nat)) (a_Metadata (Mem.attrs lo))) (e_clock (envs' 1%nat)) = true) as Hexp.
  { unfold queueLeaseExpired, Locker.field_of, nack_fields. cbn [mbind option_bind].
    rewrite lookup_insert_ne, lookup_insert_eq by done. rewrite (Parse_Format _ Hpr). unfold Before, envs'.
    rewrite bool_decide_false; [done|]. pose proof (Hmono 1%nat 4%nat ltac:(lia)). cbn. lia. }
  rewrite Hexp, Hrc in Hc. destruct Hc as (o2 & _ & Hrun).
  - eapply wf_wrote; [exact Ho|exact Hwf|exact Hlt].
  - unfold w1. rewrite Hlp, obj_wrote, decide_False; [by rewrite <- Hmp|apply keys_apart].
  - apply bool_decide_eq_false. lia.
  - eexists _, _. split; [exact Hrun|]. cbn. unfold int64_max in *. rewrite wrap64_id; [done|].
    unfold int64_min, int64_max. lia.
Qed.

End sequential.
