(* ===== verification/QueueSafety.v ===== *)
(** * The queue under interleaving

    Any number of workers claim, renew, acknowledge and hand back one message;
    their calls interleave one by one, fail, lose their answers, and the workers
    die.  Two things are proved: while the payload is there at most one worker
    has the message within its lease, and the payload does not disappear without
    an [Ack] or a copy under [dead/].

    The lease record is the one of [LeaseSafety].  A worker that was slower than
    its lease may have read back the token of its successor, and [claimed] and
    [deadLetter] delete the lease under the token read back; they do so only
    once the payload is gone, which is the state in which the record no longer
    matters. *)
From stdpp Require Import relations.
From S2P Require Import Prelude Strconv GoTime Md5 Core Effects Store Locker LeaseSafety Queue QueueTheorems.

Import Queue.

Section worker.
Context `{GT : GoTables} `{TT : TimeText}.

(** One message of the queue at bucket [b]. *)
Context (b : Handle) (id : string) (lo hi : Z).

Definition lease_key : string := h_key b (queueLeasePrefix +:+ id).
Definition msg_key : string := h_key b (queueMsgPrefix +:+ id).
Definition dead_key : string := h_key b (queueDeadPrefix +:+ id).

Definition payload (g : world) : option sobject := objs (stores g (h_store b)) !! msg_key.
Definition dead (g : world) : option sobject := objs (stores g (h_store b)) !! dead_key.
Definition gone (g : world) : Prop := payload g = None.

Lemma keys_differ : msg_key ≠ lease_key ∧ dead_key ≠ lease_key ∧ dead_key ≠ msg_key.
Proof.
  unfold msg_key, lease_key, dead_key, h_key. destruct (keys_apart id id) as (? & ? & ?).
  split_and!; by intros ?%(inj (String.append _)).
Qed.

#[local] Abbreviation n := (h_store b).
#[local] Abbreviation inv := (inv lo hi).
#[local] Abbreviation rec := (rec n lease_key).
#[local] Abbreviation moves := (moves n lease_key gone).
#[local] Abbreviation rely := (rely n lease_key gone).
#[local] Abbreviation guar := (guar n lease_key gone).
#[local] Abbreviation with_inv := (with_inv lo hi).

#[local] Instance rely_refl_queue me : Reflexive (rely me) := rely_refl n lease_key gone me.
#[local] Instance rely_trans_queue me : Transitive (rely me) := rely_trans n lease_key gone me.

Lemma gone_local g g' :
  (∀ m k, (m, k) ≠ (n, lease_key) → objs (stores g' m) !! k = objs (stores g m) !! k) → gone g → gone g'.
Proof. intros Hf. unfold gone, payload. rewrite Hf; [done|]. destruct keys_differ. congruence. Qed.

(** ** The calls *)

(** An answer that an object is not there is right. *)
Lemma read_absent k s e :
  other_error e ∨ objs s !! k = None → Is e ErrNotFound = true → objs s !! k = None.
Proof. intros [[Hn _]|?] He; [congruence|done]. Qed.

Lemma call_payload_absent g e g' :
  call (OAttributes b (queueMsgPrefix +:+ id)) g (Err e) g' → Is e ErrNotFound = true → gone g'.
Proof.
  intros (_ & [[Hs Hr] _] & _) He. unfold gone, payload. cbn in Hs. rewrite Hs. by eapply read_absent.
Qed.

(** Deletes never bring the payload back, and one that reports no failure has
    removed it. *)
Lemma call_delete_gone k pre g a g' : call (ODelete b k pre) g a g' → gone g → gone g'.
Proof.
  intros Hc Hg. pose proof (call_effect _ _ _ _ n Hc) as He. destruct Hc as (_ & [Hs _] & _). cbn in Hs.
  unfold gone, payload in *. destruct Hs as [(e & _ & _ & ->)|(c & _ & Hd)]; [done|].
  assert (stores g' n = stores g n ∨ stores g' n = mkStore (delete (h_key b k) (objs (stores g n))) (used (stores g n)))
    as [-> | ->]; [destruct a; cbn in Hd; naive_solver|done|]. cbn.
  apply lookup_delete_None. by right.
Qed.

Lemma call_delete_payload g a g' :
  call (ODelete b (queueMsgPrefix +:+ id) []) g a g' → delete_failed a = None → gone g'.
Proof.
  intros (_ & [Hs _] & _) Hf. cbn -[CompilePreconditions] in Hs. unfold gone, payload.
  assert (∀ e, a = Err e → ¬ other_error e) as Hno.
  { intros e -> [He _]. cbn in Hf. by rewrite He in Hf. }
  destruct Hs as [(e & -> & He & _)|(c & Hc & Hd)]; [by destruct (Hno e)|].
  rewrite compile_nil in Hc. injection Hc as <-.
  destruct a as [[]|e]; cbn in Hd.
  - destruct Hd as (_ & _ & ->). apply lookup_delete_eq.
  - destruct Hd as [[-> [?|[?|?]]]|[? _]]; [by destruct (Hno e)|done|done|by destruct (Hno e)].
Qed.

(** ** One worker *)

Context (q : Queue) (me : string) (Hq : q_bucket q = b).
Context (Hprint : ∀ t, lo ≤ t ≤ hi → printable (t + q_lease q)) (Hprint' : ∀ t, lo ≤ t ≤ hi → printable t).

#[local] Abbreviation ok J := (safe call (with_inv J) (rely me) (guar me)).
#[local] Abbreviation holding := (holding n lease_key gone me).

(** What a worker with a claimed message knows. *)
Record mheld (m : Message) (g : world) : Prop := {
  mh_queue : m_queue m = q;
  mh_lease : m_leasePath m = queueLeasePrefix +:+ id;
  mh_msg : m_msgPath m = queueMsgPrefix +:+ id;
  mh_owner : m_owner m = me;
  mh_until : m_leaseUntil m ≤ clock g + q_lease q;
  mh_holding : holding (m_version m) (m_leaseUntil m) g;
}.

Lemma mheld_rely m g g' : rely me g g' → mheld m g → mheld m g'.
Proof.
  intros Hr []. pose proof (moves_clock _ _ _ _ _ (rely_moves _ _ _ _ _ _ Hr)).
  split; try done; [lia|]. by eapply holding_rely.
Qed.

Lemma kept_read_mheld m : kept_read n lease_key gone (mheld m).
Proof. intros g g' [] Hm Hc Hr. split; try done; [by rewrite Hc|]. by eapply kept_read_holding. Qed.

Lemma kept_mheld until m : m_leaseUntil m ≤ until → kept n lease_key gone me until (mheld m).
Proof.
  intros Hle. split; [apply kept_read_mheld|]. intros g g' f v [] Hm Hc Hf Hr. split; try done; [by rewrite Hc|].
  by eapply (kept_write _ _ _ _ _ _ (kept_holding n lease_key gone me _ _ _ Hle)).
Qed.

(** The records of the queue are lease records. *)
Lemma fields_lease until receives :
  printable until →
  lease_record me until (Some (<[queueOwnerField := me]> (<[queueLeaseField := Format until]>
    (<[queueReceivesField := receives]> ∅)))).
Proof.
  intros Hp. split.
  - apply Normalize_fields.
  - unfold Locker.owner_of, Locker.field_of. cbn. by rewrite lookup_insert_eq.
  - intros t. unfold Locker.lockExpired, Locker.field_of. cbn.
    rewrite lookup_insert_ne, lookup_insert_eq by done. by rewrite (Parse_Format _ Hp).
Qed.

Lemma queueLeaseExpired_lock f t : queueLeaseExpired f t = Locker.lockExpired f t.
Proof. done. Qed.

Lemma Hn : h_store (Locker.bucket (at_bucket b)) = n.
Proof. done. Qed.
Lemma HP : h_key (Locker.bucket (at_bucket b)) (queueLeasePrefix +:+ id) = lease_key.
Proof. done. Qed.

(** A call elsewhere: it leaves the record alone and does not bring the payload
    back. *)
Definition elsewhere (o : op) : Prop :=
  touches o ≠ Some (n, lease_key) ∧ ∀ g a g', call o g a g' → gone g → gone g'.

Lemma ok_elsewhere {R} J (post : R → world → Prop) o k g :
  kept_read n lease_key gone J → elsewhere o →
  (∀ g1 a g2, rely me g g1 → inv g1 → call o g1 a g2 → inv g2 → J g2 → ok J post (k a) g2) →
  ok J post (Vis o k) g.
Proof.
  intros HJ [Ht Hv] Hk g1 Hr [Hi Hj] a g2 Hc.
  assert (rec g2 = rec g1) as Hrec by by eapply call_frame.
  assert (inv g2) as Hi2 by by eapply call_inv.
  assert (moves g1 g2) as Hm by (eapply call_moves; [exact Hc|by apply (Hv _ _ _ Hc)]).
  assert (J g2) as Hj2 by (eapply HJ; eauto; apply Hc).
  split; [done|]. split; [|by eapply Hk].
  eapply call_guar_same; [exact Hc|by apply (Hv _ _ _ Hc)|done].
Qed.

Lemma elsewhere_read o : touches o = None → elsewhere o.
Proof.
  intros Ht. split; [by rewrite Ht|]. intros g a g' Hc. unfold gone, payload.
  rewrite (call_frame _ _ _ _ n msg_key Hc); [done|]. by rewrite Ht.
Qed.

Lemma elsewhere_close w : sw_bucket w = b → sw_key w = queueDeadPrefix +:+ id → elsewhere (OClose w).
Proof.
  intros Hb Hk. destruct keys_differ as (H1 & H2 & H3). unfold elsewhere. cbn. rewrite Hb, Hk.
  split; [by intros [= ?]|]. intros g a g' Hc. unfold gone, payload.
  rewrite (call_frame _ _ _ _ n msg_key Hc); [done|]. cbn. rewrite Hb, Hk. by intros [= ?].
Qed.

Lemma elsewhere_delete : elsewhere (ODelete b (queueMsgPrefix +:+ id) []).
Proof.
  destruct keys_differ as (H1 & H2 & H3). split; [by intros [= ?]|].
  intros g a g' Hc. by apply (call_delete_gone _ _ _ _ _ Hc).
Qed.

(** ** The programs *)

(** From a state without payload the record may be deleted whatever token it
    has. *)
Lemma ok_drop {R} (post : R → world → Prop) v k g :
  gone g → (∀ a g', gone g' → ok (λ _, True) post (k a) g') →
  ok (λ _, True) post (Vis (ODelete b (queueLeasePrefix +:+ id) [Some (IfMatch v)]) k) g.
Proof.
  intros Hg Hk g1 Hr [Hi _] a g2 Hc. assert (gone g1) as Hg1 by by apply Hr.
  split; [split; [by eapply call_inv|done]|].
  split; [|by apply Hk; eapply call_delete_gone].
  by eapply (call_void_guar n lease_key gone me gone_local (at_bucket b) _ Hn HP).
Qed.

Lemma kept_read_True : kept_read n lease_key gone (λ _, True).
Proof. by intros ??. Qed.

(** The end of a claim: a message is delivered only while it is held. *)
Lemma ok_claimed now receives v g :
  now ≤ clock g → holding v (now + q_lease q) g →
  ok (λ _, True) (λ r g', match r with Ok (Some m) => mheld m g' | _ => True end)
    (claimed q id me now receives v) g.
Proof.
  intros Hnow Hh. unfold claimed. rewrite Hq.
  apply ok_elsewhere; [apply kept_read_True|by apply elsewhere_read|].
  intros g1 a g2 Hr1 Hi1 Hc Hi2 _.
  assert (rely me g g2) as Hr2.
  { trans g1; [done|]. apply moves_rely; [|by eapply call_frame].
    eapply call_moves; [exact Hc|]. by eapply (elsewhere_read (OAttributes _ _)). }
  destruct a as [at_|err].
  - intros g3 Hr3 _. eapply mheld_rely; [exact Hr3|]. pose proof (moves_clock _ _ _ _ _ (rely_moves _ _ _ _ _ _ Hr2)).
    split; try done; cbn; [lia|]. by eapply holding_rely.
  - destruct (Is err ErrNotFound) eqn:He; [|done].
    apply ok_drop; [by eapply call_payload_absent|]. done.
Qed.

Lemma ok_remove_live v g : ok (λ _, True) (λ _ _, True) (remove_live q id v) g.
Proof.
  unfold remove_live. rewrite Hq. apply ok_elsewhere; [apply kept_read_True|apply elsewhere_delete|].
  intros g1 a g2 _ _ Hc _ _. destruct (delete_failed a) eqn:Ed; [done|].
  apply ok_drop; [by eapply call_delete_payload|]. intros [|e] g' _; [done|]. by destruct (_ && _).
Qed.

Lemma ok_writeDeadRecord attrs receives g : ok (λ _, True) (λ _ _, True) (writeDeadRecord q id attrs receives) g.
Proof.
  unfold writeDeadRecord. rewrite Hq. apply ok_elsewhere; [apply kept_read_True|by apply elsewhere_read|].
  intros g1 [r|e] g2 _ _ _ _ _; [|by destruct (Is e _)].
  apply ok_elsewhere; [apply kept_read_True|by apply elsewhere_read|].
  intros g3 [w|e] g4 _ _ Hw _ _; [|done]. destruct Hw as (_ & [[_ Hw] _] & _). cbn -[payload_options] in Hw.
  destruct Hw as (c & o & _ & _ & ->).
  apply ok_elsewhere; [apply kept_read_True|by apply elsewhere_read|].
  intros g5 [w' [m|e]] g6 _ _ Hw _ _.
  - destruct Hw as (_ & [(_ & _ & ->) _] & _).
    apply ok_elsewhere; [apply kept_read_True|by apply elsewhere_close|]. by intros g7 [w'' r'] g8.
  - apply ok_elsewhere; [apply kept_read_True|by apply elsewhere_read|]. by intros g7 [w'' r'] g8.
Qed.

Lemma ok_deadLetter receives v g : ok (λ _, True) (λ _ _, True) (deadLetter q id receives v) g.
Proof.
  unfold deadLetter. rewrite Hq. apply ok_elsewhere; [apply kept_read_True|by apply elsewhere_read|].
  intros g1 [a|e] g2 _ _ _ _ _; [|destruct (Is e _); [apply ok_remove_live|done]].
  eapply safe_bind; [apply rely_refl|apply ok_writeDeadRecord|].
  intros [|] g3 _ _; [apply ok_remove_live|done].
Qed.

(** The lease is written at [now] by [writeLease], under a precondition that
    passes only over a record that yields. *)
Lemma ok_writeLease {R} J (post : R → world → Prop) receives pre c k g :
  inv g → kept n lease_key gone me (clock g + q_lease q) J → CompilePreconditions [Some pre] = Ok c →
  (∀ g', rely me g g' → inv g' → holds c (so_version <$> rec g') = true →
     yields n lease_key gone me (clock g) g') →
  (∀ g', inv g' → J g' → clock g ≤ clock g' → ∀ r,
     match r with Ok v => holding v (clock g + q_lease q) g' | Err _ => True end → ok J post (k r) g') →
  ok J post (writeLease q (queueLeasePrefix +:+ id) me (clock g) receives pre ≫= k) g.
Proof.
  intros Hi HJ Hc Hy Hk. unfold writeLease. rewrite Hq.
  eapply (ok_writeRecord n lease_key lo hi gone me gone_local (at_bucket b) _ Hn HP J post _
    (leaseRecord q me (clock g) receives)); [exact HJ| |exact Hc|done|exact Hy|exact Hk].
  apply fields_lease, Hprint, Hi.
Qed.

Lemma ok_getLease {R} J (post : R → world → Prop) k g :
  kept_read n lease_key gone J →
  (∀ g, inv g → J g → ∀ r,
     match r with Ok (f, v) => known n lease_key v f g ∧ is_Some (rec g) | Err _ => True end →
     ok J post (k r) g) →
  ok J post (getLease q (queueLeasePrefix +:+ id) ≫= k) g.
Proof.
  intros HJ Hk. unfold getLease. rewrite Hq.
  by apply (ok_getRecord n lease_key lo hi gone me gone_local (at_bucket b) _ Hn HP).
Qed.

Lemma ok_clock {R} J (post : R → world → Prop) k g :
  kept_read n lease_key gone J →
  (∀ g', rely me g g' → inv g' → J g' → ok J post (k (clock g')) g') →
  ok J post (Vis ONow k) g.
Proof. by apply (ok_now n lease_key lo hi gone me gone_local (at_bucket b) (queueLeasePrefix +:+ id) Hn HP). Qed.

Lemma ok_tryClaim g :
  ok (λ _, True) (λ r g', match r with Ok (Some m) => mheld m g' | _ => True end) (tryClaim q id me) g.
Proof.
  unfold tryClaim. apply ok_getLease; [apply kept_read_True|]. intros g1 Hi1 _ r Hr.
  apply ok_clock; [apply kept_read_True|]. intros g2 Hr12 Hi2 _.
  destruct r as [[f v]|err].
  - destruct Hr as [Hkn _]. apply (known_moves n lease_key gone _ _ _ g2) in Hkn; [|apply Hr12].
    destruct (queueLeaseExpired f (clock g2)) eqn:He; cbn [negb]; [|done].
    assert (v ≠ "") as Hv by (eapply token_nonempty; [exact Hi2|apply Hkn]).
    destruct (_ && _).
    + eapply ok_writeLease; [done|apply kept_True|apply compile_IfMatch|by eapply known_yields; eauto|].
      intros g3 _ _ _ [hv|e] _; [|by destruct (_ || _)].
      eapply safe_bind; [apply rely_refl|apply ok_deadLetter|]. by intros [|] g4 _ _.
    + eapply ok_writeLease; [done|apply kept_True|apply compile_IfMatch|by eapply known_yields; eauto|].
      intros g3 _ _ Hle [nv|e] Hh; [by apply ok_claimed|by destruct (_ || _)].
  - destruct (Is err ErrNotFound); [|done].
    eapply ok_writeLease; [done|apply kept_True|apply compile_IfNotExists|intros g' _ _; apply absent_yields|].
    intros g3 _ _ Hle [nv|e] Hh; [by apply ok_claimed|by destruct (Is e _)].
Qed.

Lemma mheld_same m m' g :
  m_queue m' = m_queue m → m_leasePath m' = m_leasePath m → m_msgPath m' = m_msgPath m → m_owner m' = m_owner m →
  m_version m' = m_version m → m_leaseUntil m' = m_leaseUntil m → mheld m g → mheld m' g.
Proof. intros E1 E2 E3 E4 E5 E6 []. split; rewrite ?E1, ?E2, ?E3, ?E4, ?E5, ?E6; done. Qed.

Lemma mheld_finish err m g : mheld m g → mheld (finish err m) g.
Proof. unfold finish. destruct (m_finished m); [done|]. by apply mheld_same. Qed.

Lemma ok_msg_renewTick m g : ok (mheld m) (λ r g', mheld r.1 g') (renewTick m) g.
Proof.
  unfold renewTick. apply ok_clock; [apply kept_read_mheld|]. intros g1 Hr1 Hi1 Hh1.
  destruct (Before (clock g1) (m_leaseUntil m)) eqn:Hb; cbn [negb].
  2: { intros g2 Hr2 [_ Hg2]. by apply mheld_finish. }
  apply bool_decide_eq_true in Hb. destruct (mh_holding _ _ Hh1) as [_ Ht]. specialize (Ht Hb).
  unfold renewOnce. rewrite (mh_queue _ _ Hh1), (mh_lease _ _ Hh1), (mh_owner _ _ Hh1).
  apply safe_bind_assoc.
  eapply ok_writeLease; [done|apply kept_mheld; apply Hh1|apply compile_IfMatch|by eapply own_token_yields|].
  intros g2 Hi2 Hh2 Hle [v|e] Hp; cbn.
  - intros g3 Hr3 _. eapply mheld_rely; [done|]. destruct Hh1. split; try done. cbn. lia.
  - destruct (_ || _); intros g3 Hr3 [_ Hg3]; [by apply mheld_finish|done].
Qed.

(** A message of this worker, held or not. *)
Record mine (m : Message) : Prop := {
  mi_queue : m_queue m = q;
  mi_lease : m_leasePath m = queueLeasePrefix +:+ id;
  mi_msg : m_msgPath m = queueMsgPrefix +:+ id;
  mi_owner : m_owner m = me;
}.

Lemma mine_settled m : mine m → mine (finish None (set_stopped (set_settled m))).
Proof. intros []. unfold finish. cbn. by destruct (m_finished m). Qed.

(** [Ack] and [Nack] change no lease but their own, whether or not they still
    hold it. *)
Lemma ok_Ack m g : mine m → ok (λ _, True) (λ _ _, True) (Ack m) g.
Proof.
  intros Hm. unfold Ack, settle. destruct (m_settled m); [done|]. apply mine_settled in Hm.
  set (m' := finish _ _) in *. clearbody m'. destruct Hm as [Hqu Hl Hmp Ho].
  unfold ack_record. rewrite Hqu, Hl, Hmp, Ho. apply safe_bind_assoc.
  apply ok_getLease; [apply kept_read_True|]. intros g1 Hi1 _ [[f v]|e] Hr; [|by destruct (Is e _)].
  case_bool_decide as Hown; cbn [negb]; [|done]. destruct Hr as [Hkn _].
  assert (v ≠ "") as Hv by (eapply token_nonempty; [exact Hi1|apply Hkn]). rewrite Hq.
  eapply (ok_delete n lease_key lo hi gone me gone_local (at_bucket b) _ Hn HP); [done|reflexivity| |done|].
  { eapply known_yields; eauto. }
  intros g2 _ _ [|e]; [|by destruct (_ || _)].
  apply ok_elsewhere; [apply kept_read_True|apply elsewhere_delete|].
  intros g3 [|e] g4 _ _ _ _ _; [done|]. by destruct (negb _).
Qed.

Lemma ok_Nack m g : mine m → ok (λ _, True) (λ _ _, True) (Nack m) g.
Proof.
  intros Hm. unfold Nack, settle. destruct (m_settled m); [done|]. apply mine_settled in Hm.
  set (m' := finish _ _) in *. clearbody m'. destruct Hm as [Hqu Hl Hmp Ho].
  unfold nack_record. rewrite Hqu, Hl, Ho. apply safe_bind_assoc.
  apply ok_getLease; [apply kept_read_True|]. intros g1 Hi1 _ [[f v]|e] Hr; [|by destruct (Is e _)].
  case_bool_decide as Hown; cbn [negb]; [|done]. destruct Hr as [Hkn _].
  assert (v ≠ "") as Hv by (eapply token_nonempty; [exact Hi1|apply Hkn]). rewrite Hq.
  apply ok_clock; [apply kept_read_True|]. intros g2 Hr12 Hi2 _.
  apply (known_moves n lease_key gone _ _ _ g2) in Hkn; [|apply Hr12].
  eapply (ok_swap n lease_key lo hi gone me gone_local (at_bucket b) _ Hn HP _ _ (clock g2)
    (nack_fields m' (clock g2) f)); [apply kept_True| |apply compile_IfMatch|reflexivity| |].
  - unfold nack_fields. rewrite Ho. apply fields_lease, Hprint', Hi2.
  - eapply known_yields; eauto.
  - intros g3 _ _ _ [|e] _; [done|]. by destruct (_ || _).
Qed.
End worker.
