(* ===== verification/QueuePool.v ===== *)
(** * Any number of workers on one message

    The workers of [QueueSafety] as a transition system, and the two theorems
    about it: exclusive delivery and no loss. *)
From stdpp Require Import relations.
From S2P Require Import Prelude Strconv GoTime Md5 Core Effects Store Locker LeaseSafety Queue QueueTheorems QueueSafety.

Import Queue.

Record worker := mkWorker {
  w_queue : Queue;
  w_owner : string;
}.

(** What one worker is doing.  [Delivered] is between two rounds of the renewer
    (or after its last one); [Renewing m p] has [m] and is in the middle of a
    round; [Settling] is an [Ack] or [Nack], after the renewer has stopped. *)
Inductive wphase :=
| Waiting
| Claiming (p : prog (result (option Message)))
| Delivered (m : Message)
| Renewing (m : Message) (p : prog (Message * bool))
| Settling (p : prog (Message * option error))
| Left_.

Section pool.
Context `{GT : GoTables} `{TT : TimeText} {I : Type} `{EqDecision I}.
Context (b : Handle) (id : string) (lo hi : Z) (ws : I → worker).

(** The world, the workers, and the workers that have called [Ack]. *)
Record qconfig := mkQconfig {
  qc_world : world;
  qc_phase : I → wphase;
  qc_acks : list I;
}.

Definition set_wphase (i : I) (ph : wphase) (f : I → wphase) : I → wphase :=
  fun j => if decide (j = i) then ph else f j.

(** The steps of a worker that no other sees; the flag is that it calls [Ack]. *)
Inductive wlocal (w : worker) : wphase → wphase → bool → Prop :=
| wl_claim : wlocal w Waiting (Claiming (tryClaim (w_queue w) id (w_owner w))) false
| wl_skipped : wlocal w (Claiming (Ret (Ok None))) Waiting false
| wl_delivered m : wlocal w (Claiming (Ret (Ok (Some m)))) (Delivered m) false
| wl_tick m : m_finished m = false → wlocal w (Delivered m) (Renewing m (renewTick m)) false
| wl_ticked m m' go : wlocal w (Renewing m (Ret (m', go))) (Delivered m') false
| wl_ack m : wlocal w (Delivered m) (Settling (Ack m)) true
| wl_nack m : wlocal w (Delivered m) (Settling (Nack m)) false
| wl_leaves ph : wlocal w ph Left_ false.

(** One call of a worker. *)
Inductive wcalls (g g' : world) : wphase → wphase → Prop :=
| wc_claim o k a : call o g a g' → wcalls g g' (Claiming (Vis o k)) (Claiming (k a))
| wc_renew m o k a : call o g a g' → wcalls g g' (Renewing m (Vis o k)) (Renewing m (k a))
| wc_settle o k a : call o g a g' → wcalls g g' (Settling (Vis o k)) (Settling (k a)).

(** The others leave the objects of this message alone: producers write other
    ids, and retention is not due. *)
Inductive qstep : qconfig → qconfig → Prop :=
| qs_local i g ph ph' acks (ack : bool) : wlocal (ws i) (ph i) ph' ack →
    qstep (mkQconfig g ph acks) (mkQconfig g (set_wphase i ph' ph) (if ack then i :: acks else acks))
| qs_call i g g' ph ph' acks : wcalls g g' (ph i) ph' →
    qstep (mkQconfig g ph acks) (mkQconfig g' (set_wphase i ph' ph) acks)
| qs_clock g t ph acks : clock g ≤ t ≤ hi → qstep (mkQconfig g ph acks) (mkQconfig (mkWorld (stores g) t) ph acks)
| qs_other o g a g' ph acks : call o g a g' →
    rec (h_store b) (lease_key b id) g' = rec (h_store b) (lease_key b id) g →
    payload b id g' = payload b id g → dead b id g' = dead b id g →
    qstep (mkQconfig g ph acks) (mkQconfig g' ph acks).

(** Whether [ph] has the message at time [t]. *)
Definition has_message (ph : wphase) (t : Z) : bool :=
  match ph with
  | Delivered m | Renewing m _ => negb (m_finished m) && bool_decide (t < m_leaseUntil m)
  | _ => false
  end.

Record working : Prop := {
  wk_bucket i : q_bucket (w_queue (ws i)) = b;
  wk_owners i j : w_owner (ws i) = w_owner (ws j) → i = j;
  wk_times i t : lo ≤ t ≤ hi → printable (t + q_lease (w_queue (ws i)));
  wk_clock t : lo ≤ t ≤ hi → printable t;
}.

Definition qinitial (cf : qconfig) : Prop :=
  inv lo hi (qc_world cf) ∧ (∀ i, qc_phase cf i = Waiting) ∧ qc_acks cf = [].

(** ** Exclusive delivery *)

Context (Hwk : working).

#[local] Abbreviation n := (h_store b).
#[local] Abbreviation key := (lease_key b id).
#[local] Abbreviation rely := (rely n key (gone b id)).
#[local] Abbreviation guar := (guar n key (gone b id)).
#[local] Abbreviation ok me J := (safe call (with_inv lo hi J) (rely me) (guar me)).

Definition wphase_ok (w : worker) (ph : wphase) (g : world) : Prop :=
  let me := w_owner w in
  let held := mheld b id (w_queue w) me in
  match ph with
  | Claiming p => ok me (λ _, True) (λ r g', match r with Ok (Some m) => held m g' | _ => True end) p g
  | Delivered m => held m g
  | Renewing m p => held m g ∧ ok me (held m) (λ r g', held r.1 g') p g
  | Settling p => ok me (λ _, True) (λ _ _, True) p g
  | Waiting | Left_ => True
  end.

#[local] Instance rely_refl_pool me : Reflexive (rely me) := rely_refl n key (gone b id) me.
#[local] Instance rely_trans_pool me : Transitive (rely me) := rely_trans n key (gone b id) me.

Lemma wphase_ok_rely w ph g g' : rely (w_owner w) g g' → wphase_ok w ph g → wphase_ok w ph g'.
Proof.
  intros Hr. destruct ph; cbn; try done.
  - intros Hs. eapply safe_stable; [apply rely_trans|exact Hs|exact Hr].
  - by apply mheld_rely.
  - intros [Hh Hs]. split; [by eapply mheld_rely|]. eapply safe_stable; [apply rely_trans|exact Hs|exact Hr].
  - intros Hs. eapply safe_stable; [apply rely_trans|exact Hs|exact Hr].
Qed.

Lemma mheld_mine q me m g : mheld b id q me m g → mine id q me m.
Proof. by intros []. Qed.

Lemma wphase_ok_local i ph ph' ack g :
  inv lo hi g → wphase_ok (ws i) ph g → wlocal (ws i) ph ph' ack → wphase_ok (ws i) ph' g.
Proof.
  destruct Hwk as [Hb _ Ht Hc]. intros Hi Hok Hl.
  destruct Hl; cbn in *; try done.
  - apply ok_tryClaim; auto.
  - by apply (Hok g).
  - split; [done|]. apply ok_msg_renewTick; auto.
  - destruct Hok as [Hh Hs]. by apply (Hs g).
  - eapply ok_Ack; [auto..|]. by eapply mheld_mine.
  - eapply ok_Nack; [auto..|]. by eapply mheld_mine.
Qed.

Lemma wphase_ok_call i ph ph' g g' :
  inv lo hi g → wphase_ok (ws i) ph g → wcalls g g' ph ph' →
  inv lo hi g' ∧ guar (w_owner (ws i)) g g' ∧ wphase_ok (ws i) ph' g'.
Proof.
  intros Hi Hok Hc. destruct Hc as [o k a Hc|m o k a Hc|o k a Hc]; cbn in Hok.
  - destruct (safe_step _ _ _ _ _ _ _ _ _ _ Hok (conj Hi Logic.I) Hc) as ([? _] & ? & ?). done.
  - destruct Hok as [Hh Hs].
    by destruct (safe_step _ _ _ _ _ _ _ _ _ _ Hs (conj Hi Hh) Hc) as ([? ?] & ? & ?).
  - destruct (safe_step _ _ _ _ _ _ _ _ _ _ Hok (conj Hi Logic.I) Hc) as ([? _] & ? & ?). done.
Qed.

Definition qpool_ok (cf : qconfig) : Prop :=
  inv lo hi (qc_world cf) ∧ ∀ i, wphase_ok (ws i) (qc_phase cf i) (qc_world cf).

Lemma qpool_ok_moved g g' ph acks :
  inv lo hi g' → moves n key (gone b id) g g' → rec n key g' = rec n key g →
  qpool_ok (mkQconfig g ph acks) → qpool_ok (mkQconfig g' ph acks).
Proof.
  intros Hi Hm Hr [_ Hok]. split; [done|]. intros i. eapply wphase_ok_rely, Hok. by apply moves_rely.
Qed.

Lemma qpool_ok_step cf cf' : qstep cf cf' → qpool_ok cf → qpool_ok cf'.
Proof.
  intros [i g ph ph' acks ack Hl|i g g' ph ph' acks Hc|g t ph acks Ht|o g a g' ph acks Hc Hr Hp _]; cbn.
  - intros [Hi Hok]. split; [done|]. intros j. cbn. unfold set_wphase.
    case_decide; [subst; eapply wphase_ok_local; [exact Hi|apply Hok|exact Hl]|apply Hok].
  - intros [Hi Hok]. destruct (wphase_ok_call _ _ _ _ _ Hi (Hok i) Hc) as (Hi' & Hg & Hph).
    split; [done|]. intros j. cbn. unfold set_wphase. case_decide as Hj; [by subst|].
    eapply wphase_ok_rely, Hok. eapply guar_rely; [|exact Hg]. intros E%(wk_owners Hwk). congruence.
  - intros Hok. pose proof Hok as [[Hw Hcl] _]. cbn in *. eapply (qpool_ok_moved g); [| |done|done].
    + split; [done|]. cbn. lia.
    + split; cbn; [lia|done|by left|done].
  - intros Hok. eapply (qpool_ok_moved g); [| |done|done].
    + eapply call_inv; [apply Hok|done].
    + eapply call_moves; [exact Hc|]. unfold gone. by rewrite Hp.
Qed.

Lemma qreachable_ok cf cf' : qinitial cf → rtc qstep cf cf' → qpool_ok cf'.
Proof.
  intros (Hi & Hid & _) Hs. assert (qpool_ok cf) as Hok.
  { split; [done|]. intros i. by rewrite Hid. }
  clear Hi Hid. induction Hs; eauto using qpool_ok_step.
Qed.

(** A worker that has the message is the owner of its lease. *)
Lemma has_message_owner cf i :
  qpool_ok cf → is_Some (payload b id (qc_world cf)) →
  has_message (qc_phase cf i) (clock (qc_world cf)) = true →
  ∃ o, rec n key (qc_world cf) = Some o ∧ Locker.owner_of (so_meta o) = w_owner (ws i) ∧
       queueLeaseExpired (so_meta o) (clock (qc_world cf)) = false.
Proof.
  intros [_ Hok] [pl Hpl] Hcl. specialize (Hok i). unfold has_message, wphase_ok in *.
  assert (∀ m, negb (m_finished m) && bool_decide (clock (qc_world cf) < m_leaseUntil m) = true →
    mheld b id (w_queue (ws i)) (w_owner (ws i)) m (qc_world cf) →
    ∃ o, rec n key (qc_world cf) = Some o ∧ Locker.owner_of (so_meta o) = w_owner (ws i) ∧
       queueLeaseExpired (so_meta o) (clock (qc_world cf)) = false) as Hm.
  { intros m [_ Hlt%bool_decide_eq_true]%andb_true_iff [_ _ _ _ _ [Hs _]].
    destruct (Hs Hlt) as [Hg|(o & ? & ? & He)]; [unfold gone in Hg; congruence|].
    exists o. rewrite queueLeaseExpired_lock. by auto. }
  destruct (qc_phase cf i); try done; [by eapply Hm|]. destruct Hok. by eapply Hm.
Qed.

(** Two workers never both have it. *)
Lemma has_message_unique cf i j :
  qpool_ok cf → is_Some (payload b id (qc_world cf)) →
  has_message (qc_phase cf i) (clock (qc_world cf)) = true →
  has_message (qc_phase cf j) (clock (qc_world cf)) = true → i = j.
Proof.
  intros Hok Hp Hi Hj. destruct (has_message_owner _ _ Hok Hp Hi) as (o & Ho & Hoi & _).
  destruct (has_message_owner _ _ Hok Hp Hj) as (o' & Ho' & Hoj & _).
  eapply (wk_owners Hwk). congruence.
Qed.

(** ** No loss

    Until someone calls [Ack], the payload [pl] is there, or its bytes are under
    [dead/].  Every call of a claim, a renewal and a [Nack] keeps it that way,
    and may rely on the others for it: [keeps] is both. *)

Section loss.
Context (pl : sobject).

Definition saved (g : world) : Prop := ∃ o, dead b id g = Some o ∧ so_data o = so_data pl.
Definition safe_payload (g : world) : Prop := payload b id g = Some pl ∨ (payload b id g = None ∧ saved g).

Record keeps (g g' : world) : Prop := {
  keeps_payload : payload b id g' = payload b id g ∨ (payload b id g' = None ∧ saved g');
  keeps_saved : saved g → saved g';
}.

#[local] Instance keeps_refl : Reflexive keeps.
Proof. intros g. split; [by left|done]. Qed.

#[local] Instance keeps_trans : Transitive keeps.
Proof.
  intros g1 g2 g3 [H1 S1] [H2 S2]. split; [|by auto].
  destruct H2 as [E2|?]; [|by right]. rewrite E2. destruct H1 as [->|[-> ?]]; [by left|]. right. by auto.
Qed.

Lemma keeps_safe g g' : keeps g g' → safe_payload g → safe_payload g'.
Proof. intros [[E|?] Hs] [Hp|[Hp ?]]; unfold safe_payload; rewrite ?E; naive_solver. Qed.

#[local] Abbreviation kept_by := (safe call safe_payload keeps keeps).

(** Calls that touch neither the payload nor the dead record. *)
Definition quiet (o : op) : Prop := touches o ≠ Some (n, msg_key b id) ∧ touches o ≠ Some (n, dead_key b id).

Lemma quiet_keeps o g a g' : call o g a g' → quiet o → keeps g g'.
Proof.
  intros Hc [Hp Hd]. split; unfold saved, payload, dead; [left|]; by rewrite (call_frame _ _ _ _ _ _ Hc).
Qed.

Lemma kb_call {R} (post : R → world → Prop) o k g :
  (∀ g1 a g2, keeps g g1 → call o g1 a g2 → safe_payload g1 → keeps g1 g2) →
  (∀ g1 a g2, keeps g g1 → safe_payload g1 → call o g1 a g2 → safe_payload g2 → kept_by post (k a) g2) →
  kept_by post (Vis o k) g.
Proof.
  intros Hq Hk g1 Hr Hi a g2 Hc. assert (keeps g1 g2) as Hkp by by eapply Hq.
  split; [by eapply keeps_safe|]. split; [done|]. eapply Hk; [done..|]. by eapply keeps_safe.
Qed.

Lemma kb_quiet {R} (post : R → world → Prop) o k g :
  quiet o → (∀ g1 a g2, keeps g g1 → safe_payload g1 → call o g1 a g2 → safe_payload g2 → kept_by post (k a) g2) →
  kept_by post (Vis o k) g.
Proof. intros Hq. apply kb_call. intros g1 a g2 _ Hc _. by eapply quiet_keeps. Qed.

Lemma quiet_none o : touches o = None → quiet o.
Proof. intros E. split; by rewrite E. Qed.

Lemma quiet_lease o : touches o = Some (n, key) → quiet o.
Proof. intros E. destruct (keys_differ b id) as (? & ? & ?). split; rewrite E; congruence. Qed.

Lemma absent_saved g : safe_payload g → payload b id g = None → saved g.
Proof. intros [?|[_ ?]] ?; [congruence|done]. Qed.

Context (q : Queue) (me : string) (Hq : q_bucket q = b).

(** The commit of the dead record, with the bytes of the payload. *)
Lemma call_close_dead w g a g' :
  sw_bucket w = b → sw_key w = queueDeadPrefix +:+ id → sw_buf w = so_data pl → sw_closed w = false →
  call (OClose w) g a g' →
  payload b id g' = payload b id g ∧ (saved g → saved g') ∧ (is_Ok a.2 = true → saved g').
Proof.
  intros Hb Hk Hd Hcl Hc. destruct (keys_differ b id) as (_ & _ & Hne). split.
  { apply (call_frame _ _ _ _ _ _ Hc). cbn. rewrite Hb, Hk. by intros [= E]. }
  destruct a as [w' res], Hc as (_ & [Hc _] & _). cbn in Hc. rewrite Hb, Hk, Hd, Hcl in Hc.
  assert (∀ md, put (stores g n) (dead_key b id) (so_data pl) md (stores g' n) → saved g') as Hput.
  { intros md (v & _ & E). unfold saved, dead. rewrite E.
    exists (mkSobject (so_data pl) md v). cbn [objs]. by rewrite lookup_insert_eq. }
  destruct res as [[]|e]; cbn in Hc; [by destruct Hc as [_ ?%Hput]|]. split; [|done].
  destruct Hc as [[E _]|(_ & _ & ?%Hput)]; [unfold saved, dead; by rewrite E|done].
Qed.

(** A dead record that was written has the bytes of the payload. *)
Lemma kb_writeDeadRecord attrs receives g :
  kept_by (λ r g', match r with Ok _ => saved g' | Err _ => True end) (writeDeadRecord q id attrs receives) g.
Proof.
  unfold writeDeadRecord. rewrite Hq. apply kb_quiet; [by apply quiet_none|].
  intros g1 [src|e] g2 _ Hi1 (_ & [[Hs Hr] _] & _) Hi2; cbn in Hs, Hr.
  2: { destruct (Is e ErrNotFound) eqn:He; [|done]. intros g3 Hk _. apply Hk, absent_saved; [done|].
       unfold payload. rewrite Hs. by eapply read_absent. }
  destruct Hr as (o & Ho & Hsrc). assert (o = pl) as -> by (destruct Hi1 as [Hp|[Hp _]]; unfold payload, msg_key in Hp; congruence).
  apply kb_quiet; [by apply quiet_none|]. intros g3 [w|e] g4 _ _ (_ & [[_ Hw] _] & _) _; [|done].
  cbn -[payload_options CompilePreconditions] in Hw. destruct Hw as (c & o & _ & _ & ->).
  apply kb_quiet; [by apply quiet_none|]. intros g5 [w' [m|e]] g6 _ _ (_ & [[_ Hw] _] & _) _.
  2: { apply kb_quiet; [by apply quiet_none|]. by intros g7 [w'' r'] g8. }
  destruct Hw as [Hse ->]. destruct Hsrc as [[Hd _]|[? ?]]; [|congruence].
  apply kb_call.
  - intros g7 a g8 _ Hc _. eapply call_close_dead in Hc as (? & ? & _); [by split; [left|]|done..].
  - intros g7 [w' r] g8 _ _ Hc _. eapply call_close_dead in Hc as (_ & _ & Hok); [|done..].
    intros g9 Hk _. destruct r; [|done]. by apply Hk, Hok.
Qed.

Lemma kb_remove_live v g : saved g → kept_by (λ _ _, True) (remove_live q id v) g.
Proof.
  intros Hs. unfold remove_live. rewrite Hq. apply kb_call.
  - intros g1 a g2 Hk Hc _. destruct (keys_differ b id) as (_ & _ & Hne).
    assert (dead b id g2 = dead b id g1) as Hd.
    { apply (call_frame _ _ _ _ _ _ Hc). cbn. intros [= E]. by apply Hne. }
    assert (saved g2) as Hs2. { unfold saved. rewrite Hd. by apply Hk. }
    split; [|done]. destruct Hc as (_ & [[(e & _ & _ & E)|(c & _ & Hdl)] _] & _).
    { left. unfold payload. by rewrite E. }
    assert (stores g2 n = stores g1 n ∨ stores g2 n = mkStore (delete (msg_key b id) (objs (stores g1 n))) (used (stores g1 n)))
      as [E|E] by (destruct a; cbn in Hdl; naive_solver); unfold payload; rewrite E; [by left|]. cbn.
    right. split; [apply lookup_delete_eq|done].
  - intros g1 a g2 _ _ _ _. destruct (delete_failed a); [done|].
    apply kb_quiet; [by apply quiet_lease|]. intros g3 [|e] g4 _ _ _ _; [done|]. by destruct (_ && _).
Qed.

Lemma kb_deadLetter receives v g : kept_by (λ _ _, True) (deadLetter q id receives v) g.
Proof.
  unfold deadLetter. rewrite Hq. apply kb_quiet; [by apply quiet_none|].
  intros g1 [a|e] g2 _ _ Hc Hi2.
  - eapply safe_bind; [apply keeps_refl|apply kb_writeDeadRecord|].
    intros [|] g3 _ Hs; [by apply kb_remove_live|done].
  - destruct (Is e ErrNotFound) eqn:He; [|done]. apply kb_remove_live, absent_saved; [done|].
    by eapply call_payload_absent.
Qed.

(** The rest of the programs does not touch the payload. *)
Lemma kb_getLease {R} (post : R → world → Prop) k g :
  (∀ r g', safe_payload g' → kept_by post (k r) g') →
  kept_by post (getLease q (queueLeasePrefix +:+ id) ≫= k) g.
Proof.
  intros Hk. unfold getLease. rewrite Hq. apply kb_quiet; [by apply quiet_none|].
  intros g1 [a|e] g2 _ _ _ Hi; by apply Hk.
Qed.

Lemma kb_writeLease {R} (post : R → world → Prop) now receives pre k g :
  (∀ r g', safe_payload g' → kept_by post (k r) g') →
  kept_by post (writeLease q (queueLeasePrefix +:+ id) me now receives pre ≫= k) g.
Proof.
  intros Hk. unfold writeLease. rewrite Hq. apply kb_quiet; [by apply quiet_lease|].
  intros g1 [a|e] g2 _ _ _ Hi; [|by apply Hk]. apply kb_quiet; [by apply quiet_none|].
  intros g3 [a'|e] g4 _ _ _ Hi4; by apply Hk.
Qed.

Lemma kb_claimed now receives v g : kept_by (λ _ _, True) (claimed q id me now receives v) g.
Proof.
  unfold claimed. rewrite Hq. apply kb_quiet; [by apply quiet_none|]. intros g1 [a|e] g2 _ _ _ _; [done|].
  destruct (Is e ErrNotFound); [|done]. apply kb_quiet; [by apply quiet_lease|]. done.
Qed.

Lemma kb_tryClaim g : kept_by (λ _ _, True) (tryClaim q id me) g.
Proof.
  unfold tryClaim. apply kb_getLease. intros r g1 _. apply kb_quiet; [by apply quiet_none|].
  intros g2 now g3 _ _ _ _. destruct r as [[f v]|e].
  - destruct (negb _); [done|]. destruct (_ && _); apply kb_writeLease; intros [nv|e] g4 _.
    + eapply safe_bind; [apply keeps_refl|apply kb_deadLetter|]. by intros [|] g5 _ _.
    + by destruct (_ || _).
    + apply kb_claimed.
    + by destruct (_ || _).
  - destruct (Is e _); [|done]. apply kb_writeLease. intros [nv|e'] g4 _; [apply kb_claimed|by destruct (Is e' _)].
Qed.

Lemma kb_renewTick m g : mine id q me m → kept_by (λ _ _, True) (renewTick m) g.
Proof.
  intros [Hqu Hl _ Ho]. unfold renewTick. apply kb_quiet; [by apply quiet_none|].
  intros g1 now g2 _ _ _ _. destruct (negb _); [done|]. unfold renewOnce. rewrite Hqu, Hl, Ho.
  apply safe_bind_assoc. apply kb_writeLease. intros [v|e] g3 _; cbn; [done|]. by destruct (_ || _).
Qed.

Lemma kb_Nack m g : mine id q me m → kept_by (λ _ _, True) (Nack m) g.
Proof.
  intros Hm. unfold Nack, settle. destruct (m_settled m); [done|]. apply mine_settled in Hm.
  set (m' := finish _ _) in *. clearbody m'. destruct Hm as [Hqu Hl _ Ho].
  unfold nack_record. rewrite Hqu, Hl, Ho. apply safe_bind_assoc. apply kb_getLease.
  intros [[f v]|e] g1 _; [|by destruct (Is e _)]. destruct (negb _); [done|].
  apply kb_quiet; [by apply quiet_none|]. intros g2 now g3 _ _ _ _. rewrite Hq.
  apply kb_quiet; [by apply quiet_lease|]. intros g4 [|e] g5 _ _ _ _; [done|]. by destruct (_ || _).
Qed.
End loss.

Definition wphase_keeps (pl : sobject) (ph : wphase) (g : world) : Prop :=
  let kept_by {R} (p : prog R) := safe call (safe_payload pl) (keeps pl) (keeps pl) (λ _ _, True) p g in
  match ph with
  | Claiming p => kept_by p
  | Renewing m p => kept_by p
  | Settling p => kept_by p
  | _ => True
  end.

Definition unlost (pl : sobject) (cf : qconfig) : Prop :=
  qc_acks cf ≠ [] ∨
  (safe_payload pl (qc_world cf) ∧ ∀ i, wphase_keeps pl (qc_phase cf i) (qc_world cf)).

Lemma wphase_keeps_moved pl ph g g' : keeps pl g g' → wphase_keeps pl ph g → wphase_keeps pl ph g'.
Proof. intros Hk. destruct ph; cbn; try done; intros Hs; (eapply safe_stable; [apply keeps_trans|exact Hs|exact Hk]). Qed.

Lemma unlost_moved pl g g' ph : keeps pl g g' → unlost pl (mkQconfig g ph []) → unlost pl (mkQconfig g' ph []).
Proof.
  intros Hk [?|[Hs Hp]]; [by left|]. right. split; [by eapply keeps_safe|]. intros i. by eapply wphase_keeps_moved, Hp.
Qed.

Lemma unlost_step pl cf cf' : qpool_ok cf → qstep cf cf' → unlost pl cf → unlost pl cf'.
Proof.
  intros [Hi Hok] Hst Hu. destruct (decide (qc_acks cf = [])) as [E|E].
  2: { left. destruct Hst as [i g ph ph' acks [] Hl| | |]; cbn in *; done. }
  destruct Hu as [?|[Hs Hp]]; [done|].
  destruct Hst as [i g ph ph' acks [] Hl|i g g' ph ph' acks Hc|g t ph acks Ht|o g a g' ph acks Hc Hr Hpl Hd]; cbn in *.
  - by left.
  - right. split; [done|]. intros j. cbn. unfold set_wphase. case_decide as Hj; [|apply Hp]. subst j.
    specialize (Hok i). inversion Hl as [E1 E2| |m E1 E2|m Hf E1 E2|m m' go E1 E2| |m E1 E2|ph1 E1 E2]; subst; cbn; try done; rewrite <- E1 in Hok.
    + apply kb_tryClaim, Hwk.
    + eapply kb_renewTick; [apply Hwk|by eapply mheld_mine].
    + eapply kb_Nack; [apply Hwk|by eapply mheld_mine].
  - right. assert (keeps pl g g' ∧ wphase_keeps pl ph' g') as [Hk Hph].
    { specialize (Hp i). destruct Hc as [o k a Hc|m o k a Hc|o k a Hc]; cbn in Hp;
        by destruct (Hp g (keeps_refl pl g) Hs a g' Hc) as (_ & ? & ?). }
    split; [by eapply keeps_safe|]. intros j. cbn. unfold set_wphase. case_decide; [done|].
    by eapply wphase_keeps_moved.
  - subst. apply (unlost_moved pl g); [|by right]. split; [by left|done].
  - subst. apply (unlost_moved pl g); [|by right]. split; [by left|]. unfold saved. by rewrite Hd.
Qed.

Lemma qreachable_unlost pl cf cf' :
  qinitial cf → payload b id (qc_world cf) = Some pl → rtc qstep cf cf' → unlost pl cf'.
Proof.
  intros Hin Hpl Hs. assert (unlost pl cf) as Hu.
  { right. split; [by left|]. intros i. destruct Hin as (_ & Hid & _). by rewrite Hid. }
  assert (qpool_ok cf) as Hok by by eapply qreachable_ok.
  clear Hin Hpl. induction Hs; eauto using qpool_ok_step, unlost_step.
Qed.
End pool.

(** ** The theorems *)

Section theorems.
Context `{GT : GoTables} `{TT : TimeText} {I : Type} `{EqDecision I}.
Context (b : Handle) (id : string) (lo hi : Z) (ws : I → worker).

(** C2: exclusive delivery.  However the calls of the workers interleave, fail or
    lose their answers, and whatever lease record there was, two workers never
    both have the message (delivered, not finished, before the end of the lease)
    while its payload is there. *)
Theorem queue_exclusive_delivery cf cf' i j :
  working b lo hi ws → qinitial lo hi cf → rtc (qstep b id hi ws) cf cf' →
  is_Some (payload b id (qc_world cf')) →
  has_message (qc_phase cf' i) (clock (qc_world cf')) = true →
  has_message (qc_phase cf' j) (clock (qc_world cf')) = true → i = j.
Proof.
  intros Hwk Hin Hs. eapply has_message_unique; [exact Hwk|]. by eapply qreachable_ok.
Qed.

(** C3: at least once.  A payload that was enqueued stays as it is until a worker
    that got the message calls [Ack] for it; before that it is removed only when
    its bytes are stored under [dead/], whatever calls fail and whichever worker
    dies where. *)
Theorem queue_no_loss cf cf' pl :
  working b lo hi ws → qinitial lo hi cf → payload b id (qc_world cf) = Some pl →
  rtc (qstep b id hi ws) cf cf' →
  qc_acks cf' ≠ [] ∨ payload b id (qc_world cf') = Some pl ∨
  (payload b id (qc_world cf') = None ∧
   ∃ o, dead b id (qc_world cf') = Some o ∧ so_data o = so_data pl).
Proof.
  intros Hwk Hin Hpl Hs. by destruct (qreachable_unlost _ _ _ _ _ Hwk _ _ _ Hin Hpl Hs) as [?|[? _]]; [left|right].
Qed.

End theorems.
