(* ===== verification/QueueListing.v ===== *)
(** * Listings of a queue on the in-memory driver

    The ids the queue's listings hold, in order, and the ids that [Enqueue]
    makes: what the theorems about tails and retention share. *)
From S2P Require Import Prelude Strconv GoTime Md5 Core Effects Store MemDriver MemTheorems MemStore MemRun Queue QueueTheorems.

Import Queue.

(** ** Lists *)

(** The part of a list before its first element with [f]. *)
Fixpoint before {A} (f : A → bool) (l : list A) : list A :=
  match l with
  | [] => []
  | x :: l => if f x then [] else x :: before f l
  end.

Lemma before_cut {A} (f : A → bool) l : ∃ l', l = before f l ++ l' ∧ (l' = [] ∨ ∃ y l'', l' = y :: l'' ∧ f y = true).
Proof.
  induction l as [|x l (l' & E & IH)]; cbn; [exists []; by auto|].
  destruct (f x) eqn:Hx; [exists (x :: l); split; [done|]; right; by exists x, l|]. exists l'. split; [cbn; congruence|done].
Qed.

Lemma elem_of_before {A} (f : A → bool) l x : x ∈ before f l → f x = false.
Proof.
  induction l as [|y l IH]; cbn; [by intros ?%elem_of_nil|]. destruct (f y) eqn:E; [by intros ?%elem_of_nil|].
  intros [->|Hx]%elem_of_cons; [done|by apply IH].
Qed.

Lemma StronglySorted_filter {A} (R : A → A → Prop) (P : A → Prop) `{∀ x, Decision (P x)} l :
  StronglySorted R l → StronglySorted R (filter P l).
Proof.
  induction 1 as [|x l Hl IH Hx]; [constructor|]. rewrite filter_cons. case_decide; [|done].
  constructor; [done|]. rewrite Forall_forall in *. intros y [_ Hy]%list_elem_of_filter. by apply Hx.
Qed.

Lemma filter_all {A} (P : A → Prop) `{∀ x, Decision (P x)} (l : list A) : (∀ x, x ∈ l → P x) → filter P l = l.
Proof.
  induction l as [|x l IH]; intros Hl; [done|]. rewrite filter_cons_True by (apply Hl; by left).
  f_equal. apply IH. intros y Hy. apply Hl. by right.
Qed.

Lemma filter_none {A} (P : A → Prop) `{∀ x, Decision (P x)} (l : list A) : (∀ x, x ∈ l → ¬ P x) → filter P l = [].
Proof.
  induction l as [|x l IH]; intros Hl; [done|]. rewrite filter_cons_False by (apply Hl; by left).
  apply IH. intros y Hy. apply Hl. by right.
Qed.

Lemma before_app {A} (f : A → bool) l1 l2 : (∀ x, x ∈ l1 → f x = false) → before f (l1 ++ l2) = l1 ++ before f l2.
Proof.
  induction l1 as [|x l1 IH]; intros Hl; [done|]. cbn. rewrite Hl by (by left).
  f_equal. apply IH. intros y Hy. apply Hl. by right.
Qed.

(** ** The ids under a prefix of a queue *)

(** The id of a listed object. *)
Definition listed_id (prefix : string) (obj : ListObject) : option string :=
  id ← CutPrefix (lo_Key obj) prefix; if decide (id = "") then None else Some id.

Lemma omap_listed prefix obj objs :
  omap (listed_id prefix) (obj :: objs) =
  match CutPrefix (lo_Key obj) prefix with
  | Some id => if decide (id = "") then omap (listed_id prefix) objs else id :: omap (listed_id prefix) objs
  | None => omap (listed_id prefix) objs
  end.
Proof.
  cbn [omap list_omap]. unfold listed_id at 1. destruct (CutPrefix (lo_Key obj) prefix); cbn [mbind option_bind]; [by case_decide|done].
Qed.

Definition all_under (prefix : string) : ListOptions := mkListOptions prefix "" None.

Section ids.
Context `{GT : GoTables}.

Definition listing (prefix : string) (w : nat → Mem.state) (b : Handle) : list ListObject :=
  Mem.listObjectsLocked (memBucket b) (all_under prefix) (w (h_store b)).

Definition ids_under (prefix : string) (w : nat → Mem.state) (b : Handle) : list string := omap (listed_id prefix) (listing prefix w b).

Lemma listed_id_Some prefix obj id : listed_id prefix obj = Some id ↔ lo_Key obj = prefix +:+ id ∧ id ≠ "".
Proof.
  unfold listed_id. rewrite bind_Some. setoid_rewrite CutPrefix_Some. split.
  - intros (id' & -> & Hid). case_decide; simplify_eq. done.
  - intros [-> Hne]. exists id. by rewrite decide_False.
Qed.

Lemma elem_of_ids prefix w b id : id ∈ ids_under prefix w b ↔ id ≠ "" ∧ is_Some (obj w b (prefix +:+ id)).
Proof.
  unfold ids_under. rewrite list_elem_of_omap. setoid_rewrite listed_id_Some.
  destruct (mem_list_sorted_complete (memBucket b) (all_under prefix) (w (h_store b)) eq_refl) as [_ Hk].
  specialize (Hk (prefix +:+ id)). rewrite list_elem_of_fmap in Hk. split.
  - intros (x & Hx & E & Hne). split; [done|]. apply Hk. by exists x.
  - intros [Hne Ho]. destruct (proj2 Hk) as (x & E & Hx); [|by exists x].
    split; [apply HasPrefix_app|exact Ho].
Qed.

Lemma str_lt_NoDup l : StronglySorted str_lt l → NoDup l.
Proof.
  induction 1 as [|x l Hs IH Hx]; constructor; [|done]. intros Hin. rewrite Forall_forall in Hx. by destruct (Hx x Hin).
Qed.

Lemma ids_sorted prefix w b : StronglySorted str_lt (ids_under prefix w b).
Proof.
  unfold ids_under, listing.
  destruct (mem_list_sorted_complete (memBucket b) (all_under prefix) (w (h_store b)) eq_refl) as [Hs _]. revert Hs.
  generalize (Mem.listObjectsLocked (memBucket b) (all_under prefix) (w (h_store b))) as l.
  induction l as [|x l IH]; cbn [fmap list_fmap omap list_omap]; [constructor|]. intros Hs.
  inversion Hs as [|? ? Hs' Hx]; subst. destruct (listed_id prefix x) as [id|] eqn:E; [|by apply IH].
  constructor; [by apply IH|]. apply listed_id_Some in E as [E _]. apply Forall_forall.
  intros id' (y & Hy & [Ey _]%listed_id_Some)%list_elem_of_omap. rewrite Forall_fmap, Forall_forall in Hx.
  specialize (Hx y Hy). cbn in Hx. rewrite E, Ey in Hx. by apply str_lt_app in Hx.
Qed.

(** A listing has no more entries than the bucket has objects. *)
Lemma listing_size prefix w b : (length (listing prefix w b) ≤ size (Mem.objects (w (h_store b))))%nat.
Proof.
  unfold listing. rewrite <- (length_fmap lo_Key), list_keys by done. rewrite length_fmap. unfold Mem.listed_keys.
  rewrite merge_sort_Permutation. etrans; [apply length_filter|]. by rewrite length_fmap, length_map_to_list.
Qed.

End ids.

(** An id as [Enqueue] makes them. *)
Definition stamped (id : string) : Prop := ∃ ts u, id_range ts ∧ id = newQueueID ts u.

Lemma stamped_time id : stamped id → ∃ ts, queueIDTime id = Some ts.
Proof. intros (ts & u & Hr & ->). rewrite queue_id_time_roundtrip by done. by eexists. Qed.

Lemma stamped_nonempty id : stamped id → id ≠ "".
Proof. intros [ts E]%stamped_time ->. done. Qed.

(** Of two such ids, the one with the earlier stamp sorts first. *)
Lemma stamps_sorted id id' ts ts' :
  stamped id → stamped id' → queueIDTime id = Some ts → queueIDTime id' = Some ts' → ts < ts' → str_lt id id'.
Proof.
  intros (t & u & Hr & ->) (t' & u' & Hr' & ->). rewrite !queue_id_time_roundtrip by done. intros [= <-] [= <-] Hlt.
  apply queue_ids_sorted_by_time; [done..|]. unfold UnixMilli. rewrite !Z.mod_eq in Hlt by done.
  enough (Millisecond * (t / Millisecond) < Millisecond * (t' / Millisecond)) by (unfold Millisecond in *; lia). lia.
Qed.
