(* ===== verification/TrimTheorems.v ===== *)
(** * A retention pass on the in-memory driver

    [Trim] run on a bucket nobody else changes meanwhile: what is gone after it,
    what is left, and when nothing is left to trim. *)
From S2P Require Import Prelude Strconv GoTime Md5 Core Effects Store MemDriver MemTheorems MemStore MemRun Queue QueueTheorems QueueListing.

Import Queue.

Definition expired (horizon : Z) (id : string) : bool := from_option (λ ts, Before ts horizon) false (queueIDTime id).

Section trim.
Context `{GT : GoTables} `{TT : TimeText} (q : Queue).
Let b := q_bucket q.

(** A delete without conditions succeeds or finds nothing, and the object is gone. *)
Lemma run_delete_gone key envs w :
  (∀ i, calm (envs i)) →
  ∃ r, delete_failed r = None ∧ ∀ R (f : result unit → prog R),
    run exec (trigger (ODelete b key []) ≫= f) envs w = run exec (f r) (λ i, envs (1 + i)%nat) (removed b key w).
Proof.
  intros He. eexists (match Mem.objects (w (h_store b)) !! h_key b key with Some _ => Ok tt | None => Err ErrNotFound end).
  split; [by destruct (_ !! _)|]. intros R f.
  cbn -[CompilePreconditions]. rewrite (calm_Delete _ _ _ _ _ _ (He 0%nat) compile_nil). unfold removed.
  destruct (Mem.objects (w (h_store b)) !! h_key b key) as [o|] eqn:E; [done|].
  rewrite bool_decide_false by (by intros []). cbn. rewrite delete_id by done. by destruct (w (h_store b)).
Qed.

(** The same for a delete that only some sweeps make. *)
Lemma run_paired_gone (paired : bool) key envs w :
  (∀ i, calm (envs i)) →
  ∃ r envs', delete_failed r = None ∧ (∀ i, calm (envs' i)) ∧ ∀ R (f : result unit → prog R),
    run exec ((if paired then trigger (ODelete b key []) else mret (Ok tt)) ≫= f) envs w =
    run exec (f r) envs' (if paired then removed b key w else w).
Proof.
  intros He. destruct paired.
  - destruct (run_delete_gone key envs w He) as (r & Hr & Hx). exists r, (λ i, envs (1 + i)%nat). done.
  - by exists (Ok tt), envs.
Qed.

(** The bucket after the entries of [ids] are deleted, with their leases. *)
Fixpoint swept (prefix : string) (paired : bool) (ids : list string) (w : nat → Mem.state) : nat → Mem.state :=
  match ids with
  | [] => w
  | id :: ids =>
    let w := removed b (prefix +:+ id) w in
    swept prefix paired ids (if paired then removed b (queueLeasePrefix +:+ id) w else w)
  end.

(** The ids a sweep deletes: up to the first that is not expired. *)
Definition due (horizon budget : Z) (ids : list string) : list string :=
  take (Z.to_nat budget) (before (λ id, negb (expired horizon id)) ids).

Lemma due_cons horizon budget id ids :
  0 < budget → due horizon budget (id :: ids) = if expired horizon id then id :: due horizon (budget - 1) ids else [].
Proof.
  intros Hb. unfold due. cbn [before]. destruct (expired horizon id); cbn [negb]; [|by rewrite take_nil].
  by replace (Z.to_nat budget) with (S (Z.to_nat (budget - 1))) by lia.
Qed.

(** How the scan of a page ends. *)
Definition swept_page (horizon r budget : Z) (ids : list string) : sweep :=
  let n := Z.of_nat (length (due horizon budget ids)) in
  if bool_decide (due horizon budget ids = ids ∧ n < budget) then SweepNext (r + n) (budget - n) else SweepReturn (r + n) None.

Lemma run_sweep_page {R} (f : sweep → prog R) prefix horizon paired objs r budget envs w :
  (∀ i, calm (envs i)) → 0 < budget → (∀ id, id ∈ omap (listed_id prefix) objs → is_Some (queueIDTime id)) →
  let ids := omap (listed_id prefix) objs in
  ∃ envs', (∀ i, calm (envs' i)) ∧
    run exec (sweep_page q prefix horizon paired objs r budget ≫= f) envs w =
    run exec (f (swept_page horizon r budget ids)) envs' (swept prefix paired (due horizon budget ids) w).
Proof.
  revert r budget envs w. induction objs as [|obj objs IH]; intros r budget envs w He Hb.
  { intros _. exists envs. split; [done|]. unfold swept_page, due. cbn. rewrite take_nil, bool_decide_true by done. cbn.
    by rewrite Z.add_0_r, Z.sub_0_r. }
  rewrite omap_listed. cbn [sweep_page]. destruct (CutPrefix (lo_Key obj) prefix) as [id|] eqn:Ek; [|by apply IH].
  case_bool_decide as Hid; [rewrite decide_True by done; by apply IH|]. rewrite decide_False by done. intros Hts.
  destruct (Hts id ltac:(by left)) as [ts Ets]. rewrite Ets.
  assert (expired horizon id = Before ts horizon) as Ex by (unfold expired; by rewrite Ets).
  unfold swept_page. rewrite due_cons, Ex by done. destruct (Before ts horizon); cbn [negb].
  2: { exists envs. split; [done|]. rewrite bool_decide_false by (by intros []). cbn. by rewrite Z.add_0_r. }
  apply CutPrefix_Some in Ek. rewrite Ek, run_bind_assoc. fold b.
  set (ids := omap (listed_id prefix) objs). cbn [swept].
  destruct (run_delete_gone (prefix +:+ id) envs w He) as (r1 & Hr1 & ->). rewrite Hr1, run_bind_assoc.
  destruct (run_paired_gone paired (queueLeasePrefix +:+ id) (λ i, envs (1 + i)%nat) (removed b (prefix +:+ id) w) (λ i, He _))
    as (r2 & envs2 & Hr2 & He2 & ->). rewrite Hr2.
  case_bool_decide as Hlast.
  - exists envs2. split; [done|]. unfold due. replace (Z.to_nat (budget - 1)) with 0%nat by lia. cbn.
    rewrite bool_decide_false by (intros []; lia). done.
  - destruct (IH (r + 1) (budget - 1) envs2 (if paired then removed b (queueLeasePrefix +:+ id) (removed b (prefix +:+ id) w)
      else removed b (prefix +:+ id) w) He2 ltac:(lia) (λ id' Hid', Hts id' ltac:(by right))) as (envs' & He' & ->).
    exists envs'. split; [done|]. f_equal. f_equal. unfold swept_page. fold ids. cbn [length].
    destruct (decide (due horizon (budget - 1) ids = ids ∧ Z.of_nat (length (due horizon (budget - 1) ids)) < budget - 1)) as [Hd|Hd].
    + rewrite !bool_decide_true by (first [done|destruct Hd; split; [congruence|lia]]). f_equal; lia.
    + rewrite !bool_decide_false by (first [done|intros [? ?]; apply Hd; split; [congruence|lia]]). f_equal; lia.
Qed.

Lemma due_prefix horizon budget l1 l2 :
  (Z.to_nat budget ≤ length l1)%nat ∨ l2 = [] → due horizon budget (l1 ++ l2) = due horizon budget l1.
Proof.
  intros [Hle| ->]; [|by rewrite app_nil_r]. revert budget Hle. induction l1 as [|x l1 IH]; intros budget Hle.
  { unfold due. cbn in Hle. by replace (Z.to_nat budget) with 0%nat by lia. }
  destruct (decide (0 < budget)) as [Hb|Hb]; [|unfold due; by replace (Z.to_nat budget) with 0%nat by lia].
  cbn [app]. rewrite !due_cons, IH by (done || (cbn in Hle; lia)). done.
Qed.

(** When every entry is stamped, the ids of a part of the listing are as many as
    its entries. *)
Lemma listing_ids prefix w objs :
  (∀ id, is_Some (obj w b (prefix +:+ id)) → stamped id) → (∀ x, x ∈ objs → x ∈ listing prefix w b) →
  length (omap (listed_id prefix) objs) = length objs ∧ ∀ id, id ∈ omap (listed_id prefix) objs → is_Some (queueIDTime id).
Proof.
  intros Hst Hin.
  destruct (mem_list_sorted_complete (memBucket b) (all_under prefix) (w (h_store b)) eq_refl) as [_ Hk].
  assert (∀ x, x ∈ objs → ∃ id, CutPrefix (lo_Key x) prefix = Some id ∧ stamped id) as Hx.
  { intros x Hx. destruct (proj1 (Hk (lo_Key x))) as [[id E]%HasPrefix_spec Ho]; [by apply list_elem_of_fmap_2, Hin|].
    cbn in E. exists id. rewrite E in *. split; [by apply CutPrefix_app|]. by apply Hst. }
  clear Hin Hk. induction objs as [|x objs IH]; [split; [done|by intros ? ?%elem_of_nil]|].
  destruct (Hx x ltac:(by left)) as (id & E & Hid). rewrite omap_listed, E, decide_False by (by apply stamped_nonempty).
  destruct IH as [IH1 IH2]; [intros y Hy; apply Hx; by right|]. split; [cbn; by rewrite IH1|].
  intros id' [-> |Hid']%elem_of_cons; [|by apply IH2]. by apply stamped_time.
Qed.

(** A sweep of a prefix whose ids are all stamped ends within its first page. *)
Lemma run_trimSweep {R} (f : option (Z * option error) → prog R) fuel prefix horizon paired budget envs w :
  (∀ i, calm (envs i)) → 0 < budget ≤ 1000 → (0 < fuel)%nat → Z.of_nat (length (listing prefix w b)) + 1000 ≤ int64_max →
  (∀ id, is_Some (obj w b (prefix +:+ id)) → stamped id) →
  let ids := due horizon budget (ids_under prefix w b) in
  ∃ envs', (∀ i, calm (envs' i)) ∧
    run exec (trimSweep fuel q prefix horizon paired FirstPageToken 0 budget ≫= f) envs w =
    run exec (f (Some (Z.of_nat (length ids), None))) envs' (swept prefix paired ids w).
Proof.
  intros He Hb Hf Hlen Hst. destruct fuel as [|fuel]; [lia|]. cbn [trimSweep]. rewrite bool_decide_true by lia. cbn [negb].
  rewrite run_bind_assoc. cbn [trigger mbind prog_mbind prog_bind run]. unfold exec at 1. fold b. rewrite (He 0%nat).
  fold (all_under prefix).
  rewrite (page_at (memBucket b) (w (h_store b)) FirstPageToken 0 1000 (all_under prefix)) by (exact Hlen || done || lia).
  fold (listing prefix w b). change (Z.to_nat 0) with 0%nat. rewrite drop_0. change (Z.to_nat 1000) with 1000%nat.
  set (page := take 1000 (listing prefix w b)).
  assert (∀ x, x ∈ page → x ∈ listing prefix w b) as Hpage.
  { intros x (i & Hi & _)%elem_of_take. by eapply list_elem_of_lookup_2. }
  destruct (listing_ids prefix w page Hst Hpage) as [Hn Hts].
  assert (due horizon budget (ids_under prefix w b) = due horizon budget (omap (listed_id prefix) page)) as ->.
  { unfold ids_under. rewrite <- (take_drop 1000 (listing prefix w b)), omap_app. fold page. apply due_prefix.
    destruct (decide (length (listing prefix w b) ≤ 1000)%nat); [right; by rewrite drop_ge|].
    left. rewrite Hn. unfold page. rewrite length_take. lia. }
  set (ids := omap (listed_id prefix) page) in *. rewrite run_bind_assoc.
  match goal with |- ∃ _, _ ∧ run exec (_ ≫= ?k) _ _ = _ =>
    destruct (run_sweep_page k prefix horizon paired page 0 budget (λ i, envs (1 + i)%nat) w (λ i, He _) ltac:(lia) Hts)
      as (envs' & He' & ->) end.
  exists envs'. split; [done|]. fold ids. unfold swept_page. case_bool_decide as Hd; [|done]. destruct Hd as [Hd Hd'].
  rewrite (bool_decide_false (0 + 1000 < _)); [done|]. rewrite Hd in Hd'. rewrite Hn in Hd'.
  unfold page in Hd'. rewrite length_take in Hd'. lia.
Qed.

(** ** What a sweep leaves *)

Lemma obj_removed_any key w b' key' :
  obj (removed b key w) b' key' =
  if decide (h_store b' = h_store b ∧ h_key b' key' = h_key b key) then None else obj w b' key'.
Proof.
  unfold obj, removed, upd. destruct (decide (h_store b' = h_store b)) as [Es|Es]; [|by rewrite decide_False by (by intros [])].
  cbn. rewrite Es. destruct (decide (h_key b' key' = h_key b key)) as [Ek|Ek].
  - rewrite decide_True by done. rewrite Ek. apply lookup_delete_eq.
  - rewrite decide_False by (by intros []). by rewrite lookup_delete_ne.
Qed.

(** The keys a sweep deletes. *)
Definition victims (prefix : string) (paired : bool) (ids : list string) : list string :=
  ((λ id, prefix +:+ id) <$> ids) ++ (if paired then (λ id, queueLeasePrefix +:+ id) <$> ids else []).

Lemma elem_of_victims prefix paired ids key :
  key ∈ victims prefix paired ids ↔ ∃ id, id ∈ ids ∧ (key = prefix +:+ id ∨ paired = true ∧ key = queueLeasePrefix +:+ id).
Proof.
  unfold victims. rewrite elem_of_app. destruct paired; rewrite ?list_elem_of_fmap, ?elem_of_nil; naive_solver.
Qed.

Lemma obj_swept prefix paired ids w b' key' :
  (obj (swept prefix paired ids w) b' key' = obj w b' key' ∧
   ¬ (h_store b' = h_store b ∧ ∃ key, key ∈ victims prefix paired ids ∧ h_key b' key' = h_key b key)) ∨
  (obj (swept prefix paired ids w) b' key' = None ∧
   h_store b' = h_store b ∧ ∃ key, key ∈ victims prefix paired ids ∧ h_key b' key' = h_key b key).
Proof.
  setoid_rewrite elem_of_victims. revert w. induction ids as [|id ids IH]; intros w; cbn [swept].
  { left. split; [done|]. intros (_ & key & (id & ?%elem_of_nil & _) & _). done. }
  set (w1 := if paired then _ else _).
  assert ((obj w1 b' key' = obj w b' key' ∧
      ¬ (h_store b' = h_store b ∧ (h_key b' key' = h_key b (prefix +:+ id) ∨ paired = true ∧ h_key b' key' = h_key b (queueLeasePrefix +:+ id)))) ∨
    (obj w1 b' key' = None ∧
      h_store b' = h_store b ∧ (h_key b' key' = h_key b (prefix +:+ id) ∨ paired = true ∧ h_key b' key' = h_key b (queueLeasePrefix +:+ id)))) as H1.
  { unfold w1. destruct paired; rewrite !obj_removed_any; repeat case_decide; naive_solver. }
  destruct (IH w1) as [[-> Hn]|(-> & Es & key & (id' & Hid' & Hc) & Hk)].
  - destruct H1 as [[-> Hn']|(-> & Es & Hc)].
    + left. split; [done|]. intros (Es & key & (id' & [-> |Hid']%elem_of_cons & Hc) & Hk); [naive_solver|]. apply Hn. eauto 10.
    + right. split; [done|]. split; [done|]. destruct Hc as [Hc|[-> Hc]]; (eexists; split; [exists id; split; [by left|]; by eauto|done]).
  - right. split; [done|]. split; [done|]. exists key. split; [|done]. exists id'. split; [by right|done].
Qed.

Lemma swept_size prefix paired ids w :
  (size (Mem.objects (swept prefix paired ids w (h_store b))) ≤ size (Mem.objects (w (h_store b))))%nat.
Proof.
  assert (∀ key w, (size (Mem.objects (removed b key w (h_store b))) ≤ size (Mem.objects (w (h_store b))))%nat) as Hr.
  { intros key w'. unfold removed. rewrite upd_eq. cbn. rewrite map_size_delete. case_match; cbn; lia. }
  revert w. induction ids as [|id ids IH]; intros w; cbn [swept]; [done|]. etrans; [apply IH|].
  destruct paired; [etrans; [apply Hr|]|]; apply Hr.
Qed.

(** The objects of the queue's own bucket. *)
Lemma obj_swept_own prefix paired ids w key :
  is_Some (obj (swept prefix paired ids w) b key) ↔ is_Some (obj w b key) ∧ key ∉ victims prefix paired ids.
Proof.
  destruct (obj_swept prefix paired ids w b key) as [[-> Hn]|(-> & _ & key' & Hv & Hk)].
  - split; [|by intros [? _]]. intros Ho. split; [done|]. intros Hv. apply Hn. split; [done|]. by exists key.
  - apply string_app_inj_l in Hk as ->. split; [by intros []|]. by intros [_ []].
Qed.

Lemma due_expired horizon budget ids id : id ∈ due horizon budget ids → expired horizon id = true ∧ id ∈ ids.
Proof.
  intros (i & Hi & _)%elem_of_take. apply list_elem_of_lookup_2 in Hi. split.
  - by apply elem_of_before, negb_false_iff in Hi.
  - destruct (before_cut (λ id, negb (expired horizon id)) ids) as (l' & E & _). rewrite E. apply elem_of_app. by left.
Qed.

(** A sweep that does not use up its budget takes every expired id. *)
Lemma due_complete horizon budget ids id :
  StronglySorted str_lt ids → (∀ id, id ∈ ids → stamped id) → Z.of_nat (length (due horizon budget ids)) < budget →
  id ∈ ids → expired horizon id = true → id ∈ due horizon budget ids.
Proof.
  intros Hs Hst Hlen Hid Hx. unfold due in *. rewrite length_take in Hlen. rewrite take_ge by lia. clear Hlen.
  destruct (before_cut (λ id, negb (expired horizon id)) ids) as (l' & E & Hcut).
  set (B := before _ _) in *. rewrite E in Hid. apply elem_of_app in Hid as [|Hl']; [done|exfalso].
  destruct Hcut as [-> |(y & l'' & -> & Hy%negb_true_iff)]; [by apply elem_of_nil in Hl'|].
  apply elem_of_cons in Hl' as [-> |Hl']; [congruence|].
  assert (str_lt y id) as [Hle Hne].
  { rewrite E in Hs. apply StronglySorted_app_1_r, StronglySorted_cons in Hs as [Hs _]. rewrite Forall_forall in Hs. by apply Hs. }
  assert (stamped y ∧ stamped id) as [Hsy Hsid].
  { split; apply Hst; rewrite E; apply elem_of_app; right; [by left|by right]. }
  destruct (stamped_time y Hsy) as [ty Ey]. destruct (stamped_time id Hsid) as [ti Ei].
  unfold expired in Hx, Hy. rewrite Ei in Hx. rewrite Ey in Hy. cbn in Hx, Hy. unfold Before in *.
  apply bool_decide_eq_true in Hx. apply bool_decide_eq_false in Hy.
  destruct (stamps_sorted id y ti ty) as [Hle' _]; [done..|lia|]. by apply Hne, (anti_symm String.le).
Qed.

(** After a sweep with budget left, no entry of the prefix is expired. *)
Lemma swept_clean prefix paired horizon budget w id :
  (∀ id, is_Some (obj w b (prefix +:+ id)) → stamped id) →
  Z.of_nat (length (due horizon budget (ids_under prefix w b))) < budget →
  is_Some (obj (swept prefix paired (due horizon budget (ids_under prefix w b)) w) b (prefix +:+ id)) → expired horizon id = false.
Proof.
  intros Hst Hlen [Ho Hv]%obj_swept_own. destruct (expired horizon id) eqn:Ex; [|done]. destruct Hv.
  apply elem_of_victims. exists id. split; [|by left]. apply due_complete; [apply ids_sorted| |done| |done].
  - intros id' [_ Hid']%elem_of_ids. by apply Hst.
  - apply elem_of_ids. split; [|done]. by apply stamped_nonempty, Hst.
Qed.

(** A change that only removes payloads and leases with expired ids. *)
Definition trimmed (horizon : Z) (w w' : nat → Mem.state) : Prop :=
  ∀ b' key, obj w' b' key = obj w b' key ∨
    obj w' b' key = None ∧ h_store b' = h_store b ∧ ∃ id, expired horizon id = true ∧
      (h_key b' key = h_key b (queueMsgPrefix +:+ id) ∨ h_key b' key = h_key b (queueLeasePrefix +:+ id)).

Lemma trimmed_trans horizon w1 w2 w3 : trimmed horizon w1 w2 → trimmed horizon w2 w3 → trimmed horizon w1 w3.
Proof. intros H1 H2 b' key. destruct (H2 b' key) as [-> |?]; [apply H1|by right]. Qed.

Lemma trimmed_sub horizon w w' key : trimmed horizon w w' → is_Some (obj w' b key) → is_Some (obj w b key).
Proof. intros Ht Ho. destruct (Ht b key) as [<- |[E _]]; [done|]. rewrite E in Ho. by destruct Ho. Qed.

Lemma swept_trimmed prefix paired horizon budget w :
  prefix = queueMsgPrefix ∨ prefix = queueLeasePrefix →
  trimmed horizon w (swept prefix paired (due horizon budget (ids_under prefix w b)) w).
Proof.
  intros Hp b' key.
  destruct (obj_swept prefix paired (due horizon budget (ids_under prefix w b)) w b' key) as [[? _]|(? & ? & k & Hk & E)]; [by left|].
  right. split; [done|]. split; [done|]. apply elem_of_victims in Hk as (id & [Hx _]%due_expired & Hk).
  exists id. split; [done|]. rewrite E. destruct Hp as [-> | ->], Hk as [-> |[_ ->]]; by auto.
Qed.

(** Exactly the objects under [keys] of the queue's bucket are gone, through
    whichever handle one looks. *)
Definition names_one_of (keys : list string) (b' : Handle) (key : string) : Prop :=
  h_store b' = h_store b ∧ ∃ k, k ∈ keys ∧ h_key b' key = h_key b k.

Definition gone_exactly (keys : list string) (w w' : nat → Mem.state) : Prop :=
  ∀ b' key, (names_one_of keys b' key → obj w' b' key = None) ∧
    (¬ names_one_of keys b' key → obj w' b' key = obj w b' key).

Lemma swept_gone prefix paired ids w : gone_exactly (victims prefix paired ids) w (swept prefix paired ids w).
Proof. intros b' key. destruct (obj_swept prefix paired ids w b' key) as [[? ?]|[? ?]]; split; by intros. Qed.

Lemma gone_app keys1 keys2 w w1 w2 :
  gone_exactly keys1 w w1 → gone_exactly keys2 w1 w2 → gone_exactly (keys1 ++ keys2) w w2.
Proof.
  intros H1 H2 b' key. destruct (H1 b' key) as [A1 B1], (H2 b' key) as [A2 B2]. unfold names_one_of in *. setoid_rewrite elem_of_app. split.
  - intros (Es & k & [Hk|Hk] & E); [|apply A2; by eauto].
    apply eq_None_not_Some. intros [o Eo]. assert (obj w1 b' key = None) as E1 by (apply A1; by eauto).
    rewrite B2 in Eo; [congruence|]. intros Hh. rewrite A2 in Eo; done.
  - intros Hn. rewrite B2, B1; [done|intros (Es & k & Hk & E); apply Hn; by eauto 10..].
Qed.

(** Distinct expired ids with an entry under [prefix]. *)
Record due_ids (prefix : string) (horizon : Z) (w : nat → Mem.state) (ids : list string) : Prop := {
  di_distinct : NoDup ids;
  di_present id : id ∈ ids → is_Some (obj w b (prefix +:+ id));
  di_expired id : id ∈ ids → expired horizon id = true;
}.

Lemma due_due_ids prefix horizon budget w : due_ids prefix horizon w (due horizon budget (ids_under prefix w b)).
Proof.
  split.
  - assert (NoDup (ids_under prefix w b)) as Hnd.
    { apply str_lt_NoDup, ids_sorted. }
    unfold due. apply (NoDup_app _ (drop (Z.to_nat budget) (before (λ id, negb (expired horizon id)) (ids_under prefix w b)))).
    rewrite take_drop. destruct (before_cut (λ id, negb (expired horizon id)) (ids_under prefix w b)) as (l' & E & _).
    apply (NoDup_app _ l'). by rewrite <- E.
  - intros id [_ [_ Hid]%elem_of_ids]%due_expired. done.
  - by intros id [? _]%due_expired.
Qed.

(** A lease that a sweep of the payloads leaves, of an expired id, when it leaves no
    expired payload: there was no payload. *)
Lemma swept_orphan horizon ids w id :
  (is_Some (obj (swept queueMsgPrefix true ids w) b (queueMsgPrefix +:+ id)) → expired horizon id = false) →
  expired horizon id = true → is_Some (obj (swept queueMsgPrefix true ids w) b (queueLeasePrefix +:+ id)) →
  obj w b (queueMsgPrefix +:+ id) = None.
Proof.
  intros Hclean Hx [_ Hp]%obj_swept_own. apply eq_None_not_Some. intros Ho.
  rewrite Hclean in Hx; [done|]. apply obj_swept_own. split; [done|]. intros Hv. apply Hp.
  apply elem_of_victims in Hv as (id' & Hid' & [E|[_ E]]); [|by vm_compute in E].
  apply string_app_inj_l in E as ->. apply elem_of_victims. exists id'. split; [done|]. by right.
Qed.

(** C21: a retention pass on the in-memory driver, with calls that do not fail, on
    a queue whose payloads and leases carry stamped ids.  [Trim] returns without an
    error the number of entries it trimmed, at most its batch: the messages whose
    payload it deleted, together with their leases, and the leases without a
    payload it deleted.  All of these are stamped before the horizon; exactly the
    objects of these entries are gone and everything else is as it was; and when the
    batch is not used up, no payload and no lease stamped before the horizon is
    left. *)
Theorem queue_trim_spec fuel envs w :
  (∀ i, calm (envs i)) → 0 < q_retention q → (0 < fuel)%nat →
  Z.of_nat (size (Mem.objects (w (h_store b)))) + 1000 ≤ int64_max →
  (∀ id, is_Some (obj w b (queueMsgPrefix +:+ id)) ∨ is_Some (obj w b (queueLeasePrefix +:+ id)) → stamped id) →
  let horizon := e_clock (envs 0%nat) - q_retention q in
  ∃ msgs leases w', let n := Z.of_nat (length msgs + length leases) in
    run exec (Trim fuel q) envs w = (Some (Some (n, None)), w') ∧ n ≤ DefaultTrimBatch ∧
    due_ids queueMsgPrefix horizon w msgs ∧ due_ids queueLeasePrefix horizon w leases ∧
    (∀ id, id ∈ leases → obj w b (queueMsgPrefix +:+ id) = None) ∧
    gone_exactly (victims queueMsgPrefix true msgs ++ victims queueLeasePrefix false leases) w w' ∧
    (n < DefaultTrimBatch → ∀ id,
      is_Some (obj w' b (queueMsgPrefix +:+ id)) ∨ is_Some (obj w' b (queueLeasePrefix +:+ id)) → expired horizon id = false).
Proof.
  intros He Hret Hf Hsize Hst horizon. unfold Trim. rewrite bool_decide_false by lia. rewrite run_now.
  replace (e_clock (envs 0%nat) + - q_retention q) with horizon by lia.
  pose proof (listing_size queueMsgPrefix w b) as Hl1.
  match goal with |- context [run exec (trimSweep _ _ _ _ _ _ _ _ ≫= ?k) _ _] =>
    destruct (run_trimSweep k fuel queueMsgPrefix horizon true DefaultTrimBatch (λ i, envs (1 + i)%nat) w (λ i, He _) ltac:(done) Hf ltac:(lia)
      (λ id Hid, Hst id (or_introl Hid))) as (envs1 & He1 & ->) end.
  pose proof (due_due_ids queueMsgPrefix horizon DefaultTrimBatch w) as HdX.
  pose proof (swept_clean queueMsgPrefix true horizon DefaultTrimBatch w) as HcX.
  set (X := due _ _ _) in *. set (w1 := swept _ _ _ _) in *.
  assert (trimmed horizon w w1) as Ht1 by (apply swept_trimmed; by left).
  pose proof (swept_gone queueMsgPrefix true X w) as Hg1. fold w1 in Hg1.
  assert (Z.of_nat (length X) ≤ DefaultTrimBatch) as HX by (unfold X, due, DefaultTrimBatch; rewrite length_take; lia).
  cbv beta iota. case_bool_decide as Hfull.
  { exists X, [], w1. rewrite Nat.add_0_r. cbn zeta. split_and!; [done|done|done| | | |lia].
    - split; [constructor|by intros id ?%elem_of_nil..].
    - by intros id ?%elem_of_nil.
    - cbn. by rewrite app_nil_r. }
  pose proof (listing_size queueLeasePrefix w1 b) as Hl2.
  pose proof (swept_size queueMsgPrefix true X w) as Hl3. fold w1 in Hl3.
  match goal with |- context [run exec (trimSweep _ _ _ _ _ _ _ _ ≫= ?k) _ _] =>
    destruct (run_trimSweep k fuel queueLeasePrefix horizon false (DefaultTrimBatch - Z.of_nat (length X)) envs1 w1 He1
      ltac:(unfold DefaultTrimBatch in *; lia) Hf ltac:(lia) (λ id Hid, Hst id (or_intror (trimmed_sub _ _ _ _ Ht1 Hid)))) as (envs2 & He2 & ->) end.
  pose proof (due_due_ids queueLeasePrefix horizon (DefaultTrimBatch - Z.of_nat (length X)) w1) as HdY.
  pose proof (swept_clean queueLeasePrefix false horizon (DefaultTrimBatch - Z.of_nat (length X)) w1) as HcY.
  set (Y := due horizon (DefaultTrimBatch - Z.of_nat (length X)) (ids_under queueLeasePrefix w1 b)) in *.
  set (w2 := swept queueLeasePrefix false Y w1) in *.
  assert (trimmed horizon w1 w2) as Ht2 by (apply swept_trimmed; by right).
  pose proof (swept_gone queueLeasePrefix false Y w1) as Hg2. fold w2 in Hg2.
  assert (Z.of_nat (length Y) ≤ DefaultTrimBatch - Z.of_nat (length X)) as HY
    by (unfold Y, due, DefaultTrimBatch in *; rewrite length_take; lia).
  assert (∀ id, is_Some (obj w1 b (queueMsgPrefix +:+ id)) → expired horizon id = false) as Hclean.
  { intros id Hid. eapply HcX; [by eauto|lia|done]. }
  exists X, Y, w2. cbn zeta. split_and!; [by rewrite Nat2Z.inj_add|lia|done| | |by eapply gone_app|].
  - destruct HdY as [Hnd Hp Hx]. split; [done| |done]. intros id Hid. eapply trimmed_sub; [done|by apply Hp].
  - intros id Hid. destruct HdY as [_ Hp Hx]. eapply swept_orphan; [by apply Hclean|by apply Hx|by apply Hp].
  - intros Hn id [Hid|Hid].
    + apply Hclean. by eapply trimmed_sub.
    + eapply HcY; [|lia|exact Hid]. intros id' Hid'. apply Hst. right. by eapply trimmed_sub.
Qed.

End trim.
