(* ===== verification/Watcher.v ===== *)
(** * Tailing a queue and replicating it (queuetail.go, watcher.go)

    A [Tail] reads a queue's payloads forward from a cursor without claiming
    anything; a [Watcher] copies what it reads into another queue, one holder
    at a time, and keeps the cursor in an object of its own. *)
From S2P Require Import Prelude Strconv GoTime Md5 Core Effects Locker Queue.

Module Tail.
Import Queue.

Definition DefaultTailLag : Z := 5 * Second.
Definition tailListPageSize : Z := 1000.

Record Tail := mkTail {
  t_queue : Queue;
  t_lag : Z;
}.

(** [WithTailLag] is the only option; a negative lag is no lag. *)
Definition newTail (q : Queue) (opts : list Z) : Tail :=
  mkTail q (fold_left (fun _ d => if bool_decide (d < 0) then 0 else d) opts DefaultTailLag).

Record TailMessage := mkTailMessage {
  tm_queue : Queue;
  tm_id : string;
}.

(** How the scan of one listed page ends: [Page] returns, or goes on. *)
Inductive scanned :=
| ScanReturn (out : list TailMessage) (next : string)
| ScanMore (out : list TailMessage) (next : string).

Fixpoint scan (t : Tail) (now : Z) (cursor : string) (pageSize : Z) (objs : list ListObject)
    (out : list TailMessage) (next : string) : scanned :=
  match objs with
  | [] => ScanMore out next
  | obj :: objs =>
    match CutPrefix (lo_Key obj) queueMsgPrefix with
    | None => scan t now cursor pageSize objs out next
    | Some id =>
      if bool_decide (id = "") then scan t now cursor pageSize objs out next
      else if String.leb id cursor then scan t now cursor pageSize objs out next
      else if from_option (fun ts => Before now (ts + t_lag t)) false (queueIDTime id)
      then ScanReturn out next
      else
        let out := out ++ [mkTailMessage (t_queue t) id] in
        if bool_decide (pageSize ≤ Z.of_nat (length out)) then ScanReturn out id
        else scan t now cursor pageSize objs out id
    end
  end.

(** The loop of [Page] over the backend's pages; the fuel bounds them, [None]
    is running out. *)
Fixpoint page_loop (fuel : nat) (t : Tail) (now : Z) (cursor : string) (pageSize : Z) (token : bytes)
    (out : list TailMessage) (next : string) : prog (option (result (list TailMessage * string))) :=
  match fuel with
  | O => mret None
  | S fuel =>
    l ← trigger (OListPage (q_bucket (t_queue t)) token tailListPageSize (mkListOptions queueMsgPrefix "" None));
    match l with
    | Err err => mret (Some (Err err))
    | Ok (objs, nextToken) =>
      match scan t now cursor pageSize objs out next with
      | ScanReturn out next => mret (Some (Ok (out, next)))
      | ScanMore out next =>
        if bool_decide (strlen nextToken = 0) then mret (Some (Ok (out, next)))
        else page_loop fuel t now cursor pageSize nextToken out next
      end
    end
  end.

Definition Page (fuel : nat) (t : Tail) (cursor : string) (pageSize : Z)
    : prog (option (result (list TailMessage * string))) :=
  let pageSize := if bool_decide (pageSize ≤ 0) then DefaultHeadWindow else pageSize in
  now ← trigger ONow;
  page_loop fuel t now cursor pageSize FirstPageToken [] cursor.

(** [ID], [Attributes], [Body] and [ReadAll] of a [TailMessage]. *)
Definition ID (m : TailMessage) : string := tm_id m.

Definition Attributes_ (m : TailMessage) : prog (result metadata) :=
  attrs ← trigger (OAttributes (q_bucket (tm_queue m)) (queueMsgPrefix +:+ tm_id m));
  match attrs with
  | Err err => mret (Err err)
  | Ok a => mret (Ok (CloneMetadata (a_Metadata a)))
  end.

Definition Body (m : TailMessage) : prog (result source) :=
  trigger (ONewReader (q_bucket (tm_queue m)) (queueMsgPrefix +:+ tm_id m)).

Definition ReadAll (m : TailMessage) : prog (result bytes) :=
  trigger (OReadAll (q_bucket (tm_queue m)) (queueMsgPrefix +:+ tm_id m)).

End Tail.

Module Watcher.
Import Queue Tail.

Definition DefaultWatchName : string := "default".
Definition watchCursorPrefix : string := ".blobster/watch/".
Definition watchLockPrefix : string := "watch/".
Definition watchPageSize : Z := 256.

Record Watcher := mkWatcher {
  w_source : Tail;
  w_local : Queue;
  w_locker : Locker.Locker;
  w_bucket : Handle;
  w_name : string;
  w_minPoll : Z;
  w_maxPoll : Z;
}.

Inductive WatcherOption :=
| WithWatchName (name : string)
| WithWatchPollBackoff (low high : Z).

Definition apply_option (opt : WatcherOption) (w : Watcher) : Watcher :=
  match opt with
  | WithWatchName name =>
    mkWatcher (w_source w) (w_local w) (w_locker w) (w_bucket w) name (w_minPoll w) (w_maxPoll w)
  | WithWatchPollBackoff low high =>
    mkWatcher (w_source w) (w_local w) (w_locker w) (w_bucket w) (w_name w) low high
  end.

(** [NewWatcher]; a nil argument is [None]. *)
Definition NewWatcher (source : option Tail) (local : option Queue) (locker : option Locker.Locker)
    (opts : list WatcherOption) : result Watcher :=
  match source, local, locker with
  | Some source, Some local, Some locker =>
    let w := mkWatcher source local locker (Locker.bucket locker) DefaultWatchName
               DefaultMinPollInterval DefaultMaxPollInterval in
    let w := fold_left (fun w opt => apply_option opt w) opts w in
    if bool_decide (w_name w = "") || Contains (w_name w) "/" || Contains (w_name w) ".."
       || bool_decide (w_name w = ".")
    then Err ErrInvalidWatchName
    else
      let mn := if bool_decide (w_minPoll w ≤ 0) then DefaultMinPollInterval else w_minPoll w in
      let mx := if bool_decide (w_maxPoll w < mn) then mn else w_maxPoll w in
      Ok (mkWatcher (w_source w) (w_local w) (w_locker w) (w_bucket w) (w_name w) mn mx)
  | _, _, _ => Err ErrInvalidOption
  end.

Definition cursorPath (w : Watcher) : string := watchCursorPrefix +:+ w_name w +:+ "/cursor".
Definition lockKey (w : Watcher) : string := watchLockPrefix +:+ w_name w.

Definition replicate (w : Watcher) (m : TailMessage) : prog (option error) :=
  attrs ← Tail.Attributes_ m;
  match attrs with
  | Err err => if Is err ErrNotFound then mret None else mret (Some err)
  | Ok attrs =>
    body ← Tail.Body m;
    match body with
    | Err err => if Is err ErrNotFound then mret None else mret (Some err)
    | Ok body =>
      e ← EnqueueWithID (w_local w) (Tail.ID m) body attrs;
      match e with
      | Err err => mret (Some err)
      | Ok _ => mret None
      end
    end
  end.

(** [readCursor]: the cursor and its version, both empty when there is none. *)
Definition readCursor (w : Watcher) : prog (result (string * string)) :=
  attrs ← trigger (OAttributes (w_bucket w) (cursorPath w));
  match attrs with
  | Err err => if Is err ErrNotFound then mret (Ok ("", "")) else mret (Err err)
  | Ok a =>
    b ← trigger (OReadAll (w_bucket w) (cursorPath w));
    match b with
    | Err err => mret (Err err)
    | Ok b => mret (Ok (b, a_Version a))
    end
  end.

Definition writeCursor (w : Watcher) (cursor version : string) : prog (result string) :=
  let pre := if negb (bool_decide (version = "")) then IfMatch version else IfNotExists in
  r ← trigger (OWriteAll (w_bucket w) (cursorPath w) cursor (Locker.record_options None) [Some pre]);
  match r with
  | Err e => mret (Err e)
  | Ok _ =>
    attrs ← trigger (OAttributes (w_bucket w) (cursorPath w));
    match attrs with
    | Err e => mret (Err e)
    | Ok a => mret (Ok (a_Version a))
    end
  end.

(** The loop over one page of messages. *)
Fixpoint replicate_all (w : Watcher) (msgs : list TailMessage) : prog (option error) :=
  match msgs with
  | [] => mret None
  | m :: msgs =>
    e ← replicate w m;
    match e with
    | Some err => mret (Some err)
    | None => replicate_all w msgs
    end
  end.

(** The loop of [runAsHolder] while it holds the lock: [None] is running out of
    fuel (of rounds, or of backend pages within one), [Some r] the value it
    returns. *)
Fixpoint holder_loop (fuel : nat) (w : Watcher) (cursor version : string) (backoff : Z)
    : prog (option (option error)) :=
  match fuel with
  | O => mret None
  | S fuel =>
    s ← trigger (OSelect None);
    match s with
    | SelCtx err => mret (Some (Some err))
    | SelDone => mret (Some None)
    | SelGo =>
      p ← Tail.Page fuel (w_source w) cursor watchPageSize;
      match p with
      | None => mret None
      | Some (Err err) => mret (Some (Some err))
      | Some (Ok (msgs, next)) =>
        e ← replicate_all w msgs;
        match e with
        | Some err => mret (Some (Some err))
        | None =>
          if bool_decide (next = cursor) then
            d ← queueJitter backoff;
            s ← trigger (OSelect (Some d));
            match s with
            | SelCtx err => mret (Some (Some err))
            | SelDone => mret (Some None)
            | SelGo =>
              holder_loop fuel w cursor version
                (if bool_decide (backoff < w_maxPoll w) then wrap64 (backoff * 2) `min` w_maxPoll w else backoff)
            end
          else
            v ← writeCursor w next version;
            match v with
            | Err err => if Is err ErrPreconditionFailed then mret (Some None) else mret (Some (Some err))
            | Ok version => holder_loop fuel w next version (w_minPoll w)
            end
        end
      end
    end
  end.

Section watcher.
Context `{TT : TimeText}.

Definition runAsHolder (fuel : nat) (w : Watcher) : prog (option (option error)) :=
  l ← Locker.Acquire fuel (w_locker w) (lockKey w) [];
  match l with
  | None => mret None
  | Some (Err err) => mret (Some (Some err))
  | Some (Ok lock) =>
    c ← readCursor w;
    r ← match c with
        | Err err => mret (Some (Some err))
        | Ok (cursor, version) => holder_loop fuel w cursor version (w_minPoll w)
        end;
    _ ← Locker.Release lock;
    mret r
  end.

(** [Run]: a term as holder after another, until one fails. *)
Fixpoint Run (fuel : nat) (w : Watcher) : prog (option error) :=
  match fuel with
  | O => mret None
  | S fuel =>
    r ← runAsHolder fuel w;
    match r with
    | None => mret None
    | Some (Some err) => mret (Some err)
    | Some None => Run fuel w
    end
  end.

End watcher.
End Watcher.
