(* ===== verification/WatcherTheorems.v ===== *)
(** * What tailing and replication guarantee

    Pages of a tail and writes of a watcher under every answer of the stores,
    replication run in sequence against the in-memory driver, and the cursor
    with two holders interleaved. *)
From stdpp Require Import relations.
From S2P Require Import Prelude Strconv GoTime Md5 Core Effects Store MemDriver MemStore Locker MemRun Queue QueueTheorems Watcher.

Import Queue.

(** ** The tail *)

(** What a message a tail surfaces satisfies: it sorts after the cursor, and a
    stamped one is at least the lag old. *)
Definition surfaced (t : Tail.Tail) (now : Z) (cursor : string) (m : Tail.TailMessage) : Prop :=
  Tail.tm_queue m = Tail.t_queue t ∧ str_lt cursor (Tail.tm_id m) ∧
  ∀ ts, queueIDTime (Tail.tm_id m) = Some ts → ts + Tail.t_lag t ≤ now.

(** The messages so far, and the cursor to resume from. *)
Record page_ok (t : Tail.Tail) (now : Z) (cursor : string) (pageSize : Z)
    (out : list Tail.TailMessage) (next : string) : Prop := {
  page_surfaced : Forall (surfaced t now cursor) out;
  page_bound : Z.of_nat (length out) ≤ pageSize;
  page_next : next = default cursor (Tail.tm_id <$> last out);
}.

Lemma scan_ok t now cursor pageSize objs out next :
  page_ok t now cursor pageSize out next → Z.of_nat (length out) < pageSize →
  match Tail.scan t now cursor pageSize objs out next with
  | Tail.ScanReturn out next => page_ok t now cursor pageSize out next
  | Tail.ScanMore out next => page_ok t now cursor pageSize out next ∧ Z.of_nat (length out) < pageSize
  end.
Proof.
  revert out next. induction objs as [|obj objs IH]; intros out next Hok Hlt; cbn [Tail.scan]; [done|].
  destruct (CutPrefix (lo_Key obj) queueMsgPrefix) as [id|]; [|by apply IH].
  case_bool_decide; [by apply IH|]. destruct (String.leb id cursor) eqn:Hle; [by apply IH|].
  destruct (from_option _ false (queueIDTime id)) eqn:Hlag; [done|].
  set (m := Tail.mkTailMessage (Tail.t_queue t) id).
  assert (page_ok t now cursor pageSize (out ++ [m]) id) as Hok'.
  { destruct Hok as [Hs Hb Hn]. split.
    - apply Forall_app. split; [done|]. apply Forall_singleton. split; [done|]. split; [by apply string_leb_gt|].
      intros ts Hts. cbn in Hts. rewrite Hts in Hlag. cbn in Hlag. apply bool_decide_eq_false in Hlag. lia.
    - rewrite length_app. cbn. lia.
    - by rewrite last_snoc. }
  case_bool_decide; [done|]. apply IH; [done|lia].
Qed.

Lemma page_loop_ok fuel t now cursor pageSize token out next out' next' :
  page_ok t now cursor pageSize out next → Z.of_nat (length out) < pageSize →
  returns (Tail.page_loop fuel t now cursor pageSize token out next) (Some (Ok (out', next'))) →
  page_ok t now cursor pageSize out' next'.
Proof.
  revert token out next. induction fuel as [|fuel IH]; intros token out next Hok Hlt; cbn [Tail.page_loop]; [done|].
  rewrite returns_bind. intros ([[objs nt]|e] & _ & Hr); [|done].
  pose proof (scan_ok t now cursor pageSize objs out next Hok Hlt) as Hs.
  destruct (Tail.scan t now cursor pageSize objs out next) as [o n|o n].
  - by injection Hr as <- <-.
  - destruct Hs as [Hs Hs']. case_bool_decide; [by injection Hr as <- <-|]. by eapply IH.
Qed.

(** What a page of a tail surfaces, under every answer of the store: at most
    [pageSize] messages of the queue, each after the cursor and, if its id is
    stamped, old enough for the lag at the one reading of the clock; and the
    cursor returned is the last of them, or the one given when there is none. *)
Theorem tail_page_spec fuel t cursor pageSize out next :
  returns (Tail.Page fuel t cursor pageSize) (Some (Ok (out, next))) →
  ∃ now, page_ok t now cursor (if bool_decide (pageSize ≤ 0) then DefaultHeadWindow else pageSize) out next.
Proof.
  unfold Tail.Page. rewrite returns_bind. intros (now & _ & Hr). exists now.
  eapply page_loop_ok; [| |exact Hr].
  - split; [done| |done]. cbn. unfold DefaultHeadWindow. case_bool_decide; lia.
  - cbn. unfold DefaultHeadWindow. case_bool_decide; lia.
Qed.

Lemma page_loop_emits fuel t now cursor pageSize token out next o :
  emits (Tail.page_loop fuel t now cursor pageSize token out next) o →
  ∃ token, o = OListPage (q_bucket (Tail.t_queue t)) token Tail.tailListPageSize (mkListOptions queueMsgPrefix "" None).
Proof.
  revert token out next. induction fuel as [|fuel IH]; intros token out next; cbn [Tail.page_loop]; [done|].
  rewrite emits_bind. intros [[<-|[? []]]|([[objs nt]|e] & _ & Hr)]; [by eexists| |done].
  destruct (Tail.scan _ _ _ _ _ _ _); [done|]. case_bool_decide; [done|]. by eapply IH.
Qed.

(** ** The watcher *)

(** The bucket a call opens for writing. *)
Definition opens_for_write (o : op) : option Handle :=
  match o with
  | OWriteAll b _ _ _ _ | ODelete b _ _ | ONewWriter b _ _ _ => Some b
  | _ => None
  end.

(** [p] opens no bucket for writing but those of [bs]. *)
Definition writes_within {R} (bs : list Handle) (p : prog R) : Prop :=
  ∀ o b, emits p o → opens_for_write o = Some b → b ∈ bs.

Lemma writes_ret {R} bs (r : R) : writes_within bs (mret r).
Proof. by intros o b []. Qed.

Lemma writes_crash {R} bs : writes_within bs (@Crash R).
Proof. by intros o b []. Qed.

Lemma writes_bind {R T} bs (p : prog R) (f : R → prog T) :
  writes_within bs p → (∀ r, writes_within bs (f r)) → writes_within bs (p ≫= f).
Proof. intros Hp Hf o b [He|(r & _ & He)]%emits_bind Hb; [by eapply Hp|by eapply Hf]. Qed.

Lemma writes_trigger bs o : (∀ b, opens_for_write o = Some b → b ∈ bs) → writes_within bs (trigger o).
Proof. intros Ho o' b [<-|[? []]] Hb. by apply Ho. Qed.

Create HintDb within.
#[local] Hint Resolve writes_ret writes_crash : within.

(** Closes [writes_within] of a straight-line program. *)
Local Ltac within :=
  repeat first
    [ solve [eauto with within]
    | apply writes_bind; [|intros ?]
    | apply writes_trigger; cbn; intros ? [= <-]; set_solver
    | apply writes_trigger; by intros ? [=]
    | case_match ].

Section watcher.
Context `{TT : TimeText}.

Lemma writes_tryAcquire bs l key p owner : Locker.bucket l ∈ bs → writes_within bs (Locker.tryAcquire l key p owner).
Proof.
  intros Hb. unfold Locker.tryAcquire, Locker.getRecord, Locker.createRecord, Locker.updateRecord, Locker.writeRecord.
  within.
Qed.

#[local] Hint Resolve writes_tryAcquire : within.

Lemma writes_acquireLoop bs fuel l key p owner :
  Locker.bucket l ∈ bs → writes_within bs (Locker.acquireLoop fuel l key p owner).
Proof.
  intros Hb. induction fuel as [|fuel IH]; cbn [Locker.acquireLoop]; [within|].
  unfold Locker.jitteredRetry. within.
Qed.
#[local] Hint Resolve writes_acquireLoop : within.

Lemma writes_Acquire bs fuel l key opts :
  Locker.bucket l ∈ bs → writes_within bs (Locker.Acquire fuel l key opts).
Proof. intros Hb. unfold Locker.Acquire, Locker.resolveOwner, Locker.randomOwner. within. Qed.

(** The lock [Acquire] returns is one of its locker's. *)
Lemma tryAcquire_locker l key p owner lk :
  returns (Locker.tryAcquire l key p owner) (Ok lk) → Locker.lk_locker lk = l.
Proof.
  unfold Locker.tryAcquire. rewrite returns_bind. intros ([[f v]|err] & _ & Hr);
    rewrite returns_bind in Hr; destruct Hr as (now & _ & Hr).
  - destruct (negb _); [done|]. rewrite returns_bind in Hr. destruct Hr as ([v'|e] & _ & Hr); [by injection Hr as <-|].
    by destruct (_ || _).
  - destruct (Is err ErrNotFound); [|done]. rewrite returns_bind in Hr.
    destruct Hr as ([v'|e] & _ & Hr); [by injection Hr as <-|]. by destruct (Is e _).
Qed.

Lemma Acquire_locker fuel l key opts lk :
  returns (Locker.Acquire fuel l key opts) (Some (Ok lk)) → Locker.lk_locker lk = l.
Proof.
  unfold Locker.Acquire. destruct (Locker.path l key) as [p|e]; [|done]. rewrite returns_bind.
  intros ([owner|e] & _ & Hr); [|done]. revert Hr.
  induction fuel as [|fuel IH]; cbn [Locker.acquireLoop]; [done|]. rewrite returns_bind.
  intros ([held|err] & Ht & Hr); [injection Hr as <-; by eapply tryAcquire_locker|].
  destruct (negb _); [done|]. rewrite returns_bind in Hr. destruct Hr as (d & _ & Hr).
  rewrite returns_bind in Hr. destruct Hr as ([e|] & _ & Hr); [done|]. by apply IH.
Qed.

Lemma writes_Release bs lk : Locker.bucket (Locker.lk_locker lk) ∈ bs → writes_within bs (Locker.Release lk).
Proof.
  intros Hb. unfold Locker.Release, Locker.release_record, Locker.getRecord, Locker.deleteRecord.
  destruct (Locker.lk_released lk); [within|].
  assert (Locker.lk_locker (Locker.finish None (Locker.set_stopped (Locker.set_released lk))) = Locker.lk_locker lk) as ->
    by (unfold Locker.finish; by destruct (Locker.lk_finished _)).
  within.
Qed.

Lemma writes_EnqueueWithID bs q id r attrs : q_bucket q ∈ bs → writes_within bs (EnqueueWithID q id r attrs).
Proof. intros Hb. unfold EnqueueWithID, writePayload, copy_and_close. within. Qed.
#[local] Hint Resolve writes_EnqueueWithID : within.

Lemma writes_replicate_all bs w msgs :
  q_bucket (Watcher.w_local w) ∈ bs → writes_within bs (Watcher.replicate_all w msgs).
Proof.
  intros Hb. induction msgs as [|m msgs IH]; cbn [Watcher.replicate_all]; [within|].
  unfold Watcher.replicate, Tail.Attributes_, Tail.Body. within.
Qed.

Lemma writes_Page bs fuel t cursor n : writes_within bs (Tail.Page fuel t cursor n).
Proof.
  unfold Tail.Page. apply writes_bind; [within|]. intros now o b He Hb.
  apply page_loop_emits in He as [token ->]. done.
Qed.
#[local] Hint Resolve writes_replicate_all writes_Page : within.

Lemma writes_holder_loop bs fuel w cursor version backoff :
  q_bucket (Watcher.w_local w) ∈ bs → Watcher.w_bucket w ∈ bs →
  writes_within bs (Watcher.holder_loop fuel w cursor version backoff).
Proof.
  intros Hl Hb. revert cursor version backoff.
  induction fuel as [|fuel IH]; intros cursor version backoff; cbn [Watcher.holder_loop]; [within|].
  unfold queueJitter, Watcher.writeCursor. within.
Qed.

(** C39: replication writes to the follower's side only: under every answer of
    the stores, a watcher's term as holder opens for writing no bucket but the
    local queue's and the one that keeps the lock and the cursor; the source,
    which it may be allowed only to read, is never among them. *)
Theorem watcher_writes_local_only fuel w :
  Watcher.w_bucket w = Locker.bucket (Watcher.w_locker w) →
  writes_within [q_bucket (Watcher.w_local w); Watcher.w_bucket w] (Watcher.runAsHolder fuel w).
Proof.
  intros Hbk. unfold Watcher.runAsHolder. intros o b He Hb. apply emits_bind in He as [He|([[lk|e]|] & Hr & He)]; try done.
  - by eapply (writes_Acquire _ fuel (Watcher.w_locker w)); [|done|done]; rewrite Hbk; set_solver.
  - apply Acquire_locker in Hr. revert o b He Hb.
    apply writes_bind; [unfold Watcher.readCursor; within|]. intros c.
    apply writes_bind; [|intros r; apply writes_bind; [apply writes_Release; rewrite Hr, Hbk; set_solver|intros; within]].
    destruct c as [[cursor version]|e]; [|within]. apply writes_holder_loop; set_solver.
Qed.

End watcher.

(** ** Replication of one message, on in-memory drivers *)

Section replicate.
Context `{GT : GoTables}.

Lemma Normalize_lower md : lower_names md → NormalizeMetadata md = Ok md.
Proof. intros Hl. destruct md as [m|]; [|done]. apply NormalizeMetadata_lower. intros k. by apply (Hl m). Qed.

(** Replicating a message copies its payload and attributes into the local
    queue under the same id; when the local queue already has the id it changes
    nothing; and a source message that is gone is skipped. *)
Theorem watcher_replicate_spec w m envs st :
  (∀ i, calm (envs i)) → validateQueueMessageID (Tail.tm_id m) = None →
  let key := queueMsgPrefix +:+ Tail.tm_id m in
  let src := obj st (q_bucket (Tail.tm_queue m)) key in
  let b := q_bucket (Watcher.w_local w) in
  (∀ pl, src = Some pl → lower_names (a_Metadata (Mem.attrs pl))) →
  ∃ st', run exec (Watcher.replicate w m) envs st = (Some None, st') ∧
    match src, obj st b key with
    | Some pl, None => ∃ o, stored (Mem.data pl) (a_Metadata (Mem.attrs pl)) (st (h_store b)) o ∧ st' = wrote b key o st
    | _, _ => ∀ n, st' n = st n
    end.
Proof.
  intros He Hv key src b Hlow. unfold Watcher.replicate, Tail.Attributes_, Tail.Body.
  rewrite run_bind_assoc, (run_attributes _ He). fold key src.
  destruct src as [pl|] eqn:Hsrc; cbn [mbind prog_mbind prog_bind].
  2: { exists st. split; [cbn; by rewrite Is_refl|done]. }
  blob_simpl.
  change (mret (Ok ?x) ≫= ?k) with (k (Ok x)). cbn beta iota.
  rewrite (run_reader _ (fun i => He _) _ _ _ pl) by done. unfold EnqueueWithID, Tail.ID. rewrite Hv, run_bind_assoc.
  set (k := λ e : result bool, match e with Ok _ => mret None | Err err => mret (Some err) end : prog (option error)).
  match goal with |- context [run exec _ ?ev st] =>
    destruct (run_writePayload (λ e, match e with
      | Ok _ => mret (Ok false)
      | Err err => if Is err ErrPreconditionFailed then mret (Ok true) else mret (Err err) end ≫= k)
      (Watcher.w_local w) (Tail.tm_id m) (mkSource (Mem.data pl) None) (a_Metadata (Mem.attrs pl))
      (a_Metadata (Mem.attrs pl)) ev st (fun i => He _) eq_refl (Normalize_lower _ (Hlow _ eq_refl))) as (o & Ho & Hx) end.
  rewrite Hx. fold b key. destruct (obj st b key) as [ex|].
  - eexists. split; [cbn; by rewrite Is_refl|]. apply untouched_eq.
  - eexists. split; [reflexivity|]. exists o. split; [exact Ho|reflexivity].
Qed.

End replicate.

(** ** The cursor under a pause

    Two programs take turns, one call at a time, on a store that keeps its
    contract. *)
Section cursor.
Context `{GT : GoTables}.

Inductive turn {A B} : world * prog A * prog B → world * prog A * prog B → Prop :=
| turn_left g g' o k a q : call o g a g' → turn (g, Vis o k, q) (g', k a, q)
| turn_right g g' o k a p : call o g a g' → turn (g, p, Vis o k) (g', p, k a).

Lemma left_turn {A B} o g a g' (k : ans o → prog A) (q : prog B) z :
  call o g a g' → rtc turn (g', k a, q) z → rtc turn (g, Vis o k, q) z.
Proof. intros Hc. apply rtc_l. by constructor. Qed.

Lemma right_turn {A B} o g a g' (k : ans o → prog B) (p : prog A) z :
  call o g a g' → rtc turn (g', p, k a) z → rtc turn (g, p, Vis o k) z.
Proof. intros Hc. apply rtc_l. by constructor. Qed.

(** A holder that persists [c1] and then [c3], and one that takes over in
    between: it reads the cursor and persists [c2]. *)
Definition stale_holder (w : Watcher.Watcher) (c1 c3 : string) : prog (result string) :=
  v ← Watcher.writeCursor w c1 "";
  match v with
  | Err e => mret (Err e)
  | Ok v => Watcher.writeCursor w c3 v
  end.

Definition successor (w : Watcher.Watcher) (c2 : string) : prog (result string) :=
  c ← Watcher.readCursor w;
  match c with
  | Err e => mret (Err e)
  | Ok (_, v) => Watcher.writeCursor w c2 v
  end.

(** A token the contract allows always exists. *)
Lemma fresh_exists s : ∃ v, fresh_token s "" v.
Proof. exists (fresh ({[""]} ∪ used s)). pose proof (is_fresh ({[""]} ∪ used s)). unfold fresh_token. set_solver. Qed.

Lemma call_cursor w g c v c0 :
  let b := Watcher.w_bucket w in let key := Watcher.cursorPath w in
  CompilePreconditions [Some (if negb (bool_decide (c0 = "")) then IfMatch c0 else IfNotExists)] = Ok v →
  holds v (version_at (stores g (h_store b)) (h_key b key)) = true →
  ∃ t, t ≠ "" ∧ call (OWriteAll b key c (Locker.record_options None)
      [Some (if negb (bool_decide (c0 = "")) then IfMatch c0 else IfNotExists)]) g (Ok ())
      (put_in (h_store b) (h_key b key) (mkSobject c None t) g).
Proof.
  intros b key Hc Hh. destruct (fresh_exists (stores g (h_store b))) as [t Ht]. exists t.
  split; [apply Ht|]. by eapply gcall_write.
Qed.

(** The compare-and-swap on the cursor does not stop a paused holder from
    rewinding it.  If the pause falls between its write and the read-back of
    the new version, the version it picks up is its successor's, and its next
    write passes: both have persisted their cursors, and the last word is the
    stale holder's, whatever the three cursors are. *)
Theorem watcher_cursor_rewound w g c1 c2 c3 :
  let n := h_store (Watcher.w_bucket w) in
  let k := h_key (Watcher.w_bucket w) (Watcher.cursorPath w) in
  objs (stores g n) !! k = None →
  ∃ g' v v' o, rtc turn (g, stale_holder w c1 c3, successor w c2) (g', mret (Ok v), mret (Ok v')) ∧
    objs (stores g' n) !! k = Some o ∧ so_data o = c3.
Proof.
  intros n k Hnone.
  destruct (call_cursor w g c1 _ "" compile_IfNotExists) as (t1 & Ht1 & Hw1).
  { apply holds_IfNotExists. unfold version_at. fold n k. by rewrite Hnone. }
  fold n k in Hw1. set (g1 := put_in n k _ g) in Hw1.
  assert (objs (stores g1 n) !! k = Some (mkSobject c1 None t1)) as Hl1 by apply put_in_lookup.
  destruct (gcall_found fresh_token _ _ g1 _ Hl1) as (a1 & Hv1 & _ & Hat1).
  pose proof (gcall_read fresh_token _ _ g1 _ Hl1) as Hrd1. cbn [so_data so_version] in *.
  assert (∀ g o, objs (stores g n) !! k = Some o → so_version o ≠ "" →
    ∀ c, ∃ t, t ≠ "" ∧ call (OWriteAll (Watcher.w_bucket w) (Watcher.cursorPath w) c (Locker.record_options None)
      [Some (if negb (bool_decide (so_version o = "")) then IfMatch (so_version o) else IfNotExists)]) g (Ok ())
      (put_in n k (mkSobject c None t) g)) as Hcas.
  { intros h o Ho Hne c. eapply (call_cursor w h c).
    - rewrite bool_decide_false by done. apply compile_IfMatch.
    - apply holds_IfMatch; [done|]. unfold version_at. fold n k. by rewrite Ho. }
  destruct (Hcas g1 _ Hl1 Ht1 c2) as (t2 & Ht2 & Hw2). set (g2 := put_in n k _ g1) in Hw2.
  assert (objs (stores g2 n) !! k = Some (mkSobject c2 None t2)) as Hl2 by apply put_in_lookup.
  destruct (gcall_found fresh_token _ _ g2 _ Hl2) as (a2 & Hv2 & _ & Hat2). cbn [so_data so_version] in *.
  destruct (Hcas g2 _ Hl2 Ht2 c3) as (t3 & Ht3 & Hw3). set (g3 := put_in n k _ g2) in Hw3.
  assert (objs (stores g3 n) !! k = Some (mkSobject c3 None t3)) as Hl3 by apply put_in_lookup.
  destruct (gcall_found fresh_token _ _ g3 _ Hl3) as (a3 & Hv3 & _ & Hat3). cbn [so_data so_version] in *.
  exists g3, (a_Version a3), (a_Version a2), (mkSobject c3 None t3). split; [|done].
  eapply (left_turn _ _ _ _ _ _ _ Hw1). eapply (right_turn _ _ _ _ _ _ _ Hat1).
  eapply (right_turn _ _ _ _ _ _ _ Hrd1). cbn [mret prog_mret]. rewrite Hv1.
  eapply (right_turn _ _ _ _ _ _ _ Hw2). eapply (right_turn _ _ _ _ _ _ _ Hat2).
  eapply (left_turn _ _ _ _ _ _ _ Hat2). cbn [mret prog_mret]. rewrite Hv2.
  eapply (left_turn _ _ _ _ _ _ _ Hw3). eapply (left_turn _ _ _ _ _ _ _ Hat3). apply rtc_refl.
Qed.

End cursor.
