(* ===== verification/TailTheorems.v ===== *)
(** * The tail of a queue on a real listing

    What a page of a tail holds when the in-memory driver answers the listing,
    what a follower can rely on while the queue changes, and that it catches up. *)
From S2P Require Import Prelude Strconv GoTime Md5 Core Effects Store MemDriver MemTheorems MemStore Locker MemRun Queue QueueTheorems QueueListing Watcher.

Import Queue.

(** ** One page *)

Definition in_lag (t : Tail.Tail) (now : Z) (id : string) : bool :=
  from_option (fun ts => Before now (ts + Tail.t_lag t)) false (queueIDTime id).

(** What a tail can show of [ids]: those after the cursor, up to the first that
    is too young. *)
Definition visible (t : Tail.Tail) (now : Z) (cursor : string) (ids : list string) : list string :=
  before (in_lag t now) (filter (λ id, String.leb id cursor = false) ids).

Definition finish (s : Tail.scanned) : list Tail.TailMessage * string :=
  match s with Tail.ScanReturn out next | Tail.ScanMore out next => (out, next) end.

Lemma scan_app t now cursor pageSize l1 l2 out next :
  Tail.scan t now cursor pageSize (l1 ++ l2) out next =
  match Tail.scan t now cursor pageSize l1 out next with
  | Tail.ScanReturn out next => Tail.ScanReturn out next
  | Tail.ScanMore out next => Tail.scan t now cursor pageSize l2 out next
  end.
Proof.
  revert out next. induction l1 as [|obj l1 IH]; intros out next; cbn [app Tail.scan]; [done|].
  repeat (case_match; try apply IH; try done).
Qed.

Lemma last_cons_default {A} (x y : A) l : default x (last (y :: l)) = default y (last l).
Proof. rewrite last_cons. by destruct (last l). Qed.

(** The scan of a listing is the first of its visible ids. *)
Lemma scan_visible t now cursor pageSize objs out next :
  Z.of_nat (length out) < pageSize →
  let ids := take (Z.to_nat (pageSize - Z.of_nat (length out))) (visible t now cursor (omap (listed_id queueMsgPrefix) objs)) in
  finish (Tail.scan t now cursor pageSize objs out next) =
  (out ++ (Tail.mkTailMessage (Tail.t_queue t) <$> ids), default next (last ids)).
Proof.
  revert out next. induction objs as [|obj objs IH]; intros out next Hlt.
  { cbn -[take]. rewrite take_nil. by rewrite app_nil_r. }
  rewrite omap_listed.
  cbn [Tail.scan]. destruct (CutPrefix (lo_Key obj) queueMsgPrefix) as [id|]; [|by apply IH].
  case_bool_decide as Hid; [rewrite decide_True by done; by apply IH|]. rewrite decide_False by done.
  destruct (String.leb id cursor) eqn:Hle.
  { rewrite IH by done. unfold visible. rewrite filter_cons_False by congruence. done. }
  unfold visible. rewrite filter_cons_True by done. cbn [before]. fold (in_lag t now id).
  destruct (in_lag t now id) eqn:Hlag.
  { cbn -[take]. rewrite take_nil. by rewrite app_nil_r. }
  fold (visible t now cursor (omap (listed_id queueMsgPrefix) objs)). set (m := Tail.mkTailMessage (Tail.t_queue t) id).
  replace (Z.to_nat (pageSize - Z.of_nat (length out))) with (S (Z.to_nat (pageSize - Z.of_nat (length (out ++ [m]))))).
  2: { rewrite length_app. cbn. lia. }
  cbn [take fmap list_fmap]. fold m. rewrite last_cons_default.
  case_bool_decide as Hfull; [|rewrite IH by lia; by rewrite <- (assoc_L (++))].
  replace (Z.to_nat _) with 0%nat by lia. done.
Qed.

Section page.
Context `{GT : GoTables}.

(** The loop over the pages of the driver is the scan of the whole listing. *)
Section loop.
Context (w : nat → Mem.state) (t : Tail.Tail).
Let b := q_bucket (Tail.t_queue t).
Context (Hlen : Z.of_nat (length (listing queueMsgPrefix w b)) + 1000 ≤ int64_max).

Lemma run_page_loop fuel now cursor pageSize token e out next envs' :
  (∀ i, calm (envs' i)) → Mem.decodePageToken token = Ok (Z.of_nat e) → strlen token ≠ 0 →
  (e ≤ length (listing queueMsgPrefix w b) < e + fuel)%nat →
  run exec (Tail.page_loop fuel t now cursor pageSize token out next) envs' w =
  (Some (Some (Ok (finish (Tail.scan t now cursor pageSize (drop e (listing queueMsgPrefix w b)) out next)))), w).
Proof.
  revert token e out next envs'. induction fuel as [|fuel IH]; intros token e out next envs' Hc Ht Hne Hf; [lia|].
  cbn [Tail.page_loop trigger mbind prog_mbind prog_bind run]. unfold exec at 1. fold b. rewrite (Hc 0%nat).
  fold (all_under queueMsgPrefix).
  rewrite (page_at (memBucket b) (w (h_store b)) token (Z.of_nat e) Tail.tailListPageSize (all_under queueMsgPrefix))
    by (exact Hlen || done || lia).
  fold (listing queueMsgPrefix w b). rewrite Nat2Z.id. change (Z.to_nat Tail.tailListPageSize) with 1000%nat.
  cbn [run]. rewrite <- (take_drop 1000 (drop e (listing queueMsgPrefix w b))) at 2. rewrite scan_app, drop_drop.
  destruct (Tail.scan t now cursor pageSize (take 1000 _) out next) as [o n|o n]; [done|].
  destruct (bool_decide_reflect (Z.of_nat e + Tail.tailListPageSize < Z.of_nat (length (listing queueMsgPrefix w b)))) as [Hmore|Hmore].
  - rewrite bool_decide_false by (apply Itoa_nonempty; unfold Tail.tailListPageSize in *; lia).
    apply IH; [done|..]; unfold Tail.tailListPageSize in *.
    + rewrite decode_Itoa by lia. f_equal. lia.
    + apply Itoa_nonempty. lia.
    + lia.
  - rewrite bool_decide_true by done. rewrite drop_ge; [done|]. unfold Tail.tailListPageSize in Hmore. lia.
Qed.

End loop.

(** What [Page] returns for [pageSize], of the messages that are there. *)
Definition page_of (t : Tail.Tail) (now : Z) (cursor : string) (pageSize : Z) (ids : list string)
    : list Tail.TailMessage * string :=
  let n := if bool_decide (pageSize ≤ 0) then DefaultHeadWindow else pageSize in
  let page := take (Z.to_nat n) (visible t now cursor ids) in
  (Tail.mkTailMessage (Tail.t_queue t) <$> page, default cursor (last page)).

(** [Page] on a bucket that nobody changes meanwhile. *)
Lemma run_Page fuel t cursor pageSize envs w :
  (∀ i, calm (envs i)) → let b := q_bucket (Tail.t_queue t) in
  Z.of_nat (length (listing queueMsgPrefix w b)) + 1000 ≤ int64_max → (length (listing queueMsgPrefix w b) < fuel)%nat →
  run exec (Tail.Page fuel t cursor pageSize) envs w =
  (Some (Some (Ok (page_of t (e_clock (envs 0%nat)) cursor pageSize (ids_under queueMsgPrefix w b)))), w).
Proof.
  intros He b Hlen Hf. unfold Tail.Page. rewrite run_now.
  rewrite (run_page_loop w t Hlen fuel _ _ _ FirstPageToken 0) by (done || (fold b; lia)).
  rewrite drop_0, scan_visible by (cbn; unfold DefaultHeadWindow; case_bool_decide; lia).
  cbn [length app]. by rewrite Z.sub_0_r.
Qed.

(** C30: a page of a tail is complete.  On an in-memory bucket that nobody changes
    meanwhile, with calls that do not fail and one round more than the listing has
    entries, the loop of [Page] over the pages of the listing returns without an
    error exactly what the reference [page_of] computes of all the ids that are
    there: the first [pageSize] of the messages after the cursor, up to the first
    one that is too young, in order, and the last of them, or the old cursor, as
    the new cursor; the bucket is as it was. *)
Theorem tail_page_complete fuel t cursor pageSize envs w :
  (∀ i, calm (envs i)) → let b := q_bucket (Tail.t_queue t) in
  Z.of_nat (length (listing queueMsgPrefix w b)) + 1000 ≤ int64_max → (length (listing queueMsgPrefix w b) < fuel)%nat →
  run exec (Tail.Page fuel t cursor pageSize) envs w =
  (Some (Some (Ok (page_of t (e_clock (envs 0%nat)) cursor pageSize (ids_under queueMsgPrefix w b)))), w).
Proof. intros. by apply run_Page. Qed.

End page.

(** ** The cursor leaves nothing behind *)

(** Of two ids, the one that is too young sorts after the one that is not. *)
Lemma in_lag_sorts t now id id' :
  stamped id → stamped id' → in_lag t now id = false → in_lag t now id' = true → str_lt id id'.
Proof.
  intros Hs Hs'. destruct (stamped_time id Hs) as [ts E]. destruct (stamped_time id' Hs') as [ts' E'].
  unfold in_lag. rewrite E, E'. cbn. unfold Before. intros H1%bool_decide_eq_false H2%bool_decide_eq_true.
  eapply stamps_sorted; [done..|]. lia.
Qed.

Lemma in_lag_later t now now' id : now ≤ now' → in_lag t now id = false → in_lag t now' id = false.
Proof.
  unfold in_lag. intros Hle. destruct (queueIDTime id) as [ts|]; [|done]. cbn. unfold Before.
  intros H%bool_decide_eq_false. apply bool_decide_eq_false. lia.
Qed.

Section gap.
Context `{GT : GoTables} (t : Tail.Tail).
Let b := q_bucket (Tail.t_queue t).

Definition message (w : nat → Mem.state) (id : string) : Prop := is_Some (obj w b (queueMsgPrefix +:+ id)).

(** What a follower at [cursor] that has been shown [shown] can rely on at [now]. *)
Record kept (w : nat → Mem.state) (now : Z) (cursor : string) (shown : list string) : Prop := {
  kp_stamped id : message w id → stamped id;
  kp_shown id : message w id → String.le id cursor → id ∈ shown;
  kp_sorted : StronglySorted str_lt shown;
  kp_before id : id ∈ shown → String.le id cursor;
  kp_cursor : cursor = "" ∨ stamped cursor ∧ in_lag t now cursor = false;
}.

(** What a page holds and leaves, of a sorted list of ids: the ids after the
    cursor are those of the page, then the rest. *)
Lemma page_split now cursor n ids :
  StronglySorted str_lt ids →
  let page := take n (visible t now cursor ids) in
  ∃ rest, filter (λ id, String.leb id cursor = false) ids = page ++ rest ∧
    StronglySorted str_lt (page ++ rest) ∧ (∀ id, id ∈ page → in_lag t now id = false ∧ str_lt cursor id ∧ id ∈ ids) ∧
    ∀ id, id ∈ rest → str_lt (default cursor (last page)) id.
Proof.
  intros Hs page. destruct (before_cut (in_lag t now) (filter (λ id, String.leb id cursor = false) ids)) as (l' & E & _).
  fold (visible t now cursor ids) in E. exists (drop n (visible t now cursor ids) ++ l').
  assert (filter (λ id, String.leb id cursor = false) ids = page ++ drop n (visible t now cursor ids) ++ l') as E'.
  { rewrite E at 1. rewrite (assoc_L (++)). unfold page. by rewrite take_drop. }
  assert (∀ id, id ∈ filter (λ id, String.leb id cursor = false) ids → str_lt cursor id ∧ id ∈ ids) as Hin.
  { intros id [Hle Hid]%list_elem_of_filter. split; [by apply string_leb_gt|done]. }
  pose proof (StronglySorted_filter str_lt (λ id, String.leb id cursor = false) ids Hs) as Hs'. rewrite E' in Hs', Hin.
  split_and!; [done|done|..].
  - intros id Hid. split; [|apply Hin; apply elem_of_app; by left].
    eapply elem_of_before. apply elem_of_take in Hid as (i & Hi & _). by eapply list_elem_of_lookup_2.
  - intros id Hid. destruct (last page) as [x|] eqn:El; cbn.
    + eapply StronglySorted_app_1_elem_of; [exact Hs'|by eapply last_Some_elem_of|done].
    + apply Hin. apply elem_of_app. by right.
Qed.

Lemma ID_messages q (l : list string) : Tail.ID <$> (Tail.mkTailMessage q <$> l) = l.
Proof. rewrite <- list_fmap_compose. by apply list_fmap_id. Qed.

Lemma page_ids pageSize now cursor ids out next :
  page_of t now cursor pageSize ids = (out, next) →
  ∃ n, (0 < n)%nat ∧ n = Z.to_nat (if bool_decide (pageSize ≤ 0) then DefaultHeadWindow else pageSize) ∧
    Tail.ID <$> out = take n (visible t now cursor ids) ∧ next = default cursor (last (take n (visible t now cursor ids))).
Proof.
  intros [= <- <-]. eexists. split_and!; [|done| |done]; [unfold DefaultHeadWindow; case_bool_decide; lia|].
  apply ID_messages.
Qed.

(** A page of the ids that are there, taken by a clock that has moved on since. *)
Lemma kept_page now0 now cursor shown pageSize w out next :
  now0 ≤ now → kept w now cursor shown → page_of t now0 cursor pageSize (ids_under queueMsgPrefix w b) = (out, next) →
  kept w now next (shown ++ (Tail.ID <$> out)).
Proof.
  intros Hnow [H1 H2 H3 H4 H5] Hp. destruct (page_ids _ _ _ _ _ _ Hp) as (n & _ & _ & -> & ->).
  destruct (page_split now0 cursor n (ids_under queueMsgPrefix w b) (ids_sorted queueMsgPrefix w b)) as (rest & E & Hs & Hin & Hrest).
  set (page := take n (visible t now0 cursor (ids_under queueMsgPrefix w b))) in *.
  assert (String.le cursor (default cursor (last page))) as Hle.
  { destruct (last page) as [x|] eqn:El; [|done]. by apply Hin, last_Some_elem_of. }
  split; [done|..].
  - intros id Hid Hlast. apply elem_of_app. destruct (String.leb id cursor) eqn:Ec.
    { left. apply H2; [done..|]. by apply string_leb_le. }
    right. assert (id ∈ page ++ rest) as [|Hr]%elem_of_app; [|done|].
    { rewrite <- E. apply list_elem_of_filter. split; [done|]. apply elem_of_ids. split; [|done]. by apply stamped_nonempty, H1. }
    destruct (Hrest id Hr) as [? Hneq]. destruct Hneq. by apply (anti_symm String.le).
  - apply StronglySorted_app_2; [|done|by eapply StronglySorted_app_1_l].
    intros x y Hx Hy. eapply str_le_lt_trans; [by apply H4|]. by apply Hin.
  - intros id [Hid|Hid]%elem_of_app; [by etrans; [apply H4|]|].
    destruct (last page) as [x|] eqn:El; [|apply last_None in El; rewrite El in Hid; by apply elem_of_nil in Hid].
    cbn. apply last_Some in El as [l El]. rewrite El in Hid, Hs. apply elem_of_app in Hid as [Hid|Hid%list_elem_of_singleton]; [|by subst].
    apply StronglySorted_app_1_l in Hs. apply (StronglySorted_app_1_elem_of _ _ _ _ x Hs Hid). by left.
  - destruct (last page) as [x|] eqn:El; [|done]. cbn. right. apply last_Some_elem_of in El.
    destruct (Hin x El) as (Hlag & _ & Hx). apply elem_of_ids in Hx as [_ Hx]. split; [by apply H1|by eapply in_lag_later].
Qed.

(** A payload that commits inside the lag window sorts after the cursor. *)
Lemma kept_young w now cursor shown id :
  kept w now cursor shown → stamped id → in_lag t now id = true → str_lt cursor id.
Proof.
  intros [_ _ _ _ H5] Hid Hlag. destruct H5 as [-> |[Hc Hc']]; [|by eapply in_lag_sorts].
  split; [by destruct id|]. intros <-. by apply (stamped_nonempty "").
Qed.

Lemma kept_commit w w' now cursor shown id :
  kept w now cursor shown → stamped id → in_lag t now id = true →
  (∀ id', message w' id' → message w id' ∨ id' = id) → kept w' now cursor shown.
Proof.
  intros Hk Hid Hlag Hadd. destruct (kept_young _ _ _ _ _ Hk Hid Hlag) as [_ Hne].
  pose proof (kept_young _ _ _ _ _ Hk Hid Hlag) as [Hle _]. destruct Hk as [H1 H2 H3 H4 H5]. split; [..|done|done|done].
  - intros id' [?| ->]%Hadd; [by apply H1|done].
  - intros id' [?| ->]%Hadd Hle'; [by apply H2|]. destruct Hne. by apply (anti_symm String.le).
Qed.

Lemma kept_fewer w w' now cursor shown :
  kept w now cursor shown → (∀ id, message w' id → message w id) → kept w' now cursor shown.
Proof. intros [H1 H2 H3 H4 H5] Hsub. split; [..|done|done|done]; auto. Qed.

Lemma kept_later w now now' cursor shown : now ≤ now' → kept w now cursor shown → kept w now' cursor shown.
Proof.
  intros Hle [H1 H2 H3 H4 H5]. split; [done..|]. destruct H5 as [? |[? ?]]; [by left|right].
  split; [done|]. by eapply in_lag_later.
Qed.

Lemma filter_between c id P M S :
  (∀ x, x ∈ P → String.le x c) → (∀ x, x ∈ M → str_lt c x ∧ String.le x id) → (∀ x, x ∈ S → str_lt id x) →
  filter (λ x, str_lt c x ∧ String.le x id) (P ++ M ++ S) = M.
Proof.
  intros HP HM HS. rewrite !filter_app, (filter_none _ P), (filter_all _ M), (filter_none _ S).
  - by rewrite app_nil_r.
  - intros x Hx [_ Hle]. destruct (HS x Hx) as [? []]. by apply (anti_symm String.le).
  - exact HM.
  - intros x Hx [[? Hne] _]. apply Hne, (anti_symm String.le); [done|by apply HP].
Qed.

(** The ids after the cursor around one that is old enough. *)
Lemma ids_around now cursor w id :
  (∀ id, message w id → stamped id) → message w id → str_lt cursor id → in_lag t now id = false →
  ∃ A B, filter (λ x, String.leb x cursor = false) (ids_under queueMsgPrefix w b) = A ++ id :: B ∧
    StronglySorted str_lt (A ++ id :: B) ∧ (∀ x, x ∈ A → str_lt cursor x) ∧
    visible t now cursor (ids_under queueMsgPrefix w b) = A ++ id :: before (in_lag t now) B.
Proof.
  intros Hst Hm Hc Hl.
  assert (id ∈ filter (λ x, String.leb x cursor = false) (ids_under queueMsgPrefix w b)) as (A & B & E)%list_elem_of_split.
  { apply list_elem_of_filter. split; [by apply string_leb_gt|]. apply elem_of_ids. split; [|done].
    by apply stamped_nonempty, Hst. }
  pose proof (StronglySorted_filter str_lt (λ x, String.leb x cursor = false) _ (ids_sorted queueMsgPrefix w b)) as Hs. rewrite E in Hs.
  assert (∀ x, x ∈ A → str_lt cursor x ∧ message w x) as HA.
  { intros x Hx. assert (x ∈ filter (λ x, String.leb x cursor = false) (ids_under queueMsgPrefix w b)) as Hx'.
    { rewrite E. apply elem_of_app. by left. }
    apply list_elem_of_filter in Hx' as [?%string_leb_gt [_ ?]%elem_of_ids]. done. }
  exists A, B. split_and!; [done..| |].
  - intros x Hx. by apply HA.
  - unfold visible. rewrite E, before_app; [cbn; by rewrite Hl|]. intros x Hx.
    destruct (in_lag t now x) eqn:Ex; [|done]. exfalso.
    pose proof (StronglySorted_app_1_elem_of _ _ _ _ id Hs Hx ltac:(by left)) as [Hle Hne].
    destruct (in_lag_sorts t now id x) as [? _]; [by apply Hst|apply Hst; by apply HA|done..|].
    by apply Hne, (anti_symm String.le).
Qed.

(** C23: a tail catches up.  A page shows a message that is there and old enough
    when it has room for all that come before it; if it has not, it is full of
    messages that come before it, and that many fewer are left. *)
Theorem tail_progress fuel pageSize envs w cursor id :
  (∀ i, calm (envs i)) → Z.of_nat (length (listing queueMsgPrefix w b)) + 1000 ≤ int64_max →
  (length (listing queueMsgPrefix w b) < fuel)%nat → 0 < pageSize →
  (∀ id, message w id → stamped id) → message w id → str_lt cursor id → in_lag t (e_clock (envs 0%nat)) id = false →
  let left c := Z.of_nat (length (filter (λ x, str_lt c x ∧ String.le x id) (ids_under queueMsgPrefix w b))) in
  ∃ out next, run exec (Tail.Page fuel t cursor pageSize) envs w = (Some (Some (Ok (out, next))), w) ∧
    if bool_decide (left cursor ≤ pageSize) then id ∈ Tail.ID <$> out
    else Z.of_nat (length out) = pageSize ∧ left next = left cursor - pageSize.
Proof.
  intros He Hlen Hf Hps Hst Hm Hc Hl left. eexists _, _. rewrite run_Page by done. split; [done|].
  destruct (ids_around _ cursor w id Hst Hm Hc Hl) as (A & B & E & Hs & HA & Ev). fold b. rewrite Ev.
  rewrite (bool_decide_false (pageSize ≤ 0)) by lia.
  assert (∀ c, (c = cursor ∨ str_lt cursor c) → left c = Z.of_nat (length (filter (λ x, str_lt c x ∧ String.le x id) (A ++ id :: B)))) as Hleft.
  { intros c Hcase. unfold left. rewrite <- E, list_filter_filter_l; [done|]. intros x [Hx _]. apply string_leb_gt.
    destruct Hcase as [-> |?]; [done|]. by trans c. }
  apply StronglySorted_app in Hs as (Hab & HsA & [HB _]%StronglySorted_cons). rewrite Forall_forall in HB.
  assert (∀ x, x ∈ A → String.le x id) as HAid by (intros x Hx; apply (Hab x id Hx); by left).
  assert (left cursor = Z.of_nat (length A) + 1) as Ec.
  { rewrite Hleft by (by left). replace (A ++ id :: B) with ([] ++ (A ++ [id]) ++ B) by (cbn; by rewrite <- (assoc_L (++))).
    rewrite filter_between; [rewrite length_app; cbn; lia|by intros ? ?%elem_of_nil| |done].
    intros x [Hx|Hx%list_elem_of_singleton]%elem_of_app; [split; [by apply HA|by apply HAid]|by subst]. }
  case_bool_decide as Hroom.
  { rewrite ID_messages. apply elem_of_take. exists (length A). split; [by apply list_lookup_middle|lia]. }
  rewrite take_app_le by lia. split; [rewrite length_fmap, length_take; lia|].
  destruct (last (take (Z.to_nat pageSize) A)) as [x|] eqn:El; cbn [default].
  2: { apply last_None, (f_equal length) in El. rewrite length_take in El. cbn in El. lia. }
  assert (x ∈ A) as Hx by (apply last_Some_elem_of, elem_of_take in El as (i & Hi & _); by eapply list_elem_of_lookup_2).
  rewrite Hleft by (right; by apply HA). apply last_Some in El as [l El].
  set (A2 := drop (Z.to_nat pageSize) A). assert (A = (l ++ [x]) ++ A2) as EA by (rewrite <- El; symmetry; apply take_drop).
  assert (Z.of_nat (length A2) = Z.of_nat (length A) - pageSize) as EA2 by (unfold A2; rewrite length_drop; lia).
  rewrite EA in HsA. apply StronglySorted_app in HsA as (Hx2 & Hsl & _).
  replace (A ++ id :: B) with ((l ++ [x]) ++ (A2 ++ [id]) ++ B) by (rewrite EA, <- !(assoc_L (++)); done).
  rewrite filter_between; [rewrite length_app; cbn; lia|..|done].
  - intros y [Hy|Hy%list_elem_of_singleton]%elem_of_app; [|by rewrite Hy].
    apply (StronglySorted_app_1_elem_of _ _ _ _ x Hsl Hy). by left.
  - intros y [Hy|Hy%list_elem_of_singleton]%elem_of_app.
    + split; [apply Hx2; [apply elem_of_app; right; by left|done]|]. apply HAid. rewrite EA. apply elem_of_app. by right.
    + rewrite Hy. split; [|done]. apply Hab; [done|by left].
Qed.

End gap.
