(* ===== verification/TailInterleaved.v ===== *)
(** * The tail of a queue, call by call

    A follower that pages through a queue of the in-memory driver while others
    change it.  [Page] is run one call of the bucket at a time, so that commits and
    removals fall between two calls of its loop over the listing. *)
From stdpp Require Import relations.
From S2P Require Import Prelude Strconv GoTime Md5 Core Effects Store MemDriver MemTheorems MemStore MemRun Queue QueueTheorems QueueListing Watcher TailTheorems.

Import Queue.

(** ** The scan of the ids *)

(** [Tail.scan] on the ids of the listed objects. *)
Fixpoint scan_ids (t : Tail.Tail) (now : Z) (cursor : string) (pageSize : Z) (ids : list string)
    (out : list Tail.TailMessage) (next : string) : Tail.scanned :=
  match ids with
  | [] => Tail.ScanMore out next
  | id :: ids =>
    if String.leb id cursor then scan_ids t now cursor pageSize ids out next
    else if in_lag t now id then Tail.ScanReturn out next
    else
      let out := out ++ [Tail.mkTailMessage (Tail.t_queue t) id] in
      if bool_decide (pageSize ≤ Z.of_nat (length out)) then Tail.ScanReturn out id
      else scan_ids t now cursor pageSize ids out id
  end.

Lemma scan_scan_ids t now cursor pageSize objs out next :
  Tail.scan t now cursor pageSize objs out next =
  scan_ids t now cursor pageSize (omap (listed_id queueMsgPrefix) objs) out next.
Proof.
  revert out next. induction objs as [|o objs IH]; intros out next; [done|].
  rewrite omap_listed. cbn [Tail.scan]. destruct (CutPrefix (lo_Key o) queueMsgPrefix) as [id|]; [|apply IH].
  case_bool_decide as Hid; [rewrite decide_True by done; apply IH|]. rewrite decide_False by done.
  cbn [scan_ids]. fold (in_lag t now id). by rewrite !IH.
Qed.

Lemma scan_ids_app t now cursor pageSize l1 l2 out next :
  scan_ids t now cursor pageSize (l1 ++ l2) out next =
  match scan_ids t now cursor pageSize l1 out next with
  | Tail.ScanReturn out next => Tail.ScanReturn out next
  | Tail.ScanMore out next => scan_ids t now cursor pageSize l2 out next
  end.
Proof.
  revert out next. induction l1 as [|id l1 IH]; intros out next; cbn [app scan_ids]; [done|].
  repeat (case_match; try apply IH; try done).
Qed.

(** An id that a scan has gone past is not after the cursor, or old enough. *)
Lemma scan_ids_past t now cursor pageSize ids out next out' next' id :
  scan_ids t now cursor pageSize ids out next = Tail.ScanMore out' next' → id ∈ ids →
  String.le id cursor ∨ in_lag t now id = false.
Proof.
  revert out next. induction ids as [|x ids IH]; intros out next; cbn [scan_ids]; [by intros _ ?%elem_of_nil|].
  destruct (String.leb x cursor) eqn:Hx.
  { intros E [-> |Hin]%elem_of_cons; [left; by apply string_leb_le|by eapply IH]. }
  destruct (in_lag t now x) eqn:Hl; [done|]. case_bool_decide; [done|].
  intros E [-> |Hin]%elem_of_cons; [by right|by eapply IH].
Qed.

(** ** Sorted lists that grow at the end *)

Lemma sorted_take_grows e l l' :
  StronglySorted str_lt l → StronglySorted str_lt l' → (e ≤ length l)%nat → (∀ x, x ∈ l → x ∈ l') →
  (∀ x, x ∈ l' → x ∈ l ∨ ∀ y, y ∈ take e l → str_lt y x) → take e l' = take e l.
Proof.
  revert l l'. induction e as [|e IH]; intros l l' Hl Hl' He Hin Hnew; [done|].
  destruct l as [|x l]; [cbn in He; lia|]. destruct l' as [|y l']; [by destruct (not_elem_of_nil x); apply Hin; left|].
  apply StronglySorted_cons in Hl as [Hxl Hl]. apply StronglySorted_cons in Hl' as [Hyl Hl'].
  rewrite Forall_forall in Hxl, Hyl.
  assert (∀ a c, str_lt a c → String.le c a → False) as Hasym.
  { intros a c [? Hne] ?. by apply Hne, (anti_symm String.le). }
  assert (y = x) as ->.
  { assert (String.le y x) as Hyx.
    { pose proof (Hin x ltac:(by left)) as [<- |Hx]%elem_of_cons; [done|by destruct (Hyl x Hx)]. }
    destruct (Hnew y ltac:(by left)) as [[-> |Hy]%elem_of_cons|Hy]; [done|..]; exfalso.
    - by eapply Hasym; [apply Hxl|].
    - by eapply Hasym; [apply Hy; left|]. }
  cbn [take]. f_equal. apply IH; [done|done|cbn in He; lia|..].
  - intros z Hz. pose proof (Hin z ltac:(by right)) as [-> |?]%elem_of_cons; [|done]. destruct (Hxl x Hz) as [_ []]. done.
  - intros z Hz. destruct (Hnew z ltac:(by right)) as [[-> |?]%elem_of_cons|Hz'].
    + destruct (Hyl x Hz) as [_ []]. done.
    + by left.
    + right. intros a Ha. apply Hz'. by right.
Qed.

(** ** A follower at work *)

(** A page as it is being computed: what is left of [Page]. *)
Abbreviation paging := (prog (option (result (list Tail.TailMessage * string)))) (only parsing).

(** The driver's states, the clock, the follower's cursor, the ids it has been
    shown so far, and the page it is waiting for. *)
Record tailing := mkTailing {
  tl_world : nat → Mem.state;
  tl_clock : Z;
  tl_cursor : string;
  tl_shown : list string;
  tl_page : option paging;
}.

(** One call of a program. *)
Definition call_step `{GoTables} {R} (e : env) (p : prog R) (w : nat → Mem.state) : option (prog R * (nat → Mem.state)) :=
  match p with
  | Vis o k => match exec e o w with (Some a, w') => Some (k a, w') | (None, _) => None end
  | _ => None
  end.

(** A page between two calls of its listing: the next one has the token of a
    page that is not the first. *)
Definition listing_underway (p : option paging) : Prop :=
  match p with
  | Some (Vis (OListPage _ token _ _) _) => token ≠ FirstPageToken
  | _ => False
  end.

Section steps.
Context `{GT : GoTables} (t : Tail.Tail) (may_remove : option paging → Prop).
Let b := q_bucket (Tail.t_queue t).
#[local] Abbreviation message := (message t).

(** The follower asks for a page; the driver answers one call of it, or fails it;
    the follower takes a page that has returned and keeps its cursor, or gives the
    page up; a producer's payload commits while its id is still inside the lag
    window; consumers, retention and whoever else change the bucket, but add no
    message, and remove one only when they may; time passes. *)
Inductive tail_step : tailing → tailing → Prop :=
| step_start fuel pageSize w now cursor shown :
  tail_step (mkTailing w now cursor shown None) (mkTailing w now cursor shown (Some (Tail.Page fuel t cursor pageSize)))
| step_call e p p' w w' now cursor shown :
  e_clock e = now → Z.of_nat (length (listing queueMsgPrefix w b)) + 1000 ≤ int64_max →
  call_step e p w = Some (p', w') →
  tail_step (mkTailing w now cursor shown (Some p)) (mkTailing w' now cursor shown (Some p'))
| step_take out next w now cursor shown :
  tail_step (mkTailing w now cursor shown (Some (Ret (Some (Ok (out, next))))))
    (mkTailing w now next (shown ++ (Tail.ID <$> out)) None)
| step_give_up w now cursor shown p :
  tail_step (mkTailing w now cursor shown (Some p)) (mkTailing w now cursor shown None)
| step_commit ts u w w' now cursor shown p :
  id_range ts → in_lag t now (newQueueID ts u) = true →
  (∀ id, message w' id → message w id ∨ id = newQueueID ts u) → (∀ id, message w id → message w' id) →
  tail_step (mkTailing w now cursor shown p) (mkTailing w' now cursor shown p)
| step_other w w' now cursor shown p :
  (∀ id, message w' id → message w id) → (∀ id, message w id → message w' id) ∨ may_remove p →
  tail_step (mkTailing w now cursor shown p) (mkTailing w' now cursor shown p)
| step_clock w now now' cursor shown p :
  now ≤ now' → tail_step (mkTailing w now cursor shown p) (mkTailing w now' cursor shown p).

(** The stream a producer writes its payload through is such a commit. *)
Lemma payload_commits ts u r attrs md envs w res w' :
  (∀ i, calm (envs i)) → s_err r = None → NormalizeMetadata attrs = Ok md →
  run exec (writePayload (Tail.t_queue t) (newQueueID ts u) r attrs) envs w = (res, w') →
  (∀ id, message w' id → message w id ∨ id = newQueueID ts u) ∧ (∀ id, message w id → message w' id).
Proof.
  intros He Hr Hmd Hx. destruct (run_writePayload mret (Tail.t_queue t) (newQueueID ts u) r attrs md envs w He Hr Hmd) as (o & _ & E).
  destruct (run_bind exec (writePayload (Tail.t_queue t) (newQueueID ts u) r attrs) mret envs w) as [m E']. rewrite E', Hx in E.
  assert (w' = match obj w b (queueMsgPrefix +:+ newQueueID ts u) with
    | None => wrote b (queueMsgPrefix +:+ newQueueID ts u) o w | Some _ => MemRun.untouched b w end) as ->.
  { fold b in E. destruct res, (obj w b _); cbn in E; congruence. }
  unfold message. fold b. split; intros id.
  - destruct (obj w b (queueMsgPrefix +:+ newQueueID ts u)); [rewrite obj_untouched; by left|].
    rewrite obj_wrote. case_decide as Hk; [|by left]. apply string_app_inj_l in Hk. by right.
  - destruct (obj w b (queueMsgPrefix +:+ newQueueID ts u)); [by rewrite obj_untouched|].
    rewrite obj_wrote. by case_decide.
Qed.
End steps.

(** ** What a page that is being computed can rely on *)

Section invariant.
Context `{GT : GoTables} (t : Tail.Tail).
Let b := q_bucket (Tail.t_queue t).
#[local] Abbreviation message := (message t).
#[local] Abbreviation ids w := (ids_under queueMsgPrefix w b).

(** The part of the listing before [e] has been scanned, at [now0], to [out] and
    [next], and the scan goes on. *)
Definition scanned_to (w : nat → Mem.state) (now0 : Z) (cursor : string) (n : Z) (e : nat)
    (out : list Tail.TailMessage) (next : string) : Prop :=
  (e ≤ length (ids w))%nat ∧ scan_ids t now0 cursor n (take e (ids w)) [] cursor = Tail.ScanMore out next.

Inductive page_inv (w : nat → Mem.state) (now : Z) (cursor : string) (shown : list string) : paging → Prop :=
| page_asked fuel pageSize : page_inv w now cursor shown (Tail.Page fuel t cursor pageSize)
| page_listing fuel now0 n token e out next :
  now0 ≤ now → 0 < n → Mem.decodePageToken token = Ok (Z.of_nat e) → strlen token ≠ 0 →
  scanned_to w now0 cursor n e out next →
  page_inv w now cursor shown (Tail.page_loop fuel t now0 cursor n token out next)
| page_returned out next :
  kept t w now next (shown ++ (Tail.ID <$> out)) → page_inv w now cursor shown (Ret (Some (Ok (out, next))))
| page_failed r : (∀ x, r ≠ Some (Ok x)) → page_inv w now cursor shown (Ret r).

Definition tail_inv (s : tailing) : Prop :=
  kept t (tl_world s) (tl_clock s) (tl_cursor s) (tl_shown s) ∧
  ∀ p, tl_page s = Some p → page_inv (tl_world s) (tl_clock s) (tl_cursor s) (tl_shown s) p.

(** With every message stamped, the entries of the listing are the ids. *)
Lemma listing_chunk w e k :
  (∀ id, message w id → stamped id) →
  omap (listed_id queueMsgPrefix) (take k (drop e (listing queueMsgPrefix w b))) = take k (drop e (ids w)) ∧
  length (listing queueMsgPrefix w b) = length (ids w).
Proof.
  intros Hst. destruct (mem_list_sorted_complete (memBucket b) (all_under queueMsgPrefix) (w (h_store b)) eq_refl) as [_ Hk].
  assert (∀ x, x ∈ listing queueMsgPrefix w b → is_Some (listed_id queueMsgPrefix x)) as Hx.
  { intros x Hx. destruct (proj1 (Hk (lo_Key x))) as [[id E]%HasPrefix_spec Ho]; [apply list_elem_of_fmap_2; exact Hx|].
    cbn in E. exists id. apply listed_id_Some. split; [done|]. rewrite E in Ho. by apply stamped_nonempty, Hst, Ho. }
  unfold ids_under. clear Hk. revert e k Hx. generalize (listing queueMsgPrefix w b) as l.
  induction l as [|x l IH]; intros e k Hx; [by destruct e, k|].
  destruct (Hx x ltac:(by left)) as [id E]. cbn [omap list_omap]. rewrite E.
  assert (∀ y, y ∈ l → is_Some (listed_id queueMsgPrefix y)) as Hl by (intros y Hy; apply Hx; by right).
  split; [|cbn; f_equal; by apply (IH 0%nat 0%nat)].
  destruct e as [|e]; [|by apply IH]. rewrite !drop_0. destruct k as [|k]; [done|]. cbn [take omap list_omap]. rewrite E.
  f_equal. by destruct (IH 0%nat k Hl) as [H0 _].
Qed.

(** The ids that a scan has gone past stay where they are when nothing is removed
    and only young ids are added. *)
Lemma scanned_grows w w' now0 now cursor shown n e out next :
  kept t w now cursor shown → now0 ≤ now → scanned_to w now0 cursor n e out next →
  (∀ id, message w id → message w' id) →
  (∀ id, message w' id → message w id ∨ stamped id ∧ in_lag t now id = true) →
  scanned_to w' now0 cursor n e out next.
Proof.
  intros Hk Hnow [He Hs] Hin Hadd.
  assert (take e (ids w') = take e (ids w)) as E.
  { apply sorted_take_grows; [apply ids_sorted|apply ids_sorted|done|..].
    - intros x [Hne Hx]%elem_of_ids. apply elem_of_ids. split; [done|]. by apply Hin.
    - intros x [Hne [Hx|[Hx Hl]]%Hadd]%elem_of_ids; [left; by apply elem_of_ids|right].
      intros y Hy. destruct (scan_ids_past _ _ _ _ _ _ _ _ _ y Hs Hy) as [Hc|Hc].
      + eapply str_le_lt_trans; [exact Hc|]. by eapply kept_young.
      + apply elem_of_take in Hy as (i & [_ Hy]%list_elem_of_lookup_2%elem_of_ids & _).
        eapply (in_lag_sorts t now); [by eapply kp_stamped|done| |done]. by eapply in_lag_later. }
  split; [|by rewrite E]. apply (f_equal length) in E. rewrite !length_take in E. lia.
Qed.

(** Changes around a page that is being computed. *)
Lemma page_inv_grows w w' now cursor shown p :
  kept t w now cursor shown → page_inv w now cursor shown p → (∀ id, message w id → message w' id) →
  (∀ c s, kept t w now c s → kept t w' now c s) →
  (∀ id, message w' id → message w id ∨ stamped id ∧ in_lag t now id = true) → page_inv w' now cursor shown p.
Proof.
  intros Hk Hp Hin Hkeep Hadd. destruct Hp as [| | |].
  - apply page_asked.
  - eapply page_listing; [done..|]. by eapply scanned_grows.
  - apply page_returned. by apply Hkeep.
  - by apply page_failed.
Qed.

Lemma page_inv_removed w w' now cursor shown p :
  page_inv w now cursor shown p → ¬ listing_underway (Some p) → (∀ id, message w' id → message w id) →
  page_inv w' now cursor shown p.
Proof.
  intros Hp Hnot Hsub. destruct Hp as [|fuel now0 n token e out next Hnow Hn Ht Hne [He Hs]| |].
  - apply page_asked.
  - destruct fuel as [|fuel]; [by apply page_failed|].
    assert (token = FirstPageToken) as -> by (destruct (decide (token = FirstPageToken)); [done|by destruct Hnot]).
    assert (e = 0%nat) as -> by (change (Ok 0 = Ok (Z.of_nat e)) in Ht; injection Ht; lia).
    eapply (page_listing w' now cursor shown (S fuel) now0 n FirstPageToken 0); [done..|]. split; [lia|done].
  - apply page_returned. by eapply kept_fewer.
  - by apply page_failed.
Qed.

Lemma page_inv_later w now now' cursor shown p : now ≤ now' → page_inv w now cursor shown p → page_inv w now' cursor shown p.
Proof.
  intros Hle [fuel ps|fuel now0 n token e out next Hnow Hn Ht Hne Hs|out next Hk|r Hr].
  - apply page_asked.
  - eapply page_listing; [lia|done..].
  - apply page_returned. by eapply kept_later.
  - by apply page_failed.
Qed.

(** A scan that has come to its end, on a listing of which it has seen a part or
    all, is a page. *)
Lemma scanned_page w now0 cursor n e out next :
  0 < n →
  match scan_ids t now0 cursor n (take e (ids w)) [] cursor with
  | Tail.ScanReturn out' next' => out' = out ∧ next' = next
  | Tail.ScanMore out' next' => out' = out ∧ next' = next ∧ (length (ids w) ≤ e)%nat
  end → page_of t now0 cursor n (ids w) = (out, next).
Proof.
  intros Hn Hs. assert (TailTheorems.finish (scan_ids t now0 cursor n (ids w) [] cursor) = (out, next)) as E.
  { rewrite <- (take_drop e (ids w)), scan_ids_app. destruct (scan_ids _ _ _ _ _ _ _) as [o x|o x]; [by destruct Hs as [-> ->]|].
    destruct Hs as (-> & -> & Hle). by rewrite drop_ge. }
  unfold ids_under in E. rewrite <- scan_scan_ids, scan_visible in E by (cbn; lia). rewrite <- E.
  unfold page_of. rewrite bool_decide_false by lia. cbn [length app]. by rewrite Z.sub_0_r.
Qed.

(** One listing call that succeeds, and where it leaves the page. *)
Definition after_listing (fuel : nat) (w : nat → Mem.state) (now0 : Z) (cursor : string) (n : Z) (e : nat)
    (out : list Tail.TailMessage) (next : string) : paging :=
  let l := listing queueMsgPrefix w b in
  match Tail.scan t now0 cursor n (take 1000 (drop e l)) out next with
  | Tail.ScanReturn out next => Ret (Some (Ok (out, next)))
  | Tail.ScanMore out next =>
    if bool_decide (Z.of_nat e + 1000 < Z.of_nat (length l))
    then Tail.page_loop fuel t now0 cursor n (Itoa (Z.of_nat e + 1000)) out next else Ret (Some (Ok (out, next)))
  end.

Lemma call_listing fuel w now0 cursor n token e out next c :
  e_cx c = None → Mem.decodePageToken token = Ok (Z.of_nat e) → strlen token ≠ 0 →
  Z.of_nat (length (listing queueMsgPrefix w b)) + 1000 ≤ int64_max →
  call_step c (Tail.page_loop (S fuel) t now0 cursor n token out next) w =
  Some (after_listing fuel w now0 cursor n e out next, w).
Proof.
  intros Hc Ht Hne Hlen.
  cbn [Tail.page_loop trigger mbind prog_mbind prog_bind call_step]. unfold exec. fold b. fold (all_under queueMsgPrefix).
  rewrite Hc, (page_at (memBucket b) (w (h_store b)) token (Z.of_nat e) Tail.tailListPageSize (all_under queueMsgPrefix))
    by (exact Hlen || done || lia).
  fold (listing queueMsgPrefix w b). rewrite Nat2Z.id. change (Z.to_nat Tail.tailListPageSize) with 1000%nat.
  unfold after_listing. destruct (Tail.scan _ _ _ _ _ _ _) as [o x|o x]; [done|]. unfold Tail.tailListPageSize.
  destruct (bool_decide_reflect (Z.of_nat e + 1000 < Z.of_nat (length (listing queueMsgPrefix w b)))).
  - by rewrite bool_decide_false by (apply Itoa_nonempty; lia).
  - by rewrite bool_decide_true by done.
Qed.

(** The answer to one listing call. *)
Lemma page_inv_listed fuel w now0 now cursor shown n token e out next (c : env) p' w' :
  kept t w now cursor shown → now0 ≤ now → 0 < n → Mem.decodePageToken token = Ok (Z.of_nat e) → strlen token ≠ 0 →
  scanned_to w now0 cursor n e out next → Z.of_nat (length (listing queueMsgPrefix w b)) + 1000 ≤ int64_max →
  call_step c (Tail.page_loop (S fuel) t now0 cursor n token out next) w = Some (p', w') →
  w' = w ∧ page_inv w now cursor shown p'.
Proof.
  intros Hk Hnow Hn Ht Hne [He Hs] Hlen. destruct (e_cx c) as [err|] eqn:Hc.
  { cbn [Tail.page_loop trigger mbind prog_mbind prog_bind call_step]. unfold exec, Mem.ListPage. rewrite Hc.
    intros [= <- <-]. split; [done|]. by apply page_failed. }
  rewrite (call_listing fuel w now0 cursor n token e out next c Hc Ht Hne Hlen). unfold after_listing. cbn zeta.
  rewrite scan_scan_ids. destruct (listing_chunk w e 1000 (kp_stamped _ _ _ _ _ Hk)) as [-> Elen]. rewrite Elen in Hlen |- *.
  assert (take (e + 1000) (ids w) = take e (ids w) ++ take 1000 (drop e (ids w))) as Etake.
  { rewrite <- (take_drop e (take (e + 1000) (ids w))). rewrite take_take, Nat.min_l by lia. f_equal.
    rewrite skipn_firstn_comm. f_equal. lia. }
  pose proof (scan_ids_app t now0 cursor n (take e (ids w)) (take 1000 (drop e (ids w))) [] cursor) as Eapp.
  rewrite <- Etake, Hs in Eapp.
  pose proof (λ o x, scanned_page w now0 cursor n (e + 1000) o x Hn) as Hpage. rewrite Eapp in Hpage. intros E.
  destruct (scan_ids t now0 cursor n (take 1000 (drop e (ids w))) out next) as [o x|o x] eqn:Esc.
  { injection E as <- <-. split; [done|]. apply page_returned. by eapply kept_page; [..|apply Hpage]. }
  destruct (bool_decide_reflect (Z.of_nat e + 1000 < Z.of_nat (length (ids w)))) as [Hmore|Hmore].
  - injection E as <- <-. split; [done|].
    eapply page_listing; [done|done| |apply Itoa_nonempty; lia|].
    + rewrite decode_Itoa by lia. f_equal. instantiate (1 := (e + 1000)%nat). lia.
    + split; [lia|by rewrite Eapp].
  - injection E as <- <-. split; [done|]. apply page_returned.
    eapply kept_page; [done|done|]. apply Hpage. split_and!; [done|done|lia].
Qed.

Lemma page_inv_call w now cursor shown (c : env) p p' w' :
  kept t w now cursor shown → page_inv w now cursor shown p → e_clock c = now →
  Z.of_nat (length (listing queueMsgPrefix w b)) + 1000 ≤ int64_max →
  call_step c p w = Some (p', w') → w' = w ∧ page_inv w now cursor shown p'.
Proof.
  intros Hk Hp Hc Hlen E. destruct Hp as [fuel ps|[|fuel] now0 n token e out next Hnow Hn Ht Hne Hs| |]; try done.
  - injection E as <- <-. split; [done|]. rewrite Hc.
    eapply (page_listing _ _ _ _ _ now _ FirstPageToken 0); [done| |done|done|split; [lia|done]].
    unfold DefaultHeadWindow. case_bool_decide; lia.
  - by eapply page_inv_listed.
Qed.

Lemma tail_inv_step s s' : tail_inv s → tail_step t (λ p, ¬ listing_underway p) s s' → tail_inv s'.
Proof.
  intros [Hk Hp] Hstep. destruct Hstep as [fuel ps w now c sh|e p p' w w' now c sh He Hl Hc|out next w now c sh|w now c sh p
    |ts u w w' now c sh p Hr Hlag Hadd Hin|w w' now c sh p Hsub Hcase|w now now' c sh p Hle]; cbn in Hk, Hp.
  - split; [done|]. intros p [= <-]. apply page_asked.
  - destruct (page_inv_call w now c sh e p p' w' Hk (Hp p eq_refl) He Hl Hc) as [-> Hp']. split; [done|]. by intros ? [= <-].
  - split; [|done]. specialize (Hp _ eq_refl). cbn. inversion Hp as [|fuel ? ? ? ? ? ? ? ? ? ? ? E|? ? Hk'|? Hr]; [|done|by destruct (Hr (out, next))].
    by destruct fuel.
  - by split.
  - assert (stamped (newQueueID ts u)) as Hst by (by exists ts, u).
    assert (∀ c s, kept t w now c s → kept t w' now c s) as Hkeep by (intros; by eapply kept_commit).
    split; [by apply Hkeep|]. intros p' Ep. eapply page_inv_grows; [done|by apply Hp|done|done|].
    intros id [?| ->]%Hadd; [by left|by right].
  - split; [by eapply kept_fewer|]. intros p' Ep. cbn in Ep. subst p. destruct Hcase as [Hin|Hnot].
    + eapply page_inv_grows; [done|by apply Hp|done|intros; by eapply kept_fewer|]. intros id Hid. left. by apply Hsub.
    + eapply page_inv_removed; [by apply Hp|done..].
  - split; [by eapply kept_later|]. intros p' Ep. eapply page_inv_later; [done|by apply Hp].
Qed.

(** C22: a tail's cursor leaves nothing behind.  Start a follower at the empty
    cursor of a queue of the in-memory driver whose messages were made by [Enqueue],
    and let it page at any times and sizes, one call of the bucket at a time, any
    of which may fail, while producers commit payloads less than the lag after the
    stamps of their ids, time passes, and consumers and retention remove messages,
    but not between two calls of the listing of one page: every message that is
    there and not after the cursor has been shown, and none is shown twice, or out
    of order.  (A removal between two such calls can make the follower skip a
    message: [tail_skips].) *)
Theorem tail_no_gap s s' :
  tl_cursor s = "" → tl_shown s = [] → tl_page s = None → (∀ id, message (tl_world s) id → stamped id) →
  rtc (tail_step t (λ p, ¬ listing_underway p)) s s' →
  (∀ id, message (tl_world s') id → String.le id (tl_cursor s') → id ∈ tl_shown s') ∧
  StronglySorted str_lt (tl_shown s').
Proof.
  intros Hc Hsh Hpg Hst Hrun. assert (tail_inv s') as [[_ H2 H3 _ _] _]; [|split; [by auto|done]].
  refine (rtc_ind_r tail_inv s _ (λ s1 s2 _ Hstep Hi, tail_inv_step s1 s2 Hi Hstep) s' Hrun).
  split; [|by rewrite Hpg]. split; rewrite ?Hc, ?Hsh; [done|..|constructor| |by left].
  - intros id Hid Hle. exfalso. apply (stamped_nonempty id); [by apply Hst|]. by destruct id.
  - by intros id ?%elem_of_nil.
Qed.
End invariant.
