(* ===== verification/WatcherRun.v ===== *)
(** * A watcher at work

    The loop of a watcher that holds its lock, run on in-memory drivers: each
    round copies a page of the source into the local queue and moves the cursor,
    and after enough rounds the local queue has every message of the source. *)
From S2P Require Import Prelude Strconv GoTime Md5 Core Effects Store MemDriver MemTheorems MemStore Locker MemRun Queue QueueTheorems QueueListing Watcher WatcherTheorems TailTheorems.

Import Queue.

Section watch.
Context `{GT : GoTables} (w : Watcher.Watcher).
Let t := Watcher.w_source w.
Let sb := q_bucket (Tail.t_queue t).
Let lb := q_bucket (Watcher.w_local w).
Let cb := Watcher.w_bucket w.
Let ck := Watcher.cursorPath w.

(** The source is another bucket than the local queue's and the cursor's, and the
    cursor is no message of the local queue. *)
Context (Hsl : h_store sb ≠ h_store lb) (Hsc : h_store sb ≠ h_store cb).
Context (Hlc : ∀ id, h_store lb = h_store cb → h_key lb (queueMsgPrefix +:+ id) ≠ h_key cb ck).

#[local] Abbreviation source st id := (obj st sb (queueMsgPrefix +:+ id)).
#[local] Abbreviation local_ st id := (obj st lb (queueMsgPrefix +:+ id)).

(** A message of the source that can be replicated. *)
Definition replicable (id : string) (pl : Mem.object) : Prop :=
  stamped id ∧ validateQueueMessageID id = None ∧ lower_names (a_Metadata (Mem.attrs pl)).

(** Where both queues have a message, the payloads and the attributes agree. *)
Definition faithful (st : nat → Mem.state) : Prop :=
  ∀ id pl o, source st id = Some pl → local_ st id = Some o →
    Mem.data o = Mem.data pl ∧ a_Metadata (Mem.attrs o) = a_Metadata (Mem.attrs pl).

(** What a write to the local queue or to the cursor leaves as it is. *)
Lemma source_wrote b key o st id : h_store sb ≠ h_store b → source (wrote b key o st) id = source st id.
Proof. intros Hne. unfold obj, wrote, upd. by rewrite decide_False. Qed.

Lemma source_listing b key o st : h_store sb ≠ h_store b → wrote b key o st (h_store sb) = st (h_store sb).
Proof. intros Hne. unfold wrote, upd. by rewrite decide_False. Qed.

Lemma obj_wrote_any b key o st b' key' :
  obj (wrote b key o st) b' key' = if decide (h_store b' = h_store b ∧ h_key b' key' = h_key b key) then Some o else obj st b' key'.
Proof.
  unfold obj, wrote, upd. destruct (decide (h_store b' = h_store b)) as [Es|Es]; [|by rewrite decide_False by (by intros [])].
  cbn. rewrite Es. destruct (decide (h_key b' key' = h_key b key)) as [Ek|Ek].
  - rewrite decide_True by done. rewrite Ek. apply lookup_insert_eq.
  - rewrite decide_False by (by intros []). by rewrite lookup_insert_ne.
Qed.

(** What replication keeps: the source, the cursor, the messages the local queue
    has, and the agreement of the two queues. *)
Record kept (st st' : nat → Mem.state) : Prop := {
  kept_source : st' (h_store sb) = st (h_store sb);
  kept_cursor : obj st' cb ck = obj st cb ck;
  kept_local id : is_Some (local_ st id) → is_Some (local_ st' id);
  kept_faithful : faithful st → faithful st';
}.

#[export] Instance kept_preorder : PreOrder kept.
Proof.
  split; [by split|]. intros st1 st2 st3 [H1 H2 H3 H4] [H1' H2' H3' H4']. split; [congruence..| |]; auto.
Qed.

Lemma kept_eq st st' : (∀ n, st' n = st n) → kept st st'.
Proof.
  intros E. assert (∀ b key, obj st' b key = obj st b key) as Eo by (intros; unfold obj; by rewrite E).
  split; [by rewrite E|by rewrite Eo|intros id; by rewrite Eo|]. intros Hf id pl o. rewrite !Eo. apply Hf.
Qed.

Lemma run_replicate id envs st :
  (∀ i, calm (envs i)) → (∀ pl, source st id = Some pl → replicable id pl) → validateQueueMessageID id = None →
  ∃ st', run exec (Watcher.replicate w (Tail.mkTailMessage (Tail.t_queue t) id)) envs st = (Some None, st') ∧
    kept st st' ∧ (is_Some (source st id) → is_Some (local_ st' id)).
Proof.
  intros He Hr Hv.
  destruct (watcher_replicate_spec w (Tail.mkTailMessage (Tail.t_queue t) id) envs st He Hv) as (st' & Hx & Hst).
  { cbn. intros pl Hpl. by apply (Hr pl). }
  exists st'. split; [exact Hx|]. cbn in Hst. fold t sb lb in Hst.
  destruct (source st id) as [pl|] eqn:Hs; [|split; [by apply kept_eq|by intros []]].
  destruct (local_ st id) as [ex|] eqn:Hl.
  { split; [by apply kept_eq|]. intros _. unfold obj. rewrite Hst. by exists ex. }
  destruct Hst as (o & Ho & ->). split; [|intros _; rewrite obj_wrote, decide_True by done; by eexists].
  split.
  - by apply source_listing.
  - rewrite obj_wrote_any, decide_False; [done|]. intros [Es Ek]. by eapply Hlc.
  - intros id' Hid'. rewrite obj_wrote. case_decide; [by eexists|done].
  - intros Hf id' pl' o'. rewrite source_wrote, obj_wrote by done. case_decide as Ek.
    + apply string_app_inj_l in Ek as ->. rewrite Hs. intros [= <-] [= <-]. destruct Ho as [Ho _ _]. by injection Ho.
    + apply Hf.
Qed.

Lemma source_kept st st' id : kept st st' → source st' id = source st id.
Proof. intros [E _ _ _]. unfold obj. by rewrite E. Qed.

Lemma run_replicate_all ids envs st :
  (∀ i, calm (envs i)) → (∀ id, id ∈ ids → validateQueueMessageID id = None ∧ ∀ pl, source st id = Some pl → replicable id pl) →
  ∃ st', run exec (Watcher.replicate_all w (Tail.mkTailMessage (Tail.t_queue t) <$> ids)) envs st = (Some None, st') ∧
    kept st st' ∧ ∀ id, id ∈ ids → is_Some (source st id) → is_Some (local_ st' id).
Proof.
  revert envs st. induction ids as [|id ids IH]; intros envs st He Hr; cbn [fmap list_fmap Watcher.replicate_all].
  { exists st. split; [done|]. split; [done|]. by intros ? ?%elem_of_nil. }
  destruct (Hr id ltac:(by left)) as [Hv Hp]. destruct (run_replicate id envs st He Hp Hv) as (st1 & Hx & Hk & Hl).
  match goal with |- context [run exec (?p ≫= ?k) _ _] => destruct (run_bind exec p k envs st) as [m ->] end. rewrite Hx.
  destruct (IH (λ i, envs (m + i)%nat) st1 (λ i, He _)) as (st2 & Hx2 & Hk2 & Hl2).
  { intros id' Hid'. rewrite (source_kept st st1) by done. apply Hr. by right. }
  exists st2. split; [exact Hx2|]. split; [by etrans|]. intros id' [-> |Hid']%elem_of_cons Hs.
  - by apply (kept_local _ _ Hk2), Hl.
  - apply Hl2; [done|]. by rewrite (source_kept st st1).
Qed.

(** The cursor as it is stored, with its version. *)
Definition cursor_at (st : nat → Mem.state) (cursor version : string) : Prop :=
  match obj st cb ck with
  | None => cursor = "" ∧ version = ""
  | Some o => Mem.data o = cursor ∧ a_Version (Mem.attrs o) = version ∧ version ≠ ""
  end.

Lemma run_writeCursor next cursor version envs st :
  (∀ i, calm (envs i)) → cursor_at st cursor version →
  ∃ o v, run exec (Watcher.writeCursor w next version) envs st = (Some (Ok v), wrote cb ck o st) ∧
    cursor_at (wrote cb ck o st) next v.
Proof.
  intros He Hc. unfold Watcher.writeCursor. set (pre := if negb (bool_decide (version = "")) then _ else _).
  assert (∃ c, CompilePreconditions [Some pre] = Ok c ∧ holds c (version_at (abs (st (h_store cb))) (h_key cb ck)) = true) as (c & Hpre & Hh).
  { unfold pre, cursor_at in *. rewrite version_at_obj. destruct (obj st cb ck) as [o|].
    - destruct Hc as (_ & <- & Hne). rewrite bool_decide_false by done. eexists. split; [apply compile_IfMatch|]. by apply holds_IfMatch.
    - destruct Hc as [_ ->]. eexists. split; [apply compile_IfNotExists|]. by apply holds_IfNotExists. }
  destruct (calm_WriteAll (envs 0%nat) cb ck next (Locker.record_options None) [Some pre] c None st (He 0%nat) eq_refl eq_refl eq_refl eq_refl Hpre)
    as (o & Ho & Hx).
  exists o, (a_Version (Mem.attrs o)). assert (cursor_at (wrote cb ck o st) next (a_Version (Mem.attrs o))) as Hc'.
  { unfold cursor_at. rewrite obj_wrote, decide_True by done. destruct Ho as [Ha _ _]. injection Ha as Hd _ Hv.
    split_and!; [done..|]. rewrite Hv. apply FormatUint_nonempty. unfold wrapu64. by apply Z.mod_pos_bound. }
  split; [|done]. cbn -[Locker.record_options CompilePreconditions]. fold cb ck. rewrite Hx, Hh.
  cbn -[Locker.record_options]. fold (wrote cb ck o st). rewrite calm_Attributes by done.
  change (Mem.objects (wrote cb ck o st (h_store cb)) !! h_key cb ck) with (obj (wrote cb ck o st) cb ck).
  by rewrite obj_wrote, decide_True.
Qed.

(** The holder keeps its lock and its context, calls do not fail, and every
    message of the source is old enough for the lag. *)
Definition holding (st : nat → Mem.state) (envs : nat → env) : Prop :=
  ∀ i, calm (envs i) ∧ e_wait (envs i) = None ∧ e_lost (envs i) = false ∧
    ∀ id, is_Some (source st id) → in_lag t (e_clock (envs i)) id = false.

(** Between two rounds: the messages up to the cursor are in the local queue, and
    the cursor is stored. *)
Record following (st : nat → Mem.state) (cursor version : string) : Prop := {
  fo_source id pl : source st id = Some pl → replicable id pl;
  fo_local id : is_Some (source st id) → String.le id cursor → is_Some (local_ st id);
  fo_faithful : faithful st;
  fo_cursor : cursor_at st cursor version;
}.

(** The messages after the cursor. *)
Definition ahead (st : nat → Mem.state) (cursor : string) : list string :=
  filter (λ id, String.leb id cursor = false) (ids_under queueMsgPrefix st sb).

Lemma page_ahead st now cursor :
  (∀ id, is_Some (source st id) → in_lag t now id = false) →
  page_of t now cursor Watcher.watchPageSize (ids_under queueMsgPrefix st sb) =
  (Tail.mkTailMessage (Tail.t_queue t) <$> take 256 (ahead st cursor), default cursor (last (take 256 (ahead st cursor)))).
Proof.
  intros Hl. unfold page_of, visible. fold (ahead st cursor).
  replace (before (in_lag t now) (ahead st cursor)) with (ahead st cursor); [done|].
  rewrite <- (app_nil_r (ahead st cursor)) at 2. rewrite before_app; [by rewrite app_nil_r|].
  intros id [_ [_ Hid]%elem_of_ids]%list_elem_of_filter. by apply Hl.
Qed.

(** A round moves the cursor over up to a page of messages and stores it. *)
Lemma ahead_next st cursor :
  let page := take 256 (ahead st cursor) in
  ahead st (default cursor (last page)) = drop 256 (ahead st cursor) ∧
  ∀ id, id ∈ ids_under queueMsgPrefix st sb → String.le id (default cursor (last page)) → String.le id cursor ∨ id ∈ page.
Proof.
  intros page. pose proof (ids_sorted queueMsgPrefix st sb) as Hs.
  pose proof (StronglySorted_filter str_lt (λ id, String.leb id cursor = false) _ Hs) as Hs'. fold (ahead st cursor) in Hs'.
  assert (∀ id, id ∈ ids_under queueMsgPrefix st sb → String.le id cursor ∨ id ∈ ahead st cursor) as Hin.
  { intros id Hid. destruct (String.leb id cursor) eqn:E; [left; by apply string_leb_le|right]. by apply list_elem_of_filter. }
  assert (ahead st cursor = page ++ drop 256 (ahead st cursor)) as Eh by (unfold page; by rewrite take_drop).
  destruct (last page) as [x|] eqn:El; cbn [default].
  2: { apply last_None in El. rewrite El in Eh. cbn in Eh. split; [exact Eh|]. intros id Hid Hle. by left. }
  assert (x ∈ page) as Hxp by (by apply last_Some_elem_of). rewrite Eh in Hs'.
  apply StronglySorted_app in Hs' as (Hlt & Hsp & Hsd).
  assert (str_lt cursor x) as Hcx.
  { apply string_leb_gt. assert (x ∈ ahead st cursor) as [? _]%list_elem_of_filter; [|done]. rewrite Eh. apply elem_of_app. by left. }
  split.
  - unfold ahead at 1. rewrite <- (list_filter_filter_l _ (λ id, String.leb id cursor = false)).
    + fold (ahead st cursor). rewrite Eh at 1. rewrite filter_app, filter_none, filter_all; [done|..].
      * intros y Hy. apply string_leb_gt. by apply Hlt.
      * intros y Hy. apply last_Some in El as [l El]. rewrite El in Hy, Hsp.
        apply elem_of_app in Hy as [Hy|Hy%list_elem_of_singleton].
        -- apply not_false_iff_true, string_leb_le. apply (StronglySorted_app_1_elem_of _ _ _ _ x Hsp Hy). by left.
        -- rewrite Hy. by apply not_false_iff_true, string_leb_le.
    + intros y Hy%string_leb_gt. apply string_leb_gt. by trans x.
  - intros id Hid Hle. destruct (Hin id Hid) as [|Ha]; [by left|right]. rewrite Eh in Ha.
    apply elem_of_app in Ha as [|Hd]; [done|]. destruct (Hlt x id Hxp Hd) as [? []]. by apply (anti_symm String.le).
Qed.

Lemma following_kept st st' cursor version :
  kept st st' → following st cursor version → following st' cursor version.
Proof.
  intros Hk [H1 H2 H3 H4]. split.
  - intros id pl. rewrite (source_kept st st') by done. apply H1.
  - intros id. rewrite (source_kept st st') by done. intros Hs Hle. by apply (kept_local _ _ Hk), H2.
  - by apply (kept_faithful _ _ Hk).
  - unfold cursor_at. by rewrite (kept_cursor _ _ Hk).
Qed.

(** After the page is copied the cursor may move over it. *)
Lemma following_next st st' cursor version o v :
  let next := default cursor (last (take 256 (ahead st cursor))) in
  kept st st' → following st cursor version →
  (∀ id, id ∈ take 256 (ahead st cursor) → is_Some (source st id) → is_Some (local_ st' id)) →
  cursor_at (wrote cb ck o st') next v → following (wrote cb ck o st') next v.
Proof.
  intros next Hk Hf Hp Hc. pose proof (following_kept _ _ _ _ Hk Hf) as [H1 H2 H3 _].
  assert (∀ id, local_ (wrote cb ck o st') id = local_ st' id) as El.
  { intros id. rewrite obj_wrote_any, decide_False; [done|]. intros [Es Ek]. by eapply Hlc. }
  split; [..|done].
  - intros id pl. rewrite source_wrote by done. apply H1.
  - intros id. rewrite source_wrote, El by done. intros Hs Hle. rewrite (source_kept st st') in Hs by done.
    destruct (proj2 (ahead_next st cursor) id) as [Hlc'|Hin]; [|exact Hle| |by apply Hp].
    + apply elem_of_ids. split; [|done]. destruct Hs as [pl Hs]. apply stamped_nonempty. by apply (fo_source _ _ _ Hf id pl).
    + apply H2; [|done]. by rewrite (source_kept st st').
  - intros id pl o'. rewrite source_wrote, El by done. apply H3.
Qed.

Lemma holding_shift st envs m : holding st envs → holding st (λ i, envs (m + i)%nat).
Proof. intros Hh i. apply Hh. Qed.

Lemma run_select {R} o (k : selected → prog R) envs st st0 :
  holding st0 envs → run exec (trigger (OSelect o) ≫= k) envs st = run exec (k SelGo) (λ i, envs (1 + i)%nat) st.
Proof. intros Hh. destruct (Hh 0%nat) as (_ & E1 & E2 & _). cbn [trigger mbind prog_mbind prog_bind run]. unfold exec at 1. by rewrite E1, E2. Qed.

Lemma run_jitter {R} d (k : Z → prog R) envs st st0 :
  holding st0 envs → ∃ d' envs', holding st0 envs' ∧ run exec (queueJitter d ≫= k) envs st = run exec (k d') envs' st.
Proof.
  intros Hh. unfold queueJitter. case_bool_decide; [by exists 0, envs|]. eexists _, (λ i, envs (1 + i)%nat).
  split; [by apply holding_shift|]. reflexivity.
Qed.

(** One round of the loop. *)
Lemma watcher_round fuel cursor version backoff envs st :
  holding st envs → following st cursor version → (length (listing queueMsgPrefix st sb) < fuel)%nat →
  Z.of_nat (length (listing queueMsgPrefix st sb)) + 1000 ≤ int64_max →
  ∃ envs' cursor' version' backoff' st', holding st envs' ∧
    run exec (Watcher.holder_loop (S fuel) w cursor version backoff) envs st =
    run exec (Watcher.holder_loop fuel w cursor' version' backoff') envs' st' ∧
    following st' cursor' version' ∧ st' (h_store sb) = st (h_store sb) ∧ ahead st cursor' = drop 256 (ahead st cursor).
Proof.
  intros Hh Hf Hfuel Hlen. cbn [Watcher.holder_loop]. rewrite (run_select _ _ _ _ st) by done.
  apply (holding_shift _ _ 1) in Hh. set (envs1 := λ i, envs (1 + i)%nat) in *. clearbody envs1.
  match goal with |- context [run exec (?p ≫= ?k) _ _] => destruct (run_bind exec p k envs1 st) as [m1 ->] end.
  rewrite (run_Page fuel (Watcher.w_source w)) by (done || apply Hh). fold t sb.
  rewrite page_ahead by apply Hh. set (page := take 256 (ahead st cursor)). set (next := default cursor (last page)).
  apply (holding_shift _ _ m1) in Hh. set (envs2 := λ i, envs1 (m1 + i)%nat) in *. clearbody envs2.
  destruct (run_replicate_all page envs2 st) as (st1 & Hx & Hk & Hl); [apply Hh|..].
  { intros id Hid. assert (∃ pl, source st id = Some pl) as [pl Hpl].
    { apply elem_of_take in Hid as (i & Hi & _). apply list_elem_of_lookup_2, list_elem_of_filter in Hi as [_ Hi]. by apply elem_of_ids in Hi as [_ ?]. }
    split; [apply (fo_source _ _ _ Hf id pl Hpl)|]. intros pl'. apply (fo_source _ _ _ Hf). }
  match goal with |- context [run exec (?p ≫= ?k) _ _] => destruct (run_bind exec p k envs2 st) as [m2 ->] end. rewrite Hx.
  apply (holding_shift _ _ m2) in Hh. set (envs3 := λ i, envs2 (m2 + i)%nat) in *. clearbody envs3.
  destruct (ahead_next st cursor) as [Ha _]. fold page next in Ha. case_bool_decide as Hnext.
  - destruct (run_jitter backoff (λ d, trigger (OSelect (Some d)) ≫= λ s, match s with
      | SelCtx err => mret (Some (Some err)) | SelDone => mret (Some None)
      | SelGo => Watcher.holder_loop fuel w cursor version
          (if bool_decide (backoff < Watcher.w_maxPoll w) then wrap64 (backoff * 2) `min` Watcher.w_maxPoll w else backoff) end) envs3 st1 st Hh)
      as (d & envs4 & Hh4 & ->). rewrite (run_select _ _ _ _ st) by done.
    exists (λ i, envs4 (1 + i)%nat), cursor, version. eexists _, st1. split; [by apply holding_shift|]. split; [done|]. split; [by eapply following_kept|].
    split; [by apply kept_source|]. by rewrite <- Ha, Hnext.
  - destruct (run_writeCursor next cursor version envs3 st1) as (o & v & Hw & Hc); [apply Hh|by apply (following_kept _ _ _ _ Hk Hf)|].
    match goal with |- context [run exec (?p ≫= ?k) _ _] => destruct (run_bind exec p k envs3 st1) as [m3 ->] end. rewrite Hw.
    exists (λ i, envs3 (m3 + i)%nat), next, v. eexists _, _. split; [by apply holding_shift|]. split; [done|]. split; [by eapply following_next|].
    split; [|exact Ha]. rewrite source_listing by done. by apply kept_source.
Qed.

Lemma same_source st st' : st' (h_store sb) = st (h_store sb) →
  (∀ id, source st' id = source st id) ∧ listing queueMsgPrefix st' sb = listing queueMsgPrefix st sb ∧
  ∀ cursor, ahead st' cursor = ahead st cursor.
Proof. intros E. unfold ahead, ids_under, listing, obj. by rewrite E. Qed.

(** C24: a watcher catches up.  A holder that keeps its lock, on drivers that do not
    fail, over a source that does not change and whose messages are old enough for
    the lag: after as many rounds as there are pages of messages after its cursor,
    the local queue has every message of the source, with the same payload and
    attributes, and the cursor is stored after the last of them. *)
Theorem watcher_catches_up n fuel cursor version backoff envs st :
  holding st envs → following st cursor version → (length (listing queueMsgPrefix st sb) < fuel)%nat →
  Z.of_nat (length (listing queueMsgPrefix st sb)) + 1000 ≤ int64_max → (length (ahead st cursor) ≤ n * 256)%nat →
  ∃ envs' cursor' version' backoff' st',
    run exec (Watcher.holder_loop (n + fuel) w cursor version backoff) envs st =
    run exec (Watcher.holder_loop fuel w cursor' version' backoff') envs' st' ∧
    (∀ id, source st' id = source st id) ∧ cursor_at st' cursor' version' ∧
    ∀ id pl, source st id = Some pl → String.le id cursor' ∧
      ∃ o, local_ st' id = Some o ∧ Mem.data o = Mem.data pl ∧ a_Metadata (Mem.attrs o) = a_Metadata (Mem.attrs pl).
Proof.
  revert envs st cursor version backoff. induction n as [|n IH]; intros envs st cursor version backoff Hh Hf Hfuel Hlen Hn.
  - exists envs, cursor, version, backoff, st. split; [done|]. split; [done|]. split; [by apply (fo_cursor _ _ _ Hf)|].
    intros id pl Hpl. assert (String.le id cursor) as Hle.
    { destruct (String.leb id cursor) eqn:E; [by apply string_leb_le|]. exfalso.
      assert (id ∈ ahead st cursor) as Hin; [|apply Nat.le_0_r, nil_length_inv in Hn; rewrite Hn in Hin; by apply elem_of_nil in Hin].
      { apply list_elem_of_filter. split; [done|]. apply elem_of_ids. split; [|by exists pl].
        apply stamped_nonempty. by apply (fo_source _ _ _ Hf id pl). } }
    split; [done|]. destruct (fo_local _ _ _ Hf id) as [o Ho]; [by exists pl|done|].
    exists o. split; [done|]. by apply (fo_faithful _ _ _ Hf id).
  - destruct (watcher_round (n + fuel) cursor version backoff envs st) as (envs1 & c1 & v1 & b1 & st1 & Hh1 & Hx & Hf1 & Es & Ea); [done..|lia|done|].
    destruct (same_source st st1 Es) as (Eo & El & Eah).
    destruct (IH envs1 st1 c1 v1 b1) as (envs2 & c2 & v2 & b2 & st2 & Hx2 & Hs2 & Hc2 & Hall).
    + intros i. destruct (Hh1 i) as (? & ? & ? & Hlag). split_and!; [done..|]. intros id. rewrite Eo. apply Hlag.
    + done.
    + by rewrite El.
    + by rewrite El.
    + rewrite Eah, Ea, length_drop. lia.
    + exists envs2, c2, v2, b2, st2. cbn [Nat.add]. rewrite Hx. split; [exact Hx2|]. split; [intros id; by rewrite Hs2|].
      split; [done|]. intros id pl. rewrite <- Eo. apply Hall.
Qed.

End watch.
