(* ===== verification/CrossCopy.v ===== *)
(** * The handle of a cross-region copy (crosscopy.go)

    [StartCopyOperation] returns a handle at once and runs the copy in a
    goroutine, which stores the outcome under the handle's mutex and closes the
    channel last.  The caller reads [Done] and [Err] at any moment. *)
From stdpp Require Import relations.
From S2P Require Import Prelude.

Module CrossCopy.

(** Whether the channel is closed, and the error field. *)
Record CopyOperation := mkCopyOperation {
  done : bool;
  err : option error;
}.

(** Where the goroutine is: in [fn], holding its result, past the assignment,
    or gone. *)
Inductive goroutine :=
| InFn
| Returned (err : option error)
| Assigned
| Exited.

Definition StartCopyOperation : CopyOperation * goroutine := (mkCopyOperation false None, InFn).

Inductive step : CopyOperation * goroutine → CopyOperation * goroutine → Prop :=
| step_fn op e : step (op, InFn) (op, Returned e)
| step_assign op e : step (op, Returned e) (mkCopyOperation (done op) e, Assigned)
| step_close op : step (op, Assigned) (mkCopyOperation true (err op), Exited).

Definition Done (s : CopyOperation * goroutine) : bool := done s.1.
Definition Err_ (s : CopyOperation * goroutine) : option error := err s.1.

(** Runs in which [fn] returns [e]. *)
Inductive reaches (e : option error) : CopyOperation * goroutine → Prop :=
| reaches_start : reaches e StartCopyOperation
| reaches_fn op : reaches e (op, InFn) → reaches e (op, Returned e)
| reaches_assign op : reaches e (op, Returned e) → reaches e (mkCopyOperation (done op) e, Assigned)
| reaches_close op : reaches e (op, Assigned) → reaches e (mkCopyOperation true (err op), Exited).

(** What the handle shows at each point of the goroutine. *)
Definition shows (e : option error) (s : CopyOperation * goroutine) : Prop :=
  match s.2 with
  | InFn => Done s = false ∧ Err_ s = None
  | Returned e' => e' = e ∧ Done s = false ∧ Err_ s = None
  | Assigned => Done s = false ∧ Err_ s = e
  | Exited => Done s = true ∧ Err_ s = e
  end.

Lemma reaches_shows e s : reaches e s → shows e s.
Proof. unfold shows, Done, Err_. induction 1; naive_solver. Qed.

Lemma reaches_step e s s' :
  reaches e s → step s s' → (∀ e', s'.2 = Returned e' → e' = e) → reaches e s'.
Proof.
  intros Hr Hs He. destruct Hs as [op e'|op e'|op].
  - rewrite (He e' eq_refl). by constructor.
  - apply reaches_shows in Hr as Hsh. destruct Hsh as [-> _]. by constructor.
  - by constructor.
Qed.

Lemma rtc_reaches e s s' : reaches e s → rtc step s s' →
  ∃ e', reaches e' s' ∧ (s.2 ≠ InFn → e' = e).
Proof.
  intros Hr Hs. revert e Hr. induction Hs as [s|s1 s2 s3 Hst Hs IH]; intros e Hr; [by exists e|].
  assert (∃ e2, reaches e2 s2 ∧ (s1.2 ≠ InFn → e2 = e) ∧ s2.2 ≠ InFn) as (e2 & Hr2 & He2 & Hin).
  { destruct Hst as [op e'|op e'|op].
    - exists e'. split; [|done]. assert (op = mkCopyOperation false None) as ->.
      { inversion Hr; subst; done. }
      apply reaches_fn. exact (reaches_start e').
    - exists e. split; [|done]. eapply reaches_step; [exact Hr|constructor|done].
    - exists e. split; [|done]. eapply reaches_step; [exact Hr|constructor|done]. }
  destruct (IH e2 Hr2) as (e3 & Hr3 & He3). exists e3. split; [done|]. intros Hne. rewrite He3, He2; done.
Qed.

(** The handle's outcome is final.  While the channel is open [Err] is nil
    or already the outcome; once it is closed [Err] is what the copy returned,
    the goroutine is gone, and no later read differs. *)
Theorem copy_outcome_final s s' :
  rtc step StartCopyOperation s → rtc step s s' →
  (Done s = false → Err_ s = None ∨ Err_ s = Err_ s') ∧
  (Done s = true → s' = s ∧ s.2 = Exited).
Proof.
  intros H1 H2. destruct (rtc_reaches None _ _ (reaches_start None) H1) as (e & Hr & _).
  destruct (rtc_reaches e s s' Hr H2) as (e' & Hr' & He).
  apply reaches_shows in Hr as Hsh. apply reaches_shows in Hr' as Hsh'. split.
  - intros Hd. destruct s as [op pc]. unfold shows, Done, Err_ in *. cbn in *.
    destruct pc as [|e0| |]; [left; apply Hsh|left; apply Hsh| |destruct Hsh; congruence].
    right. rewrite He in Hsh' by done. destruct Hsh as [_ Hs].
    assert (s'.2 = Assigned ∨ s'.2 = Exited) as Hpc.
    { clear -H2. remember (op, Assigned) as s0 eqn:E. revert op E. induction H2 as [|s1 s2 s3 Hst H2 IH]; intros op ->; [by left|].
      inversion Hst; subst. right. inversion H2 as [|? ? ? Hbad]; subst; [done|]. inversion Hbad. }
    destruct s' as [op' pc']. cbn in *. destruct Hpc as [-> | ->]; destruct Hsh'; congruence.
  - intros Hd. destruct s as [op pc]. unfold shows, Done in *. cbn in *.
    destruct pc as [|e0| |]; [destruct Hsh; congruence|destruct Hsh as (_ & ? & _); congruence|destruct Hsh; congruence|].
    split; [|done].
    inversion H2 as [|? ? ? Hbad]; subst; [done|]. inversion Hbad.
Qed.

End CrossCopy.
