(* ===== verification/Filesystem.v ===== *)
(** * Paths and system calls: the parts of [path/filepath] and [os] the file
    driver uses

    A cleaned path is the list of its components from the root of the file
    system; [render] is the string the code handles.  The file system is a map
    from paths to directories and regular files.  A system call is an action of
    the monad [io]: it takes the file system and gives a result or an error
    with the next one.  [sysenv] is what the machine does at the [i]-th call:
    whether the call fails, how far it got, what the clock and the random
    generators say. *)
From S2P Require Import Prelude Strconv GoTime.

(** ** Paths *)

Abbreviation path := (list string) (only parsing).

(** The components of a slash-separated string, empty ones included. *)
Fixpoint split_slash (s : string) : list string :=
  match s with
  | EmptyString => [""]
  | String c s =>
    if decide (c = "/"%char) then "" :: split_slash s
    else match split_slash s with
         | [] => [String c ""]
         | w :: ws => String c w :: ws
         end
  end.

(** One component of [filepath.Clean] on a rooted path: an empty one and "."
    vanish, ".." drops the last one kept, and stops at the root. *)
Definition clean_step (acc : path) (c : string) : path :=
  if bool_decide (c = "" ∨ c = ".") then acc
  else if bool_decide (c = "..") then take (pred (length acc)) acc
  else acc ++ [c].

(** [filepath.Clean(filepath.Join(base, rel))] of a clean [base]. *)
Definition join_clean (base : path) (rel : string) : path :=
  foldl clean_step base (split_slash rel).

(** A clean path as a string. *)
Fixpoint render (p : path) : string :=
  match p with
  | [] => ""
  | c :: p => "/" +:+ c +:+ render p
  end.

(** A component a clean path may have. *)
Definition plain (c : string) : Prop :=
  c ≠ "" ∧ c ≠ "." ∧ c ≠ ".." ∧ Contains c "/" = false.

(** [filepath.ToSlash(filepath.Rel(base, base/p))]. *)
Definition rel_slash (p : path) : string :=
  match p with
  | [] => "."
  | c :: p => c +:+ render p
  end.

(** ** Nodes *)

Inductive node :=
| Dir
| Reg (content : bytes) (mtime : Z).

#[export] Instance node_eq_dec : EqDecision node.
Proof. solve_decision. Defined.

#[export] Instance path_eq_dec : EqDecision path := list_eq_dec.
#[export] Instance path_countable : Countable path := list_countable.

Abbreviation tree := (@gmap (list string) path_eq_dec path_countable node) (only parsing).

(** The errors a path can run into; only the first is [os.ErrNotExist] for
    [errors.Is]. *)
Definition ErrNotExist : error := ErrOther "file does not exist".
Definition ENOTDIR : error := ErrOther "not a directory".
Definition EISDIR : error := ErrOther "is a directory".
Definition EEXIST : error := ErrOther "file exists".
Definition ENOTEMPTY : error := ErrOther "directory not empty".

(** Path resolution: every proper ancestor must be a directory. *)
Fixpoint resolve (n : tree) (above rest : path) : result node :=
  match rest, n !! above with
  | _, None => Err ErrNotExist
  | [], Some x => Ok x
  | c :: rest, Some Dir => resolve n (above ++ [c]) rest
  | _ :: _, Some (Reg _ _) => Err ENOTDIR
  end.

Definition walk_path (n : tree) (p : path) : result node := resolve n [] p.

(** [filepath.Dir] of a clean path. *)
Definition parent (p : path) : path := take (pred (length p)) p.

(** [os.MkdirAll]: makes the missing directories from the top down, and stops
    at a regular file. *)
Fixpoint make_dirs (above rest : path) (n : tree) : result unit * tree :=
  match n !! above with
  | Some (Reg _ _) => (Err ENOTDIR, n)
  | o =>
    let n := match o with None => <[above := Dir]> n | Some _ => n end in
    match rest with
    | [] => (Ok tt, n)
    | c :: rest => make_dirs (above ++ [c]) rest n
    end
  end.

(** ** System calls *)

Record sysenv := mkSysenv {
  y_fault : nat → option error;  (** the call fails with this error *)
  y_short : nat → nat;           (** how far a failing call got *)
  y_ahead : nat → nat;           (** how much further its input had been read *)
  y_now : nat → Z;               (** the clock *)
  y_rand : nat → result bytes;   (** crypto/rand.Read *)
  y_temp : nat → string;         (** the random part of a temporary name *)
  y_dir : nat → Z * Z;           (** modification time and size reported for a directory *)
}.

Record os := mkOs {
  nodes : tree;
  calls : nat;
}.

Definition io (A : Type) : Type := os → result A * os.

#[export] Instance io_ret : MRet io := fun A a s => (Ok a, s).
#[export] Instance io_bind : MBind io := fun A B f m s =>
  match m s with
  | (Ok a, s') => f a s'
  | (Err e, s') => (Err e, s')
  end.

Definition fail {A : Type} (e : error) : io A := fun s => (Err e, s).

(** A pure [(T, error)] result in sequence. *)
Definition lift {A : Type} (r : result A) : io A := fun s => (r, s).

(** The error as a value, for code that looks at it. *)
Definition attempt {A : Type} (m : io A) : io (result A) := fun s =>
  let '(r, s') := m s in (Ok r, s').

(** Code whose error is dropped, [_ = m] and [defer m]. *)
Definition ignore {A : Type} (m : io A) : io unit := fun s => let '(_, s') := m s in (Ok tt, s').

Record FileInfo := mkFileInfo {
  fi_IsDir : bool;
  fi_ModTime : Z;
  fi_Size : Z;
}.

Definition info_of (dir : Z * Z) (x : node) : FileInfo :=
  match x with
  | Dir => mkFileInfo true dir.1 dir.2
  | Reg c t => mkFileInfo false t (strlen c)
  end.

Section calls.
Context (y : sysenv).

(** The [i]-th call: what it does when it fails with [e], and when not. *)
Definition syscall {A : Type} (failing : nat → error → tree → result A * tree)
    (body : nat → tree → result A * tree) : io A := fun s =>
  let i := calls s in
  let '(r, n) := match y_fault y i with
                 | Some e => failing i e (nodes s)
                 | None => body i (nodes s)
                 end in
  (r, mkOs n (S i)).

(** Most calls have no effect when they fail. *)
Definition no_effect {A : Type} (_ : nat) (e : error) (n : tree) : result A * tree := (Err e, n).

Definition time_Now : io Z := fun s => (Ok (y_now y (calls s)), mkOs (nodes s) (S (calls s))).

Definition Stat (p : path) : io FileInfo :=
  syscall no_effect (fun i n => (x ← walk_path n p; Ok (info_of (y_dir y i) x), n)).

Definition ReadFile (p : path) : io bytes :=
  syscall no_effect (fun _ n =>
    (match walk_path n p with
     | Err e => Err e
     | Ok Dir => Err EISDIR
     | Ok (Reg c _) => Ok c
     end, n)).

(** [os.Open] for reading.  Files are replaced by [Rename] and not written in
    place, so the open file keeps the contents it had. *)
Definition Open (p : path) : io node :=
  syscall no_effect (fun _ n => (walk_path n p, n)).

(** Reading an open file to the end of a section of it: [n] bytes from
    [off], or what there is of them. *)
Definition ReadSection (f : node) (off len : Z) : io bytes :=
  syscall no_effect (fun _ n =>
    (match f with
     | Dir => if bool_decide (len ≤ 0) then Ok "" else Err EISDIR
     | Reg c _ => Ok (str_take (Z.to_nat len) (str_drop (Z.to_nat off) c))
     end, n)).

(** A failing [MkdirAll] may have made the topmost directories. *)
Definition MkdirAll (p : path) : io unit :=
  syscall (fun i e n => (Err e, (make_dirs [] (take (y_short y i) p) n).2))
    (fun _ n => make_dirs [] p n).

(** [os.CreateTemp(dir, "w-*")]: a new empty file; [EEXIST] is when every name
    it tried was taken. *)
Definition CreateTemp (dir : path) : io path :=
  syscall no_effect (fun i n =>
    let p := dir ++ ["w-" +:+ y_temp y i] in
    match walk_path n dir with
    | Err e => (Err e, n)
    | Ok (Reg _ _) => (Err ENOTDIR, n)
    | Ok Dir =>
      match n !! p with
      | Some _ => (Err EEXIST, n)
      | None => (Ok p, <[p := Reg "" (y_now y i)]> n)
      end
    end).

(** Appending to an open temporary file. *)
Definition append (p : path) (d : bytes) (now : Z) (n : tree) : tree :=
  match n !! p with
  | Some (Reg c t) => <[p := Reg (c +:+ d) (if bool_decide (d = "") then t else now)]> n
  | _ => n
  end.

(** [File.Write]: the bytes written, and the error if there were fewer. *)
Definition FileWrite (p : path) (d : bytes) : io (bytes * option error) :=
  syscall
    (fun i e n => let part := str_take (y_short y i) d in
                  (Ok (part, Some e), append p part (y_now y i) n))
    (fun i n => (Ok (d, None), append p d (y_now y i) n)).

Definition Sync : io unit := syscall no_effect (fun _ n => (Ok tt, n)).
Definition FileClose : io unit := syscall no_effect (fun _ n => (Ok tt, n)).

(** [os.Rename] of a regular file, replacing a regular file. *)
Definition Rename (old new : path) : io unit :=
  syscall no_effect (fun _ n =>
    match walk_path n old, walk_path n (parent new), n !! new with
    | Err e, _, _ => (Err e, n)
    | Ok Dir, _, _ => (Err EISDIR, n)
    | _, Err e, _ => (Err e, n)
    | _, Ok (Reg _ _), _ => (Err ENOTDIR, n)
    | _, _, Some Dir => (Err EEXIST, n)
    | Ok (Reg c t), Ok Dir, _ => (Ok tt, <[new := Reg c t]> (delete old n))
    end).

(** The entries right below a directory. *)
Definition is_empty_dir (p : path) (n : tree) : bool :=
  forallb (fun '(q, _) => negb (bool_decide (parent q = p ∧ q ≠ p))) (map_to_list n).

(** [os.Remove]: a file, or an empty directory. *)
Definition Remove (p : path) : io unit :=
  syscall no_effect (fun _ n =>
    match walk_path n p with
    | Err e => (Err e, n)
    | Ok (Reg _ _) => (Ok tt, delete p n)
    | Ok Dir => if is_empty_dir p n then (Ok tt, delete p n) else (Err ENOTEMPTY, n)
    end).

(** The regular files at and below a path, as paths relative to it. *)
Definition files_below (base : path) (n : tree) : list (path * FileInfo) :=
  omap (fun '(q, x) =>
          match x with
          | Dir => None
          | Reg c t => if bool_decide (take (length base) q = base)
                       then Some (drop (length base) q, mkFileInfo false t (strlen c)) else None
          end) (map_to_list n).

(** [filepath.Walk] with a callback that collects the regular files and passes
    over what does not exist.  The fault is one of the [Lstat] of [base]. *)
Definition WalkFiles (base : path) : io (list (path * FileInfo)) :=
  syscall
    (fun _ e n => (if Is e ErrNotExist then Ok [] else Err e, n))
    (fun _ n => (match walk_path n base with
                 | Err e => if Is e ErrNotExist then Ok [] else Err e
                 | Ok _ => Ok (files_below base n)
                 end, n)).

End calls.

(** ** Facts about paths *)

Lemma Contains_slash_cons a s :
  Contains (String a s) "/" = bool_decide (a = "/"%char) || Contains s "/".
Proof.
  apply eq_true_iff_eq. unfold Contains. rewrite orb_true_iff, !bool_decide_eq_true. cbn [Index].
  destruct (HasPrefix (String a s) "/") eqn:E.
  - apply HasPrefix_spec in E as [r [= ->]]. split; [by left|by eauto].
  - split.
    + intros Hi. right. destruct (Index s "/"); [by eauto|]. by destruct Hi.
    + intros [->|[i ->]]; [|by eexists]. assert (HasPrefix (String "/" s) "/" = true) as E'; [|by rewrite E' in E].
      apply HasPrefix_spec. by exists s.
Qed.

Lemma Contains_slash_app a b : Contains (a +:+ b) "/" = Contains a "/" || Contains b "/".
Proof.
  induction a as [|c a IH]; [done|]. change (String c a +:+ b) with (String c (a +:+ b)).
  rewrite !Contains_slash_cons, IH. by rewrite orb_assoc.
Qed.

Definition noslash (c : string) : Prop := Contains c "/" = false.

Lemma noslash_cons a s : noslash (String a s) ↔ a ≠ "/"%char ∧ noslash s.
Proof.
  unfold noslash. rewrite Contains_slash_cons, orb_false_iff, bool_decide_eq_false. done.
Qed.

Lemma split_slash_nonempty s : split_slash s ≠ [].
Proof. destruct s as [|c s]; cbn; [done|]. case_decide; [done|]. by destruct (split_slash s). Qed.

Lemma split_slash_noslash s : Forall noslash (split_slash s).
Proof.
  induction s as [|c s IH]; cbn; [by repeat constructor|]. case_decide as Hc; [by constructor|].
  destruct (split_slash s) as [|w ws]; [by repeat constructor; apply noslash_cons|].
  apply Forall_cons in IH as [? ?]. constructor; [by apply noslash_cons|done].
Qed.

Lemma split_slash_one c : noslash c → split_slash c = [c].
Proof.
  induction c as [|a c IH]; [done|]. intros [Ha Hc]%noslash_cons. cbn. rewrite decide_False by done.
  by rewrite (IH Hc).
Qed.

Lemma split_slash_app c s : noslash c → split_slash (c +:+ "/" +:+ s) = c :: split_slash s.
Proof.
  induction c as [|a c IH]; [done|]. intros [Ha Hc]%noslash_cons.
  change (String a c +:+ "/" +:+ s) with (String a (c +:+ "/" +:+ s)). cbn [split_slash].
  rewrite decide_False by done. by rewrite (IH Hc).
Qed.

Lemma split_slash_rel c p : Forall noslash (c :: p) → split_slash (rel_slash (c :: p)) = c :: p.
Proof.
  cbn [rel_slash]. revert c. induction p as [|d p IH]; intros c [Hc Hp]%Forall_cons; cbn [render].
  - blob_simpl. by apply split_slash_one.
  - rewrite split_slash_app by done. f_equal. by apply IH.
Qed.

Lemma plain_noslash p : Forall plain p → Forall noslash p.
Proof. intros Hp. eapply Forall_impl; [exact Hp|]. by intros c (_ & _ & _ & ?). Qed.

(** The text up to the first slash determines its component. *)
Lemma first_component c d x y :
  noslash c → noslash d → (x = "" ∨ ∃ x', x = "/" +:+ x') → (y = "" ∨ ∃ y', y = "/" +:+ y') →
  c +:+ x = d +:+ y → c = d ∧ x = y.
Proof.
  intros Hc Hd Hx Hy. revert d Hd Hc. induction c as [|a c IH]; intros [|b d] Hd Hc.
  - done.
  - apply noslash_cons in Hd as [Hb _]. destruct Hx as [->|[x' ->]]; [done|]. intros [= <- _]. done.
  - apply noslash_cons in Hc as [Ha _]. destruct Hy as [->|[y' ->]]; [done|]. intros [= -> _]. done.
  - apply noslash_cons in Hc as [Ha Hc]. apply noslash_cons in Hd as [_ Hd].
    intros [= -> E]. destruct (IH d Hd Hc E) as [-> ->]. done.
Qed.

Lemma render_head p : render p = "" ∨ ∃ x, render p = "/" +:+ x.
Proof. destruct p as [|c p]; [by left|]. right. eexists. reflexivity. Qed.

Lemma render_inj p q : Forall noslash p → Forall noslash q → render p = render q → p = q.
Proof.
  revert q. induction p as [|c p IH]; intros [|d q] Hp Hq; cbn [render]; [done..|].
  apply Forall_cons in Hp as [Hc Hp]. apply Forall_cons in Hq as [Hd Hq].
  intros E%string_app_inj_l. apply first_component in E as [-> E]; try done; try apply render_head.
  f_equal. by apply IH.
Qed.

(** The string test of the code is the test on components. *)
Lemma render_below p q :
  Forall noslash p → Forall noslash q →
  HasPrefix (render p) (render q +:+ "/") = true ↔ ∃ r, r ≠ [] ∧ p = q ++ r.
Proof.
  intros Hp Hq. rewrite HasPrefix_spec. split.
  - intros [t Ht]. revert q Hq Ht. induction p as [|c p IH]; intros [|d q] Hq Ht; cbn [render] in Ht.
    + done.
    + done.
    + by exists (c :: p).
    + apply Forall_cons in Hp as [Hc Hp]. apply Forall_cons in Hq as [Hd Hq].
      rewrite !string_app_assoc in Ht. apply string_app_inj_l in Ht.
      apply first_component in Ht as [-> Ht]; try done; try apply render_head.
      * destruct (IH Hp q Hq) as (r & ? & ->); [by rewrite string_app_assoc|]. by exists r.
      * right. destruct (render_head q) as [->|[x ->]]; [by eexists|]. rewrite string_app_assoc. by eexists.
  - intros (r & Hr & ->). clear Hp Hq. destruct r as [|c r]; [done|]. exists (c +:+ render r).
    induction q as [|d q IH]; [done|]. cbn [app render]. rewrite IH, !string_app_assoc. done.
Qed.

Lemma clean_step_plain acc c : Forall plain acc → noslash c → Forall plain (clean_step acc c).
Proof.
  intros Ha Hc. unfold clean_step. case_bool_decide as H1; [done|]. case_bool_decide as H2.
  - by apply Forall_take.
  - apply Forall_app. split; [done|]. constructor; [|done]. unfold plain. naive_solver.
Qed.

Lemma join_clean_plain base rel : Forall plain base → Forall plain (join_clean base rel).
Proof.
  unfold join_clean. generalize (split_slash_noslash rel). generalize (split_slash rel).
  intros cs. revert base. induction cs as [|c cs IH]; intros base Hcs Hb; [done|].
  apply Forall_cons in Hcs as [Hc Hcs]. apply IH; [done|]. by apply clean_step_plain.
Qed.

Lemma clean_step_push acc c : plain c → clean_step acc c = acc ++ [c].
Proof. intros (? & ? & ? & _). unfold clean_step. by rewrite !bool_decide_false by naive_solver. Qed.

Lemma clean_step_pop acc c : clean_step (acc ++ [c]) ".." = acc.
Proof.
  unfold clean_step. cbn. rewrite length_app. cbn. rewrite Nat.add_1_r. cbn. apply take_app_length.
Qed.

Lemma foldl_clean_plain cs acc : Forall plain cs → foldl clean_step acc cs = acc ++ cs.
Proof.
  revert acc. induction cs as [|c cs IH]; intros acc Hcs; cbn; [by rewrite app_nil_r|].
  apply Forall_cons in Hcs as [Hc Hcs]. rewrite clean_step_push, IH by done. by rewrite <- app_assoc.
Qed.

Lemma join_clean_rel base c p :
  Forall plain (c :: p) → join_clean base (rel_slash (c :: p)) = base ++ c :: p.
Proof.
  intros Hp. unfold join_clean. rewrite split_slash_rel by (by apply plain_noslash).
  by apply foldl_clean_plain.
Qed.

(** Cleaned from two bases that differ in their last component, the same text
    keeps the two results apart in it alone, or makes them equal. *)
Lemma clean_pair root a b cs l m :
  (∃ r, l = root ++ a :: r ∧ m = root ++ b :: r) ∨ l = m →
  let l' := foldl clean_step l cs in
  let m' := foldl clean_step m cs in
  (∃ r, l' = root ++ a :: r ∧ m' = root ++ b :: r) ∨ l' = m'.
Proof.
  revert l m. induction cs as [|c cs IH]; intros l m HR; [done|]. cbn. apply IH.
  destruct HR as [(r & -> & ->) | ->]; [|by right]. unfold clean_step.
  case_bool_decide; [left; by exists r|]. case_bool_decide.
  - assert (∀ x, take (pred (length (root ++ x :: r))) (root ++ x :: r)
                 = match r with [] => root | _ => root ++ x :: take (pred (length r)) r end) as Hpop.
    { intros x. rewrite length_app. cbn. rewrite Nat.add_succ_r. cbn [pred].
      destruct r as [|z r]; cbn; [by rewrite Nat.add_0_r, take_app_length|].
      rewrite take_app_ge by lia. f_equal. by replace (_ + S (length r) - length root)%nat with (S (length r)) by lia. }
    rewrite !Hpop. destruct r; [by right|]. left. by eexists.
  - left. exists (r ++ [c]). by rewrite <- !app_assoc.
Qed.

Lemma parent_app p c : parent (p ++ [c]) = p.
Proof. unfold parent. rewrite length_app. cbn. rewrite Nat.add_1_r. apply take_app_length. Qed.

(** ** Facts about the tree *)

(** [q] is a proper ancestor of [p]. *)
Definition above (q p : path) : Prop := ∃ r, r ≠ [] ∧ p = q ++ r.

(** Every proper ancestor of [p] is a directory. *)
Definition dirs (n : tree) (p : path) : Prop := ∀ q, above q p → n !! q = Some Dir.

(** A regular file with contents [c] that a path walk reaches. *)
Definition file (n : tree) (p : path) (c : bytes) : Prop :=
  dirs n p ∧ ∃ t, n !! p = Some (Reg c t).

Lemma resolve_Ok n base rest x :
  resolve n base rest = Ok x ↔
  (∀ l1 l2, l2 ≠ [] → rest = l1 ++ l2 → n !! (base ++ l1) = Some Dir) ∧ n !! (base ++ rest) = Some x.
Proof.
  revert base. induction rest as [|c rest IH]; intros base; cbn.
  - rewrite app_nil_r. split.
    + destruct (n !! base) as [z|]; [|done]. intros [= ->]. split; [|done].
      intros l1 l2 Hl2 E. symmetry in E. by apply app_nil in E as [_ ->].
    + by intros [_ ->].
  - split.
    + destruct (n !! base) as [[|? ?]|] eqn:Eb; [|done..]. intros [Hd Hx]%IH.
      rewrite <- app_assoc in Hx. split; [|done]. intros [|d l1] l2 Hl2 E; cbn in E; simplify_eq.
      * by rewrite app_nil_r.
      * specialize (Hd l1 l2 Hl2 eq_refl). by rewrite <- app_assoc in Hd.
    + intros [Hd Hx]. pose proof (Hd [] (c :: rest) ltac:(done) eq_refl) as Eb. rewrite app_nil_r in Eb.
      rewrite Eb. apply IH. rewrite <- app_assoc. split; [|done]. intros l1 l2 Hl2 ->.
      rewrite <- app_assoc. by apply (Hd (c :: l1) l2).
Qed.

Lemma walk_path_Ok n p x : walk_path n p = Ok x ↔ dirs n p ∧ n !! p = Some x.
Proof.
  unfold walk_path. rewrite resolve_Ok. cbn. unfold dirs, above. split; intros [Hd Hx]; split; auto.
  - intros q (r & Hr & E). by apply (Hd q r).
  - intros l1 l2 Hl2 E. apply Hd. by exists l2.
Qed.

Lemma walk_path_Err n p e : walk_path n p = Err e → e = ErrNotExist ∨ e = ENOTDIR.
Proof.
  unfold walk_path. generalize (@nil string) as base. induction p as [|c p IH]; intros base; cbn.
  - destruct (n !! base); [done|]. intros [= <-]. by left.
  - destruct (n !! base) as [[|? ?]|]; [by apply IH|intros [= <-]; by right|intros [= <-]; by left].
Qed.

(** [make_dirs] only makes directories where there was nothing, on the way to
    its target; when it succeeds they are all there. *)
Lemma make_dirs_lookup base rest n r n' q :
  make_dirs base rest n = (r, n') →
  n' !! q = n !! q ∨ n !! q = None ∧ n' !! q = Some Dir ∧ base `prefix_of` q ∧ q `prefix_of` base ++ rest.
Proof.
  revert base n. induction rest as [|c rest IH]; intros base n; cbn.
  - destruct (n !! base) as [[|? ?]|] eqn:Eb; intros [= _ <-]; [by left..|].
    rewrite lookup_insert. case_decide as E; [|by left]. subst q. right. rewrite app_nil_r.
    repeat split; done.
  - destruct (n !! base) as [[|? ?]|] eqn:Eb.
    + intros [?|(? & ? & Hp & Hq)]%IH; [by left|]. right. split_and!; try done.
      * by eapply prefix_app_l.
      * by rewrite <- app_assoc in Hq.
    + intros [= _ <-]. by left.
    + intros [E|(Hn & Hs & Hp & Hq)]%IH.
      * rewrite E, lookup_insert. case_decide as Eq; [|by left]. subst q. right.
        split_and!; try done. by eexists.
      * apply lookup_insert_None in Hn as [Hn Hne]. right. split_and!; try done.
        -- by eapply prefix_app_l.
        -- by rewrite <- app_assoc in Hq.
Qed.

(** Nothing lies below a missing directory or below a regular file. *)
Definition wf_tree (n : tree) : Prop := ∀ q, is_Some (n !! q) → dirs n q.

(** The proper ancestors of a path, for deciding [wf_tree]. *)
Definition ancestors (p : path) : list path := (λ k, take k p) <$> seq 0 (length p).

Lemma above_ancestors q p : above q p → q ∈ ancestors p.
Proof.
  intros (r & Hr & ->). apply list_elem_of_fmap. exists (length q). rewrite take_app_length. split; [done|].
  apply elem_of_seq. rewrite length_app. destruct r; [done|]. cbn. lia.
Qed.

Lemma wf_tree_check n :
  forallb (λ e : path * node, forallb (λ q, bool_decide (n !! q = Some Dir)) (ancestors e.1)) (map_to_list n) = true →
  wf_tree n.
Proof.
  rewrite forallb_forall. intros Hn q [x Hx] q' Ha. apply elem_of_map_to_list, list_elem_of_In in Hx.
  specialize (Hn _ Hx). rewrite forallb_forall in Hn. eapply bool_decide_eq_true, Hn.
  by apply list_elem_of_In, above_ancestors.
Qed.

(** ** Reasoning about actions

    [hoare P m Q E]: from a tree in [P], [m] ends in [Q] with a value or in
    [E] with an error, whatever the calls of the machine do. *)
Definition hoare {A : Type} (P : tree → Prop) (m : io A) (Q : A → tree → Prop)
    (E : error → tree → Prop) : Prop :=
  ∀ s, P (nodes s) →
    match m s with
    | (Ok a, s') => Q a (nodes s')
    | (Err e, s') => E e (nodes s')
    end.

(** [m] changes nothing. *)
Definition reads {A : Type} (m : io A) : Prop := ∀ s, nodes (m s).2 = nodes s.

Section hoare.
Context {A B : Type}.

Lemma hoare_bind P (m : io A) (f : A → io B) Q R E :
  hoare P m Q E → (∀ a, hoare (Q a) (f a) R E) → hoare P (m ≫= f) R E.
Proof.
  intros Hm Hf s Hs. unfold mbind, io_bind. specialize (Hm s Hs). destruct (m s) as [[a|e] s'].
  - by apply Hf.
  - done.
Qed.

Lemma hoare_conseq P P' (m : io A) Q Q' (E E' : error → tree → Prop) :
  hoare P' m Q' E' → (∀ n, P n → P' n) → (∀ a n, Q' a n → Q a n) → (∀ e n, E' e n → E e n) →
  hoare P m Q E.
Proof.
  intros Hm HP HQ HE s Hs. specialize (Hm s (HP _ Hs)). destruct (m s) as [[a|e] s']; auto.
Qed.

Lemma hoare_ret (P : tree → Prop) (a : A) Q E : (∀ n, P n → Q a n) → hoare P (mret a) Q E.
Proof. intros HP s Hs. by apply HP. Qed.

Lemma hoare_fail (P : tree → Prop) e Q (E : error → tree → Prop) :
  (∀ n, P n → E e n) → hoare (A:=A) P (fail e) Q E.
Proof. intros HP s Hs. by apply HP. Qed.

Lemma hoare_lift_Ok P (a : A) (f : A → io B) Q E : hoare P (f a) Q E → hoare P (lift (Ok a) ≫= f) Q E.
Proof. done. Qed.

Lemma hoare_reads (P : tree → Prop) (m : io A) Q (E : error → tree → Prop) :
  reads m → (∀ a n, P n → Q a n) → (∀ e n, P n → E e n) → hoare P m Q E.
Proof.
  intros Hm HQ HE s Hs. specialize (Hm s). destruct (m s) as [[a|e] s']; cbn in Hm; rewrite Hm; auto.
Qed.

Lemma hoare_attempt P (m : io A) Q E F :
  hoare P m Q E →
  hoare P (attempt m) (λ r n, match r with Ok a => Q a n | Err e => E e n end) F.
Proof.
  intros Hm s Hs. unfold attempt. specialize (Hm s Hs). by destruct (m s) as [[a|e] s'].
Qed.

Lemma hoare_ignore P (m : io A) (Q : tree → Prop) F :
  hoare P m (λ _, Q) (λ _, Q) → hoare P (ignore m) (λ _, Q) F.
Proof. intros Hm s Hs. unfold ignore. specialize (Hm s Hs). by destruct (m s) as [[a|e] s']. Qed.

Lemma reads_bind (m : io A) (f : A → io B) : reads m → (∀ a, reads (f a)) → reads (m ≫= f).
Proof.
  intros Hm Hf s. unfold mbind, io_bind. specialize (Hm s). destruct (m s) as [[a|e] s']; cbn in *; [|done].
  by rewrite Hf.
Qed.

Lemma reads_attempt (m : io A) : reads m → reads (attempt m).
Proof. intros Hm s. unfold attempt. specialize (Hm s). by destruct (m s) as [[a|e] s']. Qed.

Lemma reads_ret (a : A) : reads (mret (M:=io) a).
Proof. by intros s. Qed.
Lemma reads_fail e : reads (fail (A:=A) e).
Proof. by intros s. Qed.
Lemma reads_lift (r : result A) : reads (lift r).
Proof. by intros s. Qed.

End hoare.

Create HintDb io.
#[export] Hint Resolve reads_bind reads_attempt reads_ret reads_fail reads_lift : io.

Section call_facts.
Context (y : sysenv).

Lemma reads_syscall {A : Type} (body : nat → tree → result A * tree) :
  (∀ i n, (body i n).2 = n) → reads (syscall y no_effect body).
Proof.
  intros Hb s. unfold syscall. destruct (y_fault y (calls s)); [done|].
  specialize (Hb (calls s) (nodes s)). by destruct (body _ _).
Qed.

Lemma reads_time_Now : reads (time_Now y). Proof. by intros s. Qed.
Lemma reads_Stat p : reads (Stat y p). Proof. by apply reads_syscall. Qed.
Lemma reads_ReadFile p : reads (ReadFile y p). Proof. by apply reads_syscall. Qed.
Lemma reads_Open p : reads (Open y p). Proof. by apply reads_syscall. Qed.
Lemma reads_ReadSection f off len : reads (ReadSection y f off len). Proof. by apply reads_syscall. Qed.
Lemma reads_Sync : reads (Sync y). Proof. by apply reads_syscall. Qed.
Lemma reads_FileClose : reads (FileClose y). Proof. by apply reads_syscall. Qed.

(** A call whose effect is known on both sides. *)
Lemma hoare_syscall {A : Type} failing (body : nat → tree → result A * tree) P Q E :
  (∀ i e n, P n → match failing i e n with (Ok a, n') => Q a n' | (Err e', n') => E e' n' end) →
  (∀ i n, P n → match body i n with (Ok a, n') => Q a n' | (Err e, n') => E e n' end) →
  hoare P (syscall y failing body) Q E.
Proof.
  intros Hf Hb s Hs. unfold syscall. destruct (y_fault y (calls s)) as [e|].
  - specialize (Hf (calls s) e _ Hs). by destruct (failing _ _ _) as [[]].
  - specialize (Hb (calls s) _ Hs). by destruct (body _ _) as [[]].
Qed.

End call_facts.

#[export] Hint Resolve reads_time_Now reads_Stat reads_ReadFile reads_Open reads_ReadSection
  reads_Sync reads_FileClose : io.

(** ** The shape of the tree

    Every call keeps a well-formed tree well-formed. *)

Definition keeps {A : Type} (I : tree → Prop) (m : io A) : Prop := ∀ s, I (nodes s) → I (nodes (m s).2).

Section keeps.
Context {A B : Type} (I : tree → Prop).

Lemma keeps_reads (m : io A) : reads m → keeps I m.
Proof. intros Hm s. by rewrite Hm. Qed.

Lemma keeps_bind (m : io A) (f : A → io B) : keeps I m → (∀ a, keeps I (f a)) → keeps I (m ≫= f).
Proof.
  intros Hm Hf s Hs. unfold mbind, io_bind. specialize (Hm s Hs). destruct (m s) as [[a|e] s']; [|done]. by apply Hf.
Qed.

Lemma keeps_attempt (m : io A) : keeps I m → keeps I (attempt m).
Proof. intros Hm s Hs. unfold attempt. specialize (Hm s Hs). by destruct (m s). Qed.

Lemma keeps_ignore (m : io A) : keeps I m → keeps I (ignore m).
Proof. intros Hm s Hs. unfold ignore. specialize (Hm s Hs). by destruct (m s). Qed.

Lemma keeps_syscall y failing (body : nat → tree → result A * tree) :
  (∀ i e n, I n → I (failing i e n).2) → (∀ i n, I n → I (body i n).2) → keeps I (syscall y failing body).
Proof.
  intros Hf Hb s Hs. unfold syscall. destruct (y_fault y (calls s)) as [e|].
  - specialize (Hf (calls s) e _ Hs). by destruct (failing _ _ _).
  - specialize (Hb (calls s) _ Hs). by destruct (body _ _).
Qed.

End keeps.

Lemma above_trans q r p : above q r → above r p → above q p.
Proof. intros (t & Ht & ->) (u & Hu & ->). exists (t ++ u). rewrite app_assoc. split; [by destruct t|done]. Qed.

Lemma above_irrefl p : ¬ above p p.
Proof. intros (r & Hr & E). rewrite <- (app_nil_r p) in E at 1. by apply app_inv_head in E. Qed.

Lemma above_snoc q p c : above q (p ++ [c]) → q = p ∨ above q p.
Proof.
  intros (r & Hr & E). destruct r as [|z r _] using rev_ind; [done|]. rewrite app_assoc in E.
  apply app_inj_tail in E as [-> _]. destruct r as [|w r]; [left; by rewrite app_nil_r|]. right. by exists (w :: r).
Qed.

Lemma dirs_snoc n p c : dirs n p → n !! p = Some Dir → dirs n (p ++ [c]).
Proof. intros Hd Hp q [->|?]%above_snoc; [done|by apply Hd]. Qed.

Lemma wf_insert n p x :
  wf_tree n → dirs n p → x = Dir ∨ n !! p ≠ Some Dir → wf_tree (<[p := x]> n).
Proof.
  intros Hn Hp Hx q Hq q' Ha. rewrite lookup_insert. case_decide as E.
  - subst q'. destruct Hx as [->|Hx]; [done|]. destruct Hx. apply (Hn q); [|done].
    rewrite lookup_insert_ne in Hq; [done|]. intros ->. by apply above_irrefl in Ha.
  - destruct (decide (q = p)) as [->|Hne]; [by apply Hp|]. rewrite lookup_insert_ne in Hq by done. by apply (Hn q).
Qed.

Lemma wf_delete n p : wf_tree n → (∀ q, is_Some (n !! q) → ¬ above p q) → wf_tree (delete p n).
Proof.
  intros Hn Hp q Hq q' Ha. rewrite lookup_delete in Hq. case_decide; [by destruct Hq|].
  rewrite lookup_delete_ne; [by apply (Hn q)|]. intros <-. by apply (Hp q).
Qed.

Lemma not_dir_bare n p : wf_tree n → n !! p ≠ Some Dir → ∀ q, is_Some (n !! q) → ¬ above p q.
Proof. intros Hn Hp q Hq Ha. by apply Hp, (Hn q). Qed.

Lemma empty_dir_bare n p : wf_tree n → is_empty_dir p n = true → ∀ q, is_Some (n !! q) → ¬ above p q.
Proof.
  intros Hn He q Hq ([|c r] & Hr & ->); [done|]. assert (is_Some (n !! (p ++ [c]))) as [x Hx].
  { destruct r as [|d r]; [done|]. rewrite (Hn _ Hq); [by eexists|]. exists (d :: r). by rewrite <- app_assoc. }
  unfold is_empty_dir in He. rewrite forallb_forall in He.
  apply elem_of_map_to_list, list_elem_of_In, He in Hx. cbn in Hx. rewrite parent_app in Hx.
  rewrite bool_decide_true in Hx; [done|]. split; [done|]. intros E.
  rewrite <- (app_nil_r p) in E at 2. by apply app_inv_head in E.
Qed.

Lemma make_dirs_wf base rest n : wf_tree n → dirs n base → wf_tree (make_dirs base rest n).2.
Proof.
  revert base n. induction rest as [|c rest IH]; intros base n Hn Hb; cbn.
  - destruct (n !! base) as [[|? ?]|] eqn:E; [done..|]. apply wf_insert; auto.
  - assert (∀ n', wf_tree n' → dirs n' base → n' !! base = Some Dir → wf_tree (make_dirs (base ++ [c]) rest n').2) as Hgo.
    { intros n' Hn' Hb' Hd. apply IH; [done|]. by apply dirs_snoc. }
    destruct (n !! base) as [[|? ?]|] eqn:E; [by apply Hgo|done|]. apply Hgo.
    + apply wf_insert; auto.
    + intros q Ha. rewrite lookup_insert_ne; [by apply Hb|]. intros ->. by apply above_irrefl in Ha.
    + apply lookup_insert_eq.
Qed.

Section keeps_calls.
Context (y : sysenv).

Lemma keeps_MkdirAll p : keeps wf_tree (MkdirAll y p).
Proof.
  assert (∀ n rest, wf_tree n → wf_tree (make_dirs [] rest n).2) as Hm.
  { intros n rest Hn. apply make_dirs_wf; [done|]. intros q (r & Hr & E). symmetry in E. by apply app_nil in E as [_ ->]. }
  apply keeps_syscall; intros; cbn; by apply Hm.
Qed.

Lemma keeps_CreateTemp p : keeps wf_tree (CreateTemp y p).
Proof.
  apply keeps_syscall; [done|]. intros i n Hn. cbn. destruct (walk_path n p) as [[|? ?]|] eqn:E; [|done..].
  apply walk_path_Ok in E as [Hd Hp]. case_match eqn:E; [done|]. apply wf_insert; [done|by apply dirs_snoc|right; congruence].
Qed.

Lemma append_wf p d now n : wf_tree n → wf_tree (append p d now n).
Proof.
  intros Hn. unfold append. destruct (n !! p) as [[|c t]|] eqn:E; [done| |done].
  apply wf_insert; [done|by apply Hn; rewrite E|right; congruence].
Qed.

Lemma keeps_FileWrite p d : keeps wf_tree (FileWrite y p d).
Proof. apply keeps_syscall; intros; cbn; by apply append_wf. Qed.

Lemma keeps_Rename old new : new ≠ [] → keeps wf_tree (Rename y old new).
Proof.
  intros Hne. apply keeps_syscall; [done|]. intros i n Hn. cbn.
  destruct (walk_path n old) as [[|c t]|] eqn:Eo; [done| |done]. apply walk_path_Ok in Eo as [Hdo Eo].
  destruct (walk_path n (parent new)) as [[|? ?]|] eqn:Ep; [|by destruct (n !! new)..].
  apply walk_path_Ok in Ep as [Hdp Ep].
  assert (∀ q, is_Some (n !! q) → ¬ above old q) as Hbare by (apply not_dir_bare; [done|congruence]).
  assert (wf_tree (delete old n)) as Hd by by apply wf_delete.
  assert (dirs (delete old n) new) as Hdn.
  { destruct new as [|x new _] using rev_ind; [done|]. rewrite parent_app in *.
    intros q Ha. pose proof (dirs_snoc n new x Hdp Ep q Ha) as Hq. rewrite lookup_delete_ne; [done|]. congruence. }
  destruct (n !! new) as [[|? ?]|] eqn:En; [done|..]; (apply wf_insert; [done..|]); right; rewrite lookup_delete;
    case_decide; congruence.
Qed.

Lemma keeps_Remove p : keeps wf_tree (Remove y p).
Proof.
  apply keeps_syscall; [done|]. intros i n Hn. cbn. destruct (walk_path n p) as [[|? ?]|] eqn:E; [..|done].
  - destruct (is_empty_dir p n) eqn:Ee; [|done]. apply wf_delete; [done|]. by apply empty_dir_bare.
  - apply walk_path_Ok in E as [_ E]. apply wf_delete; [done|]. apply not_dir_bare; [done|congruence].
Qed.

End keeps_calls.

#[export] Hint Resolve keeps_bind keeps_attempt keeps_ignore keeps_MkdirAll keeps_CreateTemp keeps_FileWrite
  keeps_Rename keeps_Remove keeps_reads : io.

(** ** Errors

    [raises R m]: an error of [m] is in [R]. *)
Definition raises {A : Type} (R : error → Prop) (m : io A) : Prop := ∀ s e s', m s = (Err e, s') → R e.

(** An error of the machine, and none of the package. *)
Definition machine_error (e : error) : Prop := ∃ t, e = ErrOther t.

Section raises.
Context {A B : Type} (R : error → Prop).

Lemma raises_bind (m : io A) (f : A → io B) : raises R m → (∀ a, raises R (f a)) → raises R (m ≫= f).
Proof.
  intros Hm Hf s e s'. unfold mbind, io_bind. destruct (m s) as [[a|e'] s1] eqn:E; [by apply Hf|].
  intros [= <- <-]. by eapply Hm.
Qed.

Lemma raises_ret (a : A) : raises R (mret (M:=io) a). Proof. by intros s e s'. Qed.
Lemma raises_attempt (m : io A) : raises R (attempt m).
Proof. intros s e s'. unfold attempt. by destruct (m s). Qed.
Lemma raises_ignore (m : io A) : raises R (ignore m).
Proof. intros s e s'. unfold ignore. by destruct (m s). Qed.
Lemma raises_fail e : R e → raises R (fail (A:=A) e).
Proof. by intros He s e' s' [= <- _]. Qed.
Lemma raises_lift (r : result A) : (∀ e, r = Err e → R e) → raises R (lift r).
Proof. intros Hr s e s' [= Hl _]. by apply Hr. Qed.

Lemma raises_mono (R' : error → Prop) (m : io A) : (∀ e, R e → R' e) → raises R m → raises R' m.
Proof. intros HR Hm s e s' E. by eapply HR, Hm. Qed.

(** What is known of the error joins what is known of the tree. *)
Lemma hoare_raises P (m : io A) Q (E : error → tree → Prop) :
  hoare P m Q E → raises R m → hoare P m Q (λ e n, E e n ∧ R e).
Proof.
  intros Hm Hr s Hs. specialize (Hm s Hs). specialize (Hr s). destruct (m s) as [[a|e] s']; [done|]. eauto.
Qed.
End raises.

Section raises_calls.
Context (y : sysenv) (Hy : ∀ i e, y_fault y i = Some e → machine_error e).

Lemma raises_syscall {A : Type} failing (body : nat → tree → result A * tree) :
  (∀ i e n e' n', failing i e n = (Err e', n') → e' = e) → (∀ i n e n', body i n = (Err e, n') → machine_error e) →
  raises machine_error (syscall y failing body).
Proof.
  intros Hf Hb s e s'. unfold syscall. destruct (y_fault y (calls s)) as [e0|] eqn:Ef.
  - destruct (failing _ _ _) as [r n'] eqn:E. intros [= -> _]. apply Hf in E as ->. by eapply Hy.
  - destruct (body _ _) as [r n'] eqn:E. intros [= -> _]. by eapply Hb.
Qed.

Lemma walk_path_machine n p e : walk_path n p = Err e → machine_error e.
Proof. intros [-> | ->]%walk_path_Err; by eexists. Qed.

Lemma make_dirs_machine base rest n e n' : make_dirs base rest n = (Err e, n') → machine_error e.
Proof.
  revert base n. induction rest as [|c rest IH]; intros base n; cbn.
  - destruct (n !! base) as [[|? ?]|]; [done|intros [= <- _]; by eexists|done].
  - destruct (n !! base) as [[|? ?]|]; [by apply IH|intros [= <- _]; by eexists|by apply IH].
Qed.

Lemma no_effect_error {A : Type} i e n e' n' : no_effect (A:=A) i e n = (Err e', n') → e' = e.
Proof. by intros [= <- _]. Qed.

#[local] Hint Resolve no_effect_error walk_path_machine make_dirs_machine : io.
#[local] Hint Extern 1 (machine_error (ErrOther _)) => (by eexists) : io.
#[local] Hint Extern 1 (machine_error ENOTDIR) => (by eexists) : io.
#[local] Hint Extern 1 (machine_error EISDIR) => (by eexists) : io.
#[local] Hint Extern 1 (machine_error EEXIST) => (by eexists) : io.
#[local] Hint Extern 1 (machine_error ENOTEMPTY) => (by eexists) : io.

#[local] Ltac call := apply raises_syscall; [eauto with io|]; cbn; intros i n e n' E; repeat case_match; simplify_eq; eauto with io.

Lemma raises_Stat p : raises machine_error (Stat y p).
Proof.
  apply raises_syscall; [eauto with io|]. cbn. intros i n e n'. destruct (walk_path n p) eqn:E; intros [= <- _]. eauto with io.
Qed.
Lemma raises_ReadFile p : raises machine_error (ReadFile y p). Proof. call. Qed.
Lemma raises_Open p : raises machine_error (Open y p). Proof. call. Qed.
Lemma raises_ReadSection f off len : raises machine_error (ReadSection y f off len). Proof. call. Qed.
Lemma raises_MkdirAll p : raises machine_error (MkdirAll y p).
Proof. apply raises_syscall; [by intros i e n e' n' [= <- _]|eauto with io]. Qed.
Lemma raises_CreateTemp p : raises machine_error (CreateTemp y p). Proof. call. Qed.
Lemma raises_FileWrite p d : raises machine_error (FileWrite y p d). Proof. by apply raises_syscall. Qed.
Lemma raises_Sync : raises machine_error (Sync y). Proof. by apply raises_syscall; [eauto with io|]. Qed.
Lemma raises_FileClose : raises machine_error (FileClose y). Proof. by apply raises_syscall; [eauto with io|]. Qed.
Lemma raises_Rename old new : raises machine_error (Rename y old new). Proof. call. Qed.
Lemma raises_Remove p : raises machine_error (Remove y p). Proof. call. Qed.

End raises_calls.

#[export] Hint Resolve raises_bind raises_attempt raises_ret raises_ignore raises_Stat raises_ReadFile raises_Open
  raises_ReadSection raises_MkdirAll raises_CreateTemp raises_FileWrite raises_Sync raises_FileClose raises_Rename
  raises_Remove : io.
