(* ===== verification/FileDriver.v ===== *)
(** * The file driver (file/file.go)

    A [Bucket] keeps an object in two files below its root, the bytes in
    data/<key> and the other attributes in the sidecar meta/<key>, and makes
    both with a temporary file in tmp/ and a rename.  A method is one action of
    [io], as the methods of one [Bucket] and its [Sub]s see each other: they take
    one mutex around everything that looks at or changes the files of an object.
    What a writer does before its [Close] takes the mutex is not serialised, and
    only touches a temporary file of its own.  A second [New] of the same
    directory has a mutex of its own: its calls are not atomic to those of the
    first ([close_check] and [close_rename] are the two halves of a commit that
    another mutex does not keep together).  [ctx.Err()] is an argument, one [cx]
    per place the code looks at its context. *)
From S2P Require Import Prelude Strconv GoTime Md5 Core Filesystem.

Module File.

(** [storedAttrs]: what the sidecar holds. *)
Record storedAttrs := mkStored {
  st_Version : string;
  st_CacheControl : string;
  st_ContentDisposition : string;
  st_ContentEncoding : string;
  st_ContentLanguage : string;
  st_ContentType : string;
  st_Metadata : metadata;
  st_MD5 : bytes;
  st_Size : Z;
  st_CreateTime : Z;
}.

(** The [omitempty] of the metadata field: an empty map is not printed, and
    reads back as nil.  The zero values of the other fields print and read
    back as themselves. *)
Definition omitempty (s : storedAttrs) : storedAttrs :=
  mkStored (st_Version s) (st_CacheControl s) (st_ContentDisposition s) (st_ContentEncoding s)
    (st_ContentLanguage s) (st_ContentType s)
    (match st_Metadata s with
     | Some m => if bool_decide (m = ∅) then None else Some m
     | None => None
     end) (st_MD5 s) (st_Size s) (st_CreateTime s).

(** encoding/json on [storedAttrs].  What it documents: a value whose strings
    are valid UTF-8 and whose time is in the years 0 to 9999 ([encodable])
    decodes to itself, and its errors are of its own types. *)
Class Json := {
  json_Marshal : storedAttrs → bytes;
  json_Unmarshal : bytes → result storedAttrs;
  encodable : storedAttrs → Prop;
  Unmarshal_Marshal s : encodable s → json_Unmarshal (json_Marshal s) = Ok (omitempty s);
  Unmarshal_Err d e : json_Unmarshal d = Err e → machine_error e;
}.

(** [mu] is the identity of the mutex. *)
Record Bucket := mkBucket {
  root : path;
  prefix : string;
  mu : nat;
}.

(** [New] with a mutex that no other [New] has been given. *)
Definition New (fresh : nat) (dir : path) : Bucket := mkBucket dir "" fresh.

Definition Sub (b : Bucket) (p : string) : Bucket := mkBucket (root b) (prefix b +:+ p) (mu b).

Definition objectKey (b : Bucket) (key : string) : string := prefix b +:+ key.

Definition Capabilities_ : Capabilities := mkCapabilities true true true true true false false.

(** ** Paths *)

Definition dataSubdir : string := "data".
Definition metaSubdir : string := "meta".
Definition tempSubdir : string := "tmp".

Record objectPaths := mkPaths {
  p_data : path;
  p_meta : path;
}.

(** [securejoin]: the comparison is on strings, as in the code. *)
Definition securejoin (base : path) (rel : string) : result path :=
  let clean := join_clean base rel in
  if negb (bool_decide (render clean = render base))
     && negb (HasPrefix (render clean) (render base +:+ "/"))
  then Err ErrInvalidOption
  else if bool_decide (render clean = render base) then Err ErrInvalidOption
  else Ok clean.

Definition paths (b : Bucket) (key : string) : result objectPaths :=
  let full := objectKey b key in
  if bool_decide (full = "") then Err ErrInvalidOption
  else
    data ← securejoin (root b ++ [dataSubdir]) full;
    meta ← securejoin (root b ++ [metaSubdir]) full;
    Ok (mkPaths data meta).

(** ** Helpers *)

Definition mapError (err : error) : error := if Is err ErrNotExist then ErrNotFound else err.

(** [if err != nil { return mapError(err, key) }]. *)
Definition mapped {A : Type} (m : io A) : io A :=
  r ← attempt m;
  match r with
  | Err err => fail (mapError err)
  | Ok a => mret a
  end.

Definition conditionsPass (pre : Preconditions) (attrs : option Attributes) (exists_ : bool) : bool :=
  if p_IfNotExists pre then negb exists_
  else if negb (bool_decide (p_IfMatch pre = "")) then
    exists_ && match attrs with
               | Some a => bool_decide (a_Version a = p_IfMatch pre)
               | None => false
               end
  else if negb (bool_decide (p_IfNotMatch pre = "")) then
    negb exists_ || match attrs with
                    | Some a => negb (bool_decide (a_Version a = p_IfNotMatch pre))
                    | None => true
                    end
  else true.

Definition decodePageToken (token : bytes) : result Z :=
  if bool_decide (token = FirstPageToken) then Ok 0
  else match Atoi token with
       | Err _ => Err ErrInvalidOption
       | Ok offset => if bool_decide (offset < 0) then Err ErrInvalidOption else Ok offset
       end.

(** [Time.UnixNano] is an [int64]. *)
Definition UnixNano (t : Z) : Z := wrap64 t.

Definition deriveVersion (info : FileInfo) : string :=
  Itoa (UnixNano (fi_ModTime info)) +:+ "-" +:+ Itoa (fi_Size info).

Section driver.
Context `{GoTables} `{Json} (y : sysenv).

Definition mustMarshalAttrs (a : Attributes) : bytes :=
  json_Marshal (mkStored (a_Version a) (a_CacheControl a) (a_ContentDisposition a)
    (a_ContentEncoding a) (a_ContentLanguage a) (a_ContentType a) (a_Metadata a) (a_MD5 a)
    (a_Size a) (a_CreateTime a)).

(** [newVersion]: 16 random bytes in hex, or the clock when there are none. *)
Definition newVersion : io string := fun s =>
  match y_rand y (calls s) with
  | Ok buf => (Ok (EncodeToString buf), mkOs (nodes s) (S (calls s)))
  | Err _ => (Ok (Itoa (UnixNano (y_now y (calls s)))), mkOs (nodes s) (S (calls s)))
  end.

Definition newTemp (b : Bucket) : io path :=
  let dir := root b ++ [tempSubdir] in
  _ ← MkdirAll y dir;
  CreateTemp y dir.

(** [if err := m; err != nil { cleanup; return err }]. *)
Definition or_cleanup {A : Type} (m : io A) (cleanup : io unit) : io A :=
  r ← attempt m;
  match r with
  | Err err => _ ← cleanup; fail err
  | Ok a => mret a
  end.

(** The bytes, all of them, to an open file: the error of a short write. *)
Definition write_file (tmp : path) (d : bytes) : io unit :=
  r ← FileWrite y tmp d;
  match r with
  | (_, Some err) => fail err
  | (_, None) => mret tt
  end.

Definition writeFileAtomic (b : Bucket) (path : path) (data : bytes) : io unit :=
  tmp ← newTemp b;
  _ ← or_cleanup (write_file tmp data) (_ ← ignore (FileClose y); ignore (Remove y tmp));
  _ ← or_cleanup (Sync y) (_ ← ignore (FileClose y); ignore (Remove y tmp));
  _ ← or_cleanup (FileClose y) (ignore (Remove y tmp));
  or_cleanup (Rename y tmp path) (ignore (Remove y tmp)).

Definition commit (b : Bucket) (p : objectPaths) (data : bytes) (attrs : Attributes) : io unit :=
  _ ← MkdirAll y (parent (p_data p));
  _ ← MkdirAll y (parent (p_meta p));
  _ ← writeFileAtomic b (p_data p) data;
  writeFileAtomic b (p_meta p) (mustMarshalAttrs attrs).

(** The attributes [readAttributes] fills in from a sidecar. *)
Definition stored_attributes (info : FileInfo) (stored : storedAttrs) : Attributes :=
  mkAttributes (st_CacheControl stored) (st_ContentDisposition stored) (st_ContentEncoding stored)
    (st_ContentLanguage stored) (st_ContentType stored) (CloneMetadata (st_Metadata stored))
    (st_CreateTime stored) (fi_ModTime info)
    (if bool_decide (0 < st_Size stored) || negb (bool_decide (st_Version stored = ""))
     then st_Size stored else fi_Size info)
    (st_MD5 stored) (st_Version stored) None.

Definition bare_attributes (info : FileInfo) : Attributes :=
  mkAttributes "" "" "" "" "" None zeroTime (fi_ModTime info) (fi_Size info) "" (deriveVersion info) None.

Definition readAttributes (p : objectPaths) : io Attributes :=
  info ← mapped (Stat y (p_data p));
  sidecar ← attempt (ReadFile y (p_meta p));
  match sidecar with
  | Err err => if negb (Is err ErrNotExist) then fail err else mret (bare_attributes info)
  | Ok sidecar =>
    stored ← lift (json_Unmarshal sidecar);
    mret (stored_attributes info stored)
  end.

(** [statVersion]: [None] is "does not exist". *)
Definition statVersion (p : objectPaths) : io (option Attributes) :=
  attrs ← attempt (readAttributes p);
  match attrs with
  | Err err => if Is err ErrNotFound then mret None else fail err
  | Ok attrs => mret (Some attrs)
  end.

(** A context error ends the call. *)
Definition check_ctx (cx : ctx) : io unit :=
  match cx with Some err => fail err | None => mret tt end.

Definition check_hook (h : hook) : io unit :=
  match run_hook h with Some err => fail err | None => mret tt end.

(** ** Reads *)

Definition Attributes_ (cx : ctx) (b : Bucket) (key : string) : io Attributes :=
  _ ← check_ctx cx;
  p ← lift (paths b key);
  readAttributes p.

Definition Exists (cx : ctx) (b : Bucket) (key : string) : io bool :=
  r ← attempt (Attributes_ cx b key);
  match r with
  | Err err => if Is err ErrNotFound then mret false else fail err
  | Ok _ => mret true
  end.

Definition IsAccessible (cx : ctx) (b : Bucket) : io bool :=
  _ ← check_ctx cx;
  r ← attempt (Stat y (root b));
  match r with
  | Err err => if Is err ErrNotExist then mret false else fail err
  | Ok info => mret (fi_IsDir info)
  end.

Definition SignedURL (cx : ctx) : io string :=
  _ ← check_ctx cx;
  fail ErrUnsupported.

(** [io.SectionReader]: the part of a file from [sr_base] to [sr_limit], and the
    position in the file of the next read.  The driver's sections end at most at
    the object's size, so the sum does not reach the bound of an [int64] at which
    the library clips it. *)
Record section := mkSection {
  sr_base : Z;
  sr_off : Z;
  sr_limit : Z;
}.

Definition NewSectionReader (off n : Z) : section := mkSection off off (off + n).

(** The [reader]: the open file, the section of it to read, the attributes. *)
Record reader := mkReader {
  r_f : node;
  r_section : section;
  r_attrs : Attributes;
}.

Definition set_off (off : Z) (r : reader) : reader :=
  mkReader (r_f r) (mkSection (sr_base (r_section r)) off (sr_limit (r_section r))) (r_attrs r).

Definition reader_ContentType (r : reader) : string := a_ContentType (r_attrs r).
Definition reader_ModTime (r : reader) : Z := a_ModTime (r_attrs r).
Definition reader_Size (r : reader) : Z := a_Size (r_attrs r).

Definition NewRangeReader (cx : ctx) (b : Bucket) (key : string) (offset length : Z)
    (BeforeRead : hook) : io reader :=
  _ ← check_ctx cx;
  _ ← check_hook BeforeRead;
  if bool_decide (offset < 0) then fail ErrInvalidOption
  else
    p ← lift (paths b key);
    attrs ← readAttributes p;
    f ← mapped (Open y (p_data p));
    let size := a_Size attrs in
    let offset := if bool_decide (size < offset) then size else offset in
    let readLen := size - offset in
    let readLen := if bool_decide (0 ≤ length) && bool_decide (length < readLen) then length else readLen in
    mret (mkReader f (NewSectionReader offset readLen) attrs).

Definition NewReader (cx : ctx) (b : Bucket) (key : string) (BeforeRead : hook) : io reader :=
  NewRangeReader cx b key 0 (-1) BeforeRead.

(** [reader.Read] into a buffer of [len] bytes: what was read and the error,
    [io.EOF] at the end of the section or when the file is shorter. *)
Definition Read (len : Z) (r : reader) : io (bytes * option error * reader) :=
  let '(mkSection base off limit) := r_section r in
  if bool_decide (limit ≤ off) then mret ("", Some EOF, r)
  else
    let len := Z.min len (limit - off) in
    d ← attempt (ReadSection y (r_f r) off len);
    match d with
    | Err err => mret ("", Some err, r)
    | Ok d => mret (d, if bool_decide (strlen d < len) then Some EOF else None, set_off (off + strlen d) r)
    end.

(** [reader.Seek]. *)
Definition Seek (offset whence : Z) (r : reader) : result Z * reader :=
  let '(mkSection base off limit) := r_section r in
  let target :=
    if whence =? 0 then Some (wrap64 (offset + base))
    else if whence =? 1 then Some (wrap64 (offset + off))
    else if whence =? 2 then Some (wrap64 (offset + limit))
    else None in
  match target with
  | None => (Err (ErrOther "Seek: invalid whence"), r)
  | Some target =>
    if target <? base then (Err (ErrOther "Seek: invalid offset"), r)
    else (Ok (wrap64 (target - base)), set_off target r)
  end.

(** [reader.Close]. *)
Definition reader_Close (r : reader) : io unit := FileClose y.

(** Reading a reader to its end, as [io.ReadAll] and [io.Copy] do. *)
Definition read_to_end (r : reader) : io bytes :=
  let '(mkSection _ off limit) := r_section r in
  if bool_decide (limit ≤ off) then mret "" else ReadSection y (r_f r) off (limit - off).

Definition ReadAll (cx : ctx) (b : Bucket) (key : string) : io bytes :=
  r ← NewReader cx b key None;
  read_to_end r.

(** [Download]: [w] is what the destination writer answers to the bytes
    [io.Copy] hands it. *)
Definition Download (cx : ctx) (b : Bucket) (key : string) (BeforeRead : hook)
    (w : bytes → option error) : io bytes :=
  r ← NewReader cx b key BeforeRead;
  d ← read_to_end r;
  match w d with
  | Some err => fail err
  | None => mret d
  end.

(** ** Listing *)

(** The directory entry of a key with the delimiter in its rest, if any. *)
Definition dirKey (opts : ListOptions) (relativeKey : string) : option string :=
  if bool_decide (l_Delimiter opts = "") then None
  else
    let rest := TrimPrefix relativeKey (l_Prefix opts) in
    match Index rest (l_Delimiter opts) with
    | None => None
    | Some idx => Some (l_Prefix opts +:+ str_take (idx + String.length (l_Delimiter opts)) rest)
    end.

(** The loop of [listObjects] over the sorted keys. *)
Fixpoint list_loop (b : Bucket) (opts : ListOptions) (infos : gmap string FileInfo)
    (keys : list string) (seenDirs : gset string) : io (list ListObject) :=
  match keys with
  | [] => mret []
  | fullKey :: keys =>
    let relativeKey := TrimPrefix fullKey (prefix b) in
    match dirKey opts relativeKey with
    | Some dk =>
      if bool_decide (dk ∈ seenDirs) then list_loop b opts infos keys seenDirs
      else
        rest ← list_loop b opts infos keys ({[dk]} ∪ seenDirs);
        mret (mkListObject dk zeroTime 0 "" true :: rest)
    | None =>
      attrs ← attempt (readAttributes (mkPaths (join_clean (root b ++ [dataSubdir]) fullKey)
                                               (join_clean (root b ++ [metaSubdir]) fullKey)));
      let info := default (mkFileInfo false zeroTime 0) (infos !! fullKey) in
      let md5sum := match attrs with Ok a => a_MD5 a | Err _ => "" end in
      rest ← list_loop b opts infos keys seenDirs;
      mret (mkListObject relativeKey (fi_ModTime info) (fi_Size info) md5sum false :: rest)
    end
  end.

Definition listObjects (b : Bucket) (opts : ListOptions) : io (list ListObject) :=
  found ← WalkFiles y (root b ++ [dataSubdir]);
  let entries := (fun '(rel, info) => (rel_slash rel, info)) <$> found in
  let fullPrefix := objectKey b (l_Prefix opts) in
  let kept := filter (fun e : string * FileInfo => HasPrefix e.1 fullPrefix = true) entries in
  list_loop b opts (list_to_map kept) (merge_sort String.le kept.*1) ∅.

(** [ListPage]: [start+pageSize] is an [int] sum and wraps around; [None] is
    the panic of a slice expression whose bounds are crossed. *)
Definition ListPage (cx : ctx) (b : Bucket) (pageToken : bytes) (pageSize : Z)
    (opts : option ListOptions) : io (option (list ListObject * bytes)) :=
  _ ← check_ctx cx;
  if bool_decide (strlen pageToken = 0) then fail EOF
  else
    start ← lift (decodePageToken pageToken);
    let pageSize := if bool_decide (pageSize ≤ 0) then 1000 else pageSize in
    let opts := cloneListOptions opts in
    _ ← check_hook (l_BeforeList opts);
    results ← listObjects b opts;
    let len := Z.of_nat (length results) in
    if bool_decide (len ≤ start) then mret (Some ([], ""))
    else
      let end_ := Z.min (wrap64 (start + pageSize)) len in
      if bool_decide (start ≤ end_) then
        let page := take (Z.to_nat (end_ - start)) (drop (Z.to_nat start) results) in
        let next := if bool_decide (end_ < len) then Itoa end_ else "" in
        mret (Some (page, next))
      else mret None.

(** [List]: the iterator over [ListPage]. *)
Definition List_ (opts : option ListOptions) : ListIterator := NewListIterator opts.

(** ** Writes *)

(** A [writer]: [w_hashed] is what its MD5 state has been fed. *)
Record writer := mkWriter {
  w_bucket : Bucket;
  w_key : string;
  w_paths : objectPaths;
  w_tmp : path;
  w_opts : WriterOptions;
  w_preconditions : Preconditions;
  w_hashed : bytes;
  w_size : Z;
  w_closed : bool;
}.

Definition set_w_fed (hashed : bytes) (size : Z) (w : writer) : writer :=
  mkWriter (w_bucket w) (w_key w) (w_paths w) (w_tmp w) (w_opts w) (w_preconditions w)
    hashed size (w_closed w).
Definition set_w_closed (w : writer) : writer :=
  mkWriter (w_bucket w) (w_key w) (w_paths w) (w_tmp w) (w_opts w) (w_preconditions w)
    (w_hashed w) (w_size w) true.

Definition NewWriter (b : Bucket) (key : string) (opts : option WriterOptions)
    (pre : list (option Precondition)) : io writer :=
  compiled ← lift (CompilePreconditions pre);
  cloned ← lift (WriterOptions_Clone opts);
  _ ← check_hook (o_BeforeWrite cloned);
  p ← lift (paths b key);
  tmp ← newTemp b;
  mret (mkWriter b key p tmp cloned compiled "" 0 false).

Definition write_after_close : error := ErrOther "blobster file: write after close".
Definition read_from_after_close : error := ErrOther "blobster file: read from after close".

(** [writer.Write]: the writer, the bytes counted and the error. *)
Definition Write (cx : ctx) (p : bytes) (w : writer) : io (writer * Z * option error) :=
  if w_closed w then mret (w, 0, Some write_after_close)
  else
    match cx with
    | Some err => mret (w, 0, Some err)
    | None =>
      '(part, err) ← FileWrite y (w_tmp w) p;
      let n := strlen part in
      let w := if bool_decide (0 < n)
               then set_w_fed (w_hashed w +:+ part) (w_size w + n) w else w in
      mret (w, n, err)
    end.

(** [writer.ReadFrom]: the tee has hashed what was read, which may be more
    than what was written when a write fails. *)
Definition ReadFrom (cx : ctx) (r : source) (w : writer) : io (writer * Z * option error) :=
  if w_closed w then mret (w, 0, Some read_from_after_close)
  else
    match cx with
    | Some err => mret (w, 0, Some err)
    | None => fun s =>
      let i := calls s in
      (('(part, werr) ← FileWrite y (w_tmp w) (s_bytes r);
        let hashed := match werr with
                      | Some _ => str_take (String.length part + y_ahead y i) (s_bytes r)
                      | None => s_bytes r
                      end in
        let err := match werr with Some e => Some e | None => s_err r end in
        mret (set_w_fed (w_hashed w +:+ hashed) (w_size w + strlen part) w, strlen part, err)) s)
    end.

(** The attributes [writer.Close] stores. *)
Definition close_attrs (w : writer) (now : Z) (version : string) : Attributes :=
  mkAttributes (o_CacheControl (w_opts w)) (o_ContentDisposition (w_opts w))
    (o_ContentEncoding (w_opts w)) (o_ContentLanguage (w_opts w)) (o_ContentType (w_opts w))
    (CloneMetadata (o_Metadata (w_opts w))) now now (w_size w) (md5_Sum (w_hashed w)) version None.

(** [writer.Close] up to and including the test of the precondition, which is
    the first thing it does under the mutex: the attributes to be written. *)
Definition close_check (cx : ctx) (w : writer) : io Attributes :=
  _ ← or_cleanup (check_ctx cx) (ignore (FileClose y));
  let sum := md5_Sum (w_hashed w) in
  _ ← (if bool_decide (0 < strlen (o_ContentMD5 (w_opts w)))
          && negb (bool_decide (sum = o_ContentMD5 (w_opts w)))
       then _ ← ignore (FileClose y); fail ErrInvalidOption
       else mret tt);
  _ ← or_cleanup (Sync y) (ignore (FileClose y));
  _ ← FileClose y;
  now ← time_Now y;
  version ← newVersion;
  let attrs := close_attrs w now version in
  current ← statVersion (w_paths w);
  _ ← (if negb (conditionsPass (w_preconditions w) current (bool_decide (is_Some current)))
       then fail ErrPreconditionFailed else mret tt);
  mret attrs.

(** Its steps from there to the rename that makes the data file current. *)
Definition close_rename (w : writer) : io unit :=
  _ ← MkdirAll y (parent (p_data (w_paths w)));
  _ ← MkdirAll y (parent (p_meta (w_paths w)));
  Rename y (w_tmp w) (p_data (w_paths w)).

Definition close_data (cx : ctx) (w : writer) : io Attributes :=
  attrs ← close_check cx w;
  _ ← close_rename w;
  mret attrs.

(** The work of [writer.Close]: the deferred [os.Remove] runs unless the data
    file has been committed. *)
Definition close_commit (cx : ctx) (w : writer) : io unit :=
  attrs ← or_cleanup (close_data cx w) (ignore (Remove y (w_tmp w)));
  writeFileAtomic (w_bucket w) (p_meta (w_paths w)) (mustMarshalAttrs attrs).

(** [writer.Close]: the writer, closed, and the error. *)
Definition Close (cx : ctx) (w : writer) : io (writer * option error) :=
  if w_closed w then mret (w, None)
  else
    r ← attempt (close_commit cx w);
    mret (set_w_closed w, match r with Err err => Some err | Ok _ => None end).

(** [writer.CloseWithError]: its error is always nil. *)
Definition CloseWithError (w : writer) : io writer :=
  if w_closed w then mret w
  else
    _ ← ignore (FileClose y);
    _ ← ignore (Remove y (w_tmp w));
    mret (set_w_closed w).

(** The end of [WriteAll] and [Upload]: what was written is committed, or the
    writer is abandoned with the error of the write. *)
Definition finish (cx' : ctx) (w : writer) (err : option error) : io unit :=
  match err with
  | Some err => _ ← CloseWithError w; fail (Join err None)
  | None =>
    '(_, err) ← Close cx' w;
    match err with Some err => fail err | None => mret tt end
  end.

(** [WriteAll]; [cx] is the context at the write, [cx'] at the commit.  Only the
    commit is under the mutex. *)
Definition WriteAll (cx cx' : ctx) (b : Bucket) (key : string) (p : bytes)
    (opts : option WriterOptions) (pre : list (option Precondition)) : io unit :=
  cloned ← lift (PrepareWriteAllOptions opts p);
  w ← NewWriter b key (Some cloned) pre;
  '(w, _, err) ← Write cx p w;
  finish cx' w err.

(** [Upload]: [io.Copy] into the writer is its [ReadFrom]. *)
Definition Upload (cx cx' : ctx) (b : Bucket) (key : string) (r : source)
    (opts : option WriterOptions) (pre : list (option Precondition)) : io unit :=
  cloned ← lift (RequireUploadOptions opts);
  w ← NewWriter b key (Some cloned) pre;
  '(w, _, err) ← ReadFrom cx r w;
  finish cx' w err.

(** What [Copy] and [UpdateMetadata] change in a clone of the attributes. *)
Definition copy_attrs (a : Attributes) (now : Z) (version : string) : Attributes :=
  mkAttributes (a_CacheControl a) (a_ContentDisposition a) (a_ContentEncoding a)
    (a_ContentLanguage a) (a_ContentType a) (a_Metadata a) now now (a_Size a) (a_MD5 a) version None.

Definition update_attrs (a : Attributes) (md : metadata) (version : string) : Attributes :=
  mkAttributes (a_CacheControl a) (a_ContentDisposition a) (a_ContentEncoding a)
    (a_ContentLanguage a) (a_ContentType a) (CloneMetadata md) (a_CreateTime a) (a_ModTime a)
    (a_Size a) (a_MD5 a) version (a_Native a).

Definition Copy (cx : ctx) (BeforeCopy : hook) (b : Bucket) (dstKey srcKey : string) : io unit :=
  _ ← check_ctx cx;
  _ ← check_hook BeforeCopy;
  src ← lift (paths b srcKey);
  dst ← lift (paths b dstKey);
  data ← mapped (ReadFile y (p_data src));
  srcAttrs ← readAttributes src;
  now ← time_Now y;
  version ← newVersion;
  commit b dst data (copy_attrs (Attributes_Clone srcAttrs) now version).

Definition Delete (cx : ctx) (b : Bucket) (key : string) (pre : list (option Precondition)) : io unit :=
  _ ← check_ctx cx;
  compiled ← lift (CompilePreconditions pre);
  p ← lift (paths b key);
  current ← statVersion p;
  match current with
  | None => fail ErrNotFound
  | Some current =>
    if negb (conditionsPass compiled (Some current) true) then fail ErrPreconditionFailed
    else
      _ ← mapped (Remove y (p_data p));
      ignore (Remove y (p_meta p))
  end.

Definition UpdateMetadata (cx : ctx) (b : Bucket) (key : string) (md : metadata) : io string :=
  _ ← check_ctx cx;
  normalized ← lift (NormalizeMetadata md);
  p ← lift (paths b key);
  current ← statVersion p;
  match current with
  | None => fail ErrNotFound
  | Some current =>
    version ← newVersion;
    let attrs := update_attrs (Attributes_Clone current) normalized version in
    _ ← writeFileAtomic b (p_meta p) (mustMarshalAttrs attrs);
    mret version
  end.

End driver.
End File.
