(* ===== verification/FileTheorems.v ===== *)
(** * Properties of the file driver

    Where keys may land, what an operation may touch, and what a write leaves
    behind when any of its system calls fails. *)
From S2P Require Import Prelude Strconv GoTime Md5 Core Filesystem FileDriver.
Import File.

(** ** Keys and paths *)

Lemma securejoin_spec base rel :
  Forall plain base →
  match securejoin base rel with
  | Ok p => p = join_clean base rel ∧ ∃ r, r ≠ [] ∧ p = base ++ r
  | Err e => e = ErrInvalidOption
  end.
Proof.
  intros Hb. pose proof (join_clean_plain base rel Hb) as Hj. unfold securejoin.
  destruct (HasPrefix _ _) eqn:E; cbn [negb andb]; rewrite ?andb_false_r, ?andb_true_r.
  - case_bool_decide; [done|]. split; [done|]. by apply render_below in E; try apply plain_noslash.
  - repeat case_bool_decide; done.
Qed.

(** The paths of a key, side by side below data/ and meta/. *)
Definition confined (b : Bucket) (p : objectPaths) : Prop :=
  ∃ r, r ≠ [] ∧ Forall plain r ∧
    p = mkPaths (root b ++ dataSubdir :: r) (root b ++ metaSubdir :: r).

Lemma plain_base b c : Forall plain (root b) → plain c → Forall plain (root b ++ [c]).
Proof. intros. apply Forall_app. split; [done|]. by constructor. Qed.

Lemma paths_confined b key p : Forall plain (root b) → paths b key = Ok p → confined b p.
Proof.
  intros Hroot. unfold paths. case_bool_decide; [done|].
  assert (Forall plain (root b ++ [dataSubdir])) as Hd by (by apply plain_base).
  assert (Forall plain (root b ++ [metaSubdir])) as Hm by (by apply plain_base).
  pose proof (securejoin_spec _ (objectKey b key) Hd) as Sd.
  pose proof (securejoin_spec _ (objectKey b key) Hm) as Sm.
  destruct (securejoin (root b ++ [dataSubdir]) _) as [d|]; [|done].
  destruct (securejoin (root b ++ [metaSubdir]) _) as [m|]; [|done].
  destruct Sd as (Jd & r & Hr & Ed), Sm as (Jm & r' & Hr' & Em). cbn. intros [= <-].
  pose proof (clean_pair (root b) dataSubdir metaSubdir (split_slash (objectKey b key))
                (root b ++ [dataSubdir]) (root b ++ [metaSubdir])) as Hp.
  fold (join_clean (root b ++ [dataSubdir]) (objectKey b key)) in Hp.
  fold (join_clean (root b ++ [metaSubdir]) (objectKey b key)) in Hp. rewrite <- Jd, <- Jm in Hp.
  rewrite <- app_assoc in Ed, Em. rewrite Ed in *. rewrite Em in *. clear d m Ed Em.
  destruct Hp as [(s & Es & Es')|E]; [left; by exists []|..].
  - apply app_inv_head in Es as [= ->]. apply app_inv_head in Es' as [= ->].
    exists s. split_and!; try done. pose proof (join_clean_plain _ (objectKey b key) Hd) as Hpl.
    rewrite <- Jd in Hpl. apply Forall_app in Hpl as [_ Hpl]. by apply Forall_cons in Hpl as [_ Hpl].
  - by apply app_inv_head in E.
Qed.

(** C17: whatever the key, [paths] refuses it with [ErrInvalidOption] or answers
    with two paths that have the same, non-empty, clean tail below data/ and
    below meta/: no key reaches the root, tmp/ or a path outside the bucket,
    and no data file is another key's sidecar.  (The root is a clean absolute
    path.) *)
Theorem file_paths_confined b key :
  Forall plain (root b) →
  match paths b key with
  | Ok p => ∃ r, r ≠ [] ∧ Forall plain r ∧
      p = mkPaths (root b ++ dataSubdir :: r) (root b ++ metaSubdir :: r)
  | Err e => e = ErrInvalidOption
  end.
Proof.
  intros Hroot. destruct (paths b key) as [p|e] eqn:E; [by eapply paths_confined|].
  revert E. unfold paths. case_bool_decide; [congruence|].
  pose proof (securejoin_spec (root b ++ [dataSubdir]) (objectKey b key)) as Sd.
  pose proof (securejoin_spec (root b ++ [metaSubdir]) (objectKey b key)) as Sm.
  destruct (securejoin (root b ++ [dataSubdir]) _); [|intros [= <-]; by apply Sd, plain_base].
  destruct (securejoin (root b ++ [metaSubdir]) _); [done|]. intros [= <-]. by apply Sm, plain_base.
Qed.

(** A base joined with clean components. *)
Lemma securejoin_clean base rel r :
  Forall plain base → r ≠ [] → Forall plain r → join_clean base rel = base ++ r → securejoin base rel = Ok (base ++ r).
Proof.
  intros Hb Hr Hpr E. unfold securejoin. rewrite E.
  assert (Forall noslash (base ++ r)) as Hn by (apply plain_noslash, Forall_app; done).
  assert (render (base ++ r) ≠ render base) as Hne.
  { intros E'%render_inj; [|done|by apply plain_noslash].
    apply Hr. rewrite <- (app_nil_r base) in E' at 2. by apply app_inv_head in E'. }
  rewrite !(bool_decide_false (render _ = render _)) by done.
  assert (HasPrefix (render (base ++ r)) (render base +:+ "/") = true) as ->; [|done].
  apply render_below; [done|by apply plain_noslash|]. by exists r.
Qed.

Lemma paths_clean b key r :
  Forall plain (root b) → r ≠ [] → Forall plain r → objectKey b key ≠ "" →
  (∀ base, join_clean base (objectKey b key) = base ++ r) →
  paths b key = Ok (mkPaths (root b ++ dataSubdir :: r) (root b ++ metaSubdir :: r)).
Proof.
  intros Hroot Hr Hpr Hk Hj. unfold paths. rewrite bool_decide_false by done.
  rewrite !(securejoin_clean _ _ r) by (done || by apply plain_base). cbn.
  by rewrite <- !app_assoc.
Qed.

Lemma rel_slash_nonempty c r : plain c → rel_slash (c :: r) ≠ "".
Proof. intros [Hc _] E. apply Hc. by apply string_app_eq_nil in E as [-> _]. Qed.

(** A key written in clean components is its own path. *)
Lemma paths_rel m dir c r :
  Forall plain dir → Forall plain (c :: r) →
  paths (New m dir) (rel_slash (c :: r)) = Ok (mkPaths (dir ++ dataSubdir :: c :: r) (dir ++ metaSubdir :: c :: r)).
Proof.
  intros Hd Hr. apply (paths_clean (New m dir)); try done.
  - apply rel_slash_nonempty. by inversion Hr.
  - intros base. by apply join_clean_rel.
Qed.

(** A [Sub] does not confine its keys to its prefix: through the [Sub] of
    tenant/ the key ../k names the object k of the whole bucket. *)
Theorem file_sub_escapes m dir tenant c r :
  Forall plain dir → plain tenant → Forall plain (c :: r) →
  paths (Sub (New m dir) (tenant +:+ "/")) ("../" +:+ rel_slash (c :: r)) = paths (New m dir) (rel_slash (c :: r)) ∧
  is_Ok (paths (New m dir) (rel_slash (c :: r))) = true.
Proof.
  intros Hd Ht Hr. rewrite paths_rel by done. split; [|done].
  apply (paths_clean (Sub (New m dir) (tenant +:+ "/"))); try done.
  - unfold objectKey. cbn [prefix Sub New]. intros [E _]%string_app_eq_nil.
    apply string_app_eq_nil in E as [_ E]. apply string_app_eq_nil in E as [-> _]. by destruct Ht.
  - intros base. unfold objectKey, join_clean. cbn [prefix Sub New].
    change ("" +:+ tenant +:+ "/") with (tenant +:+ "/").
    rewrite string_app_assoc, split_slash_app by apply Ht.
    change ("../" +:+ rel_slash (c :: r)) with (".." +:+ "/" +:+ rel_slash (c :: r)).
    rewrite split_slash_app by done. cbn [foldl]. rewrite (clean_step_push base tenant) by done. rewrite clean_step_pop.
    by apply join_clean_rel.
Qed.

(** ** What the operations touch *)

Section touch.
Context (b : Bucket) (p : objectPaths) (Hp : confined b p).

Definition tmp_path (q : path) : Prop := root b ++ [tempSubdir] `prefix_of` q.

Lemma not_tmp x r : x ≠ tempSubdir → ¬ tmp_path (root b ++ x :: r).
Proof.
  intros Hx [t E]. rewrite <- app_assoc in E. by apply app_inv_head in E as [= ? _].
Qed.

Lemma above_not_tmp q x r : x ≠ tempSubdir → above q (root b ++ x :: r) → ¬ tmp_path q.
Proof. intros Hx (t & _ & E) [u ->]. apply (not_tmp x r Hx). exists (u ++ t). by rewrite E, app_assoc. Qed.

Lemma data_not_tmp : ¬ tmp_path (p_data p).
Proof. destruct Hp as (r & _ & _ & ->). by apply not_tmp. Qed.
Lemma meta_not_tmp : ¬ tmp_path (p_meta p).
Proof. destruct Hp as (r & _ & _ & ->). by apply not_tmp. Qed.
Lemma above_data_not_tmp q : above q (p_data p) → ¬ tmp_path q.
Proof. destruct Hp as (r & _ & _ & ->). by apply above_not_tmp. Qed.
Lemma above_meta_not_tmp q : above q (p_meta p) → ¬ tmp_path q.
Proof. destruct Hp as (r & _ & _ & ->). by apply above_not_tmp. Qed.

Lemma above_length q l : above q l → (length q < length l)%nat.
Proof. intros ([|x r] & Hr & ->); [done|]. rewrite length_app. cbn. lia. Qed.

Lemma same_length : length (p_data p) = length (p_meta p).
Proof. destruct Hp as (r & _ & _ & ->). cbn. by rewrite !length_app. Qed.

Lemma data_not_above q : q = p_data p ∨ q = p_meta p → ¬ above (p_data p) q.
Proof. intros E Ha%above_length. pose proof same_length. destruct E as [-> | ->]; lia. Qed.
Lemma meta_not_above q : q = p_data p ∨ q = p_meta p → ¬ above (p_meta p) q.
Proof. intros E Ha%above_length. pose proof same_length. destruct E as [-> | ->]; lia. Qed.

Lemma data_ne_meta : p_data p ≠ p_meta p.
Proof. destruct Hp as (r & _ & _ & ->). cbn. intros E. by apply app_inv_head in E. Qed.

(** From [n] to [n'] nothing changed but temporary files, the paths [X], and
    new directories above the object's two files. *)
Definition quiet (X : list path) (n n' : tree) : Prop := ∀ q,
  q ∈ X ∨ tmp_path q ∨ n' !! q = n !! q ∨
  n !! q = None ∧ n' !! q = Some Dir ∧ (above q (p_data p) ∨ above q (p_meta p)).

Lemma quiet_refl n : quiet [] n n.
Proof. intros q. auto. Qed.

Lemma quiet_trans X Y n1 n2 n3 : quiet X n1 n2 → quiet Y n2 n3 → quiet (X ++ Y) n1 n3.
Proof.
  intros H1 H2 q. rewrite elem_of_app.
  destruct (H1 q) as [?|[?|[E1|(E1 & E1' & ?)]]]; [by auto..| |];
    destruct (H2 q) as [?|[?|[E2|(E2 & E2' & ?)]]]; try by auto.
  - right; right; left. congruence.
  - do 3 right. split_and!; [congruence|done..].
  - do 3 right. split_and!; [congruence..|done].
  - congruence.
Qed.

Lemma quiet_then X n1 n2 n3 : quiet X n1 n2 → quiet [] n2 n3 → quiet X n1 n3.
Proof. intros H1 H2. rewrite <- (app_nil_r X). by eapply quiet_trans. Qed.

Lemma quiet_insert_tmp q x n : tmp_path q → quiet [] n (<[q := x]> n).
Proof. intros Hq q'. rewrite lookup_insert. case_decide; subst; auto. Qed.

Lemma quiet_delete_tmp q n : tmp_path q → quiet [] n (delete q n).
Proof. intros Hq q'. rewrite lookup_delete. case_decide; subst; auto. Qed.

Lemma prefix_above q r l : q `prefix_of` r → above r l → above q l.
Proof. intros [t ->] (u & Hu & ->). exists (t ++ u). rewrite app_assoc. split; [|done]. by destruct t. Qed.

Lemma above_parent l : l ≠ [] → above (parent l) l.
Proof.
  intros Hl. destruct l as [|x l _] using rev_ind; [done|]. rewrite parent_app. by exists [x].
Qed.

(** The three directories the code asks for. *)
Inductive made : path → Prop :=
| made_tmp : made (root b ++ [tempSubdir])
| made_data : made (parent (p_data p))
| made_meta : made (parent (p_meta p)).

Lemma made_near d q : made d → q `prefix_of` d → tmp_path q ∨ above q (p_data p) ∨ above q (p_meta p).
Proof.
  destruct Hp as (r & Hr & _ & Ep).
  intros [] Hq.
  - destruct Hq as [t Et]. destruct t as [|x t _] using rev_ind.
    + rewrite app_nil_r in Et. left. exists []. by rewrite app_nil_r.
    + rewrite app_assoc in Et. apply app_inj_tail in Et as [Et _]. right; left. rewrite Ep. cbn.
      exists (t ++ dataSubdir :: r). rewrite app_assoc, <- Et. split; [by destruct t|done].
  - right; left. eapply prefix_above; [done|]. apply above_parent. rewrite Ep. cbn. by destruct (root b).
  - right; right. eapply prefix_above; [done|]. apply above_parent. rewrite Ep. cbn. by destruct (root b).
Qed.

Lemma make_dirs_quiet d k n : made d → quiet [] n (make_dirs [] (take k d) n).2.
Proof.
  intros Hd q. destruct (make_dirs [] (take k d) n) as [r n'] eqn:E. cbn.
  destruct (make_dirs_lookup _ _ _ _ _ q E) as [?|(? & ? & _ & Hq)]; [by auto|]. cbn in Hq.
  assert (q `prefix_of` d) as Hqd by (eapply transitivity; [exact Hq|apply prefix_take]).
  destruct (made_near d q Hd Hqd) as [?|?]; [by auto|]. by do 3 right.
Qed.

(** An open temporary file and its contents so far. *)
Definition temp (tmp : path) (c : bytes) (n : tree) : Prop :=
  tmp_path tmp ∧ ∃ t, n !! tmp = Some (Reg c t).

Lemma make_dirs_temp d k n tmp c : temp tmp c n → temp tmp c (make_dirs [] (take k d) n).2.
Proof.
  intros [Ht [t Hl]]. split; [done|]. exists t. destruct (make_dirs [] (take k d) n) as [r n'] eqn:E. cbn.
  destruct (make_dirs_lookup _ _ _ _ _ tmp E) as [-> |(? & _)]; congruence.
Qed.

Lemma dirs_parent n q : q ≠ [] → dirs n (parent q) → n !! parent q = Some Dir → dirs n q.
Proof.
  intros Hq. destruct q as [|x q _] using rev_ind; [done|]. rewrite parent_app. apply dirs_snoc.
Qed.

(** A file outside the changes is still there. *)
Lemma quiet_file X n n' q c :
  quiet X n n' → file n q c → q ∉ X → (∀ q', q' ∈ X → ¬ above q' q) → (q = p_data p ∨ q = p_meta p) →
  file n' q c.
Proof.
  intros Hq [Hd [t Ht]] Hx Hab Hq'. split.
  - intros q' Ha. specialize (Hd q' Ha). destruct (Hq q') as [?|[Htmp|[->|(? & _)]]]; [|..|done|congruence].
    + by destruct (Hab q').
    + destruct Hq' as [-> | ->]; [by destruct (above_data_not_tmp q')|by destruct (above_meta_not_tmp q')].
  - exists t. destruct (Hq q) as [?|[Htmp|[->|(? & _)]]]; [done| |done|congruence].
    destruct Hq' as [-> | ->]; [by destruct data_not_tmp|by destruct meta_not_tmp].
Qed.

(** ** The building blocks, under any faults *)

Context `{GoTables} `{Json} (y : sysenv).

(** The version token [newVersion] makes at the [i]-th call. *)
Definition version_of (i : nat) : string :=
  match y_rand y i with
  | Ok buf => EncodeToString buf
  | Err _ => Itoa (UnixNano (y_now y i))
  end.

Lemma hoare_time_Now P E : hoare P (time_Now y) (λ now n, P n ∧ ∃ i, now = y_now y i) E.
Proof. intros s Hs. cbn. by eauto. Qed.

Lemma hoare_newVersion P E : hoare P (newVersion y) (λ v n, P n ∧ ∃ i, v = version_of i) E.
Proof.
  intros s Hs. unfold newVersion. destruct (y_rand y (calls s)) eqn:Er;
    (split; [exact Hs|]); exists (calls s); unfold version_of; by rewrite Er.
Qed.

Lemma reads_newVersion : reads (newVersion y).
Proof. intros s. unfold newVersion. by destruct (y_rand y (calls s)). Qed.

Lemma reads_mapped {A : Type} (m : io A) : reads m → reads (mapped m).
Proof. intros Hm. unfold mapped. apply reads_bind; [by apply reads_attempt|]. intros []; auto with io. Qed.

Lemma reads_readAttributes q : reads (readAttributes y q).
Proof.
  unfold readAttributes. apply reads_bind; [apply reads_mapped; auto with io|]. intros info.
  apply reads_bind; [auto with io|]. intros []; [auto with io|]. destruct (negb _); auto with io.
Qed.

Lemma reads_statVersion q : reads (statVersion y q).
Proof.
  unfold statVersion. apply reads_bind; [apply reads_attempt, reads_readAttributes|].
  intros []; [auto with io|]. destruct (Is _ _); auto with io.
Qed.

(** Assertions of the steps of a write that began in the tree [n0]. *)
Section steps.
Context (X : list path) (n0 : tree).

Definition calm (n : tree) : Prop := quiet X n0 n.
Definition busy (tmp : path) (c : bytes) (n : tree) : Prop := calm n ∧ temp tmp c n.

Lemma hoare_MkdirAll d : made d → hoare calm (MkdirAll y d) (λ _, calm) (λ _, calm).
Proof.
  intros Hd. apply hoare_syscall.
  - intros i e n Hn. cbn. eapply quiet_then; [exact Hn|by apply make_dirs_quiet].
  - intros i n Hn. pose proof (make_dirs_quiet d (length d) n Hd) as Hq. rewrite firstn_all in Hq.
    destruct (make_dirs [] d n) as [[] n']; by eapply quiet_then.
Qed.

Lemma hoare_MkdirAll_busy d tmp c : made d → hoare (busy tmp c) (MkdirAll y d) (λ _, busy tmp c) (λ _, busy tmp c).
Proof.
  intros Hd. apply hoare_syscall.
  - intros i e n [Hn Ht]. cbn. split; [eapply quiet_then; [exact Hn|by apply make_dirs_quiet]|by apply make_dirs_temp].
  - intros i n [Hn Ht]. pose proof (make_dirs_quiet d (length d) n Hd) as Hq.
    pose proof (make_dirs_temp d (length d) n tmp c Ht) as Ht'. rewrite firstn_all in Hq, Ht'.
    destruct (make_dirs [] d n) as [[] n']; (split; [by eapply quiet_then|done]).
Qed.

Lemma hoare_newTemp : hoare calm (newTemp y b) (λ tmp, busy tmp "") (λ _, calm).
Proof.
  unfold newTemp. eapply hoare_bind; [apply hoare_MkdirAll, made_tmp|]. intros []. cbn beta.
  apply hoare_syscall; [by intros i e n Hn|]. intros i n Hn. cbn zeta.
  destruct (walk_path n _) as [[|? ?]|]; [|done..].
  destruct (n !! _) eqn:E; [done|].
  assert (tmp_path ((root b ++ [tempSubdir]) ++ ["w-" +:+ y_temp y i])) as Ht by (by eexists).
  split; [eapply quiet_then; [exact Hn|by apply quiet_insert_tmp]|].
  split; [done|]. eexists. apply lookup_insert_eq.
Qed.

(** Appending to the temporary file, whole or in part. *)
Lemma append_busy tmp c d now n : busy tmp c n → busy tmp (c +:+ d) (append tmp d now n).
Proof.
  intros [Hn [Ht [t Hl]]]. unfold append. rewrite Hl.
  split; [eapply quiet_then; [exact Hn|by apply quiet_insert_tmp]|].
  split; [done|]. eexists. apply lookup_insert_eq.
Qed.

Lemma hoare_FileWrite tmp c d :
  hoare (busy tmp c) (FileWrite y tmp d)
    (λ r n, busy tmp (c +:+ r.1) n ∧ (r.2 = None → r.1 = d)) (λ _ _, False).
Proof.
  apply hoare_syscall.
  - intros i e n Hn. cbn. split; [by apply append_busy|done].
  - intros i n Hn. cbn. split; [by apply append_busy|done].
Qed.

Lemma hoare_Remove_tmp tmp : tmp_path tmp → hoare calm (Remove y tmp) (λ _, calm) (λ _, calm).
Proof.
  intros Ht. apply hoare_syscall; [done|]. intros i n Hn.
  destruct (walk_path n tmp) as [[|? ?]|]; [destruct (is_empty_dir tmp n)|..]; try done;
    (eapply quiet_then; [exact Hn|by apply quiet_delete_tmp]).
Qed.

(** A step that may fail, and its cleanup. *)
Lemma hoare_or_cleanup {A : Type} P (m : io A) cleanup Q (E R : error → tree → Prop) :
  hoare P m Q R → (∀ e, hoare (R e) cleanup (λ _, E e) (λ _ _, False)) →
  hoare P (or_cleanup m cleanup) Q E.
Proof.
  intros Hm Hc s Hs. unfold or_cleanup, attempt, mbind, io_bind. specialize (Hm s Hs).
  destruct (m s) as [[a|e] s']; [done|]. specialize (Hc e s' Hm).
  destruct (cleanup s') as [[[]|e'] s'']; [done|by destruct Hc].
Qed.

Lemma hoare_cleanup tmp E (F : error → tree → Prop) :
  tmp_path tmp → (∀ n, calm n → E n) →
  hoare calm (ignore (Remove y tmp)) (λ _, E) F.
Proof.
  intros Ht HE. apply hoare_ignore. eapply hoare_conseq; [by apply hoare_Remove_tmp|done|..]; auto.
Qed.

Lemma hoare_reads_same {A : Type} P (m : io A) : reads m → hoare P m (λ _, P) (λ _, P).
Proof. intros Hm. by apply hoare_reads. Qed.

Lemma hoare_pure {A : Type} (φ : Prop) P (m : io A) Q E :
  (∀ n, P n → φ) → (φ → hoare P m Q E) → hoare P m Q E.
Proof. intros Hφ Hm s Hs. exact (Hm (Hφ _ Hs) s Hs). Qed.

(** Closing and removing a temporary file, whatever it holds. *)
Lemma hoare_discard tmp (F : error → tree → Prop) :
  hoare (λ n, ∃ c, busy tmp c n) (_ ← ignore (FileClose y); ignore (Remove y tmp)) (λ _, calm) F.
Proof.
  apply (hoare_pure (tmp_path tmp)); [by intros n (c & _ & ? & _)|]. intros Ht.
  eapply (hoare_bind _ _ _ (λ _, calm)); [|intros []; by apply hoare_cleanup].
  apply hoare_ignore. apply hoare_reads; [auto with io|..]; by intros ? n (c & ? & _).
Qed.

(** The rename that makes a finished temporary file current. *)
Lemma hoare_Rename tmp c q :
  q = p_data p ∨ q = p_meta p →
  hoare (busy tmp c) (Rename y tmp q) (λ _ n, quiet (X ++ [q]) n0 n ∧ file n q c) (λ _, calm).
Proof.
  intros Hq. apply hoare_syscall; [by intros i e n [Hn _]|]. intros i n [Hn [Ht [t Hl]]].
  destruct (walk_path n tmp) as [x|] eqn:Ew; [|done]. apply walk_path_Ok in Ew as [_ Ew].
  rewrite Hl in Ew. injection Ew as <-.
  destruct (walk_path n (parent q)) as [[|? ?]|] eqn:Ep; [|done..]. apply walk_path_Ok in Ep as [Hd Ep].
  assert (dirs n q) as Hdq.
  { apply dirs_parent; [|done..]. destruct Hp as (r & _ & _ & Er). rewrite Er in Hq. cbn in Hq.
    destruct Hq as [-> | ->]; by destruct (root b). }
  assert (¬ tmp_path q) as Hnt by (destruct Hq as [-> | ->]; [apply data_not_tmp|apply meta_not_tmp]).
  destruct (n !! q) as [[|? ?]|]; [done|..]; (split; [|split]).
  all: try (eexists; apply lookup_insert_eq).
  all: try (intros q' Ha; rewrite lookup_insert_ne by (intros <-; apply above_length in Ha; lia);
    rewrite lookup_delete_ne; [by apply Hdq|]; intros <-;
    destruct Hq as [-> | ->]; [by apply above_data_not_tmp in Ha|by apply above_meta_not_tmp in Ha]).
  all: eapply quiet_trans; [exact Hn|]; intros q'; rewrite lookup_insert; case_decide; [subst; left; by left|];
    right; rewrite lookup_delete; case_decide; subst; auto.
Qed.

Lemma hoare_writeFileAtomic q c :
  q = p_data p ∨ q = p_meta p →
  hoare calm (writeFileAtomic y b q c) (λ _ n, quiet (X ++ [q]) n0 n ∧ file n q c) (λ _, calm).
Proof.
  intros Hq. unfold writeFileAtomic. eapply hoare_bind; [apply hoare_newTemp|]. intros tmp.
  apply (hoare_pure (tmp_path tmp)); [by intros n [_ [? _]]|]. intros Ht.
  eapply hoare_bind; [eapply (hoare_or_cleanup _ _ _ (λ _, busy tmp c) _ (λ _ n, ∃ c', busy tmp c' n))|intros []].
  { unfold write_file. intros s Hs. pose proof (hoare_FileWrite tmp "" c s Hs) as Hw. unfold mbind, io_bind.
    destruct (FileWrite y tmp c s) as [[[part [err|]]|] s']; [|..|done]; destruct Hw as [Hw Hall].
    - by exists part.
    - by rewrite <- (Hall eq_refl). }
  { intros e. apply (hoare_discard tmp). }
  eapply hoare_bind; [eapply (hoare_or_cleanup _ _ _ (λ _, busy tmp c) _ (λ _ n, ∃ c', busy tmp c' n))|intros []].
  { apply hoare_reads; eauto with io. }
  { intros e. apply (hoare_discard tmp). }
  eapply hoare_bind; [eapply (hoare_or_cleanup _ _ _ (λ _, busy tmp c) _ (λ _, calm))|intros []].
  { apply hoare_reads; [auto with io|done|]. by intros e n [? _]. }
  { intros e. by apply hoare_cleanup. }
  eapply hoare_or_cleanup; [by apply hoare_Rename|]. intros e. by apply hoare_cleanup.
Qed.

End steps.

(** ** The precondition *)

(** Faults are errors of the machine: none says that a file does not exist,
    and none is a sentinel of the package. *)
Definition honest : Prop := ∀ i e, y_fault y i = Some e → ∃ t, e = ErrOther t ∧ e ≠ ErrNotExist.

(** What the object's two files say of it. *)
Definition current_at (n : tree) (cur : option Attributes) : Prop :=
  match cur with
  | None => n !! p_data p = None
  | Some a => ∃ x dir, n !! p_data p = Some x ∧
      let info := info_of dir x in
      (n !! p_meta p = None ∧ a = bare_attributes info ∨
       ∃ c t st, n !! p_meta p = Some (Reg c t) ∧ json_Unmarshal c = Ok st ∧ a = stored_attributes info st)
  end.

Lemma honest_fault i e : honest → y_fault y i = Some e → Is e ErrNotExist = false ∧ Is e ErrNotFound = false.
Proof.
  intros Hh Hf. destruct (Hh i e Hf) as (t & -> & Hne). split; [|done].
  unfold Is. rewrite bool_decide_false by done. done.
Qed.

Lemma honest_machine : honest → ∀ i e, y_fault y i = Some e → machine_error e.
Proof. intros Hh i e (t & -> & _)%Hh. by eexists. Qed.

(** The object's files are as they were unless they are in [X]. *)
Lemma quiet_other X n n' q : quiet X n n' → q = p_data p ∨ q = p_meta p → q ∉ X → n' !! q = n !! q.
Proof.
  intros Hq Hcase HX. destruct (Hq q) as [?|[Ht|[E|(_ & _ & Ha)]]]; [done|..|done|].
  - destruct Hcase as [-> | ->]; [by destruct data_not_tmp|by destruct meta_not_tmp].
  - exfalso. destruct Ha as [Ha|Ha]; apply above_length in Ha; pose proof same_length;
      destruct Hcase as [-> | ->]; lia.
Qed.

Lemma quiet_same n n' q : quiet [] n n' → q = p_data p ∨ q = p_meta p → n' !! q = n !! q.
Proof. intros Hq Hcase. eapply quiet_other; [exact Hq|done|by intros ?%elem_of_nil]. Qed.

(** A path that cannot be walked because something is missing. *)
Lemma walk_missing n n' q e :
  wf_tree n → quiet [] n n' → q = p_data p ∨ q = p_meta p →
  walk_path n' q = Err e → Is e ErrNotExist = true → n !! q = None.
Proof.
  intros Hwf Hq Hcase Hw _. destruct (n !! q) as [x|] eqn:E; [|done].
  assert (walk_path n' q = Ok x) as Hw'; [|by rewrite Hw in Hw'].
  apply walk_path_Ok. rewrite (quiet_same n n') by done. split; [|done].
  intros q' Ha. pose proof (Hwf q ltac:(by eexists) q' Ha) as Hd.
  destruct (Hq q') as [[]%elem_of_nil|[Ht|[->|(? & _)]]]; [|done|congruence].
  destruct Hcase as [-> | ->]; [by apply above_data_not_tmp in Ha|by apply above_meta_not_tmp in Ha].
Qed.

Lemma Stat_inv q s r s' :
  honest → Stat y q s = (r, s') →
  nodes s' = nodes s ∧
  match r with
  | Ok info => ∃ x dir, walk_path (nodes s) q = Ok x ∧ info = info_of dir x
  | Err e => Is e ErrNotFound = false ∧ (Is e ErrNotExist = true → walk_path (nodes s) q = Err e)
  end.
Proof.
  intros Hh. unfold Stat, syscall. destruct (y_fault y (calls s)) as [e|] eqn:Hf; cbn.
  - intros [= <- <-]. split; [done|]. destruct (honest_fault _ _ Hh Hf) as [-> ->]. done.
  - destruct (walk_path (nodes s) q) as [x|e] eqn:Ew; cbn; intros [= <- <-]; (split; [done|]); [by eauto|].
    split; [|done]. by apply walk_path_Err in Ew as [-> | ->].
Qed.

Lemma ReadFile_inv q s r s' :
  honest → ReadFile y q s = (r, s') →
  nodes s' = nodes s ∧
  match r with
  | Ok c => ∃ t, walk_path (nodes s) q = Ok (Reg c t)
  | Err e => Is e ErrNotFound = false ∧ (Is e ErrNotExist = true → walk_path (nodes s) q = Err e)
  end.
Proof.
  intros Hh. unfold ReadFile, syscall. destruct (y_fault y (calls s)) as [e|] eqn:Hf; cbn.
  - intros [= <- <-]. split; [done|]. destruct (honest_fault _ _ Hh Hf) as [-> ->]. done.
  - destruct (walk_path (nodes s) q) as [[|c t]|e] eqn:Ew; cbn; intros [= <- <-]; (split; [done|]); [done|by eauto|].
    split; [|done]. by apply walk_path_Err in Ew as [-> | ->].
Qed.

(** What [readAttributes] and [statVersion] find is what the files said when the
    call began; their other errors are the machine's. *)
Lemma readAttributes_current n0 s r s' :
  honest → wf_tree n0 → quiet [] n0 (nodes s) → readAttributes y p s = (r, s') →
  match r with
  | Ok a => current_at n0 (Some a)
  | Err e => e = ErrNotFound ∧ current_at n0 None ∨ machine_error e
  end.
Proof.
  intros Hh Hwf Hq. unfold readAttributes, mapped, attempt, mbind, io_bind.
  destruct (Stat y (p_data p) s) as [ri s1] eqn:Es.
  pose proof (raises_Stat y (honest_machine Hh) (p_data p) s) as Hmi. rewrite Es in Hmi.
  apply Stat_inv in Es as [E1 Hi]; [|done]. destruct ri as [info|e]; cbn.
  2: { intros [= <- _]. unfold mapError. destruct (Is e ErrNotExist) eqn:Ee; [left|right; by eapply Hmi].
       destruct Hi as [_ Hw]. split; [done|]. cbn. eapply walk_missing; eauto. }
  destruct Hi as (x & dir & Hx & ->). apply walk_path_Ok in Hx as [_ Hx].
  rewrite (quiet_same n0) in Hx by auto.
  destruct (ReadFile y (p_meta p) s1) as [rm s2] eqn:Em.
  pose proof (raises_ReadFile y (honest_machine Hh) (p_meta p) s1) as Hmm. rewrite Em in Hmm.
  apply ReadFile_inv in Em as [E2 Hm]; [|done]. rewrite E1 in Hm. destruct rm as [c|e]; cbn.
  - destruct Hm as [t Ht]. apply walk_path_Ok in Ht as [_ Ht]. rewrite (quiet_same n0) in Ht by auto.
    unfold lift. destruct (json_Unmarshal c) as [st|e] eqn:Ej; intros [= <- _]; [|right; by eapply Unmarshal_Err].
    exists x, dir. split; [done|]. right. by exists c, t, st.
  - destruct Hm as [_ Hw]. destruct (Is e ErrNotExist) eqn:Ee; cbn; intros [= <- _]; [|right; by eapply Hmm].
    exists x, dir. split; [done|]. left. split; [|done]. eapply walk_missing; eauto.
Qed.

Lemma statVersion_current n0 s r s' :
  honest → wf_tree n0 → quiet [] n0 (nodes s) → statVersion y p s = (r, s') →
  match r with Ok cur => current_at n0 cur | Err e => machine_error e end.
Proof.
  intros Hh Hwf Hq. unfold statVersion, attempt, mbind, io_bind.
  destruct (readAttributes y p s) as [ra s1] eqn:Er. apply (readAttributes_current n0) in Er; [|done..].
  destruct ra as [a|e]; [by intros [= <- _]|]. destruct Er as [[-> Hc]|[t ->]]; cbn; intros [= <- _]; [done|by eexists].
Qed.

(** ** The commit of a write that began in [n0] *)

Section commit.
Context (n0 : tree) (Hh : honest) (Hwf : wf_tree n0).

(** The object's precondition holds in [n0]. *)
Definition passes (pre : Preconditions) : Prop :=
  ∃ cur, current_at n0 cur ∧ conditionsPass pre cur (bool_decide (is_Some cur)) = true.

Definition refuses (pre : Preconditions) : Prop :=
  ∃ cur, current_at n0 cur ∧ conditionsPass pre cur (bool_decide (is_Some cur)) = false.

(** The errors of a write: those that come from [outside] (a context, a callback,
    a source), those of the machine, a bad option, or a precondition that does not
    hold. *)
Definition blame (outside : error → Prop) (pre : Preconditions) (e : error) : Prop :=
  outside e ∨ machine_error e ∨ e = ErrInvalidOption ∨ e = ErrPreconditionFailed ∧ refuses pre.

(** The data file is the new one, the sidecar still the old one. *)
Definition half (pre : Preconditions) (d : bytes) (n : tree) : Prop :=
  quiet [p_data p] n0 n ∧ file n (p_data p) d ∧ passes pre.

Lemma hoare_current pre tmp c :
  hoare (busy [] n0 tmp c)
    (current ← statVersion y p;
     if negb (conditionsPass pre current (bool_decide (is_Some current)))
     then fail ErrPreconditionFailed else mret tt)
    (λ _ n, busy [] n0 tmp c n ∧ passes pre)
    (λ e n, busy [] n0 tmp c n ∧ (machine_error e ∨ e = ErrPreconditionFailed ∧ refuses pre)).
Proof.
  intros s Hs. unfold mbind, io_bind. pose proof (reads_statVersion p s) as Hr.
  destruct (statVersion y p s) as [r s'] eqn:Es. cbn in Hr. apply (statVersion_current n0) in Es; [|done..|apply Hs].
  destruct r as [cur|e]; [|rewrite Hr; by auto].
  destruct (conditionsPass pre cur _) eqn:Ec; cbn; rewrite Hr; (split; [done|]); [by exists cur|].
  right. split; [done|]. by exists cur.
Qed.

(** The check, and what follows it. *)
Lemma hoare_checked {A : Type} pre tmp c (k : io A) Q (E : error → tree → Prop) :
  (∀ e n, busy [] n0 tmp c n ∧ (machine_error e ∨ e = ErrPreconditionFailed ∧ refuses pre) → E e n) →
  (passes pre → hoare (busy [] n0 tmp c) k Q E) →
  hoare (busy [] n0 tmp c)
    (current ← statVersion y p;
     _ ← (if negb (conditionsPass pre current (bool_decide (is_Some current)))
          then fail ErrPreconditionFailed else mret tt);
     k) Q E.
Proof.
  intros HE Hk s Hs. pose proof (hoare_current pre tmp c s Hs) as Hc. unfold mbind, io_bind in Hc |- *.
  destruct (statVersion y p s) as [[cur|e] s']; [|by apply HE].
  destruct (conditionsPass pre cur _); cbn in Hc |- *; [|by apply HE]. destruct Hc as [Hc Hpass]. by apply Hk.
Qed.

(** The directories and the rename. *)
Lemma hoare_close_rename w c :
  w_paths w = p → passes (w_preconditions w) →
  hoare (busy [] n0 (w_tmp w) c) (close_rename y w)
    (λ _ n, half (w_preconditions w) c n) (λ e n, (calm [] n0 n ∧ tmp_path (w_tmp w)) ∧ machine_error e).
Proof.
  intros Ep Hpass. unfold close_rename. rewrite Ep. set (tmp := w_tmp w). pose proof (honest_machine Hh) as Hm.
  apply (hoare_pure (tmp_path tmp)); [by intros n [_ [? _]]|]. intros Ht.
  apply hoare_raises; [|auto 10 with io].
  eapply (hoare_bind _ _ _ (λ _, busy [] n0 tmp c)); [|intros []].
  { eapply hoare_conseq; [apply hoare_MkdirAll_busy, made_data|done|done|by intros e n [? _]]. }
  eapply (hoare_bind _ _ _ (λ _, busy [] n0 tmp c)); [|intros []].
  { eapply hoare_conseq; [apply hoare_MkdirAll_busy, made_meta|done|done|by intros e n [? _]]. }
  eapply hoare_conseq; [apply hoare_Rename; by left|done|by intros [] n [Hq Hf]|by intros e n].
Qed.

Lemma hoare_close_check cx w c :
  w_paths w = p →
  hoare (busy [] n0 (w_tmp w) c) (close_check y cx w)
    (λ a n, busy [] n0 (w_tmp w) c n ∧ passes (w_preconditions w) ∧ ∃ i j, a = close_attrs w (y_now y i) (version_of j))
    (λ e n, (calm [] n0 n ∧ tmp_path (w_tmp w)) ∧ blame (λ e, cx = Some e) (w_preconditions w) e).
Proof.
  intros Ep. set (B := busy [] n0 (w_tmp w) c). set (pre := w_preconditions w).
  set (bl := blame (λ e, cx = Some e) pre).
  assert (∀ n, B n → calm [] n0 n ∧ tmp_path (w_tmp w)) as HB by (by intros n [? [? _]]).
  assert (∀ F, hoare B (ignore (FileClose y)) (λ _, B) F) as Hclose.
  { intros F. apply hoare_ignore, hoare_reads_same; auto with io. }
  assert (∀ e, hoare (λ n, B n ∧ bl e) (ignore (FileClose y))
            (λ _ n, (calm [] n0 n ∧ tmp_path (w_tmp w)) ∧ bl e) (λ _ _, False)) as Hdrop.
  { intros e. apply (hoare_pure (bl e)); [by intros n [_ ?]|]. intros He.
    eapply hoare_conseq; [apply (Hclose (λ _ _, False))|by intros n [? _]|by auto|done]. }
  pose proof (honest_machine Hh) as Hm. assert (∀ e, machine_error e → bl e) as Hbl by (by right; left).
  unfold close_check.
  eapply (hoare_bind _ _ _ (λ _, B)); [|intros []].
  { eapply (hoare_or_cleanup _ _ _ _ _ (λ e n, B n ∧ bl e)); [|apply Hdrop].
    destruct cx; [apply hoare_fail|by apply hoare_ret]. split; [done|by left]. }
  eapply (hoare_bind _ _ _ (λ _, B)); [|intros []].
  { destruct (_ && _); [|by apply hoare_ret]. eapply hoare_bind; [apply Hclose|]. intros [].
    apply hoare_fail. intros n Hn. split; [by apply HB|]. by right; right; left. }
  eapply (hoare_bind _ _ _ (λ _, B)); [|intros []].
  { eapply (hoare_or_cleanup _ _ _ _ _ (λ e n, B n ∧ bl e)); [|apply Hdrop].
    apply hoare_raises; [apply hoare_reads_same; auto with io|]. eapply raises_mono; [exact Hbl|auto with io]. }
  eapply (hoare_bind _ _ _ (λ _, B)); [|intros []].
  { apply hoare_raises; [apply hoare_reads; auto with io|]. eapply raises_mono; [exact Hbl|auto with io]. }
  eapply hoare_bind; [apply (hoare_time_Now B)|intros now].
  apply (hoare_pure (∃ i, now = y_now y i)); [by intros n [_ ?]|]. intros [i ->].
  eapply hoare_bind; [apply hoare_newVersion|intros v].
  apply (hoare_pure (∃ j, v = version_of j)); [by intros n [_ ?]|]. intros [j ->].
  rewrite Ep. fold pre. eapply hoare_conseq; [|by intros n [[Hn _] _]; exact Hn|intros a n Ha; exact Ha|intros e n He; exact He].
  apply hoare_checked.
  - intros e n [Hn He]. split; [by apply HB|]. destruct He as [?|?]; [by apply Hbl|by right; right; right].
  - intros Hpass. apply hoare_ret. intros n Hn. split_and!; [done|done|]. by eauto.
Qed.

Lemma hoare_close_data cx w c :
  w_paths w = p → w_bucket w = b →
  hoare (busy [] n0 (w_tmp w) c) (close_data y cx w)
    (λ a n, half (w_preconditions w) c n ∧ ∃ i j, a = close_attrs w (y_now y i) (version_of j))
    (λ e n, (calm [] n0 n ∧ tmp_path (w_tmp w)) ∧ blame (λ e, cx = Some e) (w_preconditions w) e).
Proof.
  intros Ep Eb. eapply hoare_bind; [by apply hoare_close_check|]. intros a.
  apply (hoare_pure (passes (w_preconditions w) ∧ ∃ i j, a = close_attrs w (y_now y i) (version_of j))); [by intros n [_ ?]|].
  intros [Hpass Ha]. eapply hoare_bind.
  - eapply hoare_conseq; [by apply hoare_close_rename|by intros n [? _]|intros u n Hu; exact Hu|].
    intros e n [? ?]. split; [done|]. by right; left.
  - intros u. apply hoare_ret. auto.
Qed.

(** A commit whose steps all succeed is its halves, one after the other. *)
Lemma close_commit_halves cx w attrs s s1 s2 s3 :
  close_check y cx w s = (Ok attrs, s1) → close_rename y w s1 = (Ok tt, s2) →
  writeFileAtomic y (w_bucket w) (p_meta (w_paths w)) (mustMarshalAttrs attrs) s2 = (Ok tt, s3) →
  close_commit y cx w s = (Ok tt, s3).
Proof.
  intros E1 E2 E3. unfold close_commit, or_cleanup, attempt, close_data, mbind, io_bind. by rewrite E1, E2.
Qed.

Lemma raises_or_cleanup {A : Type} R (m : io A) cleanup : raises R m → raises R cleanup → raises R (or_cleanup m cleanup).
Proof.
  intros Hm Hc s e s'. unfold or_cleanup, attempt, mbind, io_bind. destruct (m s) as [[a|e1] s1] eqn:E; [done|].
  destruct (cleanup s1) as [[[]|e2] s2] eqn:E2; intros [= <- _]; [by eapply Hm|by eapply Hc].
Qed.

Lemma raises_newTemp : raises machine_error (newTemp y b).
Proof. pose proof (honest_machine Hh). unfold newTemp. auto with io. Qed.

Lemma raises_writeFileAtomic q c : raises machine_error (writeFileAtomic y b q c).
Proof.
  pose proof (honest_machine Hh) as Hm. unfold writeFileAtomic.
  apply raises_bind; [apply raises_newTemp|]. intros tmp.
  apply raises_bind; [apply raises_or_cleanup; [|auto with io]|intros _].
  { intros s e s'. unfold write_file, FileWrite, syscall, mbind, io_bind. destruct (y_fault y (calls s)) eqn:Ef; [|done].
    intros [= <- _]. by eapply Hm. }
  repeat (apply raises_bind; [apply raises_or_cleanup; auto with io|intros _]). apply raises_or_cleanup; auto with io.
Qed.

(** The whole of [writer.Close]: all of it, none of it, or the data file
    without its sidecar. *)
Lemma hoare_close_commit cx w c :
  w_paths w = p → w_bucket w = b →
  hoare (busy [] n0 (w_tmp w) c) (close_commit y cx w)
    (λ _ n, quiet [p_data p; p_meta p] n0 n ∧ passes (w_preconditions w) ∧ file n (p_data p) c ∧
            ∃ i j, file n (p_meta p) (mustMarshalAttrs (close_attrs w (y_now y i) (version_of j))))
    (λ e n, calm [] n0 n ∧ blame (λ e, cx = Some e) (w_preconditions w) e ∨
            half (w_preconditions w) c n ∧ machine_error e).
Proof.
  intros Ep Eb. unfold close_commit. eapply hoare_bind.
  - eapply hoare_or_cleanup.
    + eapply hoare_conseq; [by apply hoare_close_data|done|intros a n Ha; exact Ha|intros e n He; exact He].
    + intros e. apply (hoare_pure (tmp_path (w_tmp w))); [by intros n [[_ ?] _]|]. intros Ht.
      apply (hoare_pure (blame (λ e, cx = Some e) (w_preconditions w) e)); [by intros n [_ ?]|]. intros He.
      eapply hoare_conseq; [by apply (hoare_cleanup [] n0 (w_tmp w) (λ n, calm [] n0 n) (λ _ _, False))|..]; auto.
      by intros n [[? _] _].
  - intros a s ([Hq [Hf Hpass]] & i & j & ->). rewrite Ep, Eb.
    pose proof (hoare_writeFileAtomic [] (nodes s) (p_meta p) (mustMarshalAttrs (close_attrs w (y_now y i) (version_of j)))
                  ltac:(by right) s (quiet_refl _)) as Hw.
    pose proof (raises_writeFileAtomic (p_meta p) (mustMarshalAttrs (close_attrs w (y_now y i) (version_of j))) s) as Hr.
    destruct (writeFileAtomic _ _ _ _ s) as [[[]|e] s'].
    + destruct Hw as [Hq' Hf']. split_and!; [exact (quiet_trans [p_data p] [p_meta p] _ _ _ Hq Hq')|done| |by eauto].
      eapply (quiet_file [p_meta p]); [exact Hq'|done|..|by left].
      * rewrite list_elem_of_singleton. apply data_ne_meta.
      * intros q ->%list_elem_of_singleton. apply meta_not_above. by left.
    + right. split; [|by eapply Hr]. split_and!; [by eapply quiet_then|..|done].
      eapply (quiet_file []); [exact Hw|done|by intros ?%elem_of_nil|by intros q ?%elem_of_nil|by left].
Qed.

(** The attributes a write of [d] with the options [o] stores. *)
Definition written_attrs (o : WriterOptions) (d : bytes) (now : Z) (version : string) : Attributes :=
  mkAttributes (o_CacheControl o) (o_ContentDisposition o) (o_ContentEncoding o) (o_ContentLanguage o)
    (o_ContentType o) (o_Metadata o) now now (strlen d) (md5_Sum d) version None.

(** Both files are those of a write of [d]. *)
Definition whole (pre : Preconditions) (o : WriterOptions) (d : bytes) (n : tree) : Prop :=
  quiet [p_data p; p_meta p] n0 n ∧ passes pre ∧ file n (p_data p) d ∧
  ∃ i j, file n (p_meta p) (mustMarshalAttrs (written_attrs o d (y_now y i) (version_of j))).

(** What a write that returns the error [e] leaves behind: nothing, for a reason
    of its own or because the precondition does not hold; or half of the object. *)
Definition unwritten (outside : error → Prop) (pre : list (option Precondition)) (d : bytes) (e : error) (n : tree) : Prop :=
  calm [] n0 n ∧ (outside e ∨ machine_error e ∨ e = ErrInvalidOption) ∨
  (calm [] n0 n ∧ e = ErrPreconditionFailed ∧ ∃ c, CompilePreconditions pre = Ok c ∧ refuses c) ∨
  machine_error e ∧ ∃ c, CompilePreconditions pre = Ok c ∧ half c d n.

Lemma unwritten_cases outside pre d e n :
  unwritten outside pre d e n → calm [] n0 n ∨ ∃ c, CompilePreconditions pre = Ok c ∧ half c d n.
Proof. intros [[? _]|[[? _]|[_ ?]]]; auto. Qed.

Lemma hoare_CloseWithError w c :
  w_closed w = false →
  hoare (busy [] n0 (w_tmp w) c) (CloseWithError y w) (λ _, calm [] n0) (λ _ _, False).
Proof.
  intros Hc. unfold CloseWithError. rewrite Hc.
  apply (hoare_pure (tmp_path (w_tmp w))); [by intros n [_ [? _]]|]. intros Ht.
  eapply (hoare_bind _ _ _ (λ _, calm [] n0)); [|intros []].
  - apply hoare_ignore. apply hoare_reads; [auto with io|..]; by intros ? n [? _].
  - eapply hoare_bind; [by apply hoare_cleanup|]. intros []. by apply hoare_ret.
Qed.

(** Errors that come to a write from outside. *)
Context (outside : error → Prop).

(** The end of a [WriteAll] or an [Upload] whose temporary file holds [d]. *)
Lemma hoare_finish cx' w err d :
  w_paths w = p → w_bucket w = b → w_closed w = false →
  (err = None → w_hashed w = d ∧ w_size w = strlen d) →
  (∀ e, err = Some e → outside e ∨ machine_error e) → (∀ e, cx' = Some e → outside e) →
  hoare (busy [] n0 (w_tmp w) d) (finish y cx' w err)
    (λ _ n, err = None ∧ whole (w_preconditions w) (w_opts w) d n)
    (λ e n, calm [] n0 n ∧ blame outside (w_preconditions w) e ∨
            err = None ∧ half (w_preconditions w) d n ∧ machine_error e).
Proof.
  intros Ep Eb Ec Herr Hout Hcx. unfold finish. destruct err as [e|].
  - eapply (hoare_bind _ _ _ (λ _, calm [] n0)).
    + eapply hoare_conseq; [by apply hoare_CloseWithError|done|done|done].
    + intros w'. apply hoare_fail. intros n Hn. left. split; [done|]. destruct (Hout e eq_refl); [by left|by right; left].
  - destruct (Herr eq_refl) as [Hhash Hsize]. intros s Hs. unfold Close. rewrite Ec.
    pose proof (hoare_close_commit cx' w d Ep Eb s Hs) as Hc. unfold attempt, mbind, io_bind.
    destruct (close_commit y cx' w s) as [[[]|e] s']; cbn.
    + destruct Hc as (Hq & Hpass & Hf & i & j & Hm). split; [done|]. split_and!; try done. exists i, j.
      unfold close_attrs in Hm. rewrite Hhash, Hsize, CloneMetadata_id in Hm. exact Hm.
    + destruct Hc as [[? He]|?]; [|by right]. left. split; [done|]. destruct He as [?|?]; [left; by apply Hcx|by right].
Qed.

Lemma hoare_NewWriter key o pre :
  paths b key = Ok p → (∀ e, run_hook (o_BeforeWrite o) = Some e → outside e) →
  let opts := Some o in
  hoare (calm [] n0) (NewWriter y b key opts pre)
    (λ w n, (∃ compiled cloned tmp, CompilePreconditions pre = Ok compiled ∧ WriterOptions_Clone opts = Ok cloned ∧
               w = mkWriter b key p tmp cloned compiled "" 0 false) ∧ busy [] n0 (w_tmp w) "" n)
    (λ e n, calm [] n0 n ∧ (outside e ∨ machine_error e ∨ e = ErrInvalidOption)).
Proof.
  intros Hpa Hhook opts. unfold NewWriter. pose proof (honest_machine Hh) as Hm.
  destruct (CompilePreconditions pre) as [compiled|e] eqn:Ec; [apply hoare_lift_Ok|].
  2: { apply CompilePreconditions_Err in Ec as ->. apply hoare_fail. by auto. }
  destruct (WriterOptions_Clone opts) as [cloned|e] eqn:Ecl; [apply hoare_lift_Ok|].
  2: { apply Clone_Err in Ecl as ->. apply hoare_fail. by auto. }
  eapply (hoare_bind _ _ _ (λ _, calm [] n0)); [|intros []].
  { unfold check_hook. destruct (run_hook (o_BeforeWrite cloned)) as [e|] eqn:Er; [|by apply hoare_ret].
    apply hoare_fail. intros n Hn. split; [done|]. left. apply Hhook. cbn in Ecl.
    destruct (NormalizeMetadata _); cbn in Ecl; [|done]. by injection Ecl as <-. }
  rewrite Hpa. apply hoare_lift_Ok. eapply hoare_bind.
  { eapply hoare_conseq; [apply hoare_raises, raises_newTemp; apply hoare_newTemp|done|intros a n Ha; exact Ha|by intros e n [??]; auto]. }
  intros tmp. apply hoare_ret. intros n Hn. split; [|done]. by exists compiled, cloned, tmp.
Qed.

(** What the two ways of filling a fresh writer leave: some bytes in its
    temporary file, all of them and hashed when there was no error. *)
Definition filled (d : bytes) (w : writer) (r : writer * Z * option error) (n : tree) : Prop :=
  ∃ part hashed, busy [] n0 (w_tmp w) part n ∧ r.1.1 = set_w_fed hashed (strlen part) w ∧
    (r.2 = None → part = d ∧ hashed = d) ∧ (∀ e, r.2 = Some e → outside e ∨ machine_error e).

(** The error of a write to a file is a fault. *)
Lemma FileWrite_error q d s part e s' : FileWrite y q d s = (Ok (part, Some e), s') → machine_error e.
Proof.
  unfold FileWrite, syscall. destruct (y_fault y (calls s)) eqn:Ef; [|done]. intros [= _ <- _]. by eapply honest_machine.
Qed.

Lemma closed_filled d w e :
  w = set_w_fed "" (strlen "") w → outside e ∨ machine_error e →
  ∀ n, busy [] n0 (w_tmp w) "" n → filled d w (w, 0, Some e) n.
Proof. intros Ew He n Hn. exists "", "". split_and!; [done..|]. by intros e' [= <-]. Qed.

Lemma hoare_Write cx d w :
  w_hashed w = "" → w_size w = 0 → (∀ e, cx = Some e → outside e) →
  hoare (busy [] n0 (w_tmp w) "") (Write y cx d w) (filled d w) (λ _ _, False).
Proof.
  intros Hha Hsz Hcx. unfold Write. assert (w = set_w_fed "" (strlen "") w) as Ew.
  { destruct w. cbn in *. by subst. }
  destruct (w_closed w); [apply hoare_ret, closed_filled; [done|by right; eexists]|].
  destruct cx; [apply hoare_ret, closed_filled; [done|by left; apply Hcx]|].
  intros s Hs. pose proof (hoare_FileWrite [] n0 (w_tmp w) "" d s Hs) as Hw. unfold mbind, io_bind.
  destruct (FileWrite y (w_tmp w) d s) as [[[part err]|] s'] eqn:Ef; [|done]. destruct Hw as [Hw Hall].
  cbn in Hall. exists part, part. split; [done|]. split; [|split; [intros E; by rewrite (Hall E)|]].
  2: { cbn. intros e ->. right. by eapply FileWrite_error. }
  cbn. rewrite Hha, Hsz.
  case_bool_decide as E; [done|]. assert (part = "") as ->; [|done].
  destruct part; [done|]. unfold strlen in E. cbn in E. lia.
Qed.

Lemma hoare_ReadFrom cx r w :
  w_hashed w = "" → w_size w = 0 → (∀ e, cx = Some e → outside e) → (∀ e, s_err r = Some e → outside e) →
  hoare (busy [] n0 (w_tmp w) "") (ReadFrom y cx r w) (λ x n, filled (s_bytes r) w x n ∧ (x.2 = None → s_err r = None)) (λ _ _, False).
Proof.
  intros Hha Hsz Hcx Hsrc. unfold ReadFrom. assert (w = set_w_fed "" (strlen "") w) as Ew.
  { destruct w. cbn in *. by subst. }
  destruct (w_closed w); [apply hoare_ret; intros n Hn; split; [apply closed_filled; [done| |done]; by right; eexists|done]|].
  destruct cx; [apply hoare_ret; intros n Hn; split; [apply closed_filled; [done|by left; apply Hcx|done]|done]|].
  intros s Hs. pose proof (hoare_FileWrite [] n0 (w_tmp w) "" (s_bytes r) s Hs) as Hw. unfold mbind, io_bind.
  destruct (FileWrite y (w_tmp w) (s_bytes r) s) as [[[part err]|] s'] eqn:Ef; [|done]. destruct Hw as [Hw Hall]. cbn in Hall.
  destruct err as [e|]; cbn; rewrite Hha, Hsz; cbn.
  - split; [|done]. eexists part, _. split_and!; [done..|]. intros e' [= <-]. right. by eapply FileWrite_error.
  - rewrite (Hall eq_refl) in *. split; [|done]. exists (s_bytes r), (s_bytes r). split_and!; [done..|].
    intros e' E. left. by apply Hsrc.
Qed.

(** A writer opened, filled with [d] and finished. *)
Lemma hoare_filled cx' key d o pre fill :
  paths b key = Ok p →
  (∀ e, run_hook (o_BeforeWrite o) = Some e → outside e) → (∀ e, cx' = Some e → outside e) →
  (∀ w, w_hashed w = "" → w_size w = 0 → hoare (busy [] n0 (w_tmp w) "") (fill w) (filled d w) (λ _ _, False)) →
  hoare (calm [] n0)
    (w ← NewWriter y b key (Some o) pre; '(w, _, err) ← fill w; finish y cx' w err)
    (λ _ n, ∃ c o', CompilePreconditions pre = Ok c ∧ WriterOptions_Clone (Some o) = Ok o' ∧ whole c o' d n)
    (unwritten outside pre d).
Proof.
  intros Hpa Hhook Hcx Hfill. eapply hoare_bind.
  { eapply hoare_conseq; [by apply hoare_NewWriter|done|intros a n Ha; exact Ha|by intros e n [? ?]; left]. }
  intros w. apply (hoare_pure (∃ compiled cloned tmp, CompilePreconditions pre = Ok compiled ∧
      WriterOptions_Clone (Some o) = Ok cloned ∧ w = mkWriter b key p tmp cloned compiled "" 0 false)).
  { by intros n [? _]. }
  intros (compiled & cloned & tmp & Ec & Ecl & ->).
  eapply hoare_bind.
  { eapply hoare_conseq; [by apply Hfill|by intros n [_ ?]|intros a n Ha; exact Ha|done]. }
  intros [[w' sz] err]. intros s (part & hashed & Hb & Hw & Hall & Herr). cbn in Hw, Hall, Herr. subst w'.
  set (w' := set_w_fed _ _ _).
  assert (err = None → w_hashed w' = part ∧ w_size w' = strlen part) as Hfed.
  { intros E. destruct (Hall E) as [-> ->]. done. }
  pose proof (hoare_finish cx' w' err part eq_refl eq_refl eq_refl Hfed Herr Hcx s Hb) as Hfin.
  destruct (finish y cx' w' err s) as [[[]|e] s'].
  - destruct Hfin as [-> Hfin]. destruct (Hall eq_refl) as [-> _]. by exists compiled, cloned.
  - destruct Hfin as [[Hc [?|[?|[?|[-> ?]]]]]|(-> & Hfin & He)]; [left; by auto..| |].
    + right; left. split_and!; [done..|]. by exists compiled.
    + destruct (Hall eq_refl) as [-> _]. right; right. split; [done|]. by exists compiled.
Qed.

Lemma hoare_WriteAll cx cx' key d opts pre :
  paths b key = Ok p →
  (∀ e, run_hook (default zeroWriterOptions opts).(o_BeforeWrite) = Some e → outside e) →
  (∀ e, cx = Some e → outside e) → (∀ e, cx' = Some e → outside e) →
  hoare (calm [] n0) (WriteAll y cx cx' b key d opts pre)
    (λ _ n, ∃ c o o', CompilePreconditions pre = Ok c ∧ PrepareWriteAllOptions opts d = Ok o ∧
              WriterOptions_Clone (Some o) = Ok o' ∧ whole c o' d n)
    (unwritten outside pre d).
Proof.
  intros Hpa Hhook Hcx Hcx'. unfold WriteAll. destruct (PrepareWriteAllOptions opts d) as [o|e] eqn:Eo.
  2: { apply PrepareWriteAllOptions_Err in Eo as ->. apply hoare_fail. left. by auto. }
  apply hoare_lift_Ok. eapply hoare_conseq; [apply (hoare_filled cx' key d o pre (Write y cx d) Hpa)|done| |done].
  - intros e. rewrite (Prepare_BeforeWrite _ _ _ Eo). apply Hhook.
  - done.
  - intros w Hha Hsz. by apply hoare_Write.
  - intros _ n (c & o' & ? & ? & ?). by exists c, o, o'.
Qed.

Lemma hoare_Upload cx cx' key r opts pre :
  paths b key = Ok p → (∀ e, (opts ≫= λ o, run_hook (o_BeforeWrite o)) = Some e → outside e) →
  (∀ e, cx = Some e → outside e) → (∀ e, cx' = Some e → outside e) → (∀ e, s_err r = Some e → outside e) →
  hoare (calm [] n0) (Upload y cx cx' b key r opts pre)
    (λ _ n, ∃ c o o', CompilePreconditions pre = Ok c ∧ RequireUploadOptions opts = Ok o ∧
              WriterOptions_Clone (Some o) = Ok o' ∧ whole c o' (s_bytes r) n)
    (unwritten outside pre (s_bytes r)).
Proof.
  intros Hpa Hhook Hcx Hcx' Hsrc. unfold Upload. destruct (RequireUploadOptions opts) as [o|e] eqn:Eo.
  2: { apply RequireUploadOptions_Err in Eo as ->. apply hoare_fail. left. by auto. }
  apply hoare_lift_Ok. eapply hoare_conseq; [apply (hoare_filled cx' key (s_bytes r) o pre (ReadFrom y cx r) Hpa)|done| |done].
  - intros e. apply RequireUploadOptions_hook in Eo as (o0 & -> & ->). apply Hhook.
  - done.
  - intros w Hha Hsz. eapply hoare_conseq; [by apply hoare_ReadFrom|done|by intros a n [? _]|done].
  - intros _ n (c & o' & ? & ? & ?). by exists c, o, o'.
Qed.

End commit.
End touch.

(** ** Reading back *)

Section reading.
Context `{GoTables} `{Json}.

Definition no_faults (y : sysenv) : Prop := ∀ i, y_fault y i = None.

Lemma intact_Stat y q s x :
  no_faults y → walk_path (nodes s) q = Ok x →
  Stat y q s = (Ok (info_of (y_dir y (calls s)) x), mkOs (nodes s) (S (calls s))).
Proof. intros Hy Hw. unfold Stat, syscall. rewrite Hy. cbn. by rewrite Hw. Qed.

Lemma intact_ReadFile y q s c t :
  no_faults y → walk_path (nodes s) q = Ok (Reg c t) → ReadFile y q s = (Ok c, mkOs (nodes s) (S (calls s))).
Proof. intros Hy Hw. unfold ReadFile, syscall. rewrite Hy. cbn. by rewrite Hw. Qed.

Lemma intact_Open y q s x :
  no_faults y → walk_path (nodes s) q = Ok x → Open y q s = (Ok x, mkOs (nodes s) (S (calls s))).
Proof. intros Hy Hw. unfold Open, syscall. rewrite Hy. cbn. by rewrite Hw. Qed.

Lemma file_walk n q c : file n q c → ∃ t, walk_path n q = Ok (Reg c t).
Proof. intros [Hd [t Ht]]. exists t. by apply walk_path_Ok. Qed.

(** What a fault-free read makes of a data file and a sidecar. *)
Lemma intact_readAttributes y p s d st :
  no_faults y → file (nodes s) (p_data p) d → file (nodes s) (p_meta p) (json_Marshal st) → encodable st →
  ∃ t, readAttributes y p s = (Ok (stored_attributes (mkFileInfo false t (strlen d)) (omitempty st)),
                               mkOs (nodes s) (S (S (calls s)))).
Proof.
  intros Hy [t Hd]%file_walk [tm Hm]%file_walk He. exists t.
  unfold readAttributes, mapped, attempt, mbind, io_bind. rewrite (intact_Stat y _ _ _ Hy Hd). cbn [mret io_ret].
  rewrite (intact_ReadFile y _ (mkOs (nodes s) (S (calls s))) (json_Marshal st) tm Hy Hm). unfold lift.
  by rewrite (Unmarshal_Marshal _ He).
Qed.

Lemma intact_Attributes y b key p s d st :
  no_faults y → paths b key = Ok p → file (nodes s) (p_data p) d → file (nodes s) (p_meta p) (json_Marshal st) →
  encodable st →
  ∃ t, (Attributes_ y None b key s).1 = Ok (stored_attributes (mkFileInfo false t (strlen d)) (omitempty st)).
Proof.
  intros Hy Hpa Hd Hm He. destruct (intact_readAttributes y p s d st Hy Hd Hm He) as [t Ht]. exists t.
  unfold Attributes_, check_ctx, lift, mbind, io_bind. cbn [mret io_ret]. rewrite Hpa. by rewrite Ht.
Qed.

Lemma intact_ReadAll y b key p s d st :
  no_faults y → paths b key = Ok p → file (nodes s) (p_data p) d → file (nodes s) (p_meta p) (json_Marshal st) →
  encodable st → st_Version st ≠ "" → 0 ≤ st_Size st →
  (ReadAll y None b key s).1 = Ok (str_take (Z.to_nat (st_Size st)) d).
Proof.
  intros Hy Hpa Hd Hm He Hv Hsz. destruct (intact_readAttributes y p s d st Hy Hd Hm He) as [t Ht].
  destruct (file_walk _ _ _ Hd) as [td Hw].
  unfold ReadAll, NewReader, NewRangeReader, check_ctx, check_hook, run_hook, lift, mbind, io_bind.
  cbn [mret io_ret option_bind]. rewrite (bool_decide_false (0 < 0)) by lia. rewrite Hpa, Ht.
  unfold mapped, attempt, mbind, io_bind. rewrite (intact_Open y _ (mkOs (nodes s) (S (S (calls s)))) _ Hy Hw).
  cbn [mret io_ret a_Size stored_attributes]. rewrite (bool_decide_false (st_Version _ = "")) by done.
  rewrite orb_true_r. cbn [st_Size omitempty]. rewrite (bool_decide_false (st_Size st < 0)) by lia.
  rewrite (bool_decide_false (0 ≤ -1)) by lia. cbn [andb].
  unfold read_to_end, ReadSection, syscall. cbn [r_f r_section NewSectionReader]. rewrite Z.sub_0_r, Z.add_0_l.
  case_bool_decide as E; [by replace (st_Size st) with 0 by lia|]. rewrite Hy. cbn [nodes calls fst].
  change (Z.to_nat 0) with 0%nat. blob_simpl. by rewrite Z.sub_0_r.
Qed.

(** The two ways to write the bytes [d] in one call. *)
Inductive write_call (y : sysenv) (b : Bucket) (key : string) (d : bytes) (pre : list (option Precondition)) :
    io unit → Prop :=
| call_WriteAll cx cx' opts : write_call y b key d pre (WriteAll y cx cx' b key d opts pre)
| call_Upload cx cx' r opts : s_bytes r = d → write_call y b key d pre (Upload y cx cx' b key r opts pre).

(** C16: a write is atomic whatever system call fails.  Outside tmp/ and the
    object's two files nothing changes but new directories.  A [WriteAll] or
    [Upload] that returns nil has made both files, the data file with all its
    bytes, and its precondition held of the files as they were.  One that
    returns an error has not touched the sidecar, and has left the data file
    as it was or replaced it by all the new bytes, that only if the
    precondition held. *)
Theorem file_write_atomic y b key p d pre m s r s' :
  honest y → Forall plain (root b) → wf_tree (nodes s) → paths b key = Ok p →
  write_call y b key d pre m → m s = (r, s') →
  let n := nodes s in
  let n' := nodes s' in
  (∀ q, q ≠ p_data p → q ≠ p_meta p → ¬ tmp_path b q →
     n' !! q = n !! q ∨ n !! q = None ∧ n' !! q = Some Dir) ∧
  match r with
  | Ok _ => file n' (p_data p) d ∧ (∃ a, file n' (p_meta p) (mustMarshalAttrs a) ∧
              a_Size a = strlen d ∧ a_MD5 a = md5_Sum d) ∧
            ∃ c, CompilePreconditions pre = Ok c ∧ passes p n c
  | Err _ => n' !! p_meta p = n !! p_meta p ∧
      (n' !! p_data p = n !! p_data p ∨
       file n' (p_data p) d ∧ ∃ c, CompilePreconditions pre = Ok c ∧ passes p n c)
  end.
Proof.
  intros Hh Hroot Hwf Hpa Hcall Hrun n n'. pose proof (paths_confined b key p Hroot Hpa) as Hp.
  assert (match r with
          | Ok _ => ∃ c o', CompilePreconditions pre = Ok c ∧ whole b p y n c o' d n'
          | Err _ => calm b p [] n n' ∨ ∃ c, CompilePreconditions pre = Ok c ∧ half b p n c d n'
          end) as Hw.
  { destruct Hcall as [cx cx' opts|cx cx' src opts <-].
    - pose proof (hoare_WriteAll b p Hp y n Hh Hwf (λ _, True) cx cx' key d opts pre Hpa (λ _ _, I) (λ _ _, I) (λ _ _, I) s (quiet_refl b p n)) as Hw.
      rewrite Hrun in Hw. destruct r; [|by eapply unwritten_cases]. destruct Hw as (c & o & o' & ? & _ & _ & ?). by exists c, o'.
    - pose proof (hoare_Upload b p Hp y n Hh Hwf (λ _, True) cx cx' key src opts pre Hpa (λ _ _, I) (λ _ _, I) (λ _ _, I) (λ _ _, I) s (quiet_refl b p n)) as Hw.
      rewrite Hrun in Hw. destruct r; [|by eapply unwritten_cases]. destruct Hw as (c & o & o' & ? & _ & _ & ?). by exists c, o'. }
  assert (∀ X, quiet b p X n n' → (∀ q, q ∈ X → q = p_data p ∨ q = p_meta p) → ∀ q, q ≠ p_data p → q ≠ p_meta p →
     ¬ tmp_path b q → n' !! q = n !! q ∨ n !! q = None ∧ n' !! q = Some Dir) as Hframe.
  { intros X Hq HX q Hd Hm Ht. destruct (Hq q) as [?|[?|[?|(? & ? & _)]]]; [|done|by left|by right].
    by destruct (HX q). }
  destruct r as [[]|e].
  - destruct Hw as (c & o' & Hc & Hq & Hpass & Hf & i & j & Hm). split; [|split; [done|split]].
    + apply (Hframe _ Hq). set_solver.
    + eexists. split; [exact Hm|done].
    + by exists c.
  - destruct Hw as [Hq|(c & Hc & Hq & Hf & Hpass)].
    + split; [apply (Hframe _ Hq); set_solver|]. split; [|left]; apply (quiet_same b p Hp); auto.
    + split; [apply (Hframe _ Hq); set_solver|]. split; [|right; by eauto].
      apply (quiet_other b p Hp [p_data p]); [done|by right|]. intros E%list_elem_of_singleton.
      symmetry in E. by apply (data_ne_meta b p Hp) in E.
Qed.

(** The sidecar record of a write. *)
Definition stored_of (a : Attributes) : storedAttrs :=
  mkStored (a_Version a) (a_CacheControl a) (a_ContentDisposition a) (a_ContentEncoding a)
    (a_ContentLanguage a) (a_ContentType a) (a_Metadata a) (a_MD5 a) (a_Size a) (a_CreateTime a).

(** C33: what [WriteAll] stored is what a reader gets, of attributes that JSON can
    carry.  If every random token is non-empty and the strings of the options are
    valid UTF-8 and the time is in the years 0 to 9999 ([encodable]; encoding/json
    replaces other bytes by U+FFFD without an error), a [WriteAll] that returns nil is followed by a [ReadAll] of exactly its
    bytes and by [Attributes] with its size, MD5, content type and metadata. *)
Theorem file_write_then_read y y' cx cx' b key d opts pre s s' :
  honest y → no_faults y' → Forall plain (root b) → wf_tree (nodes s) →
  (∀ i, version_of y i ≠ "") →
  (∀ o o' i j, PrepareWriteAllOptions opts d = Ok o → WriterOptions_Clone (Some o) = Ok o' →
     encodable (stored_of (written_attrs o' d (y_now y i) (version_of y j)))) →
  WriteAll y cx cx' b key d opts pre s = (Ok tt, s') →
  (ReadAll y' None b key s').1 = Ok d ∧
  ∃ o o' a, PrepareWriteAllOptions opts d = Ok o ∧ WriterOptions_Clone (Some o) = Ok o' ∧
    (Attributes_ y' None b key s').1 = Ok a ∧ a_Size a = strlen d ∧ a_MD5 a = md5_Sum d ∧
    a_ContentType a = o_ContentType o' ∧ default ∅ (a_Metadata a) = default ∅ (o_Metadata o').
Proof.
  intros Hh Hy' Hroot Hwf Hv Henc Hrun.
  destruct (paths b key) as [p|e] eqn:Hpa.
  2: { exfalso. revert Hrun. unfold WriteAll, NewWriter, lift, mbind, io_bind. rewrite Hpa.
       destruct (PrepareWriteAllOptions opts d); [|done]. destruct (CompilePreconditions pre); [|done].
       destruct (WriterOptions_Clone _); [|done]. unfold check_hook. by destruct (run_hook _). }
  pose proof (paths_confined b key p Hroot Hpa) as Hp.
  pose proof (hoare_WriteAll b p Hp y (nodes s) Hh Hwf (λ _, True) cx cx' key d opts pre Hpa (λ _ _, I) (λ _ _, I) (λ _ _, I) s (quiet_refl b p _)) as Hw.
  rewrite Hrun in Hw. destruct Hw as (c & o & o' & _ & Ho & Ho' & _ & _ & Hf & i & j & Hm).
  set (a := written_attrs o' d (y_now y i) (version_of y j)) in Hm.
  change (mustMarshalAttrs a) with (json_Marshal (stored_of a)) in Hm.
  pose proof (Henc o o' i j Ho Ho') as He. fold a in He. split.
  - rewrite (intact_ReadAll y' b key p s' d (stored_of a)) by (done || apply Hv || apply strlen_nonneg). cbn.
    rewrite str_take_ge; [done|]. unfold strlen. lia.
  - destruct (intact_Attributes y' b key p s' d (stored_of a)) as [t Ht]; try done.
    exists o, o'. eexists. split; [done|]. split; [done|]. split; [exact Ht|]. cbn.
    rewrite (bool_decide_false (version_of y j = "")) by apply Hv. rewrite orb_true_r. blob_simpl.
    split_and!; try done. destruct (o_Metadata o') as [m|]; [|done]. cbn. by case_bool_decide; subst.
Qed.

(** C36: a commit can be torn, and a read then mixes two writes.  If a
    [WriteAll] over an object with the sidecar [st] returns an error after it
    has replaced the data file (its sidecar could not be written), readers get
    the new bytes cut off at the old size, under the old version. *)
Theorem file_torn_commit y y' cx cx' b key p d opts pre s e s' st :
  honest y → no_faults y' → Forall plain (root b) → wf_tree (nodes s) → paths b key = Ok p →
  file (nodes s) (p_meta p) (json_Marshal st) → encodable st → st_Version st ≠ "" → 0 ≤ st_Size st →
  WriteAll y cx cx' b key d opts pre s = (Err e, s') →
  nodes s' !! p_data p ≠ nodes s !! p_data p →
  (ReadAll y' None b key s').1 = Ok (str_take (Z.to_nat (st_Size st)) d) ∧
  ∃ a, (Attributes_ y' None b key s').1 = Ok a ∧ a_Version a = st_Version st ∧ a_MD5 a = st_MD5 st.
Proof.
  intros Hh Hy' Hroot Hwf Hpa Hm He Hv Hsz Hrun Hne. pose proof (paths_confined b key p Hroot Hpa) as Hp.
  pose proof (hoare_WriteAll b p Hp y (nodes s) Hh Hwf (λ _, True) cx cx' key d opts pre Hpa (λ _ _, I) (λ _ _, I) (λ _ _, I) s (quiet_refl b p _)) as Hw.
  rewrite Hrun in Hw. apply unwritten_cases in Hw as [Hq|(c & _ & Hq & Hf & _)].
  { destruct Hne. apply (quiet_same b p Hp); auto. }
  assert (file (nodes s') (p_meta p) (json_Marshal st)) as Hm'.
  { eapply (quiet_file b p Hp [p_data p]); [exact Hq|done|..|by right].
    - rewrite list_elem_of_singleton. intros E. symmetry in E. by apply (data_ne_meta b p Hp) in E.
    - intros q ->%list_elem_of_singleton. apply (data_not_above b p Hp). by right. }
  split; [by apply (intact_ReadAll y' b key p s' d st)|].
  destruct (intact_Attributes y' b key p s' d st) as [t Ht]; try done. eexists. split; [exact Ht|done].
Qed.

End reading.
