(* ===== verification/FileStore.v ===== *)
(** * The file driver as a store

    A bucket of the file driver against the contract of [Store]: what its tree of
    files says its objects are ([contents]), and that every call answers and
    changes them as the contract allows, whatever system calls fail, with one
    exception: a write can be torn.  The keys in use are a set [K] of clean paths
    none of which is a directory of another. *)
From S2P Require Import Prelude Strconv GoTime Md5 Core Effects Store Filesystem FileDriver FileTheorems.
Import File.

(** ** The shape of the tree *)

Section shape.
Context `{GoTables} `{Json} (y : sysenv).

Lemma keeps_mapped {A : Type} I (m : io A) : keeps I m → keeps I (mapped m).
Proof. intros Hm. unfold mapped. apply keeps_bind; [by apply keeps_attempt|]. intros []; auto with io. Qed.

Lemma keeps_or_cleanup {A : Type} I (m : io A) cleanup : keeps I m → keeps I cleanup → keeps I (or_cleanup m cleanup).
Proof. intros Hm Hc. unfold or_cleanup. apply keeps_bind; [by apply keeps_attempt|]. intros []; auto with io. Qed.

#[local] Hint Resolve keeps_or_cleanup keeps_mapped reads_newVersion reads_statVersion : io.

(** One step of a sequence after another. *)
#[local] Ltac steps := repeat first
  [ solve [auto with io]
  | apply keeps_or_cleanup
  | match goal with |- keeps _ (match ?x with _ => _ end) => destruct x end
  | apply keeps_bind; [|intros ?] ].

Lemma keeps_writeFileAtomic b q c : q ≠ [] → keeps wf_tree (writeFileAtomic y b q c).
Proof.
  intros Hq. unfold writeFileAtomic, newTemp, write_file. steps.
Qed.

Lemma reads_check cx : reads (check_ctx cx). Proof. destruct cx; cbn; auto with io. Qed.
Lemma reads_hook h : reads (check_hook h). Proof. unfold check_hook. destruct (run_hook h); auto with io. Qed.
#[local] Hint Resolve reads_check reads_hook keeps_writeFileAtomic : io.

Lemma keeps_close_commit cx w :
  p_data (w_paths w) ≠ [] → p_meta (w_paths w) ≠ [] → keeps wf_tree (close_commit y cx w).
Proof.
  intros Hd Hm. unfold close_commit, close_data, close_check, close_rename. steps.
Qed.

Lemma keeps_WriteAll cx cx' b key d opts pre :
  (∀ p, paths b key = Ok p → p_data p ≠ [] ∧ p_meta p ≠ []) → keeps wf_tree (WriteAll y cx cx' b key d opts pre).
Proof.
  intros Hp s Hs. unfold WriteAll, NewWriter, lift, mbind, io_bind.
  destruct (PrepareWriteAllOptions opts d) as [o|]; [|done].
  destruct (CompilePreconditions pre) as [c|]; [|done]. destruct (WriterOptions_Clone (Some o)) as [o'|]; [|done].
  unfold check_hook. destruct (run_hook (o_BeforeWrite o')); [done|]. cbn [mret io_ret].
  destruct (paths b key) as [p|] eqn:Ep; [|done]. destruct (Hp p eq_refl) as [Hd Hm].
  pose proof (keeps_bind wf_tree _ _ (keeps_MkdirAll y (root b ++ [tempSubdir])) (λ _, keeps_CreateTemp y (root b ++ [tempSubdir])) s Hs) as Ht.
  fold (newTemp y b) in Ht. destruct (newTemp y b s) as [[tmp|] s1]; [|done].
  cbn [mret io_ret]. set (w := mkWriter _ _ _ _ _ _ _ _ _).
  assert (keeps wf_tree (Write y cx d w)) as Hw.
  { unfold Write. steps. }
  pose proof (Hw s1 Ht) as H1. destruct (Write y cx d w s1) as [[[[w' k] err]|] s2] eqn:Ew; [|exact H1].
  assert (w_paths w' = p) as Ep'.
  { revert Ew. unfold Write. cbn [w_closed w]. destruct cx; [by intros [= <- _ _ _]|]. unfold mbind, io_bind.
    destruct (FileWrite y (w_tmp w) d s1) as [[[part e]|] s3]; [|done]. intros [= <- _ _ _]. by case_bool_decide. }
  unfold finish. destruct err as [e|].
  - apply (keeps_bind wf_tree (CloseWithError y w') (λ _, fail (Join e None))); [|auto with io|done].
    unfold CloseWithError. steps.
  - apply (keeps_bind wf_tree (Close y cx' w') (λ '(_, err), match err with Some err => fail err | None => mret tt end)); [|intros [? []]; auto with io|done].
    unfold Close. destruct (w_closed w'); [auto with io|]. apply keeps_bind; [|auto with io].
    apply keeps_attempt, keeps_close_commit; by rewrite Ep'.
Qed.

Lemma keeps_Delete cx b key pre : keeps wf_tree (Delete y cx b key pre).
Proof.
  unfold Delete. steps.
Qed.

Lemma keeps_lift_bind {A B : Type} I (x : result A) (f : A → io B) :
  (∀ a, x = Ok a → keeps I (f a)) → keeps I (lift x ≫= f).
Proof. intros Hf s Hs. unfold lift, mbind, io_bind. destruct x as [a|e]; [by apply (Hf a)|done]. Qed.

Lemma keeps_UpdateMetadata cx b key md :
  (∀ p, paths b key = Ok p → p_meta p ≠ []) → keeps wf_tree (UpdateMetadata y cx b key md).
Proof.
  intros Hp. unfold UpdateMetadata. apply keeps_bind; [auto with io|intros _]. apply keeps_bind; [auto with io|intros md'].
  apply keeps_lift_bind. intros p Ep. specialize (Hp p Ep). steps.
Qed.

Lemma keeps_Copy cx hook b dst src :
  (∀ p, paths b dst = Ok p → p_data p ≠ [] ∧ p_meta p ≠ []) → keeps wf_tree (Copy y cx hook b dst src).
Proof.
  intros Hp. unfold Copy. do 2 (apply keeps_bind; [auto with io|intros _]).
  apply keeps_lift_bind. intros ps _. apply keeps_lift_bind. intros pd Ep. destruct (Hp pd Ep). unfold commit.
  assert (reads (readAttributes y ps)) by apply reads_readAttributes. steps.
Qed.

End shape.

(** ** The objects of a tree *)

Section contents.
Context `{GoTables} `{Json} (rt : path) (K : path → Prop).

Definition dpath (r : path) : path := rt ++ dataSubdir :: r.
Definition mpath (r : path) : path := rt ++ metaSubdir :: r.
Definition kpaths (r : path) : objectPaths := mkPaths (dpath r) (mpath r).

(** The object kept under the clean key [r]. *)
Definition object_at (n : tree) (r : path) : option sobject :=
  match n !! dpath r, n !! mpath r with
  | Some (Reg d _), Some (Reg c _) =>
    match json_Unmarshal c with
    | Ok st => Some (mkSobject d (st_Metadata st) (st_Version st))
    | Err _ => None
    end
  | _, _ => None
  end.

Definition named (n : tree) (q : path) : option (string * sobject) :=
  if decide (take (length (dpath [])) q = dpath []) then
    let r := drop (length (dpath [])) q in pair (rel_slash r) <$> object_at n r
  else None.

Definition contents (n : tree) : gmap string sobject :=
  list_to_map (omap (λ e : path * node, named n e.1) (map_to_list n)).

(** Keys the driver's clients may use, none a directory of another. *)
Record flat : Prop := {
  flat_plain r : K r → r ≠ [] ∧ Forall plain r;
  flat_above r r' : K r → K r' → ¬ above r r';
}.

(** A sidecar that goes with the data [d], under a token of [U]. *)
Definition intact (n : tree) (U : gset string) (r : path) (d : bytes) : Prop :=
  ∃ c t st, n !! mpath r = Some (Reg c t) ∧ json_Unmarshal c = Ok st ∧
    st_Version st ≠ "" ∧ st_Version st ∈ U ∧ st_Size st = strlen d.

(** The invariant; [U] are the version tokens given out so far. *)
Record sound_tree (n : tree) (U : gset string) : Prop := {
  sn_wf : wf_tree n;
  sn_names r d t : n !! dpath r = Some (Reg d t) → r ≠ [] ∧ Forall plain r;
  sn_intact r d t : n !! dpath r = Some (Reg d t) → intact n U r d;
  sn_flat r : K r → n !! dpath r ≠ Some Dir;
  sn_used : "" ∉ U;
}.

Lemma rel_slash_inj r r' :
  r ≠ [] → r' ≠ [] → Forall plain r → Forall plain r' → rel_slash r = rel_slash r' → r = r'.
Proof.
  intros Hr Hr' Hp%plain_noslash Hp'%plain_noslash E. apply render_inj; [done..|].
  destruct r as [|c r], r' as [|c' r']; [done..|]. cbn [render]. by f_equal.
Qed.

Lemma dpath_inj r r' : dpath r = dpath r' → r = r'.
Proof. intros E%app_inv_head. by injection E. Qed.
Lemma mpath_inj r r' : mpath r = mpath r' → r = r'.
Proof. intros E%app_inv_head. by injection E. Qed.
Lemma dpath_mpath r r' : dpath r ≠ mpath r'.
Proof. intros E%app_inv_head. by injection E. Qed.

Lemma paths_ne r : dpath r ≠ [] ∧ mpath r ≠ [].
Proof. split; intros E; by apply app_nil in E as [_ ?]. Qed.

Definition well_named (n : tree) : Prop := ∀ r d t, n !! dpath r = Some (Reg d t) → r ≠ [] ∧ Forall plain r.

Lemma object_at_Some n r o :
  object_at n r = Some o ↔ ∃ d t c tc st, n !! dpath r = Some (Reg d t) ∧ n !! mpath r = Some (Reg c tc) ∧
    json_Unmarshal c = Ok st ∧ o = mkSobject d (st_Metadata st) (st_Version st).
Proof.
  unfold object_at. split; [|by intros (d & t & c & tc & st & -> & -> & -> & ->)].
  destruct (n !! dpath r) as [[|d t]|]; [done| |done]. destruct (n !! mpath r) as [[|c tc]|]; [done| |done].
  destruct (json_Unmarshal c) as [st|] eqn:E; [|done]. intros [= <-]. by exists d, t, c, tc, st.
Qed.

Lemma object_at_data n r o : object_at n r = Some o → ∃ t, n !! dpath r = Some (Reg (so_data o) t).
Proof. intros (d & t & c & tc & st & ? & _ & _ & ->)%object_at_Some. by exists t. Qed.

Lemma named_Some n q k o : named n q = Some (k, o) ↔ ∃ r, q = dpath r ∧ k = rel_slash r ∧ object_at n r = Some o.
Proof.
  unfold named. split.
  - case_decide as E; [|done]. cbn zeta. intros (o' & Ho & [= -> ->])%fmap_Some.
    exists (drop (length (dpath [])) q). split_and!; [|done..]. rewrite <- (take_drop (length (dpath [])) q) at 1.
    rewrite E. unfold dpath. by rewrite <- app_assoc.
  - intros (r & -> & -> & Ho). assert (dpath r = dpath [] ++ r) as -> by (unfold dpath; by rewrite <- app_assoc).
    rewrite take_app_length, decide_True, drop_app_length by done. cbn zeta. by rewrite Ho.
Qed.

Lemma file_contents_lookup n k o :
  well_named n → contents n !! k = Some o ↔ ∃ r, k = rel_slash r ∧ object_at n r = Some o.
Proof.
  intros Hn. unfold contents. split.
  - intros Hl%elem_of_list_to_map_2. apply list_elem_of_omap in Hl as ([q x] & _ & Hl).
    apply named_Some in Hl as (r & _ & ? & ?). by exists r.
  - intros (r & -> & Ho). apply elem_of_list_to_map'.
    + intros o' _ Hl. apply list_elem_of_omap in Hl as ([q x] & _ & Hl). apply named_Some in Hl as (r' & _ & E & Ho').
      destruct (object_at_data _ _ _ Ho) as [t [? ?]%Hn], (object_at_data _ _ _ Ho') as [t' [? ?]%Hn].
      apply rel_slash_inj in E as ->; [|done..]. congruence.
    + apply list_elem_of_omap. destruct (object_at_data _ _ _ Ho) as [t Ht]. exists (dpath r, Reg (so_data o) t).
      split; [by apply elem_of_map_to_list|]. apply named_Some. by exists r.
Qed.

Lemma contents_at n r : well_named n → r ≠ [] → Forall plain r → contents n !! rel_slash r = object_at n r.
Proof.
  intros Hn Hr Hp. apply option_eq. intros o. rewrite file_contents_lookup by done. split; [|by eauto].
  intros (r' & E & Ho). destruct (object_at_data _ _ _ Ho) as [t [? ?]%Hn]. apply rel_slash_inj in E as ->; done.
Qed.

(** Two trees that differ in the object [r] only. *)
Lemma contents_update n n' r :
  well_named n → well_named n' → r ≠ [] → Forall plain r → (∀ r', r' ≠ r → object_at n' r' = object_at n r') →
  contents n' = partial_alter (λ _, object_at n' r) (rel_slash r) (contents n).
Proof.
  intros Hn Hn' Hr Hp Hsame. apply map_eq. intros k. destruct (decide (k = rel_slash r)) as [->|Hk].
  - rewrite lookup_partial_alter_eq. by apply contents_at.
  - rewrite lookup_partial_alter_ne by done. apply option_eq. intros o. rewrite !file_contents_lookup by done.
    split; intros (r' & -> & Ho); exists r'; (split; [done|]); [rewrite <- Hsame|rewrite Hsame]; congruence.
Qed.

Lemma contents_same n n' r :
  well_named n → well_named n' → r ≠ [] → Forall plain r → (∀ r', object_at n' r' = object_at n r') →
  contents n' = contents n.
Proof.
  intros Hn Hn' Hr Hp Hsame. rewrite (contents_update n n' r) by auto. rewrite Hsame, <- contents_at by done.
  apply partial_alter_self.
Qed.

(** The tokens a tree shows. *)
Definition versions (n : tree) : gset string := map_img (so_version <$> contents n).

Lemma elem_of_versions n v : v ∈ versions n ↔ ∃ k o, contents n !! k = Some o ∧ v = so_version o.
Proof.
  unfold versions. rewrite elem_of_map_img. split.
  - intros (k & Hk). rewrite lookup_fmap in Hk. apply fmap_Some in Hk as (o & ? & ->). by exists k, o.
  - intros (k & o & Ho & ->). exists k. by rewrite lookup_fmap, Ho.
Qed.

Lemma intact_object n U r d t :
  n !! dpath r = Some (Reg d t) → intact n U r d → ∃ o, object_at n r = Some o ∧ so_version o ∈ U.
Proof.
  intros Hd (c & tc & st & Hm & Hj & _ & HU & _). unfold object_at. rewrite Hd, Hm, Hj. by eexists.
Qed.

Lemma sound_versions n U : sound_tree n U → versions n ⊆ U.
Proof.
  intros Hn v (k & o & Ho & ->)%elem_of_versions. apply file_contents_lookup in Ho as (r & _ & Ho); [|exact (sn_names _ _ Hn)].
  destruct (object_at_data _ _ _ Ho) as [t Ht]. destruct (intact_object _ _ _ _ _ Ht (sn_intact _ _ Hn _ _ _ Ht)) as (o' & Ho' & HU).
  congruence.
Qed.

(** The tokens given out when the tree has become [n']. *)
Definition tokens (U : gset string) (n' : tree) : gset string := U ∪ versions n'.

Lemma tokens_same n U n' : sound_tree n U → contents n' = contents n → tokens U n' = U.
Proof.
  intros Hn E. apply leibniz_equiv. pose proof (sound_versions _ _ Hn) as Hv. unfold tokens, versions in *.
  rewrite E. set_solver.
Qed.

Lemma tokens_put n U n' k o :
  sound_tree n U → contents n' = <[k := o]> (contents n) → tokens U n' = {[so_version o]} ∪ U.
Proof.
  intros Hn E. apply leibniz_equiv. intros v. unfold tokens. rewrite !elem_of_union, elem_of_singleton, elem_of_versions, E.
  split.
  - intros [?|(k' & o' & [[_ <-]|[_ Ho]]%lookup_insert_Some & ->)]; [by right|by left|]. right.
    apply (sound_versions _ _ Hn), elem_of_versions. by eauto.
  - intros [->|?]; [|by left]. right. exists k, o. split; [apply lookup_insert_eq|done].
Qed.

End contents.

(** ** The calls *)

(** The handles on store [n] are one [Bucket] of a process and its [Sub]s: they
    share the mutex [n]. *)
Definition fileBucket (rt : path) (h : Handle) : Bucket := mkBucket rt (h_prefix h) (h_store h).

Section exec.
Context `{GoTables} `{Json} (rt : path) (y : sysenv) (cx cx' : ctx).

(** The calls the driver answers in one call of its own; a reader is read to its
    end from the file it has opened.  [None] is a panic, or a call on a stream. *)
Definition file_exec (o : op) (s : os) : option (ans o) * os :=
  match o return option (ans o) * os with
  | OAttributes h key => let '(r, s') := Attributes_ y cx (fileBucket rt h) key s in (Some r, s')
  | OReadAll h key => let '(r, s') := ReadAll y cx (fileBucket rt h) key s in (Some r, s')
  | ONewReader h key =>
    match NewReader y cx (fileBucket rt h) key None s with
    | (Err e, s') => (Some (Err e), s')
    | (Ok r, s') =>
      match read_to_end y r s' with
      | (Ok d, s'') => (Some (Ok (mkSource d None)), s'')
      | (Err e, s'') => (Some (Ok (mkSource "" (Some e))), s'')
      end
    end
  | OListPage h token size opts =>
    match ListPage y cx (fileBucket rt h) token size (Some opts) s with
    | (Err e, s') => (Some (Err e), s')
    | (Ok None, s') => (None, s')
    | (Ok (Some page), s') => (Some (Ok page), s')
    end
  | OWriteAll h key p opts pre =>
    let '(r, s') := WriteAll y cx cx' (fileBucket rt h) key p (Some opts) pre s in (Some r, s')
  | ODelete h key pre => let '(r, s') := Delete y cx (fileBucket rt h) key pre s in (Some r, s')
  | _ => (None, s)
  end.
End exec.

Section calls.
Context `{GoTables} `{Json} (rt : path) (K : path → Prop) (Hrt : Forall plain rt) (HK : flat K).

#[local] Abbreviation dpath := (dpath rt).
#[local] Abbreviation mpath := (mpath rt).
#[local] Abbreviation kpaths := (kpaths rt).
#[local] Abbreviation object_at := (object_at rt).
#[local] Abbreviation contents := (contents rt).
#[local] Abbreviation sound_tree := (sound_tree rt K).
#[local] Abbreviation tokens := (tokens rt).

(** A full key of [K]. *)
Definition keyed (k : string) (r : path) : Prop := K r ∧ k = rel_slash r.

Lemma keyed_paths h key r : keyed (h_key h key) r → paths (fileBucket rt h) key = Ok (kpaths r).
Proof.
  intros [Hr Ek]. destruct (flat_plain K HK r Hr) as [Hne Hp]. destruct r as [|c r]; [done|].
  apply (paths_clean (fileBucket rt h)); [done..| |].
  - change (objectKey (fileBucket rt h) key) with (h_key h key). rewrite Ek. apply rel_slash_nonempty. by inversion Hp.
  - intros base. change (objectKey (fileBucket rt h) key) with (h_key h key). rewrite Ek. by apply join_clean_rel.
Qed.

Lemma kpaths_confined h r : K r → confined (fileBucket rt h) (kpaths r).
Proof. intros Hr. destruct (flat_plain K HK r Hr) as [Hne Hp]. by exists r. Qed.

Section object.
Context (h : Handle) (r : path) (Hr : K r) (n : tree) (U : gset string) (Hn : sound_tree n U).

#[local] Abbreviation quiet := (quiet (fileBucket rt h) (kpaths r)).

Lemma keyed_contents : contents n !! rel_slash r = object_at n r.
Proof. destruct (flat_plain K HK r Hr). by apply contents_at; [exact (sn_names _ _ _ _ Hn)|..]. Qed.

Lemma keyed_version : version_at (mkStore (contents n) U) (rel_slash r) = so_version <$> object_at n r.
Proof. unfold version_at. cbn. by rewrite keyed_contents. Qed.

(** What the driver sees of an object is what the tree says of it. *)
Lemma current_object cur :
  current_at (kpaths r) n cur →
  match cur with
  | None => object_at n r = None
  | Some a => ∃ t o, n !! dpath r = Some (Reg (so_data o) t) ∧ object_at n r = Some o ∧
      a_Version a = so_version o ∧ a_Metadata a = so_meta o ∧ a_Size a = strlen (so_data o)
  end.
Proof.
  destruct cur as [a|]; cbn.
  - intros (x & dir & Hx & Hcase). destruct x as [|d t]; [by destruct (sn_flat _ _ _ _ Hn r Hr)|].
    destruct (sn_intact _ _ _ _ Hn _ _ _ Hx) as (c & tc & st & Hm & Hj & Hv & _ & Hsz).
    destruct Hcase as [[Hm' _]|(c' & t' & st' & Hm' & Hj' & ->)]; [congruence|].
    assert (c' = c) as -> by congruence. assert (st' = st) as -> by congruence.
    exists t, (mkSobject d (st_Metadata st) (st_Version st)). unfold object_at, FileStore.object_at. rewrite Hx, Hm, Hj.
    split_and!; [done..|by rewrite <- CloneMetadata_id|]. cbn. rewrite (bool_decide_false (st_Version st = "")) by done.
    by rewrite orb_true_r.
  - intros Hx. unfold object_at, FileStore.object_at. by rewrite Hx.
Qed.

Lemma current_holds pre cur :
  current_at (kpaths r) n cur →
  conditionsPass pre cur (bool_decide (is_Some cur)) = holds pre (version_at (mkStore (contents n) U) (rel_slash r)).
Proof.
  intros Hc%current_object. rewrite keyed_version. unfold conditionsPass, holds.
  assert (∀ x z : string, bool_decide (Some x = Some z) = bool_decide (x = z)) as Hs
    by (intros; apply bool_decide_ext; split; congruence).
  destruct cur as [a|]; [destruct Hc as (t & o & _ & -> & -> & _)|rewrite Hc]; cbn; by rewrite ?Hs.
Qed.

(** A change confined to the object's two files. *)
Lemma quiet_elsewhere X n' r' d t q q' :
  quiet X n n' → (∀ x, x ∈ X → x = dpath r ∨ x = mpath r) → r' ≠ r →
  (q = dpath r' ∧ q' = dpath r ∨ q = mpath r' ∧ q' = mpath r) →
  n' !! q = Some (Reg d t) ↔ n !! q = Some (Reg d t).
Proof.
  intros Hq HX Hne Hcase. destruct (Hq q) as [Hx|[Ht|[->|(Hn0 & Hd & _)]]]; [| |done|by rewrite Hn0, Hd].
  - destruct Hcase as [[-> _]|[-> _]]; destruct (HX _ Hx) as [E|E].
    + by apply dpath_inj in E.
    + by apply dpath_mpath in E.
    + symmetry in E. by apply dpath_mpath in E.
    + by apply mpath_inj in E.
  - exfalso. destruct Hcase as [[-> _]|[-> _]]; by apply (not_tmp (fileBucket rt h)) in Ht.
Qed.

Lemma quiet_objects X n' :
  quiet X n n' → (∀ x, x ∈ X → x = dpath r ∨ x = mpath r) → ∀ r', r' ≠ r → object_at n' r' = object_at n r'.
Proof.
  intros Hq HX r' Hne.
  pose proof (λ d t, quiet_elsewhere X n' r' d t (dpath r') (dpath r) Hq HX Hne (or_introl (conj eq_refl eq_refl))) as Hd.
  pose proof (λ d t, quiet_elsewhere X n' r' d t (mpath r') (mpath r) Hq HX Hne (or_intror (conj eq_refl eq_refl))) as Hm.
  apply option_eq. intros o. rewrite !object_at_Some. by setoid_rewrite Hd; setoid_rewrite Hm.
Qed.

Lemma quiet_sound X n' U' :
  quiet X n n' → (∀ x, x ∈ X → x = dpath r ∨ x = mpath r) → wf_tree n' → U ⊆ U' → "" ∉ U' →
  n' !! dpath r ≠ Some Dir → (∀ d t, n' !! dpath r = Some (Reg d t) → intact rt n' U' r d) →
  sound_tree n' U'.
Proof.
  intros Hq HX Hwf HU Hu Hdir Hint.
  pose proof (λ r' d t Hne, quiet_elsewhere X n' r' d t (dpath r') (dpath r) Hq HX Hne (or_introl (conj eq_refl eq_refl))) as Hd.
  pose proof (λ r' d t Hne, quiet_elsewhere X n' r' d t (mpath r') (mpath r) Hq HX Hne (or_intror (conj eq_refl eq_refl))) as Hm.
  split; [done|..|done].
  - intros r' d t Hx. destruct (decide (r' = r)) as [->|Hne]; [by apply (flat_plain K HK)|].
    apply Hd in Hx; [|done]. by eapply (sn_names _ _ _ _ Hn).
  - intros r' d t Hx. destruct (decide (r' = r)) as [->|Hne]; [by eapply Hint|]. apply Hd in Hx; [|done].
    destruct (sn_intact _ _ _ _ Hn _ _ _ Hx) as (c & tc & st & Hmm & ? & ? & ? & ?).
    exists c, tc, st. split_and!; [by apply Hm|done..|set_solver|done].
  - intros r' Hr'. destruct (decide (r' = r)) as [->|Hne]; [done|]. intros Hx.
    destruct (Hq (dpath r')) as [Hin|[Ht|[E|(_ & _ & Ha)]]].
    + destruct (HX _ Hin) as [E|E]; [by apply dpath_inj in E|by apply dpath_mpath in E].
    + by apply (not_tmp (fileBucket rt h)) in Ht.
    + apply (sn_flat _ _ _ _ Hn r' Hr'). congruence.
    + destruct Ha as [(u & Hu' & E)|(u & _ & E)].
      * apply (flat_above K HK r' r Hr' Hr). exists u. split; [done|]. cbn in E. unfold FileStore.dpath in E.
        rewrite <- app_assoc in E. by apply app_inv_head in E as [= ->].
      * cbn in E. unfold FileStore.dpath, FileStore.mpath in E. rewrite <- app_assoc in E. by apply app_inv_head in E.
Qed.

End object.

(** *** Reads *)

Section reads.
Context (y : sysenv) (Hh : honest y) (cx cx' : ctx).
Context (Hcx : ∀ e, cx = Some e → other_error e) (Hcx' : ∀ e, cx' = Some e → other_error e).
Context (h : Handle) (key : string) (r : path) (Hk : keyed (h_key h key) r).
Context (s : os) (U : gset string) (Hn : sound_tree (nodes s) U).

#[local] Abbreviation st := (mkStore (contents (nodes s)) U).
#[local] Abbreviation fb := (fileBucket rt h).

Lemma machine_other e : machine_error e → other_error e.
Proof. by intros [t ->]. Qed.

(** [readAttributes] of the object. *)
Lemma attributes_read res s' :
  readAttributes y (kpaths r) s = (res, s') →
  nodes s' = nodes s ∧
  match res with
  | Ok a => ∃ t o, nodes s !! dpath r = Some (Reg (so_data o) t) ∧ object_at (nodes s) r = Some o ∧
      a_Version a = so_version o ∧ a_Metadata a = so_meta o ∧ a_Size a = strlen (so_data o)
  | Err e => other_error e ∨ object_at (nodes s) r = None
  end.
Proof.
  intros Hx. destruct Hk as [Hr Ek]. pose proof (reads_readAttributes y (kpaths r) s) as Hrd. rewrite Hx in Hrd.
  split; [done|].
  apply (readAttributes_current fb (kpaths r) (kpaths_confined h r Hr) y (nodes s)) in Hx;
    [|done|exact (sn_wf _ _ _ _ Hn)|apply quiet_refl].
  destruct res as [a|e]; [exact (current_object r Hr _ U Hn _ Hx)|].
  destruct Hx as [[_ Hx]|Hx]; [right; exact (current_object r Hr _ U Hn _ Hx)|left; by apply machine_other].
Qed.

Lemma file_Attributes res s' :
  Attributes_ y cx fb key s = (res, s') →
  nodes s' = nodes s ∧
  read_spec (h_key h key) (λ o a, a_Version a = so_version o ∧ a_Metadata a = so_meta o) st res.
Proof.
  unfold Attributes_, check_ctx, lift, mbind, io_bind. destruct cx as [e|] eqn:E; cbn [fail mret io_ret].
  { intros [= <- <-]. split; [done|]. left. by apply Hcx. }
  rewrite (keyed_paths h key r Hk). destruct (readAttributes y (kpaths r) s) as [ra s1] eqn:Er.
  apply attributes_read in Er as [Hs Hra]. destruct Hk as [Hr ->].
  destruct ra as [a|e]; intros [= <- <-]; (split; [done|]); cbn; rewrite (keyed_contents r Hr _ U Hn); [|done].
  destruct Hra as (t & o & _ & Ho & Hv & Hm & _). by exists o.
Qed.

(** A reader of the whole object. *)
Lemma file_NewReader res s' :
  NewReader y cx fb key None s = (res, s') →
  nodes s' = nodes s ∧
  match res with
  | Ok rd => ∃ t o, contents (nodes s) !! h_key h key = Some o ∧
      rd = mkReader (Reg (so_data o) t) (mkSection 0 0 (strlen (so_data o))) (r_attrs rd)
  | Err e => other_error e ∨ contents (nodes s) !! h_key h key = None
  end.
Proof.
  unfold NewReader, NewRangeReader, check_ctx, check_hook, run_hook, lift, mbind, io_bind.
  destruct cx as [e|] eqn:E; cbn [fail mret io_ret option_bind mbind].
  { intros [= <- <-]. split; [done|]. left. by apply Hcx. }
  rewrite (bool_decide_false (0 < 0)) by lia. rewrite (keyed_paths h key r Hk).
  destruct (readAttributes y (kpaths r) s) as [ra s1] eqn:Er. apply attributes_read in Er as [Hs Hra].
  destruct Hk as [Hr ->]. rewrite (keyed_contents r Hr _ U Hn).
  destruct ra as [a|e]; [|by intros [= <- <-]]. destruct Hra as (t & o & Hd & Ho & _ & _ & Hsz).
  assert (walk_path (nodes s1) (dpath r) = Ok (Reg (so_data o) t)) as Hw.
  { rewrite Hs. apply walk_path_Ok. split; [|done]. apply (sn_wf _ _ _ _ Hn). by eexists. }
  unfold mapped, attempt, mbind, io_bind, Open, syscall. cbn [p_data kpaths FileStore.kpaths].
  destruct (y_fault y (calls s1)) as [e|] eqn:Ef; cbn.
  { intros [= <- <-]. split; [done|]. left. unfold mapError.
    destruct (honest_fault y _ _ Hh Ef) as [-> _]. by eapply machine_other, honest_machine. }
  rewrite Hw. cbn. intros [= <- <-]. split; [done|]. exists t, o. split; [done|]. cbn. rewrite Hsz.
  pose proof (strlen_nonneg (so_data o)). rewrite (bool_decide_false (strlen (so_data o) < 0)) by lia.
  by rewrite Z.sub_0_r.
Qed.

Lemma read_whole rd d t a s1 res s' :
  rd = mkReader (Reg d t) (mkSection 0 0 (strlen d)) a → read_to_end y rd s1 = (res, s') →
  nodes s' = nodes s1 ∧ match res with Ok d' => d' = d | Err e => other_error e end.
Proof.
  intros ->. unfold read_to_end, ReadSection, syscall. cbn [r_f r_section]. case_bool_decide as Hz.
  { intros [= <- <-]. split; [done|]. destruct d; [done|]. unfold strlen in Hz. cbn in Hz. lia. }
  destruct (y_fault y (calls s1)) as [e|] eqn:Ef; cbn; intros [= <- <-]; (split; [done|]).
  - by eapply machine_other, honest_machine.
  - blob_simpl. apply str_take_ge. unfold strlen. lia.
Qed.

Lemma file_ReadAll res s' :
  ReadAll y cx fb key s = (res, s') →
  nodes s' = nodes s ∧ read_spec (h_key h key) (λ o d, d = so_data o) st res.
Proof.
  unfold ReadAll, mbind, io_bind. destruct (NewReader y cx fb key None s) as [rr s1] eqn:Er.
  apply file_NewReader in Er as [Hs Hr]. destruct rr as [rd|e]; [|by intros [= <- <-]].
  destruct Hr as (t & o & Ho & Erd). intros Hx.
  destruct (read_whole _ _ _ _ _ _ _ Erd Hx) as [Hs' Hd]. split; [congruence|].
  destruct res as [d|e]; [by exists o|by left].
Qed.

(** *** Deletes and writes *)

(** A tree in which the two files of the object changed. *)
Lemma changed_tree X n' U' :
  quiet fb (kpaths r) X (nodes s) n' → (∀ x, x ∈ X → x = dpath r ∨ x = mpath r) → wf_tree n' → U ⊆ U' → "" ∉ U' →
  n' !! dpath r ≠ Some Dir → (∀ d t, n' !! dpath r = Some (Reg d t) → intact rt n' U' r d) →
  sound_tree n' U' ∧ contents n' = partial_alter (λ _, object_at n' r) (h_key h key) (contents (nodes s)).
Proof.
  destruct Hk as [Hr ->]. intros Hq HX Hwf HU Hu Hdir Hint.
  assert (sound_tree n' U') as Hn' by (by eapply (quiet_sound h r Hr _ U Hn X)). split; [done|].
  destruct (flat_plain K HK r Hr). apply contents_update; [exact (sn_names _ _ _ _ Hn)|exact (sn_names _ _ _ _ Hn')|done..|].
  by apply (quiet_objects h r _ X).
Qed.

(** A tree in which nothing of the objects changed. *)
Lemma unchanged_tree X n' :
  quiet fb (kpaths r) X (nodes s) n' → (∀ x, x ∈ X → x = dpath r ∨ x = mpath r) → wf_tree n' →
  n' !! dpath r = nodes s !! dpath r → n' !! mpath r = nodes s !! mpath r →
  sound_tree n' U ∧ contents n' = contents (nodes s).
Proof.
  intros Hq HX Hwf Ed Em. assert (object_at n' r = object_at (nodes s) r) as Eo.
  { unfold FileStore.object_at. by rewrite Ed, Em. }
  destruct (changed_tree X n' U Hq HX Hwf) as [Hn' Hc]; [done|exact (sn_used _ _ _ _ Hn)|..].
  - rewrite Ed. apply (sn_flat _ _ _ _ Hn). apply Hk.
  - intros d t. rewrite Ed. intros Hd. unfold intact. rewrite Em. by eapply (sn_intact _ _ _ _ Hn).
  - split; [done|]. rewrite Hc, Eo. destruct Hk as [Hr ->].
    rewrite <- (keyed_contents r Hr _ U Hn). apply partial_alter_self.
Qed.

(** The two removes of a delete; an error of the second is dropped. *)
Lemma remove_files o t s1 res s' :
  nodes s1 = nodes s → nodes s !! dpath r = Some (Reg (so_data o) t) →
  (_ ← mapped (Remove y (dpath r)); ignore (Remove y (mpath r))) s1 = (res, s') →
  match res with
  | Err e => other_error e ∧ nodes s' = nodes s
  | Ok _ => nodes s' !! dpath r = None ∧ ∀ q, q ≠ dpath r → q ≠ mpath r → nodes s' !! q = nodes s !! q
  end.
Proof.
  intros Hs1 Hd. unfold mapped, attempt, mbind, io_bind, Remove, syscall at 1.
  destruct (y_fault y (calls s1)) as [e|] eqn:Ef; cbn.
  { intros [= <- <-]. split; [|done]. unfold mapError.
    destruct (honest_fault y _ _ Hh Ef) as [-> _]. by eapply machine_other, honest_machine. }
  assert (walk_path (nodes s1) (dpath r) = Ok (Reg (so_data o) t)) as ->.
  { rewrite Hs1. apply walk_path_Ok. split; [|done]. apply (sn_wf _ _ _ _ Hn). by eexists. }
  cbn. set (s2 := mkOs _ _). assert (nodes s2 = delete (dpath r) (nodes s)) as Es2 by (cbn; by rewrite Hs1). intros Hx.
  assert (res = Ok tt ∧ (nodes s' = nodes s2 ∨ nodes s' = delete (mpath r) (nodes s2))) as [-> Hs'].
  { revert Hx. unfold ignore, syscall. destruct (y_fault y (calls s2)); cbn; [intros [= <- <-]; by auto|].
    destruct (walk_path _ (mpath r)) as [[|? ?]|]; [destruct (is_empty_dir _ _)|..]; intros [= <- <-]; by auto. }
  split.
  - destruct Hs' as [-> | ->]; rewrite Es2, ?lookup_delete_ne by (intros E'; symmetry in E'; by apply dpath_mpath in E');
      apply lookup_delete_eq.
  - intros q H1 H2. destruct Hs' as [-> | ->]; rewrite Es2, ?lookup_delete_ne by done; done.
Qed.

Lemma file_Delete pre res s' :
  Delete y cx fb key pre s = (res, s') →
  sound_tree (nodes s') U ∧
  ((∃ e, res = Err e ∧ other_error e ∧ contents (nodes s') = contents (nodes s)) ∨
   ∃ c, CompilePreconditions pre = Ok c ∧
     delete_spec (h_key h key) c st res (mkStore (contents (nodes s')) U)).
Proof.
  clear cx' Hcx'.
  intros Hx. pose proof (keeps_Delete y cx fb key pre s (sn_wf _ _ _ _ Hn)) as Hwf. rewrite Hx in Hwf. cbn in Hwf.
  revert Hx. unfold Delete, check_ctx, lift, mbind at 1 2 3 4, io_bind at 1 2 3 4.
  destruct cx as [e|] eqn:E; cbn [fail mret io_ret].
  { intros [= <- <-]. split; [done|]. left. exists e. by split_and!; [|apply Hcx|]. }
  destruct (CompilePreconditions pre) as [c|e] eqn:Ec.
  2: { intros [= <- <-]. split; [done|]. left. exists e. by split_and!; [|eapply compile_other|]. }
  rewrite (keyed_paths h key r Hk). destruct (statVersion y (kpaths r) s) as [rv s1] eqn:Er.
  pose proof (reads_statVersion y (kpaths r) s) as Hs1. rewrite Er in Hs1. cbn in Hs1. pose proof Hk as [Hr Ek].
  apply (statVersion_current fb (kpaths r) (kpaths_confined h r Hr) y (nodes s)) in Er;
    [|done|exact (sn_wf _ _ _ _ Hn)|apply quiet_refl].
  destruct rv as [cur|e]; cbn.
  2: { intros [= <- <-]. rewrite Hs1. split; [done|]. left. exists e. by split_and!; [|apply machine_other|]. }
  pose proof (current_object r Hr _ U Hn _ Er) as Hobj. pose proof (current_holds r Hr _ U Hn c _ Er) as Hhold.
  rewrite <- Ek in Hhold. destruct cur as [a|]; cbn.
  2: { intros [= <- <-]. rewrite Hs1. split; [done|]. right. exists c. split; [done|]. left. split; [done|]. right; left.
       cbn. rewrite Ek. by rewrite (keyed_contents r Hr _ U Hn). }
  cbn in Hhold. rewrite Hhold. destruct (holds c _) eqn:Eh; cbn.
  2: { intros [= <- <-]. rewrite Hs1. split; [done|]. right. exists c. split; [done|]. left. split; [done|]. by right; right. }
  destruct Hobj as (t & o & Hd & Ho & _). intros Hx. apply (remove_files o t s1 res s' Hs1 Hd) in Hx.
  destruct res as [u|e]; [|destruct Hx as [He Hs']; rewrite Hs'; split; [done|]; left; by exists e].
  destruct Hx as [Hgone Hother].
  destruct (changed_tree [dpath r; mpath r] (nodes s') U) as [Hn' Hc];
    [|set_solver|done|done|exact (sn_used _ _ _ _ Hn)|by rewrite Hgone|by rewrite Hgone|].
  - intros q. destruct (decide (q = dpath r)) as [->|]; [left; set_solver|].
    destruct (decide (q = mpath r)) as [->|]; [left; set_solver|]. right; right; left. by apply Hother.
  - split; [done|]. right. exists c. split; [done|]. split_and!; [|done|].
    + cbn. rewrite Ek, (keyed_contents r Hr _ U Hn), Ho. by eexists.
    + f_equal. rewrite Hc. unfold FileStore.object_at. by rewrite Hgone.
Qed.

(** A torn write: the data file is the new one, the sidecar is not. *)
Definition torn (d : bytes) (n n' : tree) : Prop :=
  n' !! dpath r ≠ n !! dpath r ∧ file n' (dpath r) d ∧ n' !! mpath r = n !! mpath r.

(** A tree in which the object's two files are those of a write of [d] with the
    attributes [a]. *)
Lemma stored_tree X n' d t a tm :
  quiet fb (kpaths r) X (nodes s) n' → (∀ x, x ∈ X → x = dpath r ∨ x = mpath r) → wf_tree n' →
  n' !! dpath r = Some (Reg d t) → n' !! mpath r = Some (Reg (mustMarshalAttrs a) tm) →
  encodable (stored_of a) → a_Metadata a ≠ Some ∅ → a_Size a = strlen d → a_Version a ≠ "" → a_Version a ∉ U →
  sound_tree n' (tokens U n') ∧
  mkStore (contents n') (tokens U n')
  = mkStore (<[h_key h key := mkSobject d (a_Metadata a) (a_Version a)]> (contents (nodes s))) ({[a_Version a]} ∪ U).
Proof.
  clear Hcx Hcx' cx cx' Hh y.
  intros Hq HX Hwf Hd Hm Henc Hmd Hsz Hv HvU. change (mustMarshalAttrs a) with (json_Marshal (stored_of a)) in Hm.
  pose proof (Unmarshal_Marshal _ Henc) as Hj.
  assert (object_at n' r = Some (mkSobject d (a_Metadata a) (a_Version a))) as Ho.
  { apply object_at_Some. exists d, t, (json_Marshal (stored_of a)), tm, (omitempty (stored_of a)).
    split_and!; [done..|]. cbn. f_equal. destruct (a_Metadata a) as [m|]; [|done]. rewrite bool_decide_false by congruence. done. }
  destruct (changed_tree X n' ({[a_Version a]} ∪ U) Hq HX Hwf) as [Hn' Hc]; [set_solver|..].
  - pose proof (sn_used _ _ _ _ Hn). set_solver.
  - by rewrite Hd.
  - intros d' t'. rewrite Hd. intros [= <- <-]. exists (json_Marshal (stored_of a)), tm, (omitempty (stored_of a)).
    split_and!; [done..|cbn; set_solver|done].
  - rewrite Ho in Hc. rewrite (tokens_put rt K _ U n' _ _ Hn Hc), Hc. done.
Qed.

Context (Hfresh : ∀ i, version_of y i ≠ "" ∧ version_of y i ∉ U).

(** The tree after a write that was not cut short. *)
Lemma whole_tree c o d n' :
  whole fb (kpaths r) y (nodes s) c o d n' → wf_tree n' → o_Metadata o ≠ Some ∅ →
  (∀ i j, encodable (stored_of (written_attrs o d (y_now y i) (version_of y j)))) →
  sound_tree n' (tokens U n') ∧ holds c (version_at st (h_key h key)) = true ∧
  put st (h_key h key) d (o_Metadata o) (mkStore (contents n') (tokens U n')).
Proof.
  intros (Hq & (cur & Hcur & Hpass) & [_ [t Hd]] & i & j & _ & tm & Hm) Hwf Hmd Henc. destruct (Hfresh j) as [Hv HvU].
  destruct (stored_tree _ _ _ _ _ _ Hq ltac:(cbn; set_solver) Hwf Hd Hm (Henc i j)) as [Hn' ->]; [done..|].
  split; [done|]. pose proof Hk as [Hr Ek]. split; [|by exists (version_of y j)].
  rewrite Ek, <- (current_holds r Hr _ U Hn c cur) by done. done.
Qed.

(** Nothing of the objects changed, and the tree is sound. *)
Definition untouched (n' : tree) : Prop := sound_tree n' (tokens U n') ∧ mkStore (contents n') (tokens U n') = st.

Lemma untouched_quiet X n' :
  quiet fb (kpaths r) X (nodes s) n' → X = [] ∨ X = [dpath r] ∧ n' !! dpath r = nodes s !! dpath r → wf_tree n' →
  untouched n'.
Proof.
  destruct Hk as [Hr _]. pose proof (kpaths_confined h r Hr) as Hconf. intros Hq HX Hwf.
  assert (n' !! mpath r = nodes s !! mpath r) as Em.
  { apply (quiet_other fb (kpaths r) Hconf X); [done|by right|]. cbn.
    destruct HX as [->|[-> _]]; [by intros ?%elem_of_nil|]. intros E%list_elem_of_singleton. symmetry in E.
    by apply dpath_mpath in E. }
  assert (n' !! dpath r = nodes s !! dpath r) as Ed.
  { destruct HX as [->|[_ ?]]; [|done]. apply (quiet_same fb (kpaths r) Hconf _ _ _ Hq). by left. }
  destruct (unchanged_tree X n' Hq) as [Hn' Hc]; [|done..|].
  - intros x Hx. destruct HX as [->|[-> _]]; [by apply elem_of_nil in Hx|]. left. by apply list_elem_of_singleton in Hx.
  - split; rewrite (tokens_same rt K _ U _ Hn Hc); [done|by rewrite Hc].
Qed.

(** A write that gets as far as its precondition has options that are in order. *)
Lemma refused_options p opts pre s' :
  WriteAll y cx cx' fb key p (Some opts) pre s = (Err ErrPreconditionFailed, s') →
  ∃ o o', PrepareWriteAllOptions (Some opts) p = Ok o ∧ WriterOptions_Clone (Some o) = Ok o'.
Proof.
  unfold WriteAll, NewWriter, lift, mbind, io_bind. destruct (PrepareWriteAllOptions (Some opts) p) as [o|e] eqn:Ho.
  2: { intros [= -> _]. by apply PrepareWriteAllOptions_Err in Ho. }
  destruct (CompilePreconditions pre) as [c|e] eqn:Ec; [|intros [= -> _]; by apply CompilePreconditions_Err in Ec].
  destruct (WriterOptions_Clone (Some o)) as [o'|e] eqn:Ho'; [by eauto|]. intros [= -> _]. by apply Clone_Err in Ho'.
Qed.

Lemma file_WriteAll p opts pre res s' :
  hook_ok (o_BeforeWrite opts) →
  (∀ o o', PrepareWriteAllOptions (Some opts) p = Ok o → WriterOptions_Clone (Some o) = Ok o' →
     o_Metadata o' ≠ Some ∅ ∧ ∀ i j, encodable (stored_of (written_attrs o' p (y_now y i) (version_of y j)))) →
  WriteAll y cx cx' fb key p (Some opts) pre s = (res, s') →
  (∃ e, res = Err e ∧ other_error e ∧ torn p (nodes s) (nodes s')) ∨
  sound_tree (nodes s') (tokens U (nodes s')) ∧
  spec (OWriteAll h key p opts pre) st res (mkStore (contents (nodes s')) (tokens U (nodes s'))).
Proof.
  intros Hhook Hopts Hx. pose proof Hk as [Hr Ek]. pose proof (kpaths_confined h r Hr) as Hconf.
  pose proof (keyed_paths h key r Hk) as Hpa.
  assert (wf_tree (nodes s')) as Hwf.
  { replace s' with (res, s').2 by done. rewrite <- Hx. apply keeps_WriteAll; [|exact (sn_wf _ _ _ _ Hn)].
    rewrite Hpa. intros ? [= <-]. apply paths_ne. }
  assert (∀ e, other_error e → untouched (nodes s') → res = Err e →
    sound_tree (nodes s') (tokens U (nodes s')) ∧
    spec (OWriteAll h key p opts pre) st res (mkStore (contents (nodes s')) (tokens U (nodes s')))) as Hidle.
  { intros e He [Hn' ->] ->. split; [done|]. left. by exists e. }
  pose proof (hoare_WriteAll fb (kpaths r) Hconf y (nodes s) Hh (sn_wf _ _ _ _ Hn) other_error cx cx' key p (Some opts) pre
    Hpa Hhook Hcx Hcx' s (quiet_refl _ _ _)) as Hw. rewrite Hx in Hw. destruct res as [[]|e].
  - destruct Hw as (c & o & o' & Hc & Ho & Ho' & Hw). destruct (Hopts _ _ Ho Ho') as [Hmd Henc].
    destruct (writeall_options _ _ _ _ Ho Ho') as (md & md' & Hm & Hm' & Emd & _).
    destruct (whole_tree _ _ _ _ Hw Hwf Hmd Henc) as (Hn' & Hhold & Hput). right. split; [done|]. right.
    exists c, md, md'. split_and!; [done..|]. split; [done|]. by rewrite <- Emd.
  - destruct Hw as [[Hq He]|[(Hq & -> & c & Hc & cur & Hcur & Href)|(He & c & Hc & Hq & Hf & _)]].
    + right. apply (Hidle e); [|by eapply untouched_quiet; eauto|done].
      destruct He as [?|[?| ->]]; [done|by apply machine_other|done].
    + right. destruct (untouched_quiet [] (nodes s') Hq) as [Hn' ->]; [by left|done|]. split; [done|]. right.
      destruct (refused_options _ _ _ _ Hx) as (o & o' & Ho & Ho').
      destruct (writeall_options _ _ _ _ Ho Ho') as (md & md' & Hm & Hm' & _).
      exists c, md, md'. split_and!; [done..|]. left. split; [done|]. right.
      by rewrite Ek, <- (current_holds r Hr _ U Hn c cur).
    + destruct (decide (nodes s' !! dpath r = nodes s !! dpath r)) as [Ed|Ed].
      * right. apply (Hidle e); [by apply machine_other|by eapply untouched_quiet; eauto|done].
      * left. exists e. split_and!; [done|by apply machine_other|]. split_and!; [done..|].
        apply (quiet_other fb (kpaths r) Hconf [dpath r]); [done|by right|]. intros E%list_elem_of_singleton.
        symmetry in E. by apply dpath_mpath in E.
Qed.

End reads.

(** *** Listings *)

Section listing.
Context (y : sysenv) (Hh : honest y) (cx : ctx) (h : Handle) (s : os) (U : gset string) (Hn : sound_tree (nodes s) U).

#[local] Abbreviation fb := (fileBucket rt h).

Lemma file_list_loop opts infos keys seen s1 :
  let '(res, s2) := list_loop y fb opts infos keys seen s1 in
  nodes s2 = nodes s1 ∧
  match res with
  | Ok l => ∀ obj, obj ∈ l → lo_IsDir obj = false → ∃ k, k ∈ keys ∧ lo_Key obj = TrimPrefix k (h_prefix h)
  | Err _ => True
  end.
Proof.
  revert seen s1. induction keys as [|k keys IH]; intros seen s1; cbn [list_loop].
  { split; [done|]. by intros obj ?%elem_of_nil. }
  destruct (dirKey opts _) as [dk|].
  - case_bool_decide.
    + specialize (IH seen s1). destruct (list_loop _ _ _ _ _ _ s1) as [res s2]. destruct IH as [Hs Hl]. split; [done|].
      destruct res as [l|]; [|done]. intros obj Ho Hd. destruct (Hl obj Ho Hd) as (k' & ? & ?). exists k'. by split; [right|].
    + unfold mbind, io_bind. specialize (IH ({[dk]} ∪ seen) s1). destruct (list_loop _ _ _ _ _ _ s1) as [[l|] s2]; [|by destruct IH].
      destruct IH as [Hs Hl]. split; [done|]. intros obj [->|Ho]%elem_of_cons Hd; [done|].
      destruct (Hl obj Ho Hd) as (k' & ? & ?). exists k'. by split; [right|].
  - unfold attempt, mbind, io_bind.
    match goal with |- context [readAttributes y ?q s1] =>
      pose proof (reads_readAttributes y q s1) as Hr; destruct (readAttributes y q s1) as [ra s2] end. cbn in Hr.
    specialize (IH seen s2). destruct (list_loop _ _ _ _ _ _ s2) as [[l|] s3]; destruct IH as [Hs Hl]; [|by rewrite Hs].
    split; [cbn; congruence|]. intros obj [->|Ho]%elem_of_cons Hd; [exists k; by split; [left|]|].
    destruct (Hl obj Ho Hd) as (k' & ? & ?). exists k'. by split; [right|].
Qed.

Lemma walk_files res s' :
  WalkFiles y (dpath []) s = (res, s') →
  nodes s' = nodes s ∧
  match res with Ok l => ∀ rel info, (rel, info) ∈ l → is_Some (contents (nodes s) !! rel_slash rel) | Err _ => True end.
Proof.
  unfold WalkFiles, syscall. destruct (y_fault y (calls s)) as [e|] eqn:Ef.
  { destruct (honest_fault y _ _ Hh Ef) as [-> _]. intros [= <- <-]. done. }
  destruct (walk_path (nodes s) (dpath [])) as [x|e]; cbn.
  2: { destruct (Is e ErrNotExist); intros [= <- <-]; [|done]. split; [done|]. by intros rel info ?%elem_of_nil. }
  intros [= <- <-]. split; [done|]. intros rel info Hl. unfold files_below in Hl.
  apply list_elem_of_omap in Hl as ([q z] & Hq & Hz). apply elem_of_map_to_list in Hq. destruct z as [|d t]; [done|].
  case_bool_decide as Eb; [|done]. injection Hz as <- _. rewrite <- (take_drop (length (dpath [])) q), Eb in Hq.
  set (rel := drop _ q) in *. assert (dpath [] ++ rel = dpath rel) as E by (unfold FileStore.dpath; by rewrite <- app_assoc).
  rewrite E in Hq. destruct (sn_names _ _ _ _ Hn _ _ _ Hq) as [Hne Hpl].
  rewrite contents_at by (done || exact (sn_names _ _ _ _ Hn)).
  destruct (intact_object _ _ _ _ _ _ Hq (sn_intact _ _ _ _ Hn _ _ _ Hq)) as (o & -> & _). by eexists.
Qed.

(** The files among listed objects are objects of the bucket. *)
Definition listed (l : list ListObject) : Prop :=
  ∀ obj, obj ∈ l → lo_IsDir obj = false → is_Some (contents (nodes s) !! h_key h (lo_Key obj)).

Lemma file_listObjects opts res s' :
  listObjects y fb opts s = (res, s') →
  nodes s' = nodes s ∧ match res with Ok l => listed l | Err _ => True end.
Proof.
  unfold listObjects, mbind, io_bind. change (root fb ++ [dataSubdir]) with (dpath []).
  destruct (WalkFiles y (dpath []) s) as [rw s1] eqn:Ew. apply walk_files in Ew as [Hs1 Hw].
  destruct rw as [found|e]; [|by intros [= <- <-]]. set (kept := filter _ _).
  pose proof (file_list_loop opts (list_to_map kept) (merge_sort String.le kept.*1) ∅ s1) as Hl.
  intros Hx. rewrite Hx in Hl. destruct Hl as [Hs Hl]. split; [congruence|]. destruct res as [l|]; [|done].
  intros obj Ho Hd. destruct (Hl obj Ho Hd) as (k & Hk & ->). rewrite merge_sort_Permutation in Hk.
  apply list_elem_of_fmap in Hk as ([k' info] & -> & Hk). apply list_elem_of_filter in Hk as [Hp Hk]. cbn in Hp |- *.
  apply list_elem_of_fmap in Hk as ([rel info'] & [= -> ->] & Hk).
  apply HasPrefix_spec in Hp as [x Hp]. unfold objectKey in Hp. cbn in Hp. rewrite string_app_assoc in Hp.
  specialize (Hw _ _ Hk). rewrite Hp in Hw |- *. by rewrite TrimPrefix_app.
Qed.

Lemma file_ListPage token size opts res s' :
  ListPage y cx fb token size (Some opts) s = (res, s') →
  nodes s' = nodes s ∧ match res with Ok (Some (page, _)) => listed page | _ => True end.
Proof.
  unfold ListPage, mbind, io_bind, lift, check_hook. destruct cx as [e|]; cbn [check_ctx fail mret io_ret]; [by intros [= <- <-]|].
  case_bool_decide; [by intros [= <- <-]|]. destruct (decodePageToken token) as [start|]; [|by intros [= <- <-]].
  destruct (run_hook _); [by intros [= <- <-]|]. cbn [mret io_ret].
  destruct (listObjects y fb _ s) as [rl s1] eqn:El. apply file_listObjects in El as [Hs Hl].
  destruct rl as [l|e]; [|by intros [= <- <-]].
  case_bool_decide; [intros [= <- <-]; split; [done|]; by intros obj ?%elem_of_nil|].
  case_bool_decide; intros [= <- <-]; (split; [done|]); [|done].
  intros obj Ho%elem_of_window. by apply Hl.
Qed.

End listing.

(** ** The contract *)

(** The times and tokens a machine may draw, and a call whose attributes JSON can
    carry with them.  An empty metadata map would read back as nil. *)
Context (okt : Z → Prop) (okv : string → Prop).

Definition file_ok (o : op) : Prop :=
  match o with
  | OAttributes h key | OReadAll h key | ONewReader h key | ODelete h key _ => ∃ r, keyed (h_key h key) r
  | OWriteAll h key p opts _ => (∃ r, keyed (h_key h key) r) ∧ hook_ok (o_BeforeWrite opts) ∧
      ∀ o o', PrepareWriteAllOptions (Some opts) p = Ok o → WriterOptions_Clone (Some o) = Ok o' →
        o_Metadata o' ≠ Some ∅ ∧
        ∀ now v, okt now → okv v → encodable (stored_of (written_attrs o' p now v))
  | _ => True
  end.

(** A machine during one call: its faults are errors of its own, and a token it
    draws has not been given out.  (Tokens are 16 random bytes in hex.) *)
Record machine_ok (U : gset string) (y : sysenv) (cx cx' : ctx) : Prop := {
  mo_honest : honest y;
  mo_ctx e : cx = Some e ∨ cx' = Some e → other_error e;
  mo_time i : okt (y_now y i);
  mo_token i : okv (version_of y i);
  mo_fresh i : version_of y i ≠ "" ∧ version_of y i ∉ U;
}.

(** The outcome the contract does not have. *)
Definition torn_call (o : op) (n n' : tree) : ans o → Prop :=
  match o return ans o → Prop with
  | OWriteAll h key p _ _ => λ res, ∃ r e, keyed (h_key h key) r ∧ res = Err e ∧ other_error e ∧ torn r p n n'
  | _ => λ _, False
  end.

Lemma file_step y cx cx' o s a s' U :
  machine_ok U y cx cx' → file_ok o → sound_tree (nodes s) U → file_exec rt y cx cx' o s = (Some a, s') →
  torn_call o (nodes s) (nodes s') a ∨
  sound_tree (nodes s') (tokens U (nodes s')) ∧
  spec o (mkStore (contents (nodes s)) U) a (mkStore (contents (nodes s')) (tokens U (nodes s'))).
Proof.
  intros Hmo Ho Hn Hx. pose proof (mo_honest _ _ _ _ Hmo) as Hh.
  assert (∀ e, cx = Some e → other_error e) as Hcx by (intros; eapply (mo_ctx _ _ _ _ Hmo); by left).
  assert (∀ e, cx' = Some e → other_error e) as Hcx' by (intros; eapply (mo_ctx _ _ _ _ Hmo); by right).
  assert (nodes s' = nodes s → mkStore (contents (nodes s')) (tokens U (nodes s')) = mkStore (contents (nodes s)) U) as Hsame.
  { intros ->. by rewrite (tokens_same rt K _ U _ Hn). }
  assert (nodes s' = nodes s → sound_tree (nodes s') (tokens U (nodes s'))) as Hsound.
  { intros ->. by rewrite (tokens_same rt K _ U _ Hn). }
  destruct o; cbn [file_exec] in Hx; try done; cbn in Ho.
  - destruct Ho as [r Hk]. destruct (Attributes_ _ _ _ _ _) as [res s1] eqn:E. injection Hx as <- <-. right.
    destruct (file_Attributes y Hh cx Hcx b key r Hk s U Hn _ _ E) as [Hs Hr]. split; [by apply Hsound|].
    split; [by apply Hsame|done].
  - destruct Ho as [r Hk]. destruct (ReadAll _ _ _ _ _) as [res s1] eqn:E. injection Hx as <- <-. right.
    destruct (file_ReadAll y Hh cx Hcx b key r Hk s U Hn _ _ E) as [Hs Hr]. split; [by apply Hsound|].
    split; [by apply Hsame|done].
  - destruct Ho as [r Hk]. right. destruct (NewReader _ _ _ _ _ _) as [res s1] eqn:E.
    destruct (file_NewReader y Hh cx Hcx b key r Hk s U Hn _ _ E) as [Hs Hr]. destruct res as [rd|e].
    + destruct Hr as (t & o & Ho & Erd). destruct (read_to_end y rd s1) as [rr s2] eqn:Er.
      destruct (read_whole y Hh _ _ _ _ _ _ _ Erd Er) as [Hs2 Hd].
      destruct rr as [d|e]; injection Hx as <- <-; (split; [apply Hsound; congruence|]); (split; [apply Hsame; congruence|]);
        exists o; (split; [done|]); [by left|right; by eexists].
    + injection Hx as <- <-. split; [by apply Hsound|]. split; [by apply Hsame|done].
  - right. destruct (ListPage _ _ _ _ _ _ _) as [res s1] eqn:E.
    destruct (file_ListPage y Hh cx b s U Hn _ _ _ _ _ E) as [Hs Hl].
    destruct res as [[[page next]|]|e]; [|done|]; injection Hx as <- <-; (split; [by apply Hsound|]);
      (split; [by apply Hsame|done]).
  - destruct Ho as ([r Hk] & Hhook & Hopts). destruct (WriteAll _ _ _ _ _ _ _ _ _) as [res s1] eqn:E. injection Hx as <- <-.
    destruct (file_WriteAll y Hh cx cx' Hcx Hcx' b key r Hk s U Hn (mo_fresh _ _ _ _ Hmo) p opts pre res s1 Hhook)
      as [(e & -> & He & Ht)|Hw]; [|done|left; by exists r, e|by right].
    intros o o' Ho Ho'. destruct (Hopts o o' Ho Ho') as [Hmd Henc]. split; [done|]. intros i j. apply Henc; apply Hmo.
  - destruct Ho as [r Hk]. destruct (Delete _ _ _ _ _ _) as [res s1] eqn:E. injection Hx as <- <-. right.
    destruct (file_Delete y Hh cx Hcx b key r Hk s U Hn _ _ _ E) as [Hn' Hd].
    assert (tokens U (nodes s1) = U) as HU.
    { apply leibniz_equiv. pose proof (sound_versions _ _ _ _ Hn'). unfold tokens. set_solver. }
    rewrite HU. split; [done|]. destruct Hd as [(e & -> & He & Hc)|Hd]; [left|by right].
    exists e. split_and!; [done..|]. by rewrite Hc.
Qed.

End calls.

(** C8: the file driver implements the store contract on clean keys, except that a
    write can be torn.  The keys are those of a flat set: each is a clean path (no
    empty, [.] or [..] component) and none is a directory of another; other keys
    are paths of other objects, or no objects at all.  The options of a write are
    such that JSON can carry them, and its metadata are not an empty map.
    Whatever system calls fail: from a tree of whole objects under such keys every
    answer and change of attributes, whole reads, listings, writes and deletes is
    one the contract allows, and leaves a tree of whole objects; or it is a
    [WriteAll] that returned an error of its own, with the new bytes in place under
    a sidecar that is still the old one. *)
Theorem file_refines_store `{GoTables} `{Json} rt K okt okv y cx cx' o s a s' U :
  Forall plain rt → flat K → machine_ok okt okv U y cx cx' → file_ok K okt okv o → sound_tree rt K (nodes s) U →
  file_exec rt y cx cx' o s = (Some a, s') →
  torn_call rt K o (nodes s) (nodes s') a ∨
  ∃ U', U ⊆ U' ∧ sound_tree rt K (nodes s') U' ∧
    spec o (mkStore (contents rt (nodes s)) U) a (mkStore (contents rt (nodes s')) U').
Proof.
  intros Hrt HK Hmo Ho Hn Hx. destruct (file_step rt K Hrt HK okt okv _ _ _ _ _ _ _ _ Hmo Ho Hn Hx) as [?|[? ?]]; [by left|].
  right. exists (tokens rt U (nodes s')). split_and!; [unfold tokens; set_solver|done..].
Qed.
