(* ===== verification/FileReads.v ===== *)
(** * Readers of the file driver

    A range reader delivers its range of the object whatever the sizes of the
    buffers it is read with, and after every seek the rest from there. *)
From S2P Require Import Prelude Strconv GoTime Md5 Core Effects Store Filesystem FileDriver FileTheorems FileStore.
Import File.

Section reads.
Context `{GoTables} `{Json} (y : sysenv) (Hy : no_faults y).

(** [io.ReadAll] of a reader: [lens i] is the room in the buffer at the i-th
    call, kept positive; [None] is running out of fuel. *)
Fixpoint ReadAll_file (fuel : nat) (lens : nat → Z) (acc : bytes) (r : reader) : io (option (result bytes)) :=
  match fuel with
  | O => mret None
  | S fuel =>
    '(p, err, r) ← Read y (lens 0%nat) r;
    match err with
    | None => ReadAll_file fuel (λ i, lens (S i)) (acc +:+ p) r
    | Some e => mret (Some (if bool_decide (e = EOF) then Ok (acc +:+ p) else Err e))
    end
  end.

(** What is left of a section. *)
Definition rest (c : bytes) (off limit : Z) : bytes := str_take (Z.to_nat (limit - off)) (str_drop (Z.to_nat off) c).

Lemma rest_split c off limit k :
  0 ≤ off → 0 ≤ k ≤ limit - off → limit ≤ strlen c →
  rest c off limit = str_take (Z.to_nat k) (str_drop (Z.to_nat off) c) +:+ rest c (off + k) limit ∧
  strlen (str_take (Z.to_nat k) (str_drop (Z.to_nat off) c)) = k.
Proof.
  intros Ho Hk Hl. unfold rest. set (x := str_drop (Z.to_nat off) c).
  assert (strlen (str_take (Z.to_nat k) x) = k) as Hlen.
  { unfold x, strlen in *. rewrite str_length_take, str_length_drop. lia. }
  split; [|done]. rewrite <- (str_take_drop (Z.to_nat k) x) at 1. rewrite str_take_app_ge by (unfold strlen in Hlen; lia).
  f_equal. unfold x. rewrite str_drop_drop. f_equal; [unfold x, strlen in Hlen; lia|]. f_equal. lia.
Qed.

(** A read delivers a positive part of what is left, or reports its end. *)
Lemma Read_step c t base off limit a len s :
  0 ≤ off → limit ≤ strlen c → 0 < len →
  let r := mkReader (Reg c t) (mkSection base off limit) a in
  if bool_decide (limit ≤ off) then Read y len r s = (Ok ("", Some EOF, r), s)
  else ∃ k s', 0 < k ≤ limit - off ∧ nodes s' = nodes s ∧
    Read y len r s = (Ok (str_take (Z.to_nat k) (str_drop (Z.to_nat off) c), None, set_off (off + k) r), s').
Proof.
  intros Ho Hl Hlen r. unfold Read, r. cbn [r_section r_f]. case_bool_decide as E; [done|].
  set (k := Z.min len (limit - off)). exists k. eexists. split; [unfold k; lia|]. split; [|
    unfold attempt, mbind, io_bind, ReadSection, syscall; rewrite Hy; cbn;
    destruct (rest_split c off limit k Ho ltac:(unfold k; lia) Hl) as [_ ->]; rewrite bool_decide_false by lia; reflexivity].
  done.
Qed.

Lemma reads_rest c t base limit a fuel lens acc off s :
  0 ≤ off → limit ≤ strlen c → (∀ i, 0 < lens i) → (Z.to_nat (limit - off) < fuel)%nat →
  ∃ s', nodes s' = nodes s ∧
    ReadAll_file fuel lens acc (mkReader (Reg c t) (mkSection base off limit) a) s
    = (Ok (Some (Ok (acc +:+ rest c off limit))), s').
Proof.
  revert lens acc off s. induction fuel as [|fuel IH]; intros lens acc off s Ho Hl Hlens Hf; [lia|].
  pose proof (Read_step c t base off limit a (lens 0%nat) s Ho Hl (Hlens 0%nat)) as Hs. cbn zeta in Hs.
  cbn [ReadAll_file]. unfold mbind, io_bind. case_bool_decide as E.
  - rewrite Hs. exists s. split; [done|]. cbn. unfold rest. replace (Z.to_nat (limit - off)) with 0%nat by lia. done.
  - destruct Hs as (k & s1 & Hk & Hn & ->).
    destruct (IH (λ i, lens (S i)) (acc +:+ str_take (Z.to_nat k) (str_drop (Z.to_nat off) c)) (off + k) s1)
      as (s' & Hn' & E'); [lia|done|done|lia|].
    exists s'. split; [congruence|]. destruct (rest_split c off limit k Ho ltac:(lia) Hl) as [-> _].
    rewrite <- string_app_assoc. exact E'.
Qed.

(** [delivers r d]: reading [r] to its end ends, with exactly [d]. *)
Definition delivers (r : reader) (d : bytes) : Prop :=
  ∃ m, ∀ fuel lens s, (m < fuel)%nat → (∀ i, 0 < lens i) →
    ∃ s', nodes s' = nodes s ∧ ReadAll_file fuel lens "" r s = (Ok (Some (Ok d)), s').

Lemma delivers_rest c t base off limit a :
  0 ≤ off → limit ≤ strlen c → delivers (mkReader (Reg c t) (mkSection base off limit) a) (rest c off limit).
Proof.
  intros Ho Hl. exists (Z.to_nat (limit - off)). intros fuel lens s Hf Hlens. by apply reads_rest.
Qed.

(** The part of an object a range asks for. *)
Definition range (d : bytes) (offset length : Z) : bytes :=
  let tail := str_drop (Z.to_nat offset) d in
  if bool_decide (length < 0) then tail else str_take (Z.to_nat length) tail.

Context (rt : path) (K : path → Prop) (Hrt : Forall plain rt) (HK : flat K).

(** What a call that does not fail reads of an object. *)
Lemma sound_readAttributes r s U o :
  sound_tree rt K (nodes s) U → object_at rt (nodes s) r = Some o →
  ∃ t a, walk_path (nodes s) (dpath rt r) = Ok (Reg (so_data o) t) ∧ a_Size a = strlen (so_data o) ∧
    readAttributes y (kpaths rt r) s = (Ok a, mkOs (nodes s) (S (S (calls s)))).
Proof.
  intros Hn Ho. destruct (object_at_data rt _ _ _ Ho) as [t Ht].
  destruct (sn_intact _ _ _ _ Hn _ _ _ Ht) as (c & tc & st & Hm & Hj & Hv & _ & Hsz).
  assert (∀ q x, nodes s !! q = Some x → walk_path (nodes s) q = Ok x) as Hwalk.
  { intros q x Hq. apply walk_path_Ok. split; [|done]. apply (sn_wf _ _ _ _ Hn). by rewrite Hq. }
  exists t. eexists. split; [by apply Hwalk|]. split; [|
    unfold readAttributes, mapped, attempt, mbind, io_bind;
    rewrite (intact_Stat y (p_data (kpaths rt r)) s _ Hy (Hwalk _ _ Ht)); cbn [mret io_ret];
    rewrite (intact_ReadFile y (p_meta (kpaths rt r)) (mkOs (nodes s) (S (calls s))) c tc Hy (Hwalk _ _ Hm));
    unfold lift; rewrite Hj; reflexivity].
  cbn. rewrite (bool_decide_false (st_Version st = "")) by done. by rewrite orb_true_r.
Qed.

(** The section of a range is the range. *)
Lemma range_section d offset length :
  0 ≤ offset →
  let off := if bool_decide (strlen d < offset) then strlen d else offset in
  let n := if bool_decide (0 ≤ length) && bool_decide (length < strlen d - off) then length else strlen d - off in
  0 ≤ off ≤ offset ∧ 0 ≤ n ∧ off + n ≤ strlen d ∧ range d offset length = rest d off (off + n).
Proof.
  intros Ho off n. pose proof (strlen_nonneg d).
  assert (0 ≤ off ≤ offset ∧ off ≤ strlen d) as [Hoff Hle] by (unfold off; case_bool_decide; lia).
  assert (0 ≤ n ∧ off + n ≤ strlen d) as [Hn Hn'] by (unfold n; repeat case_bool_decide; cbn; lia).
  split_and!; try lia. unfold range, rest.
  assert (str_drop (Z.to_nat offset) d = str_drop (Z.to_nat off) d) as ->.
  { unfold off. case_bool_decide; [|done]. unfold strlen in *. rewrite !str_drop_ge by lia. done. }
  set (x := str_drop (Z.to_nat off) d). assert (String.length x = Z.to_nat (strlen d - off)) as Hx.
  { unfold x, strlen. rewrite str_length_drop. lia. }
  replace (off + n - off) with n by lia. unfold n.
  case_bool_decide as Hneg; [rewrite (bool_decide_false (0 ≤ length)) by lia; cbn; by rewrite str_take_ge by lia|].
  rewrite (bool_decide_true (0 ≤ length)) by lia. cbn. case_bool_decide; [done|]. by rewrite !str_take_ge by lia.
Qed.

Lemma rest_drop d off limit target :
  0 ≤ off → 0 ≤ target → off ≤ limit ≤ strlen d →
  str_drop (Z.to_nat target) (rest d off limit) = rest d (off + target) limit.
Proof.
  intros Ho Ht Hl. destruct (decide (target ≤ limit - off)) as [Hle|Hgt].
  - destruct (rest_split d off limit target Ho ltac:(lia) ltac:(lia)) as [-> Hlen].
    set (x := str_take _ _) in *. unfold strlen in Hlen. replace (Z.to_nat target) with (String.length x) by lia.
    apply str_drop_app.
  - unfold rest. replace (Z.to_nat (limit - (off + target))) with 0%nat by lia.
    rewrite str_drop_ge; [done|]. rewrite str_length_take. lia.
Qed.

(** A range read of the file driver delivers the range.  Of an object in a tree of
    whole objects, with calls that do not fail: opening the range succeeds,
    reading it to the end terminates with exactly its bytes, clipped to the
    object, in whatever pieces it is read; after a [Seek] to a position, counted
    from the start or from where it stands, it delivers exactly the rest. *)
Theorem file_range_read h key r offset length s U o :
  keyed K (h_key h key) r → sound_tree rt K (nodes s) U → object_at rt (nodes s) r = Some o →
  0 ≤ offset → strlen (so_data o) ≤ int64_max →
  ∃ rd s', NewRangeReader y None (fileBucket rt h) key offset length None s = (Ok rd, s') ∧
    nodes s' = nodes s ∧ reader_Size rd = strlen (so_data o) ∧ delivers rd (range (so_data o) offset length) ∧
    ∀ target, 0 ≤ target ≤ int64_max - offset →
      ∃ rd', Seek target 0 rd = (Ok target, rd') ∧ Seek target 1 rd = (Ok target, rd') ∧
        delivers rd' (str_drop (Z.to_nat target) (range (so_data o) offset length)).
Proof.
  intros Hk Hn Ho Hoff Hsz. pose proof (keyed_paths rt K Hrt HK h key r Hk) as Hpa.
  destruct (sound_readAttributes r s U o Hn Ho) as (t & a & Hw & Ha & Hr).
  destruct (range_section (so_data o) offset length Hoff) as (Hoff' & Hn' & Hlim & Erange).
  set (size := strlen (so_data o)) in *. set (off := if bool_decide (size < offset) then size else offset) in *.
  set (n := if bool_decide (0 ≤ length) && bool_decide (length < size - off) then length else size - off) in *.
  exists (mkReader (Reg (so_data o) t) (mkSection off off (off + n)) a), (mkOs (nodes s) (S (S (S (calls s))))). rewrite Erange.
  split; [|split; [done|split; [done|split; [by apply delivers_rest; lia|]]]].
  - unfold NewRangeReader, check_ctx, check_hook, run_hook, lift, mbind, io_bind.
    cbn [mret io_ret option_bind mbind]. rewrite (bool_decide_false (offset < 0)) by lia. rewrite Hpa, Hr.
    unfold mapped, attempt, mbind, io_bind.
    rewrite (intact_Open y (p_data (kpaths rt r)) (mkOs (nodes s) (S (S (calls s)))) _ Hy Hw). cbn [mret io_ret nodes calls]. by rewrite Ha.
  - intros target Ht. exists (mkReader (Reg (so_data o) t) (mkSection off (off + target) (off + n)) a).
    assert (wrap64 (target + off) = off + target) as Hwrap.
    { rewrite wrap64_id by (unfold int64_min, int64_max in *; lia). lia. }
    assert (∀ w, w = 0 ∨ w = 1 → Seek target w (mkReader (Reg (so_data o) t) (mkSection off off (off + n)) a)
      = (Ok target, mkReader (Reg (so_data o) t) (mkSection off (off + target) (off + n)) a)) as Hseek.
    { intros w Hcase. unfold Seek. cbn [r_section].
      assert ((if w =? 0 then Some (wrap64 (target + off)) else if w =? 1 then Some (wrap64 (target + off))
        else if w =? 2 then Some (wrap64 (target + (off + n))) else None) = Some (off + target)) as ->
        by (destruct Hcase as [-> | ->]; cbn; by rewrite Hwrap).
      rewrite (proj2 (Z.ltb_ge _ _)) by lia. unfold set_off. cbn. do 2 f_equal.
      rewrite wrap64_id by (unfold int64_min, int64_max in *; lia). lia. }
    split; [apply Hseek; by left|]. split; [apply Hseek; by right|].
    rewrite rest_drop by lia. apply delivers_rest; lia.
Qed.
End reads.
