(* ===== verification/FileUpdates.v ===== *)
(** * Metadata updates of the file driver

    What [UpdateMetadata] leaves of the objects of the bucket, whatever system calls fail. *)
From S2P Require Import Prelude Strconv GoTime Md5 Core Effects Store Filesystem FileDriver FileTheorems FileStore.
Import File.

Section updates.
Context `{GoTables} `{Json} (rt : path) (K : path → Prop) (Hrt : Forall plain rt) (HK : flat K).
Context (y : sysenv) (Hh : honest y) (cx : ctx) (Hcx : ∀ e, cx = Some e → other_error e).
Context (h : Handle) (s : os) (U : gset string) (Hn : sound_tree rt K (nodes s) U).
Context (Hfresh : ∀ i, version_of y i ≠ "" ∧ version_of y i ∉ U).

#[local] Abbreviation fb := (fileBucket rt h).
#[local] Abbreviation contents := (contents rt).
#[local] Abbreviation st := (mkStore (contents (nodes s)) U).

(** The bucket after a call: the store it shows, and that it is sound. *)
Definition shows (s' : os) (st' : store) : Prop :=
  sound_tree rt K (nodes s') (tokens rt U (nodes s')) ∧ mkStore (contents (nodes s')) (tokens rt U (nodes s')) = st'.

Lemma shows_same s' : nodes s' = nodes s → shows s' st.
Proof. intros E. unfold shows. rewrite E, (tokens_same rt K _ U _ Hn) by done. done. Qed.

(** [UpdateMetadata] replaces the metadata under a new token and nothing else, and
    answers with that token; or it fails and changes nothing, with [ErrNotFound]
    only if there is no object.  It cannot be torn: it writes the sidecar only. *)
Theorem file_update_metadata key r md res s' :
  keyed K (h_key h key) r →
  (∀ cur md' i, current_at (kpaths rt r) (nodes s) (Some cur) → NormalizeMetadata md = Ok md' →
     md' ≠ Some ∅ ∧ encodable (stored_of (update_attrs (Attributes_Clone cur) md' (version_of y i)))) →
  UpdateMetadata y cx fb key md s = (res, s') →
  match res with
  | Ok v => ∃ o md', contents (nodes s) !! h_key h key = Some o ∧ NormalizeMetadata md = Ok md' ∧ v ≠ "" ∧ v ∉ U ∧
      shows s' (mkStore (<[h_key h key := mkSobject (so_data o) md' v]> (contents (nodes s))) ({[v]} ∪ U))
  | Err e => shows s' st ∧ (other_error e ∨ contents (nodes s) !! h_key h key = None)
  end.
Proof.
  intros Hk Henc Hx. pose proof Hk as [Hr Ek]. pose proof (kpaths_confined rt K HK h r Hr) as Hconf.
  pose proof (keyed_paths rt K Hrt HK h key r Hk) as Hpa.
  assert (wf_tree (nodes s')) as Hwf.
  { replace s' with (res, s').2 by done. rewrite <- Hx. apply keeps_UpdateMetadata; [|exact (sn_wf _ _ _ _ Hn)].
    rewrite Hpa. intros ? [= <-]. apply (paths_ne rt r). }
  revert Hx. unfold UpdateMetadata, check_ctx, lift, mbind, io_bind. destruct cx as [e|] eqn:E; cbn [fail mret io_ret].
  { intros [= <- <-]. split; [by apply shows_same|]. left. by apply Hcx. }
  destruct (NormalizeMetadata md) as [md'|e] eqn:Em.
  2: { intros [= <- <-]. split; [by apply shows_same|]. left. by eapply normalize_other. }
  rewrite Hpa. destruct (statVersion y (kpaths rt r) s) as [rv s1] eqn:Er.
  pose proof (reads_statVersion y (kpaths rt r) s) as Hs1. rewrite Er in Hs1. cbn in Hs1.
  apply (statVersion_current fb (kpaths rt r) Hconf y (nodes s)) in Er; [|done|exact (sn_wf _ _ _ _ Hn)|apply quiet_refl].
  destruct rv as [[cur|]|e]; cbn.
  2: { intros [= <- <-]. split; [by apply shows_same|]. right. rewrite Ek.
       rewrite (keyed_contents rt K HK r Hr _ U Hn). exact (current_object rt K r Hr _ U Hn _ Er). }
  2: { intros [= <- <-]. split; [by apply shows_same|]. left. by apply machine_other. }
  pose proof (hoare_newVersion y (λ n, n = nodes s) (λ _ _, False) s1 Hs1) as Hv.
  destruct (newVersion y s1) as [[v|] s2]; [|done]. destruct Hv as [Hs2 [i ->]].
  destruct (Henc cur md' i Er eq_refl) as [Hmd He]. set (a := update_attrs _ _ _) in *.
  destruct (current_object rt K r Hr _ U Hn _ Er) as (t & o & Hd & Ho & _ & _ & Hsz).
  pose proof (hoare_writeFileAtomic fb (kpaths rt r) Hconf y [] (nodes s) (mpath rt r) (mustMarshalAttrs a) ltac:(by right) s2) as Hw.
  rewrite Hs2 in Hw. specialize (Hw (quiet_refl _ _ _)).
  pose proof (raises_writeFileAtomic fb y Hh (mpath rt r) (mustMarshalAttrs a) s2) as Hre. cbn [p_meta kpaths].
  destruct (writeFileAtomic y fb (mpath rt r) (mustMarshalAttrs a) s2) as [[[]|e] s3]; cbn; intros [= <- <-].
  - destruct Hw as [Hq [_ [tm Hm]]]. exists o, md'. rewrite Ek, (keyed_contents rt K HK r Hr _ U Hn), <- Ek.
    destruct (Hfresh i) as [Hv HvU]. split_and!; [done..|].
    assert (nodes s3 !! dpath rt r = nodes s !! dpath rt r) as Hsame.
    { apply (quiet_other fb (kpaths rt r) Hconf [mpath rt r]); [done|by left|].
      cbn. intros E'%list_elem_of_singleton. by apply dpath_mpath in E'. }
    destruct (stored_tree rt K Hrt HK h key r Hk s U Hn _ _ (so_data o) t a tm Hq) as [H1' H2'];
      [cbn; set_solver|done|by rewrite Hsame|done|done|cbn; by rewrite CloneMetadata_id|cbn; autorewrite with blob; done|done..|].
    split; [done|]. rewrite H2'. cbn. by rewrite CloneMetadata_id.
  - split; [|left; by eapply machine_other, Hre]. by apply (untouched_quiet rt K Hrt HK h key r Hk s U Hn [] (nodes s3)); [|left|].
Qed.

End updates.
