(* ===== verification/Unicode.v ===== *)
(** * UTF-8, hexadecimal and the string functions of the remote drivers

    What those drivers use of Go's [unicode/utf8], [strings], [strconv] and
    [fmt]: the conversion [[]rune(s)], [strings.Builder.WriteRune], [%x],
    [ParseInt] in base 16, and splitting, joining and trimming.  A rune is an
    integer: the decoder yields U+FFFD for each byte that starts no character,
    and the encoder writes U+FFFD for a number that is no character. *)
From S2P Require Import Prelude Strconv.

Definition byte_val (c : ascii) : Z := Z.of_N (Ascii.N_of_ascii c).
Definition byte_of (z : Z) : ascii := Ascii.ascii_of_N (Z.to_N z).

Abbreviation rune := Z (only parsing).
Definition RuneError : rune := 65533.

(** The Unicode scalar values. *)
Definition valid_rune (r : rune) : Prop := 0 ≤ r < 55296 ∨ 57344 ≤ r < 1114112.
#[export] Instance valid_rune_dec r : Decision (valid_rune r).
Proof. unfold valid_rune. apply _. Defined.

(** [utf8.AppendRune]. *)
Definition EncodeRune (r : rune) : string :=
  let r := if decide (valid_rune r) then r else RuneError in
  if r <? 128 then String (byte_of r) ""
  else if r <? 2048 then
    String (byte_of (192 + r `div` 64)) (String (byte_of (128 + r `mod` 64)) "")
  else if r <? 65536 then
    String (byte_of (224 + r `div` 4096))
      (String (byte_of (128 + r `div` 64 `mod` 64)) (String (byte_of (128 + r `mod` 64)) ""))
  else
    String (byte_of (240 + r `div` 262144))
      (String (byte_of (128 + r `div` 4096 `mod` 64))
        (String (byte_of (128 + r `div` 64 `mod` 64)) (String (byte_of (128 + r `mod` 64)) ""))).

(** [string(rs)], and what a Builder holds after [WriteRune] of each. *)
Fixpoint string_of_runes (rs : list rune) : string :=
  match rs with
  | [] => ""
  | r :: rs => EncodeRune r +:+ string_of_runes rs
  end.

(** The second byte a lead byte accepts; the tables of [unicode/utf8]. *)
Definition accept (b0 : Z) : Z * Z :=
  if b0 =? 224 then (160, 191) else if b0 =? 237 then (128, 159)
  else if b0 =? 240 then (144, 191) else if b0 =? 244 then (128, 143) else (128, 191).

Definition in_range (b : Z) (r : Z * Z) : bool := (r.1 <=? b) && (b <=? r.2).

(** The first character of a string and its width. *)
Definition DecodeRune (s : string) : rune * nat :=
  match s with
  | EmptyString => (RuneError, 0%nat)
  | String c0 s1 =>
    let b0 := byte_val c0 in
    if b0 <? 128 then (b0, 1%nat)
    else
      match s1 with
      | EmptyString => (RuneError, 1%nat)
      | String c1 s2 =>
        let b1 := byte_val c1 in
        if negb (in_range b1 (accept b0)) then (RuneError, 1%nat)
        else if in_range b0 (194, 223) then ((b0 - 192) * 64 + (b1 - 128), 2%nat)
        else
          match s2 with
          | EmptyString => (RuneError, 1%nat)
          | String c2 s3 =>
            let b2 := byte_val c2 in
            if negb (in_range b2 (128, 191)) then (RuneError, 1%nat)
            else if in_range b0 (224, 239) then
              ((b0 - 224) * 4096 + (b1 - 128) * 64 + (b2 - 128), 3%nat)
            else
              match s3 with
              | EmptyString => (RuneError, 1%nat)
              | String c3 _ =>
                let b3 := byte_val c3 in
                if in_range b3 (128, 191) && in_range b0 (240, 244)
                then ((b0 - 240) * 262144 + (b1 - 128) * 4096 + (b2 - 128) * 64 + (b3 - 128), 4%nat)
                else (RuneError, 1%nat)
              end
          end
      end
  end.

(** [[]rune(s)]; [skip] bytes belong to the character before. *)
Fixpoint runes_from (skip : nat) (s : string) : list rune :=
  match s with
  | EmptyString => []
  | String _ s' =>
    match skip with
    | S k => runes_from k s'
    | O => let '(r, n) := DecodeRune s in r :: runes_from (n - 1) s'
    end
  end.

Definition runes (s : string) : list rune := runes_from 0 s.

(** A string of characters: one that [string(rs)] makes of scalar values. *)
Definition utf8 (s : string) : Prop := ∃ rs, Forall valid_rune rs ∧ s = string_of_runes rs.

(** ** Hexadecimal *)

(** [%x] of a number that is not negative. *)
Fixpoint hex_from (fuel : nat) (n : Z) (acc : string) : string :=
  match fuel with
  | O => acc
  | S fuel =>
    let acc := String (hex_digit (Z.to_N (n `mod` 16))) acc in
    if n `div` 16 =? 0 then acc else hex_from fuel (n `div` 16) acc
  end.

Definition fmt_x (n : Z) : string := hex_from 16 n "".

Definition hex_val (c : ascii) : option Z :=
  let n := byte_val c in
  if in_range n (48, 57) then Some (n - 48)
  else if in_range n (97, 102) then Some (n - 87)
  else if in_range n (65, 70) then Some (n - 55)
  else None.

Fixpoint parse_hex_digits (acc : Z) (s : string) : option Z :=
  match s with
  | EmptyString => Some acc
  | String c s => d ← hex_val c; parse_hex_digits (16 * acc + d) s
  end.

Definition parse_hex (s : string) : option Z :=
  match s with EmptyString => None | _ => parse_hex_digits 0 s end.

(** [strconv.ParseInt(s, 16, 32)]. *)
Definition ParseHex32 (s : string) : option Z :=
  let signed :=
    match s with
    | String "+" r => parse_hex r
    | String "-" r => Z.opp <$> parse_hex r
    | _ => parse_hex s
    end%char in
  v ← signed; if bool_decide (- 2 ^ 31 ≤ v < 2 ^ 31) then Some v else None.

(** ** strings *)

(** [strings.LastIndex(s, string(c))]: [None] is -1. *)
Fixpoint LastIndexByte (s : string) (c : ascii) : option nat :=
  match s with
  | EmptyString => None
  | String d s' =>
    match LastIndexByte s' c with
    | Some i => Some (S i)
    | None => if decide (c = d) then Some 0%nat else None
    end
  end.

(** [strings.Split(s, string(c))]. *)
Fixpoint SplitByte (s : string) (c : ascii) : list string :=
  match s with
  | EmptyString => [""]
  | String d s' =>
    if decide (c = d) then "" :: SplitByte s' c
    else match SplitByte s' c with
         | [] => [String d ""]
         | w :: ws => String d w :: ws
         end
  end.

(** [strings.Join]. *)
Fixpoint Join_strings (ws : list string) (sep : string) : string :=
  match ws with
  | [] => ""
  | [w] => w
  | w :: ws => w +:+ sep +:+ Join_strings ws sep
  end.

Fixpoint TrimLeftByte (s : string) (c : ascii) : string :=
  match s with
  | EmptyString => ""
  | String d s' => if decide (c = d) then TrimLeftByte s' c else s
  end.

Fixpoint TrimRightByte (s : string) (c : ascii) : string :=
  match s with
  | EmptyString => ""
  | String d s' =>
    let t := TrimRightByte s' c in
    if bool_decide (t = "") && bool_decide (c = d) then "" else String d t
  end.

(** [strings.Trim(s, string(c))]. *)
Definition TrimByte (s : string) (c : ascii) : string := TrimRightByte (TrimLeftByte s c) c.

(** ** Facts *)

#[local] Arguments String.append !_ _ / : simpl nomatch.

Lemma byte_val_of z : 0 ≤ z < 256 → byte_val (byte_of z) = z.
Proof.
  intros H. unfold byte_val, byte_of. rewrite Ascii.N_ascii_embedding by lia. lia.
Qed.

Lemma byte_val_range c : 0 ≤ byte_val c < 256.
Proof. unfold byte_val. pose proof (Ascii.N_ascii_bounded c). lia. Qed.

Lemma byte_of_val c : byte_of (byte_val c) = c.
Proof. unfold byte_val, byte_of. rewrite N2Z.id. apply Ascii.ascii_N_embedding. Qed.

Lemma byte_val_inj c d : byte_val c = byte_val d → c = d.
Proof. intros H. by rewrite <- (byte_of_val c), H, byte_of_val. Qed.

Lemma in_range_true b lo hi : lo ≤ b ≤ hi → in_range b (lo, hi) = true.
Proof. intros. unfold in_range. cbn. apply andb_true_iff. lia. Qed.

Lemma in_range_false b lo hi : b < lo ∨ hi < b → in_range b (lo, hi) = false.
Proof. intros. unfold in_range. cbn. apply andb_false_iff. lia. Qed.

(** Linear arithmetic with quotients and remainders by constants. *)
Ltac div_lia := Z.to_euclidean_division_equations; lia.

(** The second byte of an encoded character is one its lead byte accepts. *)
Lemma accept_3 r :
  2048 ≤ r < 65536 → valid_rune r →
  in_range (128 + r `div` 64 `mod` 64) (accept (224 + r `div` 4096)) = true.
Proof.
  unfold valid_rune, accept. intros Hr Hv. destruct (Z.eqb_spec (224 + r `div` 4096) 224).
  { apply in_range_true. div_lia. }
  destruct (Z.eqb_spec (224 + r `div` 4096) 237); [apply in_range_true; div_lia|].
  destruct (Z.eqb_spec (224 + r `div` 4096) 240); [div_lia|].
  destruct (Z.eqb_spec (224 + r `div` 4096) 244); [div_lia|]. apply in_range_true. div_lia.
Qed.

Lemma accept_4 r :
  65536 ≤ r < 1114112 →
  in_range (128 + r `div` 4096 `mod` 64) (accept (240 + r `div` 262144)) = true.
Proof.
  unfold accept. intros Hr.
  destruct (Z.eqb_spec (240 + r `div` 262144) 224); [div_lia|].
  destruct (Z.eqb_spec (240 + r `div` 262144) 237); [div_lia|].
  destruct (Z.eqb_spec (240 + r `div` 262144) 240); [apply in_range_true; div_lia|].
  destruct (Z.eqb_spec (240 + r `div` 262144) 244); apply in_range_true; div_lia.
Qed.

Lemma accept_2 b : 194 ≤ b ≤ 223 → accept b = (128, 191).
Proof.
  intros. unfold accept. destruct (Z.eqb_spec b 224), (Z.eqb_spec b 237), (Z.eqb_spec b 240), (Z.eqb_spec b 244); lia || done.
Qed.

(** A character reads back as itself, whatever follows it. *)
Lemma DecodeRune_Encode r s :
  valid_rune r → DecodeRune (EncodeRune r +:+ s) = (r, String.length (EncodeRune r)).
Proof.
  intros Hv. unfold EncodeRune. rewrite decide_True by done.
  assert (0 ≤ r < 1114112) as Hb by (unfold valid_rune in Hv; lia).
  destruct (Z.ltb_spec r 128).
  { cbn. rewrite byte_val_of by lia. rewrite (proj2 (Z.ltb_lt _ _)) by lia. done. }
  destruct (Z.ltb_spec r 2048).
  { cbn. rewrite !byte_val_of by div_lia. rewrite (proj2 (Z.ltb_ge _ _)) by div_lia.
    rewrite accept_2 by div_lia. rewrite !in_range_true by div_lia. cbn. f_equal. div_lia. }
  destruct (Z.ltb_spec r 65536).
  { cbn. rewrite !byte_val_of by div_lia. rewrite (proj2 (Z.ltb_ge _ _)) by div_lia.
    rewrite accept_3 by (done || lia). cbn [negb].
    rewrite (in_range_false _ 194 223) by div_lia. rewrite !in_range_true by div_lia.
    cbn. f_equal. div_lia. }
  cbn. rewrite !byte_val_of by div_lia. rewrite (proj2 (Z.ltb_ge _ _)) by div_lia.
  rewrite accept_4 by lia. cbn [negb].
  rewrite (in_range_false _ 194 223), (in_range_false _ 224 239) by div_lia.
  rewrite !in_range_true by div_lia. cbn. f_equal. div_lia.
Qed.

Lemma runes_from_skip t s : runes_from (String.length t) (t +:+ s) = runes s.
Proof.
  induction t as [|c t IH]; [done|].
  change (String c t +:+ s) with (String c (t +:+ s)). exact IH.
Qed.

Lemma EncodeRune_nonempty r : EncodeRune r ≠ "".
Proof. unfold EncodeRune. by repeat case_match. Qed.

(** A valid character in front of a string is its first rune. *)
Lemma runes_cons r s : valid_rune r → runes (EncodeRune r +:+ s) = r :: runes s.
Proof.
  intros Hv. unfold runes at 1. pose proof (DecodeRune_Encode r s Hv) as Hd.
  destruct (EncodeRune r) as [|c t] eqn:E; [by apply EncodeRune_nonempty in E|].
  change (String c t +:+ s) with (String c (t +:+ s)) in *.
  cbn [runes_from]. rewrite Hd. f_equal. cbn [String.length].
  rewrite Nat.sub_succ, Nat.sub_0_r. apply runes_from_skip.
Qed.

Lemma runes_string_of_runes rs : Forall valid_rune rs → runes (string_of_runes rs) = rs.
Proof. induction 1 as [|r rs Hr _ IH]; [done|]. cbn. by rewrite runes_cons, IH. Qed.

Lemma string_of_runes_runes s : utf8 s → string_of_runes (runes s) = s ∧ Forall valid_rune (runes s).
Proof. intros (rs & Hrs & ->). by rewrite runes_string_of_runes. Qed.

Lemma string_of_runes_app rs1 rs2 :
  string_of_runes (rs1 ++ rs2) = string_of_runes rs1 +:+ string_of_runes rs2.
Proof. induction rs1 as [|r rs1 IH]; [done|]. cbn. by rewrite IH, string_app_assoc. Qed.

Lemma EncodeRune_ascii r : 0 ≤ r < 128 → EncodeRune r = String (byte_of r) "".
Proof.
  intros H. unfold EncodeRune. rewrite decide_True by (unfold valid_rune; lia).
  rewrite (proj2 (Z.ltb_lt _ _)) by lia. done.
Qed.

(** The runes of an ASCII text are its bytes. *)
Fixpoint ascii_runes (s : string) : list rune :=
  match s with EmptyString => [] | String c s => byte_val c :: ascii_runes s end.

Lemma string_of_ascii_runes s :
  Forall (λ r, r < 128) (ascii_runes s) → string_of_runes (ascii_runes s) = s.
Proof.
  induction s as [|c s IH]; [done|]. cbn. intros [Hc Hs]%Forall_cons.
  rewrite EncodeRune_ascii by (pose proof (byte_val_range c); lia).
  rewrite byte_of_val, IH by done. done.
Qed.

Lemma ascii_runes_valid s : Forall (λ r, r < 128) (ascii_runes s) → Forall valid_rune (ascii_runes s).
Proof.
  induction s as [|c s IH]; [done|]. cbn. intros [Hc Hs]%Forall_cons. constructor; [|by apply IH].
  pose proof (byte_val_range c). unfold valid_rune. lia.
Qed.

Lemma ascii_runes_app s t : ascii_runes (s +:+ t) = ascii_runes s ++ ascii_runes t.
Proof. induction s as [|c s IH]; [done|]. cbn. by f_equal. Qed.

(** ** Hexadecimal round trip *)

Lemma hex_val_digit d : 0 ≤ d < 16 → hex_val (hex_digit (Z.to_N d)) = Some d.
Proof.
  intros H. unfold hex_val, hex_digit, byte_val. case_bool_decide.
  - rewrite Ascii.N_ascii_embedding by lia. rewrite in_range_true by lia. f_equal. lia.
  - rewrite Ascii.N_ascii_embedding by lia. rewrite in_range_false, in_range_true by lia. f_equal. lia.
Qed.

Lemma hex_from_app fuel n acc : hex_from fuel n acc = hex_from fuel n "" +:+ acc.
Proof.
  revert n acc. induction fuel as [|fuel IH]; intros n acc; [done|]. cbn [hex_from].
  destruct (_ =? 0); [done|]. rewrite IH, (IH _ (String _ "")), string_app_assoc. done.
Qed.

Lemma parse_hex_digits_app acc s t :
  parse_hex_digits acc (s +:+ t) = v ← parse_hex_digits acc s; parse_hex_digits v t.
Proof.
  revert acc. induction s as [|c s IH]; intros acc; [done|]. cbn.
  destruct (hex_val c); [|done]. cbn. apply IH.
Qed.

Lemma parse_hex_from fuel n :
  0 ≤ n < 16 ^ Z.of_nat fuel → parse_hex_digits 0 (hex_from fuel n "") = Some n.
Proof.
  revert n. induction fuel as [|fuel IH]; intros n; [cbn; intros; f_equal; lia|].
  rewrite Nat2Z.inj_succ, Z.pow_succ_r by lia. intros Hn. cbn [hex_from].
  destruct (Z.eqb_spec (n `div` 16) 0) as [E|E].
  - cbn. rewrite hex_val_digit by div_lia. cbn. f_equal. div_lia.
  - rewrite hex_from_app, parse_hex_digits_app, IH by div_lia. cbn.
    rewrite hex_val_digit by div_lia. cbn. f_equal. div_lia.
Qed.

Lemma hex_from_nonempty fuel n acc : hex_from (S fuel) n acc ≠ "".
Proof.
  revert n acc. induction fuel as [|fuel IH]; intros n acc; cbn; destruct (_ =? 0); try done. apply IH.
Qed.

(** The characters [%x] writes. *)
Definition hex_char (r : rune) : Prop := 48 ≤ r ≤ 57 ∨ 97 ≤ r ≤ 102.

Lemma hex_digit_char d : 0 ≤ d < 16 → hex_char (byte_val (hex_digit (Z.to_N d))).
Proof.
  intros H. unfold hex_char, hex_digit, byte_val. case_bool_decide;
    rewrite Ascii.N_ascii_embedding by lia; lia.
Qed.

Lemma hex_from_chars fuel n acc :
  Forall hex_char (ascii_runes acc) → Forall hex_char (ascii_runes (hex_from fuel n acc)).
Proof.
  revert n acc. induction fuel as [|fuel IH]; intros n acc Ha; [done|]. cbn [hex_from].
  assert (Forall hex_char (ascii_runes (String (hex_digit (Z.to_N (n `mod` 16))) acc))).
  { cbn. constructor; [|done]. apply hex_digit_char. div_lia. }
  destruct (_ =? 0); [done|]. by apply IH.
Qed.

Lemma fmt_x_chars n : Forall hex_char (ascii_runes (fmt_x n)).
Proof. by apply hex_from_chars. Qed.

Lemma ParseHex32_fmt_x n : 0 ≤ n < 2 ^ 31 → ParseHex32 (fmt_x n) = Some n.
Proof.
  intros Hn. unfold ParseHex32. pose proof (fmt_x_chars n) as Hc.
  assert (parse_hex (fmt_x n) = Some n) as Hp.
  { unfold parse_hex. pose proof (parse_hex_from 16 n) as Hf. unfold fmt_x.
    destruct (hex_from 16 n "") eqn:E; [by apply hex_from_nonempty in E|]. apply Hf. lia. }
  destruct (fmt_x n) as [|c s] eqn:E; [done|]. cbn in Hc. apply Forall_cons in Hc as [Hc _].
  assert (c ≠ "+"%char ∧ c ≠ "-"%char) as [H1 H2].
  { split; intros ->; unfold hex_char in Hc; vm_compute in Hc; destruct Hc as [[]|[]]; congruence. }
  rewrite Hp.
  assert (bool_decide (- 2 ^ 31 ≤ n < 2 ^ 31) = true) as Hb by (apply bool_decide_true; lia).
  destruct c as [[] [] [] [] [] [] [] []]; cbn; (rewrite Hb; done) || (by destruct H1) || (by destruct H2).
Qed.

(** ** Splitting and trimming *)

Lemma SplitByte_nonempty s c : SplitByte s c ≠ [].
Proof. destruct s as [|d s]; cbn; [done|]. case_decide; [done|]. by destruct (SplitByte s c). Qed.

Lemma Join_SplitByte s c : Join_strings (SplitByte s c) (String c "") = s.
Proof.
  induction s as [|d s IH]; [done|]. cbn [SplitByte]. pose proof (SplitByte_nonempty s c) as Hne.
  case_decide as E.
  - subst d. cbn [Join_strings]. destruct (SplitByte s c) as [|w ws]; [done|]. cbn in *. by rewrite IH.
  - destruct (SplitByte s c) as [|w ws]; [done|]. destruct ws as [|w' ws]; cbn in *; by rewrite IH.
Qed.

Lemma LastIndexByte_app s t c :
  LastIndexByte t c = None → LastIndexByte (s +:+ String c t) c = Some (String.length s).
Proof.
  intros Ht. induction s as [|d s IH]; cbn.
  - by rewrite Ht, decide_True.
  - by rewrite IH.
Qed.

Lemma LastIndexByte_None s c :
  LastIndexByte s c = None ↔ Forall (λ d, d ≠ c) (String.list_ascii_of_string s).
Proof.
  induction s as [|d s IH]; cbn; [done|]. rewrite Forall_cons, <- IH.
  destruct (LastIndexByte s c); [naive_solver|]. case_decide; naive_solver.
Qed.

Lemma TrimRightByte_snoc s c d :
  d ≠ c → TrimRightByte (s +:+ String d "") c = s +:+ String d "".
Proof.
  intros Hd. induction s as [|e s IH]; cbn.
  - destruct (decide (c = d)); [congruence|]. by rewrite (bool_decide_false (c = d)).
  - rewrite IH. rewrite bool_decide_false; [done|]. by destruct s.
Qed.

Lemma TrimRightByte_end s c : TrimRightByte (s +:+ String c "") c = TrimRightByte s c.
Proof.
  induction s as [|e s IH]; cbn.
  - by rewrite bool_decide_true, bool_decide_true.
  - by rewrite IH.
Qed.

(** ** Small examples *)
Example unicode_examples :
  runes "aé" = [97; 233] ∧ string_of_runes [8364; 128512] = "€😀" ∧
  runes (String (byte_of 255) "x") = [RuneError; 120] ∧
  fmt_x 0 = "0" ∧ fmt_x 8364 = "20ac" ∧ ParseHex32 "7fFF" = Some 32767 ∧ ParseHex32 "80000000" = None ∧
  SplitByte "a/b//c" "/" = ["a"; "b"; ""; "c"] ∧ LastIndexByte "a/b/c" "/" = Some 3%nat ∧
  TrimByte "__x_y_" "_" = "x_y".
Proof. by vm_compute. Qed.
