(* ===== verification/NetUrl.v ===== *)
(** * The parts of [net/url] and [encoding/base64] the remote drivers use

    [PathEscape] and [QueryEscape] write every byte outside a set of safe ones
    as a percent sign and two upper-case hexadecimal digits; [QueryUnescape]
    and [PathUnescape] read them back.  [base64_EncodeToString] is
    base64.StdEncoding. *)
From S2P Require Import Prelude Strconv Unicode.

(** Letters, digits and the four marks: never escaped. *)
Definition unreserved (c : ascii) : bool :=
  let n := byte_val c in
  in_range n (48, 57) || in_range n (65, 90) || in_range n (97, 122)
  || bool_decide (c ∈ ["-"; "_"; "."; "~"]%char).

(** [shouldEscape] of a query component. *)
Definition query_escaped (c : ascii) : bool := negb (unreserved c).

(** [shouldEscape] of a path segment. *)
Definition path_escaped (c : ascii) : bool :=
  negb (unreserved c || bool_decide (c ∈ ["$"; "&"; "+"; ":"; "="; "@"]%char)).

Definition upper_hex_digit (n : Z) : ascii := byte_of (if n <? 10 then 48 + n else 55 + n).

Definition percent (c : ascii) : string :=
  String "%" (String (upper_hex_digit (byte_val c `div` 16))
    (String (upper_hex_digit (byte_val c `mod` 16)) "")).

Fixpoint QueryEscape (s : string) : string :=
  match s with
  | EmptyString => ""
  | String c s =>
    (if bool_decide (c = " "%char) then "+"
     else if query_escaped c then percent c else String c "") +:+ QueryEscape s
  end.

Fixpoint PathEscape (s : string) : string :=
  match s with
  | EmptyString => ""
  | String c s => (if path_escaped c then percent c else String c "") +:+ PathEscape s
  end.

(** [unescape]: a percent sign needs two hexadecimal digits; [plus] is what a
    plus sign stands for. *)
Fixpoint unescape (plus : ascii) (s : string) : option string :=
  match s with
  | EmptyString => Some ""
  | String c s =>
    if bool_decide (c = "%"%char) then
      match s with
      | String h (String l s) =>
        a ← hex_val h; b ← hex_val l; t ← unescape plus s;
        Some (String (byte_of (16 * a + b)) t)
      | _ => None
      end
    else
      t ← unescape plus s;
      Some (String (if bool_decide (c = "+"%char) then plus else c) t)
  end.

Definition QueryUnescape (s : string) : option string := unescape " " s.
Definition PathUnescape (s : string) : option string := unescape "+" s.

(** ** base64 *)

Definition base64_char (n : Z) : ascii :=
  byte_of (if n <? 26 then 65 + n else if n <? 52 then 71 + n else if n <? 62 then n - 4
           else if n =? 62 then 43 else 47).

Fixpoint base64_EncodeToString (b : bytes) : string :=
  match b with
  | EmptyString => ""
  | String c0 b1 =>
    let v0 := byte_val c0 in
    match b1 with
    | EmptyString =>
      String (base64_char (v0 `div` 4)) (String (base64_char (v0 `mod` 4 * 16)) "==")
    | String c1 b2 =>
      let v1 := byte_val c1 in
      match b2 with
      | EmptyString =>
        String (base64_char (v0 `div` 4)) (String (base64_char (v0 `mod` 4 * 16 + v1 `div` 16))
          (String (base64_char (v1 `mod` 16 * 4)) "="))
      | String c2 b3 =>
        let v2 := byte_val c2 in
        String (base64_char (v0 `div` 4)) (String (base64_char (v0 `mod` 4 * 16 + v1 `div` 16))
          (String (base64_char (v1 `mod` 16 * 4 + v2 `div` 64))
            (String (base64_char (v2 `mod` 64)) (base64_EncodeToString b3))))
      end
    end
  end.

(** ** Facts *)

#[local] Arguments String.append !_ _ / : simpl nomatch.

Lemma hex_val_upper d : 0 ≤ d < 16 → hex_val (upper_hex_digit d) = Some d.
Proof.
  intros H. unfold hex_val, upper_hex_digit. destruct (Z.ltb_spec d 10).
  - rewrite byte_val_of, in_range_true by lia. f_equal. lia.
  - rewrite byte_val_of by lia. rewrite (in_range_false _ 48 57), (in_range_false _ 97 102), in_range_true by lia.
    f_equal. lia.
Qed.

Lemma unescape_percent plus c s : unescape plus (percent c +:+ s) = t ← unescape plus s; Some (String c t).
Proof.
  pose proof (byte_val_range c). unfold percent. cbn.
  rewrite !hex_val_upper by div_lia. cbn.
  replace (16 * (byte_val c `div` 16) + byte_val c `mod` 16) with (byte_val c) by div_lia.
  by rewrite byte_of_val.
Qed.

Lemma unescape_safe plus c s :
  c ≠ "%"%char → (c = "+"%char → plus = "+"%char) →
  unescape plus (String c s) = t ← unescape plus s; Some (String c t).
Proof.
  intros H1 H2. cbn. rewrite bool_decide_false by done. case_bool_decide; [|done].
  by rewrite H2 by done; subst.
Qed.

(** A value survives the escaping of a query component. *)
Lemma QueryUnescape_Escape s : QueryUnescape (QueryEscape s) = Some s.
Proof.
  unfold QueryUnescape. induction s as [|c s IH]; [done|]. cbn [QueryEscape].
  case_bool_decide as Hsp.
  { subst c. change ("+" +:+ ?t) with (String "+" t). cbn. by rewrite IH. }
  destruct (query_escaped c) eqn:Hq; [by rewrite unescape_percent, IH|].
  cbn [String.append]. rewrite unescape_safe, IH; [done| |].
  - intros ->. by vm_compute in Hq.
  - intros ->. by vm_compute in Hq.
Qed.

Lemma PathUnescape_Escape s t : PathUnescape (PathEscape s +:+ t) = String.append s <$> PathUnescape t.
Proof.
  unfold PathUnescape. induction s as [|c s IH].
  { cbn. by destruct (unescape _ t). }
  cbn [PathEscape]. destruct (path_escaped c) eqn:Hq.
  - rewrite string_app_assoc, unescape_percent, IH. by destruct (unescape _ t).
  - cbn [String.append]. rewrite unescape_safe, IH; [by destruct (unescape _ t)| |done].
    intros ->. by vm_compute in Hq.
Qed.

Example url_examples :
  QueryEscape "a b&c=1/é" = "a+b%26c%3D1%2F%C3%A9" ∧ PathEscape "a b/c;d$" = "a%20b%2Fc%3Bd$" ∧
  QueryUnescape "a+b%2" = None ∧ base64_EncodeToString "hello" = "aGVsbG8=" ∧
  base64_EncodeToString "Ma" = "TWE=" ∧ base64_EncodeToString "Man" = "TWFu".
Proof. by vm_compute. Qed.
