(* ===== verification/Remote.v ===== *)
(** * What the drivers for remote services share

    The packages s3, gcs and azureblob have the same shape: a [Bucket] that
    adds a prefix to the keys and compiles the options, over an interface
    [backend] that speaks to a service through its SDK.  Here are that
    interface as a class, the methods of [Bucket] over it, and the streams the
    drivers pass around: the body of a response, the pipe between a writer and
    the goroutine that uploads, the [io.Writer] a download fills.

    The SDKs are not part of the repository.  A driver's calls to its SDK are
    fields of a record it is given, on an arbitrary state [W] of the service;
    whatever the service does, and however it fails, is some such record. *)
From S2P Require Import Prelude Strconv GoTime Md5 Core Effects Unicode.

(** ** Calls on a service *)

Definition M (W A : Type) : Type := W → A * W.

#[export] Instance M_ret W : MRet (M W) := fun A a w => (a, w).
#[export] Instance M_bind W : MBind (M W) :=
  fun A B k m w => let '(a, w') := m w in k a w'.

(** A call whose error ends the function. *)
Definition try_ {W A B} (m : M W (result A)) (k : A → M W (result B)) : M W (result B) :=
  r ← m; match r with Ok a => k a | Err e => mret (Err e) end.

Declare Scope remote_scope.
Delimit Scope remote_scope with remote.
Notation "'let?' x ':=' m 'in' k" := (try_ m (fun x => k))
  (at level 200, x pattern, m at level 100, k at level 200) : remote_scope.
Open Scope remote_scope.

(** What a call of an SDK returns: its answer or its own kind of error. *)
Inductive answer (E A : Type) :=
| Ans (a : A)
| Fail (e : E).
Arguments Ans {E A} a.
Arguments Fail {E A} e.

(** How a function that may block, or panic, ends: it returned, a run-time
    panic stopped the process, or the rounds it was given are used up and it is
    still waiting. *)
Inductive outcome :=
| Returned (err : option error)
| Panicked
| Waiting.

(** [if err != nil { return err }; return nil]. *)
Definition of_error (e : option error) : result unit :=
  match e with None => Ok tt | Some e => Err e end.

(** [int32(z)]. *)
Definition wrap32 (z : Z) : Z := (z + 2 ^ 31) `mod` 2 ^ 32 - 2 ^ 31.

(** ** Bodies of responses

    An [io.ReadCloser]: the pieces it will deliver, the error it then ends with
    ([None] is io.EOF), whether that error comes together with the last bytes
    or with the next call, and what [Close] returns.  Any way a connection may
    cut a response into reads is some list of pieces. *)
Record body := mkBody {
  b_chunks : list bytes;
  b_err : option error;
  b_eager : bool;
  b_close : option error;
}.

Definition body_bytes (b : body) : bytes := foldr String.append "" (b_chunks b).

(** [Read(p)] with [len(p) = n]. *)
Definition body_Read (n : Z) (b : body) : bytes * option error * body :=
  match b_chunks b with
  | [] => ("", Some (default EOF (b_err b)), b)
  | c :: cs =>
    let rest := str_drop (Z.to_nat n) c in
    let chunks := if bool_decide (rest = "") then cs else rest :: cs in
    (str_take (Z.to_nat n) c,
     if b_eager b && bool_decide (chunks = []) then Some (default EOF (b_err b)) else None,
     mkBody chunks (b_err b) (b_eager b) (b_close b))
  end.

(** [io.NopCloser(bytes.NewReader(nil))]. *)
Definition empty_body : body := mkBody [] None false None.

(** ** The destination of a download

    An [io.Writer] that takes everything, or fails when its room is used up. *)
Record sink := mkSink {
  k_bytes : bytes;
  k_room : option (nat * error);
}.

Definition sink_Write (p : bytes) (k : sink) : option error * sink :=
  match k_room k with
  | None => (None, mkSink (k_bytes k +:+ p) None)
  | Some (room, e) =>
    if bool_decide (String.length p ≤ room)%nat
    then (None, mkSink (k_bytes k +:+ p) (Some (room - String.length p, e)%nat))
    else (Some e, mkSink (k_bytes k +:+ str_take room p) (Some (0, e)%nat))
  end.

(** ** Readers to their end *)

Section readers.
Context {R : Type} (Read : Z → R → bytes * option error * R).

(** The loop of [io.ReadAll].  [lens i] is the free space of its buffer at the
    i-th call, which the library keeps positive; [None] is running out of
    fuel. *)
Fixpoint ReadAll_loop (fuel : nat) (lens : nat → Z) (acc : bytes) (r : R) : option (result bytes * R) :=
  match fuel with
  | O => None
  | S fuel =>
    let '(p, err, r') := Read (lens 0%nat) r in
    match err with
    | None => ReadAll_loop fuel (λ i, lens (S i)) (acc +:+ p) r'
    | Some e => Some (if bool_decide (e = EOF) then Ok (acc +:+ p) else Err e, r')
    end
  end.

(** The loop of [io.Copy] with its buffer of 32 KiB. *)
Fixpoint Copy_loop (fuel : nat) (k : sink) (r : R) : option (option error * sink * R) :=
  match fuel with
  | O => None
  | S fuel =>
    let '(p, err, r') := Read 32768 r in
    let '(werr, k') := if bool_decide (p = "") then (None, k) else sink_Write p k in
    match werr, err with
    | Some e, _ => Some (Some e, k', r')
    | None, None => Copy_loop fuel k' r'
    | None, Some e => Some (if bool_decide (e = EOF) then None else Some e, k', r')
    end
  end.

(** [io.Copy(k, r)]: a source with a [WriteTo] of its own is asked to write
    itself. *)
Definition io_Copy (WriteTo : option (nat → sink → R → option (option error * sink * R)))
    (fuel : nat) (k : sink) (r : R) : option (option error * sink * R) :=
  match WriteTo with
  | Some f => f fuel k r
  | None => Copy_loop fuel k r
  end.
End readers.

(** ** The pipe to an upload

    [io.Pipe] between a driver's writer and the goroutine that runs the SDK's
    upload: what the upload has taken so far, and the error it returned if it
    has stopped before the end of the body. *)
Record pipe (E : Type) := mkPipe {
  p_sent : bytes;
  p_stopped : option E;
}.
Arguments mkPipe {E} _ _.
Arguments p_sent {E} _.
Arguments p_stopped {E} _.

(** An upload of the SDK: [up_stop sent p] is its decision while it is offered
    the bytes [p] after [sent], to go on or to give up after some of them;
    [up_end] is its result once it has read the body to its end, by EOF or by
    the error the pipe was closed with. *)
Record uploader (W E : Type) := mkUploader {
  up_stop : bytes → bytes → M W (option (nat * E));
  up_end : source → M W (option E);
}.
Arguments mkUploader {W E} _ _.
Arguments up_stop {W E} _ _ _.
Arguments up_end {W E} _ _.

Section pipe.
Context {W E : Type} (raw : E → error) (up : uploader W E).

(** [pw.Write(p)]: it returns when the bytes are taken, or with the error of an
    upload that has stopped ([pr.CloseWithError(err)]). *)
Definition pipe_Write (p : bytes) (pw : pipe E) : M W (Z * option error * pipe E) :=
  match p_stopped pw with
  | Some e => mret (0, Some (raw e), pw)
  | None =>
    s ← up_stop up (p_sent pw) p;
    match s with
    | None => mret (strlen p, None, mkPipe (p_sent pw +:+ p) None)
    | Some (n, e) =>
      let q := str_take n p in
      mret (strlen q, Some (raw e), mkPipe (p_sent pw +:+ q) (Some e))
    end
  end.

(** [pw.CloseWithError(cause)], [cause] being EOF for [Close], and then
    [<-w.done]: what the upload returned. *)
Definition pipe_finish (cause : option error) (pw : pipe E) : M W (option E) :=
  match p_stopped pw with
  | Some e => mret (Some e)
  | None => up_end up (mkSource (p_sent pw) cause)
  end.

(** [io.Copy(pw, r)]. *)
Definition pipe_ReadFrom (r : source) (pw : pipe E) : M W (option error * pipe E) :=
  '(_, err, pw') ← pipe_Write (s_bytes r) pw;
  mret (match err with Some e => Some e | None => s_err r end, pw').
End pipe.

(** ** Options of the root package *)

Record ReaderOptions := mkReaderOptions { ro_BeforeRead : hook }.
Record CopyOptions := mkCopyOptions { co_BeforeCopy : hook }.

Record SignedURLOptions := mkSignedURLOptions {
  su_Expiry : Z;
  su_Method : string;
  su_ContentType : string;
  su_EnforceAbsentContentType : bool;
  su_BeforeSign : hook;
}.

Definition zeroSignedURLOptions : SignedURLOptions := mkSignedURLOptions 0 "" "" false None.

Definition DefaultSignedURLExpiry : Z := Hour.

(** [if opts != nil && opts.BeforeRead != nil { err = opts.BeforeRead(...) }]. *)
Definition before_read (opts : option ReaderOptions) : option error :=
  opts ≫= λ o, run_hook (ro_BeforeRead o).
Definition before_copy (opts : option CopyOptions) : option error :=
  opts ≫= λ o, run_hook (co_BeforeCopy o).

(** [strings.ToUpper] of a text that is not ASCII. *)
Class UpperTable := { unicode_upper : string → string }.

Definition upper_ascii (c : ascii) : ascii :=
  let n := Ascii.N_of_ascii c in
  if bool_decide (97 ≤ n ≤ 122)%N then Ascii.ascii_of_N (n - 32) else c.

Definition ToUpper `{UpperTable} (s : string) : string :=
  if is_ascii s then string_map upper_ascii s else unicode_upper s.

(** ** The interface [backend]

    [B] is the implementation, [R] its readers and [V] its writers; keys are
    physical.  A source bucket of a cross-region copy is [None] when it is of
    another type.  [be_XCopyFrom] returns the function that
    [StartCopyOperation] runs.  A copy may wait for the service: the number is
    how many rounds it is followed. *)
Class Backend (W B R V : Type) := {
  be_Attributes : B → string → M W (result Attributes);
  be_NewRangeReader : B → string → Z → Z → option ReaderOptions → M W (result R);
  be_NewWriter : B → string → WriterOptions → Preconditions → M W (result V);
  be_UpdateMetadata : B → string → metadata → M W (result string);
  be_Delete : B → string → Preconditions → M W (result unit);
  be_Copy : nat → B → string → string → option CopyOptions → M W outcome;
  be_XCopyFrom : nat → B → string → option B → string → option CopyOptions → result (M W outcome);
  be_ListPage : B → bytes → Z → option ListOptions → M W (result (list ListObject * bytes));
  be_IsAccessible : B → M W (result bool);
  be_SignedURL : B → ctx → Z → string → option SignedURLOptions → M W (result string);
  be_Capabilities : B → Capabilities;
  (* blobster.Reader *)
  rd_Read : Z → R → bytes * option error * R;
  rd_Close : R → option error;
  rd_WriteTo : nat → sink → R → option (option error * sink * R);
  (* blobster.Writer *)
  wr_Write : bytes → V → M W (Z * option error * V);
  wr_ReadFrom : source → V → M W (option error * V);
  wr_Close : V → M W (option error * V);
  wr_CloseWithError : error → V → M W (option error * V);
}.

Module Remote.

Record Bucket (B : Type) := mkBucket {
  backend : B;
  prefix : string;
}.
Arguments mkBucket {B} _ _.
Arguments backend {B} _.
Arguments prefix {B} _.

Definition newWithBackend {B} (b : B) (p : string) : Bucket B := mkBucket b p.

Section bucket.
Context {W B R V : Type} `{!Backend W B R V} `{!GoTables}.
Implicit Types b : Bucket B.

Definition objectKey b (key : string) : string := prefix b +:+ key.

Definition Sub b (p : string) : Bucket B := mkBucket (backend b) (prefix b +:+ p).

Definition Attributes_ b (key : string) : M W (result Attributes) :=
  be_Attributes (backend b) (objectKey b key).

Definition Copy (fuel : nat) b (dstKey srcKey : string) (opts : option CopyOptions) : M W outcome :=
  be_Copy fuel (backend b) (objectKey b dstKey) (objectKey b srcKey) opts.

Definition XCopyFrom (fuel : nat) b (dstKey : string) (src : option (Bucket B)) (srcKey : string)
    (opts : option CopyOptions) : result (M W outcome) :=
  match src with
  | None => Err ErrUnsupported
  | Some s => be_XCopyFrom fuel (backend b) (objectKey b dstKey) (Some (backend s)) (objectKey s srcKey) opts
  end.

Definition Delete b (key : string) (pre : list (option Precondition)) : M W (result unit) :=
  match CompilePreconditions pre with
  | Err e => mret (Err e)
  | Ok compiled => be_Delete (backend b) (objectKey b key) compiled
  end.

Definition Exists b (key : string) : M W (result bool) :=
  r ← Attributes_ b key;
  mret match r with
       | Ok _ => Ok true
       | Err e => if Is e ErrNotFound then Ok false else Err e
       end.

Definition IsAccessible b : M W (result bool) := be_IsAccessible (backend b).

(** [obj.Key = strings.TrimPrefix(obj.Key, b.prefix)]. *)
Definition trim_key (p : string) (obj : ListObject) : ListObject :=
  mkListObject (TrimPrefix (lo_Key obj) p) (lo_ModTime obj) (lo_Size obj) (lo_MD5 obj) (lo_IsDir obj).

Definition ListPage b (pageToken : bytes) (pageSize : Z) (opts : option ListOptions)
    : M W (result (list ListObject * bytes)) :=
  let o := default (mkListOptions "" "" None) opts in
  let physicalOpts := mkListOptions (objectKey b (l_Prefix o)) (l_Delimiter o) (l_BeforeList o) in
  let? (page, next) := be_ListPage (backend b) pageToken pageSize (Some physicalOpts) in
  mret (Ok (trim_key (prefix b) <$> page, next)).

Definition NewRangeReader b (key : string) (offset length : Z) (opts : option ReaderOptions)
    : M W (result R) :=
  be_NewRangeReader (backend b) (objectKey b key) offset length opts.

Definition NewReader b (key : string) (opts : option ReaderOptions) : M W (result R) :=
  NewRangeReader b key 0 (-1) opts.

Definition NewWriter b (key : string) (opts : option WriterOptions) (pre : list (option Precondition))
    : M W (result V) :=
  match CompilePreconditions pre with
  | Err e => mret (Err e)
  | Ok compiled =>
    match WriterOptions_Clone opts with
    | Err e => mret (Err e)
    | Ok cloned => be_NewWriter (backend b) (objectKey b key) cloned compiled
    end
  end.

(** [Download]: [io.Copy] hands over to the reader's own [WriteTo], which every
    reader has. *)
Definition Download (fuel : nat) b (key : string) (k : sink) (opts : option ReaderOptions)
    : M W (option (result unit * sink)) :=
  r ← NewReader b key opts;
  mret match r with
       | Err e => Some (Err e, k)
       | Ok reader => '(err, k1, _) ← rd_WriteTo fuel k reader; Some (of_error err, k1)
       end.

Definition ReadAll (fuel : nat) (lens : nat → Z) b (key : string) : M W (option (result bytes)) :=
  r ← NewReader b key None;
  mret match r with
       | Err e => Some (Err e)
       | Ok reader => fst <$> ReadAll_loop rd_Read fuel lens "" reader
       end.

Definition SignedURL b (cx : ctx) (now : Z) (key : string) (opts : option SignedURLOptions)
    : M W (result string) :=
  be_SignedURL (backend b) cx now (objectKey b key) opts.

Definition UpdateMetadata b (key : string) (md : metadata) : M W (result string) :=
  match NormalizeMetadata md with
  | Err e => mret (Err e)
  | Ok normalized => be_UpdateMetadata (backend b) (objectKey b key) normalized
  end.

(** The common end of [Upload] and [WriteAll]: close the writer, or abort it
    when the bytes could not be handed over. *)
Definition finish_write (err : option error) (writer : V) : M W (result unit) :=
  match err with
  | Some e => '(cerr, _) ← wr_CloseWithError e writer; mret (Err (Join e cerr))
  | None => '(cerr, _) ← wr_Close writer; mret (of_error cerr)
  end.

Definition Upload b (key : string) (r : source) (opts : option WriterOptions)
    (pre : list (option Precondition)) : M W (result unit) :=
  match RequireUploadOptions opts with
  | Err e => mret (Err e)
  | Ok cloned =>
    let? writer := NewWriter b key (Some cloned) pre in
    '(err, writer) ← wr_ReadFrom r writer;
    finish_write err writer
  end.

Definition WriteAll b (key : string) (p : bytes) (opts : option WriterOptions)
    (pre : list (option Precondition)) : M W (result unit) :=
  match PrepareWriteAllOptions opts p with
  | Err e => mret (Err e)
  | Ok cloned =>
    let? writer := NewWriter b key (Some cloned) pre in
    '(_, err, writer) ← wr_Write p writer;
    finish_write err writer
  end.

Definition Capabilities_ b : Capabilities := be_Capabilities (backend b).

End bucket.
End Remote.
