(* ===== verification/RemoteTheorems.v ===== *)
(** * Theorems about the shared part of the remote drivers

    Reading a body to its end, what the wrapper [Remote.Bucket] does with keys,
    and what an upload through the pipe stores. *)
From S2P Require Import Prelude Strconv GoTime Md5 Core Effects Store Unicode Remote.

#[local] Arguments String.append !_ _ / : simpl nomatch.

(** ** Sequences of calls *)

Lemma M_bind_run {W A B} (m : M W A) (k : A → M W B) w a w' : m w = (a, w') → (m ≫= k) w = k a w'.
Proof. unfold mbind, M_bind. by intros ->. Qed.

Lemma try_ok {W A B} (m : M W (result A)) (k : A → M W (result B)) w a w' :
  m w = (Ok a, w') → try_ m k w = k a w'.
Proof. intros E. unfold try_. by rewrite (M_bind_run _ _ _ _ _ E). Qed.

Lemma try_err {W A B} (m : M W (result A)) (k : A → M W (result B)) w e w' :
  m w = (Err e, w') → try_ m k w = (Err e, w').
Proof. intros E. unfold try_. by rewrite (M_bind_run _ _ _ _ _ E). Qed.

(** ** Errors *)

(** How the drivers mark an error of the SDK: with one sentinel and not the
    other. *)
Lemma Is_missing e (P Q : Prop) :
  other_error e → P →
  (Is (ErrJoin ErrNotFound e) ErrNotFound = true → P) ∧
  (Is (ErrJoin ErrNotFound e) ErrPreconditionFailed = true → Q).
Proof. intros [_ H] HP. split; [done|].
  change (Is e ErrPreconditionFailed = true → Q). congruence. Qed.

Lemma Is_conflict e (P Q : Prop) :
  other_error e → Q →
  (Is (ErrJoin ErrPreconditionFailed e) ErrNotFound = true → P) ∧
  (Is (ErrJoin ErrPreconditionFailed e) ErrPreconditionFailed = true → Q).
Proof. intros [H _] HQ. split; [|done].
  change (Is e ErrNotFound = true → P). congruence. Qed.

Lemma Is_other e (P Q : Prop) :
  other_error e → (Is e ErrNotFound = true → P) ∧ (Is e ErrPreconditionFailed = true → Q).
Proof. intros [H H']. split; congruence. Qed.

(** ** Bodies *)

(** The body of a response that arrives whole. *)
Definition intact (b : body) : Prop := b_err b = None.

(** How many reads a body can take. *)
Fixpoint chunks_measure (cs : list bytes) : nat :=
  match cs with [] => 0%nat | c :: cs => (S (String.length c) + chunks_measure cs)%nat end.

Definition measure (b : body) : nat := chunks_measure (b_chunks b).

Lemma str_drop_nonempty n c : (0 < n)%nat → str_drop n c ≠ "" → (String.length (str_drop n c) < String.length c)%nat.
Proof.
  intros Hn H. rewrite str_length_drop. destruct c as [|d c]; [by destruct n|]. cbn. lia.
Qed.

(** One read of an intact body delivers its next bytes, no more than asked for,
    and brings the end nearer. *)
Lemma body_Read_spec n b p err b' :
  0 < n → intact b → body_Read n b = (p, err, b') →
  body_bytes b = p +:+ body_bytes b' ∧ strlen p ≤ n ∧ intact b' ∧
  (err = Some EOF ∧ body_bytes b' = "" ∨ err = None ∧ (measure b' < measure b)%nat).
Proof.
  intros Hn Hi. unfold body_Read, measure, body_bytes.
  destruct (b_chunks b) as [|c cs] eqn:E; intros [= <- <- <-].
  { rewrite E. rewrite Hi. cbn. split_and!; [done|unfold strlen; cbn; lia|done|by left]. }
  assert (strlen (str_take (Z.to_nat n) c) ≤ n) as Hlen.
  { unfold strlen. rewrite str_length_take. lia. }
  cbn [b_chunks foldr]. case_bool_decide as Hr.
  - split_and!; [|done|done|].
    + f_equal. rewrite <- (str_take_drop (Z.to_nat n) c) at 1. by rewrite Hr, string_app_nil_r.
    + destruct (b_eager b); cbn; [|right; split; [done|lia]].
      case_bool_decide; [left; rewrite Hi; by subst cs|right; split; [done|lia]].
  - split_and!; [|done|done|].
    + cbn. by rewrite <- string_app_assoc, str_take_drop.
    + rewrite (bool_decide_false (_ :: _ = [])) by done. rewrite andb_false_r. right. split; [done|].
      cbn. pose proof (str_drop_nonempty (Z.to_nat n) c ltac:(lia) Hr). lia.
Qed.

(** One read of any body. *)
Lemma body_Read_any n b p err b' :
  0 ≤ n → body_Read n b = (p, err, b') →
  body_bytes b = p +:+ body_bytes b' ∧ strlen p ≤ n ∧ b_err b' = b_err b ∧
  (err = None ∨ err = Some (default EOF (b_err b)) ∧ body_bytes b' = "").
Proof.
  intros Hn. unfold body_Read, body_bytes.
  destruct (b_chunks b) as [|c cs] eqn:E; intros [= <- <- <-].
  { rewrite E. cbn. split_and!; [done|done|done|by right]. }
  cbn [b_chunks foldr b_err]. split_and!.
  - case_bool_decide as Hr; cbn.
    + f_equal. rewrite <- (str_take_drop (Z.to_nat n) c) at 1. by rewrite Hr, string_app_nil_r.
    + by rewrite <- string_app_assoc, str_take_drop.
  - unfold strlen. rewrite str_length_take. lia.
  - done.
  - destruct (b_eager b); cbn; [|by left]. case_bool_decide as Hc; [right|by left]. by rewrite Hc.
Qed.

(** The part of a stream a reader with [left] bytes to go still delivers. *)
Definition clamp (left : Z) (s : bytes) : bytes := str_take (Z.to_nat left) s.

Lemma clamp_nonpos left s : left ≤ 0 → clamp left s = "".
Proof. intros. unfold clamp. replace (Z.to_nat left) with 0%nat by lia. by destruct s. Qed.

Lemma clamp_all left s : strlen s ≤ left → clamp left s = s.
Proof. unfold strlen. intros. apply str_take_ge. lia. Qed.

Lemma clamp_app left p s : strlen p ≤ left → clamp left (p +:+ s) = p +:+ clamp (left - strlen p) s.
Proof.
  unfold clamp, strlen. intros. rewrite str_take_app_ge by lia. do 2 f_equal. lia.
Qed.

Lemma strlen_clamp left s : 0 ≤ left → strlen (clamp left s) = Z.min left (strlen s).
Proof. intros. unfold clamp, strlen. rewrite str_length_take. lia. Qed.

(** ** Readers that deliver a given stream

    [D r s m]: the reader [r] will deliver exactly [s] in at most [m] more
    reads that leave something to come. *)
Section exact.
Context {R : Type} (Read : Z → R → bytes * option error * R) (D : R → bytes → nat → Prop).

Definition delivers : Prop :=
  ∀ r s m n p err r', D r s m → 0 < n → Read n r = (p, err, r') →
    (err = Some EOF ∧ p = s) ∨
    (err = None ∧ ∃ s' m', s = p +:+ s' ∧ D r' s' m' ∧ (m' < m)%nat).

Context (Hdel : delivers).

Lemma ReadAll_exact fuel lens acc r s m :
  D r s m → (m < fuel)%nat → (∀ i, 0 < lens i) →
  ∃ r', ReadAll_loop Read fuel lens acc r = Some (Ok (acc +:+ s), r').
Proof.
  revert lens acc r s m. induction fuel as [|fuel IH]; intros lens acc r s m HD Hm Hl; [lia|].
  cbn [ReadAll_loop]. destruct (Read (lens 0%nat) r) as [[p err] r'] eqn:E.
  destruct (Hdel r s m _ p err r' HD (Hl 0%nat) E) as [[-> ->]|(-> & s' & m' & -> & HD' & Hm')].
  - rewrite bool_decide_true by done. eauto.
  - destruct (IH (λ i, lens (S i)) (acc +:+ p) r' s' m') as [r'' Hr]; [done|lia|done|].
    exists r''. by rewrite Hr, string_app_assoc.
Qed.

Lemma sink_Write_free p k : k_room k = None → sink_Write p k = (None, mkSink (k_bytes k +:+ p) None).
Proof. unfold sink_Write. by intros ->. Qed.

Lemma Copy_exact fuel k r s m :
  D r s m → (m < fuel)%nat → k_room k = None →
  ∃ r', Copy_loop Read fuel k r = Some (None, mkSink (k_bytes k +:+ s) None, r').
Proof.
  revert k r s m. induction fuel as [|fuel IH]; intros k r s m HD Hm Hk; [lia|].
  cbn [Copy_loop]. destruct (Read 32768 r) as [[p err] r'] eqn:E.
  assert ((if bool_decide (p = "") then (None, k) else sink_Write p k)
          = (None, mkSink (k_bytes k +:+ p) None)) as ->.
  { case_bool_decide; [subst p|by apply sink_Write_free].
    rewrite string_app_nil_r. destruct k as [kb kr]. cbn in Hk |- *. by rewrite Hk. }
  destruct (Hdel r s m 32768 p err r' HD ltac:(lia) E) as [[-> ->]|(-> & s' & m' & -> & HD' & Hm')].
  - rewrite bool_decide_true by done. eauto.
  - destruct (IH (mkSink (k_bytes k +:+ p) None) r' s' m') as [r'' Hr]; [done|lia|done|].
    exists r''. rewrite Hr. cbn. by rewrite string_app_assoc.
Qed.
End exact.

(** The stream a range of an object is: [length] negative is to the end. *)
Definition range_of (data : bytes) (offset length : Z) : bytes :=
  let rest := str_drop (Z.to_nat offset) data in
  if length <? 0 then rest else clamp length rest.

Lemma strlen_drop n s : 0 ≤ n → strlen (str_drop (Z.to_nat n) s) = Z.max 0 (strlen s - n).
Proof. intros. unfold strlen. rewrite str_length_drop. lia. Qed.

Lemma clamp_drop_clamp n m s :
  0 ≤ m → clamp (n - m) (str_drop (Z.to_nat m) s) = str_drop (Z.to_nat m) (clamp n s).
Proof.
  intros Hm. unfold clamp. replace (Z.to_nat (n - m)) with (Z.to_nat n - Z.to_nat m)%nat by lia.
  clear. revert s. generalize (Z.to_nat n) as a, (Z.to_nat m) as b. intros a b. revert a.
  induction b as [|b IH]; intros a s.
  { by rewrite !str_drop_0, Nat.sub_0_r. }
  destruct s as [|c s]; [destruct a; cbn; [done|by destruct (a - b)%nat]|]. destruct a as [|a]; cbn; [|apply IH].
  by destruct (str_drop b s).
Qed.

Lemma clamp_split a b s :
  0 ≤ a → 0 ≤ b → clamp a s +:+ clamp b (str_drop (Z.to_nat a) s) = clamp (a + b) s.
Proof.
  intros Ha Hb. unfold clamp. rewrite Z2Nat.inj_add by lia.
  generalize (Z.to_nat a) as n, (Z.to_nat b) as m. intros n m. clear. revert s.
  induction n as [|n IH]; intros s; [by rewrite str_drop_0|].
  destruct s as [|c s]; cbn; [by destruct m|]. f_equal. apply IH.
Qed.

Lemma clamp_min n s : clamp (Z.min n (strlen s)) s = clamp n s.
Proof.
  destruct (Z.min_spec n (strlen s)) as [[_ ->]|[H ->]]; [done|]. by rewrite !clamp_all.
Qed.

(** What a range has left after its first [target] bytes. *)
Lemma range_of_rest data off len target :
  0 ≤ off → 0 ≤ target →
  clamp (strlen (range_of data off len) - target) (str_drop (Z.to_nat (off + target)) data)
  = str_drop (Z.to_nat target) (range_of data off len).
Proof.
  intros Ho Ht. rewrite Z2Nat.inj_add, <- str_drop_drop, clamp_drop_clamp by lia. f_equal.
  unfold range_of. destruct (Z.ltb_spec len 0); [by rewrite clamp_all|].
  by rewrite strlen_clamp, clamp_min by lia.
Qed.

Lemma strlen_range_of data off len :
  0 ≤ off ≤ strlen data →
  strlen (range_of data off len) = if len <? 0 then strlen data - off else Z.min len (strlen data - off).
Proof.
  intros. unfold range_of. destruct (Z.ltb_spec len 0).
  - rewrite strlen_drop by lia. lia.
  - rewrite strlen_clamp, strlen_drop by lia. lia.
Qed.

(** A body that was sent the stream [s]: it delivers it, or breaks off with an
    error of the connection. *)
Definition sends (b : body) (s : bytes) : Prop :=
  ∃ tail, s = body_bytes b +:+ tail ∧
    match b_err b with None => tail = "" | Some e => other_error e ∧ e ≠ EOF end.

Lemma sends_intact b s : sends b s → intact b → body_bytes b = s.
Proof. unfold intact. intros (tail & -> & H) Hi. rewrite Hi in H. subst tail. by rewrite string_app_nil_r. Qed.
