(* ===== verification/RemoteStore.v ===== *)
(** * A remote driver implements the store

    [BackendLaws] is what a driver's [backend] promises at the level of physical
    keys, in the terms of the store contract.  [remote_refines_store] is proved
    against it: the wrapper [Remote.Bucket] over any such backend answers the
    calls of the lock, the queue and the watcher as [gspec] allows.  The S3, Cloud
    Storage and Azure backends discharge the class from the documented behaviour
    of their services. *)
From S2P Require Import Prelude Strconv GoTime Md5 Core Effects Store Unicode Remote RemoteTheorems.

(** An attempt that failed for a reason of its own and did nothing. *)
Definition idle_error {A} (s : store) (r : result A) (s' : store) : Prop :=
  ∃ e, r = Err e ∧ other_error e ∧ s' = s.

(** ** Uploads through a pipe *)

Section session.
Context {W E : Type} (view : W → store) (rule : token_rule) (raw map_error : E → error) (neither : E → Prop).
Context (Hmap : ∀ e, other_error (raw e) → neither e → other_error (map_error e)).

(** What a service promises of a finished write of [d] at [key], with a condition
    on the current version: it is stored if the condition holds; a failure whose
    error names neither a missing object nor a conflict may or may not have
    stored it; another failure means that the condition does not hold. *)
Definition put_law (key : string) (d : bytes) (md : metadata) (allowed : option string → bool)
    (w : W) (a : option E) (w' : W) : Prop :=
  let ok := allowed (version_at (view w) key) in
  match a with
  | None => ok = true ∧ gput rule (view w) key d md (view w')
  | Some e => other_error (raw e) ∧
      ((view w' = view w ∧ (neither e ∨ ok = false)) ∨
       (neither e ∧ ok = true ∧ gput rule (view w) key d md (view w')))
  end.

Lemma put_law_write key d md allowed c w a w' :
  allowed (version_at (view w) key) = holds c (version_at (view w) key) → put_law key d md allowed w a w' →
  gwrite_spec rule key d md c (view w) (of_error (map_error <$> a)) (view w').
Proof.
  intros Hc. unfold put_law. rewrite Hc. destruct a as [e|]; cbn; [|done].
  intros (Ho & [[Hs Hcase]|(Hn & Hh & Hp)]).
  - left. split; [done|]. destruct Hcase; [left; by apply Hmap|by right].
  - right. split_and!; [by apply Hmap|done|done].
Qed.

(** A write of [p] through a pipe: the upload gives up while it is offered the
    bytes, or its result at their end is the result of the write. *)
Definition pipe_session (up : uploader W E) (p : bytes) : M W (result unit) := λ w,
  match up_stop up "" p w with
  | (Some (n, e), w1) => (Err (raw e), w1)
  | (None, w1) => let '(a, w2) := up_end up (mkSource p None) w1 in (of_error (map_error <$> a), w2)
  end.

(** What a service promises of an upload: nothing is stored before the body has
    ended, nor when it ends with an error. *)
Record upload_law (up : uploader W E) (key : string) (md : metadata) (allowed : option string → bool) : Prop := {
  ul_stop sent p w a w' :
    up_stop up sent p w = (a, w') → view w' = view w ∧ ∀ n e, a = Some (n, e) → other_error (raw e);
  ul_put d w a w' : up_end up (mkSource d None) w = (a, w') → put_law key d md allowed w a w';
  ul_abort d cause w a w' : up_end up (mkSource d (Some cause)) w = (a, w') → view w' = view w;
}.

Lemma pipe_session_write up key p md allowed c w r w' :
  upload_law up key md allowed → allowed (version_at (view w) key) = holds c (version_at (view w) key) →
  pipe_session up p w = (r, w') →
  idle_error (view w) r (view w') ∨ gwrite_spec rule key p md c (view w) r (view w').
Proof.
  intros Hup Hc. unfold pipe_session. destruct (up_stop up "" p w) as [a w1] eqn:Es.
  apply (ul_stop _ _ _ _ Hup) in Es as [Hv1 Hst]. destruct a as [[n e]|].
  - intros [= <- <-]. left. exists (raw e). split_and!; [done|by eapply Hst|done].
  - destruct (up_end up _ w1) as [a w2] eqn:Ee. intros [= <- <-]. right. rewrite <- Hv1.
    apply (ul_put _ _ _ _ Hup) in Ee. eapply put_law_write; [by rewrite Hv1|exact Ee].
Qed.

(** A condition the service does not find met: the write fails and stores nothing. *)
Lemma pipe_session_refused up key p md allowed w r w' :
  upload_law up key md allowed → allowed (version_at (view w) key) = false → pipe_session up p w = (r, w') →
  view w' = view w ∧ ∃ e, r = Err e.
Proof.
  intros Hup Hc. unfold pipe_session. destruct (up_stop up "" p w) as [a w1] eqn:Es.
  apply (ul_stop _ _ _ _ Hup) in Es as [Hv1 Hst]. destruct a as [[n e]|]; [intros [= <- <-]; eauto|].
  destruct (up_end up _ w1) as [a w2] eqn:Ee. intros [= <- <-]. apply (ul_put _ _ _ _ Hup) in Ee.
  unfold put_law in Ee. rewrite Hv1, Hc in Ee. destruct a as [e|]; [|by destruct Ee].
  destruct Ee as (_ & [[Hv _]|(_ & ? & _)]); [|done]. split; [done|]. cbn. eauto.
Qed.
End session.

(** A whole write through a backend: open a writer, hand the bytes over, close
    it or abort it. *)
Definition write_session {W B R V} `{!Backend W B R V} (b : B) (key : string) (opts : WriterOptions)
    (c : Preconditions) (p : bytes) : M W (result unit) :=
  let? writer := be_NewWriter b key opts c in
  '(_, err, writer) ← wr_Write p writer;
  Remote.finish_write err writer.

(** The promise of a backend [b], whose objects are [view w] in the state [w] of
    its service.  It holds for the keys, metadata and preconditions the driver
    can represent. *)
Class BackendLaws {W B R V : Type} `{!Backend W B R V} (b : B) (view : W → store) (rule : token_rule)
    (okkey okprefix : string → Prop) (okmd : metadata → Prop) (okput okdel : Preconditions → Prop) : Prop := {
  bl_attributes key w r w' :
    okkey key → be_Attributes b key w = (r, w') →
    view w' = view w ∧
    read_spec key (λ o a, a_Version a = so_version o ∧ a_Metadata a = so_meta o) (view w) r;
  bl_open key w r w' :
    okkey key → be_NewRangeReader b key 0 (-1) None w = (r, w') →
    view w' = view w ∧
    match r with
    | Err e => other_error e ∨ objs (view w) !! key = None
    | Ok rd => ∃ o, objs (view w) !! key = Some o ∧
        ∀ fuel lens d rd', (∀ i, 0 < lens i) → ReadAll_loop rd_Read fuel lens "" rd = Some (d, rd') →
          match d with Ok d => d = so_data o | Err e => other_error e end
    end;
  bl_write key opts c p w r w' :
    okkey key → okmd (o_Metadata opts) → okput c → o_BeforeWrite opts = None →
    write_session b key opts c p w = (r, w') →
    idle_error (view w) r (view w') ∨
    gwrite_spec rule key p (o_Metadata opts) c (view w) r (view w');
  bl_delete key c w r w' :
    okkey key → okdel c → be_Delete b key c w = (r, w') →
    idle_error (view w) r (view w') ∨ delete_spec key c (view w) r (view w');
  bl_list token size opts w r w' :
    okprefix (l_Prefix opts) → l_BeforeList opts = None → be_ListPage b token size (Some opts) w = (r, w') →
    view w' = view w ∧
    match r with
    | Err _ => True
    | Ok (page, _) => ∀ obj, obj ∈ page → lo_IsDir obj = false →
        HasPrefix (lo_Key obj) (l_Prefix opts) = true ∧ is_Some (objs (view w) !! lo_Key obj)
    end;
}.

Section exec.
Context {W B R V : Type} `{!Backend W B R V} `{!GoTables}.

Definition remoteBucket (b : B) (h : Handle) : Remote.Bucket B := Remote.mkBucket b (h_prefix h).

(** The calls a driver answers in one call of its own, with the fuel and the
    buffer sizes of [io.ReadAll]; [None] is a call of another kind, or a read
    that ran out of fuel. *)
Definition remote_exec (b : B) (fuel : nat) (lens : nat → Z) (o : op) : M W (option (ans o)) :=
  match o return M W (option (ans o)) with
  | OAttributes h key => r ← Remote.Attributes_ (remoteBucket b h) key; mret (Some r)
  | OReadAll h key => Remote.ReadAll fuel lens (remoteBucket b h) key
  | OListPage h token size opts => r ← Remote.ListPage (remoteBucket b h) token size (Some opts); mret (Some r)
  | OWriteAll h key p opts pre => r ← Remote.WriteAll (remoteBucket b h) key p (Some opts) pre; mret (Some r)
  | ODelete h key pre => r ← Remote.Delete (remoteBucket b h) key pre; mret (Some r)
  | _ => mret None
  end.
End exec.

(** A call the driver can represent. *)
Definition remote_ok (okkey okprefix : string → Prop) (okmd : metadata → Prop) (okput okdel : Preconditions → Prop)
    `{!GoTables} (o : op) : Prop :=
  match o with
  | OAttributes h key | OReadAll h key => okkey (h_key h key)
  | OListPage h _ _ opts => okprefix (h_key h (l_Prefix opts)) ∧ l_BeforeList opts = None
  | OWriteAll h key p opts pre =>
      okkey (h_key h key) ∧ o_BeforeWrite opts = None ∧
      (∀ c, CompilePreconditions pre = Ok c → okput c) ∧
      (∀ md md', NormalizeMetadata (o_Metadata opts) = Ok md → NormalizeMetadata md = Ok md' → okmd md')
  | ODelete h key pre => okkey (h_key h key) ∧ ∀ c, CompilePreconditions pre = Ok c → okdel c
  | _ => True
  end.

(** [WriteAll] of the wrapper: it refuses its options, or it is a write through
    the backend with the options compiled. *)
Lemma writeall_session {W B R V : Type} `{!Backend W B R V} `{!GoTables} (b : B) fuel lens h key p opts pre w a w' :
  o_BeforeWrite opts = None → remote_exec b fuel lens (OWriteAll h key p opts pre) w = (Some a, w') →
  (∃ e, a = Err e ∧ other_error e ∧ w' = w) ∨
  ∃ c md md' out, CompilePreconditions pre = Ok c ∧ NormalizeMetadata (o_Metadata opts) = Ok md ∧
    NormalizeMetadata md = Ok md' ∧ o_Metadata out = md' ∧ o_BeforeWrite out = None ∧
    write_session b (h_key h key) out c p w = (a, w').
Proof.
  intros Hb. cbn -[CompilePreconditions NormalizeMetadata]. unfold Remote.WriteAll, mbind at 1, M_bind.
  destruct (PrepareWriteAllOptions (Some opts) p) as [out|e] eqn:Ep.
  2: { intros [= <- <-]. left. exists e. split_and!; try done. unfold PrepareWriteAllOptions, WriterOptions_Clone in Ep.
       destruct (NormalizeMetadata (o_Metadata opts)) eqn:Hm; cbn in Ep; [done|]. simplify_eq. by eapply normalize_other. }
  unfold Remote.NewWriter.
  destruct (CompilePreconditions pre) as [c|e] eqn:Ec.
  2: { intros [= <- <-]. left. exists e. split_and!; try done. by eapply compile_other. }
  destruct (WriterOptions_Clone (Some out)) as [out'|e] eqn:Ecl.
  2: { intros [= <- <-]. left. exists e. split_and!; try done. unfold WriterOptions_Clone in Ecl.
       destruct (NormalizeMetadata (o_Metadata out)) eqn:Hm; cbn in Ecl; [done|]. simplify_eq. by eapply normalize_other. }
  destruct (writeall_options _ _ _ _ Ep Ecl) as (md & md' & Hm & Hm' & Ho & Hbw).
  match goal with |- context [try_ ?m ?k w] => destruct (try_ m k w) as [r w1] eqn:E end.
  intros [= <- <-]. right. exists c, md, md', out'. split_and!; [done..|congruence|exact E].
Qed.

Section refine.
Context {W B R V : Type} `{!Backend W B R V} `{!GoTables}.
Context (b : B) (view : W → store) (rule : token_rule).
Context (okkey okprefix : string → Prop) (okmd : metadata → Prop) (okput okdel : Preconditions → Prop).
Context `{!BackendLaws b view rule okkey okprefix okmd okput okdel}.

Lemma remote_attributes h key w a w' :
  okkey (h_key h key) → remote_exec b 0 (λ _, 1) (OAttributes h key) w = (Some a, w') →
  gspec rule (OAttributes h key) (view w) a (view w').
Proof.
  intros Hk. cbn. unfold Remote.Attributes_, mbind, M_bind.
  destruct (be_Attributes _ _ w) as [r w1] eqn:E. intros [= <- <-].
  exact (bl_attributes _ _ _ _ Hk E).
Qed.

Lemma remote_readall fuel lens h key w a w' :
  okkey (h_key h key) → (∀ i, 0 < lens i) →
  remote_exec b fuel lens (OReadAll h key) w = (Some a, w') →
  gspec rule (OReadAll h key) (view w) a (view w').
Proof.
  intros Hk Hl. cbn. unfold Remote.ReadAll, Remote.NewReader, Remote.NewRangeReader, mbind, M_bind.
  destruct (be_NewRangeReader _ _ _ _ _ w) as [r w1] eqn:E. intros [= Ha <-].
  destruct (bl_open _ _ _ _ Hk E) as [Hv Hr]. split; [done|]. destruct r as [rd|e].
  - destruct Hr as (o & Ho & Hall). destruct (ReadAll_loop _ _ _ _ _) as [[d rd']|] eqn:El; [|done].
    cbn in Ha. simplify_eq. specialize (Hall _ _ _ _ Hl El). destruct a as [d|e]; cbn.
    + exists o. by rewrite Hall.
    + by left.
  - by simplify_eq.
Qed.

Lemma remote_listpage fuel lens h token size opts w a w' :
  okprefix (h_key h (l_Prefix opts)) → l_BeforeList opts = None →
  remote_exec b fuel lens (OListPage h token size opts) w = (Some a, w') →
  gspec rule (OListPage h token size opts) (view w) a (view w').
Proof.
  intros Hk Hb. cbn. unfold Remote.ListPage, try_, mbind, M_bind. cbn.
  destruct (be_ListPage _ _ _ _ w) as [r w1] eqn:E.
  apply bl_list in E as [Hv Hr]; [|exact Hk|exact Hb].
  destruct r as [[page next]|e]; cbn; intros [= <- <-]; split; try done.
  intros obj Ho Hd. apply list_elem_of_fmap in Ho as (o & -> & Ho). cbn in Hd.
  destruct (Hr o Ho Hd) as [Hp Hs]. apply HasPrefix_spec in Hp as [rest Hp]. cbn in Hp.
  unfold Remote.trim_key. cbn. unfold Remote.objectKey in Hp. cbn in Hp.
  rewrite string_app_assoc in Hp. rewrite Hp, TrimPrefix_app. unfold h_key. by rewrite <- Hp.
Qed.

Lemma remote_writeall fuel lens h key p opts pre w a w' :
  remote_ok okkey okprefix okmd okput okdel (OWriteAll h key p opts pre) →
  remote_exec b fuel lens (OWriteAll h key p opts pre) w = (Some a, w') →
  gspec rule (OWriteAll h key p opts pre) (view w) a (view w').
Proof.
  intros (Hk & Hb & Hput & Hmd) E.
  destruct (writeall_session b fuel lens h key p opts pre w a w' Hb E) as [(e & -> & He & ->)|(c & md & md' & out & Ec & Hm & Hm' & Ho & Hbw & Es)].
  { left. by exists e. }
  apply bl_write in Es; [|exact Hk|rewrite Ho; by eapply Hmd|by apply Hput|done].
  rewrite Ho in Es. destruct Es as [(e & -> & He & Hs)|Es]; [left; by exists e|right]. by exists c, md, md'.
Qed.

Lemma remote_delete fuel lens h key pre w a w' :
  remote_ok okkey okprefix okmd okput okdel (ODelete h key pre) →
  remote_exec b fuel lens (ODelete h key pre) w = (Some a, w') →
  gspec rule (ODelete h key pre) (view w) a (view w').
Proof.
  intros (Hk & Hdel). cbn -[CompilePreconditions]. unfold Remote.Delete, mbind, M_bind.
  destruct (CompilePreconditions pre) as [c|e] eqn:Ec.
  2: { intros [= <- <-]. left. exists e. split_and!; try done. by eapply compile_other. }
  destruct (be_Delete _ _ _ w) as [r w1] eqn:E. intros [= <- <-].
  apply bl_delete in E; [|exact Hk|by apply Hdel].
  destruct E as [(e & -> & He & Hs)|E]; [left; by exists e|right]. by exists c.
Qed.

(** Every answer of a remote driver is one the store contract allows. *)
Lemma remote_refines fuel lens o w a w' :
  remote_ok okkey okprefix okmd okput okdel o → (∀ i, 0 < lens i) →
  remote_exec b fuel lens o w = (Some a, w') → gspec rule o (view w) a (view w').
Proof.
  intros Hok Hl. destruct o; try done.
  - intros E. apply remote_attributes; [exact Hok|]. exact E.
  - by apply remote_readall.
  - destruct Hok. by apply remote_listpage.
  - by apply remote_writeall.
  - by apply remote_delete.
Qed.
End refine.
