(* ===== verification/S3Driver.v ===== *)
(** * The S3 driver (s3/s3.go)

    [Module S3]: the requests the driver builds, the translation of options,
    preconditions, tokens, ranges and errors, the range reader with its [Seek]
    by a new request, the streaming writer, and the backend's methods over the
    calls of the AWS SDK, which are the fields of [client]. *)
From S2P Require Import Prelude Strconv GoTime Md5 Core Effects Unicode NetUrl Remote.

(** The double quote around an entity tag. *)
Definition quote : ascii := "034".

Module S3.

(** ** Requests and answers of the SDK *)

(** An error of the SDK, as the driver can look at it: [errors.As] to an
    APIError and its code, to the two typed errors, to a ResponseError and its
    status, and the error value itself. *)
Record sdk_error := mkSdkError {
  se_code : option string;
  se_NotFound : bool;
  se_NoSuchKey : bool;
  se_status : option Z;
  se_raw : error;
}.

Record HeadObjectOutput := mkHeadObjectOutput {
  ho_CacheControl : option string;
  ho_ContentDisposition : option string;
  ho_ContentEncoding : option string;
  ho_ContentLanguage : option string;
  ho_ContentType : option string;
  ho_Metadata : metadata;
  ho_LastModified : option Z;
  ho_ContentLength : option Z;
  ho_ETag : option string;
}.

Record GetObjectInput := mkGetObjectInput {
  gi_Bucket : string;
  gi_Key : string;
  gi_Range : option string;
}.

Record GetObjectOutput := mkGetObjectOutput {
  go_Body : body;
  go_ContentLength : option Z;
  go_ContentRange : option string;
  go_CacheControl : option string;
  go_ContentEncoding : option string;
  go_ContentType : option string;
  go_Metadata : metadata;
  go_LastModified : option Z;
  go_ETag : option string;
}.

Record PutObjectInput := mkPutObjectInput {
  pi_Bucket : string;
  pi_Key : string;
  pi_CacheControl : option string;
  pi_ContentDisposition : option string;
  pi_ContentEncoding : option string;
  pi_ContentLanguage : option string;
  pi_ContentType : option string;
  pi_Metadata : metadata;
  pi_ContentMD5 : option string;
  pi_IfNoneMatch : option string;
  pi_IfMatch : option string;
}.

(** The two options the driver sets on the upload manager. *)
Record upload_options := mkUploadOptions {
  uo_PartSize : option Z;
  uo_Concurrency : option Z;
}.

Record CopyObjectInput := mkCopyObjectInput {
  ci_Bucket : string;
  ci_Key : string;
  ci_CopySource : string;
  ci_MetadataDirective : option string;
  ci_Metadata : metadata;
  ci_CacheControl : option string;
  ci_ContentDisposition : option string;
  ci_ContentEncoding : option string;
  ci_ContentLanguage : option string;
  ci_ContentType : option string;
}.

Record DeleteObjectInput := mkDeleteObjectInput {
  di_Bucket : string;
  di_Key : string;
  di_IfMatch : option string;
}.

Record ListObjectsV2Input := mkListObjectsV2Input {
  li_Bucket : string;
  li_MaxKeys : Z;
  li_Prefix : option string;
  li_Delimiter : option string;
  li_ContinuationToken : option string;
}.

Record list_entry := mkListEntry {
  le_Key : option string;
  le_LastModified : option Z;
  le_Size : option Z;
}.

Record ListObjectsV2Output := mkListObjectsV2Output {
  lo_Contents : list list_entry;
  lo_CommonPrefixes : list (option string);
  lo_IsTruncated : option bool;
  lo_NextContinuationToken : option string;
}.

Record CreateMultipartUploadInput := mkCreateMultipartUploadInput {
  cm_Bucket : string;
  cm_Key : string;
  cm_CacheControl : option string;
  cm_ContentDisposition : option string;
  cm_ContentEncoding : option string;
  cm_ContentLanguage : option string;
  cm_ContentType : option string;
  cm_Metadata : metadata;
}.

Record UploadPartCopyInput := mkUploadPartCopyInput {
  up_Bucket : string;
  up_Key : string;
  up_UploadId : option string;
  up_CopySource : string;
  up_CopySourceRange : string;
  up_PartNumber : Z;
}.

Record CompletedPart := mkCompletedPart {
  cp_ETag : option string;
  cp_PartNumber : Z;
}.

(** The calls of the SDK the driver makes.  [UploadPartCopy] answers with the
    CopyPartResult of the part, which may be nil, and its entity tag. *)
Record client (W : Type) := mkClient {
  HeadObject : string → string → M W (answer sdk_error HeadObjectOutput);
  GetObject : GetObjectInput → M W (answer sdk_error GetObjectOutput);
  Upload : PutObjectInput → upload_options → uploader W sdk_error;
  CopyObject : CopyObjectInput → M W (answer sdk_error (option (option string)));
  DeleteObject : DeleteObjectInput → M W (answer sdk_error unit);
  ListObjectsV2 : ListObjectsV2Input → M W (answer sdk_error ListObjectsV2Output);
  HeadBucket : string → M W (answer sdk_error unit);
  PresignGetObject : string → string → Z → M W (answer sdk_error string);
  PresignPutObject : string → string → option string → Z → M W (answer sdk_error string);
  PresignDeleteObject : string → string → Z → M W (answer sdk_error string);
  CreateMultipartUpload : CreateMultipartUploadInput → M W (answer sdk_error (option string));
  UploadPartCopy : UploadPartCopyInput → M W (answer sdk_error (option (option string)));
  CompleteMultipartUpload : string → string → option string → list CompletedPart → M W (answer sdk_error unit);
  AbortMultipartUpload : string → string → option string → M W (answer sdk_error unit);
}.
Arguments HeadObject {W}.
Arguments GetObject {W}.
Arguments Upload {W}.
Arguments CopyObject {W}.
Arguments DeleteObject {W}.
Arguments ListObjectsV2 {W}.
Arguments HeadBucket {W}.
Arguments PresignGetObject {W}.
Arguments PresignPutObject {W}.
Arguments PresignDeleteObject {W}.
Arguments CreateMultipartUpload {W}.
Arguments UploadPartCopy {W}.
Arguments CompleteMultipartUpload {W}.
Arguments AbortMultipartUpload {W}.

(** ** Helpers of the driver *)

(** [aws.ToString], [aws.ToInt64], [aws.ToTime], [aws.ToBool]. *)
Definition ToString (s : option string) : string := default "" s.
Definition ToInt64 (z : option Z) : Z := default 0 z.
Definition ToTime (z : option Z) : Z := default zeroTime z.
Definition ToBool (b : option bool) : bool := default false b.

(** [if s != "" { input.Field = aws.String(s) }]. *)
Definition nonempty (s : string) : option string := if bool_decide (s = "") then None else Some s.

(** [if len(md) > 0 { input.Metadata = md }]. *)
Definition nonempty_metadata (md : metadata) : metadata :=
  match md with Some m => if bool_decide (m = ∅) then None else Some m | None => None end.

(** [mapError]: [fmt.Errorf("%w: %w", Sentinel, err)] wraps both. *)
Definition mapError (e : sdk_error) : error :=
  let err := se_raw e in
  let by_code :=
    match se_code e with
    | Some c =>
      if bool_decide (c ∈ ["NoSuchKey"; "NotFound"; "NoSuchBucket"]) then Some (ErrJoin ErrNotFound err)
      else if bool_decide (c ∈ ["PreconditionFailed"; "ConditionalRequestConflict"])
      then Some (ErrJoin ErrPreconditionFailed err)
      else None
    | None => None
    end in
  match by_code with
  | Some e' => e'
  | None =>
    if se_NotFound e then ErrJoin ErrNotFound err
    else if se_NoSuchKey e then ErrJoin ErrNotFound err
    else
      match se_status e with
      | Some st =>
        if bool_decide (st = 404) then ErrJoin ErrNotFound err
        else if bool_decide (st = 412 ∨ st = 409) then ErrJoin ErrPreconditionFailed err
        else err
      | None => err
      end
  end.

(** A call whose error is mapped and returned. *)
Definition checked {W A} (m : M W (answer sdk_error A)) : M W (result A) :=
  a ← m; mret match a with Ans x => Ok x | Fail e => Err (mapError e) end.

Definition etagVersion (etag : option string) : string := TrimByte (ToString etag) quote.

Definition etagHeader (version : string) : string :=
  if bool_decide (version = "") then version
  else if HasPrefix version (String quote "") then version
  else String quote (version +:+ String quote "").

Definition rangeHeader (offset length : Z) : string :=
  if (offset <=? 0) && (length <? 0) then ""
  else if length <? 0 then "bytes=" +:+ Itoa offset +:+ "-"
  else if length =? 0 then "bytes=" +:+ Itoa offset +:+ "-" +:+ Itoa offset
  else "bytes=" +:+ Itoa offset +:+ "-" +:+ Itoa (wrap64 (wrap64 (offset + length) - 1)).

Definition totalFromContentRange (contentRange : option string) : option Z :=
  match contentRange with
  | None => None
  | Some cr =>
    match LastIndexByte cr "/" with
    | None => None
    | Some idx =>
      let total := str_drop (S idx) cr in
      if bool_decide (total = "*") then None
      else match Atoi total with Ok n => Some n | Err _ => None end
    end
  end.

Definition copySource (bucket key : string) : string :=
  PathEscape bucket +:+ "/" +:+ Join_strings (PathEscape <$> SplitByte key "/") "/".

Definition applyWriteConditions (input : PutObjectInput) (pre : Preconditions) : PutObjectInput :=
  let set inm im :=
    mkPutObjectInput (pi_Bucket input) (pi_Key input) (pi_CacheControl input)
      (pi_ContentDisposition input) (pi_ContentEncoding input) (pi_ContentLanguage input)
      (pi_ContentType input) (pi_Metadata input) (pi_ContentMD5 input) inm im in
  if p_IfNotExists pre then set (Some "*") (pi_IfMatch input)
  else if negb (bool_decide (p_IfMatch pre = "")) then
    set (pi_IfNoneMatch input) (Some (etagHeader (p_IfMatch pre)))
  else if negb (bool_decide (p_IfNotMatch pre = "")) then
    set (Some (etagHeader (p_IfNotMatch pre))) (pi_IfMatch input)
  else input.

(** ** The range reader

    [open] is the field of that name, [openReader] of the backend. *)
Record s3Reader := mkS3Reader {
  r_key : string;
  r_start : Z;
  r_length : Z;
  r_pos : Z;
  r_reader : option body;
  r_attrs : option Attributes;
  r_closed : bool;
}.

Abbreviation opener W := (string → Z → Z → M W (result (body * Attributes))) (only parsing).

(** What reading a body gives after its [Close]. *)
Definition closed_body (b : body) : body :=
  mkBody [] (Some (ErrOther "http: read on closed response body")) false (b_close b).

Definition rangeSize (r : s3Reader) : Z :=
  match r_attrs r with
  | None => r_length r
  | Some attrs =>
    let size := wrap64 (a_Size attrs - r_start r) in
    let size := if size <? 0 then 0 else size in
    if (0 <=? r_length r) && (r_length r <? size) then r_length r else size
  end.

(** [Read(p)] with [len(p) = n].  A reader that [NewRangeReader] returned has a
    body: the last branch is a nil dereference no caller can reach. *)
Definition Read (n : Z) (r : s3Reader) : bytes * option error * s3Reader :=
  if r_closed r then ("", Some (ErrOther "blobster s3: read after close"), r)
  else
    let remaining := wrap64 (rangeSize r - r_pos r) in
    if remaining <=? 0 then ("", Some EOF, r)
    else
      let n := if remaining <? n then remaining else n in
      match r_reader r with
      | Some b =>
        let '(p, err, b') := body_Read n b in
        (p, err, mkS3Reader (r_key r) (r_start r) (r_length r) (wrap64 (r_pos r + strlen p))
                   (Some b') (r_attrs r) (r_closed r))
      | None => ("", Some (ErrOther "nil pointer dereference"), r)
      end.

Definition reopen {W} (open : opener W) (pos : Z) (r : s3Reader) : M W (option error * s3Reader) :=
  match r_reader r ≫= b_close with
  | Some e => mret (Some e, r)
  | None =>
    let r := mkS3Reader (r_key r) (r_start r) (r_length r) (r_pos r) (closed_body <$> r_reader r)
               (r_attrs r) (r_closed r) in
    let size := match r_attrs r with None => r_length r | Some _ => rangeSize r end in
    let '(pos, length) :=
      if 0 <=? r_length r then
        let pos := if size <? pos then size else pos in (pos, wrap64 (size - pos))
      else (pos, -1) in
    if (length =? 0) && bool_decide (is_Some (r_attrs r)) then
      mret (None, mkS3Reader (r_key r) (r_start r) (r_length r) pos (Some empty_body) (r_attrs r) false)
    else
      o ← open (r_key r) (wrap64 (r_start r + pos)) length;
      mret match o with
           | Err e => (Some e, r)
           | Ok (reader, attrs) =>
             (None, mkS3Reader (r_key r) (r_start r) (r_length r) pos (Some reader) (Some attrs) false)
           end
  end.

(** [io.SeekStart], [io.SeekCurrent], [io.SeekEnd] are 0, 1 and 2. *)
Definition Seek {W} (open : opener W) (offset whence : Z) (r : s3Reader) : M W (result Z * s3Reader) :=
  let target :=
    if whence =? 0 then Some offset
    else if whence =? 1 then Some (wrap64 (r_pos r + offset))
    else if whence =? 2 then Some (wrap64 (rangeSize r + offset))
    else None in
  match target with
  | None => mret (Err ErrInvalidOption, r)
  | Some target =>
    if target <? 0 then mret (Err ErrInvalidOption, r)
    else
      '(err, r) ← reopen open target r;
      mret (match err with Some e => Err e | None => Ok target end, r)
  end.

Definition Close (r : s3Reader) : option error * s3Reader :=
  (r_reader r ≫= b_close,
   mkS3Reader (r_key r) (r_start r) (r_length r) (r_pos r) (closed_body <$> r_reader r) (r_attrs r) true).

(** [WriteTo]: [io.Copy] from the reader behind a struct that has only [Read]. *)
Definition WriteTo (fuel : nat) (k : sink) (r : s3Reader) : option (option error * sink * s3Reader) :=
  io_Copy Read None fuel k r.

Definition ContentType (r : s3Reader) : option string := a_ContentType <$> r_attrs r.
Definition ModTime (r : s3Reader) : option Z := a_ModTime <$> r_attrs r.
Definition Size (r : s3Reader) : option Z := a_Size <$> r_attrs r.

(** ** The streaming writer

    The pipe, the upload at its other end, and whether the writer is closed;
    [err] is what the goroutine stores. *)
Record s3Writer (W : Type) := mkS3Writer {
  w_upload : uploader W sdk_error;
  w_pw : pipe sdk_error;
  w_closed : bool;
}.
Arguments mkS3Writer {W} _ _ _.
Arguments w_upload {W} _.
Arguments w_pw {W} _.
Arguments w_closed {W} _.

Section writer.
Context {W : Type}.

Definition Write (p : bytes) (w : s3Writer W) : M W (Z * option error * s3Writer W) :=
  if w_closed w then mret (0, Some (ErrOther "blobster s3: write after close"), w)
  else
    '(n, err, pw) ← pipe_Write se_raw (w_upload w) p (w_pw w);
    mret (n, err, mkS3Writer (w_upload w) pw (w_closed w)).

Definition ReadFrom (r : source) (w : s3Writer W) : M W (option error * s3Writer W) :=
  if w_closed w then mret (Some (ErrOther "blobster s3: read from after close"), w)
  else
    '(err, pw) ← pipe_ReadFrom se_raw (w_upload w) r (w_pw w);
    mret (err, mkS3Writer (w_upload w) pw (w_closed w)).

Definition Writer_Close (w : s3Writer W) : M W (option error * s3Writer W) :=
  if w_closed w then mret (None, w)
  else
    e ← pipe_finish (w_upload w) None (w_pw w);
    mret (mapError <$> e, mkS3Writer (w_upload w) (w_pw w) true).

Definition Writer_CloseWithError (cause : error) (w : s3Writer W) : M W (option error * s3Writer W) :=
  if w_closed w then mret (None, w)
  else
    _ ← pipe_finish (w_upload w) (Some cause) (w_pw w);
    mret (None, mkS3Writer (w_upload w) (w_pw w) true).
End writer.

(** ** Cross-region copies (s3/crosscopy.go) *)

Definition maxSingleCopySize : Z := 5 * 1024 * 1024 * 1024.
Definition crossCopyPartSize : Z := 256 * 1024 * 1024.
Definition crossCopyConcurrency : Z := 8.
Definition maxCopyParts : Z := 10000.

Record crossCopy (W : Type) := mkCrossCopy {
  c_api : client W;
  c_dstBucket : string;
  c_dstKey : string;
  c_copySource : string;
  c_srcBucket : string;
  c_srcKey : string;
  c_opts : option CopyOptions;
  c_maxSingle : Z;
  c_partSize : Z;
  c_maxParts : Z;
  c_concurrency : Z;
}.
Arguments mkCrossCopy {W} _ _ _ _ _ _ _ _ _ _ _.
Arguments c_api {W} _.
Arguments c_dstBucket {W} _.
Arguments c_dstKey {W} _.
Arguments c_copySource {W} _.
Arguments c_srcBucket {W} _.
Arguments c_srcKey {W} _.
Arguments c_opts {W} _.
Arguments c_maxSingle {W} _.
Arguments c_partSize {W} _.
Arguments c_maxParts {W} _.
Arguments c_concurrency {W} _.

(** [applyHeadMetadata(create, head)] on the input with the two names set. *)
Definition applyHeadMetadata (bucket key : string) (head : HeadObjectOutput) : CreateMultipartUploadInput :=
  mkCreateMultipartUploadInput bucket key
    (nonempty (ToString (ho_CacheControl head))) (nonempty (ToString (ho_ContentDisposition head)))
    (nonempty (ToString (ho_ContentEncoding head))) (nonempty (ToString (ho_ContentLanguage head)))
    (nonempty (ToString (ho_ContentType head))) (nonempty_metadata (CloneMetadata (ho_Metadata head))).

(** The part size and count of a multipart copy, in 64-bit arithmetic; Go's
    division truncates. *)
Definition ceil_div (size d : Z) : Z := Z.quot (wrap64 (wrap64 (size + d) - 1)) d.

Definition plan_partSize (size partSize maxParts : Z) : Z :=
  if maxParts <? ceil_div size partSize then ceil_div size maxParts else partSize.

(** [start], [end] and the number of part [i]. *)
Definition part_start (partSize : Z) (i : nat) : Z := wrap64 (Z.of_nat i * partSize).
Definition part_end (size partSize : Z) (i : nat) : Z :=
  let e := wrap64 (wrap64 (part_start partSize i + partSize) - 1) in
  if size <=? e then wrap64 (size - 1) else e.
Definition part_number (i : nat) : Z := wrap32 (Z.of_nat i + 1).

Section copy.
Context {W : Type}.
Implicit Types c : crossCopy W.

Definition abort c (uploadID : option string) : M W unit :=
  _ ← AbortMultipartUpload (c_api c) (c_dstBucket c) (c_dstKey c) uploadID; mret tt.

Definition single c : M W (option error) :=
  match before_copy (c_opts c) with
  | Some e => mret (Some e)
  | None =>
    a ← CopyObject (c_api c)
          (mkCopyObjectInput (c_dstBucket c) (c_dstKey c) (c_copySource c) None None None None None None None);
    mret match a with Ans _ => None | Fail e => Some (mapError e) end
  end.

(** The call the goroutine of part [i] makes. *)
Definition part_input c (uploadID : option string) (size partSize : Z) (i : nat) : UploadPartCopyInput :=
  mkUploadPartCopyInput (c_dstBucket c) (c_dstKey c) uploadID (c_copySource c)
    ("bytes=" +:+ Itoa (part_start partSize i) +:+ "-" +:+ Itoa (part_end size partSize i))
    (part_number i).

(** The goroutines of the errgroup, in the order in which their calls are
    answered: every one runs, each stores its part at its own index, and
    [Wait] returns the first error.  [None] is the panic of a goroutine that
    reads the entity tag of an answer without a CopyPartResult. *)
Fixpoint copy_parts c (uploadID : option string) (size partSize : Z) (order : list nat)
    (parts : list CompletedPart) (err : option error) : M W (option (option error * list CompletedPart)) :=
  match order with
  | [] => mret (Some (err, parts))
  | i :: order =>
    a ← UploadPartCopy (c_api c) (part_input c uploadID size partSize i);
    match a with
    | Ans None => mret None
    | Ans (Some etag) =>
      copy_parts c uploadID size partSize order
        (<[i := mkCompletedPart etag (part_number i)]> parts) err
    | Fail e =>
      copy_parts c uploadID size partSize order parts
        (match err with Some _ => err | None => Some (mapError e) end)
    end
  end.

(** [multipart].  [schedule n] is an order in which [n] calls are answered. *)
Definition multipart (schedule : nat → list nat) c (head : HeadObjectOutput) (size : Z) : M W outcome :=
  let partSize := plan_partSize size (c_partSize c) (c_maxParts c) in
  let partCount := ceil_div size partSize in
  created ← CreateMultipartUpload (c_api c) (applyHeadMetadata (c_dstBucket c) (c_dstKey c) head);
  match created with
  | Fail e => mret (Returned (Some (mapError e)))
  | Ans uploadID =>
    if partCount <? 0 then mret Panicked
    else
      let n := Z.to_nat partCount in
      copied ← copy_parts c uploadID size partSize (schedule n)
                 (replicate n (mkCompletedPart None 0)) None;
      match copied with
      | None => mret Panicked
      | Some (Some e, _) => _ ← abort c uploadID; mret (Returned (Some e))
      | Some (None, parts) =>
        a ← CompleteMultipartUpload (c_api c) (c_dstBucket c) (c_dstKey c) uploadID parts;
        match a with
        | Fail e => _ ← abort c uploadID; mret (Returned (Some (mapError e)))
        | Ans _ => mret (Returned None)
        end
      end
  end.

Definition run (schedule : nat → list nat) c : M W outcome :=
  a ← HeadObject (c_api c) (c_srcBucket c) (c_srcKey c);
  match a with
  | Fail e => mret (Returned (Some (mapError e)))
  | Ans head =>
    if ToInt64 (ho_ContentLength head) <=? c_maxSingle c
    then e ← single c; mret (Returned e)
    else multipart schedule c head (ToInt64 (ho_ContentLength head))
  end.
End copy.

(** ** The backend *)

Record s3Backend (W : Type) := mkS3Backend {
  b_client : client W;
  b_bucket : string;
}.
Arguments mkS3Backend {W} _ _.
Arguments b_client {W} _.
Arguments b_bucket {W} _.

(** [WithPrefix], the one option of [New]. *)
Inductive Option_ := WithPrefix (prefix : string).

Definition New {W} (cl : client W) (bucket : string) (optFns : list Option_) : Remote.Bucket (s3Backend W) :=
  Remote.mkBucket (mkS3Backend cl bucket) (foldl (λ _ '(WithPrefix p), p) "" optFns).

Section backend.
Context {W : Type} `{!UpperTable}.
Implicit Types b : s3Backend W.

Definition Attributes_ b (key : string) : M W (result Attributes) :=
  let? out := checked (HeadObject (b_client b) (b_bucket b) key) in
  mret (Ok (mkAttributes (ToString (ho_CacheControl out)) (ToString (ho_ContentDisposition out))
    (ToString (ho_ContentEncoding out)) (ToString (ho_ContentLanguage out))
    (ToString (ho_ContentType out)) (CloneMetadata (ho_Metadata out)) zeroTime
    (ToTime (ho_LastModified out)) (ToInt64 (ho_ContentLength out)) "" (etagVersion (ho_ETag out)) None)).

Definition openReader b (key : string) (offset length : Z) : M W (result (body * Attributes)) :=
  let rng := rangeHeader offset length in
  let? out := checked (GetObject (b_client b) (mkGetObjectInput (b_bucket b) key (nonempty rng))) in
  let size := match totalFromContentRange (go_ContentRange out) with
              | Some total => total
              | None => ToInt64 (go_ContentLength out)
              end in
  mret (Ok (go_Body out,
    mkAttributes (ToString (go_CacheControl out)) "" (ToString (go_ContentEncoding out)) ""
      (ToString (go_ContentType out)) (CloneMetadata (go_Metadata out)) zeroTime
      (ToTime (go_LastModified out)) size "" (etagVersion (go_ETag out)) None)).

(** [NewRangeReader]: the input [BeforeRead] is given is not the one that is
    sent. *)
Definition NewRangeReader b (key : string) (offset length : Z) (opts : option ReaderOptions)
    : M W (result s3Reader) :=
  match before_read opts with
  | Some e => mret (Err e)
  | None =>
    '(err, r) ← reopen (openReader b) 0 (mkS3Reader key offset length 0 None None false);
    mret match err with Some e => Err e | None => Ok r end
  end.

(** The request [NewWriter] builds. *)
Definition put_input b (key : string) (opts : WriterOptions) (pre : Preconditions) : PutObjectInput :=
  applyWriteConditions
    (mkPutObjectInput (b_bucket b) key (nonempty (o_CacheControl opts))
       (nonempty (o_ContentDisposition opts)) (nonempty (o_ContentEncoding opts))
       (nonempty (o_ContentLanguage opts)) (nonempty (o_ContentType opts))
       (nonempty_metadata (CloneMetadata (o_Metadata opts)))
       (if bool_decide (strlen (o_ContentMD5 opts) = 0) then None
        else Some (base64_EncodeToString (o_ContentMD5 opts))) None None)
    pre.

Definition NewWriter b (key : string) (opts : WriterOptions) (pre : Preconditions) : M W (result (s3Writer W)) :=
  let input := put_input b key opts pre in
  match run_hook (o_BeforeWrite opts) with
  | Some e => mret (Err e)
  | None =>
    let uploadOpts := mkUploadOptions
      (if 0 <? o_BufferSize opts then Some (o_BufferSize opts) else None)
      (if 0 <? o_MaxConcurrency opts then Some (o_MaxConcurrency opts) else None) in
    mret (Ok (mkS3Writer (Upload (b_client b) input uploadOpts) (mkPipe "" None) false))
  end.

Definition UpdateMetadata b (key : string) (md : metadata) : M W (result string) :=
  let? cur := Attributes_ b key in
  let input := mkCopyObjectInput (b_bucket b) key (copySource (b_bucket b) key) (Some "REPLACE")
    (nonempty_metadata md) (nonempty (a_CacheControl cur)) (nonempty (a_ContentDisposition cur))
    (nonempty (a_ContentEncoding cur)) (nonempty (a_ContentLanguage cur)) (nonempty (a_ContentType cur)) in
  let? out := checked (CopyObject (b_client b) input) in
  mret (Ok match out with None => "" | Some etag => etagVersion etag end).

Definition Delete b (key : string) (pre : Preconditions) : M W (result unit) :=
  let go im :=
    let? _ := Attributes_ b key in
    checked (DeleteObject (b_client b) (mkDeleteObjectInput (b_bucket b) key im)) in
  if negb (bool_decide (p_IfMatch pre = "")) then go (Some (etagHeader (p_IfMatch pre)))
  else if p_IfNotExists pre || negb (bool_decide (p_IfNotMatch pre = "")) then mret (Err ErrUnsupported)
  else go None.

Definition Copy b (dstKey srcKey : string) (opts : option CopyOptions) : M W (result unit) :=
  match before_copy opts with
  | Some e => mret (Err e)
  | None =>
    let? _ := checked (CopyObject (b_client b)
      (mkCopyObjectInput (b_bucket b) dstKey (copySource (b_bucket b) srcKey) None None None None None None None)) in
    mret (Ok tt)
  end.

(** [XCopyFrom]: the function that the copy operation runs. *)
Definition XCopyFrom (schedule : nat → list nat) b (dstKey : string) (src : option (s3Backend W))
    (srcKey : string) (opts : option CopyOptions) : result (M W outcome) :=
  match src with
  | None => Err ErrUnsupported
  | Some srcBackend =>
    Ok (run schedule (mkCrossCopy (b_client b) (b_bucket b) dstKey (copySource (b_bucket srcBackend) srcKey)
          (b_bucket srcBackend) srcKey opts maxSingleCopySize crossCopyPartSize maxCopyParts crossCopyConcurrency))
  end.

Definition ListPage b (pageToken : bytes) (pageSize : Z) (opts : option ListOptions)
    : M W (result (list ListObject * bytes)) :=
  if bool_decide (strlen pageToken = 0) then mret (Err EOF)
  else
    let opts := default (mkListOptions "" "" None) opts in
    let pageSize := if pageSize <=? 0 then 1000 else pageSize in
    let input := mkListObjectsV2Input (b_bucket b) (wrap32 pageSize) (nonempty (l_Prefix opts))
      (nonempty (l_Delimiter opts))
      (if bool_decide (pageToken = FirstPageToken) then None else Some pageToken) in
    match run_hook (l_BeforeList opts) with
    | Some e => mret (Err e)
    | None =>
      let? out := checked (ListObjectsV2 (b_client b) input) in
      let dirs := (λ p, mkListObject (ToString p) zeroTime 0 "" true) <$> lo_CommonPrefixes out in
      let objs := (λ o, mkListObject (ToString (le_Key o)) (ToTime (le_LastModified o))
                          (ToInt64 (le_Size o)) "" false) <$> lo_Contents out in
      let next := if ToBool (lo_IsTruncated out) then ToString (lo_NextContinuationToken out) else "" in
      mret (Ok (dirs ++ objs, next))
    end.

Definition IsAccessible b : M W (result bool) :=
  a ← HeadBucket (b_client b) (b_bucket b);
  mret match a with
       | Ans _ => Ok true
       | Fail e => if Is (mapError e) ErrNotFound then Ok false else Err (mapError e)
       end.

(** [SignedURL]; [BeforeSign] is not called. *)
Definition SignedURL b (key : string) (opts : option SignedURLOptions) : M W (result string) :=
  let opts := default zeroSignedURLOptions opts in
  let expiry := if su_Expiry opts =? 0 then DefaultSignedURLExpiry else su_Expiry opts in
  let method := if bool_decide (su_Method opts = "") then "GET" else su_Method opts in
  let contentType := if su_EnforceAbsentContentType opts then "" else su_ContentType opts in
  let m := ToUpper method in
  if bool_decide (m = "GET") then checked (PresignGetObject (b_client b) (b_bucket b) key expiry)
  else if bool_decide (m = "PUT") then
    checked (PresignPutObject (b_client b) (b_bucket b) key (nonempty contentType) expiry)
  else if bool_decide (m = "DELETE") then
    checked (PresignDeleteObject (b_client b) (b_bucket b) key expiry)
  else mret (Err ErrInvalidOption).

Definition Capabilities_ : Capabilities := mkCapabilities true true true true true true true.

(** The interface, implemented.  The parts of a multipart copy are answered in
    the order [schedule] says. *)
#[export] Instance s3_Backend (schedule : nat → list nat) : Backend W (s3Backend W) s3Reader (s3Writer W) := {|
  be_Attributes := Attributes_;
  be_NewRangeReader := NewRangeReader;
  be_NewWriter := NewWriter;
  be_UpdateMetadata := UpdateMetadata;
  be_Delete := Delete;
  be_Copy _ b dst src opts :=
    r ← Copy b dst src opts; mret (Returned match r with Ok _ => None | Err e => Some e end);
  be_XCopyFrom _ := XCopyFrom schedule;
  be_ListPage := ListPage;
  be_IsAccessible := IsAccessible;
  be_SignedURL b _ _ := SignedURL b;
  be_Capabilities _ := Capabilities_;
  rd_Read := Read;
  rd_Close r := fst (Close r);
  rd_WriteTo := WriteTo;
  wr_Write := Write;
  wr_ReadFrom := ReadFrom;
  wr_Close := Writer_Close;
  wr_CloseWithError := Writer_CloseWithError;
|}.
End backend.
End S3.
