(* ===== verification/S3Theorems.v ===== *)
(** * Theorems about the S3 driver

    Tokens, headers and copy sources; the plan of a multipart copy; range
    reads; and the refinement of the store contract, each against the
    documented behaviour of the service, stated as laws on the client's
    calls. *)
From S2P Require Import Prelude Strconv GoTime Md5 Core Effects Store Unicode NetUrl Remote RemoteTheorems RemoteStore S3Driver.

Module S3T.
Import S3.

#[local] Arguments String.append !_ _ / : simpl nomatch.

(** ** Tokens *)

(** A token without a double quote: what an entity tag has between its quotes. *)
Definition clean (v : string) : Prop := Forall (λ c, c ≠ quote) (String.list_ascii_of_string v).

#[export] Instance clean_dec v : Decision (clean v).
Proof. unfold clean. apply _. Defined.

(** The entity tag of a version. *)
Definition quoted (v : string) : string := String quote (v +:+ String quote "").

Lemma TrimRight_clean v : clean v → TrimRightByte v quote = v.
Proof.
  induction v as [|c v IH]; [done|]. unfold clean. cbn. intros [Hc Hv]%Forall_cons.
  rewrite IH by done. rewrite (bool_decide_false (quote = c)) by congruence. by rewrite andb_false_r.
Qed.

Lemma TrimLeft_clean v s : clean v → v ≠ "" → TrimLeftByte (v +:+ s) quote = v +:+ s.
Proof. destruct v as [|c v]; [done|]. intros [Hc _]%Forall_cons _. cbn. by rewrite decide_False by congruence. Qed.

(** The driver's version of an entity tag is the tag without its quotes. *)
Lemma etagVersion_quoted v : clean v → v ≠ "" → etagVersion (Some (quoted v)) = v.
Proof.
  intros Hc Hne. unfold etagVersion, TrimByte, quoted, ToString.
  change (TrimLeftByte _ _) with (TrimLeftByte (v +:+ String quote "") quote).
  rewrite TrimLeft_clean by done.
  rewrite TrimRightByte_end. by apply TrimRight_clean.
Qed.

Lemma etagHeader_clean v : clean v → v ≠ "" → etagHeader v = quoted v.
Proof.
  intros Hc Hne. unfold etagHeader. rewrite bool_decide_false by done.
  destruct v as [|c v]; [done|]. apply Forall_cons in Hc as [Hc _].
  destruct (HasPrefix _ _) eqn:E; [|done].
  apply HasPrefix_spec in E as [r Hr]. cbn in Hr. congruence.
Qed.

Lemma quoted_inj v v' : quoted v = quoted v' → v = v'.
Proof.
  unfold quoted. intros [= H]. revert v' H. induction v as [|c v IH]; intros [|c' v']; cbn; intros H; try done.
  - injection H as _ H. by destruct v'.
  - injection H as _ H. by destruct v.
  - injection H as -> H. f_equal. auto.
Qed.

(** ** Copy sources *)

Lemma PathUnescape_Join ws :
  PathUnescape (Join_strings (PathEscape <$> ws) "/") = Some (Join_strings ws "/").
Proof.
  induction ws as [|w ws IH]; [done|]. destruct ws as [|w' ws].
  - cbn. rewrite <- (string_app_nil_r (PathEscape w)), PathUnescape_Escape. cbn. by rewrite string_app_nil_r.
  - cbn [Join_strings fmap list_fmap] in *. rewrite PathUnescape_Escape.
    change ("/" +:+ ?s) with (String "/" s). unfold PathUnescape in *.
    rewrite unescape_safe, IH by done. done.
Qed.

(** Decoding a copy source gives the bucket and the key back. *)
Lemma copySource_decodes bucket key :
  PathUnescape (copySource bucket key) = Some (bucket +:+ "/" +:+ key).
Proof.
  unfold copySource. rewrite PathUnescape_Escape.
  change ("/" +:+ ?s) with (String "/" s). unfold PathUnescape.
  rewrite unescape_safe by done.
  change (unescape "+" ?s) with (PathUnescape s). rewrite PathUnescape_Join, Join_SplitByte. done.
Qed.

(** ** The plan of a multipart copy *)

Lemma quot_ceil size d :
  0 < size → 0 < d → size + d ≤ int64_max →
  0 < ceil_div size d ∧ (ceil_div size d - 1) * d < size ≤ ceil_div size d * d.
Proof.
  intros Hs Hd Hm. unfold ceil_div.
  rewrite (wrap64_id (size + d)) by (unfold int64_min; lia).
  rewrite wrap64_id by (unfold int64_min, int64_max in *; lia).
  rewrite Z.quot_div_nonneg by lia.
  pose proof (Z.div_mod (size + d - 1) d). pose proof (Z.mod_pos_bound (size + d - 1) d). nia.
Qed.

Section plan.
Context (size partSize0 maxParts : Z).
Context (Hsize : 0 < size ≤ 2 ^ 61) (HpartSize : 0 < partSize0 ≤ 2 ^ 61) (HmaxParts : 0 < maxParts < 2 ^ 31).

Let partSize := plan_partSize size partSize0 maxParts.
Let n := ceil_div size partSize.

Lemma plan_sizes : 0 < partSize ≤ 2 ^ 61 ∧ 0 < n ≤ maxParts ∧ (n - 1) * partSize < size ≤ n * partSize.
Proof.
  unfold n, partSize, plan_partSize.
  destruct (quot_ceil size partSize0) as [H1 H2]; [lia..|unfold int64_max; lia|].
  destruct (quot_ceil size maxParts) as [H3 H4]; [lia..|unfold int64_max; lia|].
  destruct (Z.ltb_spec maxParts (ceil_div size partSize0)).
  - assert (ceil_div size maxParts ≤ 2 ^ 61) by nia.
    destruct (quot_ceil size (ceil_div size maxParts)) as [H5 H6]; [lia..|unfold int64_max; nia|].
    split_and!; try lia. nia.
  - split_and!; lia.
Qed.

Lemma plan_start i : Z.of_nat i < n → part_start partSize i = Z.of_nat i * partSize ∧ Z.of_nat i * partSize < size.
Proof.
  intros Hi. destruct plan_sizes as (Hp & Hn & Hlo & Hhi).
  assert (Z.of_nat i * partSize < size) by nia. split; [|done].
  unfold part_start. apply wrap64_id. unfold int64_min, int64_max. nia.
Qed.

Lemma plan_end i :
  Z.of_nat i < n → part_end size partSize i = Z.min (Z.of_nat (S i) * partSize) size - 1.
Proof.
  intros Hi. destruct (plan_start i Hi) as [Hs Hlt]. destruct plan_sizes as (Hp & Hn & Hlo & Hhi).
  unfold part_end. rewrite Hs.
  rewrite (wrap64_id (_ + partSize)) by (unfold int64_min, int64_max; nia).
  rewrite (wrap64_id (_ + partSize - 1)) by (unfold int64_min, int64_max; nia).
  destruct (Z.leb_spec size (Z.of_nat i * partSize + partSize - 1)).
  - rewrite wrap64_id by (unfold int64_min, int64_max; lia). lia.
  - lia.
Qed.

Lemma plan_number i : Z.of_nat i < n → part_number i = Z.of_nat i + 1.
Proof.
  intros Hi. destruct plan_sizes as (_ & Hn & _). unfold part_number, wrap32.
  rewrite Z.mod_small; lia.
Qed.
End plan.

(** ** The range reader *)

Section reader.
Context {W : Type} (open : opener W) (I : W → Prop) (key : string) (data : bytes).

(** An opener that serves ranges of [data] that start inside of it (or all of
    it), whatever it does for an empty range. *)
Definition opens : Prop :=
  ∀ off len w, I w → 0 ≤ off → (off < strlen data ∨ off = 0 ∧ len < 0) → off + len ≤ int64_max →
  ∃ b a w', open key off len w = (Ok (b, a), w') ∧ I w' ∧ a_Size a = strlen data ∧
    intact b ∧ b_close b = None ∧ (len ≠ 0 → body_bytes b = range_of data off len).

(** A reader of the range of [data] at [off], at position [r_pos]. *)
Record reading (off len : Z) (r : s3Reader) (b : body) : Prop := {
  rd_key : r_key r = key;
  rd_start : r_start r = off;
  rd_length : r_length r = len;
  rd_attrs : ∃ a, r_attrs r = Some a ∧ a_Size a = strlen data;
  rd_reader : r_reader r = Some b;
  rd_closed : r_closed r = false;
  rd_close : b_close b = None;
  rd_intact : intact b;
}.

Context (off len : Z) (Hoff : 0 ≤ off ≤ strlen data) (Hdata : strlen data ≤ int64_max) (Hlen : len ≤ int64_max).

Lemma reading_rangeSize r b :
  reading off len r b → rangeSize r = strlen (range_of data off len) ∧ 0 ≤ rangeSize r ≤ int64_max.
Proof.
  intros Hr. destruct (rd_attrs _ _ _ _ Hr) as (a & Ha & Hsz). unfold rangeSize. rewrite Ha, Hsz.
  rewrite (rd_start _ _ _ _ Hr), (rd_length _ _ _ _ Hr).
  pose proof (strlen_nonneg data). rewrite wrap64_id by (unfold int64_min; lia).
  rewrite (proj2 (Z.ltb_ge (strlen data - off) 0)) by lia. unfold range_of.
  destruct (Z.ltb_spec len 0), (Z.leb_spec 0 len); try lia; cbn.
  - rewrite strlen_drop by lia. lia.
  - rewrite strlen_clamp, strlen_drop by lia. destruct (Z.ltb_spec len (strlen data - off)); lia.
Qed.

(** The rest of the range, which the reader is still to deliver. *)
Definition to_come (r : s3Reader) (s : bytes) (m : nat) : Prop :=
  ∃ b, reading off len r b ∧ 0 ≤ r_pos r ≤ int64_max ∧ m = measure b ∧
    s = clamp (rangeSize r - r_pos r) (body_bytes b).

(** A read hands over the next bytes and moves the position past them. *)
Lemma Read_moves r s m n d e r' :
  to_come r s m → 0 < n → Read n r = (d, e, r') →
  ∃ s' m', s = d +:+ s' ∧ to_come r' s' m' ∧ r_pos r' = r_pos r + strlen d ∧
    (e = None ∧ (m' < m)%nat ∨ e = Some EOF ∧ s' = "").
Proof.
  intros (b & Hr & Hpos & -> & ->) Hn. destruct (reading_rangeSize r b Hr) as [_ Hsz]. unfold Read.
  rewrite (rd_closed _ _ _ _ Hr), (rd_reader _ _ _ _ Hr).
  rewrite wrap64_id by (unfold int64_min, int64_max in *; lia).
  destruct (Z.leb_spec (rangeSize r - r_pos r) 0).
  { intros [= <- <- <-]. exists "", (measure b). rewrite clamp_nonpos by done.
    split_and!; [done| |change (strlen "") with 0; lia|by right].
    exists b. split_and!; [done|lia..|done|by rewrite clamp_nonpos]. }
  set (n' := if _ <? n then _ else n).
  assert (0 < n' ∧ n' ≤ rangeSize r - r_pos r) as [Hn' Hle].
  { unfold n'. destruct (Z.ltb_spec (rangeSize r - r_pos r) n); lia. }
  destruct (body_Read n' b) as [[q e1] b'] eqn:E. intros [= <- <- <-].
  destruct (body_Read_spec n' b q e1 b' Hn' (rd_intact _ _ _ _ Hr) E) as (-> & Hq & Hi & Hcase).
  rewrite clamp_app by lia. pose proof (strlen_nonneg q). eexists _, (measure b'). split; [reflexivity|].
  cbn [r_pos]. rewrite wrap64_id by (unfold int64_min, int64_max in *; lia). split_and!; [|done|].
  - exists b'. split_and!; [|cbn; lia..|done|].
    + assert (b_close b' = None) as Hcl.
      { pose proof (rd_close _ _ _ _ Hr) as Hc. unfold body_Read in E. destruct (b_chunks b); by simplify_eq. }
      destruct Hr. by split.
    + cbn [r_pos rangeSize r_attrs r_start r_length]. f_equal. unfold rangeSize. cbn. lia.
  - destruct Hcase as [[-> Hend]|[-> Hm]]; [right|by left]. split; [done|].
    rewrite Hend. unfold clamp. by destruct (Z.to_nat _).
Qed.

Lemma Read_delivers : delivers Read to_come.
Proof.
  intros r s m n p err r' Ht Hn E.
  destruct (Read_moves r s m n p err r' Ht Hn E) as (s' & m' & -> & Ht' & _ & [[-> Hm]|[-> ->]]).
  - right. split; [done|]. by exists s', m'.
  - left. by rewrite string_app_nil_r.
Qed.

Lemma to_come_start r b s :
  reading off len r b → r_pos r = 0 → (len ≠ 0 → body_bytes b = range_of data off len) →
  s = range_of data off len → to_come r s (measure b).
Proof.
  intros Hr Hp Hb ->. destruct (reading_rangeSize r b Hr) as [Hsz Hb0]. exists b. rewrite Hp.
  split_and!; [done|lia|unfold int64_max; lia|done|]. rewrite Z.sub_0_r.
  destruct (decide (len = 0)) as [->|Hne].
  - unfold range_of in *. cbn in *. rewrite !clamp_nonpos by lia || done.
    rewrite clamp_nonpos; [done|]. rewrite Hsz. by rewrite clamp_nonpos.
  - rewrite Hb by done. rewrite Hsz. by rewrite clamp_all.
Qed.

(** Opening a range, for a new reader. *)
Lemma reopen_fresh w :
  opens → I w → (off < strlen data ∨ off = 0 ∧ len < 0) → off + len ≤ int64_max →
  ∃ r w' b, reopen open 0 (mkS3Reader key off len 0 None None false) w = ((None, r), w') ∧ I w' ∧
    reading off len r b ∧ r_pos r = 0 ∧ to_come r (range_of data off len) (measure b).
Proof.
  intros Ho Hw Hin Hsum. unfold reopen. cbn -[wrap64 Z.ltb Z.leb Z.eqb bool_decide].
  assert (∃ len', (if 0 <=? len then (if len <? 0 then len else 0, wrap64 (len - (if len <? 0 then len else 0)))
           else (0, -1)) = (0, len') ∧ (0 ≤ len ∧ len' = len ∨ len < 0 ∧ len' = -1)) as (len' & -> & Hl').
  { destruct (Z.leb_spec 0 len); [|by eauto]. rewrite (proj2 (Z.ltb_ge _ _)) by lia.
    rewrite wrap64_id by (unfold int64_min; lia). eexists. split; [done|]. left. lia. }
  rewrite (bool_decide_false (is_Some None)) by (by intros [? ?]). rewrite andb_false_r.
  rewrite wrap64_id by (unfold int64_min; lia). rewrite Z.add_0_r.
  destruct (Ho off len' w Hw) as (b & a & w' & E & Hw' & Ha & Hi & Hc & Hb); [lia..|].
  rewrite (M_bind_run _ _ _ _ _ E).
  assert (len ≠ 0 → body_bytes b = range_of data off len) as Hb'.
  { intros Hne. rewrite Hb by lia. destruct Hl' as [[_ ->]|[Hneg ->]]; [done|].
    unfold range_of. rewrite (proj2 (Z.ltb_lt len 0)) by lia. done. }
  eexists _, w', b. split; [reflexivity|]. split; [done|].
  assert (reading off len (mkS3Reader key off len 0 (Some b) (Some a) false) b) as Hr by (split; eauto).
  split; [done|]. split; [done|]. by eapply to_come_start.
Qed.

(** Seeking to [target] from the start, inside the range or, when the range is
    bounded, also beyond its end: the reader then delivers what the range has
    from there on. *)
Lemma Seek_spec w r b target :
  opens → I w → reading off len r b → 0 ≤ target ≤ int64_max → off + len ≤ int64_max →
  (0 ≤ len ∨ off + target < strlen data) →
  ∃ r' w' m, Seek open target 0 r w = ((Ok target, r'), w') ∧ I w' ∧
    r_pos r' = Z.min target (strlen (range_of data off len)) ∧
    to_come r' (str_drop (Z.to_nat target) (range_of data off len)) m.
Proof.
  intros Ho Hw Hr Ht Hsum Hin. destruct (reading_rangeSize r b Hr) as [Hsz Hb0].
  destruct (rd_attrs _ _ _ _ Hr) as (a & Ha & Hasz).
  pose proof (strlen_range_of data off len Hoff) as Hn.
  set (n := rangeSize r) in *.
  assert (off + n ≤ strlen data) as Hon by (rewrite Hsz, Hn; destruct (len <? 0); lia).
  assert (∃ pos l, (if 0 <=? len then (if n <? target then n else target, wrap64 (n - (if n <? target then n else target)))
           else (target, -1)) = (pos, l) ∧
         (0 ≤ len ∧ n ≤ target ∧ pos = n ∧ l = 0 ∨
          off + target < strlen data ∧ pos = target ∧ (0 ≤ len ∧ l = n - target ∧ 0 < l ∨ len < 0 ∧ l = -1)))
    as (pos & l & Epl & Hcase).
  { destruct (Z.leb_spec 0 len); [|eexists _, _; split; [done|]; lia].
    rewrite (proj2 (Z.ltb_ge len 0)) in Hn by lia.
    destruct (Z.ltb_spec n target); eexists _, _; (split; [done|]);
      rewrite wrap64_id by (unfold int64_min; lia); lia. }
  assert (∀ b' a', a_Size a' = strlen data → intact b' → b_close b' = None →
    reading off len (mkS3Reader key off len pos (Some b') (Some a') false) b') as Hread.
  { intros b' a' ???. by split; eauto. }
  unfold Seek. cbn [Z.eqb]. rewrite (proj2 (Z.ltb_ge target 0)) by lia.
  unfold reopen. rewrite (rd_reader _ _ _ _ Hr). cbn [mbind option_bind]. rewrite (rd_close _ _ _ _ Hr).
  cbn [r_attrs r_key r_start r_length r_pos fmap option_fmap option_map]. rewrite Ha, (rd_key _ _ _ _ Hr), (rd_start _ _ _ _ Hr), (rd_length _ _ _ _ Hr).
  assert (rangeSize (mkS3Reader key off len (r_pos r) (Some (closed_body b)) (Some a) (r_closed r)) = n) as En.
  { unfold n, rangeSize. cbn [r_attrs r_start r_length].
    by rewrite Ha, (rd_start _ _ _ _ Hr), (rd_length _ _ _ _ Hr). }
  rewrite En, Epl. rewrite (bool_decide_true (is_Some (Some a))) by eauto. rewrite andb_true_r.
  destruct Hcase as [(_ & Hge & -> & ->)|(Hlt & -> & Hl)].
  - cbn. eexists _, w, _. split; [done|]. split; [done|]. split; [cbn; lia|]. exists empty_body.
    split_and!; [by apply Hread|cbn; lia..|reflexivity|].
    cbn. rewrite str_drop_ge by (rewrite Hsz in Hge; unfold strlen in Hge; lia).
    unfold clamp. by destruct (Z.to_nat _).
  - rewrite (proj2 (Z.eqb_neq l 0)) by lia.
    rewrite wrap64_id by (unfold int64_min; lia).
    destruct (Ho (off + target) l w Hw) as (b' & a' & w' & E & Hw' & Hs' & Hi' & Hc' & Hb'); [lia..|].
    rewrite (M_bind_run _ _ _ ((None, mkS3Reader key off len target (Some b') (Some a') false)) w').
    2: { by rewrite (M_bind_run _ _ _ _ _ E). }
    eexists _, w', _. split; [done|]. split; [done|].
    split; [cbn; rewrite Hsz in *; destruct (Z.ltb_spec len 0); lia|]. exists b'.
    pose proof (Hread b' a' Hs' Hi' Hc') as Hr'. destruct (reading_rangeSize _ _ Hr') as [Hsz' _].
    split_and!; [done|cbn; lia..|reflexivity|]. rewrite Hsz'. cbn [r_pos]. rewrite Hb' by lia.
    rewrite <- range_of_rest by lia. rewrite <- Hsz. unfold range_of.
    destruct Hl as [(? & -> & ?)|(? & ->)].
    + rewrite (proj2 (Z.ltb_ge (n - target) 0)) by lia.
      rewrite (clamp_all _ (clamp _ _)); [done|]. rewrite strlen_clamp by lia. lia.
    + done.
Qed.

(** *** Sessions

    The position a [Seek] asks for, of a reader at [p] of a range of [n] bytes;
    the positions it can go to; and a session of reads and seeks, with the
    position it has reached. *)
Definition seek_target (whence p n offset : Z) : Z :=
  (if whence =? 0 then 0 else if whence =? 1 then p else n) + offset.

Definition in_reach (t : Z) : Prop := 0 ≤ t ≤ int64_max ∧ (0 ≤ len ∨ off + t < strlen data).

Inductive session (r0 : s3Reader) (w0 : W) : s3Reader → W → Z → Prop :=
| session_open : session r0 w0 r0 w0 0
| session_read r w p n d e r' :
    session r0 w0 r w p → 0 < n → Read n r = (d, e, r') → session r0 w0 r' w (p + strlen d)
| session_seek r w p offset whence r' w' t :
    session r0 w0 r w p → 0 ≤ whence ≤ 2 → t = seek_target whence p (strlen (range_of data off len)) offset →
    in_reach t → Seek open offset whence r w = ((Ok t, r'), w') →
    session r0 w0 r' w' (Z.min t (strlen (range_of data off len))).

(** A reader that stands at [p]. *)
Definition stands (r : s3Reader) (p : Z) : Prop :=
  r_pos r = p ∧ 0 ≤ p ≤ strlen (range_of data off len) ∧
  ∃ m, to_come r (str_drop (Z.to_nat p) (range_of data off len)) m.

Lemma Seek_from w r p offset whence :
  let t := seek_target whence p (strlen (range_of data off len)) offset in
  stands r p → 0 ≤ whence ≤ 2 → int64_min ≤ t ≤ int64_max →
  Seek open offset whence r w = Seek open t 0 r w.
Proof.
  intros t (Hp & _ & m & b & Hr & _) Hwh Ht. destruct (reading_rangeSize r b Hr) as [Hsz _].
  unfold Seek, t, seek_target in *. rewrite Hsz, Hp.
  assert (whence = 0 ∨ whence = 1 ∨ whence = 2) as [-> | [-> | ->]] by lia; cbn [Z.eqb Pos.eqb] in *;
    [done|by rewrite (wrap64_id (p + offset))|by rewrite (wrap64_id (_ + offset))].
Qed.

Lemma Seek_stands w r p offset whence :
  let t := seek_target whence p (strlen (range_of data off len)) offset in
  opens → I w → off + len ≤ int64_max → stands r p → 0 ≤ whence ≤ 2 → in_reach t →
  ∃ r' w', Seek open offset whence r w = ((Ok t, r'), w') ∧ I w' ∧
    stands r' (Z.min t (strlen (range_of data off len))).
Proof.
  intros t Ho Hw Hsum Hst Hwh [Ht Hin]. pose proof Hst as (_ & Hp & m & b & Hr & _).
  rewrite (Seek_from w r p offset whence) by (done || unfold int64_min; lia). fold t.
  destruct (Seek_spec w r b t) as (r' & w' & m' & E & Hw' & Hpos & Ht'); [done..|].
  exists r', w'. split_and!; [done|done|]. split_and!; [done|lia..|]. exists m'.
  destruct (Z.min_spec t (strlen (range_of data off len))) as [[_ ->]|[Hge ->]]; [done|].
  rewrite str_drop_ge in Ht' by (unfold strlen in Hge; lia).
  by rewrite str_drop_ge by (unfold strlen; lia).
Qed.

Lemma to_come_min r t m :
  0 ≤ t → to_come r (str_drop (Z.to_nat (Z.min t (strlen (range_of data off len)))) (range_of data off len)) m →
  to_come r (str_drop (Z.to_nat t) (range_of data off len)) m.
Proof.
  intros Ht. destruct (Z.min_spec t (strlen (range_of data off len))) as [[_ ->]|[Hge ->]]; [done|].
  rewrite !str_drop_ge by (unfold strlen in *; lia). done.
Qed.

Lemma session_stands r0 w0 r w p :
  opens → off + len ≤ int64_max → I w0 → stands r0 0 → session r0 w0 r w p → I w ∧ stands r p.
Proof.
  intros Ho Hsum Hw0 Hr0. induction 1 as [|r w p n d e r' _ [IHw (Hp & Hb & m & Ht)] Hn E|r w p offset whence r' w' t _ [IHw IHr] Hwh -> Hin E].
  - done.
  - split; [done|]. destruct (Read_moves r _ m n d e r' Ht Hn E) as (s' & m' & Hs & Ht' & Hp' & _).
    pose proof (strlen_nonneg d).
    assert (strlen (str_drop (Z.to_nat p) (range_of data off len)) = strlen d + strlen s') as Hl by (rewrite Hs; apply strlen_app).
    rewrite strlen_drop in Hl by lia. pose proof (strlen_nonneg s').
    split_and!; [lia..|]. exists m'. rewrite Z2Nat.inj_add by lia. rewrite <- str_drop_drop, Hs.
    unfold strlen. rewrite Nat2Z.id. by rewrite str_drop_app.
  - destruct (Seek_stands w r p offset whence) as (r2 & w2 & E2 & Hw2 & Hst); [done..|].
    rewrite E2 in E. by simplify_eq.
Qed.
End reader.

(** ** The service

    What the documentation of S3 says about the calls the driver makes, for one
    bucket whose objects are [view w]. *)

(** Errors that say that the object, or the bucket, is not there. *)
Definition says_missing (e : sdk_error) : Prop :=
  (∃ c, se_code e = Some c ∧ c ∈ ["NoSuchKey"; "NotFound"; "NoSuchBucket"]) ∨
  se_NotFound e = true ∨ se_NoSuchKey e = true ∨ se_status e = Some 404.

(** Errors that say that a condition did not hold. *)
Definition says_conflict (e : sdk_error) : Prop :=
  (∃ c, se_code e = Some c ∧ c ∈ ["PreconditionFailed"; "ConditionalRequestConflict"]) ∨
  se_status e = Some 412 ∨ se_status e = Some 409.

Definition says_neither (e : sdk_error) : Prop := ¬ says_missing e ∧ ¬ says_conflict e.

(** If-Match and If-None-Match against the entity tag of the object, if any. *)
Definition if_match (h : option string) (cur : option string) : bool :=
  match h, cur with
  | None, _ => true
  | Some h, Some v => bool_decide (h = quoted v)
  | Some _, None => false
  end.

Definition if_none_match (h : option string) (cur : option string) : bool :=
  match h with
  | None => true
  | Some h =>
    if bool_decide (h = "*") then bool_decide (cur = None)
    else match cur with Some v => negb (bool_decide (h = quoted v)) | None => true end
  end.

Definition put_allowed (input : PutObjectInput) (cur : option string) : bool :=
  if_match (pi_IfMatch input) cur && if_none_match (pi_IfNoneMatch input) cur.

(** Content-Range of a partial answer. *)
Definition content_range (a b size : Z) : string :=
  "bytes " +:+ Itoa a +:+ "-" +:+ Itoa b +:+ "/" +:+ Itoa size.

(** The three forms of a range header, and the bytes and the Content-Range they
    are answered with.  A range that starts at or after the end of the object is
    not satisfiable. *)
Inductive range_req :=
| RAll
| RFrom (a : Z)
| RBetween (a b : Z).

Definition render (r : range_req) : option string :=
  match r with
  | RAll => None
  | RFrom a => Some ("bytes=" +:+ Itoa a +:+ "-")
  | RBetween a b => Some ("bytes=" +:+ Itoa a +:+ "-" +:+ Itoa b)
  end.

Definition req_ok (r : range_req) : Prop :=
  match r with
  | RAll => True
  | RFrom a => 0 ≤ a ≤ int64_max
  | RBetween a b => 0 ≤ a ≤ b ∧ b ≤ int64_max
  end.

Definition satisfiable (data : bytes) (r : range_req) : Prop :=
  match r with RAll => True | RFrom a | RBetween a _ => a < strlen data end.

Definition served (data : bytes) (r : range_req) : bytes * option string :=
  match r with
  | RAll => (data, None)
  | RFrom a => (range_of data a (-1), Some (content_range a (strlen data - 1) (strlen data)))
  | RBetween a b =>
    (range_of data a (b - a + 1), Some (content_range a (Z.min b (strlen data - 1)) (strlen data)))
  end.

Section service.
Context {W : Type} (cl : client W) (bucket : string) (view : W → store) (rule : token_rule).

(** A failed read of an object. *)
Definition failed_read (key : string) (s : store) (e : sdk_error) : Prop :=
  other_error (se_raw e) ∧ (says_missing e → objs s !! key = None) ∧ ¬ says_conflict e.

Record s3_laws : Prop := {
  law_tokens w k o : objs (view w) !! k = Some o → clean (so_version o) ∧ so_version o ≠ "";
  law_size w k o : objs (view w) !! k = Some o → strlen (so_data o) ≤ int64_max;
  law_head key w a w' :
    HeadObject cl bucket key w = (a, w') →
    view w' = view w ∧
    match a with
    | Fail e => failed_read key (view w) e
    | Ans out => ∃ o, objs (view w) !! key = Some o ∧
        ho_ETag out = Some (quoted (so_version o)) ∧ ho_Metadata out = so_meta o ∧
        ho_ContentLength out = Some (strlen (so_data o))
    end;
  law_get key req w a w' :
    req_ok req → GetObject cl (mkGetObjectInput bucket key (render req)) w = (a, w') →
    view w' = view w ∧
    match a with
    | Fail e => failed_read key (view w) e
    | Ans out => ∃ o, objs (view w) !! key = Some o ∧ satisfiable (so_data o) req ∧
        go_ContentRange out = (served (so_data o) req).2 ∧
        go_ContentLength out = Some (strlen (served (so_data o) req).1) ∧
        sends (go_Body out) (served (so_data o) req).1
    end;
  law_upload input uo :
    pi_Bucket input = bucket →
    upload_law view rule se_raw says_neither (Upload cl input uo) (pi_Key input) (pi_Metadata input) (put_allowed input);
  law_delete key im w a w' :
    DeleteObject cl (mkDeleteObjectInput bucket key im) w = (a, w') →
    let allowed := if_match im (version_at (view w) key) in
    let gone := mkStore (delete key (objs (view w))) (used (view w)) in
    match a with
    | Ans _ => allowed = true ∧ view w' = gone
    | Fail e => other_error (se_raw e) ∧
        ((view w' = view w ∧ (says_neither e ∨ allowed = false ∨ objs (view w) !! key = None)) ∨
         (says_neither e ∧ allowed = true ∧ view w' = gone))
    end;
  law_list input w a w' :
    li_Bucket input = bucket → ListObjectsV2 cl input w = (a, w') →
    view w' = view w ∧
    ∀ out e, a = Ans out → e ∈ lo_Contents out →
      HasPrefix (ToString (le_Key e)) (ToString (li_Prefix input)) = true ∧
      is_Some (objs (view w) !! ToString (le_Key e));
}.

End service.

(** A mapped error is a sentinel only when the SDK's error says so. *)
Lemma mapError_sound e :
  other_error (se_raw e) →
  (Is (mapError e) ErrNotFound = true → says_missing e) ∧
  (Is (mapError e) ErrPreconditionFailed = true → says_conflict e).
Proof.
  intros Ho.
  pose proof (Is_missing (se_raw e) (says_missing e) (says_conflict e) Ho) as Hmiss.
  pose proof (Is_conflict (se_raw e) (says_missing e) (says_conflict e) Ho) as Hconf.
  pose proof (Is_other (se_raw e) (says_missing e) (says_conflict e) Ho) as Hraw.
  unfold mapError. destruct (se_code e) as [c|] eqn:Ec.
  1: case_bool_decide as Hc1; [apply Hmiss; left; eauto|case_bool_decide as Hc2; [apply Hconf; left; eauto|]].
  all: destruct (se_NotFound e) eqn:E1; [apply Hmiss; unfold says_missing; eauto|].
  all: destruct (se_NoSuchKey e) eqn:E2; [apply Hmiss; unfold says_missing; eauto|].
  all: destruct (se_status e) as [st|] eqn:Es; [|done].
  all: case_bool_decide; [subst st; apply Hmiss; unfold says_missing; eauto|].
  all: case_bool_decide as Hst; [|done]; apply Hconf; unfold says_conflict; destruct Hst; subst st; eauto.
Qed.

Lemma mapError_neither e : other_error (se_raw e) → says_neither e → other_error (mapError e).
Proof.
  intros Ho [Hm Hc]. destruct (mapError_sound e Ho) as [H1 H2].
  split; apply not_true_is_false; naive_solver.
Qed.

Lemma dec_digits_no_slash w n : LastIndexByte (dec_digits w n) "/" = None.
Proof.
  induction w as [|w IH]; [done|]. cbn [dec_digits LastIndexByte]. rewrite IH.
  rewrite decide_False; [done|]. intros E. apply (f_equal Ascii.N_of_ascii) in E.
  unfold digit in E. pose proof (Z.mod_pos_bound (n `div` 10 ^ Z.of_nat w) 10).
  rewrite Ascii.N_ascii_embedding in E by lia.
  change (Ascii.N_of_ascii "/") with 47%N in E. lia.
Qed.

Lemma totalFromContentRange_spec a b size :
  0 ≤ size ≤ int64_max → totalFromContentRange (Some (content_range a b size)) = Some size.
Proof.
  intros Hs. unfold totalFromContentRange, content_range.
  set (pre := "bytes " +:+ Itoa a +:+ "-" +:+ Itoa b).
  assert ("bytes " +:+ Itoa a +:+ "-" +:+ Itoa b +:+ "/" +:+ Itoa size = pre +:+ String "/" (Itoa size)) as ->.
  { unfold pre. by rewrite !string_app_assoc. }
  assert (LastIndexByte (Itoa size) "/" = None) as Hno.
  { unfold Itoa. rewrite bool_decide_false by lia. apply dec_digits_no_slash. }
  rewrite LastIndexByte_app by done.
  assert (str_drop (S (String.length pre)) (pre +:+ String "/" (Itoa size)) = Itoa size) as ->.
  { generalize pre. intros q. induction q as [|c q IH]; [by destruct (Itoa size)|]. exact IH. }
  rewrite Atoi_Itoa by done. rewrite bool_decide_false; [done|]. intros E.
  assert (Atoi "*" = Ok size) as Hbad by (rewrite <- E; by apply Atoi_Itoa). done.
Qed.

(** ** Preconditions *)

(** Tokens a caller may have got from the driver. *)
Definition clean_pre (c : Preconditions) : Prop := clean (p_IfMatch c) ∧ clean (p_IfNotMatch c).

Section put.
Context {W : Type} (b : s3Backend W).

Lemma quoted_star v : quoted v ≠ "*".
Proof. by intros [=]. Qed.

(** The headers of a write say what the compiled precondition says. *)
Lemma put_allowed_holds key opts c cur :
  clean_pre c → put_allowed (put_input b key opts c) cur = holds c cur.
Proof.
  intros [Hm Hn]. unfold put_input, applyWriteConditions, holds, put_allowed.
  destruct (p_IfNotExists c).
  { cbn. case_bool_decide; destruct cur; naive_solver. }
  case_bool_decide as H1; cbn [negb].
  - case_bool_decide as H2; cbn [negb pi_IfMatch pi_IfNoneMatch if_match if_none_match]; [done|].
    rewrite etagHeader_clean by done. cbn. rewrite (bool_decide_false (quoted _ = "*")) by apply quoted_star.
    destruct cur as [v|]; [|done]. f_equal. apply bool_decide_ext. split; [|congruence].
    intros E%quoted_inj. by rewrite E.
  - cbn [pi_IfMatch pi_IfNoneMatch if_match if_none_match]. rewrite etagHeader_clean by done.
    rewrite andb_true_r. destruct cur as [v|]; [|by rewrite bool_decide_false].
    apply bool_decide_ext. split; [|congruence]. intros E%quoted_inj. by rewrite E.
Qed.

Lemma put_input_names key opts c :
  pi_Bucket (put_input b key opts c) = b_bucket b ∧ pi_Key (put_input b key opts c) = key ∧
  pi_Metadata (put_input b key opts c) = nonempty_metadata (o_Metadata opts).
Proof.
  unfold put_input, applyWriteConditions. rewrite CloneMetadata_id. by repeat case_match.
Qed.
End put.

(** ** Opening a range *)

(** The request for a range. *)
Definition req_for (off len : Z) : range_req :=
  if (off <=? 0) && (len <? 0) then RAll
  else if len <? 0 then RFrom off
  else if len =? 0 then RBetween off off
  else RBetween off (off + len - 1).

Lemma rangeHeader_render off len :
  0 ≤ off ≤ int64_max → off + len ≤ int64_max → nonempty (rangeHeader off len) = render (req_for off len).
Proof.
  intros Ho Hs. unfold rangeHeader, req_for.
  destruct ((off <=? 0) && (len <? 0)); [done|]. destruct (Z.ltb_spec len 0); [done|].
  destruct (Z.eqb_spec len 0); [done|].
  rewrite (wrap64_id (off + len)) by (unfold int64_min; lia). by rewrite wrap64_id by (unfold int64_min; lia).
Qed.

(** What the request for a range is answered with. *)
Lemma req_for_spec off len :
  0 ≤ off ≤ int64_max → off + len ≤ int64_max →
  req_ok (req_for off len) ∧
  ∀ data, let req := req_for off len in
    (satisfiable data req ↔ off < strlen data ∨ off = 0 ∧ len < 0) ∧
    (len ≠ 0 → (served data req).1 = range_of data off len) ∧
    (strlen data ≤ int64_max →
      match totalFromContentRange (served data req).2 with
      | Some total => total
      | None => strlen (served data req).1
      end = strlen data).
Proof.
  intros Ho Hs. unfold req_for.
  assert (∀ data : bytes, 0 ≤ strlen data) as Hnn by (intros; apply strlen_nonneg).
  destruct (Z.leb_spec off 0) as [H0|H0], (Z.ltb_spec len 0) as [H1|H1]; cbn [andb].
  - split; [done|]. intros data. replace off with 0 by lia. split_and!.
    + cbn. lia.
    + intros _. cbn. unfold range_of. rewrite (proj2 (Z.ltb_lt len 0)) by lia. by rewrite str_drop_0.
    + done.
  - assert (off = 0) as -> by lia. destruct (Z.eqb_spec len 0) as [->|Hne].
    all: split; [cbn; unfold int64_max in *; lia|]; intros data; split; [cbn; lia|].
    all: split; [intros ?; cbn; f_equal; lia|]; intros Hd; cbn [served snd]; by rewrite totalFromContentRange_spec.
  - split; [cbn; lia|]. intros data. split; [cbn; lia|]. split.
    + intros _. cbn. unfold range_of. by rewrite (proj2 (Z.ltb_lt len 0)) by lia.
    + intros Hd. cbn [served snd]. by rewrite totalFromContentRange_spec.
  - destruct (Z.eqb_spec len 0) as [->|Hne].
    all: split; [cbn; lia|]; intros data; split; [cbn; lia|].
    all: split; [intros ?; cbn; f_equal; lia|]; intros Hd; cbn [served snd]; by rewrite totalFromContentRange_spec.
Qed.

Section open.
Context {W : Type} (cl : client W) (bucket : string) (view : W → store) (rule : token_rule).
Context (Hlaws : s3_laws cl bucket view rule).
Let b : s3Backend W := mkS3Backend cl bucket.

(** What an attempt to open a range gives, failures included. *)
Lemma openReader_spec key off len w r w' :
  0 ≤ off ≤ int64_max → off + len ≤ int64_max → openReader b key off len w = (r, w') →
  view w' = view w ∧
  match r with
  | Err e => ∃ e', e = mapError e' ∧ failed_read key (view w) e'
  | Ok (bd, attrs) => ∃ o, objs (view w) !! key = Some o ∧
      (off < strlen (so_data o) ∨ off = 0 ∧ len < 0) ∧
      a_Size attrs = strlen (so_data o) ∧ (len ≠ 0 → sends bd (range_of (so_data o) off len))
  end.
Proof.
  intros Ho Hs. pose proof (rangeHeader_render off len Ho Hs) as Hreq.
  destruct (req_for_spec off len Ho Hs) as [Hok Hdata]. set (req := req_for off len) in *.
  unfold openReader, checked, try_, mbind, M_bind. cbn [b_client b_bucket b]. rewrite Hreq.
  destruct (GetObject cl _ w) as [a w1] eqn:E. apply (law_get _ _ _ _ Hlaws) in E as [Hv Ha]; [|done].
  destruct a as [out|e]; cbn; intros [= <- <-]; split; try done; [|by eauto].
  destruct Ha as (o & Hobj & Hsat & Hcr & Hcl & Hbody).
  destruct (Hdata (so_data o)) as (H1 & H2 & H3). exists o. split_and!; [done|by apply H1| |].
  - cbn. rewrite <- H3, Hcr, Hcl by (by eapply (law_size _ _ _ _ Hlaws)). by destruct (totalFromContentRange _).
  - intros Hne. by rewrite <- H2.
Qed.
End open.

(** ** The backend keeps its promise *)

(** Reading a reader whose body was sent the whole range gives the range, or an
    error of the connection. *)
Lemma ReadAll_sound fuel lens acc r bd tail total d r' :
  r_closed r = false → r_reader r = Some bd → is_Some (r_attrs r) →
  rangeSize r = strlen total → strlen total ≤ int64_max → r_pos r = strlen acc →
  total = acc +:+ body_bytes bd +:+ tail →
  match b_err bd with None => tail = "" | Some e => other_error e ∧ e ≠ EOF end →
  (∀ i, 0 < lens i) → ReadAll_loop Read fuel lens acc r = Some (d, r') →
  match d with Ok d => d = total | Err e => other_error e end.
Proof.
  revert lens acc r bd. induction fuel as [|fuel IH]; intros lens acc r bd Hcl Hrd Hat Hsz Hmax Hpos Htot Htail Hl; [done|].
  cbn [ReadAll_loop]. unfold Read at 1. rewrite Hcl, Hrd, Hsz, Hpos.
  pose proof (strlen_nonneg acc). pose proof (strlen_nonneg total). pose proof (strlen_nonneg tail).
  assert (strlen total = strlen acc + strlen (body_bytes bd) + strlen tail) as Hlen.
  { rewrite Htot, !strlen_app. lia. }
  pose proof (strlen_nonneg (body_bytes bd)).
  rewrite wrap64_id by (unfold int64_min; lia).
  destruct (Z.leb_spec (strlen total - strlen acc) 0).
  { rewrite bool_decide_true by done. intros [= <- _]. rewrite string_app_nil_r, Htot.
    assert (body_bytes bd = "" ∧ tail = "") as [-> ->].
    { unfold strlen in *. split; [destruct (body_bytes bd)|destruct tail]; cbn in *; done || lia. }
    by rewrite !string_app_nil_r. }
  set (n := if _ <? lens 0%nat then _ else lens 0%nat).
  assert (0 < n) as Hn by (unfold n; destruct (Z.ltb_spec (strlen total - strlen acc) (lens 0%nat)); specialize (Hl 0%nat); lia).
  destruct (body_Read n bd) as [[p err] bd'] eqn:E.
  destruct (body_Read_any n bd p err bd' ltac:(lia) E) as (Hb & Hp & He & Hcase).
  destruct Hcase as [->|[-> Hend]].
  - intros Hrun. eapply (IH (λ i, lens (S i)) (acc +:+ p) _ bd'); [..|exact Hrun].
    all: try done.
    + rewrite wrap64_id by (rewrite Hb, strlen_app in *; pose proof (strlen_nonneg p);
        pose proof (strlen_nonneg (body_bytes bd')); unfold int64_min; lia).
      by rewrite strlen_app.
    + by rewrite Htot, Hb, !string_app_assoc.
    + by rewrite He.
  - intros [= <- _]. destruct (b_err bd) as [e|].
    + cbn. destruct Htail. by rewrite bool_decide_false.
    + cbn. rewrite bool_decide_true by done. rewrite Htot, Hb, Hend, Htail. by rewrite !string_app_nil_r.
Qed.

Definition representable_md (md : metadata) : Prop := nonempty_metadata md = md.

Section backend_laws.
Context {W : Type} `{!UpperTable} (cl : client W) (bucket : string) (view : W → store) (rule : token_rule).
Context (schedule : nat → list nat) (Hlaws : s3_laws cl bucket view rule).
Let b : s3Backend W := mkS3Backend cl bucket.

Lemma attributes_law key w r w' :
  Attributes_ b key w = (r, w') →
  view w' = view w ∧
  match r with
  | Err e => ∃ e', e = mapError e' ∧ failed_read key (view w) e'
  | Ok a => ∃ o, objs (view w) !! key = Some o ∧ a_Version a = so_version o ∧ a_Metadata a = so_meta o
  end.
Proof.
  unfold Attributes_, checked, try_, mbind, M_bind. cbn [b_client b_bucket b].
  destruct (HeadObject cl bucket key w) as [a w1] eqn:E. apply (law_head _ _ _ _ Hlaws) in E as [Hv Ha].
  destruct a as [out|e]; cbn; intros [= <- <-]; split; try done; [|by eauto].
  destruct Ha as (o & Hobj & Het & Hmd & _). exists o. split; [done|]. cbn.
  destruct (law_tokens _ _ _ _ Hlaws _ _ _ Hobj). rewrite Het, Hmd, CloneMetadata_id. split; [|done].
  by apply etagVersion_quoted.
Qed.

Lemma failed_read_error key s e : failed_read key s e → other_error (mapError e) ∨ objs s !! key = None.
Proof.
  intros (Ho & Hm & Hc). destruct (mapError_sound e Ho) as [H1 H2].
  destruct (Is (mapError e) ErrNotFound) eqn:E; [right; auto|left]. split; [done|].
  apply not_true_is_false. naive_solver.
Qed.

Lemma open_law key w r w' :
  NewRangeReader b key 0 (-1) None w = (r, w') →
  view w' = view w ∧
  match r with
  | Err e => other_error e ∨ objs (view w) !! key = None
  | Ok rd => ∃ o, objs (view w) !! key = Some o ∧
      ∀ fuel lens d rd', (∀ i, 0 < lens i) → ReadAll_loop Read fuel lens "" rd = Some (d, rd') →
        match d with Ok d => d = so_data o | Err e => other_error e end
  end.
Proof.
  unfold NewRangeReader, reopen, mbind, M_bind. cbn -[openReader wrap64].
  change (wrap64 (0 + 0)) with 0.
  destruct (openReader b key 0 (-1) w) as [a w1] eqn:E.
  apply (openReader_spec cl bucket view rule Hlaws) in E as [Hv Ha]; [|unfold int64_max; lia..].
  destruct a as [[bd attrs]|e]; cbn -[ReadAll_loop]; intros [= <- <-]; (split; [done|]).
  - destruct Ha as (o & Hobj & _ & Hsz & Hb). exists o. split; [done|].
    intros fuel lens d rd' Hl Hrun. destruct (Hb ltac:(done)) as (tail & Ht & Htail).
    unfold range_of in Ht. cbn [Z.ltb Z.compare Z.to_nat] in Ht. rewrite str_drop_0 in Ht.
    pose proof (law_size _ _ _ _ Hlaws _ _ _ Hobj) as Hmax. pose proof (strlen_nonneg (so_data o)).
    eapply (ReadAll_sound fuel lens "" _ bd tail (so_data o)); [..|exact Hrun]; try done.
    unfold rangeSize. cbn. rewrite Hsz, Z.sub_0_r, wrap64_id by (unfold int64_min; lia).
    by rewrite (proj2 (Z.ltb_ge _ 0)) by lia.
  - destruct Ha as (e' & -> & Hf). by apply failed_read_error.
Qed.

#[local] Existing Instance s3_Backend.

(** A whole write is a session through the pipe. *)
Lemma write_session_run key opts c p w :
  o_BeforeWrite opts = None →
  ∃ uo, write_session (Backend0:=s3_Backend schedule) b key opts c p w =
    pipe_session se_raw mapError (Upload cl (put_input b key opts c) uo) p w.
Proof.
  intros Hb. unfold write_session. cbn -[pipe_Write]. unfold NewWriter. rewrite Hb.
  change (run_hook None) with (@None error). cbn -[pipe_Write].
  set (uo := mkUploadOptions _ _). exists uo. unfold pipe_session.
  unfold try_, Write, pipe_Write, pipe_finish, mbind, M_bind, mret, M_ret. cbn.
  destruct (up_stop (Upload cl (put_input b key opts c) uo) "" p w) as [[[n e]|] w1]; [done|]. cbn.
  unfold mbind, M_bind. by destruct (up_end (Upload cl (put_input b key opts c) uo) _ w1).
Qed.

Lemma write_law key opts c p w r w' :
  representable_md (o_Metadata opts) → clean_pre c → o_BeforeWrite opts = None →
  write_session (Backend0:=s3_Backend schedule) b key opts c p w = (r, w') →
  idle_error (view w) r (view w') ∨
  gwrite_spec rule key p (o_Metadata opts) c (view w) r (view w').
Proof.
  intros Hmd Hc Hb. destruct (write_session_run key opts c p w Hb) as [uo ->].
  destruct (put_input_names b key opts c) as (Hbk & Hkey & Hm). rewrite Hmd in Hm.
  pose proof (law_upload _ _ _ _ Hlaws (put_input b key opts c) uo Hbk) as Hup. rewrite Hkey, Hm in Hup.
  intros E. eapply pipe_session_write; [apply mapError_neither|exact Hup| |exact E].
  by apply put_allowed_holds.
Qed.

Lemma if_match_holds c cur :
  clean_pre c → p_IfMatch c ≠ "" → p_IfNotExists c = false →
  if_match (Some (etagHeader (p_IfMatch c))) cur = holds c cur.
Proof.
  intros [Hm _] Hne Hx. unfold holds. rewrite Hx, (bool_decide_false (p_IfMatch c = "")) by done. cbn.
  rewrite etagHeader_clean by done. destruct cur as [v|]; [|by rewrite bool_decide_false].
  apply bool_decide_ext. split; [|congruence]. intros E%quoted_inj. by rewrite E.
Qed.

(** Deleting: after the existence check, the conditional delete. *)
Lemma delete_go key im c w r w' :
  (∀ cur, if_match im cur = holds c cur) →
  try_ (Attributes_ b key) (λ _, checked (DeleteObject cl (mkDeleteObjectInput bucket key im))) w = (r, w') →
  idle_error (view w) r (view w') ∨ delete_spec key c (view w) r (view w').
Proof.
  intros Him. unfold try_, mbind, M_bind.
  destruct (Attributes_ b key w) as [ra w1] eqn:Ea. apply attributes_law in Ea as [Hv Ha].
  destruct ra as [a|e].
  - destruct Ha as (o & Hobj & _). unfold checked, mbind, M_bind.
    destruct (DeleteObject cl _ w1) as [d w2] eqn:Ed. intros [= <- <-].
    apply (law_delete _ _ _ _ Hlaws) in Ed. rewrite Him, Hv in Ed. right. destruct d as [[]|e]; cbn.
    + destruct Ed as [Hh Hg]. by split_and!.
    + destruct Ed as (Ho & [[Hs Hcase]|(Hn & Hh & Hg)]).
      * left. split; [done|]. destruct Hcase as [?|[?|?]]; [left; by apply mapError_neither|by right; right|by right; left].
      * right. split_and!; [by apply mapError_neither|done|done].
  - intros [= <- <-]. destruct Ha as (e' & -> & Hf). right. left. split; [done|].
    apply failed_read_error in Hf as [?|?]; [by left|by right; left].
Qed.

Lemma delete_law key c w r w' :
  clean_pre c → Delete b key c w = (r, w') →
  (p_IfNotExists c = true → p_IfMatch c = "") →
  idle_error (view w) r (view w') ∨ delete_spec key c (view w) r (view w').
Proof.
  intros Hc Hd Hx. unfold Delete in Hd. case_bool_decide as H1; cbn [negb] in Hd.
  - destruct (p_IfNotExists c) eqn:E1; cbn [orb] in Hd.
    { injection Hd as <- <-. left. by exists ErrUnsupported. }
    case_bool_decide as H2; cbn [negb] in Hd.
    + eapply delete_go; [|exact Hd]. intros cur. unfold holds. by rewrite E1, H1, H2.
    + injection Hd as <- <-. left. by exists ErrUnsupported.
  - eapply delete_go; [|exact Hd]. intros cur. apply if_match_holds; [done..|].
    destruct (p_IfNotExists c) eqn:E; [|done]. destruct H1. by apply Hx.
Qed.

Lemma list_law token size opts w r w' :
  l_BeforeList opts = None → ListPage b token size (Some opts) w = (r, w') →
  view w' = view w ∧
  match r with
  | Err _ => True
  | Ok (page, _) => ∀ obj, obj ∈ page → lo_IsDir obj = false →
      HasPrefix (lo_Key obj) (l_Prefix opts) = true ∧ is_Some (objs (view w) !! lo_Key obj)
  end.
Proof.
  intros Hb. unfold ListPage. case_bool_decide; [by intros [= <- <-]|]. cbn -[wrap32]. rewrite Hb.
  change (run_hook None) with (@None error).
  unfold checked, try_, mbind, M_bind. set (input := mkListObjectsV2Input _ _ _ _ _).
  destruct (ListObjectsV2 cl input w) as [a w1] eqn:E. apply (law_list _ _ _ _ Hlaws) in E as [Hv Ha]; [|done].
  destruct a as [out|e]; cbn; intros [= <- <-]; split; try done.
  intros obj Ho Hd. apply elem_of_app in Ho as [Ho|Ho]; apply list_elem_of_fmap in Ho as (x & -> & Hx); [done|].
  cbn in *. destruct (Ha out x eq_refl Hx) as [Hp Hs]. split; [|done].
  unfold input in Hp. cbn in Hp. unfold nonempty in Hp. case_bool_decide as Hpre; [|done].
  rewrite Hpre. by apply (HasPrefix_app "" _).
Qed.

(** A compiled precondition is of one kind. *)
Definition exclusive (c : Preconditions) : Prop := p_IfNotExists c = true → p_IfMatch c = "".

(** The S3 backend keeps the promise of [BackendLaws]. *)
#[export] Instance s3_BackendLaws :
  BackendLaws (Backend0:=s3_Backend schedule) b view rule (λ _, True) (λ _, True) representable_md clean_pre
    (λ c, clean_pre c ∧ exclusive c).
Proof.
  split; cbn [be_Attributes be_NewRangeReader be_Delete be_ListPage s3_Backend].
  - intros key w r w' _ E. apply attributes_law in E as [Hv Ha]. split; [done|]. destruct r as [a|e]; [done|].
    destruct Ha as (e' & -> & Hf). by apply failed_read_error.
  - intros key w r w' _ E. by apply open_law in E.
  - intros key opts c p w r w' _. apply write_law.
  - intros key c w r w' _ [Hc Hx] E. by apply (delete_law key c w r w' Hc E Hx).
  - intros token size opts w r w' _. apply list_law.
Qed.
End backend_laws.

Lemma compile_exclusive pre c : CompilePreconditions pre = Ok c → exclusive c.
Proof.
  unfold CompilePreconditions. case_bool_decide as H; [done|]. intros [= <-] Hx.
  unfold count_set in H. rewrite Hx in H. case_bool_decide; [done|]. case_bool_decide; lia.
Qed.

(** ** The theorems *)

Section theorems.
Context {W : Type} `{!UpperTable, !GoTables} (cl : client W) (bucket : string) (view : W → store) (rule : token_rule).
Let b : s3Backend W := mkS3Backend cl bucket.

(** C5: the S3 driver implements the store, but for fresh tokens.  S3's ETag is a
    hash of the contents, so the clause of the contract that asks for a token never
    given out before is replaced: the token of a write is one of the ETags that
    [etag] allows its bytes.  With that clause, against a service that behaves as
    S3 documents, for calls without driver callbacks, metadata that are not an
    empty map and preconditions on tokens without quotes, every answer of the
    driver to attributes, whole reads, listings, conditional writes and deletes,
    and what the call leaves in the bucket, is what the contract allows, with
    failing calls, lost answers and broken bodies included. *)
Theorem s3_refines_store (etag : bytes → string → Prop) schedule fuel lens o w a w' :
  s3_laws cl bucket view (hash_token etag) →
  remote_ok (λ _, True) (λ _, True) representable_md clean_pre clean_pre o → (∀ i, 0 < lens i) →
  remote_exec (Backend0:=s3_Backend schedule) b fuel lens o w = (Some a, w') →
  gspec (hash_token etag) o (view w) a (view w').
Proof.
  intros Hlaws Hok Hl. pose proof (s3_BackendLaws cl bucket view (hash_token etag) schedule Hlaws) as Hb.
  eapply (remote_refines (Backend0:=s3_Backend schedule) b view (hash_token etag) (λ _, True) (λ _, True)
    representable_md clean_pre (λ c, clean_pre c ∧ exclusive c)); [|done].
  destruct o; try done. destruct Hok as [Hk Hd]. split; [done|]. intros c Hc.
  split; [by apply Hd|by eapply compile_exclusive].
Qed.

(** The headers of a conditional write say exactly what the compiled
    precondition says: for every state of the object, S3's test of If-Match and
    If-None-Match on the request is the precondition's own test. *)
Theorem s3_conditions_equiv key opts c cur :
  clean_pre c → put_allowed (put_input b key opts c) cur = holds c cur.
Proof. apply put_allowed_holds. Qed.

(** The service answers every satisfiable request for [key], whole. *)
Definition available (key : string) : Prop :=
  ∀ req w o, req_ok req → objs (view w) !! key = Some o → satisfiable (so_data o) req →
  ∃ out w', GetObject cl (mkGetObjectInput bucket key (render req)) w = (Ans out, w') ∧
    intact (go_Body out) ∧ b_close (go_Body out) = None.

Lemma available_opens key w o :
  s3_laws cl bucket view rule → available key → objs (view w) !! key = Some o →
  opens (openReader b) (λ w1, view w1 = view w) key (so_data o).
Proof.
  intros Hlaws Hav Hobj off len w1 Hw1 Hoff Hin Hsum.
  pose proof (law_size _ _ _ _ Hlaws _ _ _ Hobj) as Hmax.
  assert (0 ≤ off ≤ int64_max) as Hoff' by (unfold int64_max in *; lia).
  pose proof (rangeHeader_render off len Hoff' Hsum) as Hreq.
  destruct (req_for_spec off len Hoff' Hsum) as [Hok Hdata]. set (req := req_for off len) in *.
  destruct (Hav req w1 o) as (out & w2 & Eg & Hi & Hc); [done|by rewrite Hw1|by apply Hdata|].
  destruct (openReader b key off len w1) as [r w3] eqn:E.
  pose proof E as E'. apply (openReader_spec cl bucket view rule Hlaws) in E' as [Hv Hr]; [|done..].
  unfold openReader, checked, try_, mbind, M_bind in E. cbn [b_client b_bucket b] in E.
  rewrite Hreq, Eg in E. cbn in E. injection E as <- <-.
  destruct Hr as (o' & Hobj' & _ & Hsz & Hs). assert (o' = o) as -> by congruence.
  eexists _, _, w2. split; [reflexivity|]. split_and!; [congruence|done|done|done|].
  intros Hne. apply sends_intact; [by apply Hs|done].
Qed.

(** C26: a range read delivers the range.  For a range that starts inside the
    object and whose end does not pass the largest [int64], opening it succeeds,
    and reading to the end terminates with exactly the bytes of the range, however
    the connection cuts them.  After any session of reads and of seeks from the
    start, the current position or the end, reading gives exactly the rest of the
    range from the position reached; the next seek to a position of the range, or
    beyond the end of a bounded one, returns that position and leaves the reader
    there; and one to before the start is refused and moves nothing. *)
Theorem s3_range_read key off len w o :
  s3_laws cl bucket view rule → available key → objs (view w) !! key = Some o →
  0 ≤ off → (off < strlen (so_data o) ∨ off = 0 ∧ len < 0) → off + len ≤ int64_max →
  let range := range_of (so_data o) off len in
  let reads r s := ∃ m, ∀ fuel lens, (m < fuel)%nat → (∀ i, 0 < lens i) →
    ∃ r', ReadAll_loop Read fuel lens "" r = Some (Ok s, r') in
  ∃ r w', NewRangeReader b key off len None w = (Ok r, w') ∧ view w' = view w ∧
    Size r = Some (strlen (so_data o)) ∧ reads r range ∧
    ∀ r1 w1 p, session (openReader b) (so_data o) off len r w' r1 w1 p →
      view w1 = view w ∧ reads r1 (str_drop (Z.to_nat p) range) ∧
      ∀ offset whence, 0 ≤ whence ≤ 2 →
        let t := seek_target whence p (strlen range) offset in
        (in_reach (so_data o) off len t →
          ∃ r2 w2, Seek (openReader b) offset whence r1 w1 = ((Ok t, r2), w2) ∧ view w2 = view w ∧
            reads r2 (str_drop (Z.to_nat t) range)) ∧
        (int64_min ≤ t < 0 → Seek (openReader b) offset whence r1 w1 = ((Err ErrInvalidOption, r1), w1)).
Proof.
  intros Hlaws Hav Hobj Hoff Hin Hsum range reads. set (data := so_data o) in *.
  pose proof (available_opens key w o Hlaws Hav Hobj) as Ho. fold data in Ho.
  pose proof (law_size _ _ _ _ Hlaws _ _ _ Hobj) as Hmax. fold data in Hmax. pose proof (strlen_nonneg data).
  assert (0 ≤ off ≤ strlen data) as Hoff' by lia. assert (len ≤ int64_max) as Hlen by lia.
  assert (∀ r s m, to_come key data off len r s m → reads r s) as Hreads.
  { intros r s m Ht. exists m. intros fuel lens Hf Hl.
    destruct (ReadAll_exact Read _ (Read_delivers key data off len Hoff' Hmax Hlen) fuel lens "" r s m) as [r' Hr]; [done..|].
    exists r'. exact Hr. }
  destruct (reopen_fresh (openReader b) (λ w1, view w1 = view w) key data off len) with (w := w)
    as (r & w' & bd & E & Hw' & Hr & Hp & Ht); [lia || done..|].
  assert (stands key data off len r 0) as Hst.
  { split_and!; [done|lia|apply strlen_nonneg|]. exists (measure bd). by rewrite str_drop_0. }
  exists r, w'. split_and!.
  - unfold NewRangeReader. cbn -[reopen]. by rewrite (M_bind_run _ _ _ _ _ E).
  - done.
  - destruct (rd_attrs _ _ _ _ _ _ Hr) as (a & Ha & Hs). unfold Size. rewrite Ha. cbn. by rewrite Hs.
  - by eapply Hreads.
  - intros r1 w1 p Hs.
    destruct (session_stands (openReader b) (λ w1, view w1 = view w) key data off len Hoff' Hmax Hlen r w' r1 w1 p)
      as [Hw1 Hst1]; [done..|]. split_and!; [done|destruct Hst1 as (_ & _ & m & Hm); by eapply Hreads|].
    intros offset whence Hwh t. split.
    + intros Hreach.
      destruct (Seek_stands (openReader b) (λ w1, view w1 = view w) key data off len Hoff' Hmax Hlen w1 r1 p offset whence)
        as (r2 & w2 & E2 & Hw2 & _ & _ & m & Hm); [done..|].
      exists r2, w2. split_and!; [done|done|]. eapply Hreads, to_come_min; [apply Hreach|exact Hm].
    + intros Hneg. rewrite (Seek_from (openReader b) key data off len Hoff' Hmax Hlen w1 r1 p offset whence Hst1 Hwh) by (fold range; fold t; unfold int64_max; lia).
      fold range; fold t. unfold Seek. cbn [Z.eqb]. by rewrite (proj2 (Z.ltb_lt t 0)) by lia.
Qed.

(** A range whose end passes the largest [int64] is asked for with an end that
    has wrapped around to below zero, which is no range header. *)
Theorem s3_range_header_wraps off len :
  0 ≤ off ≤ int64_max → 0 ≤ len ≤ int64_max → int64_max + 1 < off + len →
  rangeHeader off len = "bytes=" +:+ Itoa off +:+ "-" +:+ Itoa (off + len - 1 - 2 ^ 64) ∧ off + len - 1 - 2 ^ 64 < 0.
Proof.
  intros Ho Hl Hs. unfold rangeHeader. unfold int64_max in *.
  rewrite (proj2 (Z.ltb_ge len 0)), andb_false_r by lia. rewrite (proj2 (Z.eqb_neq len 0)) by lia.
  split; [|lia]. do 4 f_equal.
  replace (wrap64 (off + len)) with (off + len - 2 ^ 64).
  - rewrite wrap64_id by (unfold int64_min, int64_max; lia). lia.
  - unfold wrap64. rewrite <- (Z.mod_add _ (-1)) by lia. rewrite Z.mod_small; lia.
Qed.

(** A range that starts at or after the end of the object is not served: the
    service has no such range (status 416), so a bounded range of an empty object
    is an error here, where the in-memory driver gives an empty reader. *)
Theorem s3_range_outside_fails key off len w o r w' :
  s3_laws cl bucket view rule → objs (view w) !! key = Some o →
  strlen (so_data o) ≤ off ≤ int64_max → ¬ (off = 0 ∧ len < 0) → off + len ≤ int64_max →
  NewRangeReader b key off len None w = (r, w') → ∃ e, r = Err e.
Proof.
  intros Hlaws Hobj Hoff Hnot Hsum. pose proof (strlen_nonneg (so_data o)).
  unfold NewRangeReader, reopen. cbn -[openReader wrap64 Z.ltb Z.leb Z.eqb].
  assert (∃ len', (if 0 <=? len then (if len <? 0 then len else 0, wrap64 (len - (if len <? 0 then len else 0)))
           else (0, -1)) = (0, len') ∧ (0 ≤ len ∧ len' = len ∨ len < 0 ∧ len' = -1)) as (len' & -> & Hl').
  { destruct (Z.leb_spec 0 len); [|by eauto]. rewrite (proj2 (Z.ltb_ge _ _)) by lia.
    rewrite wrap64_id by (unfold int64_min; lia). eexists. split; [done|]. left. lia. }
  rewrite andb_false_r. rewrite wrap64_id by (unfold int64_min; lia). rewrite Z.add_0_r.
  unfold mbind, M_bind. destruct (openReader b key off len' w) as [a w1] eqn:E.
  apply (openReader_spec cl bucket view rule Hlaws) in E as [Hv Ha]; [|lia..].
  destruct a as [[bd attrs]|e]; cbn; [|intros [= <- <-]; eauto].
  destruct Ha as (o' & Ho' & Hin & _). assert (o' = o) as -> by congruence. lia.
Qed.

(** A streamed upload whose source fails stores nothing: the writer is aborted,
    the service sees a body that ends with an error, and the caller gets an
    error. *)
Theorem s3_failed_upload schedule p key d cause opts pre w r w' :
  s3_laws cl bucket view rule →
  Remote.Upload (Backend0:=s3_Backend schedule) (Remote.mkBucket b p) key (mkSource d (Some cause)) opts pre w = (r, w') →
  is_Ok r = false ∧ view w' = view w.
Proof.
  intros Hlaws. unfold Remote.Upload. destruct (RequireUploadOptions opts) as [o|e]; [|by intros [= <- <-]].
  unfold Remote.NewWriter. destruct (CompilePreconditions pre) as [c|e]; [|by intros [= <- <-]].
  destruct (WriterOptions_Clone (Some o)) as [o'|e]; [|by intros [= <- <-]].
  cbn -[pipe_ReadFrom put_input]. unfold NewWriter. destruct (run_hook (o_BeforeWrite o')) as [e|]; [by intros [= <- <-]|].
  unfold try_, ReadFrom, pipe_ReadFrom, pipe_Write, mbind, M_bind, mret, M_ret. cbn -[put_input].
  set (uo := mkUploadOptions _ _). set (input := put_input _ _ _ _).
  assert (pi_Bucket input = bucket) as Hbk by apply put_input_names.
  pose proof (law_upload _ _ _ _ Hlaws input uo Hbk) as Hup. set (up := Upload cl input uo) in *.
  destruct (up_stop up "" d w) as [[[n e]|] w1] eqn:Es; apply (ul_stop _ _ _ _ _ _ _ _ Hup) in Es as [Hv1 _]; cbn.
  - by intros [= <- <-].
  - unfold pipe_finish, mbind, M_bind. cbn. destruct (up_end up _ w1) as [a w2] eqn:Ee.
    apply (ul_abort _ _ _ _ _ _ _ _ Hup) in Ee. intros [= <- <-]. split; [done|congruence].
Qed.
End theorems.

End S3T.
