(* ===== verification/S3CopyTheorems.v ===== *)
(** * Cross-region copies of the S3 driver are complete

    The parts of a multipart copy cover the source, and the copy, in whatever
    order its parts are answered, either leaves the whole object at the
    destination or reports an error and releases the upload. *)
From S2P Require Import Prelude Strconv GoTime Md5 Core Effects Store Unicode NetUrl Remote RemoteTheorems RemoteStore S3Driver S3Theorems.

Module S3C.
Import S3.

#[local] Arguments String.append !_ _ / : simpl nomatch.

(** ** The service

    The objects of all buckets, and the open uploads: the parts copied so far,
    each with its entity tag. *)
Record mstate := mkMstate {
  m_objs : gmap (string * string) bytes;
  m_uploads : gmap string (gmap Z (option string * bytes));
}.

Definition concat_bytes (bs : list bytes) : bytes := foldr String.append "" bs.

(** The object a copy source names: bucket names have no slash. *)
Definition names (cs sb sk : string) : Prop :=
  PathUnescape cs = Some (sb +:+ "/" +:+ sk) ∧ LastIndexByte sb "/" = None.

(** The parts a completion lists, with the bytes stored for them. *)
Definition lists (ps : gmap Z (option string * bytes)) (parts : list CompletedPart) (bs : list bytes) : Prop :=
  Forall2 (λ cp x, ps !! cp_PartNumber cp = Some (cp_ETag cp, x)) parts bs.

Section copy.
Context {W : Type} (cl : client W) (view : W → mstate).

Record copy_laws : Prop := {
  cl_head bucket key w a w' :
    HeadObject cl bucket key w = (a, w') → view w' = view w ∧
    ∀ out, a = Ans out → ∃ data, m_objs (view w) !! (bucket, key) = Some data ∧
      ho_ContentLength out = Some (strlen data);
  cl_copy input w a w' sb sk data :
    names (ci_CopySource input) sb sk → m_objs (view w) !! (sb, sk) = Some data →
    CopyObject cl input w = (a, w') →
    let copied := mkMstate (<[(ci_Bucket input, ci_Key input) := data]> (m_objs (view w))) (m_uploads (view w)) in
    match a with
    | Ans _ => view w' = copied
    | Fail _ => view w' = view w ∨ view w' = copied
    end;
  cl_create input w a w' :
    CreateMultipartUpload cl input w = (a, w') →
    match a with
    | Ans oid => ∃ id, oid = Some id ∧ m_uploads (view w) !! id = None ∧
        view w' = mkMstate (m_objs (view w)) (<[id := ∅]> (m_uploads (view w)))
    | Fail _ => view w' = view w
    end;
  cl_part input w r w' id ps sb sk data a e :
    up_UploadId input = Some id → m_uploads (view w) !! id = Some ps →
    names (up_CopySource input) sb sk → m_objs (view w) !! (sb, sk) = Some data →
    0 ≤ a ≤ e → e < strlen data → up_CopySourceRange input = "bytes=" +:+ Itoa a +:+ "-" +:+ Itoa e →
    UploadPartCopy cl input w = (r, w') →
    match r with
    | Ans result => ∃ etag, result = Some etag ∧ view w' = mkMstate (m_objs (view w))
        (<[id := <[up_PartNumber input := (etag, range_of data a (e - a + 1))]> ps]> (m_uploads (view w)))
    | Fail _ => view w' = view w
    end;
  cl_complete db dk id parts w r w' ps :
    m_uploads (view w) !! id = Some ps →
    CompleteMultipartUpload cl db dk (Some id) parts w = (r, w') →
    let completed := ∃ bs, lists ps parts bs ∧
      view w' = mkMstate (<[(db, dk) := concat_bytes bs]> (m_objs (view w))) (delete id (m_uploads (view w))) in
    match r with
    | Ans _ => completed
    | Fail _ => view w' = view w ∨ completed
    end;
  cl_abort db dk id w r w' :
    AbortMultipartUpload cl db dk (Some id) w = (r, w') →
    m_objs (view w') = m_objs (view w) ∧
    match r with
    | Ans _ => m_uploads (view w') = delete id (m_uploads (view w))
    | Fail _ => m_uploads (view w') = m_uploads (view w)
    end;
}.

(** Every attempt to abort releases the upload. *)
Definition aborts_work : Prop :=
  ∀ db dk id w r w', AbortMultipartUpload cl db dk (Some id) w = (r, w') →
    m_uploads (view w') = delete id (m_uploads (view w)).

(** The objects with [data] at the destination. *)
Definition copied (data : bytes) (dst : string * string) (w : W) : gmap (string * string) bytes :=
  <[dst := data]> (m_objs (view w)).

(** How a copy of [data] to [dst] ends. *)
Definition copy_end (data : bytes) (dst : string * string) (w : W) (err : option error) (w' : W) : Prop :=
  match err with
  | None => view w' = mkMstate (copied data dst w) (m_uploads (view w))
  | Some _ =>
    (m_objs (view w') = m_objs (view w) ∨ m_objs (view w') = copied data dst w) ∧
    (m_uploads (view w') = m_uploads (view w) ∨
     ∃ id ps, m_uploads (view w) !! id = None ∧ m_uploads (view w') = <[id := ps]> (m_uploads (view w))) ∧
    (aborts_work → m_uploads (view w') = m_uploads (view w))
  end.

(** ** The parts of an object *)

Section parts.
Context (data : bytes) (partSize0 maxParts : Z).
Context (Hsize : 0 < strlen data ≤ 2 ^ 61) (HpartSize : 0 < partSize0 ≤ 2 ^ 61) (HmaxParts : 0 < maxParts < 2 ^ 31).

Let partSize := plan_partSize (strlen data) partSize0 maxParts.
Let n := Z.to_nat (ceil_div (strlen data) partSize).

(** The bytes of part [i]. *)
Definition chunk (i : nat) : bytes :=
  range_of data (part_start partSize i) (part_end (strlen data) partSize i - part_start partSize i + 1).

Lemma part_facts i : (i < n)%nat →
  part_start partSize i = Z.of_nat i * partSize ∧
  part_end (strlen data) partSize i = Z.min (Z.of_nat (S i) * partSize) (strlen data) - 1 ∧
  0 ≤ part_start partSize i ≤ part_end (strlen data) partSize i ∧ part_end (strlen data) partSize i < strlen data ∧
  part_number i = Z.of_nat i + 1.
Proof.
  intros Hi. destruct (S3T.plan_sizes (strlen data) partSize0 maxParts) as (Hp & Hn & _); [done..|].
  fold partSize in Hp, Hn. assert (Z.of_nat i < ceil_div (strlen data) partSize) as Hi' by (unfold n in Hi; lia).
  destruct (S3T.plan_start (strlen data) partSize0 maxParts) with (i := i) as [Hs Hlt]; [done..|].
  pose proof (S3T.plan_end (strlen data) partSize0 maxParts Hsize HpartSize HmaxParts i Hi') as He.
  pose proof (S3T.plan_number (strlen data) partSize0 maxParts Hsize HpartSize HmaxParts i Hi') as Hnum.
  fold partSize in Hs, He, Hlt. rewrite Hs, He. split_and!; try done; nia.
Qed.

Lemma chunk_concat k : (k ≤ n)%nat →
  concat_bytes (chunk <$> seq 0 k) = clamp (Z.min (Z.of_nat k * partSize) (strlen data)) data.
Proof.
  induction k as [|k IH]; intros Hk.
  - cbn. by rewrite clamp_nonpos by (pose proof (strlen_nonneg data); lia).
  - rewrite seq_S, fmap_app. unfold concat_bytes in *. rewrite foldr_app. cbn [foldr fmap list_fmap Nat.add].
    assert (∀ l x, foldr String.append x l = foldr String.append "" l +:+ x) as Hf.
    { intros l x. induction l as [|y l IHl]; [done|]. cbn. by rewrite IHl, string_app_assoc. }
    rewrite Hf, IH by lia. rewrite string_app_nil_r. unfold chunk, range_of.
    destruct (part_facts k) as (Hs & He & Hb & Hlt & _); [lia|].
    rewrite (proj2 (Z.ltb_ge _ 0)) by lia. rewrite Hs, He in *.
    assert (Z.min (Z.of_nat k * partSize) (strlen data) = Z.of_nat k * partSize) as -> by lia.
    rewrite clamp_split by lia. f_equal. lia.
Qed.

(** The parts, in order, are the object. *)
Lemma chunks_whole : concat_bytes (chunk <$> seq 0 n) = data.
Proof.
  rewrite chunk_concat by done.
  destruct (S3T.plan_sizes (strlen data) partSize0 maxParts) as (Hp & Hn & Hlo & Hhi); [done..|].
  fold partSize in Hp, Hn, Hlo, Hhi. unfold n. rewrite clamp_all; [done|]. nia.
Qed.

(** Part [i] is copied: its entity tag is in the list, its bytes in the upload. *)
Definition part_done (parts : list CompletedPart) (ps : gmap Z (option string * bytes)) (i : nat) : Prop :=
  ∃ etag, parts !! i = Some (mkCompletedPart etag (part_number i)) ∧ ps !! part_number i = Some (etag, chunk i).

Context (Hlaws : copy_laws) (c : crossCopy W) (Hapi : c_api c = cl) (sb sk : string).
Context (Hnames : names (c_copySource c) sb sk).
Let dst : string * string := (c_dstBucket c, c_dstKey c).

Lemma part_done_insert parts ps i j etag :
  (i < n)%nat → (j < n)%nat → length parts = n → i ≠ j → part_done parts ps j →
  part_done (<[i := mkCompletedPart etag (part_number i)]> parts) (<[part_number i := (etag, chunk i)]> ps) j.
Proof.
  intros Hi Hj Hl Hne (etag' & H1 & H2). exists etag'.
  destruct (part_facts i Hi) as (_ & _ & _ & _ & Ni), (part_facts j Hj) as (_ & _ & _ & _ & Nj).
  rewrite list_lookup_insert_ne, lookup_insert_ne by lia. done.
Qed.

Lemma copy_parts_spec id O U order dn parts err ps w out w' :
  O !! (sb, sk) = Some data → m_objs (view w) = O → m_uploads (view w) = <[id := ps]> U →
  Forall (λ i, (i < n)%nat) (dn ++ order) → NoDup (dn ++ order) → length parts = n →
  (err = None → ∀ i, i ∈ dn → part_done parts ps i) →
  copy_parts c (Some id) (strlen data) partSize order parts err w = (out, w') →
  ∃ err' parts' ps', out = Some (err', parts') ∧ m_objs (view w') = O ∧ m_uploads (view w') = <[id := ps']> U ∧ length parts' = n ∧
    (err' = None → ∀ i, i ∈ dn ++ order → part_done parts' ps' i).
Proof.
  intros HO. revert dn parts err ps w. induction order as [|i order IH]; intros dn parts err ps w Ho Hu Hf Hnd Hl Hdone.
  { cbn. intros [= <- <-]. exists err, parts, ps. rewrite app_nil_r. done. }
  assert (i < n)%nat as Hi by (rewrite Forall_forall in Hf; apply Hf; set_solver).
  destruct (part_facts i Hi) as (_ & _ & Hse & Hlt & _).
  cbn [copy_parts]. rewrite Hapi.
  destruct (UploadPartCopy cl (part_input c (Some id) (strlen data) partSize i) w) as [r w1] eqn:E.
  rewrite (M_bind_run _ _ _ _ _ E).
  eapply (cl_part Hlaws) with (id := id) (ps := ps) (sb := sb) (sk := sk) (data := data)
    (a := part_start partSize i) (e := part_end (strlen data) partSize i) in E; try done.
  2: { rewrite Hu. apply lookup_insert_eq. }
  2: { by rewrite Ho. }
  rewrite cons_middle, app_assoc in Hf, Hnd.
  destruct r as [res|e].
  - destruct E as (etag & -> & E). cbn [up_PartNumber part_input] in E. change (range_of data _ _) with (chunk i) in E.
    intros Hrun. apply (IH (dn ++ [i]) _ _ (<[part_number i := (etag, chunk i)]> ps)) in Hrun;
      [by rewrite <- app_assoc in Hrun| | |done|done| |].
    + by rewrite E.
    + rewrite E. cbn. by rewrite Hu, insert_insert_eq.
    + by rewrite length_insert.
    + intros He j [Hj|Hj%list_elem_of_singleton]%elem_of_app.
      * apply part_done_insert; try done.
        -- rewrite Forall_forall in Hf. apply Hf. set_solver.
        -- intros ->. rewrite <- app_assoc in Hnd. apply NoDup_app in Hnd as (_ & Hd & _).
           by apply (Hd j Hj); constructor.
        -- by apply Hdone.
      * subst j. exists etag. rewrite list_lookup_insert_eq by lia. rewrite lookup_insert_eq. done.
  - intros Hrun. apply (IH (dn ++ [i]) _ _ ps) in Hrun; [by rewrite <- app_assoc in Hrun| | |done|done|done|].
    + by rewrite E.
    + by rewrite E.
    + by destruct err.
Qed.

(** What a completed list of parts holds is the object. *)
Lemma lists_whole ps parts bs :
  length parts = n → (∀ i, (i < n)%nat → part_done parts ps i) → lists ps parts bs → concat_bytes bs = data.
Proof.
  intros Hl Hdone Hls. rewrite <- chunks_whole. f_equal. apply list_eq. intros i.
  pose proof (Forall2_length _ _ _ Hls) as Hlen.
  destruct (decide (i < n)%nat) as [Hi|Hi].
  - destruct (Hdone i Hi) as (etag & Hp & Hc).
    destruct (Forall2_lookup_l _ _ _ _ _ Hls Hp) as (x & Hx & Hps). cbn in Hps.
    rewrite list_lookup_fmap, lookup_seq_lt by done. cbn. congruence.
  - rewrite !lookup_ge_None_2; [done| |lia]. rewrite length_fmap, length_seq. lia.
Qed.

Context (schedule : nat → list nat) (Hsched : ∀ k, schedule k ≡ₚ seq 0 k).
Context (Hsz : c_partSize c = partSize0) (Hmp : c_maxParts c = maxParts).

Lemma abort_spec id ps U w u w' :
  U !! id = None → m_uploads (view w) = <[id := ps]> U ∨ m_uploads (view w) = U →
  abort c (Some id) w = (u, w') →
  m_objs (view w') = m_objs (view w) ∧
  (m_uploads (view w') = U ∨ m_uploads (view w') = <[id := ps]> U) ∧ (aborts_work → m_uploads (view w') = U).
Proof.
  intros Hid Hu. unfold abort. rewrite Hapi.
  destruct (AbortMultipartUpload cl (c_dstBucket c) (c_dstKey c) (Some id) w) as [r w1] eqn:E. rewrite (M_bind_run _ _ _ _ _ E). intros [= _ <-].
  destruct (cl_abort Hlaws _ _ _ _ _ _ E) as [Ho Hr].
  assert (delete id (m_uploads (view w)) = U) as Hdel.
  { destruct Hu as [-> | ->]; [by rewrite delete_insert_id|by rewrite delete_id]. }
  split; [done|]. split; [|intros Ha; by rewrite (Ha _ _ _ _ _ _ E)].
  destruct r; rewrite Hr; [left; done|]. destruct Hu as [-> | ->]; auto.
Qed.

Lemma copy_end_aborted id ps w w1 u w2 e :
  m_uploads (view w) !! id = None →
  m_uploads (view w1) = <[id := ps]> (m_uploads (view w)) ∨ m_uploads (view w1) = m_uploads (view w) →
  m_objs (view w1) = m_objs (view w) ∨ m_objs (view w1) = copied data dst w →
  abort c (Some id) w1 = (u, w2) → copy_end data dst w (Some e) w2.
Proof.
  intros Hid Hu Ho Ha. destruct (abort_spec _ _ _ _ _ _ Hid Hu Ha) as (Ho2 & Hu2 & Hw).
  cbn. rewrite Ho2. split; [done|]. split; [|done]. destruct Hu2; eauto.
Qed.

Lemma multipart_spec head w out w' :
  m_objs (view w) !! (sb, sk) = Some data → multipart schedule c head (strlen data) w = (out, w') →
  ∃ err, out = Returned err ∧ copy_end data dst w err w'.
Proof.
  intros Hd. unfold multipart. rewrite Hapi, Hsz, Hmp. fold partSize.
  destruct (CreateMultipartUpload cl (applyHeadMetadata (c_dstBucket c) (c_dstKey c) head) w) as [a w1] eqn:E1. rewrite (M_bind_run _ _ _ _ _ E1).
  apply (cl_create Hlaws) in E1. destruct a as [oid|e].
  2: { intros [= <- <-]. eexists. split; [done|]. cbn. rewrite E1. auto. }
  destruct E1 as (id & -> & Hid & V1).
  destruct (S3T.plan_sizes (strlen data) partSize0 maxParts) as (_ & Hn & _); [done..|]. fold partSize in Hn.
  rewrite (proj2 (Z.ltb_ge _ 0)) by lia. fold n.
  destruct (copy_parts c (Some id) (strlen data) partSize (schedule n)
    (replicate n (mkCompletedPart None 0)) None w1) as [out2 w2] eqn:E2.
  rewrite (M_bind_run _ _ _ _ _ E2).
  apply (copy_parts_spec id (m_objs (view w)) (m_uploads (view w)) (schedule n) [] _ None ∅) in E2.
  2-8: rewrite ?V1, ?(Hsched n) || idtac; try done.
  2: { apply Forall_forall. intros i Hi%elem_of_seq. lia. }
  2: { apply NoDup_seq. }
  2: { by rewrite length_replicate. }
  2: { intros _ i Hi. by apply elem_of_nil in Hi. }
  destruct E2 as (err & parts & ps & -> & Ho & Hu & Hl & Hdone).
  destruct err as [e|].
  - destruct (abort c (Some id) w2) as [u w3] eqn:E3. rewrite (M_bind_run _ _ _ _ _ E3). intros [= <- <-].
    eexists. split; [done|]. eapply copy_end_aborted; [done|by left|by left|done].
  - assert (∀ i, (i < n)%nat → part_done parts ps i) as Hall.
    { intros i Hi. apply Hdone; [done|]. cbn. rewrite (Hsched n). apply elem_of_seq. lia. }
    destruct (CompleteMultipartUpload cl (c_dstBucket c) (c_dstKey c) (Some id) parts w2) as [a w3] eqn:E3.
    rewrite (M_bind_run _ _ _ _ _ E3). eapply (cl_complete Hlaws) in E3; [|rewrite Hu; apply lookup_insert_eq].
    assert (∀ bs, lists ps parts bs →
      mkMstate (<[(c_dstBucket c, c_dstKey c) := concat_bytes bs]> (m_objs (view w2))) (delete id (m_uploads (view w2)))
      = mkMstate (copied data dst w) (m_uploads (view w))) as Hwhole.
    { intros bs Hb. rewrite (lists_whole ps parts bs Hl Hall Hb), Ho, Hu. f_equal. by rewrite delete_insert_id. }
    destruct a as [[]|e].
    + intros [= <- <-]. eexists. split; [done|]. destruct E3 as (bs & Hb & V3). cbn. by rewrite V3, Hwhole.
    + destruct (abort c (Some id) w3) as [u w4] eqn:E4. rewrite (M_bind_run _ _ _ _ _ E4). intros [= <- <-].
      eexists. split; [done|]. destruct E3 as [V3|(bs & Hb & V3)].
      * eapply copy_end_aborted; [done| | |done]; rewrite V3; by left.
      * rewrite (Hwhole bs Hb) in V3. eapply (copy_end_aborted id ps); [done| | |done]; rewrite V3; by right.
Qed.
End parts.

(** The end of a copy with a source that may be missing. *)
Definition copy_result (src dst : string * string) (w : W) (err : option error) (w' : W) : Prop :=
  match m_objs (view w) !! src with
  | Some data => copy_end data dst w err w'
  | None => is_Some err ∧ view w' = view w
  end.

Lemma copy_end_same data dst w e w' : view w' = view w → copy_end data dst w (Some e) w'.
Proof. intros V. cbn. rewrite V. auto. Qed.

Lemma run_spec c sb sk schedule w out w' :
  copy_laws → c_api c = cl → c_srcBucket c = sb → c_srcKey c = sk → names (c_copySource c) sb sk →
  (∀ k, schedule k ≡ₚ seq 0 k) → 0 ≤ c_maxSingle c → 0 < c_partSize c ≤ 2 ^ 61 → 0 < c_maxParts c < 2 ^ 31 →
  (∀ k data, m_objs (view w) !! k = Some data → strlen data ≤ 2 ^ 61) →
  run schedule c w = (out, w') → ∃ err, out = Returned err ∧ copy_result (sb, sk) (c_dstBucket c, c_dstKey c) w err w'.
Proof.
  intros Hlaws Hapi Hb Hk Hnames Hsched Hmax Hps Hmp Hbig. unfold run. rewrite Hapi, Hb, Hk.
  destruct (HeadObject cl sb sk w) as [a w1] eqn:E. rewrite (M_bind_run _ _ _ _ _ E).
  destruct (cl_head Hlaws _ _ _ _ _ E) as [V1 Hout]. unfold copy_result.
  destruct a as [head|e].
  2: { intros [= <- <-]. eexists. split; [done|]. destruct (m_objs (view w) !! (sb, sk)); [by apply copy_end_same|by eauto]. }
  destruct (Hout head eq_refl) as (data & Hd & Hlen). rewrite Hd, Hlen. cbn [ToInt64 default from_option id].
  destruct (Z.leb_spec (strlen data) (c_maxSingle c)).
  - unfold single, mbind, M_bind, mret, M_ret. destruct (before_copy (c_opts c)) as [e|].
    { intros [= <- <-]. eexists. split; [done|]. by apply copy_end_same. }
    rewrite Hapi. set (input := mkCopyObjectInput _ _ _ _ _ _ _ _ _ _).
    destruct (CopyObject cl input w1) as [a w2] eqn:E2.
    eapply (cl_copy Hlaws) in E2; [|exact Hnames|by rewrite V1].
    rewrite V1 in E2. destruct a as [?|e]; intros [= <- <-]; (eexists; split; [done|]); cbn.
    + exact E2.
    + unfold copied. destruct E2 as [-> | ->]; cbn; auto.
  - intros Hrun.
    destruct (multipart_spec data (c_partSize c) (c_maxParts c) ltac:(pose proof (Hbig _ _ Hd); lia) Hps Hmp
      Hlaws c Hapi sb sk Hnames schedule Hsched eq_refl eq_refl head w1 out w') as (err & -> & He); [by rewrite V1|done|].
    exists err. split; [done|]. unfold copy_end, copied in *. by rewrite V1 in He.
Qed.

(** C25: a cross-region copy copies everything or says so.  For objects within the
    size S3 stores, in whatever order the service answers the parts of a
    multipart copy, the copy returns; without an error the destination holds
    exactly the source's bytes, nothing else changed and no upload is left open;
    with an error the destination is untouched or complete, at most the one
    upload of this copy is left open, and none when the abort succeeds. *)
Theorem s3_copy_complete (b src : s3Backend W) dstKey srcKey opts schedule job w out w' :
  copy_laws → b_client b = cl → LastIndexByte (b_bucket src) "/" = None →
  (∀ k, schedule k ≡ₚ seq 0 k) →
  (∀ k data, m_objs (view w) !! k = Some data → strlen data ≤ 2 ^ 61) →
  XCopyFrom schedule b dstKey (Some src) srcKey opts = Ok job → job w = (out, w') →
  ∃ err, out = Returned err ∧ copy_result (b_bucket src, srcKey) (b_bucket b, dstKey) w err w'.
Proof.
  intros Hlaws Hcl Hslash Hsched Hbig [= <-] Hrun.
  match type of Hrun with run _ ?c _ = _ => set (c0 := c) in * end.
  destruct (run_spec c0 (b_bucket src) srcKey schedule w out w') as (err & Ho & Hr); try done.
  - split; [apply S3T.copySource_decodes|done].
  - by exists err.
Qed.
End copy.
End S3C.
