(* ===== verification/GcsDriver.v ===== *)
(** * The Cloud Storage driver (gcs/gcs.go, gcs/crosscopy.go)

    [Module GCS]: generations as version tokens, the conditions of a request, the
    mapping of errors of two transports, the range reader, the writer around the
    SDK's, and the backend's methods over the calls of the SDK, which are the
    fields of [client]. *)
From S2P Require Import Prelude Strconv GoTime Md5 Core Effects Unicode Remote.

Module GCS.

(** ** Requests and answers of the SDK *)

(** An error of the SDK as the driver can look at it: [errors.Is] to
    storage.ErrObjectNotExist, [errors.As] to a googleapi.Error and its code,
    the gRPC status code, and the error value itself. *)
Inductive code := Unknown | NotFound | FailedPrecondition | Aborted | OtherCode.

#[export] Instance code_eq_dec : EqDecision code.
Proof. solve_decision. Defined.

Record sdk_error := mkSdkError {
  ge_ObjectNotExist : bool;
  ge_Code : option Z;
  ge_status : code;
  ge_raw : error;
}.

(** storage.Conditions: a zero number is a condition that is not set. *)
Record Conditions := mkConditions {
  DoesNotExist : bool;
  GenerationMatch : Z;
  GenerationNotMatch : Z;
}.

(** storage.ObjectHandle: the names and the conditions of [If]. *)
Record ObjectHandle := mkObjectHandle {
  oh_bucket : string;
  oh_key : string;
  oh_conds : option Conditions;
}.

Record ObjectAttrs := mkObjectAttrs {
  ga_Prefix : string;
  ga_Name : string;
  ga_CacheControl : string;
  ga_ContentDisposition : string;
  ga_ContentEncoding : string;
  ga_ContentLanguage : string;
  ga_ContentType : string;
  ga_Metadata : metadata;
  ga_Created : Z;
  ga_Updated : Z;
  ga_Size : Z;
  ga_MD5 : bytes;
  ga_Generation : Z;
}.

(** storage.ReaderObjectAttrs. *)
Record ReaderAttrs := mkReaderAttrs {
  ra_CacheControl : string;
  ra_ContentEncoding : string;
  ra_ContentType : string;
  ra_LastModified : Z;
  ra_Size : Z;
  ra_Generation : Z;
}.

(** The fields the driver sets on a storage.Writer. *)
Record writer_fields := mkWriterFields {
  wf_CacheControl : string;
  wf_ContentDisposition : string;
  wf_ContentEncoding : string;
  wf_ContentLanguage : string;
  wf_ContentType : string;
  wf_ForceEmptyContentType : bool;
  wf_MD5 : bytes;
  wf_Metadata : metadata;
  wf_ChunkSize : option Z;
}.

(** gcs.SigningOptions; [None] of [sg_SignBytes] is a nil function. *)
Record SigningOptions := mkSigningOptions {
  sg_GoogleAccessID : string;
  sg_PrivateKey : bytes;
  sg_SignBytes : option (bytes → result bytes);
  sg_Scheme : Z;
  sg_Style : Z;
  sg_Hostname : string;
  sg_Insecure : bool;
}.

(** storage.SignedURLOptions. *)
Record signed_options := mkSignedOptions {
  so_signing : SigningOptions;
  so_Method : string;
  so_Expires : Z;
  so_ContentType : string;
}.

(** The calls of the SDK.  The storage.Writer that [NewWriter] returns is the
    upload at the end of a pipe of its own. *)
Record client (W : Type) := mkClient {
  Attrs : ObjectHandle → M W (answer sdk_error ObjectAttrs);
  SdkRangeReader : ObjectHandle → Z → Z → M W (answer sdk_error (body * ReaderAttrs));
  SdkWriter : ObjectHandle → writer_fields → uploader W sdk_error;
  Update : ObjectHandle → gmap string string → M W (answer sdk_error ObjectAttrs);
  SdkDelete : ObjectHandle → M W (option sdk_error);
  CopierRun : ObjectHandle → ObjectHandle → M W (option sdk_error);
  NextPage : string → string → string → Z → string → M W (answer sdk_error (list ObjectAttrs * string));
  BucketAttrs : string → M W (option sdk_error);
  SdkSignedURL : string → string → signed_options → answer error string;
}.
Arguments Attrs {W}.
Arguments SdkRangeReader {W}.
Arguments SdkWriter {W}.
Arguments Update {W}.
Arguments SdkDelete {W}.
Arguments CopierRun {W}.
Arguments NextPage {W}.
Arguments BucketAttrs {W}.
Arguments SdkSignedURL {W}.

(** ** Helpers of the driver *)

(** [mapError], on an error that is not nil. *)
Definition mapError (e : sdk_error) : error :=
  let err := ge_raw e in
  if ge_ObjectNotExist e then ErrJoin ErrNotFound err
  else if bool_decide (ge_Code e = Some 412) then ErrJoin ErrPreconditionFailed err
  else if bool_decide (ge_Code e = Some 404) then ErrJoin ErrNotFound err
  else if bool_decide (ge_status e = FailedPrecondition ∨ ge_status e = Aborted)
  then ErrJoin ErrPreconditionFailed err
  else if bool_decide (ge_status e = NotFound) then ErrJoin ErrNotFound err
  else err.

Definition checked {W A} (m : M W (answer sdk_error A)) : M W (result A) :=
  a ← m; mret match a with Ans x => Ok x | Fail e => Err (mapError e) end.

Definition zeroConditions : Conditions := mkConditions false 0 0.

(** [gcsConditions]: the conditions and whether there are any.  A token that is
    no number is refused. *)
Definition gcsConditions (pre : Preconditions) : result (Conditions * bool) :=
  if p_IfNotExists pre then Ok (mkConditions true 0 0, true)
  else if negb (bool_decide (p_IfMatch pre = "")) then
    match Atoi (p_IfMatch pre) with
    | Err _ => Err ErrInvalidOption
    | Ok generation => Ok (mkConditions false generation 0, true)
    end
  else if negb (bool_decide (p_IfNotMatch pre = "")) then
    match Atoi (p_IfNotMatch pre) with
    | Err _ => Err ErrInvalidOption
    | Ok generation => Ok (mkConditions false 0 generation, true)
    end
  else Ok (zeroConditions, false).

(** [if ok { obj = obj.If(conds) }]. *)
Definition with_conditions (obj : ObjectHandle) (c : Conditions * bool) : ObjectHandle :=
  if c.2 then mkObjectHandle (oh_bucket obj) (oh_key obj) (Some c.1) else obj.

Definition convertAttrs (attrs : ObjectAttrs) : Attributes :=
  mkAttributes (ga_CacheControl attrs) (ga_ContentDisposition attrs) (ga_ContentEncoding attrs)
    (ga_ContentLanguage attrs) (ga_ContentType attrs) (CloneMetadata (ga_Metadata attrs))
    (ga_Created attrs) (ga_Updated attrs) (ga_Size attrs) (ga_MD5 attrs) (Itoa (ga_Generation attrs)) None.

(** ** The range reader *)

Record gcsReader := mkGcsReader {
  r_key : string;
  r_start : Z;
  r_length : Z;
  r_pos : Z;
  r_reader : option body;
  r_attrs : option Attributes;
  r_closed : bool;
}.

Abbreviation opener W := (string → Z → Z → M W (result (body * Attributes))) (only parsing).

(** What reading a body gives after its [Close]. *)
Definition closed_body (b : body) : body :=
  mkBody [] (Some (ErrOther "storage: read on closed reader")) false (b_close b).

Definition rangeSize (r : gcsReader) : Z :=
  match r_attrs r with
  | None => r_length r
  | Some attrs =>
    let size := wrap64 (a_Size attrs - r_start r) in
    let size := if size <? 0 then 0 else size in
    if (0 <=? r_length r) && (r_length r <? size) then r_length r else size
  end.

(** [Read]; a reader that [NewRangeReader] returned has a body. *)
Definition Read (n : Z) (r : gcsReader) : bytes * option error * gcsReader :=
  if r_closed r then ("", Some (ErrOther "blobster gcs: read after close"), r)
  else
    match r_reader r with
    | Some b =>
      let '(p, err, b') := body_Read n b in
      (p, err, mkGcsReader (r_key r) (r_start r) (r_length r) (wrap64 (r_pos r + strlen p))
                 (Some b') (r_attrs r) (r_closed r))
    | None => ("", Some (ErrOther "nil pointer dereference"), r)
    end.

Definition reopen {W} (open : opener W) (pos : Z) (r : gcsReader) : M W (option error * gcsReader) :=
  match r_reader r ≫= b_close with
  | Some e => mret (Some e, r)
  | None =>
    let r := mkGcsReader (r_key r) (r_start r) (r_length r) (r_pos r) (closed_body <$> r_reader r)
               (r_attrs r) (r_closed r) in
    let size := match r_attrs r with None => r_length r | Some _ => rangeSize r end in
    let '(pos, length) :=
      if 0 <=? r_length r then
        let pos := if size <? pos then size else pos in (pos, wrap64 (size - pos))
      else (pos, -1) in
    o ← open (r_key r) (wrap64 (r_start r + pos)) length;
    mret match o with
         | Err e => (Some e, r)
         | Ok (reader, attrs) =>
           (None, mkGcsReader (r_key r) (r_start r) (r_length r) pos (Some reader) (Some attrs) false)
         end
  end.

Definition Seek {W} (open : opener W) (offset whence : Z) (r : gcsReader) : M W (result Z * gcsReader) :=
  let target :=
    if whence =? 0 then Some offset
    else if whence =? 1 then Some (wrap64 (r_pos r + offset))
    else if whence =? 2 then Some (wrap64 (rangeSize r + offset))
    else None in
  match target with
  | None => mret (Err ErrInvalidOption, r)
  | Some target =>
    if target <? 0 then mret (Err ErrInvalidOption, r)
    else
      '(err, r) ← reopen open target r;
      mret (match err with Some e => Err e | None => Ok target end, r)
  end.

Definition Close (r : gcsReader) : option error * gcsReader :=
  (r_reader r ≫= b_close,
   mkGcsReader (r_key r) (r_start r) (r_length r) (r_pos r) (closed_body <$> r_reader r) (r_attrs r) true).

(** [WriteTo] is [io.Copy(w, r)], and [io.Copy] from a source that has a
    [WriteTo] calls it: the fuel counts the calls on the stack. *)
Fixpoint WriteTo (fuel : nat) (k : sink) (r : gcsReader) : option (option error * sink * gcsReader) :=
  match fuel with
  | O => None
  | S fuel => io_Copy Read (Some WriteTo) fuel k r
  end.

Definition ContentType (r : gcsReader) : option string := a_ContentType <$> r_attrs r.
Definition ModTime (r : gcsReader) : option Z := a_ModTime <$> r_attrs r.
Definition Size (r : gcsReader) : option Z := a_Size <$> r_attrs r.

(** ** The writer *)

Record writeCloser (W : Type) := mkWriteCloser {
  w_upload : uploader W sdk_error;
  w_pw : pipe sdk_error;
}.
Arguments mkWriteCloser {W} _ _.
Arguments w_upload {W} _.
Arguments w_pw {W} _.

Section writer.
Context {W : Type}.

Definition Write (p : bytes) (w : writeCloser W) : M W (Z * option error * writeCloser W) :=
  '(n, err, pw) ← pipe_Write ge_raw (w_upload w) p (w_pw w);
  mret (n, err, mkWriteCloser (w_upload w) pw).

Definition Writer_Close (w : writeCloser W) : M W (option error * writeCloser W) :=
  e ← pipe_finish (w_upload w) None (w_pw w); mret (mapError <$> e, w).

(** storage.Writer has a [CloseWithError], which always returns nil. *)
Definition Writer_CloseWithError (err : error) (w : writeCloser W) : M W (option error * writeCloser W) :=
  _ ← pipe_finish (w_upload w) (Some err) (w_pw w); mret (None, w).

Definition ReadFrom (r : source) (w : writeCloser W) : M W (option error * writeCloser W) :=
  '(err, pw) ← pipe_ReadFrom ge_raw (w_upload w) r (w_pw w);
  mret (err, mkWriteCloser (w_upload w) pw).
End writer.

(** ** Cross-region copies (gcs/crosscopy.go) *)

Record crossCopy (W : Type) := mkCrossCopy {
  c_rewriter : client W;
  c_dstBucket : string;
  c_dstKey : string;
  c_srcBucket : string;
  c_srcKey : string;
  c_opts : option CopyOptions;
}.
Arguments mkCrossCopy {W} _ _ _ _ _ _.
Arguments c_rewriter {W} _.
Arguments c_dstBucket {W} _.
Arguments c_dstKey {W} _.
Arguments c_srcBucket {W} _.
Arguments c_srcKey {W} _.
Arguments c_opts {W} _.

(** [clientRewriter.rewrite]. *)
Definition rewrite_ {W} (cl : client W) (dstBucket dstKey srcBucket srcKey : string)
    (opts : option CopyOptions) : M W (option error) :=
  let dst := mkObjectHandle dstBucket dstKey None in
  let src := mkObjectHandle srcBucket srcKey None in
  match before_copy opts with
  | Some e => mret (Some e)
  | None => e ← CopierRun cl dst src; mret (mapError <$> e)
  end.

Definition run {W} (c : crossCopy W) : M W (option error) :=
  rewrite_ (c_rewriter c) (c_dstBucket c) (c_dstKey c) (c_srcBucket c) (c_srcKey c) (c_opts c).

(** ** The backend *)

Record storageBackend (W : Type) := mkStorageBackend {
  b_client : client W;
  b_bucket : string;
  b_signing : option SigningOptions;
}.
Arguments mkStorageBackend {W} _ _ _.
Arguments b_client {W} _.
Arguments b_bucket {W} _.
Arguments b_signing {W} _.

Inductive Option_ :=
| WithPrefix (prefix : string)
| WithSignedURLs (signing : SigningOptions).

(** The options of [New], applied in order. *)
Definition apply_option (opts : string * option SigningOptions) (o : Option_) : string * option SigningOptions :=
  match o with
  | WithPrefix p => (p, opts.2)
  | WithSignedURLs s => (opts.1, Some s)
  end.

Definition New {W} (cl : client W) (bucket : string) (optFns : list Option_)
    : Remote.Bucket (storageBackend W) :=
  let opts := foldl apply_option ("", None) optFns in
  Remote.mkBucket (mkStorageBackend cl bucket opts.2) opts.1.

Section backend.
Context {W : Type}.
Implicit Types b : storageBackend W.

Definition object b (key : string) : ObjectHandle := mkObjectHandle (b_bucket b) key None.

Definition Attributes_ b (key : string) : M W (result Attributes) :=
  let? attrs := checked (Attrs (b_client b) (object b key)) in
  mret (Ok (convertAttrs attrs)).

Definition openReader b (key : string) (offset length : Z) : M W (result (body * Attributes)) :=
  let? r := checked (SdkRangeReader (b_client b) (object b key) offset length) in
  let a := r.2 in
  mret (Ok (r.1,
    mkAttributes (ra_CacheControl a) "" (ra_ContentEncoding a) "" (ra_ContentType a) None zeroTime
      (ra_LastModified a) (ra_Size a) "" (Itoa (ra_Generation a)) None)).

(** [NewRangeReader]: the handle [BeforeRead] is given is not the one that is
    read from. *)
Definition NewRangeReader b (key : string) (offset length : Z) (opts : option ReaderOptions)
    : M W (result gcsReader) :=
  match before_read opts with
  | Some e => mret (Err e)
  | None =>
    '(err, r) ← reopen (openReader b) 0 (mkGcsReader key offset length 0 None None false);
    mret match err with Some e => Err e | None => Ok r end
  end.

Definition fields (opts : WriterOptions) : writer_fields :=
  mkWriterFields (o_CacheControl opts) (o_ContentDisposition opts) (o_ContentEncoding opts)
    (o_ContentLanguage opts) (o_ContentType opts) (o_DisableContentTypeDetection opts)
    (o_ContentMD5 opts) (CloneMetadata (o_Metadata opts))
    (if 0 <? o_BufferSize opts then Some (o_BufferSize opts) else None).

Definition NewWriter b (key : string) (opts : WriterOptions) (pre : Preconditions)
    : M W (result (writeCloser W)) :=
  match gcsConditions pre with
  | Err e => mret (Err e)
  | Ok c =>
    let obj := with_conditions (object b key) c in
    match run_hook (o_BeforeWrite opts) with
    | Some e => mret (Err e)
    | None => mret (Ok (mkWriteCloser (SdkWriter (b_client b) obj (fields opts)) (mkPipe "" None)))
    end
  end.

Definition UpdateMetadata b (key : string) (md : metadata) : M W (result string) :=
  let md := default ∅ md in
  let? attrs := checked (Update (b_client b) (object b key) md) in
  mret (Ok (Itoa (ga_Generation attrs))).

Definition Delete b (key : string) (pre : Preconditions) : M W (result unit) :=
  match gcsConditions pre with
  | Err e => mret (Err e)
  | Ok c =>
    e ← SdkDelete (b_client b) (with_conditions (object b key) c);
    mret (of_error (mapError <$> e))
  end.

Definition Copy b (dstKey srcKey : string) (opts : option CopyOptions) : M W (result unit) :=
  match before_copy opts with
  | Some e => mret (Err e)
  | None =>
    e ← CopierRun (b_client b) (object b dstKey) (object b srcKey);
    mret (of_error (mapError <$> e))
  end.

Definition XCopyFrom b (dstKey : string) (src : option (storageBackend W)) (srcKey : string)
    (opts : option CopyOptions) : result (M W outcome) :=
  match src with
  | None => Err ErrUnsupported
  | Some srcBackend =>
    let c := mkCrossCopy (b_client b) (b_bucket b) dstKey (b_bucket srcBackend) srcKey opts in
    Ok (e ← run c; mret (Returned e))
  end.

(** One entry of a listing. *)
Definition list_object (attr : ObjectAttrs) : ListObject :=
  if negb (bool_decide (ga_Prefix attr = "")) then mkListObject (ga_Prefix attr) zeroTime 0 "" true
  else mkListObject (ga_Name attr) (ga_Updated attr) (ga_Size attr) (ga_MD5 attr) false.

Definition ListPage b (pageToken : bytes) (pageSize : Z) (opts : option ListOptions)
    : M W (result (list ListObject * bytes)) :=
  if bool_decide (strlen pageToken = 0) then mret (Err EOF)
  else
    let opts := default (mkListOptions "" "" None) opts in
    match run_hook (l_BeforeList opts) with
    | Some e => mret (Err e)
    | None =>
      let token := if bool_decide (pageToken = FirstPageToken) then "" else pageToken in
      let pageSize := if pageSize <=? 0 then 1000 else pageSize in
      let? r := checked (NextPage (b_client b) (b_bucket b) (l_Prefix opts) (l_Delimiter opts) pageSize token) in
      mret (Ok (list_object <$> r.1, r.2))
    end.

Definition IsAccessible b : M W (result bool) :=
  e ← BucketAttrs (b_client b) (b_bucket b);
  mret match e with
       | None => Ok true
       | Some e => if Is (mapError e) ErrNotFound then Ok false else Err (mapError e)
       end.

Definition SignedURL b (cx : ctx) (now : Z) (key : string) (opts : option SignedURLOptions)
    : result string :=
  match cx, b_signing b with
  | Some e, _ => Err e
  | None, None => Err ErrUnsupported
  | None, Some signing =>
    let opts := default zeroSignedURLOptions opts in
    let expiry := if su_Expiry opts =? 0 then DefaultSignedURLExpiry else su_Expiry opts in
    let method := if bool_decide (su_Method opts = "") then "GET" else su_Method opts in
    let contentType := if su_EnforceAbsentContentType opts then "" else su_ContentType opts in
    match run_hook (su_BeforeSign opts) with
    | Some e => Err e
    | None =>
      match SdkSignedURL (b_client b) (b_bucket b) key (mkSignedOptions signing method (now + expiry) contentType) with
      | Ans url => Ok url
      | Fail e => Err e
      end
    end
  end.

Definition Capabilities_ b : Capabilities :=
  mkCapabilities true true true true true (bool_decide (is_Some (b_signing b))) true.

#[export] Instance gcs_Backend : Backend W (storageBackend W) gcsReader (writeCloser W) := {|
  be_Attributes := Attributes_;
  be_NewRangeReader := NewRangeReader;
  be_NewWriter := NewWriter;
  be_UpdateMetadata := UpdateMetadata;
  be_Delete := Delete;
  be_Copy _ b dst src opts :=
    r ← Copy b dst src opts; mret (Returned match r with Ok _ => None | Err e => Some e end);
  be_XCopyFrom _ := XCopyFrom;
  be_ListPage := ListPage;
  be_IsAccessible := IsAccessible;
  be_SignedURL b cx now key opts := mret (SignedURL b cx now key opts);
  be_Capabilities := Capabilities_;
  rd_Read := Read;
  rd_Close r := fst (Close r);
  rd_WriteTo := WriteTo;
  wr_Write := Write;
  wr_ReadFrom := ReadFrom;
  wr_Close := Writer_Close;
  wr_CloseWithError := Writer_CloseWithError;
|}.
End backend.
End GCS.
