(* ===== verification/GcsTheorems.v ===== *)
(** * Theorems about the Cloud Storage driver

    Generations as tokens, the conditions of a request against the compiled
    precondition, the refinement of the store contract from the documented
    behaviour of the service, and what [Download] does. *)
From S2P Require Import Prelude Strconv GoTime Md5 Core Effects Store Unicode Remote RemoteTheorems RemoteStore GcsDriver.

Module GCST.
Import GCS.

#[local] Arguments String.append !_ _ / : simpl nomatch.

(** ** Generations *)

(** Tokens are generation numbers in decimal. *)
Definition generation (v : string) : Prop := ∃ g, 0 < g ≤ int64_max ∧ v = Itoa g.

Lemma Itoa_inj a b : 0 ≤ a ≤ int64_max → 0 ≤ b ≤ int64_max → Itoa a = Itoa b → a = b.
Proof. intros Ha Hb E. pose proof (Atoi_Itoa a Ha) as H. rewrite E, Atoi_Itoa in H by done. congruence. Qed.

Lemma generation_nonempty v : generation v → v ≠ "".
Proof. intros (g & Hg & ->) E. assert (Atoi (Itoa g) = Ok g) as H by (apply Atoi_Itoa; lia). by rewrite E in H. Qed.

(** ** The service

    What the documentation of Cloud Storage says about the calls the driver
    makes, for one bucket whose objects are [view w]. *)

Definition says_missing (e : sdk_error) : Prop :=
  ge_ObjectNotExist e = true ∨ ge_Code e = Some 404 ∨ ge_status e = NotFound.

Definition says_conflict (e : sdk_error) : Prop :=
  ge_Code e = Some 412 ∨ ge_status e = FailedPrecondition ∨ ge_status e = Aborted.

Definition says_neither (e : sdk_error) : Prop := ¬ says_missing e ∧ ¬ says_conflict e.

(** The conditions of a request against the generation of the live object, if
    there is one.  A generation not to match is refused when there is no live
    object. *)
Definition conditions_met (conds : option Conditions) (cur : option string) : bool :=
  match conds with
  | None => true
  | Some c =>
    (if DoesNotExist c then bool_decide (cur = None) else true) &&
    (if GenerationMatch c =? 0 then true else bool_decide (cur = Some (Itoa (GenerationMatch c)))) &&
    (if GenerationNotMatch c =? 0 then true
     else match cur with Some v => negb (bool_decide (v = Itoa (GenerationNotMatch c))) | None => false end)
  end.

(** Preconditions made of tokens a caller may have got from the driver. *)
Definition gen_pre (c : Preconditions) : Prop :=
  (p_IfMatch c = "" ∨ generation (p_IfMatch c)) ∧ (p_IfNotMatch c = "" ∨ generation (p_IfNotMatch c)).

Section service.
Context {W : Type} (cl : client W) (bucket : string) (view : W → store) (rule : token_rule).

Definition failed_read (key : string) (s : store) (e : sdk_error) : Prop :=
  other_error (ge_raw e) ∧ (says_missing e → objs s !! key = None) ∧ ¬ says_conflict e.

(** Objects that are served as they are stored, which those with a gzip content
    encoding are not. *)
Record gcs_laws : Prop := {
  law_tokens w k o : objs (view w) !! k = Some o → generation (so_version o);
  law_attrs key w a w' :
    Attrs cl (mkObjectHandle bucket key None) w = (a, w') →
    view w' = view w ∧
    match a with
    | Fail e => failed_read key (view w) e
    | Ans out => ∃ o, objs (view w) !! key = Some o ∧
        Itoa (ga_Generation out) = so_version o ∧ ga_Metadata out = so_meta o
    end;
  law_range key off len w a w' :
    0 ≤ off → SdkRangeReader cl (mkObjectHandle bucket key None) off len w = (a, w') →
    view w' = view w ∧
    match a with
    | Fail e => failed_read key (view w) e
    | Ans (bd, out) => ∃ o, objs (view w) !! key = Some o ∧
        ra_Size out = strlen (so_data o) ∧ sends bd (range_of (so_data o) off len)
    end;
  law_writer key conds f :
    conds ≠ Some zeroConditions → wf_Metadata f ≠ Some ∅ →
    upload_law view rule ge_raw says_neither (SdkWriter cl (mkObjectHandle bucket key conds) f)
      key (wf_Metadata f) (conditions_met conds);
  law_delete key conds w a w' :
    conds ≠ Some zeroConditions → SdkDelete cl (mkObjectHandle bucket key conds) w = (a, w') →
    let allowed := conditions_met conds (version_at (view w) key) in
    let gone := mkStore (delete key (objs (view w))) (used (view w)) in
    match a with
    | None => is_Some (objs (view w) !! key) ∧ allowed = true ∧ view w' = gone
    | Some e => other_error (ge_raw e) ∧
        ((view w' = view w ∧ (says_neither e ∨ allowed = false ∨ objs (view w) !! key = None)) ∨
         (says_neither e ∧ allowed = true ∧ view w' = gone))
    end;
  law_list prefix delimiter size token w a w' :
    NextPage cl bucket prefix delimiter size token w = (a, w') →
    view w' = view w ∧
    ∀ attrs next x, a = Ans (attrs, next) → x ∈ attrs → ga_Prefix x = "" →
      HasPrefix (ga_Name x) prefix = true ∧ is_Some (objs (view w) !! ga_Name x);
}.
End service.

(** ** Errors *)

(** A mapped error is a sentinel only when the SDK's error says so. *)
Lemma gcs_mapError_sound e :
  other_error (ge_raw e) →
  (Is (mapError e) ErrNotFound = true → says_missing e) ∧
  (Is (mapError e) ErrPreconditionFailed = true → says_conflict e).
Proof.
  intros Ho. unfold mapError, says_missing, says_conflict.
  destruct (ge_ObjectNotExist e); [apply Is_missing; auto|].
  case_bool_decide; [apply Is_conflict; auto|].
  case_bool_decide; [apply Is_missing; auto|].
  case_bool_decide as Hs; [apply Is_conflict; auto; by destruct Hs; auto|].
  case_bool_decide; [apply Is_missing; auto|by apply Is_other].
Qed.

Lemma gcs_mapError_neither e : other_error (ge_raw e) → says_neither e → other_error (mapError e).
Proof.
  intros Ho [Hm Hc]. destruct (gcs_mapError_sound e Ho). split; apply not_true_is_false; naive_solver.
Qed.

Lemma gcs_failed_read_error key s e : failed_read key s e → other_error (mapError e) ∨ objs s !! key = None.
Proof.
  intros (Ho & Hm & Hc). destruct (gcs_mapError_sound e Ho) as [H1 H2].
  destruct (Is (mapError e) ErrNotFound) eqn:E; [right; auto|left]. split; [done|].
  apply not_true_is_false. naive_solver.
Qed.

(** ** Preconditions *)

(** A compiled precondition is of one kind. *)
Definition exclusive (c : Preconditions) : Prop := p_IfNotMatch c ≠ "" → p_IfNotExists c = false ∧ p_IfMatch c = "".

Lemma compile_not_match pre c : CompilePreconditions pre = Ok c → exclusive c.
Proof.
  unfold CompilePreconditions. case_bool_decide as H; [done|]. intros [= <-] Hx. revert H Hx.
  generalize (apply_all pre zeroPreconditions) as out. intros [[] m n]; unfold count_set; cbn; repeat case_bool_decide; naive_solver lia.
Qed.

(** Where the driver accepts a precondition, the conditions it attaches are not
    the empty ones, which the SDK refuses, and they say what the precondition
    says; only a generation not to match differs, for an object that is not
    there. *)
Lemma gcsConditions_spec c :
  gen_pre c → ∃ x, gcsConditions c = Ok x ∧
    ∀ bucket key, ∃ conds,
      with_conditions (mkObjectHandle bucket key None) x = mkObjectHandle bucket key conds ∧
      conds ≠ Some zeroConditions ∧
      (∀ cur, (p_IfNotMatch c = "" ∨ is_Some cur) → conditions_met conds cur = holds c cur) ∧
      (exclusive c → p_IfNotMatch c ≠ "" → conditions_met conds None = false).
Proof.
  intros [Hm Hn]. unfold gcsConditions, holds, exclusive. destruct (p_IfNotExists c).
  { eexists. split; [done|]. intros. eexists. split_and!; [done|done| |naive_solver]. intros cur _. cbn.
    rewrite !andb_true_r. destruct cur; naive_solver. }
  case_bool_decide as H1; cbn [negb].
  - case_bool_decide as H2; cbn [negb].
    { eexists. split; [done|]. intros. exists None. split_and!; [done|done|done|done]. }
    destruct Hn as [?|(g & Hg & Eg)]; [done|]. rewrite Eg, Atoi_Itoa by lia.
    eexists. split; [done|]. intros. eexists. split_and!; [done|intros [= ->]; lia| |].
    + intros cur [Hc|[v ->]]; [by rewrite Hc in Eg; symmetry in Eg; destruct H2|]. cbn.
      rewrite (proj2 (Z.eqb_neq g 0)) by lia. f_equal. apply bool_decide_ext. naive_solver.
    + intros _ _. cbn. by rewrite (proj2 (Z.eqb_neq g 0)) by lia.
  - destruct Hm as [?|(g & Hg & Eg)]; [done|]. rewrite Eg, Atoi_Itoa by lia.
    eexists. split; [done|]. intros. eexists. split_and!; [done|intros [= ->]; lia| |].
    + intros cur _. cbn. by rewrite (proj2 (Z.eqb_neq g 0)), andb_true_r by lia.
    + intros Hx Hne. destruct (Hx Hne) as [_ E]. congruence.
Qed.

(** ** The backend keeps its promise *)

(** Reading a reader whose body was sent [total] gives it, or an error of the
    connection. *)
Lemma gcs_ReadAll_sound fuel lens acc r bd tail total d r' :
  r_closed r = false → r_reader r = Some bd → total = acc +:+ body_bytes bd +:+ tail →
  match b_err bd with None => tail = "" | Some e => other_error e ∧ e ≠ EOF end →
  (∀ i, 0 < lens i) → ReadAll_loop Read fuel lens acc r = Some (d, r') →
  match d with Ok d => d = total | Err e => other_error e end.
Proof.
  revert lens acc r bd. induction fuel as [|fuel IH]; intros lens acc r bd Hcl Hrd Htot Htail Hl; [done|].
  cbn [ReadAll_loop]. unfold Read at 1. rewrite Hcl, Hrd.
  destruct (body_Read (lens 0%nat) bd) as [[p err] bd'] eqn:E.
  destruct (body_Read_any (lens 0%nat) bd p err bd' ltac:(specialize (Hl 0%nat); lia) E) as (Hb & Hp & He & Hcase).
  destruct Hcase as [->|[-> Hend]].
  - intros Hrun. eapply (IH (λ i, lens (S i)) (acc +:+ p) _ bd'); [..|exact Hrun]; try done.
    + by rewrite Htot, Hb, !string_app_assoc.
    + by rewrite He.
  - intros [= <- _]. destruct (b_err bd) as [e|].
    + cbn. destruct Htail. by rewrite bool_decide_false.
    + cbn. rewrite bool_decide_true by done. rewrite Htot, Hb, Hend, Htail. by rewrite !string_app_nil_r.
Qed.

(** Metadata the service keeps as it is given. *)
Definition representable_md (md : metadata) : Prop := md ≠ Some ∅.

(** The preconditions for which the service's test is the contract's. *)
Definition token_pre (c : Preconditions) : Prop := gen_pre c ∧ p_IfNotMatch c = "".

Section backend_laws.
Context {W : Type} (cl : client W) (bucket : string) (signing : option SigningOptions).
Context (view : W → store) (rule : token_rule) (Hlaws : gcs_laws cl bucket view rule).
Let b : storageBackend W := mkStorageBackend cl bucket signing.

Lemma gcs_attributes_law key w r w' :
  Attributes_ b key w = (r, w') →
  view w' = view w ∧ read_spec key (λ o a, a_Version a = so_version o ∧ a_Metadata a = so_meta o) (view w) r.
Proof.
  unfold Attributes_, checked, try_, mbind, M_bind, object. cbn [b_client b_bucket b].
  destruct (Attrs cl (mkObjectHandle bucket key None) w) as [a w1] eqn:E.
  apply (law_attrs _ _ _ _ Hlaws) in E as [Hv Ha].
  destruct a as [out|e]; cbn; intros [= <- <-]; (split; [done|]).
  - destruct Ha as (o & Hobj & Hg & Hmd). exists o. cbn. by rewrite CloneMetadata_id.
  - by apply gcs_failed_read_error.
Qed.

Lemma gcs_open_law key w r w' :
  NewRangeReader b key 0 (-1) None w = (r, w') →
  view w' = view w ∧
  match r with
  | Err e => other_error e ∨ objs (view w) !! key = None
  | Ok rd => ∃ o, objs (view w) !! key = Some o ∧
      ∀ fuel lens d rd', (∀ i, 0 < lens i) → ReadAll_loop Read fuel lens "" rd = Some (d, rd') →
        match d with Ok d => d = so_data o | Err e => other_error e end
  end.
Proof.
  unfold NewRangeReader, reopen, openReader, checked, try_, mbind, M_bind, object. cbn -[wrap64].
  change (wrap64 (0 + 0)) with 0.
  destruct (SdkRangeReader cl (mkObjectHandle bucket key None) 0 (-1) w) as [a w1] eqn:E.
  apply (law_range _ _ _ _ Hlaws) in E as [Hv Ha]; [|done].
  destruct a as [[bd out]|e]; cbn -[ReadAll_loop]; intros [= <- <-]; (split; [done|]).
  - destruct Ha as (o & Hobj & _ & tail & Ht & Htail). exists o. split; [done|].
    intros fuel lens d rd' Hl Hrun.
    unfold range_of in Ht. cbn [Z.ltb Z.compare Z.to_nat] in Ht. rewrite str_drop_0 in Ht.
    by eapply (gcs_ReadAll_sound fuel lens "" _ bd tail (so_data o)); [..|exact Hrun].
  - by apply gcs_failed_read_error.
Qed.

(** A write is the upload of its request, under the conditions attached. *)
Lemma gcs_session key opts c p w :
  representable_md (o_Metadata opts) → gen_pre c → o_BeforeWrite opts = None →
  ∃ up conds, write_session b key opts c p w = pipe_session ge_raw mapError up p w ∧
    upload_law view rule ge_raw says_neither up key (o_Metadata opts) (conditions_met conds) ∧
    (∀ cur, (p_IfNotMatch c = "" ∨ is_Some cur) → conditions_met conds cur = holds c cur) ∧
    (exclusive c → p_IfNotMatch c ≠ "" → conditions_met conds None = false).
Proof.
  intros Hmd Hc Hb. destruct (gcsConditions_spec c Hc) as (x & Ex & Hx).
  destruct (Hx bucket key) as (conds & Eo & Hz & Hmet & Habs).
  pose proof (law_writer _ _ _ _ Hlaws key conds (fields opts) Hz) as Hup.
  cbn [fields wf_Metadata] in Hup. rewrite CloneMetadata_id in Hup. specialize (Hup Hmd).
  exists (SdkWriter cl (mkObjectHandle bucket key conds) (fields opts)), conds. split_and!; [|done..].
  unfold write_session. cbn -[pipe_Write gcsConditions with_conditions]. unfold NewWriter, object.
  rewrite Ex. cbn [b_bucket b]. rewrite Eo, Hb. change (run_hook None) with (@None error).
  cbn -[pipe_Write]. unfold pipe_session, try_, Write, pipe_Write, mbind, M_bind, mret, M_ret. cbn.
  destruct (up_stop _ "" p w) as [[[n e]|] w1]; [done|]. cbn.
  unfold pipe_finish, mbind, M_bind. cbn. by destruct (up_end _ _ w1).
Qed.

Lemma gcs_write_law key opts c p w r w' :
  representable_md (o_Metadata opts) → gen_pre c → o_BeforeWrite opts = None →
  p_IfNotMatch c = "" ∨ is_Some (objs (view w) !! key) → write_session b key opts c p w = (r, w') →
  idle_error (view w) r (view w') ∨ gwrite_spec rule key p (o_Metadata opts) c (view w) r (view w').
Proof.
  intros Hmd Hc Hb Hn. destruct (gcs_session key opts c p w Hmd Hc Hb) as (up & conds & -> & Hup & Hmet & _).
  eapply pipe_session_write; [apply gcs_mapError_neither|exact Hup|]. apply Hmet.
  destruct Hn as [?|Ho]; [by left|right]. by apply fmap_is_Some.
Qed.

(** A token not to match, of an object that is not there: the service refuses. *)
Lemma gcs_write_absent key opts c p w r w' :
  representable_md (o_Metadata opts) → gen_pre c → o_BeforeWrite opts = None → exclusive c →
  p_IfNotMatch c ≠ "" → objs (view w) !! key = None → write_session b key opts c p w = (r, w') →
  view w' = view w ∧ ∃ e, r = Err e.
Proof.
  intros Hmd Hc Hb Hx Hn Ho. destruct (gcs_session key opts c p w Hmd Hc Hb) as (up & conds & -> & Hup & _ & Habs).
  eapply pipe_session_refused; [exact Hup|]. unfold version_at. rewrite Ho. by apply Habs.
Qed.

Lemma gcs_delete_law key c w r w' :
  gen_pre c → Delete b key c w = (r, w') →
  idle_error (view w) r (view w') ∨ delete_spec key c (view w) r (view w').
Proof.
  intros Hc. destruct (gcsConditions_spec c Hc) as (x & Ex & Hx).
  destruct (Hx bucket key) as (conds & Eo & Hz & Hmet & _). unfold Delete, object.
  rewrite Ex. cbn [b_bucket b_client b]. rewrite Eo. unfold mbind, M_bind.
  destruct (SdkDelete cl (mkObjectHandle bucket key conds) w) as [a w1] eqn:E.
  apply (law_delete _ _ _ _ Hlaws) in E; [|done]. cbn zeta in E.
  intros [= <- <-]. right. destruct (objs (view w) !! key) as [o|] eqn:Hobj.
  2: { destruct a as [e|]; cbn; [|by destruct E as [[] _]]. destruct E as (_ & [[Hs _]|(Hne & _ & Hg)]); [left; by auto|].
       left. rewrite Hg, delete_id by done. split; [by destruct (view w)|by auto]. }
  rewrite Hmet in E by (right; unfold version_at; by rewrite Hobj). destruct a as [e|]; cbn; rewrite Hobj; [|done].
  destruct E as (Ho & [[Hs Hcase]|(Hne & Hh & Hg)]).
  - left. split; [done|]. destruct Hcase as [?|[?|?]]; [left; by apply gcs_mapError_neither|by right; right|by right; left].
  - right. split_and!; [by apply gcs_mapError_neither|done|done].
Qed.

Lemma gcs_list_law token size opts w r w' :
  l_BeforeList opts = None → ListPage b token size (Some opts) w = (r, w') →
  view w' = view w ∧
  match r with
  | Err _ => True
  | Ok (page, _) => ∀ obj, obj ∈ page → lo_IsDir obj = false →
      HasPrefix (lo_Key obj) (l_Prefix opts) = true ∧ is_Some (objs (view w) !! lo_Key obj)
  end.
Proof.
  intros Hb. unfold ListPage. case_bool_decide; [by intros [= <- <-]|].
  cbn -[bool_decide]. rewrite Hb. change (run_hook None) with (@None error).
  unfold checked, try_, mbind, M_bind. set (tok := if bool_decide (token = _) then _ else _).
  set (sz := if size <=? 0 then _ else _). cbn [b_client b_bucket b].
  destruct (NextPage cl bucket (l_Prefix opts) (l_Delimiter opts) sz tok w) as [a w1] eqn:E.
  apply (law_list _ _ _ _ Hlaws) in E as [Hv Ha].
  destruct a as [[attrs next]|e]; cbn; intros [= <- <-]; split; try done.
  intros obj Ho Hd. apply list_elem_of_fmap in Ho as (x & -> & Hx).
  unfold list_object in *. case_bool_decide as Hp; cbn in *; [|done]. by eapply Ha.
Qed.

(** The Cloud Storage backend keeps the promise of [BackendLaws]; deletes do for
    every precondition on generations. *)
Lemma gcs_backend_laws (okdel : Preconditions → Prop) :
  (∀ c, okdel c → gen_pre c) → BackendLaws b view rule (λ _, True) (λ _, True) representable_md token_pre okdel.
Proof.
  intros Hdel. split; cbn [be_Attributes be_NewRangeReader be_Delete be_ListPage gcs_Backend].
  - intros key w r w' _. apply gcs_attributes_law.
  - intros key w r w' _. apply gcs_open_law.
  - intros key opts c p w r w' _ Hmd [Hc Hn] Hb. apply gcs_write_law; [done..|by left].
  - intros key c w r w' _ Hc. by apply gcs_delete_law, Hdel.
  - intros token size opts w r w' _. apply gcs_list_law.
Qed.

#[export] Instance gcs_BackendLaws :
  BackendLaws b view rule (λ _, True) (λ _, True) representable_md token_pre token_pre.
Proof. apply gcs_backend_laws. by intros c []. Qed.
End backend_laws.

(** ** The theorems *)

Section theorems.
Context {W : Type} `{!GoTables} (cl : client W) (bucket : string) (signing : option SigningOptions).
Context (view : W → store) (rule : token_rule).
Let b : storageBackend W := mkStorageBackend cl bucket signing.

(** Where the service departs from the contract: a write that asks for a token
    not to match, of an object that is not there. *)
Definition other_than_absent (o : op) (s : store) : Prop :=
  match o with
  | OWriteAll h key _ _ pre =>
      ∃ c, CompilePreconditions pre = Ok c ∧ p_IfNotMatch c ≠ "" ∧ objs s !! h_key h key = None
  | _ => False
  end.

(** The call fails and stores nothing. *)
Definition refused (o : op) (s : store) : ans o → store → Prop :=
  match o return ans o → store → Prop with
  | OWriteAll _ _ _ _ _ => fun a s' => (∃ e, a = Err e) ∧ s' = s
  | _ => fun _ _ => False
  end.

(** C7: the Cloud Storage driver implements the store, but for one case.  Against
    a service that behaves as documented and gives every write a new generation,
    for calls without driver callbacks, preconditions on generations and metadata
    that are not an empty map, every answer of the driver to attributes, whole
    reads, listings, conditional writes and deletes, and what the call leaves in
    the bucket, is what the contract allows, failing calls, lost answers and broken
    bodies included; except that a write under [IfNotMatch] of an object that is
    not there, which the contract lets through, always fails and stores nothing. *)
Theorem gcs_refines_store fuel lens o w a w' :
  gcs_laws cl bucket view fresh_token →
  remote_ok (λ _, True) (λ _, True) representable_md gen_pre gen_pre o → (∀ i, 0 < lens i) →
  remote_exec b fuel lens o w = (Some a, w') →
  (¬ other_than_absent o (view w) → spec o (view w) a (view w')) ∧
  (other_than_absent o (view w) → refused o (view w) a (view w')).
Proof.
  intros Hlaws Hok Hl E. pose proof (gcs_backend_laws cl bucket signing view fresh_token Hlaws gen_pre (λ _ H, H)) as Hb.
  assert (remote_ok (λ _, True) (λ _, True) representable_md token_pre gen_pre o → spec o (view w) a (view w')) as Hgo.
  { intros Ho. by eapply (remote_refines b view fresh_token (λ _, True) (λ _, True) representable_md token_pre gen_pre). }
  destruct o as [| | | |h key p opts pre| | | | | | | | | | | |]; try (split; [intros _; by apply Hgo|by intros []]).
  destruct Hok as (_ & Hbw & Hput & Hmd).
  destruct (writeall_session b fuel lens h key p opts pre w a w' Hbw E) as [(e & -> & He & ->)|(c & md & md' & out & Ec & Hm & Hm' & Ho & Hbo & Es)].
  { split; [intros _; left; by exists e|]. intros _. split; [by exists e|done]. }
  specialize (Hput c Ec). specialize (Hmd md md' Hm Hm'). rewrite <- Ho in Hmd. split.
  - intros Hn. assert (p_IfNotMatch c = "" ∨ is_Some (objs (view w) !! h_key h key)) as Hin.
    { destruct (decide (p_IfNotMatch c = "")); [by left|right]. apply not_eq_None_Some. intros Hobj. apply Hn. by exists c. }
    eapply gcs_write_law in Es; [|done..]. rewrite Ho in Es.
    destruct Es as [(e & -> & He & Hs)|Es]; [left; by exists e|right]. by exists c, md, md'.
  - intros (c' & Ec' & Hnm & Hobj). assert (c' = c) as -> by congruence.
    eapply gcs_write_absent in Es as [Hs [e ->]]; try done; [|by eapply compile_not_match].
    split; [by exists e|done].
Qed.

(** A token that is no number is refused before anything is sent: the write
    and the delete fail with the error for invalid options and the service is
    not called; every generation the driver has given out is accepted. *)
Theorem gcs_foreign_token_refused key opts c v w e :
  p_IfNotExists c = false → p_IfMatch c = v → v ≠ "" → Atoi v = Err e →
  NewWriter b key opts c w = (Err ErrInvalidOption, w) ∧ Delete b key c w = (Err ErrInvalidOption, w).
Proof.
  intros Hx <- Hne He. unfold NewWriter, Delete, gcsConditions.
  rewrite Hx, (bool_decide_false (p_IfMatch c = "")) by done. cbn [negb]. by rewrite He.
Qed.

(** C37: the reader cannot write itself.  Its [WriteTo] calls [io.Copy] on the
    reader itself, and [io.Copy] asks a source that has a [WriteTo] to do the
    work: no number of calls is enough, so a [Download] of an object that can
    be opened never returns. *)
Theorem gcs_download_diverges fuel p key k opts w r w' :
  NewRangeReader b (p +:+ key) 0 (-1) opts w = (Ok r, w') →
  Remote.Download fuel (Remote.mkBucket b p) key k opts w = (None, w').
Proof.
  intros E. assert (∀ fuel k r, WriteTo fuel k r = None) as Hw.
  { intros f. induction f as [|f IH]; [done|]. intros k0 r0. apply IH. }
  unfold Remote.Download, Remote.NewReader, Remote.NewRangeReader, mbind, M_bind.
  cbn [be_NewRangeReader gcs_Backend Remote.backend Remote.objectKey Remote.prefix].
  unfold Remote.objectKey. cbn [Remote.prefix]. rewrite E. cbn [rd_WriteTo gcs_Backend]. by rewrite Hw.
Qed.
End theorems.
End GCST.
