(* ===== verification/AzureKeys.v ===== *)
(** * Blob names and metadata of the Azure driver (azureblob/azureblob.go)

    Azure can not address every key, takes only identifiers as names of
    metadata, and only ASCII as their values.  The driver writes a rune that is
    not allowed as [__0x<hex>__] and the values as query components; here are the
    escaping, its inverse, and what holds of both. *)
From S2P Require Import Prelude Strconv GoTime Md5 Core Unicode NetUrl.

Module AzureKeys.

(** ** Escaping *)

(** [c == 'x'] for the runes the source names. *)
Definition ch (c : ascii) : rune := byte_val c.

(** The runes of [fmt.Fprintf(&b, "__0x%x__", c)]. *)
Definition escaped_rune (c : rune) : string := "__0x" +:+ fmt_x c +:+ "__".

(** The loop that writes the result, from index [i] on. *)
Fixpoint escape_from (shouldEscape : list rune → nat → bool) (rs : list rune) (i : nat) (l : list rune) : string :=
  match l with
  | [] => ""
  | c :: l =>
    (if shouldEscape rs i then escaped_rune c else EncodeRune c) +:+ escape_from shouldEscape rs (S i) l
  end.

(** The loop that looks for a rune to escape. *)
Definition any_escape (shouldEscape : list rune → nat → bool) (rs : list rune) : bool :=
  existsb (shouldEscape rs) (seq 0 (length rs)).

Definition hexEscape (s : string) (shouldEscape : list rune → nat → bool) : string :=
  let rs := runes s in
  if any_escape shouldEscape rs then escape_from shouldEscape rs 0 rs else s.

(** The condition of [escapeKey]. *)
Definition key_escape (isPrefix : bool) (r : list rune) (i : nat) : bool :=
  let c := nth i r 0 in
  if c =? ch "\" then true
  else if (c <? 32) || (c =? 34) || (c =? ch "#") || (c =? ch "%") || (c =? ch "?") || (c =? 127) then true
  else if negb isPrefix && (i =? length r - 1)%nat && (c =? ch "/") then true
  else if (1 <? i)%nat && (c =? ch "/") && (nth (i - 1) r 0 =? ch ".") && (nth (i - 2) r 0 =? ch ".") then true
  else false.

Definition escapeKey (key : string) (isPrefix : bool) : string := hexEscape key (key_escape isPrefix).

(** The condition of [escapeMetadataKey]. *)
Definition metadata_escape (r : list rune) (i : nat) : bool :=
  let c := nth i r 0 in
  if (i =? 0)%nat && in_range c (48, 57) then true
  else if in_range c (97, 122) || in_range c (65, 90) || in_range c (48, 57) || (c =? ch "_") then false
  else true.

Definition escapeMetadataKey (key : string) : string := hexEscape key metadata_escape.

(** ** Reading back *)

(** The runes before the next underscore. *)
Fixpoint span_digits (l : list rune) : list rune * list rune :=
  match l with
  | [] => ([], [])
  | c :: l' =>
    if c =? ch "_" then ([], l)
    else let '(ds, rest) := span_digits l' in (c :: ds, rest)
  end.

(** [unescapeRune] on the runes from the current index on: the decoded rune and
    the number of runes it takes. *)
Definition unescapeRune (l : list rune) : option (rune * nat) :=
  match l with
  | c0 :: c1 :: c2 :: c3 :: l' =>
    if (c0 =? ch "_") && (c1 =? ch "_") && (c2 =? ch "0") && (c3 =? ch "x") && (4 <? length l)%nat then
      let '(ds, rest) := span_digits l' in
      match ds, rest with
      | _ :: _, u :: v :: _ =>
        if (u =? ch "_") && (v =? ch "_") then
          value ← ParseHex32 (string_of_runes ds);
          Some (value, (4 + length ds + 2)%nat)
        else None
      | _, _ => None
      end
    else None
  | _ => None
  end.

(** The loop of [hexUnescape]; [skip] runes belong to the sequence before. *)
Fixpoint unescape_from (skip : nat) (l : list rune) : string :=
  match l with
  | [] => ""
  | c :: l' =>
    match skip with
    | S k => unescape_from k l'
    | O =>
      match unescapeRune l with
      | Some (v, n) => EncodeRune v +:+ unescape_from (n - 1) l'
      | None => EncodeRune c +:+ unescape_from 0 l'
      end
    end
  end.

Definition hexUnescape (s : string) : string :=
  if Contains s "__0x" then unescape_from 0 (runes s) else s.

Definition unescapeKey (key : string) : string := hexUnescape key.

(** ** Metadata *)

Abbreviation azmetadata := (option (gmap string (option string))) (only parsing).

(** The loop of [toAzureMetadata], over the entries in some order. *)
Fixpoint to_entries (es : list (string * string)) (out : gmap string (option string))
    : result (gmap string (option string)) :=
  match es with
  | [] => Ok out
  | (k, v) :: es =>
    let ek := escapeMetadataKey k in
    match out !! ek with
    | Some _ => Err ErrInvalidOption
    | None => to_entries es (<[ek := Some (QueryEscape v)]> out)
    end
  end.

Definition toAzureMetadata (md : metadata) : result azmetadata :=
  match md with
  | None => Ok None
  | Some m => if bool_decide (m = ∅) then Ok None else out ← to_entries (map_to_list m) ∅; Ok (Some out)
  end.

(** One entry of [fromAzureMetadata]: the unescaped value, or the value as it is
    when it is no query component. *)
Definition from_entry `{GoTables} (e : string * option string) (out : gmap string string) : gmap string string :=
  let value := default "" e.2 in
  <[ToLower (unescapeKey e.1) := default value (QueryUnescape value)]> out.

Definition fromAzureMetadata `{GoTables} (md : azmetadata) : metadata :=
  match md with
  | None => None
  | Some m => Some (foldr from_entry ∅ (map_to_list m))
  end.

(** ** Facts *)

#[local] Arguments String.append !_ _ / : simpl nomatch.

(** The start of an escape sequence, which no key of a round trip may have. *)
Definition marker : list rune := [95; 95; 48; 120].

Definition esc_runes (c : rune) : list rune := marker ++ ascii_runes (fmt_x c) ++ [95; 95].

(** The runes of the escaped text. *)
Fixpoint out_runes (should : list rune → nat → bool) (rs : list rune) (i : nat) (l : list rune) : list rune :=
  match l with
  | [] => []
  | c :: l => (if should rs i then esc_runes c else [c]) ++ out_runes should rs (S i) l
  end.

Lemma hex_chars_small s : Forall hex_char (ascii_runes s) → Forall (λ r, r < 128) (ascii_runes s).
Proof. intros H. eapply Forall_impl; [exact H|]. unfold hex_char. lia. Qed.

Lemma esc_runes_eq c : esc_runes c = ascii_runes (escaped_rune c).
Proof. unfold esc_runes, escaped_rune. by rewrite !ascii_runes_app. Qed.

Lemma esc_runes_small c : Forall (λ r, r < 128) (esc_runes c).
Proof.
  unfold esc_runes, marker. rewrite !Forall_app. split; [repeat constructor|].
  split; [apply hex_chars_small, fmt_x_chars|repeat constructor].
Qed.

Lemma escaped_rune_string c : escaped_rune c = string_of_runes (esc_runes c).
Proof. rewrite esc_runes_eq. symmetry. apply string_of_ascii_runes. rewrite <- esc_runes_eq. apply esc_runes_small. Qed.

Lemma esc_runes_valid c : Forall valid_rune (esc_runes c).
Proof. rewrite esc_runes_eq. apply ascii_runes_valid. rewrite <- esc_runes_eq. apply esc_runes_small. Qed.

Lemma esc_head c : ∃ t, esc_runes c = 95 :: 95 :: t.
Proof. eexists. reflexivity. Qed.

Section escape.
Context (should : list rune → nat → bool) (rs : list rune).

Lemma escape_from_runes i l : escape_from should rs i l = string_of_runes (out_runes should rs i l).
Proof.
  revert i. induction l as [|c l IH]; intros i; [done|]. cbn [escape_from out_runes]. rewrite string_of_runes_app, IH.
  destruct (should rs i); [by rewrite escaped_rune_string|]. cbn. by rewrite string_app_nil_r.
Qed.

Lemma out_runes_valid i l : Forall valid_rune l → Forall valid_rune (out_runes should rs i l).
Proof.
  intros Hl. revert i. induction Hl as [|c l Hc _ IH]; intros i; [constructor|]. cbn. apply Forall_app. split; [|apply IH].
  destruct (should rs i); [apply esc_runes_valid|by constructor].
Qed.

(** A rune of the result that is no underscore is a rune that was kept. *)
Lemma out_head i l x o :
  out_runes should rs i l = x :: o → x ≠ 95 → ∃ l', l = x :: l' ∧ o = out_runes should rs (S i) l'.
Proof.
  destruct l as [|c l]; cbn [out_runes]; [done|]. destruct (esc_head c) as [t ->].
  destruct (should rs i); [intros [= <- _] Hx; destruct (Hx eq_refl)|].
  intros [= -> <-] _. eauto.
Qed.

Lemma out_underscore i l x o :
  out_runes should rs i l = 95 :: x :: o → x ≠ 95 →
  ∃ l', l = 95 :: l' ∧ x :: o = out_runes should rs (S i) l'.
Proof.
  destruct l as [|c l]; cbn [out_runes]; [done|]. destruct (esc_head c) as [t ->].
  destruct (should rs i); [intros [= <- _] Hx; destruct (Hx eq_refl)|].
  intros [= -> E] _. eauto.
Qed.

Definition no_marker (l : list rune) : Prop := ¬ ∃ pre post, l = pre ++ marker ++ post.

Lemma no_marker_cons c l : no_marker (c :: l) → no_marker l.
Proof. intros H (pre & post & ->). apply H. by exists (c :: pre), post. Qed.

(** At a rune that was kept no escape sequence starts. *)
Lemma unescapeRune_kept i c l :
  no_marker (c :: l) → unescapeRune (c :: out_runes should rs i l) = None.
Proof.
  intros Hno. unfold unescapeRune.
  destruct (out_runes should rs i l) as [|c1 [|c2 [|c3 o]]] eqn:E; try done.
  destruct ((c =? ch "_") && (c1 =? ch "_") && (c2 =? ch "0") && (c3 =? ch "x")) eqn:Hm; [|done].
  exfalso. apply Hno. rewrite !andb_true_iff, !Z.eqb_eq in Hm. destruct Hm as [[[-> ->] ->] ->].
  apply out_underscore in E as (l1 & -> & E); [|done]. symmetry in E.
  apply out_head in E as (l2 & -> & E); [|done]. symmetry in E.
  apply out_head in E as (l3 & -> & _); [|done]. by exists [], l3.
Qed.

Lemma span_hex s rest :
  Forall hex_char (ascii_runes s) → span_digits (ascii_runes s ++ 95 :: rest) = (ascii_runes s, 95 :: rest).
Proof.
  induction s as [|c s IH]; [done|]. cbn [ascii_runes app span_digits]. intros [Hc Hs]%Forall_cons.
  rewrite (proj2 (Z.eqb_neq _ _)), IH; [done|done|]. unfold hex_char in Hc. change (ch "_") with 95. lia.
Qed.

(** An escape sequence decodes to its rune. *)
Lemma unescapeRune_esc c rest :
  valid_rune c → unescapeRune (esc_runes c ++ rest) = Some (c, length (esc_runes c)).
Proof.
  intros Hv. unfold esc_runes, marker. rewrite <- !app_assoc. cbn [app unescapeRune].
  cbn -[Nat.ltb length ascii_runes fmt_x span_digits ParseHex32].
  assert (Nat.ltb 4 (length (95 :: 95 :: 48 :: 120 :: ascii_runes (fmt_x c) ++ 95 :: 95 :: rest)) = true) as ->.
  { apply Nat.ltb_lt. cbn. rewrite length_app. cbn. lia. }
  rewrite span_hex by apply fmt_x_chars.
  assert (ParseHex32 (string_of_runes (ascii_runes (fmt_x c))) = Some c) as Hp.
  { rewrite string_of_ascii_runes by apply hex_chars_small, fmt_x_chars. apply ParseHex32_fmt_x.
    unfold valid_rune in Hv. lia. }
  destruct (ascii_runes (fmt_x c)) as [|d ds] eqn:E.
  { destruct (fmt_x c) eqn:E'; [|done]. by apply hex_from_nonempty in E'. }
  rewrite Hp. cbn -[length]. do 2 f_equal. cbn. rewrite length_app. cbn. lia.
Qed.

Lemma unescape_skip t rest : unescape_from (length t) (t ++ rest) = unescape_from 0 rest.
Proof. induction t as [|c t IH]; [done|exact IH]. Qed.

Lemma unescape_out i l :
  Forall valid_rune l → no_marker l → unescape_from 0 (out_runes should rs i l) = string_of_runes l.
Proof.
  intros Hl. revert i. induction Hl as [|c l Hc _ IH]; intros i Hno; [done|]. cbn [out_runes].
  destruct (should rs i).
  - pose proof (unescapeRune_esc c (out_runes should rs (S i) l) Hc) as Hu.
    destruct (esc_runes c) as [|d t] eqn:E; [done|]. cbn [app unescape_from] in *. rewrite Hu.
    cbn [length]. rewrite Nat.sub_succ, Nat.sub_0_r, unescape_skip, IH; [done|by eapply no_marker_cons].
  - cbn [app unescape_from]. rewrite unescapeRune_kept by done. cbn. rewrite IH; [done|by eapply no_marker_cons].
Qed.

Lemma out_runes_marker i l :
  (∃ j, (j < length l)%nat ∧ should rs (i + j) = true) → ∃ pre post, out_runes should rs i l = pre ++ marker ++ post.
Proof.
  revert i. induction l as [|c l IH]; intros i (j & Hj & Hs); cbn in Hj; [lia|]. cbn.
  destruct (should rs i) eqn:E.
  - unfold esc_runes. exists []. eexists. cbn. rewrite <- !app_assoc. reflexivity.
  - destruct j as [|j]; [rewrite Nat.add_0_r in Hs; congruence|].
    destruct (IH (S i)) as (pre & post & ->); [exists j; split; [lia|by rewrite Nat.add_succ_l, <- Nat.add_succ_r]|].
    by exists (c :: pre), post.
Qed.
End escape.

Lemma Contains_app a sub b : Contains (a +:+ sub +:+ b) sub = true.
Proof.
  unfold Contains. apply bool_decide_true. induction a as [|c a IH]; cbn.
  - destruct (sub +:+ b) as [|c s] eqn:E; cbn; rewrite <- E, HasPrefix_app; eauto.
  - destruct (HasPrefix _ _); [eauto|]. destruct IH as [i ->]. cbn. eauto.
Qed.

Lemma Contains_marker pre post : Contains (string_of_runes (pre ++ marker ++ post)) "__0x" = true.
Proof. rewrite !string_of_runes_app. apply Contains_app. Qed.

(** The round trip, for every choice of the runes that are escaped. *)
Lemma hexUnescape_Escape s should :
  utf8 s → Contains s "__0x" = false → hexUnescape (hexEscape s should) = s.
Proof.
  intros (rs & Hrs & ->) Hc. unfold hexEscape. rewrite runes_string_of_runes by done.
  assert (no_marker rs) as Hno.
  { intros (pre & post & ->). by rewrite Contains_marker in Hc. }
  destruct (any_escape should rs) eqn:E.
  - unfold any_escape in E. apply existsb_exists in E as (j & Hj & Hs).
    apply in_seq in Hj. rewrite escape_from_runes. unfold hexUnescape.
    destruct (out_runes_marker should rs 0 rs) as (pre & post & Ho); [exists j; split; [lia|done]|].
    rewrite Ho, Contains_marker, <- Ho.
    rewrite runes_string_of_runes by (by apply out_runes_valid). by apply unescape_out.
  - unfold hexUnescape. by rewrite Hc.
Qed.

(** ** What the escape rules keep out of a blob name

    The rules are those of the code, not all of Azure's: the names [..] and [a/..],
    or one that ends with a dot, pass. *)

(** The runes of a blob name: no control character, none of the characters that
    are not addressed consistently. *)
Definition ok_rune (c : rune) : Prop := 32 ≤ c ∧ c ∉ [92; 34; 35; 37; 63; 127].

(** A run of runes with two dots and a slash in it, [q2] and [q1] being the runes
    before it. *)
Fixpoint dotdot (q2 q1 : rune) (l : list rune) : Prop :=
  match l with
  | [] => False
  | c :: l => (q2 = 46 ∧ q1 = 46 ∧ c = 47) ∨ dotdot q1 c l
  end.

Record escape_free (isPrefix : bool) (l : list rune) : Prop := {
  ad_runes : Forall ok_rune l;
  ad_slash : isPrefix = false → last l ≠ Some 47;
  ad_dotdot : ¬ ∃ pre post, l = pre ++ [46; 46; 47] ++ post;
}.

Lemma dotdot_intro q2 q1 pre post : dotdot q2 q1 (pre ++ [46; 46; 47] ++ post).
Proof. revert q2 q1. induction pre as [|c pre IH]; intros q2 q1; cbn; [by right; right; left|]. right. apply IH. Qed.

Lemma dotdot_skip t q2 q1 o :
  Forall (λ c, c ≠ 47) t → dotdot q2 q1 (t ++ 95 :: 95 :: o) → dotdot 95 95 o.
Proof.
  intros Ht. revert q2 q1. induction Ht as [|c t Hc _ IH]; intros q2 q1; cbn; [|naive_solver].
  intros [(_ & _ & [=])|[(_ & _ & [=])|?]]; done.
Qed.

Lemma esc_runes_ok c : Forall ok_rune (esc_runes c).
Proof.
  unfold esc_runes, marker. rewrite !Forall_app.
  assert (∀ x, hex_char x ∨ x = 95 ∨ x = 120 → ok_rune x) as Hok.
  { intros x. unfold hex_char, ok_rune. rewrite !not_elem_of_cons. intros. split_and!; try lia. apply not_elem_of_nil. }
  split; [repeat constructor; apply Hok; unfold hex_char; lia|]. split.
  - eapply Forall_impl; [apply fmt_x_chars|]. auto.
  - repeat constructor; apply Hok; lia.
Qed.

Lemma esc_runes_end c : ∃ t, esc_runes c = t ++ [95; 95] ∧ Forall (λ x, x ≠ 47) t.
Proof.
  exists (marker ++ ascii_runes (fmt_x c)). unfold esc_runes. rewrite app_assoc. split; [done|].
  apply Forall_app. split; [repeat constructor; lia|].
  eapply Forall_impl; [apply fmt_x_chars|]. unfold hex_char. lia.
Qed.

(** What it means for a rune to be kept in a key. *)
Lemma key_kept isPrefix rs i c :
  key_escape isPrefix rs i = false → nth i rs 0 = c →
  ok_rune c ∧ (isPrefix = false → i = (length rs - 1)%nat → c ≠ 47) ∧
  ((1 < i)%nat → c = 47 → nth (i - 1) rs 0 = 46 → nth (i - 2) rs 0 = 46 → False).
Proof.
  unfold key_escape. intros H Hc. rewrite Hc in H. change (ch "\") with 92 in H. change (ch "#") with 35 in H.
  change (ch "%") with 37 in H. change (ch "?") with 63 in H. change (ch "/") with 47 in H. change (ch ".") with 46 in H.
  destruct (Z.eqb_spec c 92); [done|].
  destruct ((c <? 32) || (c =? 34) || (c =? 35) || (c =? 37) || (c =? 63) || (c =? 127)) eqn:E1; [done|].
  rewrite !orb_false_iff, Z.ltb_ge, !Z.eqb_neq in E1.
  destruct (negb isPrefix && (i =? length rs - 1)%nat && (c =? 47)) eqn:E2; [done|].
  destruct ((1 <? i)%nat && (c =? 47) && (nth (i - 1) rs 0 =? 46) && (nth (i - 2) rs 0 =? 46)) eqn:E3; [done|].
  split_and!.
  - unfold ok_rune. rewrite !not_elem_of_cons. split_and!; try lia. apply not_elem_of_nil.
  - intros -> -> ->. by rewrite Nat.eqb_refl in E2.
  - intros Hi -> H1 H2. rewrite H1, H2 in E3. apply Nat.ltb_lt in Hi. by rewrite Hi in E3.
Qed.

Section key.
Context (isPrefix : bool) (rs : list rune).
Let out := out_runes (key_escape isPrefix) rs.

Lemma out_ok pre l : rs = pre ++ l → Forall ok_rune (out (length pre) l).
Proof.
  unfold out. revert pre. induction l as [|c l IH]; intros pre Hrs; [constructor|]. cbn [out_runes].
  apply Forall_app. split.
  - destruct (key_escape isPrefix rs (length pre)) eqn:E; [apply esc_runes_ok|].
    apply Forall_singleton. eapply key_kept; [exact E|]. rewrite Hrs. apply nth_middle.
  - specialize (IH (pre ++ [c])). rewrite length_app, Nat.add_1_r in IH. apply IH. by rewrite Hrs, <- app_assoc.
Qed.

Lemma out_slash pre l : isPrefix = false → rs = pre ++ l → last (out (length pre) l) ≠ Some 47.
Proof.
  intros Hp. unfold out. revert pre. induction l as [|c l IH]; intros pre Hrs; [done|]. cbn [out_runes].
  destruct l as [|c' l].
  - cbn [out_runes]. rewrite app_nil_r. destruct (key_escape isPrefix rs (length pre)) eqn:E.
    + destruct (esc_runes_end c) as (t & -> & _). rewrite last_app. done.
    + intros [= ->]. eapply key_kept in E as (_ & E & _); [|rewrite Hrs; apply nth_middle].
      apply E; [done| |done]. rewrite Hrs, length_app. cbn. lia.
  - specialize (IH (pre ++ [c])). rewrite length_app, Nat.add_1_r in IH.
    rewrite last_app. destruct (last (out_runes _ rs (S (length pre)) (c' :: l))) as [x|] eqn:El.
    + apply IH. by rewrite Hrs, <- app_assoc.
    + exfalso. apply last_None in El. cbn [out_runes] in El. destruct (esc_head c') as [t Ht]. rewrite Ht in El.
      by destruct (key_escape isPrefix rs (S (length pre))).
Qed.

Lemma out_dotdot pre l q2 q1 :
  rs = pre ++ l →
  (q1 = 46 → (1 ≤ length pre)%nat ∧ nth (length pre - 1) rs 0 = 46) →
  (q1 = 46 → q2 = 46 → (2 ≤ length pre)%nat ∧ nth (length pre - 2) rs 0 = 46) →
  ¬ dotdot q2 q1 (out (length pre) l).
Proof.
  unfold out. revert pre q2 q1. induction l as [|c l IH]; intros pre q2 q1 Hrs H1 H2; [by intros []|]. cbn [out_runes].
  specialize (IH (pre ++ [c])). rewrite length_app, Nat.add_1_r in IH.
  assert (rs = (pre ++ [c]) ++ l) as Hrs' by (by rewrite Hrs, <- app_assoc).
  assert (nth (length pre) rs 0 = c) as Hc by (rewrite Hrs; apply nth_middle).
  destruct (key_escape isPrefix rs (length pre)) eqn:E.
  - destruct (esc_runes_end c) as (t & -> & Ht). rewrite <- app_assoc. intros Hd. apply dotdot_skip in Hd; [|done].
    revert Hd. apply IH; [done|lia..].
  - eapply key_kept in E as (_ & _ & Hdd); [|exact Hc]. cbn. intros [(-> & -> & ->)|Hd].
    + destruct (H2 eq_refl eq_refl), (H1 eq_refl). apply Hdd; [lia|done..].
    + revert Hd. apply IH; [done| |].
      * intros ->. rewrite Nat.sub_succ, Nat.sub_0_r. split; [lia|done].
      * intros -> ->. destruct (H1 eq_refl) as [Hl Hn]. split; [lia|]. rewrite <- Hn. f_equal.
Qed.
End key.

(** A string of characters is escaped rune by rune. *)
Lemma out_runes_same should rs i l :
  (∀ j : nat, (j < length l)%nat → should rs (i + j)%nat = false) → out_runes should rs i l = l.
Proof.
  revert i. induction l as [|c l IH]; intros i Hf; [done|]. cbn.
  pose proof (Hf 0%nat ltac:(cbn; lia)) as H0. rewrite Nat.add_0_r in H0. rewrite H0. cbn. f_equal. apply IH.
  intros j Hj. rewrite Nat.add_succ_l, <- Nat.add_succ_r. apply Hf. cbn. lia.
Qed.

Lemma hexEscape_string s should :
  utf8 s → hexEscape s should = string_of_runes (out_runes should (runes s) 0 (runes s)).
Proof.
  intros Hu. destruct (string_of_runes_runes s Hu) as [Hs Hv]. unfold hexEscape.
  destruct (any_escape should (runes s)) eqn:E; [by rewrite escape_from_runes|].
  unfold any_escape in E. rewrite out_runes_same; [done|]. intros j Hj. apply not_true_is_false. intros Hb.
  assert (existsb (should (runes s)) (seq 0 (length (runes s))) = true); [|congruence].
  apply existsb_exists. exists j. split; [apply in_seq; lia|done].
Qed.

Lemma runes_hexEscape s should :
  utf8 s → runes (hexEscape s should) = out_runes should (runes s) 0 (runes s).
Proof.
  intros Hu. rewrite hexEscape_string by done. destruct (string_of_runes_runes s Hu) as [_ Hv].
  by apply runes_string_of_runes, out_runes_valid.
Qed.

(** The runes of a concatenation. *)
Lemma utf8_app s t : utf8 s → utf8 t → utf8 (s +:+ t) ∧ runes (s +:+ t) = runes s ++ runes t.
Proof.
  intros (rs & Hrs & ->) (ts & Hts & ->). rewrite <- string_of_runes_app.
  assert (Forall valid_rune (rs ++ ts)) by (by apply Forall_app). split; [by exists (rs ++ ts)|].
  by rewrite !runes_string_of_runes.
Qed.

Lemma out_runes_app should rs i l1 l2 :
  out_runes should rs i (l1 ++ l2) = out_runes should rs i l1 ++ out_runes should rs (i + length l1) l2.
Proof.
  revert i. induction l1 as [|c l1 IH]; intros i; cbn [app out_runes length].
  - by rewrite Nat.add_0_r.
  - rewrite IH, <- app_assoc. do 3 f_equal. lia.
Qed.

Lemma out_runes_ext should should' rs rs' i l :
  (∀ j, (i ≤ j < i + length l)%nat → should rs j = should' rs' j) →
  out_runes should rs i l = out_runes should' rs' i l.
Proof.
  revert i. induction l as [|c l IH]; intros i Hf; [done|]. cbn [out_runes]. cbn [length] in Hf.
  rewrite (Hf i) by lia. f_equal. apply IH. intros j Hj. apply Hf. lia.
Qed.

(** Inside a longer key, the runes of a prefix are escaped as those of a prefix. *)
Lemma key_escape_prefix p rest j :
  rest ≠ [] → (j < length p)%nat → key_escape false (p ++ rest) j = key_escape true p j.
Proof.
  intros Hr Hj. unfold key_escape. rewrite !app_nth1 by lia.
  assert ((j =? length (p ++ rest) - 1)%nat = false) as ->.
  { apply Nat.eqb_neq. rewrite length_app. destruct rest; [done|]. cbn. lia. }
  done.
Qed.

(** ** The theorems *)

(** C28: a key reads back as itself.  Any key of UTF-8 text without the text
    [__0x], escaped as an object key or as a prefix, unescapes to itself. *)
Theorem azure_key_roundtrip key isPrefix :
  utf8 key → Contains key "__0x" = false → unescapeKey (escapeKey key isPrefix) = key.
Proof. apply hexUnescape_Escape. Qed.

(** Two such keys never share a blob. *)
Corollary escapeKey_inj k1 k2 isPrefix :
  utf8 k1 → utf8 k2 → Contains k1 "__0x" = false → Contains k2 "__0x" = false →
  escapeKey k1 isPrefix = escapeKey k2 isPrefix → k1 = k2.
Proof.
  intros H1 H2 C1 C2 E. rewrite <- (hexUnescape_Escape k1 (key_escape isPrefix)) by done.
  rewrite <- (hexUnescape_Escape k2 (key_escape isPrefix)) by done. unfold escapeKey in E. by rewrite E.
Qed.

(** The condition is needed: a key that spells out an escape sequence is stored
    as it is, in the blob of another key. *)
Theorem azure_key_collision :
  ∃ k1 k2, k1 ≠ k2 ∧ escapeKey k1 false = escapeKey k2 false ∧ unescapeKey (escapeKey k2 false) = k1.
Proof.
  exists "a?b", "a__0x3f__b". split; [done|]. split; vm_compute; reflexivity.
Qed.

(** In every blob name the driver makes of a key of valid UTF-8, none of the runes
    is one the escape rules list, the last is not a slash (unless it is the prefix
    of a listing), and [../] does not occur. *)
Theorem azure_names_escape_free key isPrefix :
  utf8 key → escape_free isPrefix (runes (escapeKey key isPrefix)).
Proof.
  intros Hu. unfold escapeKey. rewrite runes_hexEscape by done. split.
  - by apply (out_ok isPrefix (runes key) []).
  - intros Hp. by apply (out_slash isPrefix (runes key) []).
  - intros (pre & post & E). apply (out_dotdot isPrefix (runes key) [] (runes key) 0 0); [done|done|done|].
    cbn [length]. rewrite E. apply dotdot_intro.
Qed.

(** A listing by prefix finds its keys: the escaped prefix is a prefix of the
    escaped name of every longer key. *)
Theorem azure_prefix_matches p rest :
  utf8 p → utf8 rest → rest ≠ "" → HasPrefix (escapeKey (p +:+ rest) false) (escapeKey p true) = true.
Proof.
  intros Hp Hr Hne. destruct (utf8_app p rest Hp Hr) as [Hu Hrs]. unfold escapeKey.
  rewrite !hexEscape_string, Hrs, out_runes_app, string_of_runes_app by done.
  assert (runes rest ≠ []) as Hnr.
  { intros E. destruct (string_of_runes_runes rest Hr) as [Hs _]. rewrite E in Hs. by destruct Hne. }
  rewrite (out_runes_ext _ (key_escape true) _ (runes p)); [apply HasPrefix_app|].
  intros j Hj. apply key_escape_prefix; [done|lia].
Qed.

(** The key that is the prefix itself, when it ends in a slash, is not found: its
    last slash is escaped in the name and not in the prefix. *)
Theorem azure_prefix_misses : HasPrefix (escapeKey "dir/" false) (escapeKey "dir/" true) = false.
Proof. vm_compute. reflexivity. Qed.

(** *** Metadata *)

Definition word_rune (c : rune) : Prop := 97 ≤ c ≤ 122 ∨ 65 ≤ c ≤ 90 ∨ 48 ≤ c ≤ 57 ∨ c = 95.

(** An ASCII identifier. *)
Definition identifier (l : list rune) : Prop :=
  Forall word_rune l ∧ ∃ c l', l = c :: l' ∧ ¬ (48 ≤ c ≤ 57).

Lemma in_range_spec b lo hi : in_range b (lo, hi) = true ↔ lo ≤ b ≤ hi.
Proof. unfold in_range. cbn. rewrite andb_true_iff, !Z.leb_le. done. Qed.

Lemma metadata_kept rs i c :
  metadata_escape rs i = false → nth i rs 0 = c → word_rune c ∧ (i = 0%nat → ¬ (48 ≤ c ≤ 57)).
Proof.
  unfold metadata_escape. intros H Hc. rewrite Hc in H. change (ch "_") with 95 in H.
  destruct ((i =? 0)%nat && in_range c (48, 57)) eqn:E1; [done|].
  destruct (in_range c (97, 122) || in_range c (65, 90) || in_range c (48, 57) || (c =? 95)) eqn:E2; [|done].
  split.
  - rewrite !orb_true_iff, !in_range_spec, Z.eqb_eq in E2. unfold word_rune. lia.
  - intros -> Hd. apply in_range_spec in Hd. by rewrite Hd in E1.
Qed.

Lemma esc_runes_word c : Forall word_rune (esc_runes c).
Proof.
  unfold esc_runes, marker. rewrite !Forall_app. unfold word_rune. split; [repeat constructor; lia|]. split.
  - eapply Forall_impl; [apply fmt_x_chars|]. unfold hex_char. lia.
  - repeat constructor; lia.
Qed.

(** The names of metadata the driver sends are identifiers: ASCII letters,
    digits and underscores, and no digit first, whatever the caller's names. *)
Theorem azure_metadata_identifiers key :
  utf8 key → key ≠ "" → identifier (runes (escapeMetadataKey key)).
Proof.
  intros Hu Hne. unfold escapeMetadataKey. rewrite runes_hexEscape by done. set (rs := runes key).
  assert (∀ pre l, rs = pre ++ l → Forall word_rune (out_runes metadata_escape rs (length pre) l)) as Hall.
  { intros pre l. revert pre. induction l as [|c l IH]; intros pre Hrs; [constructor|]. cbn [out_runes].
    apply Forall_app. split.
    - destruct (metadata_escape rs (length pre)) eqn:E; [apply esc_runes_word|].
      apply Forall_singleton. eapply metadata_kept; [exact E|]. rewrite Hrs. apply nth_middle.
    - specialize (IH (pre ++ [c])). rewrite length_app, Nat.add_1_r in IH. apply IH. by rewrite Hrs, <- app_assoc. }
  split; [by apply (Hall [])|].
  destruct rs as [|c l] eqn:E.
  { destruct (string_of_runes_runes key Hu) as [Hs _]. fold rs in Hs. rewrite E in Hs. by destruct Hne. }
  cbn [out_runes]. destruct (metadata_escape (c :: l) 0) eqn:Em.
  - destruct (esc_head c) as [t ->]. eexists _, _. split; [reflexivity|lia].
  - eexists _, _. split; [reflexivity|]. eapply metadata_kept; [exact Em|done|done].
Qed.

Section metadata.
Context `{GoTables}.

(** The entry Azure is sent for one of the caller's. *)
Definition sent_entry (e : string * string) : string * option string :=
  (escapeMetadataKey e.1, Some (QueryEscape e.2)).

(** Names that survive: text without an escape sequence, in lower case. *)
Definition plain_name (k : string) : Prop := utf8 k ∧ Contains k "__0x" = false ∧ ToLower k = k.

Definition read_entry (e : string * option string) : string * string :=
  let value := default "" e.2 in
  (ToLower (unescapeKey e.1), default value (QueryUnescape value)).

Lemma read_sent_entry e : plain_name e.1 → read_entry (sent_entry e) = e.
Proof.
  destruct e as [k v]. cbn [fst]. intros (Hu & Hc & Hl). unfold read_entry, sent_entry. cbn [fst snd default from_option id].
  unfold unescapeKey, escapeMetadataKey. rewrite hexUnescape_Escape, QueryUnescape_Escape by done. by rewrite Hl.
Qed.

Lemma to_entries_ok es out :
  Forall (λ e, plain_name e.1) es → NoDup es.*1 → Forall (λ e, out !! escapeMetadataKey e.1 = None) es →
  to_entries es out = Ok (list_to_map (sent_entry <$> es) ∪ out).
Proof.
  revert out. induction es as [|[k v] es IH]; intros out Hp Hnd Hf; cbn; [by rewrite map_empty_union|].
  apply Forall_cons in Hp as [Hk Hp]. apply NoDup_cons in Hnd as [Hnin Hnd]. apply Forall_cons in Hf as [Hk' Hf].
  cbn in Hk', Hk. rewrite Hk'.
  assert (Forall (λ e, escapeMetadataKey e.1 ≠ escapeMetadataKey k) es) as Hne.
  { apply Forall_forall. intros e He E. rewrite Forall_forall in Hp. destruct (Hp e He) as (Hu & Hc & _).
    destruct Hk as (Hu' & Hc' & _). apply Hnin. assert (e.1 = k) as Ek; [|apply list_elem_of_fmap; by exists e].
    rewrite <- (hexUnescape_Escape e.1 metadata_escape), <- (hexUnescape_Escape k metadata_escape) by done.
    by f_equal. }
  rewrite IH; [|done|done|].
  - f_equal. rewrite <- insert_union_l, <- insert_union_r; [done|].
    apply not_elem_of_list_to_map_1. intros (e & He1 & He2)%list_elem_of_fmap.
    apply list_elem_of_fmap in He2 as (e' & -> & He'). rewrite Forall_forall in Hne. by apply (Hne e' He').
  - rewrite Forall_forall in *. intros e He. rewrite lookup_insert_ne by (apply not_eq_sym; by apply Hne). by apply Hf.
Qed.

Lemma from_entries es : foldr from_entry ∅ es = list_to_map (read_entry <$> es).
Proof. induction es as [|e es IH]; [done|]. cbn. by rewrite IH. Qed.

Lemma metadata_back (m : gmap string string) :
  m ≠ ∅ → (∀ k, is_Some (m !! k) → plain_name k) →
  ∃ out, toAzureMetadata (Some m) = Ok (Some out) ∧ fromAzureMetadata (Some out) = Some m.
Proof.
  intros Hm Hk. set (es := map_to_list m).
  assert (Forall (λ e, plain_name e.1) es) as Hp.
  { apply Forall_forall. intros [k v] He. apply elem_of_map_to_list in He. apply Hk. eauto. }
  assert (NoDup es.*1) as Hnd by apply NoDup_fst_map_to_list.
  exists (list_to_map (sent_entry <$> es)). split.
  - cbn. rewrite bool_decide_false by done. fold es. rewrite to_entries_ok; [|done|done|].
    + cbn. by rewrite map_union_empty.
    + apply Forall_forall. intros e _. apply lookup_empty.
  - cbn. rewrite from_entries. f_equal.
    assert (read_entry <$> (sent_entry <$> es) = es) as Hback.
    { clear Hnd. induction Hp as [|e l He _ IH]; [done|]. cbn [fmap list_fmap]. by rewrite read_sent_entry, IH. }
    assert (NoDup (sent_entry <$> es).*1) as Hnd'.
    { apply (NoDup_fmap_1 (λ k, ToLower (unescapeKey k))). rewrite <- list_fmap_compose.
      assert ((λ k, ToLower (unescapeKey k)) ∘ fst <$> (sent_entry <$> es) = es.*1) as ->; [|done].
      rewrite <- Hback at 2. by rewrite <- !list_fmap_compose. }
    rewrite <- (list_to_map_to_list m). apply list_to_map_proper.
    + rewrite map_to_list_to_map by done. by rewrite Hback.
    + rewrite map_to_list_to_map by done. by rewrite Hback.
Qed.
(** Metadata survive the trip.  Names that are lower-case text without the
    text [__0x], as the root package's normalisation leaves them, and any values
    at all, are accepted and read back as they were. *)
Theorem azure_metadata_roundtrip (m : gmap string string) :
  m ≠ ∅ → (∀ k, is_Some (m !! k) → plain_name k) →
  ∃ out, toAzureMetadata (Some m) = Ok (Some out) ∧ fromAzureMetadata (Some out) = Some m.
Proof. apply metadata_back. Qed.
End metadata.
End AzureKeys.
