(* ===== verification/AzureDriver.v ===== *)
(** * The Azure driver (azureblob/azureblob.go, azureblob/crosscopy.go)

    [Module Azure]: the conditions, ranges and errors of the Azure SDK, the range
    reader, the writer with its buffered and its streaming path, the copy that is
    polled to its end, and the backend's methods over the calls of the SDK, which
    are the fields of [client].  Blob names and metadata are escaped by
    [AzureKeys]. *)
From S2P Require Import Prelude Strconv GoTime Md5 Core Effects Unicode NetUrl Remote AzureKeys.

(** [url.Parse(s)] and its [Host]; [None] is a parse error. *)
Class UrlTable := { url_Host : string → option string }.

Module Azure.
Import AzureKeys.

(** ** Requests and answers of the SDK *)

(** An error of the SDK: the code and the status of the azcore.ResponseError it
    wraps, if any, and the error value itself. *)
Record sdk_error := mkSdkError {
  ae_code : option string;
  ae_status : option Z;
  ae_raw : error;
}.

(** blob.AccessConditions, the two entity tags of its ModifiedAccessConditions. *)
Record AccessConditions := mkAccessConditions {
  ac_IfMatch : option string;
  ac_IfNoneMatch : option string;
}.

Record HTTPRange := mkHTTPRange {
  hr_Offset : Z;
  hr_Count : Z;
}.

Record HTTPHeaders := mkHTTPHeaders {
  hh_CacheControl : option string;
  hh_ContentDisposition : option string;
  hh_ContentEncoding : option string;
  hh_ContentLanguage : option string;
  hh_ContentType : option string;
}.

Record Properties := mkProperties {
  pr_CacheControl : option string;
  pr_ContentDisposition : option string;
  pr_ContentEncoding : option string;
  pr_ContentLanguage : option string;
  pr_ContentType : option string;
  pr_Metadata : azmetadata;
  pr_CreationTime : option Z;
  pr_LastModified : option Z;
  pr_ContentLength : option Z;
  pr_ContentMD5 : bytes;
  pr_ETag : option string;
  pr_CopyStatus : option string;
}.

Record DownloadResponse := mkDownloadResponse {
  dr_Body : body;
  dr_ContentLength : option Z;
  dr_ContentRange : option string;
  dr_CacheControl : option string;
  dr_ContentEncoding : option string;
  dr_ContentType : option string;
  dr_Metadata : azmetadata;
  dr_LastModified : option Z;
  dr_ETag : option string;
}.

(** What an upload is sent with: blockblob.UploadStreamOptions, and
    blockblob.UploadOptions with its transactional MD5. *)
Record upload_request := mkUploadRequest {
  ur_name : string;
  ur_HTTPHeaders : HTTPHeaders;
  ur_Metadata : azmetadata;
  ur_AccessConditions : option AccessConditions;
  ur_BlockSize : option Z;
  ur_Concurrency : option Z;
  ur_MD5 : option bytes;
}.

(** container.BlobItem with its properties, which may be missing. *)
Record BlobItem := mkBlobItem {
  bi_Name : option string;
  bi_Properties : option (option Z * option Z * bytes);
}.

Record list_request := mkListRequest {
  lr_Delimiter : option string;
  lr_Prefix : option string;
  lr_Marker : option string;
  lr_MaxResults : Z;
}.

Record list_response := mkListResponse {
  ls_BlobItems : list BlobItem;
  ls_BlobPrefixes : list (option string);
  ls_NextMarker : option string;
}.

(** sas.BlobPermissions, the ones the driver asks for. *)
Record BlobPermissions := mkBlobPermissions {
  bp_Read : bool;
  bp_Write : bool;
  bp_Create : bool;
  bp_Delete : bool;
}.

(** The calls of the SDK on one container, by blob name. *)
Record client (W : Type) := mkClient {
  GetProperties : string → M W (answer sdk_error Properties);
  DownloadStream : string → HTTPRange → M W (answer sdk_error DownloadResponse);
  UploadStream : upload_request → uploader W sdk_error;
  SdkUpload : upload_request → bytes → M W (option sdk_error);
  SetMetadata : string → azmetadata → M W (answer sdk_error (option string));
  SdkDelete : string → option AccessConditions → M W (option sdk_error);
  StartCopyFromURL : string → string → M W (answer sdk_error (option string * option string));
  ListBlobs : list_request → M W (answer sdk_error list_response);
  ContainerProperties : M W (option sdk_error);
  GetSASURL : string → BlobPermissions → Z → answer sdk_error string;
  BlobURL : string → string;
  ContainerURL : string;
}.
Arguments GetProperties {W}.
Arguments DownloadStream {W}.
Arguments UploadStream {W}.
Arguments SdkUpload {W}.
Arguments SetMetadata {W}.
Arguments SdkDelete {W}.
Arguments StartCopyFromURL {W}.
Arguments ListBlobs {W}.
Arguments ContainerProperties {W}.
Arguments GetSASURL {W}.
Arguments BlobURL {W}.
Arguments ContainerURL {W}.

(** ** Helpers of the driver *)

(** [deref] and [derefTime]. *)
Definition deref (s : option string) : string := default "" s.
Definition deref_int (z : option Z) : Z := default 0 z.
Definition derefTime (z : option Z) : Z := default zeroTime z.

Definition nonempty (s : string) : option string := if bool_decide (s = "") then None else Some s.

(** [mapError], on an error that is not nil. *)
Definition mapError (e : sdk_error) : error :=
  let err := ae_raw e in
  let HasCode codes := match ae_code e with Some c => bool_decide (c ∈ codes) | None => false end in
  if HasCode ["BlobNotFound"; "ContainerNotFound"] then ErrJoin ErrNotFound err
  else if HasCode ["ConditionNotMet"; "BlobAlreadyExists"] then ErrJoin ErrPreconditionFailed err
  else
    match ae_status e with
    | Some st =>
      if bool_decide (st = 404) then ErrJoin ErrNotFound err
      else if bool_decide (st = 412 ∨ st = 409) then ErrJoin ErrPreconditionFailed err
      else err
    | None => err
    end.

Definition checked {W A} (m : M W (answer sdk_error A)) : M W (result A) :=
  a ← m; mret match a with Ans x => Ok x | Fail e => Err (mapError e) end.

(** The entity tag, with its quotes, is the version. *)
Definition etagVersion (etag : option string) : string := default "" etag.

Definition modifiedConditions (pre : Preconditions) : option AccessConditions :=
  if p_IfNotExists pre then Some (mkAccessConditions None (Some "*"))
  else if negb (bool_decide (p_IfMatch pre = "")) then Some (mkAccessConditions (Some (p_IfMatch pre)) None)
  else if negb (bool_decide (p_IfNotMatch pre = "")) then Some (mkAccessConditions None (Some (p_IfNotMatch pre)))
  else None.

Definition azureRange (offset length : Z) : HTTPRange :=
  if (offset <=? 0) && (length <? 0) then mkHTTPRange 0 0
  else if length <? 0 then mkHTTPRange offset 0
  else if length =? 0 then mkHTTPRange offset 1
  else mkHTTPRange offset length.

Definition totalFromContentRange (contentRange : option string) : option Z :=
  match contentRange with
  | None => None
  | Some cr =>
    match LastIndexByte cr "/" with
    | None => None
    | Some idx =>
      let total := str_drop (S idx) cr in
      if bool_decide (total = "*") then None
      else match Atoi total with Ok n => Some n | Err _ => None end
    end
  end.

Definition nextMarker (marker : option string) : bytes := default "" marker.

Definition sasPermissions `{UpperTable} (method : string) : result BlobPermissions :=
  let m := ToUpper method in
  if bool_decide (m = "GET") then Ok (mkBlobPermissions true false false false)
  else if bool_decide (m = "PUT") then Ok (mkBlobPermissions true true true false)
  else if bool_decide (m = "DELETE") then Ok (mkBlobPermissions false false false true)
  else Err ErrInvalidOption.

Definition blobItemToObject (item : BlobItem) : ListObject :=
  let key := unescapeKey (deref (bi_Name item)) in
  match bi_Properties item with
  | None => mkListObject key zeroTime 0 "" false
  | Some (lastModified, contentLength, md5) =>
    mkListObject key (derefTime lastModified) (deref_int contentLength) md5 false
  end.

(** ** The range reader *)

Record azureReader := mkAzureReader {
  r_key : string;
  r_start : Z;
  r_length : Z;
  r_pos : Z;
  r_reader : option body;
  r_attrs : option Attributes;
  r_closed : bool;
}.

Abbreviation opener W := (string → Z → Z → M W (result (body * Attributes))) (only parsing).

Definition closed_body (b : body) : body :=
  mkBody [] (Some (ErrOther "http: read on closed response body")) false (b_close b).

Definition rangeSize (r : azureReader) : Z :=
  match r_attrs r with
  | None => r_length r
  | Some attrs =>
    let size := wrap64 (a_Size attrs - r_start r) in
    let size := if size <? 0 then 0 else size in
    if (0 <=? r_length r) && (r_length r <? size) then r_length r else size
  end.

Definition Read (n : Z) (r : azureReader) : bytes * option error * azureReader :=
  if r_closed r then ("", Some (ErrOther "blobster azure: read after close"), r)
  else
    let remaining := wrap64 (rangeSize r - r_pos r) in
    if remaining <=? 0 then ("", Some EOF, r)
    else
      let n := if remaining <? n then remaining else n in
      match r_reader r with
      | Some b =>
        let '(p, err, b') := body_Read n b in
        (p, err, mkAzureReader (r_key r) (r_start r) (r_length r) (wrap64 (r_pos r + strlen p))
                   (Some b') (r_attrs r) (r_closed r))
      | None => ("", Some (ErrOther "nil pointer dereference"), r)
      end.

Definition reopen {W} (open : opener W) (pos : Z) (r : azureReader) : M W (option error * azureReader) :=
  match r_reader r ≫= b_close with
  | Some e => mret (Some e, r)
  | None =>
    let r := mkAzureReader (r_key r) (r_start r) (r_length r) (r_pos r) (closed_body <$> r_reader r)
               (r_attrs r) (r_closed r) in
    let size := match r_attrs r with None => r_length r | Some _ => rangeSize r end in
    let '(pos, length) :=
      if 0 <=? r_length r then
        let pos := if size <? pos then size else pos in (pos, wrap64 (size - pos))
      else (pos, -1) in
    if (length =? 0) && bool_decide (is_Some (r_attrs r)) then
      mret (None, mkAzureReader (r_key r) (r_start r) (r_length r) pos (Some empty_body) (r_attrs r) false)
    else
      o ← open (r_key r) (wrap64 (r_start r + pos)) length;
      mret match o with
           | Err e => (Some e, r)
           | Ok (reader, attrs) =>
             (None, mkAzureReader (r_key r) (r_start r) (r_length r) pos (Some reader) (Some attrs) false)
           end
  end.

Definition Seek {W} (open : opener W) (offset whence : Z) (r : azureReader) : M W (result Z * azureReader) :=
  let target :=
    if whence =? 0 then Some offset
    else if whence =? 1 then Some (wrap64 (r_pos r + offset))
    else if whence =? 2 then Some (wrap64 (rangeSize r + offset))
    else None in
  match target with
  | None => mret (Err ErrInvalidOption, r)
  | Some target =>
    if target <? 0 then mret (Err ErrInvalidOption, r)
    else
      '(err, r) ← reopen open target r;
      mret (match err with Some e => Err e | None => Ok target end, r)
  end.

Definition Close (r : azureReader) : option error * azureReader :=
  (r_reader r ≫= b_close,
   mkAzureReader (r_key r) (r_start r) (r_length r) (r_pos r) (closed_body <$> r_reader r) (r_attrs r) true).

Definition WriteTo (fuel : nat) (k : sink) (r : azureReader) : option (option error * sink * azureReader) :=
  io_Copy Read None fuel k r.

Definition ContentType (r : azureReader) : option string := a_ContentType <$> r_attrs r.
Definition ModTime (r : azureReader) : option Z := a_ModTime <$> r_attrs r.
Definition Size (r : azureReader) : option Z := a_Size <$> r_attrs r.

(** ** The writer

    Streaming: a pipe to an UploadStream.  Buffered, when the caller gave an MD5:
    the body is kept until [Close], which sends it in one Put Blob. *)
Record azureWriter (W : Type) := mkAzureWriter {
  w_client : client W;
  w_request : upload_request;
  w_before : hook;
  w_stream : option (uploader W sdk_error * pipe sdk_error);
  w_validateMD5 : option bytes;
  w_buf : bytes;
  w_closed : bool;
}.
Arguments mkAzureWriter {W} _ _ _ _ _ _ _.
Arguments w_client {W} _.
Arguments w_request {W} _.
Arguments w_before {W} _.
Arguments w_stream {W} _.
Arguments w_validateMD5 {W} _.
Arguments w_buf {W} _.
Arguments w_closed {W} _.

Section writer.
Context {W : Type}.
Implicit Types w : azureWriter W.

Definition set_stream (st : option (uploader W sdk_error * pipe sdk_error)) w : azureWriter W :=
  mkAzureWriter (w_client w) (w_request w) (w_before w) st (w_validateMD5 w) (w_buf w) (w_closed w).

Definition set_buf (buf : bytes) w : azureWriter W :=
  mkAzureWriter (w_client w) (w_request w) (w_before w) (w_stream w) (w_validateMD5 w) buf (w_closed w).

Definition set_closed w : azureWriter W :=
  mkAzureWriter (w_client w) (w_request w) (w_before w) (w_stream w) (w_validateMD5 w) (w_buf w) true.

Definition startStream (bufferSize concurrency : Z) w : result (azureWriter W) :=
  let q := w_request w in
  let streamOpts := mkUploadRequest (ur_name q) (ur_HTTPHeaders q) (ur_Metadata q) (ur_AccessConditions q)
    (if 0 <? bufferSize then Some bufferSize else None)
    (if 0 <? concurrency then Some concurrency else None) None in
  match run_hook (w_before w) with
  | Some e => Err e
  | None => Ok (set_stream (Some (UploadStream (w_client w) streamOpts, mkPipe "" None)) w)
  end.

(** The writers of the two paths; a writer has one of them. *)
Definition Write (p : bytes) w : M W (Z * option error * azureWriter W) :=
  if w_closed w then mret (0, Some (ErrOther "blobster azure: write after close"), w)
  else
    match w_validateMD5 w, w_stream w with
    | Some _, _ => mret (strlen p, None, set_buf (w_buf w +:+ p) w)
    | None, Some (up, pw) =>
      '(n, err, pw) ← pipe_Write ae_raw up p pw;
      mret (n, err, set_stream (Some (up, pw)) w)
    | None, None => mret (0, Some (ErrOther "nil pointer dereference"), w)
    end.

Definition ReadFrom (r : source) w : M W (option error * azureWriter W) :=
  if w_closed w then mret (Some (ErrOther "blobster azure: read from after close"), w)
  else
    match w_validateMD5 w, w_stream w with
    | Some _, _ => mret (s_err r, set_buf (w_buf w +:+ s_bytes r) w)
    | None, Some (up, pw) =>
      '(err, pw) ← pipe_ReadFrom ae_raw up r pw;
      mret (err, set_stream (Some (up, pw)) w)
    | None, None => mret (Some (ErrOther "nil pointer dereference"), w)
    end.

Definition commitBuffered (md5 : bytes) w : M W (option error) :=
  let q := w_request w in
  let uploadOpts := mkUploadRequest (ur_name q) (ur_HTTPHeaders q) (ur_Metadata q) (ur_AccessConditions q)
    None None (Some md5) in
  match run_hook (w_before w) with
  | Some e => mret (Some e)
  | None => e ← SdkUpload (w_client w) uploadOpts (w_buf w); mret (mapError <$> e)
  end.

Definition Writer_Close w : M W (option error * azureWriter W) :=
  if w_closed w then mret (None, w)
  else
    let w := set_closed w in
    match w_validateMD5 w, w_stream w with
    | Some md5, _ => e ← commitBuffered md5 w; mret (e, w)
    | None, Some (up, pw) => e ← pipe_finish up None pw; mret (mapError <$> e, w)
    | None, None => mret (Some (ErrOther "nil pointer dereference"), w)
    end.

Definition Writer_CloseWithError (cause : error) w : M W (option error * azureWriter W) :=
  if w_closed w then mret (None, w)
  else
    let w := set_closed w in
    match w_validateMD5 w, w_stream w with
    | Some _, _ => mret (None, w)
    | None, Some (up, pw) => _ ← pipe_finish up (Some cause) pw; mret (None, w)
    | None, None => mret (Some (ErrOther "nil pointer dereference"), w)
    end.
End writer.

(** ** Copies (azureblob/crosscopy.go) *)

Definition defaultCrossAccountSASExpiry : Z := Hour.
Definition defaultCopyPollInterval : Z := 200 * Millisecond.
Definition maxPollErrors : nat := 3.

(** What the world does during one round of the poll loop: [ctx.Err()] after a
    failed call, and how the wait ends ([None] is the timer). *)
Record poll_env := mkPollEnv {
  pe_cx : ctx;
  pe_sleep : option error;
}.

(** [pollCopyStatus]; the fuel is the number of rounds it is followed. *)
Fixpoint pollCopyStatus {W} (fuel : nat) (envs : nat → poll_env) (poll : M W (answer sdk_error Properties))
    (copyID : string) (pollErrors : nat) : M W outcome :=
  match fuel with
  | O => mret Waiting
  | S fuel =>
    a ← poll;
    match a with
    | Fail e =>
      let pollErrors := S pollErrors in
      match pe_cx (envs 0%nat) with
      | Some err => mret (Returned (Some err))
      | None =>
        if (maxPollErrors <=? pollErrors)%nat then mret (Returned (Some (mapError e)))
        else
          match pe_sleep (envs 0%nat) with
          | Some err => mret (Returned (Some err))
          | None => pollCopyStatus fuel (λ i, envs (S i)) poll copyID pollErrors
          end
      end
    | Ans props =>
      let status := deref (pr_CopyStatus props) in
      if bool_decide (status = "success") then mret (Returned None)
      else if bool_decide (status = "pending") then
        match pe_sleep (envs 0%nat) with
        | Some err => mret (Returned (Some err))
        | None => pollCopyStatus fuel (λ i, envs (S i)) poll copyID 0
        end
      else mret (Returned (Some (ErrOther ("blobster azure: copy " +:+ copyID +:+ ": status " +:+ status))))
    end
  end.

(** [clientCopier.copyBlob]. *)
Definition copyBlob {W} (fuel : nat) (envs : nat → poll_env) (cl : client W) (dstKey srcURL : string)
    (opts : option CopyOptions) : M W outcome :=
  let dst := escapeKey dstKey false in
  match before_copy opts with
  | Some e => mret (Returned (Some e))
  | None =>
    a ← StartCopyFromURL cl dst srcURL;
    match a with
    | Fail e => mret (Returned (Some (mapError e)))
    | Ans (status, copyID) =>
      if bool_decide (deref status = "success") then mret (Returned None)
      else pollCopyStatus fuel envs (GetProperties cl dst) (deref copyID) 0
    end
  end.

(** ** The backend *)

Record azureBackend (W : Type) := mkAzureBackend {
  b_client : client W;
  b_interval : Z;
  b_sasExpiry : Z;
}.
Arguments mkAzureBackend {W} _ _ _.
Arguments b_client {W} _.
Arguments b_interval {W} _.
Arguments b_sasExpiry {W} _.

Inductive Option_ :=
| WithPrefix (prefix : string)
| WithCopyPollInterval (d : Z)
| WithCrossAccountSASExpiry (d : Z).

Record options := mkOptions {
  op_prefix : string;
  op_copyInterval : Z;
  op_sasExpiry : Z;
}.

Definition apply_option (opts : options) (o : Option_) : options :=
  match o with
  | WithPrefix p => mkOptions p (op_copyInterval opts) (op_sasExpiry opts)
  | WithCopyPollInterval d => mkOptions (op_prefix opts) d (op_sasExpiry opts)
  | WithCrossAccountSASExpiry d => mkOptions (op_prefix opts) (op_copyInterval opts) d
  end.

Definition New {W} (cl : client W) (optFns : list Option_) : Remote.Bucket (azureBackend W) :=
  let opts := foldl apply_option (mkOptions "" defaultCopyPollInterval 0) optFns in
  let interval := if op_copyInterval opts <=? 0 then defaultCopyPollInterval else op_copyInterval opts in
  Remote.mkBucket (mkAzureBackend cl interval (op_sasExpiry opts)) (op_prefix opts).

Section backend.
Context {W : Type} `{!GoTables, !UpperTable, !UrlTable}.
Implicit Types b : azureBackend W.

Definition accountHost b : string :=
  match url_Host (ContainerURL (b_client b)) with None => "" | Some h => ToLower h end.

Definition sourceURL (cx : ctx) (now : Z) b (srcKey : string) (sameAccount : bool) : result string :=
  let src := escapeKey srcKey false in
  if sameAccount then Ok (BlobURL (b_client b) src)
  else
    match cx with
    | Some e => Err e
    | None =>
      let expiry := if b_sasExpiry b <=? 0 then defaultCrossAccountSASExpiry else b_sasExpiry b in
      match GetSASURL (b_client b) src (mkBlobPermissions true false false false) (now + expiry) with
      | Ans signed => Ok signed
      | Fail e => Err (mapError e)
      end
    end.

(** [crossCopy.run]. *)
Definition run (fuel : nat) (envs : nat → poll_env) (cx : ctx) (now : Z) (cl : client W) (src : azureBackend W)
    (dstKey srcKey : string) (sameAccount : bool) (opts : option CopyOptions) : M W outcome :=
  match sourceURL cx now src srcKey sameAccount with
  | Err e => mret (Returned (Some e))
  | Ok srcURL => copyBlob fuel envs cl dstKey srcURL opts
  end.

Definition Attributes_ b (key : string) : M W (result Attributes) :=
  let? resp := checked (GetProperties (b_client b) (escapeKey key false)) in
  mret (Ok (mkAttributes (deref (pr_CacheControl resp)) (deref (pr_ContentDisposition resp))
    (deref (pr_ContentEncoding resp)) (deref (pr_ContentLanguage resp)) (deref (pr_ContentType resp))
    (fromAzureMetadata (pr_Metadata resp)) (derefTime (pr_CreationTime resp)) (derefTime (pr_LastModified resp))
    (deref_int (pr_ContentLength resp)) (pr_ContentMD5 resp) (etagVersion (pr_ETag resp)) None)).

(** The closure of [newOpenReader] on the client of one blob: the key it is
    called with is not used. *)
Definition newOpenReader (cl : client W) (name : string) : opener W :=
  λ key offset length,
    let? resp := checked (DownloadStream cl name (azureRange offset length)) in
    let size := match totalFromContentRange (dr_ContentRange resp) with
                | Some total => total
                | None => deref_int (dr_ContentLength resp)
                end in
    mret (Ok (dr_Body resp,
      mkAttributes (deref (dr_CacheControl resp)) "" (deref (dr_ContentEncoding resp)) ""
        (deref (dr_ContentType resp)) (fromAzureMetadata (dr_Metadata resp)) zeroTime
        (derefTime (dr_LastModified resp)) size "" (etagVersion (dr_ETag resp)) None)).

(** [NewRangeReader]: the options [BeforeRead] is given are not the ones that are
    sent. *)
Definition NewRangeReader b (key : string) (offset length : Z) (opts : option ReaderOptions)
    : M W (result azureReader) :=
  match before_read opts with
  | Some e => mret (Err e)
  | None =>
    '(err, r) ← reopen (newOpenReader (b_client b) (escapeKey key false)) 0
                  (mkAzureReader key offset length 0 None None false);
    mret match err with Some e => Err e | None => Ok r end
  end.

Definition NewWriter b (key : string) (opts : WriterOptions) (pre : Preconditions)
    : M W (result (azureWriter W)) :=
  let headers := mkHTTPHeaders (nonempty (o_CacheControl opts)) (nonempty (o_ContentDisposition opts))
    (nonempty (o_ContentEncoding opts)) (nonempty (o_ContentLanguage opts)) (nonempty (o_ContentType opts)) in
  match toAzureMetadata (o_Metadata opts) with
  | Err e => mret (Err e)
  | Ok md =>
    let request := mkUploadRequest (escapeKey key false) headers md (modifiedConditions pre) None None None in
    if negb (bool_decide (strlen (o_ContentMD5 opts) = 0)) then
      mret (Ok (mkAzureWriter (b_client b) request (o_BeforeWrite opts) None (Some (o_ContentMD5 opts)) "" false))
    else
      mret (startStream (o_BufferSize opts) (o_MaxConcurrency opts)
        (mkAzureWriter (b_client b) request (o_BeforeWrite opts) None None "" false))
  end.

Definition UpdateMetadata b (key : string) (md : metadata) : M W (result string) :=
  match toAzureMetadata md with
  | Err e => mret (Err e)
  | Ok azmd =>
    let? etag := checked (SetMetadata (b_client b) (escapeKey key false) azmd) in
    mret (Ok (etagVersion etag))
  end.

Definition Delete b (key : string) (pre : Preconditions) : M W (result unit) :=
  e ← SdkDelete (b_client b) (escapeKey key false) (modifiedConditions pre);
  mret (of_error (mapError <$> e)).

Definition Copy (fuel : nat) (envs : nat → poll_env) b (dstKey srcKey : string) (opts : option CopyOptions)
    : M W outcome :=
  copyBlob fuel envs (b_client b) dstKey (BlobURL (b_client b) (escapeKey srcKey false)) opts.

Definition XCopyFrom (fuel : nat) (envs : nat → poll_env) (cx : ctx) (now : Z) b (dstKey : string)
    (src : option (azureBackend W)) (srcKey : string) (opts : option CopyOptions) : result (M W outcome) :=
  match src with
  | None => Err ErrUnsupported
  | Some srcBackend =>
    let sameAccount := bool_decide (accountHost b = accountHost srcBackend) in
    Ok (run fuel envs cx now (b_client b) srcBackend dstKey srcKey sameAccount opts)
  end.

Definition ListPage b (pageToken : bytes) (pageSize : Z) (opts : option ListOptions)
    : M W (result (list ListObject * bytes)) :=
  if bool_decide (strlen pageToken = 0) then mret (Err EOF)
  else
    let opts := default (mkListOptions "" "" None) opts in
    let pageSize := if pageSize <=? 0 then 1000 else pageSize in
    let marker := if bool_decide (pageToken = FirstPageToken) then None else Some pageToken in
    let maxResults := wrap32 pageSize in
    let escapedPrefix := nonempty (escapeKey (l_Prefix opts) true) in
    if negb (bool_decide (l_Delimiter opts = "")) then
      match run_hook (l_BeforeList opts) with
      | Some e => mret (Err e)
      | None =>
        let? resp := checked (ListBlobs (b_client b)
          (mkListRequest (Some (escapeKey (l_Delimiter opts) true)) escapedPrefix marker maxResults)) in
        let dirs := (λ p, mkListObject (unescapeKey (deref p)) zeroTime 0 "" true) <$> ls_BlobPrefixes resp in
        mret (Ok (dirs ++ (blobItemToObject <$> ls_BlobItems resp), nextMarker (ls_NextMarker resp)))
      end
    else
      match run_hook (l_BeforeList opts) with
      | Some e => mret (Err e)
      | None =>
        let? resp := checked (ListBlobs (b_client b) (mkListRequest None escapedPrefix marker maxResults)) in
        mret (Ok (blobItemToObject <$> ls_BlobItems resp, nextMarker (ls_NextMarker resp)))
      end.

Definition IsAccessible b : M W (result bool) :=
  e ← ContainerProperties (b_client b);
  mret match e with
       | None => Ok true
       | Some e => if Is (mapError e) ErrNotFound then Ok false else Err (mapError e)
       end.

(** [SignedURL]; [BeforeSign] is not called. *)
Definition SignedURL b (cx : ctx) (now : Z) (key : string) (opts : option SignedURLOptions) : result string :=
  match cx with
  | Some e => Err e
  | None =>
    let opts := default zeroSignedURLOptions opts in
    if negb (bool_decide (su_ContentType opts = "")) || su_EnforceAbsentContentType opts then Err ErrUnsupported
    else
      let expiry := if su_Expiry opts =? 0 then DefaultSignedURLExpiry else su_Expiry opts in
      let method := if bool_decide (su_Method opts = "") then "GET" else su_Method opts in
      match sasPermissions method with
      | Err e => Err e
      | Ok perms =>
        match GetSASURL (b_client b) (escapeKey key false) perms (now + expiry) with
        | Ans signed => Ok signed
        | Fail e => Err (mapError e)
        end
      end
  end.

Definition Capabilities_ : Capabilities := mkCapabilities true true true true true true true.

#[export] Instance azure_Backend (envs : nat → poll_env) (cx : ctx) (now : Z)
    : Backend W (azureBackend W) azureReader (azureWriter W) := {|
  be_Attributes := Attributes_;
  be_NewRangeReader := NewRangeReader;
  be_NewWriter := NewWriter;
  be_UpdateMetadata := UpdateMetadata;
  be_Delete := Delete;
  be_Copy fuel := Copy fuel envs;
  be_XCopyFrom fuel := XCopyFrom fuel envs cx now;
  be_ListPage := ListPage;
  be_IsAccessible := IsAccessible;
  be_SignedURL b cx now key opts := mret (SignedURL b cx now key opts);
  be_Capabilities _ := Capabilities_;
  rd_Read := Read;
  rd_Close r := fst (Close r);
  rd_WriteTo := WriteTo;
  wr_Write := Write;
  wr_ReadFrom := ReadFrom;
  wr_Close := Writer_Close;
  wr_CloseWithError := Writer_CloseWithError;
|}.
End backend.
End Azure.
