(* ===== verification/AzureTheorems.v ===== *)
(** * Theorems about the Azure driver: copies, readers, prefixes

    The poll loop of a copy, the range reader as the S3 driver's, what a listing
    by an escaped prefix returns, and the writer's two paths. *)
From S2P Require Import Prelude Strconv GoTime Md5 Core Effects Store Unicode NetUrl Remote RemoteTheorems RemoteStore S3Driver S3Theorems AzureKeys AzureDriver.

Module AzureT.
Import AzureKeys Azure.

#[local] Arguments String.append !_ _ / : simpl nomatch.

(** ** The poll loop of a copy *)

Section poll.
Context {W : Type} (poll : M W (answer sdk_error Properties)) (copyID : string).

(** The answer to the [n]-th poll from [w], and the state after it. *)
Fixpoint nth_poll (n : nat) (w : W) : answer sdk_error Properties * W :=
  match n with O => poll w | S n => nth_poll n (poll w).2 end.

Definition status_of (a : answer sdk_error Properties) : option string :=
  match a with Ans props => Some (deref (pr_CopyStatus props)) | Fail _ => None end.

Definition failed (a : answer sdk_error Properties) : bool := bool_decide (status_of a = None).

(** The failures in a row up to and including the [n]-th poll, with [e] of them
    before the first. *)
Fixpoint streak (e : nat) (n : nat) (w : W) : nat :=
  let e' := if failed (poll w).1 then S e else 0%nat in
  match n with O => e' | S n => streak e' n (poll w).2 end.

(** The [n]-th poll leaves the loop going: the copy is pending, or the poll
    failed and is not the third in a row to do so and no context has ended; and
    the wait before the next poll ends by the timer. *)
Definition continues (envs : nat → poll_env) (e n : nat) (w : W) : Prop :=
  match status_of (nth_poll n w).1 with
  | Some status => status = "pending"
  | None => pe_cx (envs n) = None ∧ (streak e n w < maxPollErrors)%nat
  end ∧ pe_sleep (envs n) = None.

(** What the loop returns at a poll that ends it. *)
Definition verdict (env : poll_env) (e : nat) (a : answer sdk_error Properties) : option error :=
  match a with
  | Ans props =>
    let status := deref (pr_CopyStatus props) in
    if bool_decide (status = "success") then None
    else if bool_decide (status = "pending") then pe_sleep env
    else Some (ErrOther ("blobster azure: copy " +:+ copyID +:+ ": status " +:+ status))
  | Fail err =>
    match pe_cx env with
    | Some c => Some c
    | None => if (maxPollErrors <=? e)%nat then Some (mapError err) else pe_sleep env
    end
  end.

Lemma poll_step fuel envs e w :
  continues envs e 0 w →
  pollCopyStatus (S fuel) envs poll copyID e w =
  pollCopyStatus fuel (λ i, envs (S i)) poll copyID (streak e 0 w) (poll w).2.
Proof.
  unfold continues. intros [Hs Hw]. cbn [pollCopyStatus nth_poll streak] in *.
  unfold failed in *. unfold mbind, M_bind. destruct (poll w) as [a w1]. cbn [fst snd] in *.
  destruct a as [props|err]; cbn [status_of] in *.
  - rewrite Hs, Hw. rewrite (bool_decide_false (Some _ = None)) by done.
    by rewrite (bool_decide_false ("pending" = "success")), (bool_decide_true ("pending" = "pending")) by done.
  - rewrite (bool_decide_true (None = None)) in * by done. destruct Hs as [-> Hm]. rewrite Hw.
    by rewrite (proj2 (Nat.leb_gt _ _)) by done.
Qed.

Lemma poll_end fuel envs e w :
  ¬ continues envs e 0 w →
  pollCopyStatus (S fuel) envs poll copyID e w =
  (Returned (verdict (envs 0%nat) (streak e 0 w) (poll w).1), (poll w).2).
Proof.
  unfold continues. intros Hs. cbn [pollCopyStatus nth_poll streak] in *.
  unfold failed in *. unfold mbind, M_bind. destruct (poll w) as [a w1]. cbn [fst snd] in *.
  destruct a as [props|err]; cbn [status_of verdict] in *.
  - case_bool_decide; [done|]. case_bool_decide; [|done]. by destruct (pe_sleep (envs 0%nat)); [|naive_solver].
  - rewrite (bool_decide_true (None = None)) in * by done.
    destruct (pe_cx (envs 0%nat)); [done|].
    destruct (maxPollErrors <=? S e)%nat eqn:El; [done|]. apply Nat.leb_gt in El.
    by destruct (pe_sleep (envs 0%nat)); [|naive_solver].
Qed.

Lemma continues_dec envs e n w : continues envs e n w ∨ ¬ continues envs e n w.
Proof.
  unfold continues. destruct (pe_sleep (envs n)); [naive_solver|]. destruct (status_of _) as [st|].
  - destruct (decide (st = "pending")); naive_solver.
  - destruct (pe_cx (envs n)); [naive_solver|]. destruct (decide (streak e n w < maxPollErrors)%nat); naive_solver.
Qed.

(** The loop returns at its first poll that does not leave it going, with that
    poll's verdict; if there is none among its rounds, it is still waiting. *)
Lemma poll_spec fuel envs e w :
  (∃ n, (n < fuel)%nat ∧ (∀ i, (i < n)%nat → continues envs e i w) ∧ ¬ continues envs e n w ∧
    pollCopyStatus fuel envs poll copyID e w =
    (Returned (verdict (envs n) (streak e n w) (nth_poll n w).1), (nth_poll n w).2)) ∨
  ((∀ i, (i < fuel)%nat → continues envs e i w) ∧ (pollCopyStatus fuel envs poll copyID e w).1 = Waiting).
Proof.
  revert envs e w. induction fuel as [|fuel IH]; intros envs e w; [right; split; [lia|done]|].
  destruct (continues_dec envs e 0 w) as [H0|H0].
  - rewrite poll_step by done.
    destruct (IH (λ i, envs (S i)) (streak e 0 w) (poll w).2) as [(n & Hn & Hall & Hend & E)|[Hall E]].
    + left. exists (S n). split_and!; [lia| |done|done]. intros [|i] Hi; [done|]. apply Hall. lia.
    + right. split; [|done]. intros [|i] Hi; [done|]. apply Hall. lia.
  - left. exists 0%nat. split_and!; [lia|lia|done|]. by apply poll_end.
Qed.

(** A verdict without an error is given by a success alone. *)
Lemma verdict_success envs e n w :
  ¬ continues envs e n w → verdict (envs n) (streak e n w) (nth_poll n w).1 = None →
  status_of (nth_poll n w).1 = Some "success".
Proof.
  unfold continues, verdict. intros Hc. destruct (nth_poll n w).1 as [props|err]; cbn [status_of] in *.
  - case_bool_decide as H1; [by rewrite H1|]. case_bool_decide; [naive_solver|done].
  - destruct (pe_cx (envs n)); [done|]. destruct (maxPollErrors <=? streak e n w)%nat eqn:El; [done|].
    apply Nat.leb_gt in El. naive_solver.
Qed.
End poll.

Section copy.
Context {W : Type} (cl : client W).

(** A copy succeeds exactly when Azure says so.  [copyBlob] returns without
    an error if and only if its hook did not object, the copy was started, and
    either the first answer was a success or the first poll that does not leave
    the loop going (a status other than pending, the third failed poll in a row,
    an ended context) reports a success; fewer failures in a row, and pending
    answers, are waited through. *)
Theorem azure_copy_succeeds_iff fuel envs dst src opts w w' :
  copyBlob fuel envs cl dst src opts w = (Returned None, w') ↔
  before_copy opts = None ∧
  ∃ status copyID w1, StartCopyFromURL cl (escapeKey dst false) src w = (Ans (status, copyID), w1) ∧
    let poll := GetProperties cl (escapeKey dst false) in
    (deref status = "success" ∧ w' = w1 ∨
     deref status ≠ "success" ∧ ∃ n, (n < fuel)%nat ∧ (∀ i, (i < n)%nat → continues poll envs 0 i w1) ∧
       status_of (nth_poll poll n w1).1 = Some "success" ∧ w' = (nth_poll poll n w1).2).
Proof.
  unfold copyBlob. set (name := escapeKey dst false). set (poll := GetProperties cl name).
  destruct (before_copy opts) as [e|]; [split; [by intros [=]|by intros [[=] _]]|].
  unfold mbind, M_bind. destruct (StartCopyFromURL cl name src w) as [[[status copyID]|e] w1].
  2: { split; [by intros [=]|]. intros (_ & st & id & w2 & [=] & _). }
  case_bool_decide as Hst.
  { split.
    - intros [= <-]. split; [done|]. exists status, copyID, w1. split; [done|]. by left.
    - intros (_ & st & id & w2 & [= <- <- <-] & [[_ ->]|[H _]]); done. }
  destruct (poll_spec poll (deref copyID) fuel envs 0 w1) as [(n & Hn & Hall & Hend & E)|[Hall E]].
  - fold poll. rewrite E. split.
    + intros [= Hv <-]. apply verdict_success in Hv; [|done]. split; [done|].
      exists status, copyID, w1. split; [done|]. right. split; [done|]. by exists n.
    + intros (_ & st & id & w2 & [= <- <- <-] & [[H _]|(_ & m & Hm & Hall' & Hs & ->)]); [done|].
      assert (¬ continues poll envs 0 m w1) as Hend'.
      { unfold continues. rewrite Hs. by intros [[=] _]. }
      assert (m = n) as ->.
      { destruct (Nat.lt_trichotomy m n) as [Hlt|[->|Hlt]]; [|done|]; [by apply Hall in Hlt|by apply Hall' in Hlt]. }
      do 2 f_equal. destruct (nth_poll poll n w1).1 as [props|err]; [|done]. cbn in *.
      injection Hs as Hs. by rewrite Hs.
  - fold poll. destruct (pollCopyStatus _ _ _ _ _ w1) as [r w2]. cbn in E. subst r. split; [by intros [=]|].
    intros (_ & st & id & w3 & [= <- <- <-] & [[H _]|(_ & m & Hm & _ & Hs & _)]); [done|].
    apply Hall in Hm. unfold continues in Hm. rewrite Hs in Hm. by destruct Hm as [[=] _].
Qed.

(** C27: a copy is not polled for ever.  If one of the polls settles it (a status
    other than pending, a third failure in a row, an ended context or wait), the
    call returns, at that poll at the latest. *)
Theorem azure_copy_terminates fuel envs dst src opts w status copyID w1 n :
  StartCopyFromURL cl (escapeKey dst false) src w = (Ans (status, copyID), w1) →
  let poll := GetProperties cl (escapeKey dst false) in
  (n < fuel)%nat → ¬ continues poll envs 0 n w1 →
  ∃ err w', copyBlob fuel envs cl dst src opts w = (Returned err, w').
Proof.
  intros E poll Hn Hset. unfold copyBlob. destruct (before_copy opts) as [e|]; [by eexists _, _|].
  rewrite (M_bind_run _ _ _ _ _ E). cbn beta iota. case_bool_decide; [by eexists _, _|].
  destruct (poll_spec poll (deref copyID) fuel envs 0 w1) as [(m & _ & _ & _ & Em)|[Hall _]].
  - unfold poll in Em. rewrite Em. by eexists _, _.
  - by apply Hall in Hn.
Qed.
End copy.

(** ** The range reader *)

(** The fields of an Azure reader, as an S3 reader. *)
Definition as_s3 (r : azureReader) : S3.s3Reader :=
  S3.mkS3Reader (r_key r) (r_start r) (r_length r) (r_pos r) (r_reader r) (r_attrs r) (r_closed r).

Section reader.
Context {W : Type} (open : opener W).

Lemma Read_equiv n r :
  r_closed r = false →
  S3.Read n (as_s3 r) = let '(p, err, r') := Read n r in (p, err, as_s3 r').
Proof.
  intros Hc. unfold S3.Read, Read. cbn. rewrite Hc. change (S3.rangeSize (as_s3 r)) with (rangeSize r).
  destruct (wrap64 (rangeSize r - r_pos r) <=? 0); [done|]. destruct (r_reader r) as [bd|]; [|done].
  destruct (body_Read _ bd) as [[p err] bd']. done.
Qed.

Lemma Read_open n r p err r' : r_closed r = false → Read n r = (p, err, r') → r_closed r' = false.
Proof.
  intros Hc. unfold Read. rewrite Hc. destruct (_ <=? 0); [by intros [= _ _ <-]|].
  destruct (r_reader r) as [bd|]; [|by intros [= _ _ <-]].
  destruct (body_Read _ bd) as [[q e] bd']. by intros [= _ _ <-].
Qed.

(** Reading to the end. *)
Lemma ReadAll_equiv fuel lens acc r :
  r_closed r = false →
  ReadAll_loop S3.Read fuel lens acc (as_s3 r) =
  (λ '(d, r'), (d, as_s3 r')) <$> ReadAll_loop Read fuel lens acc r.
Proof.
  revert lens acc r. induction fuel as [|fuel IH]; intros lens acc r Hc; [done|]. cbn [ReadAll_loop].
  rewrite Read_equiv by done. destruct (Read (lens 0%nat) r) as [[p [e|]] r'] eqn:E; [done|].
  apply IH. by eapply Read_open.
Qed.

Lemma reopen_equiv pos r w :
  S3.reopen open pos (as_s3 r) w = let '((err, r'), w') := reopen open pos r w in ((err, as_s3 r'), w').
Proof.
  unfold S3.reopen, reopen. cbn [as_s3 S3.r_key S3.r_start S3.r_length S3.r_pos S3.r_reader S3.r_attrs S3.r_closed].
  destruct (r_reader r ≫= b_close); [done|]. cbn zeta.
  change (S3.rangeSize _) with (rangeSize (mkAzureReader (r_key r) (r_start r) (r_length r) (r_pos r)
    (closed_body <$> r_reader r) (r_attrs r) (r_closed r))).
  cbn [r_key r_start r_length r_pos r_reader r_attrs r_closed].
  destruct (if 0 <=? r_length r then _ else _) as [pos' len]. destruct (_ && _); [done|].
  unfold mbind, M_bind. by destruct (open _ _ _ w) as [[[bd at']|e] w1].
Qed.

(** The Azure reader is the S3 reader.  On readers that are not closed, for
    the same opener, [Read], [Seek] in all its modes and errors, and [Close] of
    the two drivers give the same bytes, positions, errors and next readers. *)
Theorem azure_reader_equiv r n offset whence w :
  r_closed r = false →
  S3.Read n (as_s3 r) = (let '(p, err, r') := Read n r in (p, err, as_s3 r')) ∧
  S3.Seek open offset whence (as_s3 r) w =
    (let '((res, r'), w') := Seek open offset whence r w in ((res, as_s3 r'), w')) ∧
  S3.Close (as_s3 r) = (let '(err, r') := Close r in (err, as_s3 r')).
Proof.
  intros Hc. split_and!; [by apply Read_equiv| |done].
  unfold S3.Seek, Seek. change (S3.rangeSize (as_s3 r)) with (rangeSize r). cbn [as_s3 S3.r_pos].
  destruct (if whence =? 0 then _ else _) as [target|]; [|done]. destruct (target <? 0); [done|].
  unfold mbind, M_bind. rewrite reopen_equiv. destruct (reopen open target r w) as [[[e|] r'] w']; done.
Qed.
End reader.

(** ** Listings by prefix *)

(** A prefix that does not stop in the middle of what could be an escape
    sequence. *)
Definition whole_runes (l : list rune) : Prop :=
  ∀ pre, l ≠ pre ++ [95] ∧ l ≠ pre ++ [95; 95] ∧ l ≠ pre ++ [95; 95; 48].

Lemma whole_cons c l : whole_runes (c :: l) → whole_runes l.
Proof. intros H pre. destruct (H (c :: pre)) as (H1 & H2 & H3). split_and!; intros ->; [by apply H1|by apply H2|by apply H3]. Qed.

Section prefix.
Context (sp sk : list rune → nat → bool) (rp rk : list rune).

(** A rune of the prefix is not cut out of an escape sequence of the key. *)
Lemma kept_not_in_escape i c l' d t :
  no_marker (c :: l') → whole_runes (c :: l') → sp rp i = false →
  ¬ out_runes sp rp i (c :: l') `prefix_of` esc_runes d ++ t.
Proof.
  intros Hno Hw Hk Hpre.
  unfold esc_runes, marker in Hpre. rewrite <- !app_assoc in Hpre. cbn [app] in Hpre.
  cbn [out_runes] in Hpre. rewrite Hk in Hpre. cbn [app] in Hpre.
  apply prefix_cons_inv_1 in Hpre as Ec. apply prefix_cons_inv_2 in Hpre. subst c.
  destruct l' as [|c1 l']; [by destruct (Hw []) as (H & _)|]. cbn [out_runes] in Hpre.
  destruct (sp rp (S i)).
  { destruct (esc_head c1) as [u Eu]. rewrite Eu in Hpre. cbn [app] in Hpre.
    apply prefix_cons_inv_2 in Hpre. apply prefix_cons_inv_1 in Hpre. done. }
  cbn [app] in Hpre. apply prefix_cons_inv_1 in Hpre as Ec. apply prefix_cons_inv_2 in Hpre. subst c1.
  destruct l' as [|c2 l']; [by destruct (Hw []) as (_ & H & _)|]. cbn [out_runes] in Hpre.
  destruct (sp rp (S (S i))).
  { destruct (esc_head c2) as [u Eu]. rewrite Eu in Hpre. by apply prefix_cons_inv_1 in Hpre. }
  cbn [app] in Hpre. apply prefix_cons_inv_1 in Hpre as Ec. apply prefix_cons_inv_2 in Hpre. subst c2.
  destruct l' as [|c3 l']; [by destruct (Hw []) as (_ & _ & H)|]. cbn [out_runes] in Hpre.
  destruct (sp rp (S (S (S i)))).
  { destruct (esc_head c3) as [u Eu]. rewrite Eu in Hpre. by apply prefix_cons_inv_1 in Hpre. }
  cbn [app] in Hpre. apply prefix_cons_inv_1 in Hpre as Ec. subst c3.
  apply Hno. by exists [], l'.
Qed.

(** If the escaped prefix is a prefix of the escaped key, the prefix is one of
    the key. *)
Lemma out_runes_prefix i p k :
  Forall valid_rune p → Forall valid_rune k → no_marker p → no_marker k → whole_runes p →
  out_runes sp rp i p `prefix_of` out_runes sk rk i k → p `prefix_of` k.
Proof.
  intros Hp. revert i k. induction Hp as [|c p Hc Hp IH]; intros i k Hk Hnp Hnk Hw Hpre; [apply prefix_nil|].
  destruct Hk as [|d k Hd Hk].
  { cbn [out_runes] in Hpre. destruct (esc_head c) as [t Et]. rewrite Et in Hpre.
    apply prefix_nil_inv in Hpre. by destruct (sp rp i). }
  assert (∀ x, x ++ out_runes sp rp (S i) p `prefix_of` x ++ out_runes sk rk (S i) k → c = d →
    c :: p `prefix_of` d :: k) as Hgo.
  { intros x Hx ->. apply prefix_cons. apply (IH (S i)); [done|by eapply no_marker_cons..|by eapply whole_cons|].
    by apply prefix_app_inv in Hx. }
  cbn [out_runes] in Hpre. destruct (sp rp i) eqn:Ep, (sk rk i) eqn:Ek.
  - destruct Hpre as [z Ez].
    pose proof (unescapeRune_esc d (out_runes sk rk (S i) k) Hd) as Hu1.
    pose proof (unescapeRune_esc c (out_runes sp rp (S i) p ++ z) Hc) as Hu2.
    rewrite app_assoc, <- Ez, Hu1 in Hu2. assert (d = c) as -> by congruence.
    apply (Hgo (esc_runes c)); [|done]. exists z. by rewrite Ez.
  - destruct Hpre as [z Ez]. cbn [app] in Ez.
    pose proof (unescapeRune_kept sk rk (S i) d k Hnk) as Hu1.
    pose proof (unescapeRune_esc c (out_runes sp rp (S i) p ++ z) Hc) as Hu2.
    rewrite app_assoc, <- Ez, Hu1 in Hu2. done.
  - exfalso. apply (kept_not_in_escape i c p d (out_runes sk rk (S i) k) Hnp Hw Ep). cbn [out_runes]. by rewrite Ep.
  - cbn [app] in Hpre. apply prefix_cons_inv_1 in Hpre as Ec. by apply (Hgo [c]); subst.
Qed.
End prefix.

Lemma runes_app_utf8 rs s : Forall valid_rune rs → runes (string_of_runes rs +:+ s) = rs ++ runes s.
Proof.
  induction 1 as [|r rs Hr _ IH]; [done|]. cbn [string_of_runes app].
  by rewrite string_app_assoc, runes_cons, IH.
Qed.

Lemma no_marker_runes s : utf8 s → Contains s "__0x" = false → no_marker (runes s).
Proof.
  intros Hu Hc (pre & post & E). destruct (string_of_runes_runes s Hu) as [Hs _]. rewrite E in Hs.
  rewrite <- Hs, Contains_marker in Hc. done.
Qed.

(** Keys the escape scheme keeps apart. *)
Definition plain_key (k : string) : Prop := utf8 k ∧ Contains k "__0x" = false.

(** Prefixes it matches exactly. *)
Definition plain_prefix (p : string) : Prop := plain_key p ∧ whole_runes (runes p).

(** The escaped prefix selects only keys with the prefix. *)
Lemma prefix_exact p k :
  plain_prefix p → plain_key k →
  HasPrefix (escapeKey k false) (escapeKey p true) = true → HasPrefix k p = true.
Proof.
  intros [[Hpu Hpc] Hw] [Hku Hkc] [r Hr]%HasPrefix_spec.
  destruct (string_of_runes_runes p Hpu) as [Hps Hpv]. destruct (string_of_runes_runes k Hku) as [Hks Hkv].
  unfold escapeKey in Hr. rewrite !hexEscape_string in Hr by done. apply (f_equal runes) in Hr.
  rewrite runes_app_utf8, runes_string_of_runes in Hr by (by apply out_runes_valid).
  assert (runes p `prefix_of` runes k) as [z Ez].
  { eapply (out_runes_prefix (key_escape true) (key_escape false) (runes p) (runes k) 0); try done.
    - by apply no_marker_runes.
    - by apply no_marker_runes.
    - by eexists. }
  apply HasPrefix_spec. exists (string_of_runes z). by rewrite <- Hks, Ez, string_of_runes_app, Hps.
Qed.

(** A listing by an escaped prefix returns only keys with the prefix, when
    the prefix does not end in the middle of what could be an escape sequence
    (with an underscore, or two and a zero). *)
Theorem azure_prefix_exact p k :
  plain_prefix p → plain_key k →
  HasPrefix (escapeKey k false) (escapeKey p true) = true → HasPrefix k p = true.
Proof. apply prefix_exact. Qed.

(** With a prefix that ends with an underscore it is not so: a listing by [t_]
    returns the key [t?], which is stored as [t__0x3f__]; a bucket [Sub("t_")]
    lists an object that is not its own. *)
Theorem azure_prefix_leaks :
  HasPrefix (escapeKey "t?" false) (escapeKey "t_" true) = true ∧ HasPrefix "t?" "t_" = false.
Proof. split; vm_compute; reflexivity. Qed.
End AzureT.
