(* ===== verification/AzureStore.v ===== *)
(** * The Azure driver implements the store

    Azure keeps blobs under escaped names, with escaped metadata.  [decode] is
    the store a container is to the callers of the driver; the documented
    behaviour of the service on its blobs gives the promise of [BackendLaws] on
    the decoded store, and with it the refinement. *)
From S2P Require Import Prelude Strconv GoTime Md5 Core Effects Store Unicode NetUrl Remote RemoteTheorems RemoteStore S3Driver S3Theorems AzureKeys AzureDriver AzureTheorems.

Module AzureS.
Import AzureKeys Azure AzureT.

#[local] Arguments String.append !_ _ / : simpl nomatch.

(** ** The store a container is *)

Section decode.
Context `{!GoTables}.

(** Metadata as the SDK has them: a map to pointers. *)
Definition up (md : metadata) : option (gmap string (option string)) := (λ m : gmap string string, Some <$> m) <$> md.
Definition down (az : option (gmap string (option string))) : metadata :=
  (λ m : gmap string (option string), default "" <$> m) <$> az.

Definition decode_obj (o : sobject) : sobject :=
  mkSobject (so_data o) (fromAzureMetadata (up (so_meta o))) (so_version o).

Definition decode_objs (m : gmap string sobject) : gmap string sobject :=
  list_to_map ((λ e, (unescapeKey e.1, decode_obj e.2)) <$> map_to_list m).

Definition decode (s : store) : store := mkStore (decode_objs (objs s)) (used s).

(** A blob name that is the name of a key. *)
Definition key_name (n : string) : Prop := ∃ k, plain_key k ∧ n = escapeKey k false.

Definition canonical (m : gmap string sobject) : Prop := ∀ n o, m !! n = Some o → key_name n.

Lemma unescape_key k : plain_key k → unescapeKey (escapeKey k false) = k.
Proof. intros [??]. by apply hexUnescape_Escape. Qed.

Lemma escape_inj k1 k2 : plain_key k1 → plain_key k2 → escapeKey k1 false = escapeKey k2 false → k1 = k2.
Proof. intros H1 H2 E. by rewrite <- (unescape_key k1), <- (unescape_key k2), E. Qed.

Lemma decode_keys_NoDup m :
  canonical m → NoDup ((λ e, (unescapeKey e.1, decode_obj e.2)) <$> map_to_list m).*1.
Proof.
  intros Hm. rewrite <- list_fmap_compose. cbn.
  assert (((λ e, unescapeKey e.1) : string * sobject → string) <$> map_to_list m = unescapeKey <$> (map_to_list m).*1) as Heq
    by (by rewrite <- list_fmap_compose).
  change (NoDup (((λ e, unescapeKey e.1) : string * sobject → string) <$> map_to_list m)). rewrite Heq.
  apply NoDup_fmap_2_strong; [|apply NoDup_fst_map_to_list].
  assert (∀ n, n ∈ (map_to_list m).*1 → key_name n) as Hn.
  { intros n ((n' & o) & -> & Ho)%list_elem_of_fmap. apply elem_of_map_to_list in Ho. by eapply Hm. }
  intros x y (k & Hk & ->)%Hn (k' & Hk' & ->)%Hn. rewrite !unescape_key by done. by intros ->.
Qed.

(** A key of the decoded store is a blob under the key's name. *)
Lemma decode_lookup_Some m k o :
  canonical m →
  decode_objs m !! k = Some o ↔ plain_key k ∧ ∃ o', m !! escapeKey k false = Some o' ∧ o = decode_obj o'.
Proof.
  intros Hm. unfold decode_objs. split.
  - intros ((n & o') & [= -> ->] & Hin)%elem_of_list_to_map_2%list_elem_of_fmap.
    apply elem_of_map_to_list in Hin. destruct (Hm _ _ Hin) as (k & Hk & ->). cbn. rewrite unescape_key by done.
    split; [done|]. by exists o'.
  - intros (Hk & o' & Ho & ->). apply elem_of_list_to_map_1; [by apply decode_keys_NoDup|].
    apply list_elem_of_fmap. exists (escapeKey k false, o'). cbn. rewrite unescape_key by done. split; [done|].
    by apply elem_of_map_to_list.
Qed.

Lemma decode_lookup m k :
  canonical m → plain_key k → decode_objs m !! k = decode_obj <$> m !! escapeKey k false.
Proof.
  intros Hm Hk. apply option_eq. intros o. rewrite decode_lookup_Some by done. rewrite fmap_Some. naive_solver.
Qed.

Lemma decode_insert m k o :
  canonical m → plain_key k →
  decode_objs (<[escapeKey k false := o]> m) = <[k := decode_obj o]> (decode_objs m).
Proof.
  intros Hm Hk. assert (canonical (<[escapeKey k false := o]> m)) as Hm'.
  { intros n o' [[<- _]|[_ Ho]]%lookup_insert_Some; [by exists k|by eapply Hm]. }
  apply map_eq. intros k'. apply option_eq. intros o'. rewrite decode_lookup_Some, lookup_insert_Some by done.
  rewrite decode_lookup_Some by done. setoid_rewrite lookup_insert_Some. split.
  - intros (Hk' & o1 & [[E ->]|[Hne Ho]] & ->); [left|right].
    + split; [|done]. by apply escape_inj.
    + split; [by intros ->|]. eauto.
  - intros [[-> <-]|(Hne & Hk' & o1 & Ho & ->)].
    + split; [done|]. exists o. auto.
    + split; [done|]. exists o1. split; [|done]. right. split; [|done]. intros E. apply Hne. by apply escape_inj.
Qed.

Lemma decode_delete m k :
  canonical m → plain_key k → decode_objs (delete (escapeKey k false) m) = delete k (decode_objs m).
Proof.
  intros Hm Hk. assert (canonical (delete (escapeKey k false) m)) as Hm'.
  { intros n o' [_ Ho]%lookup_delete_Some. by eapply Hm. }
  apply map_eq. intros k'. apply option_eq. intros o'. rewrite decode_lookup_Some, lookup_delete_Some by done.
  rewrite decode_lookup_Some by done. setoid_rewrite lookup_delete_Some. split.
  - intros (Hk' & o1 & [Hne Ho] & ->). split; [by intros ->|]. eauto.
  - intros (Hne & Hk' & o1 & Ho & ->). split; [done|]. exists o1. split; [|done]. split; [|done].
    intros E. apply Hne. by apply escape_inj.
Qed.

Lemma decode_version s k :
  canonical (objs s) → plain_key k → version_at (decode s) k = version_at s (escapeKey k false).
Proof.
  intros Hm Hk. unfold version_at. cbn. rewrite decode_lookup by done. by destruct (objs s !! _).
Qed.

(** A rule on tokens, on the blobs of the container. *)
Definition raw_rule (rule : token_rule) : token_rule := λ s d v, rule (decode s) d v.

Lemma decode_put rule s k d md s' :
  canonical (objs s) → plain_key k → gput (raw_rule rule) s (escapeKey k false) d md s' →
  gput rule (decode s) k d (fromAzureMetadata (up md)) (decode s').
Proof.
  intros Hm Hk (v & Hr & ->). exists v. split; [done|]. unfold decode. cbn. f_equal. by apply decode_insert.
Qed.

Lemma decode_write rule k d md c s r s' :
  canonical (objs s) → plain_key k → gwrite_spec (raw_rule rule) (escapeKey k false) d md c s r s' →
  gwrite_spec rule k d (fromAzureMetadata (up md)) c (decode s) r (decode s').
Proof.
  intros Hm Hk. unfold gwrite_spec. rewrite decode_version by done. destruct r as [|e].
  - intros [Hh Hp]. split; [done|]. by apply decode_put.
  - intros [[-> Hs]|(Ho & Hh & Hp)]; [by left|right]. split_and!; try done. by apply decode_put.
Qed.

Lemma decode_delete_spec k c s r s' :
  canonical (objs s) → plain_key k → delete_spec (escapeKey k false) c s r s' →
  delete_spec k c (decode s) r (decode s').
Proof.
  intros Hm Hk. unfold delete_spec. rewrite decode_version by done. cbn. rewrite decode_lookup by done.
  assert (∀ s', s' = mkStore (delete (escapeKey k false) (objs s)) (used s) →
    decode s' = mkStore (delete k (decode_objs (objs s))) (used s)) as Hd.
  { intros s'' ->. unfold decode. cbn. f_equal. by apply decode_delete. }
  destruct r as [|e].
  - intros ([o Ho] & Hh & E%Hd). split_and!; [|done|done]. rewrite Ho. by eexists.
  - intros [[-> Hs]|(Ho & Hh & E%Hd)]; [left|right; done]. split; [done|].
    destruct Hs as [?|[Hs|?]]; [by left|right; left; by rewrite Hs|by right; right].
Qed.

(** ** Metadata *)

(** Metadata the driver keeps as they are. *)
Definition plain_md (md : metadata) : Prop :=
  match md with None => True | Some m => m ≠ ∅ ∧ ∀ k, is_Some (m !! k) → plain_name k end.

Lemma to_entries_values es out r :
  to_entries es out = Ok r → (∀ k, out !! k ≠ Some None) → ∀ k, r !! k ≠ Some None.
Proof.
  revert out. induction es as [|[k v] es IH]; intros out; cbn; [by intros [= ->]|].
  destruct (out !! escapeMetadataKey k); [done|]. intros E Ho. eapply IH; [exact E|].
  intros k2 [[_ [=]]|[_ Hk2]]%lookup_insert_Some. by apply (Ho k2).
Qed.

Lemma plain_md_back md :
  plain_md md → ∃ az, toAzureMetadata md = Ok az ∧ up (down az) = az ∧ fromAzureMetadata az = md.
Proof.
  destruct md as [m|]; [|intros _; by exists None]. intros [Hne Hk].
  destruct (metadata_back m Hne Hk) as (out & E & Hb). exists (Some out). split_and!; [done| |done].
  cbn in E. rewrite bool_decide_false in E by done. destruct (to_entries _ ∅) as [r|] eqn:Et; [|done].
  cbn in E. injection E as ->. cbn. f_equal. rewrite <- map_fmap_compose. apply map_eq. intros k.
  rewrite lookup_fmap. pose proof (to_entries_values _ _ _ Et ltac:(intros; by rewrite lookup_empty) k) as Hv.
  destruct (out !! k) as [[v|]|]; cbn; [done|done|done].
Qed.
End decode.

(** ** The service

    What the documentation of Azure Blob Storage says about the calls the driver
    makes, for a container whose blobs are [raw w], which are not leased, have no
    snapshots and no immutability policy, and were written by the driver. *)

Definition says_missing (e : sdk_error) : Prop :=
  (∃ c, ae_code e = Some c ∧ c ∈ ["BlobNotFound"; "ContainerNotFound"]) ∨ ae_status e = Some 404.

Definition says_conflict (e : sdk_error) : Prop :=
  (∃ c, ae_code e = Some c ∧ c ∈ ["ConditionNotMet"; "BlobAlreadyExists"]) ∨
  ae_status e = Some 412 ∨ ae_status e = Some 409.

Definition says_neither (e : sdk_error) : Prop := ¬ says_missing e ∧ ¬ says_conflict e.

(** The access conditions against the entity tag of the blob, if any. *)
Definition conditions_met (conds : option AccessConditions) (cur : option string) : bool :=
  match conds with
  | None => true
  | Some c =>
    match ac_IfMatch c with
    | None => true
    | Some h => if bool_decide (h = "*") then bool_decide (is_Some cur) else bool_decide (cur = Some h)
    end &&
    match ac_IfNoneMatch c with
    | None => true
    | Some h => if bool_decide (h = "*") then bool_decide (cur = None) else negb (bool_decide (cur = Some h))
    end
  end.

(** Tokens a caller may have got from the driver: no entity tag is an asterisk. *)
Definition token_pre (c : Preconditions) : Prop := p_IfMatch c ≠ "*" ∧ p_IfNotMatch c ≠ "*".

(** The request an HTTP range of the SDK is. *)
Definition req_of (h : HTTPRange) : S3T.range_req :=
  if (hr_Offset h =? 0) && (hr_Count h =? 0) then S3T.RAll
  else if hr_Count h =? 0 then S3T.RFrom (hr_Offset h)
  else S3T.RBetween (hr_Offset h) (hr_Offset h + hr_Count h - 1).

Section service.
Context {W : Type} `{!GoTables} (cl : client W) (raw : W → store) (rule : token_rule).

Definition failed_read (name : string) (s : store) (e : sdk_error) : Prop :=
  other_error (ae_raw e) ∧ (says_missing e → objs s !! name = None) ∧ ¬ says_conflict e.

(** Metadata come back as they were stored, up to the case of their names. *)
Record azure_laws : Prop := {
  law_names w : canonical (objs (raw w));
  law_size w n o : objs (raw w) !! n = Some o → strlen (so_data o) ≤ int64_max;
  law_properties name w a w' :
    GetProperties cl name w = (a, w') →
    raw w' = raw w ∧
    match a with
    | Fail e => failed_read name (raw w) e
    | Ans out => ∃ o, objs (raw w) !! name = Some o ∧ pr_ETag out = Some (so_version o) ∧
        fromAzureMetadata (pr_Metadata out) = fromAzureMetadata (up (so_meta o))
    end;
  law_download name h w a w' :
    0 ≤ hr_Offset h → 0 ≤ hr_Count h → DownloadStream cl name h w = (a, w') →
    raw w' = raw w ∧
    match a with
    | Fail e => failed_read name (raw w) e
    | Ans out => ∃ o, objs (raw w) !! name = Some o ∧ S3T.satisfiable (so_data o) (req_of h) ∧
        dr_ContentRange out = (S3T.served (so_data o) (req_of h)).2 ∧
        dr_ContentLength out = Some (strlen (S3T.served (so_data o) (req_of h)).1) ∧
        sends (dr_Body out) (S3T.served (so_data o) (req_of h)).1
    end;
  law_stream q :
    key_name (ur_name q) → up (down (ur_Metadata q)) = ur_Metadata q →
    upload_law raw (raw_rule rule) ae_raw says_neither (UploadStream cl q) (ur_name q) (down (ur_Metadata q))
      (conditions_met (ur_AccessConditions q));
  law_upload q d w a w' :
    key_name (ur_name q) → up (down (ur_Metadata q)) = ur_Metadata q → SdkUpload cl q d w = (a, w') →
    put_law raw (raw_rule rule) ae_raw says_neither (ur_name q) d (down (ur_Metadata q))
      (conditions_met (ur_AccessConditions q)) w a w';
  law_delete name conds w a w' :
    SdkDelete cl name conds w = (a, w') →
    let allowed := conditions_met conds (version_at (raw w) name) in
    let gone := mkStore (delete name (objs (raw w))) (used (raw w)) in
    match a with
    | None => is_Some (objs (raw w) !! name) ∧ allowed = true ∧ raw w' = gone
    | Some e => other_error (ae_raw e) ∧
        ((raw w' = raw w ∧ (says_neither e ∨ allowed = false ∨ objs (raw w) !! name = None)) ∨
         (says_neither e ∧ allowed = true ∧ raw w' = gone))
    end;
  law_list q w a w' :
    ListBlobs cl q w = (a, w') →
    raw w' = raw w ∧
    ∀ out x, a = Ans out → x ∈ ls_BlobItems out →
      HasPrefix (deref (bi_Name x)) (deref (lr_Prefix q)) = true ∧
      is_Some (objs (raw w) !! deref (bi_Name x));
}.
End service.

(** ** Errors and conditions *)

Lemma azure_mapError_sound e :
  other_error (ae_raw e) →
  (Is (mapError e) ErrNotFound = true → says_missing e) ∧
  (Is (mapError e) ErrPreconditionFailed = true → says_conflict e).
Proof.
  intros Ho.
  pose proof (Is_missing (ae_raw e) (says_missing e) (says_conflict e) Ho) as Hmiss.
  pose proof (Is_conflict (ae_raw e) (says_missing e) (says_conflict e) Ho) as Hconf.
  pose proof (Is_other (ae_raw e) (says_missing e) (says_conflict e) Ho) as Hraw.
  unfold mapError. unfold says_missing, says_conflict in *. destruct (ae_code e) as [c|].
  1: case_bool_decide; [apply Hmiss; eauto|]; case_bool_decide; [apply Hconf; eauto|].
  all: destruct (ae_status e) as [st|]; [|done].
  all: case_bool_decide; [subst st; apply Hmiss; eauto|].
  all: case_bool_decide as Hst; [|done]; apply Hconf; destruct Hst; subst st; eauto.
Qed.

Lemma azure_mapError_neither e : other_error (ae_raw e) → says_neither e → other_error (mapError e).
Proof. intros Ho [Hm Hc]. destruct (azure_mapError_sound e Ho). split; apply not_true_is_false; naive_solver. Qed.

Lemma azure_failed_read_error name s e : failed_read name s e → other_error (mapError e) ∨ objs s !! name = None.
Proof.
  intros (Ho & Hm & Hc). destruct (azure_mapError_sound e Ho) as [H1 H2].
  destruct (Is (mapError e) ErrNotFound) eqn:E; [right; auto|left]. split; [done|].
  apply not_true_is_false. naive_solver.
Qed.

(** The access conditions of a request say what the precondition says. *)
Lemma conditions_holds c cur : token_pre c → conditions_met (modifiedConditions c) cur = holds c cur.
Proof.
  intros [Hm Hn]. unfold modifiedConditions, holds. destruct (p_IfNotExists c).
  { cbn. destruct cur; naive_solver. }
  case_bool_decide as H1; cbn [negb].
  - case_bool_decide as H2; cbn [negb]; [done|]. cbn. by rewrite (bool_decide_false (_ = "*")) by done.
  - cbn. rewrite (bool_decide_false (_ = "*")) by done. by rewrite andb_true_r.
Qed.

Lemma azureRange_req off len :
  0 ≤ off → 0 ≤ hr_Offset (azureRange off len) ∧ 0 ≤ hr_Count (azureRange off len) ∧
    req_of (azureRange off len) = S3T.req_for off len.
Proof.
  intros Ho. unfold azureRange, S3T.req_for, req_of.
  destruct (Z.leb_spec off 0), (Z.ltb_spec len 0); cbn [andb hr_Offset hr_Count]; try done.
  - destruct (Z.eqb_spec len 0) as [->|Hne]; cbn [andb hr_Offset hr_Count].
    + split_and!; [lia..|]. cbn. rewrite andb_false_r. f_equal. lia.
    + split_and!; [lia..|]. rewrite (proj2 (Z.eqb_neq len 0)) by done. by rewrite andb_false_r.
  - split_and!; [lia..|]. by rewrite (proj2 (Z.eqb_neq off 0)) by lia.
  - destruct (Z.eqb_spec len 0) as [->|Hne]; cbn [andb hr_Offset hr_Count].
    + split_and!; [lia..|]. cbn. rewrite andb_false_r. f_equal. lia.
    + split_and!; [lia..|]. rewrite (proj2 (Z.eqb_neq len 0)) by done. by rewrite andb_false_r.
Qed.

(** ** The backend keeps its promise *)

Section backend_laws.
Context {W : Type} `{!GoTables, !UpperTable, !UrlTable} (cl : client W) (interval sasExpiry : Z).
Context (envs : nat → poll_env) (cx : ctx) (now : Z).
Context (raw : W → store) (rule : token_rule) (Hlaws : azure_laws cl raw rule).
Let b : azureBackend W := mkAzureBackend cl interval sasExpiry.
Let view (w : W) : store := decode (raw w).

Lemma view_lookup w key : plain_key key → objs (view w) !! key = decode_obj <$> objs (raw w) !! escapeKey key false.
Proof. intros Hk. apply decode_lookup; [apply (law_names _ _ _ Hlaws)|done]. Qed.

Lemma failed_view key w e :
  plain_key key → failed_read (escapeKey key false) (raw w) e →
  other_error (mapError e) ∨ objs (view w) !! key = None.
Proof.
  intros Hk [?|Hn]%azure_failed_read_error; [by left|right]. by rewrite view_lookup, Hn.
Qed.

Lemma azure_attributes_law key w r w' :
  plain_key key → Attributes_ b key w = (r, w') →
  view w' = view w ∧ read_spec key (λ o a, a_Version a = so_version o ∧ a_Metadata a = so_meta o) (view w) r.
Proof.
  intros Hk. unfold Attributes_, checked, try_, mbind, M_bind. cbn [b_client b].
  destruct (GetProperties cl (escapeKey key false) w) as [a w1] eqn:E.
  apply (law_properties _ _ _ Hlaws) in E as [Hv Ha].
  destruct a as [out|e]; cbn; intros [= <- <-]; (split; [unfold view; by rewrite Hv|]).
  - destruct Ha as (o & Hobj & Het & Hmd). exists (decode_obj o). cbn.
    change (decode_objs (objs (raw w))) with (objs (view w)).
    rewrite view_lookup, Hobj by done. by rewrite Het, Hmd.
  - by apply failed_view.
Qed.

(** What an attempt to open a range gives, failures included. *)
Lemma open_spec key k off len w r w' :
  plain_key key → 0 ≤ off ≤ int64_max → off + len ≤ int64_max →
  newOpenReader cl (escapeKey key false) k off len w = (r, w') →
  view w' = view w ∧
  match r with
  | Err e => other_error e ∨ objs (view w) !! key = None
  | Ok (bd, attrs) => ∃ o, objs (view w) !! key = Some o ∧ strlen (so_data o) ≤ int64_max ∧
      (off < strlen (so_data o) ∨ off = 0 ∧ len < 0) ∧
      a_Size attrs = strlen (so_data o) ∧ (len ≠ 0 → sends bd (range_of (so_data o) off len))
  end.
Proof.
  intros Hk Ho Hs. destruct (S3T.req_for_spec off len Ho Hs) as [_ Hdata].
  destruct (azureRange_req off len ltac:(lia)) as (A1 & A2 & Hreq).
  unfold newOpenReader, checked, try_, mbind, M_bind.
  destruct (DownloadStream cl (escapeKey key false) (azureRange off len) w) as [a w1] eqn:E.
  apply (law_download _ _ _ Hlaws) in E as [Hv Ha]; [|done..]. rewrite Hreq in Ha.
  destruct a as [out|e]; cbn; intros [= <- <-]; (split; [unfold view; by rewrite Hv|]).
  - destruct Ha as (o & Hobj & Hsat & Hcr & Hcl & Hbody).
    destruct (Hdata (so_data o)) as (D1 & D2 & D3). exists (decode_obj o).
    change (decode_objs (objs (raw w))) with (objs (view w)). rewrite view_lookup, Hobj by done. cbn.
    pose proof (law_size _ _ _ Hlaws _ _ _ Hobj) as Hsz. split_and!; [done|done|by apply D1| |].
    + rewrite <- D3, Hcr, Hcl by done.
      change totalFromContentRange with S3.totalFromContentRange. by destruct (S3.totalFromContentRange _).
    + intros Hne. by rewrite <- D2.
  - by apply failed_view.
Qed.

Lemma azure_open_law key w r w' :
  plain_key key → NewRangeReader b key 0 (-1) None w = (r, w') →
  view w' = view w ∧
  match r with
  | Err e => other_error e ∨ objs (view w) !! key = None
  | Ok rd => ∃ o, objs (view w) !! key = Some o ∧
      ∀ fuel lens d rd', (∀ i, 0 < lens i) → ReadAll_loop Read fuel lens "" rd = Some (d, rd') →
        match d with Ok d => d = so_data o | Err e => other_error e end
  end.
Proof.
  intros Hk. unfold NewRangeReader, reopen, mbind, M_bind. cbn -[newOpenReader wrap64].
  change (wrap64 (0 + 0)) with 0.
  destruct (newOpenReader cl (escapeKey key false) key 0 (-1) w) as [a w1] eqn:E.
  apply open_spec in E as [Hv Ha]; [|done|unfold int64_max; lia..].
  destruct a as [[bd attrs]|e]; cbn -[ReadAll_loop]; intros [= <- <-]; (split; [done|]); [|done].
  destruct Ha as (o & Hobj & Hmax & _ & Hsz & Hb). exists o. split; [done|].
  intros fuel lens d rd' Hl Hrun. destruct (Hb ltac:(done)) as (tail & Ht & Htail).
  unfold range_of in Ht. cbn [Z.ltb Z.compare Z.to_nat] in Ht. rewrite str_drop_0 in Ht.
  pose proof (strlen_nonneg (so_data o)). set (rd := mkAzureReader _ _ _ _ _ _ _) in Hrun.
  assert (ReadAll_loop S3.Read fuel lens "" (as_s3 rd) = Some (d, as_s3 rd')) as Hrun'
    by (by rewrite ReadAll_equiv, Hrun).
  eapply (S3T.ReadAll_sound fuel lens "" (as_s3 rd) bd tail (so_data o)); [..|exact Hrun']; try done.
  unfold S3.rangeSize. cbn. rewrite Hsz, Z.sub_0_r, wrap64_id by (unfold int64_min; lia).
  by rewrite (proj2 (Z.ltb_ge _ 0)) by lia.
Qed.

#[local] Existing Instance azure_Backend.

(** A whole write: through the pipe, or, when the caller gave an MD5, in one
    request at the end. *)
Lemma azure_write_session_run key opts c az p w :
  toAzureMetadata (o_Metadata opts) = Ok az → o_BeforeWrite opts = None →
  ∃ q, ur_name q = escapeKey key false ∧ ur_Metadata q = az ∧ ur_AccessConditions q = modifiedConditions c ∧
    (write_session (Backend0:=azure_Backend envs cx now) b key opts c p w =
       pipe_session ae_raw mapError (UploadStream cl q) p w ∨
     write_session (Backend0:=azure_Backend envs cx now) b key opts c p w =
       (a ← SdkUpload cl q p; mret (of_error (mapError <$> a))) w).
Proof.
  intros Haz Hb. unfold write_session. cbn -[pipe_Write]. unfold NewWriter. rewrite Haz, Hb.
  case_bool_decide as Hmd5; cbn [negb].
  - unfold startStream. cbn -[pipe_Write]. change (run_hook None) with (@None error). cbn -[pipe_Write].
    set (q := mkUploadRequest _ _ _ _ _ _ _). exists q. split_and!; [done..|]. left.
    unfold pipe_session, try_, Write, pipe_Write, mbind, M_bind, mret, M_ret. cbn.
    destruct (up_stop (UploadStream cl q) "" p w) as [[[n e]|] w1]; [done|]. cbn.
    unfold Writer_Close, pipe_finish, mbind, M_bind. cbn. by destruct (up_end (UploadStream cl q) _ w1).
  - set (headers := mkHTTPHeaders _ _ _ _ _).
    set (q := mkUploadRequest (escapeKey key false) headers az (modifiedConditions c) None None (Some (o_ContentMD5 opts))).
    exists q. split_and!; [done..|]. right.
    unfold try_, Write, mbind, M_bind, mret, M_ret. cbn.
    unfold Writer_Close, commitBuffered, mbind, M_bind. cbn. change (run_hook None) with (@None error). cbn.
    fold q. unfold mbind, M_bind. by destruct (SdkUpload cl q p w).
Qed.

Lemma azure_write_law key opts c p w r w' :
  plain_key key → plain_md (o_Metadata opts) → token_pre c → o_BeforeWrite opts = None →
  write_session (Backend0:=azure_Backend envs cx now) b key opts c p w = (r, w') →
  idle_error (view w) r (view w') ∨ gwrite_spec rule key p (o_Metadata opts) c (view w) r (view w').
Proof.
  intros Hk Hmd Hc Hb. destruct (plain_md_back _ Hmd) as (az & Haz & Hud & Hback).
  destruct (azure_write_session_run key opts c az p w Haz Hb) as (q & Hn & Hm & Hac & Hrun).
  assert (key_name (ur_name q)) as Hkn by (rewrite Hn; by exists key).
  assert (∀ cur, conditions_met (ur_AccessConditions q) cur = holds c cur) as Hmet.
  { intros cur. rewrite Hac. by apply conditions_holds. }
  assert (canonical (objs (raw w))) as Hcan by apply (law_names _ _ _ Hlaws).
  assert (gwrite_spec (raw_rule rule) (ur_name q) p (down az) c (raw w) r (raw w') →
    gwrite_spec rule key p (o_Metadata opts) c (view w) r (view w')) as Hlift.
  { rewrite Hn. intros Hg. apply decode_write in Hg; [|done..]. by rewrite Hud, Hback in Hg. }
  destruct Hrun as [-> | ->].
  - intros E. pose proof (law_stream _ _ _ Hlaws q Hkn ltac:(by rewrite Hm)) as Hup. rewrite Hm in Hup.
    eapply pipe_session_write in E; [|apply azure_mapError_neither|exact Hup|apply Hmet].
    destruct E as [(e & -> & He & Hs)|E]; [left|right; auto].
    exists e. split_and!; [done|done|]. unfold view. by rewrite Hs.
  - unfold mbind, M_bind. destruct (SdkUpload cl q p w) as [a w1] eqn:E. intros [= <- <-]. right. apply Hlift.
    apply (law_upload _ _ _ Hlaws) in E; [|done|by rewrite Hm]. rewrite Hm in E.
    eapply put_law_write; [apply azure_mapError_neither|apply Hmet|exact E].
Qed.

Lemma azure_delete_law key c w r w' :
  plain_key key → token_pre c → Delete b key c w = (r, w') →
  idle_error (view w) r (view w') ∨ delete_spec key c (view w) r (view w').
Proof.
  intros Hk Hc. unfold Delete, mbind, M_bind. cbn [b_client b].
  destruct (SdkDelete cl (escapeKey key false) (modifiedConditions c) w) as [a w1] eqn:E.
  apply (law_delete _ _ _ Hlaws) in E. cbn zeta in E. rewrite conditions_holds in E by done.
  intros [= <- <-]. right. apply decode_delete_spec; [apply (law_names _ _ _ Hlaws)|done|].
  destruct a as [e|]; cbn; [|done]. destruct E as (Ho & [[Hs Hcase]|(Hne & Hh & Hg)]).
  - left. split; [done|]. destruct Hcase as [?|[?|?]]; [left; by apply azure_mapError_neither|by right; right|by right; left].
  - right. split_and!; [by apply azure_mapError_neither|done|done].
Qed.

(** The objects of a page: the blobs under the escaped prefix. *)
Lemma items_law prefix w (items : list BlobItem) obj :
  plain_prefix prefix →
  (∀ x, x ∈ items → HasPrefix (deref (bi_Name x)) (deref (nonempty (escapeKey prefix true))) = true ∧
     is_Some (objs (raw w) !! deref (bi_Name x))) →
  obj ∈ blobItemToObject <$> items →
  HasPrefix (lo_Key obj) prefix = true ∧ is_Some (objs (view w) !! lo_Key obj).
Proof.
  intros Hp Hall (x & -> & Hx)%list_elem_of_fmap. destruct (Hall x Hx) as [Hpre [o Ho]].
  destruct (law_names _ _ _ Hlaws w _ _ Ho) as (k & Hk & En). rewrite En in *.
  assert (lo_Key (blobItemToObject x) = k) as ->.
  { unfold blobItemToObject. rewrite En. destruct (bi_Properties x) as [[[??]?]|]; cbn; by apply unescape_key. }
  rewrite view_lookup, Ho by done. split; [|by eexists]. apply prefix_exact; [done|done|].
  unfold nonempty in Hpre. case_bool_decide as He; [|done]. rewrite He. by apply (HasPrefix_app "" _).
Qed.

Lemma azure_list_law token size opts w r w' :
  plain_prefix (l_Prefix opts) → l_BeforeList opts = None → ListPage b token size (Some opts) w = (r, w') →
  view w' = view w ∧
  match r with
  | Err _ => True
  | Ok (page, _) => ∀ obj, obj ∈ page → lo_IsDir obj = false →
      HasPrefix (lo_Key obj) (l_Prefix opts) = true ∧ is_Some (objs (view w) !! lo_Key obj)
  end.
Proof.
  intros Hp Hb. unfold ListPage. case_bool_decide; [by intros [= <- <-]|].
  cbn -[bool_decide wrap32]. rewrite Hb. change (run_hook None) with (@None error).
  unfold checked, try_, mbind, M_bind.
  case_bool_decide; cbn [negb].
  all: set (q := mkListRequest _ _ _ _); destruct (ListBlobs cl q w) as [a w1] eqn:E.
  all: apply (law_list _ _ _ Hlaws) in E as [Hv Ha].
  all: destruct a as [out|e]; cbn; intros [= <- <-]; (split; [unfold view; by rewrite Hv|]); [|done].
  - intros obj Ho _. eapply items_law; [done| |exact Ho]. intros x Hx. by apply (Ha out x).
  - intros obj [Ho|Ho]%elem_of_app Hd.
    + apply list_elem_of_fmap in Ho as (x & -> & _). done.
    + eapply items_law; [done| |exact Ho]. intros x Hx. by apply (Ha out x).
Qed.

(** The Azure backend keeps the promise of [BackendLaws]. *)
#[export] Instance azure_BackendLaws :
  BackendLaws (Backend0:=azure_Backend envs cx now) b view rule plain_key plain_prefix plain_md token_pre token_pre.
Proof.
  split; cbn [be_Attributes be_NewRangeReader be_Delete be_ListPage azure_Backend].
  - apply azure_attributes_law.
  - apply azure_open_law.
  - apply azure_write_law.
  - apply azure_delete_law.
  - apply azure_list_law.
Qed.
End backend_laws.

Section theorems.
Context {W : Type} `{!GoTables, !UpperTable, !UrlTable} (cl : client W) (interval sasExpiry : Z).
Context (raw : W → store).
Let b : azureBackend W := mkAzureBackend cl interval sasExpiry.

(** C6: the Azure driver implements the store for plain keys, over a container that
    keeps blobs under escaped names with escaped metadata.  Plain keys are valid
    UTF-8 in which the marker of an escape, [__0x], does not occur, plain
    prefixes are such keys that do not end in [_] or [__0], metadata are not an
    empty map and their keys are plain and in lower case, tokens are not the
    wildcard [*], and calls carry no driver callbacks.  Of such calls, against a service that behaves as documented and gives every write
    a new token, every answer of the driver to attributes, whole reads,
    listings, conditional writes and deletes, and what the call leaves in the container,
    decoded, is what the contract allows, failing calls, lost answers and broken
    bodies included.  Other keys may name other objects. *)
Theorem azure_refines_store envs cx now fuel lens o w a w' :
  azure_laws cl raw fresh_token →
  remote_ok plain_key plain_prefix plain_md token_pre token_pre o → (∀ i, 0 < lens i) →
  remote_exec (Backend0:=azure_Backend envs cx now) b fuel lens o w = (Some a, w') →
  spec o (decode (raw w)) a (decode (raw w')).
Proof.
  intros Hlaws.
  pose proof (azure_BackendLaws cl interval sasExpiry envs cx now raw fresh_token Hlaws) as Hb.
  by eapply (remote_refines (Backend0:=azure_Backend envs cx now) b (λ w, decode (raw w)) fresh_token
    plain_key plain_prefix plain_md token_pre token_pre).
Qed.
End theorems.
End AzureS.
