(* ===== verification/Deployed.v ===== *)
(** * The coordination programs on a driver

    The theorems on the lock and the queue under interleaving are about the
    store contract.  Here the programs run on a driver: every call on a bucket
    is answered by the driver's own code, and the other steps are those of the
    pools of [LockSafety] and [QueuePool].  [Implements] is what a driver promises
    for it; a run on such a driver is a run of the pool ([deployed_run]), so what
    is proved of the pool holds of it.  The in-memory driver and every backend
    that keeps [BackendLaws] are instances. *)
From stdpp Require Import relations.
From S2P Require Import Prelude Strconv GoTime Md5 Core Effects Store.

(** The promise.  [dcall] is a call of the driver, with whatever its environment
    does; [view] are the objects of its buckets; [good] is its state invariant;
    [permits] are the calls it can represent and [tok] the version tokens it
    hands out. *)
Class Implements `{GoTables} {S : Type} (dcall : ∀ o, S → ans o → S → Prop) (view : S → nat → store)
    (good : S → Prop) (permits : op → Prop) (tok : string → Prop) : Prop := {
  impl_call o s a s' n : good s → permits o → target o = Some n → dcall o s a s' →
    spec o (view s n) a (view s' n) ∧ (∀ m, m ≠ n → view s' m = view s m) ∧ good s';
  impl_tok s n k o : good s → objs (view s n) !! k = Some o → tok (so_version o);
}.

(** ** Processes on a driver *)

Section deployed.
Context `{GT : GoTables} {S : Type} (dcall : ∀ o, S → ans o → S → Prop) (view : S → nat → store).
Context (good : S → Prop) (permits : op → Prop) (tok : string → Prop).
Context `{!Implements dcall view good permits tok}.

(** Answers as the driver gives them: a version read is a token. *)
Definition given (o : op) : ans o → Prop :=
  match o return ans o → Prop with
  | OAttributes _ _ => λ r, match r with Ok a => tok (a_Version a) | Err _ => True end
  | _ => λ _, True
  end.

(** A call at time [t]: on a bucket by the driver, elsewhere by the world. *)
Definition answered (o : op) (t : Z) (s : S) (a : ans o) (s' : S) : Prop :=
  match target o with
  | Some _ => dcall o s a s'
  | None => s' = s ∧ match o return ans o → Prop with ONow => λ a, a = t | _ => λ _, True end a
  end.

Definition allowed (o : op) : Prop := is_Some (target o) → permits o.

Lemma answered_call o t s a s' :
  good s → allowed o → answered o t s a s' →
  call o (mkWorld (view s) t) a (mkWorld (view s') t) ∧ good s' ∧ given o a.
Proof.
  intros Hg Hp Ha. unfold answered, allowed in *. destruct (target o) as [n|] eqn:Ht.
  - destruct (impl_call _ _ _ _ _ Hg (Hp (mk_is_Some _ _ eq_refl)) Ht Ha) as (Hs & Hm & Hg').
    split; [split; [done|]; rewrite Ht; split; [by split|by destruct o]|]. split; [done|].
    destruct o; try done. cbn in Hs, Ht |- *. destruct a as [a|]; [|done].
    destruct Hs as [_ (x & Hx & -> & _)]. exact (impl_tok _ _ _ _ Hg Hx).
  - destruct Ha as [-> Ha]. split; [split; [done|]; rewrite Ht; split; [done|by destruct o]|]. split; [done|]. by destruct o.
Qed.

(** A process is in a phase; [active] is the call it is about to make, [plocal]
    its steps of its own, and [obeys] keeps it to calls the driver permits. *)
Context {I Phase : Type} `{EqDecision I}.
Context (active : Phase → option { o : op & ans o → Phase }) (plocal : I → Phase → Phase → Prop).
Context (obeys : I → Phase → Prop).

Class Obedient : Prop := {
  ob_local i ph ph' : obeys i ph → plocal i ph ph' → obeys i ph';
  ob_call i ph o k : obeys i ph → active ph = Some (existT o k) →
    allowed o ∧ ∀ a, given o a → obeys i (k a);
}.

Record dconfig := mkDconfig {
  d_state : S;
  d_clock : Z;
  d_phase : I → Phase;
}.

Definition d_world (c : dconfig) : world := mkWorld (view (d_state c)) (d_clock c).

Definition set_dphase (i : I) (ph : Phase) (f : I → Phase) : I → Phase :=
  fun j => if decide (j = i) then ph else f j.

(** [others] is what the calls of other clients leave alone. *)
Context (hi : Z) (others : world → world → Prop).

Inductive dstep : dconfig → dconfig → Prop :=
| ds_local i s t ph ph' : plocal i (ph i) ph' → dstep (mkDconfig s t ph) (mkDconfig s t (set_dphase i ph' ph))
| ds_call i s s' t ph o k a : active (ph i) = Some (existT o k) → answered o t s a s' →
    dstep (mkDconfig s t ph) (mkDconfig s' t (set_dphase i (k a) ph))
| ds_clock s t t' ph : t ≤ t' ≤ hi → dstep (mkDconfig s t ph) (mkDconfig s t' ph)
| ds_other s s' t ph o a : permits o → is_Some (target o) → dcall o s a s' →
    others (mkWorld (view s) t) (mkWorld (view s') t) → dstep (mkDconfig s t ph) (mkDconfig s' t ph).

(** The same steps on the store contract. *)
Inductive astep : world * (I → Phase) → world * (I → Phase) → Prop :=
| as_local i g ph ph' : plocal i (ph i) ph' → astep (g, ph) (g, set_dphase i ph' ph)
| as_call i g g' ph o k a : active (ph i) = Some (existT o k) → call o g a g' →
    astep (g, ph) (g', set_dphase i (k a) ph)
| as_clock g t ph : clock g ≤ t ≤ hi → astep (g, ph) (mkWorld (stores g) t, ph)
| as_other g g' ph o a : call o g a g' → others g g' → astep (g, ph) (g', ph).

Definition d_ok (c : dconfig) : Prop := good (d_state c) ∧ ∀ i, obeys i (d_phase c i).

Lemma d_ok_set c i ph s t :
  d_ok c → good s → obeys i ph → d_ok (mkDconfig s t (set_dphase i ph (d_phase c))).
Proof. intros [_ Ho] Hg Hi. split; [done|]. intros j. cbn. unfold set_dphase. case_decide; [by subst|done]. Qed.

(** A step on the driver is a step on the contract. *)
Lemma dstep_astep `{!Obedient} c c' :
  dstep c c' → d_ok c → d_ok c' ∧ astep (d_world c, d_phase c) (d_world c', d_phase c').
Proof.
  intros [i s t ph ph' Hl|i s s' t ph o k a Hact Ha|s t t' ph Ht|s s' t ph o a Hp Ht Hd Ho] Hok;
    pose proof Hok as [Hg Hob]; cbn in *.
  - split; [|by constructor]. apply (d_ok_set (mkDconfig s t ph)); [done..|]. by eapply ob_local.
  - destruct (ob_call _ _ _ _ (Hob i) Hact) as [Hal Hk].
    destruct (answered_call _ _ _ _ _ Hg Hal Ha) as (Hc & Hg' & Hgv).
    split; [|by econstructor]. apply (d_ok_set (mkDconfig s t ph)); [done..|]. by apply Hk.
  - split; [done|]. by apply (as_clock (mkWorld (view s) t)).
  - destruct (answered_call o t s a s' Hg) as (Hc & Hg' & _); [by intros _| |].
    { unfold answered. by destruct Ht as [n ->]. }
    split; [done|]. by econstructor.
Qed.

Lemma deployed_run `{!Obedient} c c' :
  rtc dstep c c' → d_ok c → d_ok c' ∧ rtc astep (d_world c, d_phase c) (d_world c', d_phase c').
Proof.
  induction 1 as [c|c c1 c' Hst Hs IH]; intros Hok; [done|].
  apply dstep_astep in Hst as [Hok1 Hst]; [|done]. destruct (IH Hok1) as [Hok' Hs'].
  split; [done|]. by eapply rtc_l.
Qed.

(** ** A process alone

    [play] runs one process from phase to phase until it stops calling, on a
    function [answer] that answers as the driver may. *)
Context (answer : ∀ o, S → option (ans o * S)).

Fixpoint play (fuel : nat) (t : Z) (ph : Phase) (s : S) : option (Phase * S) :=
  match fuel with
  | O => Some (ph, s)
  | Datatypes.S fuel =>
    match active ph with
    | None => Some (ph, s)
    | Some (existT o k) =>
      match target o with
      | Some _ => match answer o s with Some (a, s') => play fuel t (k a) s' | None => None end
      | None =>
        match o return (ans o → Phase) → option (Phase * S) with
        | ONow => λ k, play fuel t (k t) s
        | _ => λ _, None
        end k
      end
    end
  end.

Context (Hanswer : ∀ o s a s', is_Some (target o) → answer o s = Some (a, s') → dcall o s a s').

Lemma play_steps fuel i t f s ph' s' :
  play fuel t (f i) s = Some (ph', s') →
  ∃ f', rtc dstep (mkDconfig s t f) (mkDconfig s' t f') ∧ f' i = ph' ∧ ∀ j, j ≠ i → f' j = f j.
Proof.
  revert f s. induction fuel as [|fuel IH]; intros f s; cbn; [intros [= <- <-]; by exists f|].
  destruct (active (f i)) as [[o k]|] eqn:Hact; [|intros [= <- <-]; by exists f].
  assert (∀ a s1, answered o t s a s1 → play fuel t (k a) s1 = Some (ph', s') →
    ∃ f', rtc dstep (mkDconfig s t f) (mkDconfig s' t f') ∧ f' i = ph' ∧ ∀ j, j ≠ i → f' j = f j) as Hgo.
  { intros a s1 Ha Hp. destruct (IH (set_dphase i (k a) f) s1) as (f' & Hs & Hi & Hj).
    { unfold set_dphase. by rewrite decide_True. }
    exists f'. split; [eapply rtc_l; [by eapply ds_call|exact Hs]|]. split; [done|].
    intros j Hne. rewrite Hj by done. unfold set_dphase. by rewrite decide_False. }
  destruct (target o) as [n|] eqn:Ht.
  - destruct (answer o s) as [[a s1]|] eqn:Ha; [|done]. apply Hgo. unfold answered. rewrite Ht.
    apply Hanswer; [by rewrite Ht|done].
  - destruct o; try done. by apply Hgo.
Qed.

End deployed.
