(* ===== verification/LockDeployed.v ===== *)
(** * The lease lock on the drivers

    Contenders for a lock whose bucket is served by a driver: mutual exclusion
    of [LockTheorems], carried over to the in-memory driver and to every remote
    backend with fresh version tokens. *)
From stdpp Require Import relations.
From S2P Require Import Prelude Strconv GoTime Md5 Core Effects Store MemDriver MemStore Locker LeaseSafety LockSafety.
From S2P Require Import Unicode NetUrl Remote RemoteStore GcsDriver GcsTheorems AzureKeys AzureDriver AzureTheorems AzureStore Deployed.

Import Locker.

Definition lock_active (ph : phase) : option { o : op & ans o → phase } :=
  match ph with
  | Trying (Vis o k) => Some (existT o (λ a, Trying (k a)))
  | Ticking lk (Vis o k) => Some (existT o (λ a, Ticking lk (k a)))
  | Releasing (Vis o k) => Some (existT o (λ a, Releasing (k a)))
  | _ => None
  end.

Section lock.
Context `{GT : GoTables} `{TT : TimeText} {S : Type} (dcall : ∀ o, S → ans o → S → Prop) (view : S → nat → store).
Context (good : S → Prop) (permits : op → Prop) (tok : string → Prop).
Context `{!Implements dcall view good permits tok}.

(** The calls of a lock that the driver has to permit. *)
Record lock_calls (l : Locker) (p me : string) : Prop := {
  lc_read : permits (OAttributes (bucket l) p);
  lc_create now : permits (OWriteAll (bucket l) p "" (record_options (record l me now)) [Some IfNotExists]);
  lc_swap now v : tok v →
    permits (OWriteAll (bucket l) p "" (record_options (record l me now)) [Some (IfMatch v)]);
  lc_delete v : tok v → permits (ODelete (bucket l) p [Some (IfMatch v)]);
}.

Section contender.
Context (l : Locker) (p me : string) (Hc : lock_calls l p me).

#[local] Abbreviation within := (within (given tok) (allowed permits)).

Definition lockok (lk : Lock) : Prop :=
  lk_locker lk = l ∧ lk_path lk = p ∧ lk_owner lk = me ∧ tok (lk_version lk).

Lemma allowed_permits o : permits o → allowed permits o.
Proof. by intros ? _. Qed.

Lemma within_getRecord {R} (post : R → Prop) k :
  (∀ r, match r with Ok (_, v) => tok v | Err _ => True end → within post (k r)) →
  within post (getRecord l p ≫= k).
Proof. intros Hk. split; [apply allowed_permits, Hc|]. intros [a|e] Ha; by apply Hk. Qed.

Lemma within_writeRecord {R} (post : R → Prop) now pre k :
  permits (OWriteAll (bucket l) p "" (record_options (record l me now)) [Some pre]) →
  (∀ r, match r with Ok v => tok v | Err _ => True end → within post (k r)) →
  within post (writeRecord l p (record l me now) pre ≫= k).
Proof.
  intros Hp Hk. split; [by apply allowed_permits|]. intros [[]|e] _; [|by apply Hk].
  split; [apply allowed_permits, Hc|]. intros [a|e] Ha; by apply Hk.
Qed.

Lemma within_now {R} (post : R → Prop) k : (∀ t, within post (k t)) → within post (Vis ONow k).
Proof. intros Hk. split; [by intros [? ?]|]. by intros a _. Qed.

Lemma within_tryAcquire key :
  within (λ r, match r with Ok lk => lockok lk | Err _ => True end) (tryAcquire l key p me).
Proof.
  unfold tryAcquire. apply within_getRecord. intros [[f v]|e] Hv; apply within_now; intros now.
  - destruct (negb _); [done|]. apply within_writeRecord; [by apply Hc|].
    intros [v'|e] Hv'; [done|]. by destruct (_ || _).
  - destruct (Is e _); [|done]. apply within_writeRecord; [apply Hc|]. intros [v'|e'] Hv'; [done|]. by destruct (Is e' _).
Qed.

Lemma lockok_finish err lk : lockok lk → lockok (finish err lk).
Proof. unfold finish. by destruct (lk_finished lk). Qed.

Lemma within_renewTick lk : lockok lk → within (λ r, lockok r.1) (renewTick lk).
Proof.
  intros Hlk. pose proof Hlk as (El & Ep & Eo & Ev). unfold renewTick. apply within_now. intros now.
  destruct (negb _); [by apply lockok_finish|]. apply within_bind. unfold renewOnce. rewrite El, Ep, Eo.
  apply within_writeRecord; [by apply Hc|]. intros [v|e] Hv; cbn; [done|].
  destruct (_ || _); [by apply lockok_finish|done].
Qed.

Lemma within_Release lk : lockok lk → within (λ _, True) (Release lk).
Proof.
  intros Hlk. unfold Release. destruct (lk_released lk); [done|].
  assert (lockok (finish None (set_stopped (set_released lk)))) as (El & Ep & Eo & _) by by apply lockok_finish.
  set (lk' := finish _ _) in *. clearbody lk'. apply within_bind. unfold release_record. rewrite El, Ep, Eo.
  apply within_getRecord. intros [[f v]|e] Hv; [|by destruct (Is e _)]. destruct (negb _); [done|].
  split; [by apply allowed_permits, Hc|]. intros [|e] _; [done|]. cbn. by destruct (_ || _).
Qed.
End contender.

(** ** The pool *)

Context {I : Type} `{EqDecision I} (n : nat) (P : string) (lo hi : Z) (cs : I → contender).

Definition lock_obeys (i : I) (ph : phase) : Prop :=
  let ok := lockok (c_locker (cs i)) (c_path (cs i)) (c_owner (cs i)) in
  match ph with
  | Trying q => within (given tok) (allowed permits) (λ r, match r with Ok lk => ok lk | Err _ => True end) q
  | Held lk => ok lk
  | Ticking lk q => within (given tok) (allowed permits) (λ r, ok r.1) q
  | Releasing q => within (given tok) (allowed permits) (λ _, True) q
  | Idle | Out => True
  end.

Context (Hcalls : ∀ i, lock_calls (c_locker (cs i)) (c_path (cs i)) (c_owner (cs i))).

#[local] Instance lock_obedient : Obedient permits tok lock_active (λ i, local (cs i)) lock_obeys.
Proof.
  split.
  - intros i ph ph' Hob Hl. destruct Hl; cbn in *; try done.
    + by apply within_tryAcquire.
    + by apply within_renewTick.
    + by eapply within_Release.
  - intros i ph o k Hob Hact.
    assert (match lock_active ph with
      | Some (existT o k) => allowed permits o ∧ ∀ a, given tok o a → lock_obeys i (k a)
      | None => True end) as H; [|by rewrite Hact in H].
    destruct ph as [|[]| |lk []|[]|]; cbn in *; done.
Qed.

(** A step of the deployed pool is a step of the pool. *)
Definition leaves_record (g g' : world) : Prop := rec n P g' = rec n P g.

Lemma astep_lock g ph g' ph' :
  astep lock_active (λ i, local (cs i)) hi leaves_record (g, ph) (g', ph') →
  step fresh_token n P hi cs (mkConfig g ph) (mkConfig g' ph').
Proof.
  intros Hst. inversion Hst as [i ? ? ph1 Hl|i ? ? ? o k a Hact Hc|? t ? Ht|? ? ? o a Hc Ho]; subst.
  - by apply step_local.
  - apply step_call.
    assert (match lock_active (ph i) with
      | Some (existT o k) => ∀ a, call o g a g' → calls fresh_token g g' (ph i) (k a)
      | None => True end) as H; [|rewrite Hact in H; by apply H].
    destruct (ph i) as [|[]| |lk []|[]|]; cbn; try done; intros; by constructor.
  - by apply step_clock.
  - by eapply step_other.
Qed.

(** The steps of contenders whose calls [dcall] answers. *)
Definition lock_dstep : dconfig → dconfig → Prop :=
  dstep dcall view permits lock_active (λ i, local (cs i)) hi leaves_record.

Lemma lock_deployed c c' :
  rtc lock_dstep c c' → good (d_state c) → (∀ i, d_phase c i = Idle) →
  rtc (step fresh_token n P hi cs) (mkConfig (d_world view c) (d_phase c)) (mkConfig (d_world view c') (d_phase c')).
Proof.
  intros Hs Hg Hid.
  destruct (deployed_run dcall view good permits tok lock_active (λ i, local (cs i)) lock_obeys hi leaves_record c c' Hs) as [_ Hr].
  { split; [done|]. intros i. by rewrite Hid. }
  revert Hr. generalize (d_world view c) (d_phase c) (d_world view c') (d_phase c').
  intros g ph g' ph' Hr. change (mkConfig g ph) with ((λ x, mkConfig x.1 x.2) (g, ph)).
  change (mkConfig g' ph') with ((λ x : world * (I → phase), mkConfig x.1 x.2) (g', ph')).
  eapply rtc_congruence; [|exact Hr]. intros [g1 ph1] [g2 ph2]. apply astep_lock.
Qed.

Lemma lock_deployed_unique c c' i j :
  contending n P lo hi cs → good (d_state c) → (∀ m, swf (view (d_state c) m)) → lo ≤ d_clock c ≤ hi →
  (∀ i, d_phase c i = Idle) → rtc lock_dstep c c' →
  claims (d_phase c' i) (d_clock c') = true → claims (d_phase c' j) (d_clock c') = true → i = j.
Proof.
  intros Hct Hg Hw Ht Hid Hs. pose proof (lock_deployed _ _ Hs Hg Hid) as Hr.
  apply (claims_unique n P lo hi cs Hct (mkConfig (d_world view c') (d_phase c'))).
  eapply reachable_ok; [done| |exact Hr]. by split; [split|].
Qed.

End lock.

(** ** The in-memory driver

    A call with whatever context and clock, as long as the version counter of
    its bucket has room. *)
Section mem.
Context `{GT : GoTables}.

Definition mem_call (o : op) (w : nat → Mem.state) (a : ans o) (w' : nat → Mem.state) : Prop :=
  ∃ e, env_ok e ∧ (∀ m, target o = Some m → Mem.nextVersion (w m) + 1 < 2 ^ 64) ∧ exec e o w = (Some a, w').

Definition mem_view (w : nat → Mem.state) (m : nat) : store := abs (w m).
Definition mem_good (w : nat → Mem.state) : Prop := ∀ m, Mem.wf (w m).

#[export] Instance mem_Implements : Implements mem_call mem_view mem_good op_ok (λ _, True).
Proof.
  split; [|done]. intros o w a w' m Hg Ho Ht (e & He & Hlt & Hx). split_and!.
  - eapply exec_spec; eauto.
  - intros k Hk. unfold mem_view. erewrite exec_frame; [done|exact Hx|congruence].
  - intros k. destruct (decide (target o = Some k)) as [Hk|Hk]; [|erewrite exec_frame; [apply Hg|exact Hx|exact Hk]].
    destruct (exec_step _ _ _ _ _ k Hx) as [->|Hst]; [apply Hg|].
    eapply Mem.change_wf; [apply Hg| |by apply Hlt]. by apply Mem.step_change.
Qed.

Lemma mem_swf st : Mem.wf st → swf (abs st).
Proof.
  intros Hwf. split; cbn.
  - intros k o Ho. rewrite lookup_fmap in Ho. apply fmap_Some in Ho as (x & Hx & ->). cbn.
    destruct (Mem.wf_attrs _ Hwf _ _ Hx) as (_ & _ & m & Hm & ->). apply elem_of_given_out. by exists m.
  - rewrite elem_of_given_out. intros (i & Hi & E). symmetry in E. revert E. apply FormatUint_nonempty.
    pose proof (Mem.wf_counter _ Hwf). lia.
Qed.

Context `{TT : TimeText} {I : Type} `{EqDecision I} (n : nat) (P : string) (lo hi : Z) (cs : I → contender).

Lemma mem_lock_calls i :
  lock_calls op_ok (λ _, True) (c_locker (cs i)) (c_path (cs i)) (c_owner (cs i)).
Proof. by split. Qed.

(** C9: mutual exclusion on the in-memory driver.  Contenders whose every call on
    the bucket is answered by the code of mem.go, started on any well-formed
    state, never both claim the lock, however their calls interleave and
    whichever contexts end. *)
Theorem lock_exclusive_on_mem c c' i j :
  contending n P lo hi cs → (∀ m, Mem.wf (d_state c m)) → lo ≤ d_clock c ≤ hi →
  (∀ i, d_phase c i = Idle) →
  rtc (lock_dstep mem_call mem_view op_ok n P hi cs) c c' →
  claims (d_phase c' i) (d_clock c') = true → claims (d_phase c' j) (d_clock c') = true → i = j.
Proof.
  intros Hct Hg. apply (lock_deployed_unique mem_call mem_view mem_good op_ok (λ _, True) n P lo hi cs mem_lock_calls);
    [done..|]. intros m. by apply mem_swf.
Qed.
End mem.

(** ** Remote drivers

    One bucket, number [n], over a backend that keeps [BackendLaws] with fresh
    tokens; [bk] are the ways its environment may answer one call. *)
Section remote.
Context {W B R V J : Type} `{GT : GoTables} (bk : J → Backend W B R V) (b : B) (bview : W → store).
Context (okkey okprefix : string → Prop) (okmd : metadata → Prop) (okput okdel : Preconditions → Prop).
Context (Hlaws : ∀ j, BackendLaws (Backend0:=bk j) b bview fresh_token okkey okprefix okmd okput okdel).
Context (n : nat).

Definition remote_call (o : op) (w : W) (a : ans o) (w' : W) : Prop :=
  ∃ j fuel lens, (∀ i, 0 < lens i) ∧ target o = Some n ∧ remote_exec (Backend0:=bk j) b fuel lens o w = (Some a, w').

Definition remote_view (w : W) (m : nat) : store := if decide (m = n) then bview w else mkStore ∅ ∅.

(** Tokens that can be named in a condition. *)
Definition remote_tok (v : string) : Prop :=
  okput (mkPreconditions false v "") ∧ okdel (mkPreconditions false v "").

Context (Htok : ∀ w k o, objs (bview w) !! k = Some o → remote_tok (so_version o)).

#[export] Instance remote_Implements :
  Implements remote_call remote_view (λ _, True) (remote_ok okkey okprefix okmd okput okdel) remote_tok.
Proof.
  split.
  - intros o w a w' m _ Ho Ht (j & fuel & lens & Hl & Hn & Hx).
    assert (m = n) as -> by congruence. unfold remote_view. rewrite !decide_True by done.
    pose proof (Hlaws j) as HL. split; [|split; [|done]].
    + by eapply (remote_refines (Backend0:=bk j) b bview fresh_token okkey okprefix okmd okput okdel).
    + intros k Hk. by rewrite !decide_False.
  - intros w m k o _. unfold remote_view. case_decide; [by apply Htok|]. cbn. by rewrite lookup_empty.
Qed.

Context `{TT : TimeText} {I : Type} `{EqDecision I} (P : string) (lo hi : Z) (cs : I → contender).

(** A lock the driver can represent: its key, its records, the creation of one. *)
Record lock_representable (i : I) : Prop := {
  lp_key : okkey (h_key (bucket (c_locker (cs i))) (c_path (cs i)));
  lp_record now : okmd (record (c_locker (cs i)) (c_owner (cs i)) now);
  lp_create : okput (mkPreconditions true "" "");
}.

Lemma remote_lock_calls i :
  lock_representable i →
  lock_calls (remote_ok okkey okprefix okmd okput okdel) remote_tok (c_locker (cs i)) (c_path (cs i)) (c_owner (cs i)).
Proof.
  intros [Hk Hm Hc]. assert (∀ now pre c, CompilePreconditions [Some pre] = Ok c → okput c →
    remote_ok okkey okprefix okmd okput okdel (OWriteAll (bucket (c_locker (cs i))) (c_path (cs i)) ""
      (record_options (record (c_locker (cs i)) (c_owner (cs i)) now)) [Some pre])) as Hw.
  { intros now pre c Ec Hp. split; [done|]. split; [done|]. split; [intros c' Hc'; congruence|].
    cbn [o_Metadata record_options]. intros md md'. rewrite Normalize_record. intros [= <-].
    rewrite Normalize_record. intros [= <-]. apply Hm. }
  split; [done|..].
  - intros now. eapply Hw; [apply compile_IfNotExists|done].
  - intros now v [Hv _]. eapply Hw; [apply compile_IfMatch|done].
  - intros v [_ Hv]. split; [done|]. intros c. rewrite compile_IfMatch. by intros [= <-].
Qed.

Lemma remote_lock_unique c c' i j :
  (∀ i, lock_representable i) → contending n P lo hi cs → swf (bview (d_state c)) → lo ≤ d_clock c ≤ hi →
  (∀ i, d_phase c i = Idle) →
  rtc (lock_dstep remote_call remote_view (remote_ok okkey okprefix okmd okput okdel) n P hi cs) c c' →
  claims (d_phase c' i) (d_clock c') = true → claims (d_phase c' j) (d_clock c') = true → i = j.
Proof.
  intros Hrep Hct Hw.
  apply (lock_deployed_unique remote_call remote_view (λ _, True) (remote_ok okkey okprefix okmd okput okdel) remote_tok
    n P lo hi cs (λ i, remote_lock_calls i (Hrep i))); [done..|].
  intros m. unfold remote_view. case_decide; [done|]. split; [intros k o; cbn; by rewrite lookup_empty|cbn; set_solver].
Qed.
End remote.

(** Cloud Storage: the tokens are generations, every record can be stored. *)
Section gcs.
Context {W : Type} `{GT : GoTables} `{TT : TimeText} (cl : GCS.client W) (bucket : string).
Context (signing : option GCS.SigningOptions) (view : W → store).
Context {I : Type} `{EqDecision I} (n : nat) (P : string) (lo hi : Z) (cs : I → contender).

Definition gcs_call : ∀ o, W → ans o → W → Prop :=
  remote_call (λ _ : unit, GCS.gcs_Backend) (GCS.mkStorageBackend cl bucket signing) n.

(** C10: mutual exclusion on Cloud Storage.  Contenders whose every call on the
    bucket is answered by the code of gcs.go, against a service that behaves as
    documented and gives every object a generation of its own, never both claim
    the lock; requests may fail and answers be lost. *)
Theorem lock_exclusive_on_gcs c c' i j :
  GCST.gcs_laws cl bucket view fresh_token →
  contending n P lo hi cs → swf (view (d_state c)) → lo ≤ d_clock c ≤ hi → (∀ i, d_phase c i = Idle) →
  rtc (lock_dstep gcs_call (remote_view view n)
    (remote_ok (λ _, True) (λ _, True) GCST.representable_md GCST.token_pre GCST.token_pre) n P hi cs) c c' →
  claims (d_phase c' i) (d_clock c') = true → claims (d_phase c' j) (d_clock c') = true → i = j.
Proof.
  intros Hlaws. apply remote_lock_unique.
  - intros _. apply (GCST.gcs_BackendLaws cl bucket signing view fresh_token Hlaws).
  - intros w k o Ho%(GCST.law_tokens _ _ _ _ Hlaws). by split; (split; [split; [by right|by left]|]).
  - intros i'. split; [done|done|]. split; [split; by left|done].
Qed.
End gcs.

(** Azure: the key of the lock has no escape marker, and no entity tag is the
    wildcard. *)
Section azure.
Context {W : Type} `{GT : GoTables} `{!UpperTable, !UrlTable} `{TT : TimeText} (cl : Azure.client W) (interval sasExpiry : Z).
Context (raw : W → store).
Context {I : Type} `{EqDecision I} (n : nat) (P : string) (lo hi : Z) (cs : I → contender).

Definition azure_call : ∀ o, W → ans o → W → Prop :=
  remote_call (λ e : (nat → Azure.poll_env) * ctx * Z, Azure.azure_Backend e.1.1 e.1.2 e.2)
    (Azure.mkAzureBackend cl interval sasExpiry) n.

(** The names of the fields of a record need no escaping. *)
Lemma field_plain k : k = lockOwnerField ∨ k = lockLeaseField → AzureKeys.plain_name k.
Proof.
  assert (∀ s rs, Forall valid_rune rs → s = string_of_runes rs → utf8 s) as Hu by (intros s rs; by exists rs).
  intros [-> | ->]; (split; [|split; [done|vm_compute; reflexivity]]).
  - apply (Hu _ [111; 119; 110; 101; 114]); [|done]. repeat constructor; lia.
  - apply (Hu _ [108; 101; 97; 115; 101]); [|done]. repeat constructor; lia.
Qed.

(** Mutual exclusion on Azure, likewise: the container keeps the records
    under escaped names with escaped metadata. *)
Theorem lock_exclusive_on_azure c c' i j :
  AzureS.azure_laws cl raw fresh_token →
  (∀ w k o, objs (raw w) !! k = Some o → so_version o ≠ "*") → AzureT.plain_key P →
  contending n P lo hi cs → swf (AzureS.decode (raw (d_state c))) → lo ≤ d_clock c ≤ hi → (∀ i, d_phase c i = Idle) →
  rtc (lock_dstep azure_call (remote_view (λ w, AzureS.decode (raw w)) n)
    (remote_ok AzureT.plain_key AzureT.plain_prefix AzureS.plain_md AzureS.token_pre AzureS.token_pre) n P hi cs) c c' →
  claims (d_phase c' i) (d_clock c') = true → claims (d_phase c' j) (d_clock c') = true → i = j.
Proof.
  intros Hlaws Hstar HP Hct. eapply (remote_lock_unique _ _ (λ w, AzureS.decode (raw w))); [..|done].
  - intros e. apply (AzureS.azure_BackendLaws cl interval sasExpiry e.1.1 e.1.2 e.2 raw fresh_token Hlaws).
  - intros w k o Ho.
    apply (AzureS.decode_lookup_Some _ _ _ (AzureS.law_names _ _ _ Hlaws w)) in Ho as (_ & o' & Ho & ->).
    apply Hstar in Ho. by split.
  - intros i'. split; [by rewrite (ct_key _ _ _ _ _ Hct)| |done].
    intros now. split; [done|]. intros k [x [[<- _]|[_ [[<- _]|[_ Hx]]%lookup_insert_Some]]%lookup_insert_Some];
      [apply field_plain; by left|apply field_plain; by right|]. by rewrite lookup_empty in Hx.
Qed.
End azure.
