(* ===== verification/QueueDeployed.v ===== *)
(** * The queue on the in-memory driver

    The workers of [QueuePool] with every call on the bucket answered by the code
    of mem.go: exclusive delivery and no loss carried over. *)
From stdpp Require Import relations.
From S2P Require Import Prelude Strconv GoTime Md5 Core Effects Store MemDriver MemStore Locker LeaseSafety Queue.
From S2P Require Import QueueTheorems QueueSafety QueuePool Deployed LockDeployed.

Import Queue.

Definition queue_active (ph : wphase) : option { o : op & ans o → wphase } :=
  match ph with
  | Claiming (Vis o k) => Some (existT o (λ a, Claiming (k a)))
  | Renewing m (Vis o k) => Some (existT o (λ a, Renewing m (k a)))
  | Settling (Vis o k) => Some (existT o (λ a, Settling (k a)))
  | _ => None
  end.

Section queue.
Context `{GT : GoTables} `{TT : TimeText}.

(** No call of the queue has a callback. *)
#[local] Abbreviation plain := (within (given (λ _, True)) (allowed op_ok) (λ _, True)).

Lemma plain_bind {R T} (p : prog R) (k : R → prog T) : plain p → (∀ r, plain (k r)) → plain (p ≫= k).
Proof. intros Hp Hk. apply within_bind. eapply within_mono; [|exact Hp]. by intros r _. Qed.

Lemma plain_call {R} o (k : ans o → prog R) : op_ok o → (∀ a, plain (k a)) → plain (Vis o k).
Proof. intros Ho Hk. split; [by intros _|]. by intros a _. Qed.

Ltac plain_step :=
  match goal with
  | |- within _ _ _ (Vis _ _) => apply plain_call; [done|intro]
  | |- within _ _ _ (trigger _) => apply plain_call; [done|intro]
  | |- within _ _ _ (_ ≫= _) => apply plain_bind; [|intro]
  | |- within _ _ _ (match ?x with _ => _ end) => destruct x
  | |- within _ _ _ (mret _) => exact Logic.I
  | |- within _ _ _ (Ret _) => exact Logic.I
  end.

Lemma plain_writeLease q path owner now receives pre : plain (writeLease q path owner now receives pre).
Proof. unfold writeLease. repeat plain_step. Qed.

Lemma plain_getLease q path : plain (getLease q path).
Proof. unfold getLease. repeat plain_step. Qed.

Lemma plain_deadLetter q id receives v : plain (deadLetter q id receives v).
Proof. unfold deadLetter, writeDeadRecord, copy_and_close, remove_live. repeat plain_step. Qed.

Lemma plain_tryClaim q id owner : plain (tryClaim q id owner).
Proof.
  unfold tryClaim, claimed.
  repeat first [apply plain_getLease|apply plain_writeLease|apply plain_deadLetter|plain_step].
Qed.

Lemma plain_renewTick m : plain (renewTick m).
Proof. unfold renewTick, renewOnce. repeat first [apply plain_writeLease|plain_step]. Qed.

Lemma plain_Ack m : plain (Ack m).
Proof. unfold Ack, ack_record. repeat first [apply plain_getLease|plain_step]. Qed.

Lemma plain_Nack m : plain (Nack m).
Proof. unfold Nack, nack_record. repeat first [apply plain_getLease|plain_step]. Qed.

Context {I : Type} `{EqDecision I} (b : Handle) (id : string) (lo hi : Z) (ws : I → worker).

Definition queue_local (i : I) (ph ph' : wphase) : Prop := ∃ ack, wlocal id (ws i) ph ph' ack.

Definition queue_obeys (i : I) (ph : wphase) : Prop :=
  match ph with
  | Claiming p => plain p
  | Renewing _ p => plain p
  | Settling p => plain p
  | _ => True
  end.

#[local] Instance queue_obedient : Obedient op_ok (λ _, True) queue_active queue_local queue_obeys.
Proof.
  split.
  - intros i ph ph' _ [ack Hl]. destruct Hl; cbn; try done;
      [apply plain_tryClaim|apply plain_renewTick|apply plain_Ack|apply plain_Nack].
  - intros i ph o k Hob Hact.
    assert (match queue_active ph with
      | Some (existT o k) => allowed op_ok o ∧ ∀ a, given (λ _, True) o a → queue_obeys i (k a)
      | None => True end) as H; [|by rewrite Hact in H].
    destruct ph as [|[]| |m []|[]|]; cbn in *; done.
Qed.

(** What the other clients leave alone: the objects of the message. *)
Definition leaves_message (g g' : world) : Prop :=
  rec (h_store b) (lease_key b id) g' = rec (h_store b) (lease_key b id) g ∧
  payload b id g' = payload b id g ∧ dead b id g' = dead b id g.

Lemma astep_queue g ph g' ph' acks :
  astep queue_active queue_local hi leaves_message (g, ph) (g', ph') →
  ∃ acks', qstep b id hi ws (mkQconfig g ph acks) (mkQconfig g' ph' acks').
Proof.
  intros Hst. inversion Hst as [i ? ? ph1 [ack Hl]|i ? ? ? o k a Hact Hc|? t ? Ht|? ? ? o a Hc Ho]; subst.
  - eexists. by apply qs_local.
  - exists acks. apply qs_call.
    assert (match queue_active (ph i) with
      | Some (existT o k) => ∀ a, call o g a g' → wcalls g g' (ph i) (k a)
      | None => True end) as H; [|rewrite Hact in H; by apply H].
    destruct (ph i) as [|[]| |m []|[]|]; cbn; try done; intros; by constructor.
  - exists acks. by apply qs_clock.
  - exists acks. destruct Ho as (? & ? & ?). by eapply qs_other.
Qed.

(** The steps of workers whose calls mem.go answers. *)
Definition queue_dstep : dconfig → dconfig → Prop :=
  dstep mem_call mem_view op_ok queue_active queue_local hi leaves_message.

Lemma queue_deployed c c' :
  rtc queue_dstep c c' → mem_good (d_state c) → (∀ i, d_phase c i = Waiting) →
  ∃ acks, rtc (qstep b id hi ws) (mkQconfig (d_world mem_view c) (d_phase c) [])
    (mkQconfig (d_world mem_view c') (d_phase c') acks).
Proof.
  intros Hs Hg Hid.
  destruct (deployed_run mem_call mem_view mem_good op_ok (λ _, True) queue_active queue_local queue_obeys hi
    leaves_message c c' Hs) as [_ Hr].
  { split; [done|]. intros i. by rewrite Hid. }
  revert Hr. generalize (d_world mem_view c) (d_phase c) (d_world mem_view c') (d_phase c').
  clear. intros g ph g' ph'. generalize (@nil I) as acks. intros acks Hr.
  remember (g, ph) as x eqn:Ex. remember (g', ph') as y eqn:Ey. revert g ph acks Ex.
  induction Hr as [x|x [g1 ph1] y Hst _ IH]; intros g ph acks ->; [simplify_eq; by eexists|].
  destruct (astep_queue _ _ _ _ acks Hst) as [acks1 Hq]. destruct (IH Ey _ _ acks1 eq_refl) as [acks2 Hrest].
  exists acks2. by eapply rtc_l.
Qed.

(** C12: exclusive delivery on the in-memory driver.  Workers whose every call is
    answered by the code of mem.go never both have a message while its payload is
    there. *)
Theorem queue_exclusive_on_mem c c' i j :
  working b lo hi ws → (∀ m, Mem.wf (d_state c m)) → lo ≤ d_clock c ≤ hi → (∀ i, d_phase c i = Waiting) →
  rtc queue_dstep c c' → is_Some (Mem.objects (d_state c' (h_store b)) !! msg_key b id) →
  has_message (d_phase c' i) (d_clock c') = true → has_message (d_phase c' j) (d_clock c') = true → i = j.
Proof.
  intros Hwk Hg Ht Hid Hs Hp Hi Hj. destruct (queue_deployed _ _ Hs Hg Hid) as [acks Hr].
  assert (qpool_ok b id lo hi ws (mkQconfig (d_world mem_view c') (d_phase c') acks)) as Hok.
  { eapply qreachable_ok; [done| |exact Hr]. split; [split; [intros m; by apply mem_swf|done]|done]. }
  assert (is_Some (payload b id (d_world mem_view c'))) as Hpl.
  { unfold payload. cbn. rewrite lookup_fmap. by apply fmap_is_Some. }
  by eapply (has_message_unique b id lo hi ws Hwk _ _ _ Hok).
Qed.
End queue.
