(* ===== verification/FileDeployed.v ===== *)
(** * The lease lock on the file driver

    Contenders for a lock in one process, on one bucket of the file driver and the
    mutex it shares with its [Sub]s, call by call, on a machine whose system calls may fail in every way but one: no write is torn.
    The state is the file system and, as a ghost, the version tokens objects have
    had so far. *)
From stdpp Require Import relations.
From S2P Require Import Prelude Strconv GoTime Md5 Core Effects Store Locker LeaseSafety LockSafety Filesystem FileDriver.
From S2P Require Import FileTheorems FileStore Deployed LockDeployed.

Import Locker.

Section file.
Context `{GT : GoTables} `{JS : File.Json} (rt : list string) (K : list string → Prop).
Context (Hrt : Forall plain rt) (HK : flat K) (okt : Z → Prop) (okv : string → Prop) (n : nat).

Definition file_call (o : op) (w : os * gset string) (a : ans o) (w' : os * gset string) : Prop :=
  ∃ y cx cx', machine_ok okt okv w.2 y cx cx' ∧ target o = Some n ∧
    file_exec rt y cx cx' o w.1 = (Some a, w'.1) ∧
    ¬ torn_call rt K o (nodes w.1) (nodes w'.1) a ∧ w'.2 = tokens rt w.2 (nodes w'.1).

Definition file_view (w : os * gset string) (m : nat) : store :=
  if decide (m = n) then mkStore (contents rt (nodes w.1)) w.2 else mkStore ∅ ∅.

Definition file_good (w : os * gset string) : Prop := sound_tree rt K (nodes w.1) w.2.

#[export] Instance file_Implements : Implements file_call file_view file_good (file_ok K okt okv) (λ _, True).
Proof.
  split; [|done]. intros o w a w' m Hg Ho Ht (y & cx & cx' & Hmo & Hn & Hx & Htorn & HU).
  assert (m = n) as -> by congruence. unfold file_view, file_good. rewrite !decide_True, HU by done.
  destruct (file_step rt K Hrt HK okt okv _ _ _ _ _ _ _ _ Hmo Ho Hg Hx) as [?|[Hs Hn']]; [done|].
  split_and!; [done| |done]. intros k Hk. by rewrite !decide_False.
Qed.

Lemma file_swf w m : file_good w → swf (file_view w m).
Proof.
  intros Hg. unfold file_view. case_decide.
  - split; cbn; [|exact (sn_used _ _ _ _ Hg)]. intros k o Ho.
    apply (sound_versions rt K _ _ Hg), elem_of_versions. by eauto.
  - split; [intros k o; cbn; by rewrite lookup_empty|cbn; set_solver].
Qed.

Context `{TT : TimeText} {I : Type} `{EqDecision I} (P : string) (lo hi : Z) (cs : I → contender).

(** The contenders' handles are one [Bucket] of the driver: one root and one mutex. *)
Lemma contenders_share_mutex i j :
  contending n P lo hi cs →
  File.mu (fileBucket rt (bucket (c_locker (cs i)))) = File.mu (fileBucket rt (bucket (c_locker (cs j)))).
Proof. intros [Hs _ _ _]. cbn. by rewrite !Hs. Qed.

(** A lock the driver can keep: its key is one of [K], its records are such that
    JSON can carry them. *)
Record lock_storable (i : I) : Prop := {
  ls_key : ∃ r, keyed K (h_key (bucket (c_locker (cs i))) (c_path (cs i))) r;
  ls_record now o o' : PrepareWriteAllOptions (Some (record_options (record (c_locker (cs i)) (c_owner (cs i)) now))) "" = Ok o →
    WriterOptions_Clone (Some o) = Ok o' →
    ∀ t v, okt t → okv v → File.encodable (stored_of (written_attrs o' "" t v));
}.

Lemma file_lock_calls i :
  lock_storable i → lock_calls (file_ok K okt okv) (λ _, True) (c_locker (cs i)) (c_path (cs i)) (c_owner (cs i)).
Proof.
  intros [Hk Hr]. assert (∀ now pre, file_ok K okt okv (OWriteAll (bucket (c_locker (cs i))) (c_path (cs i)) ""
      (record_options (record (c_locker (cs i)) (c_owner (cs i)) now)) [Some pre])) as Hw; [|by split].
  intros now pre. split; [done|]. split; [done|]. intros o o' Ho Ho'. split; [|by eapply Hr].
  destruct (writeall_options _ _ _ _ Ho Ho') as (md & md' & Hm & Hm' & -> & _). cbn [o_Metadata record_options] in Hm.
  rewrite Normalize_record in Hm. injection Hm as <-. rewrite Normalize_record in Hm'. injection Hm' as <-.
  by intros [= E].
Qed.

(** C11: mutual exclusion on the file driver, in one process.  Contenders that
    share one [Bucket] of file.go and its [Sub]s, and so its mutex, and whose every
    call is answered by its code, started on any tree of whole objects, never both
    claim the lock, however their calls interleave and whichever system calls fail,
    as long as no write is torn and no token is drawn twice.  (Contenders with a
    [New] of their own are not excluded: [file_two_buckets_both_create].) *)
Theorem lock_exclusive_on_file c c' i j :
  (∀ i, lock_storable i) → contending n P lo hi cs → file_good (d_state c) → lo ≤ d_clock c ≤ hi →
  (∀ i, d_phase c i = Idle) →
  rtc (lock_dstep file_call file_view (file_ok K okt okv) n P hi cs) c c' →
  claims (d_phase c' i) (d_clock c') = true → claims (d_phase c' j) (d_clock c') = true → i = j.
Proof.
  intros Hst Hct Hg. apply (lock_deployed_unique file_call file_view file_good (file_ok K okt okv) (λ _, True) n P lo hi cs
    (λ i, file_lock_calls i (Hst i))); [done..|]. intros m. by apply file_swf.
Qed.
End file.
