(* ===== verification/Native.v ===== *)
(** * The escape hatches: [AssignNative], [As] and [ErrorAs]

    A caller that needs an SDK's own value hands over a pointer, and the library
    stores the value behind it if its type allows.  Here Go's run-time types, as
    far as [reflect] shows them, are a class, and memory is a map of cells; a
    cell's type is the element type of the pointers to it. *)
From S2P Require Import Prelude Strconv GoTime Md5 Core Unicode NetUrl Remote S3Driver GcsDriver AzureDriver.

Module Native.

(** What [reflect] says of types: whether a type is a pointer and to what
    ([Kind] and [Elem]), whether values of one type can be stored in a variable
    of another, and whether a type is an interface or implements [error]. *)
Class Reflect := {
  gotype : Type;
  Elem : gotype → option gotype;
  AssignableTo : gotype → gotype → bool;
  interface_or_error : gotype → bool;
}.

Section native.
Context `{!Reflect}.

(** A value in an interface: its type and its representation, which for a pointer
    is the address of a cell, 0 for nil. *)
Record value := mkValue {
  v_type : gotype;
  v_repr : nat;
}.

Abbreviation heap := (gmap nat value).

(** A Go [any]: nil, or a value. *)
Abbreviation any := (option value).

Definition AssignNative (native i : any) (h : heap) : bool * heap :=
  match native, i with
  | Some value, Some dst =>
    match Elem (v_type dst) with
    | None => (false, h)
    | Some t =>
      if bool_decide (v_repr dst = 0%nat) then (false, h)
      else if negb (AssignableTo (v_type value) t) then (false, h)
      else (true, <[v_repr dst := value]> h)
    end
  | _, _ => (false, h)
  end.

(** ** The methods *)

(** The SDK value an attributes record carries, by the number it has there. *)
Definition Attributes_As (native_of : nat → value) (a : option Attributes) (i : any) (h : heap) : bool * heap :=
  match a with
  | None => (false, h)
  | Some a => AssignNative (native_of <$> a_Native a) i h
  end.

Definition ListObject_As (o : option ListObject) (native i : any) (h : heap) : bool * heap :=
  match o with
  | None => (false, h)
  | Some _ => AssignNative native i h
  end.

(** The bucket of the in-memory and the file driver has nothing to show. *)
Definition mem_Bucket_As (i : any) (h : heap) : bool * heap := (false, h).
Definition file_Bucket_As (i : any) (h : heap) : bool * heap := (false, h).

(** Their readers show what the attributes carry. *)
Definition mem_reader_As (native_of : nat → value) (attrs : Attributes) : any → heap → bool * heap :=
  Attributes_As native_of (Some attrs).
Definition file_reader_As (native_of : nat → value) (attrs : Attributes) : any → heap → bool * heap :=
  Attributes_As native_of (Some attrs).

(** The buckets of the remote drivers ask their backend, which shows its client;
    Cloud Storage then its bucket handle. *)
Definition s3Backend_As (client : value) (i : any) (h : heap) : bool * heap := AssignNative (Some client) i h.
Definition azureBackend_As (client : value) (i : any) (h : heap) : bool * heap := AssignNative (Some client) i h.
Definition storageBackend_As (client handle : value) (i : any) (h : heap) : bool * heap :=
  match AssignNative (Some client) i h with
  | (true, h) => (true, h)
  | (false, h) => AssignNative (Some handle) i h
  end.

(** Their readers show the body they are reading, if they have one. *)
Definition s3Reader_As (body_value : body → value) (r : S3.s3Reader) (i : any) (h : heap) : bool * heap :=
  match S3.r_reader r with None => (false, h) | Some b => AssignNative (Some (body_value b)) i h end.
Definition gcsReader_As (body_value : body → value) (r : GCS.gcsReader) (i : any) (h : heap) : bool * heap :=
  match GCS.r_reader r with None => (false, h) | Some b => AssignNative (Some (body_value b)) i h end.
Definition azureReader_As (body_value : body → value) (r : Azure.azureReader) (i : any) (h : heap) : bool * heap :=
  match Azure.r_reader r with None => (false, h) | Some b => AssignNative (Some (body_value b)) i h end.

(** [ErrorAs] is [errors.As]: [tree] are the error and those it wraps, in the
    order in which they are looked at, as values.  [None] is a panic: a target
    that is no pointer to an interface or an error type.  An error's own [As] method
    is not asked. *)
Fixpoint first_assignable (tree : list value) (t : gotype) : any :=
  match tree with
  | [] => None
  | v :: tree => if AssignableTo (v_type v) t then Some v else first_assignable tree t
  end.

Definition ErrorAs (tree : list value) (i : any) (h : heap) : option (bool * heap) :=
  match tree with
  | [] => Some (false, h)
  | _ =>
    match i with
    | None => None
    | Some dst =>
      match Elem (v_type dst) with
      | None => None
      | Some t =>
        if bool_decide (v_repr dst = 0%nat) then None
        else if negb (interface_or_error t) then None
        else
          match first_assignable tree t with
          | Some v => Some (true, <[v_repr dst := v]> h)
          | None => Some (false, h)
          end
      end
    end
  end.

(** ** Type safety

    [G] gives every cell its type. *)

Definition pointer_ok (G : nat → option gotype) (i : any) : Prop :=
  match i with
  | Some p => ∀ t, Elem (v_type p) = Some t → v_repr p ≠ 0%nat → G (v_repr p) = Some t
  | None => True
  end.

Definition heap_ok (G : nat → option gotype) (h : heap) : Prop :=
  ∀ a v, h !! a = Some v → ∃ t, G a = Some t ∧ AssignableTo (v_type v) t = true.

Lemma heap_ok_insert G h a v t :
  heap_ok G h → G a = Some t → AssignableTo (v_type v) t = true → heap_ok G (<[a := v]> h).
Proof. intros Hh Ha Hv a' v' [[<- <-]|[_ Hl]]%lookup_insert_Some; [by exists t|by apply Hh]. Qed.

(** What an assignment is: nothing, or a value stored behind the pointer that
    the type of the cell allows. *)
Lemma AssignNative_cases native i h r h' :
  AssignNative native i h = (r, h') →
  (r = false ∧ h' = h) ∨
  (r = true ∧ ∃ v p t, native = Some v ∧ i = Some p ∧ Elem (v_type p) = Some t ∧ v_repr p ≠ 0%nat ∧
     AssignableTo (v_type v) t = true ∧ h' = <[v_repr p := v]> h).
Proof.
  unfold AssignNative. destruct native as [v|], i as [p|]; try (intros [= <- <-]; by left).
  destruct (Elem (v_type p)) as [t|] eqn:Et; [|intros [= <- <-]; by left].
  case_bool_decide as Hr; [intros [= <- <-]; by left|].
  destruct (AssignableTo (v_type v) t) eqn:Ea; intros [= <- <-]; [right|by left]. split; [done|]. by exists v, p, t.
Qed.

(** The escape hatch is type safe.  [AssignNative] stores a value only behind
    a pointer whose element type admits it, and says so; otherwise it leaves
    memory alone.  Cells keep to their types. *)
Theorem assign_native_sound G native i h :
  heap_ok G h → pointer_ok G i →
  let '(r, h') := AssignNative native i h in
  heap_ok G h' ∧
  (r = true → ∃ v p, native = Some v ∧ i = Some p ∧ h' !! v_repr p = Some v) ∧
  (r = false → h' = h) ∧
  (∀ a, (∀ p, i = Some p → a ≠ v_repr p) → h' !! a = h !! a).
Proof.
  intros Hh Hp. destruct (AssignNative native i h) as [r h'] eqn:E.
  apply AssignNative_cases in E as [[-> ->]|(-> & v & p & t & -> & -> & Et & Hr & Ha & ->)]; [done|].
  split; [eapply heap_ok_insert; [done| |exact Ha]; by apply Hp|]. split; [|split; [done|]].
  - intros _. exists v, p. by rewrite lookup_insert_eq.
  - intros a Hne. rewrite lookup_insert_ne; [done|]. intros <-. by apply (Hne p).
Qed.

(** Every [As] is an assignment or two, so all of them are safe; [ErrorAs], when
    it does not panic, too. *)
Lemma storageBackend_As_sound G client handle i h :
  heap_ok G h → pointer_ok G i → heap_ok G (storageBackend_As client handle i h).2.
Proof.
  intros Hh Hp. unfold storageBackend_As. destruct (AssignNative (Some client) i h) as [r h1] eqn:E.
  apply AssignNative_cases in E as [[-> ->]|(-> & v & p & t & _ & -> & Et & Hr & Ha & ->)].
  - destruct (AssignNative (Some handle) i h) as [r h1] eqn:E.
    apply AssignNative_cases in E as [[-> ->]|(-> & v & p & t & _ & -> & Et & Hr & Ha & ->)]; [done|].
    eapply heap_ok_insert; [done| |exact Ha]. by apply Hp.
  - eapply heap_ok_insert; [done| |exact Ha]. by apply Hp.
Qed.

Lemma first_assignable_ok tree t v : first_assignable tree t = Some v → v ∈ tree ∧ AssignableTo (v_type v) t = true.
Proof.
  induction tree as [|x tree IH]; cbn; [done|]. destruct (AssignableTo (v_type x) t) eqn:E.
  - intros [= <-]. split; [by left|done].
  - intros [? ?]%IH. split; [by right|done].
Qed.

Lemma ErrorAs_sound G tree i h r h' :
  heap_ok G h → pointer_ok G i → ErrorAs tree i h = Some (r, h') → heap_ok G h' ∧ (r = false → h' = h).
Proof.
  intros Hh Hp. unfold ErrorAs. destruct tree as [|x tree]; [by intros [= <- <-]|].
  destruct i as [p|]; [|done]. destruct (Elem (v_type p)) as [t|] eqn:Et; [|done].
  case_bool_decide as Hr; [done|]. destruct (interface_or_error t); [|done]. cbn [negb].
  destruct (first_assignable _ t) as [v|] eqn:Ev; intros [= <- <-]; [|done].
  apply first_assignable_ok in Ev as [_ Hv]. split; [|done]. eapply heap_ok_insert; [done| |exact Hv]. by apply Hp.
Qed.
End native.
End Native.
