(* ===== verification/RemoteBuckets.v ===== *)
(** * The buckets of the remote packages

    gcs/gcs.go and azureblob/azureblob.go each have their own copy of the methods
    of [Bucket] that s3/s3.go has, over their own [backend]: the same text but for
    the name of the package in one error message.  [GcsBucket] and [AzureBucket]
    are [Remote]'s definitions at the two backends.  [remote_sub_equiv] is about
    all three. *)
From S2P Require Import Prelude Strconv GoTime Md5 Core Effects Unicode NetUrl Remote GcsDriver AzureKeys AzureDriver.

Module GcsBucket.
Section bucket.
Context {W : Type} `{!GoTables}.
#[local] Instance backend : Backend W (GCS.storageBackend W) GCS.gcsReader (GCS.writeCloser W) := GCS.gcs_Backend.

Definition Bucket : Type := Remote.Bucket (GCS.storageBackend W).
Implicit Types b : Bucket.

Definition newWithBackend : GCS.storageBackend W → string → Bucket := Remote.newWithBackend.
Definition objectKey b key : string := Remote.objectKey b key.
Definition Sub b p : Bucket := Remote.Sub b p.
Definition Attributes_ b key : M W (result Attributes) := Remote.Attributes_ b key.
Definition Copy fuel b dst src opts : M W outcome := Remote.Copy fuel b dst src opts.
Definition XCopyFrom fuel b dst src key opts : result (M W outcome) := Remote.XCopyFrom fuel b dst src key opts.
Definition Delete b key pre : M W (result unit) := Remote.Delete b key pre.
Definition Download fuel b key k opts : M W (option (result unit * sink)) := Remote.Download fuel b key k opts.
Definition Exists b key : M W (result bool) := Remote.Exists b key.
Definition IsAccessible b : M W (result bool) := Remote.IsAccessible b.
Definition ListPage b token size opts : M W (result (list ListObject * bytes)) := Remote.ListPage b token size opts.
Definition NewRangeReader b key off len opts : M W (result GCS.gcsReader) := Remote.NewRangeReader b key off len opts.
Definition NewReader b key opts : M W (result GCS.gcsReader) := Remote.NewReader b key opts.
Definition NewWriter b key opts pre : M W (result (GCS.writeCloser W)) := Remote.NewWriter b key opts pre.
Definition ReadAll fuel lens b key : M W (option (result bytes)) := Remote.ReadAll fuel lens b key.
Definition SignedURL b cx now key opts : M W (result string) := Remote.SignedURL b cx now key opts.
Definition UpdateMetadata b key md : M W (result string) := Remote.UpdateMetadata b key md.
Definition Upload b key r opts pre : M W (result unit) := Remote.Upload b key r opts pre.
Definition WriteAll b key p opts pre : M W (result unit) := Remote.WriteAll b key p opts pre.
Definition Capabilities_ b : Capabilities := Remote.Capabilities_ b.
End bucket.
End GcsBucket.

Module AzureBucket.
Section bucket.
Context {W : Type} `{!GoTables, !UpperTable, !UrlTable} (envs : nat → Azure.poll_env) (cx : ctx) (now : Z).
#[local] Instance backend : Backend W (Azure.azureBackend W) Azure.azureReader (Azure.azureWriter W) :=
  Azure.azure_Backend envs cx now.

Definition Bucket : Type := Remote.Bucket (Azure.azureBackend W).
Implicit Types b : Bucket.

Definition newWithBackend : Azure.azureBackend W → string → Bucket := Remote.newWithBackend.
Definition objectKey b key : string := Remote.objectKey b key.
Definition Sub b p : Bucket := Remote.Sub b p.
Definition Attributes_ b key : M W (result Attributes) := Remote.Attributes_ b key.
Definition Copy fuel b dst src opts : M W outcome := Remote.Copy fuel b dst src opts.
Definition XCopyFrom fuel b dst src key opts : result (M W outcome) := Remote.XCopyFrom fuel b dst src key opts.
Definition Delete b key pre : M W (result unit) := Remote.Delete b key pre.
Definition Download fuel b key k opts : M W (option (result unit * sink)) := Remote.Download fuel b key k opts.
Definition Exists b key : M W (result bool) := Remote.Exists b key.
Definition IsAccessible b : M W (result bool) := Remote.IsAccessible b.
Definition ListPage b token size opts : M W (result (list ListObject * bytes)) := Remote.ListPage b token size opts.
Definition NewRangeReader b key off len opts : M W (result Azure.azureReader) := Remote.NewRangeReader b key off len opts.
Definition NewReader b key opts : M W (result Azure.azureReader) := Remote.NewReader b key opts.
Definition NewWriter b key opts pre : M W (result (Azure.azureWriter W)) := Remote.NewWriter b key opts pre.
Definition ReadAll fuel lens b key : M W (option (result bytes)) := Remote.ReadAll fuel lens b key.
Definition SignedURL b key opts : M W (result string) := Remote.SignedURL b cx now key opts.
Definition UpdateMetadata b key md : M W (result string) := Remote.UpdateMetadata b key md.
Definition Upload b key r opts pre : M W (result unit) := Remote.Upload b key r opts pre.
Definition WriteAll b key p opts pre : M W (result unit) := Remote.WriteAll b key p opts pre.
Definition Capabilities_ b : Capabilities := Remote.Capabilities_ b.
End bucket.
End AzureBucket.

(** ** Sub-buckets *)

Section sub.
Context {W B R V : Type} `{!Backend W B R V} `{!GoTables}.
Implicit Types b : Remote.Bucket B.

Lemma Sub_objectKey b p key : Remote.objectKey (Remote.Sub b p) key = Remote.objectKey b (p +:+ key).
Proof. unfold Remote.objectKey. cbn. apply string_app_assoc. Qed.

Lemma Sub_NewWriter b p key opts pre :
  Remote.NewWriter (Remote.Sub b p) key opts pre = Remote.NewWriter b (p +:+ key) opts pre.
Proof. unfold Remote.NewWriter. by rewrite Sub_objectKey. Qed.

(** A page with a prefix cut off its keys. *)
Definition trimmed (p : string) (r : result (list ListObject * bytes)) : result (list ListObject * bytes) :=
  match r with Ok (page, next) => Ok (Remote.trim_key p <$> page, next) | Err e => Err e end.

Lemma ListPage_trimmed b token size prefix delim hk w r w' :
  be_ListPage (Remote.backend b) token size (Some (mkListOptions (Remote.objectKey b prefix) delim hk)) w = (r, w') →
  Remote.ListPage b token size (Some (mkListOptions prefix delim hk)) w = (trimmed (Remote.prefix b) r, w').
Proof.
  intros E. unfold Remote.ListPage, try_, mbind, M_bind. cbn [default from_option id l_Prefix l_Delimiter l_BeforeList].
  rewrite E. by destruct r as [[page next]|e].
Qed.

(** A sub-bucket is its parent with longer keys.  For every remote driver,
    each call on [Sub(p)] does what the call on the parent with [p] before the
    key does, and a listing of [Sub(p)] is the parent's listing below [p], with
    the prefixes cut off the keys. *)
Theorem remote_sub_equiv b p key key' :
  let s := Remote.Sub b p in
  (Remote.Attributes_ s key = Remote.Attributes_ b (p +:+ key)) ∧
  (Remote.Exists s key = Remote.Exists b (p +:+ key)) ∧
  (∀ pre, Remote.Delete s key pre = Remote.Delete b (p +:+ key) pre) ∧
  (∀ off len opts, Remote.NewRangeReader s key off len opts = Remote.NewRangeReader b (p +:+ key) off len opts) ∧
  (∀ fuel k opts, Remote.Download fuel s key k opts = Remote.Download fuel b (p +:+ key) k opts) ∧
  (∀ fuel lens, Remote.ReadAll fuel lens s key = Remote.ReadAll fuel lens b (p +:+ key)) ∧
  (∀ md, Remote.UpdateMetadata s key md = Remote.UpdateMetadata b (p +:+ key) md) ∧
  (∀ r opts pre, Remote.Upload s key r opts pre = Remote.Upload b (p +:+ key) r opts pre) ∧
  (∀ d opts pre, Remote.WriteAll s key d opts pre = Remote.WriteAll b (p +:+ key) d opts pre) ∧
  (∀ opts pre, Remote.NewWriter s key opts pre = Remote.NewWriter b (p +:+ key) opts pre) ∧
  (∀ fuel src opts, Remote.XCopyFrom fuel s key src key' opts = Remote.XCopyFrom fuel b (p +:+ key) src key' opts) ∧
  (∀ fuel opts, Remote.Copy fuel s key key' opts = Remote.Copy fuel b (p +:+ key) (p +:+ key') opts) ∧
  (∀ cx now opts, Remote.SignedURL s cx now key opts = Remote.SignedURL b cx now (p +:+ key) opts) ∧
  (∀ token size prefix delim hk w r w',
     be_ListPage (Remote.backend b) token size
       (Some (mkListOptions (Remote.objectKey b (p +:+ prefix)) delim hk)) w = (r, w') →
     Remote.ListPage b token size (Some (mkListOptions (p +:+ prefix) delim hk)) w = (trimmed (Remote.prefix b) r, w') ∧
     Remote.ListPage s token size (Some (mkListOptions prefix delim hk)) w
       = (trimmed (Remote.prefix b +:+ p) r, w')) ∧
  (∀ o, HasPrefix (lo_Key o) (Remote.prefix b +:+ p) = true →
     lo_Key (Remote.trim_key (Remote.prefix b) o) = p +:+ lo_Key (Remote.trim_key (Remote.prefix b +:+ p) o)).
Proof.
  intros s. unfold s, Remote.Exists, Remote.ReadAll, Remote.Download, Remote.NewReader, Remote.Upload, Remote.WriteAll,
    Remote.Copy, Remote.XCopyFrom, Remote.SignedURL, Remote.Attributes_, Remote.Delete, Remote.NewRangeReader, Remote.UpdateMetadata.
  split_and!; intros; rewrite ?Sub_objectKey, ?Sub_NewWriter; try done.
  - destruct (RequireUploadOptions opts); [by rewrite Sub_NewWriter|done].
  - destruct (PrepareWriteAllOptions opts d); [by rewrite Sub_NewWriter|done].
  - split; [by apply ListPage_trimmed|].
    apply (ListPage_trimmed (Remote.Sub b p)). by rewrite Sub_objectKey.
  - cbn. match goal with H : HasPrefix _ _ = true |- _ => apply HasPrefix_spec in H as [rest Hr] end. rewrite Hr, TrimPrefix_app.
    by rewrite string_app_assoc, TrimPrefix_app.
Qed.
End sub.
