(* ===== verification/Blobtest.v ===== *)
(** * The conformance suite (blobtest/conformance.go)

    [TestBucket] is the contract the drivers are tested against.  Here it is a
    program over an interface [Driver]: every subtest a function of the state of
    a fresh bucket that stops, as [t.Fatal] does, or passes.  [mem_conforms] runs
    it on the model of the in-memory driver. *)
From S2P Require Import Prelude Strconv GoTime Md5 Core MemDriver.

Module Blobtest.

(** What the suite uses of a driver: [S] is the state of the backend, [B] a
    bucket, [R] a reader, [V] a writer.  [None] is a run-time panic. *)
Class Driver (S B R V : Type) := {
  WriteAll : B → string → bytes → option WriterOptions → list (option Precondition) → S → result unit * S;
  Upload : B → string → source → option WriterOptions → list (option Precondition) → S → result unit * S;
  Download : B → string → S → option (result bytes);
  Exists : B → string → S → result bool;
  ReadAll : B → string → S → option (result bytes);
  Attributes_ : B → string → S → result Attributes;
  Delete : B → string → list (option Precondition) → S → result unit * S;
  UpdateMetadata : B → string → metadata → S → result string * S;
  Copy : B → string → string → S → result unit * S;
  ListPage : B → bytes → Z → option ListOptions → S → option (result (list ListObject * bytes));
  Sub : B → string → B;
  SignedURL : B → string → S → result string;
  Capabilities_ : B → Capabilities;
  NewRangeReader : B → string → Z → Z → S → option (result R);
  rd_ReadAll : R → S → (result bytes * R) * S;
  rd_Seek : Z → Z → R → result Z * R;
  rd_ReadFull : Z → R → S → (result bytes * R) * S;
  rd_Size : R → Z;
  rd_ContentType : R → string;
  NewWriter : B → string → option WriterOptions → list (option Precondition) → S → result V * S;
  wr_Write : ctx → bytes → V → S → (V * result Z) * S;
  wr_Close : ctx → V → S → result unit * S;
}.

(** ** Subtests

    [None] is a test that has stopped with [t.Fatal], or panicked. *)
Definition test (S A : Type) : Type := S → option A * S.

#[export] Instance test_ret S : MRet (test S) := fun A a s => (Some a, s).
#[export] Instance test_bind S : MBind (test S) :=
  fun A B k m s => match m s with (Some a, s') => k a s' | (None, s') => (None, s') end.

Section helpers.
Context {S : Type}.

(** [if err != nil { t.Fatalf(...) }], for a call that may change the state, a
    read, and a read that may panic. *)
Definition ok {A} (m : S → result A * S) : test S A := λ s,
  match m s with (Ok a, s') => (Some a, s') | (Err _, s') => (None, s') end.
Definition ok_read {A} (m : S → result A) : test S A := λ s,
  match m s with Ok a => (Some a, s) | Err _ => (None, s) end.
Definition ok_run {A} (m : S → option (result A)) : test S A := λ s,
  match m s with Some (Ok a) => (Some a, s) | _ => (None, s) end.

(** A call whose results are looked at later. *)
Definition run {A} (m : S → A * S) : test S A := λ s, let '(a, s') := m s in (Some a, s').

(** [if !cond { t.Fatal(...) }]. *)
Definition expect (cond : bool) : test S unit := λ s, (if cond then Some tt else None, s).

(** [if err == nil { t.Fatal(...) }] and [if !errors.Is(err, target) { ... }]. *)
Definition fails {A} (m : S → result A * S) : test S unit := λ s,
  match m s with (Ok _, s') => (None, s') | (Err _, s') => (Some tt, s') end.
Definition fails_as {A} (target : error) (m : S → result A * S) : test S unit := λ s,
  match m s with (Err e, s') => (if Is e target then Some tt else None, s') | (Ok _, s') => (None, s') end.
Definition fails_run {A} (target : error) (m : S → option (result A)) : test S unit := λ s,
  match m s with Some (Err e) => (if Is e target then Some tt else None, s) | _ => (None, s) end.
End helpers.

Definition same (a b : string) : bool := bool_decide (a = b).
Definition textPlain : WriterOptions := set_o_ContentType "text/plain" zeroWriterOptions.

Section suite.
Context {S B R V : Type} `{!Driver S B R V}.
Implicit Types bucket : B.

Definition write_read_attributes_exists_and_delete bucket : test S unit :=
  let opts := mkWriterOptions 0 0 "" "" "" "en" "text/plain" false "" (Some {["Owner" := "tests"]}) None in
  _ ← ok (WriteAll bucket "docs/hello.txt" "hello blobster" (Some opts) []);
  exists_ ← ok_read (Exists bucket "docs/hello.txt");
  _ ← expect exists_;
  got ← ok_run (ReadAll bucket "docs/hello.txt");
  _ ← expect (same got "hello blobster");
  attrs ← ok_read (Attributes_ bucket "docs/hello.txt");
  _ ← expect (bool_decide (a_Size attrs = strlen "hello blobster"));
  _ ← expect (same (a_ContentType attrs) "text/plain");
  _ ← expect (same (default "" (a_Metadata attrs ≫= λ m, m !! "owner")) "tests");
  _ ← expect (negb (same (a_Version attrs) ""));
  _ ← ok (Delete bucket "docs/hello.txt" []);
  exists_ ← ok_read (Exists bucket "docs/hello.txt");
  _ ← expect (negb exists_);
  fails_run ErrNotFound (ReadAll bucket "docs/hello.txt").

Definition letters : bytes := "abcdefghijklmnopqrstuvwxyz".

Definition range_readers_are_seekable_and_expose_metadata bucket : test S unit :=
  _ ← ok (WriteAll bucket "letters" letters (Some textPlain) []);
  reader ← ok_run (NewRangeReader bucket "letters" 5 10);
  '(got, reader) ← run (rd_ReadAll reader);
  got ← ok_read (λ _, got);
  _ ← expect (same got "fghijklmno");
  _ ← expect (bool_decide (rd_Size reader = strlen letters));
  _ ← expect (same (rd_ContentType reader) "text/plain");
  let '(pos, reader) := rd_Seek 2 0 reader in
  _ ← ok_read (λ _, pos);
  '(buf, _) ← run (rd_ReadFull 3 reader);
  buf ← ok_read (λ _, buf);
  _ ← expect (same buf "hij");
  zero ← ok_run (NewRangeReader bucket "letters" 4 0);
  '(empty, _) ← run (rd_ReadAll zero);
  empty ← ok_read (λ _, empty);
  expect (bool_decide (strlen empty = 0)).

Definition upload_download_and_write_helpers bucket : test S unit :=
  _ ← ok (Upload bucket "from-reader" (mkSource "streamed" None) (Some textPlain) []);
  out ← ok_run (Download bucket "from-reader");
  _ ← expect (same out "streamed");
  _ ← ok (WriteAll bucket "sniffed" "<html></html>" None []);
  attrs ← ok_read (Attributes_ bucket "sniffed");
  expect (same (a_ContentType attrs) "text/html; charset=utf-8").

Definition content_md5_is_enforced bucket : test S unit :=
  _ ← fails (WriteAll bucket "checksum" "actual" (Some (set_o_ContentMD5 (md5_Sum "expected") textPlain)) []);
  exists_ ← ok_read (Exists bucket "checksum");
  expect (negb exists_).

Definition conditional_writes_and_deletes_are_atomic bucket : test S unit :=
  _ ← ok (WriteAll bucket "cas" "one" (Some textPlain) [Some IfNotExists]);
  _ ← fails_as ErrPreconditionFailed (WriteAll bucket "cas" "two" (Some textPlain) [Some IfNotExists]);
  attrs ← ok_read (Attributes_ bucket "cas");
  _ ← ok (WriteAll bucket "cas" "two" (Some textPlain) [Some (IfMatch (a_Version attrs))]);
  _ ← fails_as ErrPreconditionFailed (Delete bucket "cas" [Some (IfMatch (a_Version attrs))]);
  attrs ← ok_read (Attributes_ bucket "cas");
  ok (Delete bucket "cas" [Some (IfMatch (a_Version attrs))]).

Definition update_metadata_replaces_the_map bucket : test S unit :=
  let opts := set_o_Metadata (Some {["owner" := "alice"; "stage" := "start"]}) textPlain in
  _ ← ok (WriteAll bucket "md" "body one" (Some opts) []);
  version ← ok (UpdateMetadata bucket "md" (Some {["stage" := "done"]}));
  _ ← expect (negb (same version ""));
  attrs ← ok_read (Attributes_ bucket "md");
  _ ← expect (bool_decide (map_to_list <$> a_Metadata attrs = Some [("stage", "done")]));
  _ ← expect (same (a_ContentType attrs) "text/plain");
  _ ← expect (same (a_Version attrs) version);
  body ← ok_run (ReadAll bucket "md");
  _ ← expect (same body "body one");
  _ ← ok (UpdateMetadata bucket "md" None);
  cleared ← ok_read (Attributes_ bucket "md");
  _ ← expect (bool_decide (map_to_list (default ∅ (a_Metadata cleared)) = []));
  fails_as ErrNotFound (UpdateMetadata bucket "absent" (Some {["k" := "v"]})).

(** The two goroutines, in the order in which their writes take effect. *)
Definition concurrent_create_only_writes (swapped : bool) bucket : test S unit := λ s,
  let '(first, second) := if swapped then ("writer-1", "writer-0") else ("writer-0", "writer-1") in
  let '(e1, s) := WriteAll bucket "race-create" first (Some textPlain) [Some IfNotExists] s in
  let '(e2, s) := WriteAll bucket "race-create" second (Some textPlain) [Some IfNotExists] s in
  let successes := length (List.filter is_Ok [e1; e2]) in
  let failures := length (List.filter
    (λ e, match e with Err e => Is e ErrPreconditionFailed | Ok _ => false end) [e1; e2]) in
  (_ ← expect (bool_decide (successes = 1 ∧ failures = 1)%nat);
   got ← ok_run (ReadAll bucket "race-create");
   expect (same got "writer-0" || same got "writer-1")) s.

(** The loop over the iterator; its keys as they come. *)
Fixpoint collect (fuel : nat) (ListPage : page_source) (iter : ListIterator) (keys : list string)
    : option (result (list string)) :=
  match fuel with
  | O => None
  | Datatypes.S fuel =>
    match Next ListPage fuel iter with
    | None => None
    | Some (_, Err e) => if Is e EOF then Some (Ok keys) else Some (Err e)
    | Some (iter, Ok obj) =>
      collect fuel ListPage iter (keys ++ [if lo_IsDir obj then lo_Key obj +:+ "<dir>" else lo_Key obj])
    end
  end.

Definition copy_list_list_page_and_sub_buckets bucket : test S unit :=
  let write key body := ok (WriteAll bucket key body (Some textPlain) []) in
  _ ← write "a/one.txt" "one";
  _ ← write "a/two.txt" "two";
  _ ← write "a/nested/three.txt" "three";
  _ ← write "b/skip.txt" "skip";
  _ ← ok (Copy bucket "a/copy.txt" "a/one.txt");
  got ← ok_run (ReadAll bucket "a/copy.txt");
  _ ← expect (same got "one");
  '(page, next) ← ok_run (ListPage bucket FirstPageToken 2 (Some (mkListOptions "a/" "" None)));
  _ ← expect (bool_decide (length page = 2%nat) && negb (bool_decide (strlen next = 0)));
  '(page, next) ← ok_run (ListPage bucket next 10 (Some (mkListOptions "a/" "" None)));
  _ ← expect (negb (bool_decide (length page = 0%nat)) && bool_decide (strlen next = 0));
  keys ← ok_run (λ s, collect 100
    (λ token size opts, match ListPage bucket token size opts s with Some r => r | None => Err (ErrOther "panic") end)
    (NewListIterator (Some (mkListOptions "a/" "/" None))) []);
  _ ← expect (bool_decide (merge_sort String.le keys = ["a/copy.txt"; "a/nested/<dir>"; "a/one.txt"; "a/two.txt"]));
  got ← ok_run (ReadAll (Sub bucket "a/") "one.txt");
  expect (same got "one").

Definition canceling_writer_prevents_partial_commit bucket : test S unit :=
  writer ← ok (NewWriter bucket "partial" (Some textPlain) []);
  '(writer, n) ← run (wr_Write None "partial body" writer);
  _ ← ok_read (λ _, n);
  _ ← fails (wr_Close (Some (ErrOther "context canceled")) writer);
  exists_ ← ok_read (Exists bucket "partial");
  expect (negb exists_).

(** [failingReader]: bytes and an error with them. *)
Definition failingReader : source := mkSource "partial body" (Some (ErrOther "forced read failure")).

Definition upload_read_error_prevents_partial_commit bucket : test S unit :=
  _ ← fails (Upload bucket "read-error" failingReader (Some textPlain) []);
  exists_ ← ok_read (Exists bucket "read-error");
  expect (negb exists_).

Definition signed_url_exposes_unsupported_consistently bucket : test S unit := λ s,
  let url := SignedURL bucket "missing" s in
  if CapSignedURL (Capabilities_ bucket) then
    (url ← ok_read (λ _, url); expect (negb (same url ""))) s
  else
    match url with Err e => expect (Is e ErrUnsupported) s | Ok _ => (None, s) end.

(** The subtests of [TestBucket], by the names the suite runs them under. *)
Definition subtests (swapped : bool) : list (string * (B → test S unit)) := [
  ("write read attributes exists and delete", write_read_attributes_exists_and_delete);
  ("range readers are seekable and expose metadata", range_readers_are_seekable_and_expose_metadata);
  ("upload download and write helpers stream through bucket API", upload_download_and_write_helpers);
  ("content md5 is enforced", content_md5_is_enforced);
  ("conditional writes and deletes are atomic", conditional_writes_and_deletes_are_atomic);
  ("update metadata replaces the map and preserves the body", update_metadata_replaces_the_map);
  ("concurrent create-only writes have exactly one winner", concurrent_create_only_writes swapped);
  ("copy list list page and sub buckets", copy_list_list_page_and_sub_buckets);
  ("canceling writer prevents partial commit", canceling_writer_prevents_partial_commit);
  ("upload read error prevents partial commit", upload_read_error_prevents_partial_commit);
  ("signed url exposes unsupported consistently", signed_url_exposes_unsupported_consistently)
].

(** [TestBucket]: the subtests that fail, each on a bucket of its own. *)
Definition TestBucket (swapped : bool) (newBucket : B * S) : list string :=
  fst <$> filter (λ t, fst (snd t newBucket.1 newBucket.2) = None) (subtests swapped).
End suite.
End Blobtest.

(** ** The in-memory driver *)

Module MemConformance.

(** A [bytes.Reader] under the driver's reader: its bytes and its position. *)
Record bytes_Reader := mkBytesReader {
  br_reader : Mem.reader;
  br_pos : Z;
}.

Definition br_rest (r : bytes_Reader) : bytes := str_drop (Z.to_nat (br_pos r)) (Mem.r_data (br_reader r)).

Definition br_ReadAll (r : bytes_Reader) : result bytes * bytes_Reader :=
  (Ok (br_rest r), mkBytesReader (br_reader r) (Z.max (br_pos r) (strlen (Mem.r_data (br_reader r))))).

Definition br_Seek (offset whence : Z) (r : bytes_Reader) : result Z * bytes_Reader :=
  let abs :=
    if whence =? 0 then Some offset
    else if whence =? 1 then Some (wrap64 (br_pos r + offset))
    else if whence =? 2 then Some (wrap64 (strlen (Mem.r_data (br_reader r)) + offset))
    else None in
  match abs with
  | None => (Err (ErrOther "bytes.Reader.Seek: invalid whence"), r)
  | Some abs =>
    if abs <? 0 then (Err (ErrOther "bytes.Reader.Seek: negative position"), r)
    else (Ok abs, mkBytesReader (br_reader r) abs)
  end.

(** [io.ReadFull]: all of the buffer or an error. *)
Definition br_ReadFull (n : Z) (r : bytes_Reader) : result bytes * bytes_Reader :=
  let p := str_take (Z.to_nat n) (br_rest r) in
  let r' := mkBytesReader (br_reader r) (br_pos r + strlen p) in
  if strlen p <? n then (Err (if bool_decide (p = "") then EOF else ErrOther "unexpected EOF"), r')
  else (Ok p, r').

Definition start (r : result Mem.reader) : result bytes_Reader :=
  match r with Ok r => Ok (mkBytesReader r 0) | Err e => Err e end.

Section mem.
Context `{!GoTables} (now : Z).

#[export] Instance mem_Driver : Blobtest.Driver Mem.state Mem.Bucket bytes_Reader Mem.writer := {|
  Blobtest.WriteAll b key p opts pre := Mem.WriteAll None None now b key p opts pre;
  Blobtest.Upload b key r opts pre := Mem.Upload None None now b key r opts pre;
  Blobtest.Download b key := Mem.Download None b key None (λ _, None);
  Blobtest.Exists b key := Mem.Exists None b key;
  Blobtest.ReadAll b key := Mem.ReadAll None b key;
  Blobtest.Attributes_ b key := Mem.Attributes_ None b key;
  Blobtest.Delete b key pre := Mem.Delete None b key pre;
  Blobtest.UpdateMetadata b key md := Mem.UpdateMetadata None now b key md;
  Blobtest.Copy b dst src := Mem.Copy None None now b dst src;
  Blobtest.ListPage b token size opts := Mem.ListPage None b token size opts;
  Blobtest.Sub := Mem.Sub;
  Blobtest.SignedURL _ _ _ := Mem.SignedURL None;
  Blobtest.Capabilities_ _ := Mem.Capabilities_;
  Blobtest.NewRangeReader b key off len s := start <$> Mem.NewRangeReader None b key off len None s;
  Blobtest.rd_ReadAll r s := (br_ReadAll r, s);
  Blobtest.rd_Seek := br_Seek;
  Blobtest.rd_ReadFull n r s := (br_ReadFull n r, s);
  Blobtest.rd_Size r := Mem.reader_Size (br_reader r);
  Blobtest.rd_ContentType r := Mem.reader_ContentType (br_reader r);
  Blobtest.NewWriter b key opts pre s := (Mem.NewWriter b key opts pre, s);
  Blobtest.wr_Write cx p w s := (Mem.Write cx p w, s);
  Blobtest.wr_Close cx w s := let '(_, r, s') := Mem.Close cx now w s in (r, s');
|}.

(** A subtest that passes on a new bucket. *)
Definition passes (t : Mem.Bucket → Blobtest.test Mem.state unit) : Prop :=
  fst (t Mem.New Mem.NewState) = Some tt.

Lemma mem_write_read_attributes_exists_and_delete : passes Blobtest.write_read_attributes_exists_and_delete.
Proof. vm_compute. reflexivity. Qed.

Lemma mem_range_readers_are_seekable_and_expose_metadata : passes Blobtest.range_readers_are_seekable_and_expose_metadata.
Proof. vm_compute. reflexivity. Qed.

Lemma mem_content_md5_is_enforced : passes Blobtest.content_md5_is_enforced.
Proof. vm_compute. reflexivity. Qed.

Lemma mem_conditional_writes_and_deletes_are_atomic : passes Blobtest.conditional_writes_and_deletes_are_atomic.
Proof. vm_compute. reflexivity. Qed.

Lemma mem_update_metadata_replaces_the_map : passes Blobtest.update_metadata_replaces_the_map.
Proof. vm_compute. reflexivity. Qed.

Lemma mem_copy_list_list_page_and_sub_buckets : passes Blobtest.copy_list_list_page_and_sub_buckets.
Proof. vm_compute. reflexivity. Qed.

Lemma mem_canceling_writer_prevents_partial_commit : passes Blobtest.canceling_writer_prevents_partial_commit.
Proof. vm_compute. reflexivity. Qed.

Lemma mem_upload_read_error_prevents_partial_commit : passes Blobtest.upload_read_error_prevents_partial_commit.
Proof. vm_compute. reflexivity. Qed.

Lemma mem_signed_url_exposes_unsupported_consistently : passes Blobtest.signed_url_exposes_unsupported_consistently.
Proof. vm_compute. reflexivity. Qed.

Lemma mem_concurrent_create_only_writes swapped : passes (Blobtest.concurrent_create_only_writes swapped).
Proof. destruct swapped; vm_compute; reflexivity. Qed.

(** The sniffed content type is what [net/http] answers. *)
Lemma mem_upload_download_and_write_helpers :
  DetectContentType "<html></html>" = "text/html; charset=utf-8" →
  passes Blobtest.upload_download_and_write_helpers.
Proof.
  intros Hs. unfold passes.
  assert (∃ d, fst (Blobtest.upload_download_and_write_helpers Mem.New Mem.NewState)
    = (if Blobtest.same d "text/html; charset=utf-8" then Some tt else None) ∧ d = DetectContentType "<html></html>")
    as (d & -> & ->).
  { eexists. split; [|reflexivity]. vm_compute. reflexivity. }
  by rewrite Hs.
Qed.

(** Subtests that all pass. *)
Inductive all_pass : list (string * (Mem.Bucket → Blobtest.test Mem.state unit)) → Prop :=
| all_pass_nil : all_pass []
| all_pass_cons n t l : passes t → all_pass l → all_pass ((n, t) :: l).

Lemma all_pass_none l :
  all_pass l → fst <$> filter (λ t, fst (snd t Mem.New Mem.NewState) = None) l = [].
Proof.
  induction 1 as [|n t l Hp _ IH]; [done|]. rewrite filter_cons_False; [done|].
  cbn [snd]. unfold passes in Hp. by rewrite Hp.
Qed.

(** The in-memory driver passes its conformance suite: with [net/http]'s
    answer for the one text that is sniffed, whatever the clock says and in
    whichever order the two racing writers come, no subtest of [TestBucket]
    fails on a new bucket. *)
Theorem mem_conforms swapped :
  DetectContentType "<html></html>" = "text/html; charset=utf-8" →
  Blobtest.TestBucket swapped (Mem.New, Mem.NewState) = [].
Proof.
  intros Hs. apply all_pass_none.
  apply (all_pass_cons _ _ _ mem_write_read_attributes_exists_and_delete).
  apply (all_pass_cons _ _ _ mem_range_readers_are_seekable_and_expose_metadata).
  apply (all_pass_cons _ _ _ (mem_upload_download_and_write_helpers Hs)).
  apply (all_pass_cons _ _ _ mem_content_md5_is_enforced).
  apply (all_pass_cons _ _ _ mem_conditional_writes_and_deletes_are_atomic).
  apply (all_pass_cons _ _ _ mem_update_metadata_replaces_the_map).
  apply (all_pass_cons _ _ _ (mem_concurrent_create_only_writes swapped)).
  apply (all_pass_cons _ _ _ mem_copy_list_list_page_and_sub_buckets).
  apply (all_pass_cons _ _ _ mem_canceling_writer_prevents_partial_commit).
  apply (all_pass_cons _ _ _ mem_upload_read_error_prevents_partial_commit).
  apply (all_pass_cons _ _ _ mem_signed_url_exposes_unsupported_consistently).
  apply all_pass_nil.
Qed.
End mem.
End MemConformance.

(** The suite, evaluated with a table that answers as [net/http] does here. *)
Lemma mem_conforms_witness :
  let T := Build_GoTables (λ s, s) (λ _, "text/html; charset=utf-8") in
  @Blobtest.TestBucket Mem.state Mem.Bucket MemConformance.bytes_Reader Mem.writer
    (@MemConformance.mem_Driver T 0) true (Mem.New, Mem.NewState) = [].
Proof. intros T. apply (@MemConformance.mem_conforms T 0 true). reflexivity. Defined.
