(* ===== verification/Witnesses.v ===== *)
(** * Concrete instances

    For each theorem with hypotheses, an input that satisfies them: states the
    drivers really reach, runs that really happen, in UTC and with tables for
    ASCII text. *)
From stdpp Require Import relations.
From S2P Require Import Prelude Strconv GoTime Md5 Core Effects Store MemDriver MemTheorems MemStore.
From S2P Require Import Locker MemRun LeaseSafety LockSafety LockTheorems Queue QueueTheorems Watcher WatcherTheorems CrossCopy.

#[local] Instance tables : GoTables := {|
  unicode_lower := id;
  DetectContentType := fun _ => "application/octet-stream";
|}.
#[local] Existing Instance utc.

(** ** Two contenders for one lock *)

Definition bk : Handle := mkHandle 0 "".
Definition lk0 : Locker.Locker := Locker.NewLocker bk [].
Definition P0 : string := ".blobster/locks/k".
Definition both (i : bool) : contender := mkContender lk0 "k" P0 (if i then "a" else "b").

Lemma both_contending : contending 0 P0 0 (10 ^ 18) both.
Proof.
  split; [done..|by intros [] []|]. intros i t Ht. apply utc_printable.
  assert (Locker.lease (c_locker (both i)) = 15 * 10 ^ 9) as -> by by destruct i. lia.
Qed.

(** A malformed record left by someone else. *)
Definition world0 : world :=
  mkWorld (fun _ => mkStore {[P0 := mkSobject "" None "v0"]} {["v0"]}) 0.
Definition config0 : config := mkConfig world0 (fun _ : bool => Idle).

Lemma config0_initial : initial 0 (10 ^ 18) config0.
Proof.
  split; [|done]. split; [|cbn; lia]. intros n. split; cbn; [|set_solver].
  intros k o [<- <-]%lookup_singleton_Some. cbn. set_solver.
Qed.

#[local] Abbreviation pool_step := (step fresh_token 0 P0 (10 ^ 18) both).

Definition rec1 : sobject := mkSobject "" (Locker.record lk0 "a" 0) "v1".
Definition world1 : world := put_in 0 P0 rec1 world0.
Definition held1 : Locker.Lock := Locker.start lk0 "k" P0 "a" "v1" (0 + Locker.lease lk0).

(** One of them takes the lock over. *)
Lemma run_acquired : goes fresh_token 0 P0 (10 ^ 18) both true world0 (fun _ => Idle) world1 (Held held1).
Proof.
  eapply goes_trans; [by apply (goes_deciding fresh_token 0 P0 (10 ^ 18) both true eq_refl eq_refl world0 _
    (mkSobject "" None "v0"))|].
  intros ph1 H1. eapply goes_holding; [done..|exact H1|apply compile_IfMatch| |].
  - by apply holds_IfMatch.
  - split; [done|]. cbn. set_solver.
Qed.

Lemma lock_mutual_exclusion_witness :
  ∃ cf, rtc pool_step config0 cf ∧ claims (cf_phase cf true) (clock (cf_world cf)) = true ∧
    ∀ j, claims (cf_phase cf j) (clock (cf_world cf)) = true → true = j.
Proof.
  destruct run_acquired as (ph & Hs & Ht & _).
  assert (claims (ph true) (clock world1) = true) as Hc by by rewrite Ht.
  exists (mkConfig world1 ph). split; [exact Hs|]. split; [exact Hc|]. intros j Hj.
  exact (lock_mutual_exclusion 0 P0 0 (10 ^ 18) both config0 (mkConfig world1 ph) true j
    both_contending config0_initial Hs Hc Hj).
Defined.

(** It then releases it: the read of its record, and the delete to come. *)
Definition world2 : world :=
  mkWorld (fun m => if decide (m = 0%nat) then mkStore (delete P0 (objs (stores world1 0))) (used (stores world1 0))
                    else stores world1 m) 0.

Lemma run_releasing :
  ∃ k, goes fresh_token 0 P0 (10 ^ 18) both true world0 (fun _ => Idle) world1
         (Releasing (Vis (ODelete bk P0 [Some (IfMatch "v1")]) k)).
Proof.
  destruct (gcall_found fresh_token bk P0 world1 rec1) as (a & Hv & Hm & Hc); [done|].
  eexists. eapply goes_trans; [exact run_acquired|]. intros ph1 H1.
  eapply goes_trans; [apply goes_local; rewrite H1; apply local_release|]. intros ph2 H2.
  eapply goes_trans; [apply goes_call; rewrite H2; by eapply calls_release|].
  cbn [mbind prog_mbind prog_bind mret prog_mret]. rewrite Hv, Hm. intros ph3 H3.
  exists ph3. split; [done|]. split; [|done]. rewrite H3. reflexivity.
Qed.

Lemma call_deleted : call (ODelete bk P0 [Some (IfMatch "v1")]) world1 (Ok ()) world2.
Proof.
  split; [done|]. split; [|done]. split.
  - right. eexists. split; [apply compile_IfMatch|]. split; [by eexists|]. split; [|done]. by apply holds_IfMatch.
  - intros m Hm. cbn. by rewrite decide_False.
Qed.

Lemma rec1_live : Locker.lockExpired (so_meta rec1) 0 = false.
Proof. vm_compute. reflexivity. Qed.

Lemma lock_live_record_respected_witness :
  ∃ cf cf', rtc pool_step config0 cf ∧ pool_step cf cf' ∧ rec 0 P0 (cf_world cf) = Some rec1 ∧
    ∃ i, Locker.owner_of (so_meta rec1) = c_owner (both i) ∧
         calls fresh_token (cf_world cf) (cf_world cf') (cf_phase cf i) (cf_phase cf' i).
Proof.
  destruct run_releasing as (k & ph & Hs & Ht & _).
  assert (pool_step (mkConfig world1 ph) (mkConfig world2 (set_phase true (Releasing (k (Ok ()))) ph))) as Hst.
  { apply (step_call _ _ _ _ _ true). rewrite Ht. apply calls_release, call_deleted. }
  eexists _, _. split; [exact Hs|]. split; [exact Hst|]. split; [reflexivity|].
  apply (lock_live_record_respected 0 P0 0 (10 ^ 18) both config0 (mkConfig world1 ph) _ rec1 both_contending
    config0_initial Hs Hst eq_refl rec1_live). done.
Defined.

Lemma lock_release_own_only_witness :
  ∃ cf r, rtc pool_step config0 cf ∧ rec 0 P0 (cf_world cf) = Some r ∧ Locker.owner_of (so_meta r) = c_owner (both true).
Proof.
  destruct run_releasing as (k & ph & Hs & Ht & _).
  destruct (lock_release_own_only 0 P0 0 (10 ^ 18) both config0 (mkConfig world1 ph) true _ k (Ok ()) world2
    both_contending config0_initial Hs Ht call_deleted) as (r & Hr & Ho); [done|].
  exists (mkConfig world1 ph), r. done.
Defined.

(** A store whose token is a constant, as an empty body's checksum is. *)
Definition world_etag : world :=
  mkWorld (fun _ => mkStore {[P0 := mkSobject "" None "d41d8cd98f00b204"]} {["d41d8cd98f00b204"]}) 0.

Lemma lock_content_token_witness :
  ∃ cf, rtc (step (content_token (fun _ => "d41d8cd98f00b204")) 0 P0 (10 ^ 18) both)
          (mkConfig world_etag (fun _ => Idle)) cf ∧
    claims (cf_phase cf true) (clock (cf_world cf)) = true ∧
    claims (cf_phase cf false) (clock (cf_world cf)) = true.
Proof.
  by apply (lock_content_token_two_holders (fun _ => "d41d8cd98f00b204") 0 P0 0 (10 ^ 18) both world_etag _
    (mkSobject "" None "d41d8cd98f00b204") true false both_contending).
Defined.

(** ** States of the in-memory driver *)

Definition mb : Mem.Bucket := Mem.mkBucket "".
Definition st1 : Mem.state := (Mem.WriteAll None None 5 mb "k" "hello" None [] Mem.NewState).2.
Definition st2 : Mem.state := (Mem.WriteAll None None 6 mb "j" "other" None [Some IfNotExists] st1).2.
Definition st3 : Mem.state := (Mem.WriteAll None None 7 mb "k" "bye" None [Some (IfMatch "1")] st2).2.
Definition obj1 : Mem.object := Mem.mkObject "hello"
  (mkAttributes "" "" "" "" "application/octet-stream" None 5 5 5 (md5_Sum "hello") "1" None).

Lemma write1 : Mem.WriteAll None None 5 mb "k" "hello" None [] Mem.NewState = (Ok tt, st1).
Proof. vm_compute. reflexivity. Qed.

Lemma write3 : Mem.WriteAll None None 7 mb "k" "bye" None [Some (IfMatch "1")] st2 = (Ok tt, st3).
Proof. vm_compute. reflexivity. Qed.

Lemma nsteps1 : nsteps Mem.step 1 Mem.NewState st1.
Proof. apply nsteps_once. apply Mem.step_WriteAll. Qed.

Lemma nsteps2 : nsteps Mem.step 1 st1 st2.
Proof. apply nsteps_once. apply Mem.step_WriteAll. Qed.

Lemma nsteps12 : nsteps Mem.step 2 Mem.NewState st2.
Proof. eapply nsteps_l; [apply Mem.step_WriteAll|apply nsteps2]. Qed.

Lemma obj1_st1 : Mem.objects st1 !! "k" = Some obj1.
Proof. vm_compute. reflexivity. Qed.

Lemma obj1_st2 : Mem.objects st2 !! "k" = Some obj1.
Proof. vm_compute. reflexivity. Qed.

Lemma mem_reachable_wf_witness : Mem.wf st1.
Proof. apply (mem_reachable_wf 1 st1 nsteps1). lia. Defined.

Lemma mem_versions_never_reused_witness : "k" = "k" ∧ obj1 = obj1.
Proof.
  apply (mem_versions_never_reused 1 1 st1 st2 "k" "k" obj1 obj1 nsteps1 nsteps2); [lia|..|reflexivity].
  - exact obj1_st1.
  - exact obj1_st2.
Defined.

Lemma mem_cas_single_winner_witness :
  ∃ e, Mem.WriteAll None None 8 mb "k" "again" None [Some (IfMatch "1")] st3 = (Err e, st3).
Proof.
  assert (nsteps Mem.step 0 st3 st3) as Hn by constructor.
  destruct (mem_cas_single_winner 2 None None 7 mb "k" "bye" None "1" st2 st3 0 st3 nsteps12
    ltac:(lia) ltac:(done) write3 Hn) as [Hw _]. apply Hw.
Defined.

Lemma mem_write_then_read_witness : Mem.ReadAll None mb "k" st1 = Some (Ok "hello").
Proof. apply (mem_write_then_read None None 5 mb "k" "hello" None [] Mem.NewState st1 write1). Defined.

Lemma mem_upload_failing_source_witness :
  ∃ e, Mem.Upload None None 9 mb "k" (mkSource "he" (Some (ErrOther "reset"))) None [] st1 = (Err e, st1).
Proof. by apply (mem_upload_failing_source None 9 mb "k" _ (ErrOther "reset")). Defined.

Lemma mem_range_read_witness :
  Mem.NewRangeReader None mb "k" 1 3 None st1 = Some (Ok (Mem.mkReader "ell" (Mem.attrs obj1))).
Proof. apply (mem_range_read mb "k" 1 3 st1 obj1 obj1_st1); vm_compute; congruence. Defined.

Lemma mem_range_read_overflow_witness : Mem.NewRangeReader None mb "k" 1 int64_max None st1 = None.
Proof.
  apply (mem_range_read_overflow_panics mb "k" 1 int64_max st1 obj1 obj1_st1); vm_compute; try split; congruence.
Defined.

Lemma mem_list_sorted_complete_witness :
  "j" ∈ lo_Key <$> Mem.listObjectsLocked mb (mkListOptions "" "" None) st2.
Proof.
  destruct (mem_list_sorted_complete mb (mkListOptions "" "" None) st2 eq_refl) as [_ Hk].
  apply Hk. split; [reflexivity|]. eexists. vm_compute. reflexivity.
Defined.

Lemma mem_iterator_yields_listing_witness :
  All (pages mb st2) (λ _, true) 3 (Mem.List_ (Some (mkListOptions "" "" None))) =
  Some (Mem.listObjectsLocked mb (mkListOptions "" "" None) st2, None).
Proof.
  apply (mem_iterator_yields_listing mb st2 (mkListOptions "" "" None) eq_refl).
  - vm_compute. congruence.
  - apply Nat.leb_le. vm_compute. reflexivity.
Defined.

(** ** Calm runs *)

Definition at_time (t : Z) : env := mkEnv None t t (Ok "0123456789abcdef") (fun _ => 0) "u" None false.

Lemma st1_wf : Mem.wf st1.
Proof. eapply Mem.change_wf; [apply Mem.wf_New|apply Mem.WriteAll_change|vm_compute; reflexivity]. Qed.

Lemma mem_refines_store_witness :
  ∃ w', call (OWriteAll bk "k" "x" (Locker.record_options None) [Some (IfMatch "1")])
    (absw (fun _ => st1) 9) (Ok ()) (absw w' 9).
Proof.
  destruct (exec (at_time 9) (OWriteAll bk "k" "x" (Locker.record_options None) [Some (IfMatch "1")]) (fun _ => st1))
    as [a w'] eqn:E.
  assert (a = Some (Ok ())) as ->.
  { replace a with (a, w').1 by done. rewrite <- E. vm_compute. reflexivity. }
  exists w'. apply (mem_refines_store (at_time 9) (OWriteAll bk "k" "x" (Locker.record_options None) [Some (IfMatch "1")])
    (fun _ => st1) (Ok ()) w'); [done|done|intros _; apply st1_wf|intros _; vm_compute; reflexivity|exact E].
Defined.

Definition w0 : nat → Mem.state := fun _ => Mem.NewState.
Definition envs0 : nat → env := fun i => at_time (Z.of_nat i).

Lemma lock_tryAcquire_witness :
  ∃ o, run exec (Locker.TryAcquire lk0 "k" ["a"]) envs0 w0 =
    (Some (Ok (Locker.start lk0 "k" P0 "a" (a_Version (Mem.attrs o)) (1 + Locker.lease lk0))), wrote bk P0 o w0).
Proof.
  destruct (lock_tryAcquire_spec lk0 "k" "a" P0 envs0 w0 eq_refl ltac:(done) (fun _ => eq_refl) Mem.wf_New) as (o & _ & Hr).
  exists o. exact Hr.
Defined.

Lemma lock_release_witness :
  ∃ lk', Locker.lk_released lk' = true ∧ run exec (Locker.Release held1) envs0 w0 = (Some (lk', None), w0).
Proof.
  destruct (lock_release_spec held1 envs0 w0 (fun _ => eq_refl) Mem.wf_New eq_refl) as (lk' & _ & Hr & Hx & _).
  exists lk'. split; [exact Hr|exact Hx].
Defined.

(** A record of "a" at version 1, and the lock that holds it. *)
Definition st_lock : Mem.state :=
  (Mem.WriteAll None None 0 mb P0 "" (Some (Locker.record_options (Locker.record lk0 "a" 0))) [] Mem.NewState).2.
Definition lock1 : Locker.Lock := Locker.start lk0 "k" P0 "a" "1" (0 + Locker.lease lk0).

Lemma lock_renew_witness :
  ∃ v w', run exec (Locker.renewTick lock1) envs0 (fun _ => st_lock) =
    (Some (Locker.renewed v (0 + Locker.lease lk0) lock1, true), w').
Proof.
  destruct (obj (fun _ => st_lock) bk P0) as [o|] eqn:Ho; [|vm_compute in Ho; discriminate].
  pose proof (lock_renew_spec lock1 o envs0 (fun _ => st_lock) (fun _ => eq_refl) ltac:(done) Ho) as Hr.
  cbn zeta in Hr. rewrite bool_decide_true in Hr by (vm_compute; reflexivity).
  rewrite bool_decide_true in Hr by (vm_compute in Ho; by injection Ho as <-).
  destruct Hr as (o' & _ & Hr). eexists _, _. exact Hr.
Defined.

Lemma lock_handover_witness :
  ∃ lk w', run exec (handover lk0 "k" "a" "b") envs0 w0 = (Some (Ok lk), w') ∧ Locker.lk_owner lk = "b" ∧
    Locker.lk_finished lk = false.
Proof.
  apply (lock_handover lk0 "k" P0 "a" "b" envs0 w0 eq_refl ltac:(done) ltac:(done) (fun _ => eq_refl) Mem.wf_New);
    vm_compute; reflexivity.
Defined.

(** ** A queue with one message *)

Definition q0 : Queue.Queue := Queue.mkQueue (mkHandle 0 "q/") "q/" (15 * Second) (5 * Second) 256
  (250 * Millisecond) (5 * Second) 2 Hour.
Definition red : metadata := Some {["color" := "red"]}.
Definition st_msg : Mem.state :=
  (Mem.WriteAll None None 0 mb "q/msg/m" "work" (Some (Queue.payload_options red)) [] Mem.NewState).2.

(** The same, claimed [n] times by "a"; the lease runs from the epoch. *)
Definition st_leased (n : Z) : Mem.state :=
  (Mem.WriteAll None None 0 mb "q/lease/m" ""
     (Some (Locker.record_options (Queue.leaseRecord q0 "a" 0 n))) [] st_msg).2.
Definition msg_m (n : Z) : Queue.Message :=
  Queue.startMessage q0 "m" "msg/m" "lease/m" "a" red n "2" (0 + Queue.q_lease q0).

Definition late : nat → env := fun i => at_time (100 * Second + Z.of_nat i).

Lemma st_msg_wf : Mem.wf st_msg.
Proof. eapply Mem.change_wf; [apply Mem.wf_New|apply Mem.WriteAll_change|vm_compute; reflexivity]. Qed.

Lemma st_leased_wf n : Mem.wf (st_leased n).
Proof. eapply Mem.change_wf; [apply st_msg_wf|apply Mem.WriteAll_change|vm_compute; reflexivity]. Qed.

Lemma st_msg_payload : ∃ pl, obj (fun _ => st_msg) (Queue.q_bucket q0) "msg/m" = Some pl ∧ a_Metadata (Mem.attrs pl) = red.
Proof. eexists. split; vm_compute; reflexivity. Qed.

Lemma st_leased_payload : ∃ pl, obj (fun _ => st_leased 2) (Queue.q_bucket q0) "msg/m" = Some pl ∧ a_Metadata (Mem.attrs pl) = red.
Proof. eexists. split; vm_compute; reflexivity. Qed.

Lemma st_leased_lease n : n = 1 ∨ n = 2 → ∃ lo, obj (fun _ => st_leased n) (Queue.q_bucket q0) "lease/m" = Some lo ∧
  a_Metadata (Mem.attrs lo) = Queue.leaseRecord q0 "a" 0 n.
Proof. intros [-> | ->]; eexists; split; vm_compute; reflexivity. Qed.

Lemma red_lower : lower_names red.
Proof. intros m k [= <-] [x [<- _]%lookup_singleton_Some]. split; [done|vm_compute; reflexivity]. Qed.

Lemma st_msg_unclaimed : obj (fun _ => st_msg) (Queue.q_bucket q0) "lease/m" = None.
Proof. vm_compute. reflexivity. Qed.

Lemma queue_claim_witness :
  ∃ m w', run exec (Queue.tryClaim q0 "m" "a") envs0 (fun _ => st_msg) = (Some (Ok (Some m)), w') ∧ Queue.m_receives m = 1.
Proof.
  destruct st_msg_payload as (pl & Hpl & _).
  pose proof (queue_claim_spec q0 "m" "a" pl envs0 (fun _ => st_msg) (fun _ => eq_refl) st_msg_wf Hpl) as Hc.
  cbn zeta in Hc. change (Queue.queueLeasePrefix +:+ "m") with "lease/m" in Hc. rewrite st_msg_unclaimed in Hc. destruct (Hc eq_refl) as (o & _ & Hr).
  eexists _, _. split; [exact Hr|reflexivity].
Defined.

Lemma queue_dead_letter_witness :
  ∃ w' o, run exec (Queue.tryClaim q0 "m" "b") late (fun _ => st_leased 2) = (Some (Ok None), w') ∧
    obj w' (Queue.q_bucket q0) "msg/m" = None ∧ obj w' (Queue.q_bucket q0) "dead/m" = Some o ∧
    a_Metadata (Mem.attrs o) = dead_metadata red 2.
Proof.
  destruct st_leased_payload as (pl & Hpl & Hred). destruct (st_leased_lease 2) as (lo & Hlo & Hmd); [by right|].
  destruct (queue_dead_letter q0 "m" "b" pl lo late (fun _ => st_leased 2) (fun _ => eq_refl) (st_leased_wf 2))
    as (w' & o & Hr & Hm & _ & Ho & _ & Hd).
  - vm_compute. reflexivity.
  - exact Hpl.
  - rewrite Hred. exact red_lower.
  - exact Hlo.
  - rewrite Hmd. vm_compute. reflexivity.
  - rewrite Hmd. vm_compute. split; [reflexivity|congruence].
  - exists w', o. split; [exact Hr|]. split; [exact Hm|]. split; [exact Ho|]. rewrite Hd, Hred, Hmd. reflexivity.
Defined.

Lemma queue_max_receives_witness : ∃ m, returns (Queue.tryClaim q0 "m" "a") (Ok (Some m)) ∧ 1 ≤ Queue.m_receives m ≤ 2.
Proof.
  assert (returns (Queue.tryClaim q0 "m" "a") (Ok (Some (Queue.startMessage q0 "m" "msg/m" "lease/m" "a" None 1 "1"
    (0 + Queue.q_lease q0))))) as Hr.
  { exists (Err ErrNotFound), 0, (Ok ()), (Ok (Mem.attrs obj1)), (Ok (Mem.attrs obj1)). reflexivity. }
  eexists. split; [exact Hr|].
  apply (queue_max_receives q0 "m" "a" _ ltac:(split; vm_compute; congruence) Hr).
Defined.

Lemma queue_enqueue_idempotent_witness :
  ∃ w' w'', run exec (Queue.EnqueueWithID q0 "m" (mkSource "work" None) red) envs0 w0 = (Some (Ok false), w') ∧
    run exec (Queue.EnqueueWithID q0 "m" (mkSource "again" None) None) envs0 w' = (Some (Ok true), w'').
Proof.
  destruct (queue_enqueue_idempotent q0 "m" (mkSource "work" None) (mkSource "again" None) red red None envs0 w0
    (fun _ => eq_refl) eq_refl eq_refl eq_refl) as (o & w' & _ & H1 & H2 & _).
  - vm_compute. reflexivity.
  - reflexivity.
  - reflexivity.
  - eexists _, _. split; [exact H1|exact H2].
Defined.

Lemma queue_ack_witness :
  ∃ m', Queue.m_settled m' = true ∧ run exec (Queue.Ack (msg_m 2)) envs0 (fun _ => st_leased 2) =
    (Some (m', None), removed (Queue.q_bucket q0) "msg/m" (removed (Queue.q_bucket q0) "lease/m" (fun _ => st_leased 2))).
Proof.
  destruct st_leased_payload as (pl & Hpl & _). destruct (st_leased_lease 2) as (lo & Hlo & Hmd); [by right|].
  destruct (queue_ack_spec (msg_m 2) pl envs0 (fun _ => st_leased 2) (fun _ => eq_refl) eq_refl ltac:(done)
    (st_leased_wf 2) Hpl) as (m' & Hs & _ & Hr & _).
  exists m'. split; [exact Hs|].
  assert (holds_lease (msg_m 2) (obj (fun _ => st_leased 2) (Queue.q_bucket q0) "lease/m") = true) as Hh
    by (rewrite Hlo; unfold holds_lease; cbn [from_option]; rewrite Hmd; reflexivity).
  match type of Hr with context [if ?c then _ else _] => replace c with true in Hr by (symmetry; exact Hh) end.
  exact Hr.
Defined.

Lemma queue_nack_witness :
  ∃ m' w', run exec (hand_back (msg_m 1) "b") envs0 (fun _ => st_leased 1) = (Some (Ok (Some m')), w') ∧ Queue.m_receives m' = 2.
Proof.
  destruct (st_leased_lease 1) as (lo & Hlo & Hmd); [by left|].
  destruct (obj (fun _ => st_leased 1) (Queue.q_bucket q0) "msg/m") as [pl|] eqn:Hpl; [|vm_compute in Hpl; discriminate].
  assert (Queue.queueParseReceives (a_Metadata (Mem.attrs lo)) = 1) as Hn by (rewrite Hmd; vm_compute; reflexivity).
  destruct (queue_nack_redelivers (msg_m 1) "b" pl lo envs0 (fun _ => st_leased 1) (fun _ => eq_refl))
    as (m' & w' & Hr & _ & _ & Hc).
  - intros i j Hij. cbn. lia.
  - apply utc_printable. vm_compute. split; congruence.
  - reflexivity.
  - reflexivity.
  - reflexivity.
  - apply st_leased_wf.
  - vm_compute. reflexivity.
  - exact Hpl.
  - exact Hlo.
  - rewrite Hmd. vm_compute. reflexivity.
  - rewrite Hn. vm_compute. reflexivity.
  - right. rewrite Hn. vm_compute. reflexivity.
  - exists m', w'. split; [exact Hr|]. rewrite Hc, Hn. reflexivity.
Defined.

Lemma queue_id_time_witness : Queue.queueIDTime (Queue.newQueueID 1700000000123456789 "u") = Some 1700000000123000000.
Proof. apply (queue_id_time_roundtrip 1700000000123456789 "u"). split; vm_compute; congruence. Defined.

Lemma queue_ids_sorted_witness :
  str_lt (Queue.newQueueID 1700000000123456789 "z") (Queue.newQueueID 1700000000124000000 "a").
Proof. apply queue_ids_sorted_by_time; try split; vm_compute; congruence. Defined.

Lemma queue_trim_only_expired_witness :
  sweepable q0 "msg/" 5 true (OListPage (Queue.q_bucket q0) FirstPageToken 1000 (mkListOptions "msg/" "" None)).
Proof. apply (queue_trim_only_expired 1 q0 "msg/" 5 true FirstPageToken 0 256). left. reflexivity. Defined.

(** One entry to trim, no second sweep entry. *)
Definition listed (key : string) : ListObject := mkListObject key 0 0 "" false.

Lemma queue_trim_bounded_witness : returns (Queue.Trim 1 q0) (Some (1, None)) ∧ 0 ≤ 1 ≤ Queue.DefaultTrimBatch.
Proof.
  assert (returns (Queue.Trim 1 q0) (Some (1, None))) as Hr.
  { exists (2 * Hour), (Ok ([listed "msg/0000000000000-u"], "")), (Ok ()), (Err ErrNotFound), (Ok ([], "")). reflexivity. }
  split; [exact Hr|]. exact (queue_trim_bounded 1 q0 1 None Hr).
Defined.

Definition tail0 : Tail.Tail := Tail.mkTail q0 (5 * Second).

Lemma tail_page_witness :
  ∃ now, page_ok tail0 now "" 256 [Tail.mkTailMessage q0 "0000000000000-u"] "0000000000000-u".
Proof.
  apply (tail_page_spec 1 tail0 "" 0).
  exists Hour, (Ok ([listed "msg/0000000000000-u"; listed "msg/0000003600000-v"], "")). reflexivity.
Defined.

Definition watcher0 : Watcher.Watcher :=
  Watcher.mkWatcher tail0 (Queue.mkQueue (mkHandle 1 "r/") "r/" (15 * Second) (5 * Second) 256
    (250 * Millisecond) (5 * Second) 0 0) lk0 bk "w" (250 * Millisecond) (5 * Second).

Lemma watcher_writes_local_only_witness :
  writes_within [mkHandle 1 "r/"; bk] (Watcher.runAsHolder 7 watcher0).
Proof. exact (watcher_writes_local_only 7 watcher0 eq_refl). Defined.

Lemma watcher_replicate_witness :
  ∃ st', run exec (Watcher.replicate watcher0 (Tail.mkTailMessage q0 "m")) envs0 (fun _ => st_msg) = (Some None, st').
Proof.
  destruct st_msg_payload as (pl & Hpl & Hred).
  destruct (watcher_replicate_spec watcher0 (Tail.mkTailMessage q0 "m") envs0 (fun _ => st_msg) (fun _ => eq_refl) eq_refl)
    as (st' & Hr & _); [|exists st'; exact Hr].
  intros pl' Hpl'. cbn in Hpl'. assert (Some pl' = Some pl) as [= ->] by (etrans; [symmetry; exact Hpl'|exact Hpl]).
  rewrite Hred. exact red_lower.
Defined.

Lemma watcher_cursor_rewound_witness :
  ∃ g' v v' o, rtc turn (mkWorld (fun _ => mkStore ∅ ∅) 0, stale_holder watcher0 "1" "2", successor watcher0 "9")
      (g', mret (Ok v), mret (Ok v')) ∧
    objs (stores g' 0) !! ".blobster/watch/w/cursor" = Some o ∧ so_data o = "2".
Proof. exact (watcher_cursor_rewound watcher0 (mkWorld (fun _ => mkStore ∅ ∅) 0) "1" "9" "2" eq_refl). Defined.

(** A copy that failed: its error is stored, then the channel is closed. *)
Definition copy_assigned : CrossCopy.CopyOperation * CrossCopy.goroutine :=
  (CrossCopy.mkCopyOperation false (Some EOF), CrossCopy.Assigned).
Definition copy_closed : CrossCopy.CopyOperation * CrossCopy.goroutine :=
  (CrossCopy.mkCopyOperation true (Some EOF), CrossCopy.Exited).

Lemma copy_outcome_final_witness :
  (CrossCopy.Err_ copy_assigned = None ∨ CrossCopy.Err_ copy_assigned = CrossCopy.Err_ copy_closed) ∧
  CrossCopy.Done copy_closed = true.
Proof.
  assert (rtc CrossCopy.step CrossCopy.StartCopyOperation copy_assigned) as H1.
  { eapply rtc_l; [apply (CrossCopy.step_fn _ (Some EOF))|]. eapply rtc_l; [apply CrossCopy.step_assign|apply rtc_refl]. }
  assert (rtc CrossCopy.step copy_assigned copy_closed) as H2.
  { eapply rtc_l; [apply CrossCopy.step_close|apply rtc_refl]. }
  split; [|done]. exact (proj1 (CrossCopy.copy_outcome_final copy_assigned copy_closed H1 H2) eq_refl).
Defined.
