(* ===== verification/TailWitnesses.v ===== *)
(** * Concrete instances for tails, retention and replication

    A queue with one message, in the bucket 0; the local queue and the cursor of
    the watcher are in the bucket 1. *)
From stdpp Require Import relations.
From S2P Require Import Prelude Strconv GoTime Md5 Core Effects Store MemDriver MemTheorems MemStore Locker MemRun.
From S2P Require Import Queue QueueTheorems QueueListing Watcher WatcherTheorems TailTheorems TailInterleaved TrimTheorems WatcherRun.

#[local] Instance tables : GoTables := {|
  unicode_lower := id;
  DetectContentType := fun _ => "application/octet-stream";
|}.
#[local] Existing Instance utc.

Import Queue.

Definition one_queue (b : Handle) : Queue :=
  mkQueue b "q/" (15 * Second) (5 * Second) 256 (250 * Millisecond) (5 * Second) 2 Hour.
Definition sq : Queue := one_queue (mkHandle 0 "q/").
Definition stail : Tail.Tail := Tail.mkTail sq (5 * Second).

Definition id1 : string := newQueueID Second "u".
Definition key1 : string := "q/msg/" +:+ id1.
Definition st_src : Mem.state := (Mem.WriteAll None None 0 (Mem.mkBucket "") key1 "work" None [] Mem.NewState).2.
Definition wsrc (n : nat) : Mem.state := match n with O => st_src | S _ => Mem.NewState end.
Definition clock_at (t : Z) : nat → env := λ _, mkEnv None t t (Ok "0123456789abcdef") (λ _, 0) "u" None false.

Lemma clock_calm t i : calm (clock_at t i).
Proof. done. Qed.

Lemma id1_stamped : stamped id1.
Proof. exists Second, "u". split; [split; vm_compute; congruence|done]. Qed.

Definition payload1 : Mem.object := Eval vm_compute in
  match Mem.objects st_src !! key1 with
  | Some o => o
  | None => Mem.mkObject "" (mkAttributes "" "" "" "" "" None 0 0 0 "" "" None)
  end.

(** Every object of the world is the payload. *)
Lemma src_obj b key o : obj wsrc b key = Some o → h_store b = 0%nat ∧ h_key b key = key1 ∧ o = payload1.
Proof.
  unfold obj. destruct (h_store b) as [|n]; cbn -[st_src]; [|by rewrite lookup_empty].
  assert (Mem.objects st_src = {[key1 := payload1]}) as -> by (vm_compute; reflexivity).
  by intros [<- <-]%lookup_singleton_Some.
Qed.

Lemma src_message id : is_Some (obj wsrc (mkHandle 0 "q/") ("msg/" +:+ id)) → id = id1.
Proof. intros [o (_ & E & _)%src_obj]. by apply (string_app_inj_l "q/msg/") in E. Qed.

Lemma src_stamped id : is_Some (obj wsrc (mkHandle 0 "q/") ("msg/" +:+ id)) → stamped id.
Proof. intros ->%src_message. apply id1_stamped. Qed.

(** ** The tail *)

(** The page a scan that returns, or goes on, has so far. *)
Definition scan_result (s : Tail.scanned) : list Tail.TailMessage * string :=
  match s with Tail.ScanReturn out next | Tail.ScanMore out next => (out, next) end.

Definition goes_on (s : Tail.scanned) : bool := match s with Tail.ScanMore _ _ => true | _ => false end.

Definition env_at (n : Z) : env := clock_at n 0%nat.

(** One message, one page, in two calls. *)
Lemma tail_no_gap_witness :
  ∃ s', tl_cursor s' = id1 ∧ message stail (tl_world s') id1 ∧ tl_shown s' = [id1] ∧ StronglySorted str_lt (tl_shown s').
Proof.
  set (s := mkTailing wsrc (100 * Second) "" [] None). set (s' := mkTailing wsrc (100 * Second) id1 [id1] None).
  assert (Z.of_nat (length (listing queueMsgPrefix wsrc (q_bucket (Tail.t_queue stail)))) + 1000 ≤ int64_max) as Hl
    by (vm_compute; discriminate).
  assert (rtc (tail_step stail (λ p, ¬ listing_underway p)) s s') as Hrun.
  { eapply rtc_l; [apply (step_start _ _ 2 0)|].
    eapply rtc_l; [apply (step_call _ _ (env_at (100 * Second))); [reflexivity|exact Hl|reflexivity]|].
    eapply rtc_l; [apply (step_call _ _ (env_at (100 * Second))); [reflexivity|exact Hl|apply (call_listing stail) with (e := 0%nat); [reflexivity|reflexivity|done|exact Hl]]|].
    match goal with |- rtc _ (mkTailing _ _ _ _ (Some ?p)) _ =>
      assert (p = Ret (Some (Ok ([Tail.mkTailMessage sq id1], id1)))) as -> by (vm_compute; reflexivity) end.
    apply rtc_once, step_take. }
  destruct (tail_no_gap stail s s' eq_refl eq_refl eq_refl src_stamped Hrun) as [_ Hs].
  exists s'. split; [reflexivity|]. split; [vm_compute; by eexists|]. split; [reflexivity|exact Hs].
Defined.

Lemma tail_page_complete_witness :
  run exec (Tail.Page 2 stail "" 10) (clock_at (100 * Second)) wsrc =
  (Some (Some (Ok ([Tail.mkTailMessage sq id1], id1))), wsrc).
Proof.
  rewrite (tail_page_complete 2 stail "" 10 (clock_at (100 * Second)) wsrc).
  - assert (page_of stail (100 * Second) "" 10 (ids_under queueMsgPrefix wsrc (mkHandle 0 "q/")) = ([Tail.mkTailMessage sq id1], id1)) as E
      by (vm_compute; reflexivity).
    cbn [e_clock clock_at]. by rewrite <- E.
  - apply clock_calm.
  - vm_compute. discriminate.
  - vm_compute. lia.
Defined.

(** ** A message that a tail skips

    1002 messages, a millisecond apart.  The first listing call of a page shows
    1000 of them; a consumer then acknowledges the first message; the second call
    asks for what comes after the first 1000 entries, and the entries have moved
    up by one. *)
Definition mid (i : nat) : string := newQueueID (Z.of_nat i * Millisecond) "u".
Definition mkey (i : nat) : string := "q/msg/" +:+ mid i.
Definition many : gmap string Mem.object := list_to_map ((λ i, (mkey i, payload1)) <$> seq 0 1002).
Definition w_many (n : nat) : Mem.state := match n with O => Mem.mkState many 0 | S _ => Mem.NewState end.
Definition w_acked (n : nat) : Mem.state := match n with O => Mem.mkState (delete (mkey 0) many) 0 | S _ => Mem.NewState end.

Lemma many_stamped id : message stail w_many id → stamped id.
Proof.
  intros [o Ho]. change (many !! ("q/msg/" +:+ id) = Some o) in Ho. apply elem_of_list_to_map_2 in Ho.
  apply list_elem_of_fmap in Ho as (i & E & Hi%elem_of_seq). injection E as E _.
  apply (string_app_inj_l "") in E as ->. exists (Z.of_nat i * Millisecond), "u". split; [|done].
  unfold id_range, UnixMilli. rewrite Z.div_mul by done. lia.
Qed.

Lemma acked_fewer id : message stail w_acked id → message stail w_many id.
Proof.
  intros [o Ho]. change (delete (mkey 0) many !! ("q/msg/" +:+ id) = Some o) in Ho. apply lookup_delete_Some in Ho as [_ Ho].
  by exists o.
Qed.

(** The scans of the two calls. *)
Definition scan1 : Tail.scanned :=
  Tail.scan stail (100 * Second) "" 2000 (take 1000 (listing queueMsgPrefix w_many (mkHandle 0 "q/"))) [] "".
Definition scan2 : Tail.scanned :=
  Tail.scan stail (100 * Second) "" 2000 (take 1000 (drop 1000 (listing queueMsgPrefix w_acked (mkHandle 0 "q/"))))
    (scan_result scan1).1 (scan_result scan1).2.

Lemma scans :
  goes_on scan1 = true ∧ length (listing queueMsgPrefix w_many (mkHandle 0 "q/")) = 1002%nat ∧ goes_on scan2 = true ∧
  length (listing queueMsgPrefix w_acked (mkHandle 0 "q/")) = 1001%nat ∧ (scan_result scan2).2 = mid 1001 ∧
  bool_decide (mid 1000 ∈ Tail.ID <$> (scan_result scan2).1) = false ∧ bool_decide (is_Some (delete (mkey 0) many !! mkey 1000)) = true.
Proof. vm_compute. by repeat split. Qed.

Lemma listed_many : after_listing stail 1 w_many (100 * Second) "" 2000 0 [] "" =
  Tail.page_loop 1 stail (100 * Second) "" 2000 (Itoa 1000) (scan_result scan1).1 (scan_result scan1).2.
Proof.
  destruct scans as (H1 & L1 & _). unfold after_listing. change (q_bucket (Tail.t_queue stail)) with (mkHandle 0 "q/").
  rewrite L1, drop_0. fold scan1. destruct scan1 as [o x|o x]; [discriminate H1|reflexivity].
Qed.

Lemma listed_acked :
  after_listing stail 0 w_acked (100 * Second) "" 2000 1000 (scan_result scan1).1 (scan_result scan1).2 =
  Ret (Some (Ok (scan_result scan2))).
Proof.
  destruct scans as (_ & _ & H2 & L2 & _). unfold after_listing. change (q_bucket (Tail.t_queue stail)) with (mkHandle 0 "q/").
  rewrite L2. fold scan2. destruct scan2 as [o x|o x]; [discriminate H2|reflexivity].
Qed.

(** A follower that starts as in [tail_no_gap] passes a message that is there
    without having been shown it, when a removal falls between two listing calls. *)
Theorem tail_skips :
  ∃ s s' id, tl_cursor s = "" ∧ tl_shown s = [] ∧ tl_page s = None ∧ (∀ id, message stail (tl_world s) id → stamped id) ∧
    rtc (tail_step stail (λ _, True)) s s' ∧
    message stail (tl_world s') id ∧ String.le id (tl_cursor s') ∧ id ∉ tl_shown s'.
Proof.
  destruct scans as (_ & L1 & _ & L2 & Hn & Hnot & Hm).
  exists (mkTailing w_many (100 * Second) "" [] None).
  exists (mkTailing w_acked (100 * Second) (scan_result scan2).2 ([] ++ (Tail.ID <$> (scan_result scan2).1)) None), (mid 1000).
  cbn [tl_cursor tl_shown tl_page tl_world]. split_and!; [done..|apply many_stamped| | | |].
  - eapply rtc_l; [apply (step_start _ _ 2 2000)|].
    eapply rtc_l; [apply (step_call _ _ (env_at (100 * Second))); [reflexivity| |reflexivity]|].
    { change (q_bucket (Tail.t_queue stail)) with (mkHandle 0 "q/"). rewrite L1. done. }
    eapply rtc_l; [apply (step_call _ _ (env_at (100 * Second))); [reflexivity| |apply (call_listing stail) with (e := 0%nat); [reflexivity|reflexivity|done|]]|].
    1, 2: change (q_bucket (Tail.t_queue stail)) with (mkHandle 0 "q/"); rewrite L1; done.
    match goal with |- rtc _ (mkTailing _ _ _ _ (Some ?p)) _ =>
      change p with (after_listing stail 1 w_many (100 * Second) "" 2000 0 [] "") end. rewrite listed_many.
    eapply rtc_l; [apply (step_other _ _ _ w_acked); [apply acked_fewer|by right]|].
    eapply rtc_l; [apply (step_call _ _ (env_at (100 * Second))); [reflexivity| |apply (call_listing stail) with (e := 1000%nat); [reflexivity|vm_compute; reflexivity|done|]]|].
    1, 2: change (q_bucket (Tail.t_queue stail)) with (mkHandle 0 "q/"); rewrite L2; done.
    rewrite listed_acked. destruct (scan_result scan2) as [out next]. apply rtc_once, step_take.
  - by apply bool_decide_eq_true in Hm.
  - rewrite Hn. apply string_leb_le. vm_compute. reflexivity.
  - rewrite app_nil_l. by apply bool_decide_eq_false in Hnot.
Qed.

Lemma tail_progress_witness :
  ∃ out next, run exec (Tail.Page 2 stail "" 10) (clock_at (100 * Second)) wsrc = (Some (Some (Ok (out, next))), wsrc) ∧
    id1 ∈ Tail.ID <$> out.
Proof.
  destruct (tail_progress stail 2 10 (clock_at (100 * Second)) wsrc "" id1) as (out & next & Hx & Hif).
  - apply clock_calm.
  - vm_compute. discriminate.
  - vm_compute. lia.
  - reflexivity.
  - exact src_stamped.
  - vm_compute. by eexists.
  - split; [vm_compute; exact I|discriminate].
  - vm_compute. reflexivity.
  - exists out, next. split; [exact Hx|]. revert Hif. vm_compute. exact id.
Defined.

(** ** Retention *)

Lemma queue_trim_spec_witness :
  ∃ w', run exec (Trim 1 sq) (clock_at (2 * Hour)) wsrc = (Some (Some (1, None)), w') ∧
    ∃ msgs leases, Z.of_nat (length msgs + length leases) = 1 ∧
      gone_exactly sq (victims queueMsgPrefix true msgs ++ victims queueLeasePrefix false leases) wsrc w'.
Proof.
  destruct (queue_trim_spec sq 1 (clock_at (2 * Hour)) wsrc) as (msgs & leases & w' & Hx & _ & _ & _ & _ & Hg & _).
  - apply clock_calm.
  - reflexivity.
  - lia.
  - vm_compute. discriminate.
  - intros id [Hid|Hid]; [by apply src_stamped|]. destruct Hid as [o (_ & E & _)%src_obj]. discriminate E.
  - assert (Z.of_nat (length msgs + length leases) = 1) as Hn.
    { assert ((run exec (Trim 1 sq) (clock_at (2 * Hour)) wsrc).1 = Some (Some (1, None))) as E by (vm_compute; reflexivity).
      rewrite Hx in E. by injection E. }
    exists w'. split; [rewrite <- Hn; exact Hx|]. exists msgs, leases. split; [exact Hn|exact Hg].
Defined.

(** ** Replication *)

Definition lq : Queue := one_queue (mkHandle 1 "r/").
Definition swatcher : Watcher.Watcher :=
  Watcher.mkWatcher stail lq (Locker.NewLocker (mkHandle 1 "") []) (mkHandle 1 "") "w" (250 * Millisecond) (5 * Second).

Lemma swatcher_follows : following swatcher wsrc "" "".
Proof.
  split; [| |intros id pl o _ Ho; apply src_obj in Ho as [E _]; discriminate E|by split].
  - intros id pl Hpl. assert (id = id1) as -> by (apply src_message; by exists pl). split; [apply id1_stamped|].
    split; [vm_compute; reflexivity|]. apply src_obj in Hpl as (_ & _ & ->). intros m k E Hk. vm_compute in E. discriminate E.
  - intros id ->%src_message Hle. exfalso. revert Hle. vm_compute. exact id.
Qed.

Lemma watcher_catches_up_witness :
  ∃ envs' cursor' version' backoff' st',
    run exec (Watcher.holder_loop 3 swatcher "" "" 0) (clock_at (100 * Second)) wsrc =
    run exec (Watcher.holder_loop 2 swatcher cursor' version' backoff') envs' st' ∧
    ∃ o, obj st' (mkHandle 1 "r/") ("msg/" +:+ id1) = Some o ∧ Mem.data o = "work".
Proof.
  destruct (watcher_catches_up swatcher ltac:(discriminate) ltac:(discriminate) ltac:(intros id _; discriminate)
    1 2 "" "" 0 (clock_at (100 * Second)) wsrc) as (envs' & c & v & bo & st' & Hx & _ & _ & Hall).
  - intros i. split; [done|]. split; [done|]. split; [done|]. intros id ->%src_message. vm_compute. reflexivity.
  - apply swatcher_follows.
  - vm_compute. lia.
  - vm_compute. discriminate.
  - vm_compute. lia.
  - exists envs', c, v, bo, st'. split; [exact Hx|].
    destruct (Hall id1 payload1) as (_ & o & Ho & Hd & _); [vm_compute; reflexivity|].
    exists o. split; [exact Ho|]. rewrite Hd. reflexivity.
Defined.
