(* ===== verification/FileWitnesses.v ===== *)
(** * Concrete instances for the file driver

    A bucket in /srv, a codec that satisfies the laws of [Json], machines with
    and without a failing call. *)
From S2P Require Import Prelude Strconv GoTime Md5 Core Effects Store Filesystem FileDriver FileTheorems FileStore FileReads.
Import File.

#[local] Instance tables : GoTables := {|
  unicode_lower := id;
  DetectContentType := fun _ => "application/octet-stream";
|}.

(** ** A codec: the record's code as a string of digits *)

#[local] Instance storedAttrs_eq_dec : EqDecision storedAttrs.
Proof. solve_decision. Defined.

#[local] Instance storedAttrs_countable : Countable storedAttrs.
Proof.
  refine (inj_countable'
    (fun s => (st_Version s, (st_MD5 s, (st_ContentType s, (st_CreateTime s, (st_Size s, (st_Metadata s,
               (st_CacheControl s, (st_ContentDisposition s, (st_ContentEncoding s, st_ContentLanguage s))))))))))
    (fun '(v, (m, (ct, (t, (sz, (md, (cc, (cd, (ce, cl))))))))) => mkStored v cc cd ce cl ct md m sz t) _).
  by intros [].
Defined.

Fixpoint digits (x : positive) : string :=
  match x with
  | xH => ""
  | xO x => String "0" (digits x)
  | xI x => String "1" (digits x)
  end.

Fixpoint undigits (s : string) : positive :=
  match s with
  | EmptyString => xH
  | String c s => if decide (c = "0"%char) then xO (undigits s) else xI (undigits s)
  end.

Lemma undigits_digits x : undigits (digits x) = x.
Proof. induction x as [x IH|x IH|]; cbn; [by rewrite IH..|done]. Qed.

#[local] Instance codec : Json.
Proof.
  refine {|
    json_Marshal s := digits (encode (omitempty s));
    json_Unmarshal d := match decode (undigits d) with Some s => Ok s | None => Err (ErrOther "json") end;
    encodable _ := True;
  |}.
  - intros s _. by rewrite undigits_digits, decode_encode.
  - intros d e. destruct (decode _); [done|]. intros [= <-]. by eexists.
Defined.

(** ** A bucket in /srv *)

Definition srv : Bucket := New 0 ["srv"].
Definition disk0 : os := mkOs (<[[] := Dir]> {[["srv"] := Dir]}) 0.

(** A machine whose calls fail as [fault] says; tokens and names from the
    call's number. *)
Definition machine (fault : nat → option error) : sysenv :=
  mkSysenv fault (fun _ => 0%nat) (fun _ => 0%nat) (fun i => Z.of_nat i)
    (fun i => Ok (String (Ascii.ascii_of_nat i) "123456789abcdef")) (fun i => Itoa (Z.of_nat i)) (fun _ => (0, 4096)).

Definition sound : sysenv := machine (fun _ => None).

Definition disk1 : os := (WriteAll sound None None srv "a/k" "old" None [] disk0).2.

(** The call that syncs the sidecar of the second write fails. *)
Definition broken (i : nat) : sysenv := machine (fun j => if decide (j = i) then Some (ErrOther "I/O error") else None).

Lemma plain_srv : Forall plain ["srv"].
Proof. by repeat constructor. Qed.

Lemma sound_honest : honest sound.
Proof. intros i e. done. Qed.

Lemma broken_honest i : honest (broken i).
Proof. intros j e. cbn. case_decide; [|done]. intros [= <-]. by eexists. Qed.

Lemma disk0_wf : wf_tree (nodes disk0).
Proof. apply wf_tree_check. by vm_compute. Qed.

Lemma disk1_wf : wf_tree (nodes disk1).
Proof. apply wf_tree_check. by vm_compute. Qed.

Definition apaths : objectPaths := mkPaths ["srv"; "data"; "a"; "k"] ["srv"; "meta"; "a"; "k"].

Lemma apaths_ok : paths srv "a/k" = Ok apaths.
Proof. by vm_compute. Qed.

Lemma file_paths_confined_witness :
  paths srv "a//./../a/k" = Ok apaths ∧
  ∃ r, r ≠ [] ∧ Forall plain r ∧ apaths = mkPaths (["srv"] ++ "data" :: r) (["srv"] ++ "meta" :: r).
Proof.
  assert (paths srv "a//./../a/k" = Ok apaths) as E by (by vm_compute). split; [exact E|].
  pose proof (file_paths_confined srv "a//./../a/k" plain_srv) as Hc. rewrite E in Hc. exact Hc.
Defined.

Lemma file_sub_escapes_witness :
  paths (Sub srv "tenant/") "../other/k" = paths srv "other/k" ∧ is_Ok (paths srv "other/k") = true.
Proof. apply (file_sub_escapes 0 ["srv"] "tenant" "other" ["k"]); by repeat constructor. Defined.

Definition disk2 : os := (WriteAll sound None None srv "a/k" "newer" None [Some IfNotExists] disk1).2.

(** A create-only write of an object that exists leaves both files alone. *)
Lemma file_write_atomic_witness :
  WriteAll sound None None srv "a/k" "newer" None [Some IfNotExists] disk1 = (Err ErrPreconditionFailed, disk2) ∧
  nodes disk2 !! p_meta apaths = nodes disk1 !! p_meta apaths.
Proof.
  assert (WriteAll sound None None srv "a/k" "newer" None [Some IfNotExists] disk1 = (Err ErrPreconditionFailed, disk2))
    as E by (vm_compute; reflexivity). split; [exact E|].
  destruct (file_write_atomic sound srv "a/k" apaths "newer" [Some IfNotExists] _ disk1 _ disk2
    sound_honest plain_srv disk1_wf apaths_ok (call_WriteAll _ _ _ _ _ None None None) E) as [_ [Hm _]]. exact Hm.
Defined.

(** ** Two buckets on one directory

    A second [New] of /srv has a mutex of its own.  Two writers that may only
    create the object, one of each bucket: both look before either has renamed,
    and both commit. *)
Definition srv2 : Bucket := New 1 ["srv"].

Definition opened (b : Bucket) (d : bytes) : io writer :=
  w ← NewWriter sound b "a/k" None [Some IfNotExists];
  '(w, _, _) ← Write sound None d w;
  mret w.

(** What is left of a [Close] that has checked its precondition. *)
Definition close_rest (w : writer) (attrs : Attributes) : io unit :=
  _ ← close_rename sound w;
  writeFileAtomic sound (w_bucket w) (p_meta (w_paths w)) (mustMarshalAttrs attrs).

Definition race : io unit :=
  w1 ← opened srv "one"; w2 ← opened srv2 "two";
  a1 ← close_check sound None w1; a2 ← close_check sound None w2;
  _ ← close_rest w1 a1; close_rest w2 a2.

(** The same two writers, closed one after the other. *)
Definition in_turn : io (option error * option error) :=
  w1 ← opened srv "one"; w2 ← opened srv2 "two";
  '(_, e1) ← Close sound None w1; '(_, e2) ← Close sound None w2; mret (e1, e2).

Theorem file_two_buckets_both_create :
  root srv = root srv2 ∧ mu srv ≠ mu srv2 ∧ (race disk0).1 = Ok tt ∧
  (in_turn disk0).1 = Ok (None, Some ErrPreconditionFailed).
Proof. split_and!; [done|done|vm_compute; reflexivity..]. Qed.

Lemma file_write_then_read_witness : (ReadAll sound None srv "a/k" disk1).1 = Ok "old".
Proof.
  assert (WriteAll sound None None srv "a/k" "old" None [] disk0 = (Ok tt, disk1)) as E by (vm_compute; reflexivity).
  destruct (file_write_then_read sound sound None None srv "a/k" "old" None [] disk0 disk1
    sound_honest (fun _ => eq_refl) plain_srv disk0_wf (fun _ => ltac:(done)) (fun _ _ _ _ _ _ => I) E) as [Hr _].
  exact Hr.
Defined.

(** The sidecar of the first write, and the disk after a second one whose
    sidecar could not be synced. *)
Definition stored1 : storedAttrs :=
  mkStored (version_of sound 6) "" "" "" "" "application/octet-stream" None (md5_Sum "old") 3 5.
Definition torn : os := (WriteAll (broken 32) None None srv "a/k" "newer bytes" None [] disk1).2.

Lemma file_torn_commit_witness :
  (ReadAll sound None srv "a/k" disk1).1 = Ok "old" ∧
  (WriteAll (broken 32) None None srv "a/k" "newer bytes" None [] disk1).1 = Err (ErrOther "I/O error") ∧
  (ReadAll sound None srv "a/k" torn).1 = Ok "new".
Proof.
  split; [by vm_compute|]. split; [by vm_compute|].
  assert (file (nodes disk1) (p_meta apaths) (json_Marshal stored1)) as Hm.
  { split; [apply disk1_wf; by vm_compute; eexists|]. eexists. by vm_compute. }
  assert (WriteAll (broken 32) None None srv "a/k" "newer bytes" None [] disk1 = (Err (ErrOther "I/O error"), torn))
    as E by (vm_compute; reflexivity).
  assert (nodes torn !! p_data apaths ≠ nodes disk1 !! p_data apaths) as Hne by (by vm_compute).
  destruct (file_torn_commit (broken 32) sound None None srv "a/k" apaths "newer bytes" None [] disk1
    _ torn stored1 (broken_honest 32) (fun _ => eq_refl) plain_srv disk1_wf apaths_ok
    Hm I ltac:(by vm_compute) ltac:(by vm_compute) E Hne) as [Hr _].
  rewrite Hr. by vm_compute.
Defined.

(** ** The driver as a store *)

Definition one_key (r0 r : list string) : Prop := r = r0.

Lemma one_key_flat r0 : r0 ≠ [] → Forall plain r0 → flat (one_key r0).
Proof. intros H1 H2. split; [by intros r ->|]. intros r r' -> ->. apply above_irrefl. Qed.

Lemma sound_machine U : (∀ i, version_of sound i ∉ U) → machine_ok (λ _, True) (λ _, True) U sound None None.
Proof. intros HU. split; [apply sound_honest|by intros e [?|?]|done|done|]. intros i. by split. Qed.

(** A tree without regular files has no objects. *)
Lemma empty_sound rt K n U :
  wf_tree n → (∀ q, n !! q = None ∨ n !! q = Some Dir) → (∀ r, K r → n !! dpath rt r = None) → "" ∉ U →
  sound_tree rt K n U.
Proof.
  intros Hwf Hn HK HU. split; [done|..|done].
  - intros r d t Hd. destruct (Hn (dpath rt r)); congruence.
  - intros r d t Hd. destruct (Hn (dpath rt r)); congruence.
  - intros r Hr. by rewrite HK.
Qed.

Lemma disk0_sound K : (∀ r, K r → r ≠ []) → sound_tree ["srv"] K (nodes disk0) ∅.
Proof.
  intros HK. apply empty_sound; [apply disk0_wf| | |set_solver].
  - intros q. cbn. rewrite lookup_insert. case_decide; [by right|]. rewrite lookup_singleton. case_decide; [by right|by left].
  - intros r Hr%HK. destruct r; [done|]. cbn. by rewrite lookup_insert_ne, lookup_singleton_ne.
Qed.

Definition hsrv : Handle := mkHandle 0 "".
Definition write_k : op := OWriteAll hsrv "a/k" "old" zeroWriterOptions [].
Definition disk_k : os := (WriteAll sound None None srv "a/k" "old" (Some zeroWriterOptions) [] disk0).2.

Lemma write_k_ok : file_ok (one_key ["a"; "k"]) (λ _, True) (λ _, True) write_k.
Proof.
  split; [exists ["a"; "k"]; by split|]. split; [by intros e|]. intros o o' Ho Ho'. split; [|by intros].
  destruct (writeall_options _ _ _ _ Ho Ho') as (md & md' & [= <-] & [= <-] & -> & _). discriminate.
Qed.

Lemma one_key_a : flat (one_key ["a"; "k"]).
Proof. apply one_key_flat; [done|by repeat constructor]. Qed.

Lemma a_not_root r : one_key ["a"; "k"] r → r ≠ [].
Proof. by intros ->. Qed.

Lemma write_k_runs : file_exec ["srv"] sound None None write_k disk0 = (Some (Ok tt), disk_k).
Proof. vm_compute. reflexivity. Qed.

Lemma file_refines_store_witness :
  ∃ U', sound_tree ["srv"] (one_key ["a"; "k"]) (nodes disk_k) U' ∧
    spec write_k (mkStore (contents ["srv"] (nodes disk0)) ∅) (Ok tt) (mkStore (contents ["srv"] (nodes disk_k)) U').
Proof.
  destruct (file_refines_store ["srv"] (one_key ["a"; "k"]) (λ _, True) (λ _, True) sound None None write_k disk0 (Ok tt) disk_k ∅
    plain_srv one_key_a (sound_machine ∅ (λ i, not_elem_of_empty _)) write_k_ok
    (disk0_sound _ a_not_root) write_k_runs)
    as [(r & e & _ & He & _)|(U' & _ & H1 & H2)].
  - discriminate He.
  - exists U'. split; [exact H1|exact H2].
Defined.

(** ** Reading the object back in pieces *)

Lemma disk_k_sound : ∃ U, sound_tree ["srv"] (one_key ["a"; "k"]) (nodes disk_k) U.
Proof.
  destruct (file_step ["srv"] (one_key ["a"; "k"]) plain_srv one_key_a (λ _, True) (λ _, True) sound None None write_k disk0
    (Ok tt) disk_k ∅ (sound_machine ∅ (λ i, not_elem_of_empty _)) write_k_ok (disk0_sound _ a_not_root) write_k_runs)
    as [(r & e & _ & He & _)|[Hs _]]; [discriminate He|by eexists].
Qed.

Lemma file_range_read_witness :
  ∃ rd s', NewRangeReader sound None (fileBucket ["srv"] hsrv) "a/k" 1 5 None disk_k = (Ok rd, s') ∧
    reader_Size rd = 3 ∧ delivers sound rd "ld" ∧
    ∃ rd', Seek 1 0 rd = (Ok 1, rd') ∧ delivers sound rd' "d".
Proof.
  destruct disk_k_sound as [U Hs].
  destruct (file_range_read sound (λ i, eq_refl) ["srv"] (one_key ["a"; "k"]) plain_srv one_key_a hsrv "a/k" ["a"; "k"] 1 5
    disk_k U (mkSobject "old" None (version_of sound 6)))
    as (rd & s' & Hr & _ & Hsz & Hd & Hseek).
  - by split.
  - exact Hs.
  - vm_compute. reflexivity.
  - lia.
  - vm_compute. discriminate.
  - exists rd, s'. split; [exact Hr|]. split; [exact Hsz|]. split; [exact Hd|].
    destruct (Hseek 1 ltac:(vm_compute; split; discriminate)) as (rd' & H1 & _ & H2). exists rd'. split; [exact H1|exact H2].
Defined.
