(* ===== verification/FileConformance.v ===== *)
(** * The conformance suite on the file driver

    [TestBucket] run on the model of the file driver, in a new directory, on a
    machine whose calls do not fail; the sidecars go through the codec of
    [FileWitnesses]. *)
From S2P Require Import Prelude Strconv GoTime Md5 Core Effects Store Filesystem FileDriver FileTheorems FileStore FileWitnesses.
From S2P Require Import MemDriver Blobtest.

#[local] Existing Instance FileWitnesses.codec.

#[local] Instance sniffing : GoTables := Build_GoTables (λ s, s) (λ _, "text/html; charset=utf-8").

(** A reader read to its end, and in one full buffer. *)
Definition section_ReadAll (r : File.reader) (s : os) : (result bytes * File.reader) * os :=
  let '(d, s') := File.read_to_end sound r s in
  ((d, File.set_off (Z.max (File.sr_off (File.r_section r)) (File.sr_limit (File.r_section r))) r), s').

Definition section_ReadFull (n : Z) (r : File.reader) (s : os) : (result bytes * File.reader) * os :=
  match File.Read sound n r s with
  | (Ok (p, _, r'), s') =>
    ((if bool_decide (strlen p < n) then Err (if bool_decide (p = "") then EOF else ErrOther "unexpected EOF") else Ok p, r'), s')
  | (Err e, s') => ((Err e, r), s')
  end.

#[local] Instance file_Driver : Blobtest.Driver os File.Bucket File.reader File.writer := {|
  Blobtest.WriteAll b key p opts pre := File.WriteAll sound None None b key p opts pre;
  Blobtest.Upload b key r opts pre := File.Upload sound None None b key r opts pre;
  Blobtest.Download b key s := Some (File.Download sound None b key None (λ _, None) s).1;
  Blobtest.Exists b key s := (File.Exists sound None b key s).1;
  Blobtest.ReadAll b key s := Some (File.ReadAll sound None b key s).1;
  Blobtest.Attributes_ b key s := (File.Attributes_ sound None b key s).1;
  Blobtest.Delete b key pre := File.Delete sound None b key pre;
  Blobtest.UpdateMetadata b key md := File.UpdateMetadata sound None b key md;
  Blobtest.Copy b dst src := File.Copy sound None None b dst src;
  Blobtest.ListPage b token size opts s :=
    match (File.ListPage sound None b token size opts s).1 with
    | Ok None => None
    | Ok (Some page) => Some (Ok page)
    | Err e => Some (Err e)
    end;
  Blobtest.Sub := File.Sub;
  Blobtest.SignedURL _ _ s := (File.SignedURL None s).1;
  Blobtest.Capabilities_ _ := File.Capabilities_;
  Blobtest.NewRangeReader b key off len s := Some (File.NewRangeReader sound None b key off len None s).1;
  Blobtest.rd_ReadAll := section_ReadAll;
  Blobtest.rd_Seek := File.Seek;
  Blobtest.rd_ReadFull := section_ReadFull;
  Blobtest.rd_Size := File.reader_Size;
  Blobtest.rd_ContentType := File.reader_ContentType;
  Blobtest.NewWriter b key opts pre := File.NewWriter sound b key opts pre;
  Blobtest.wr_Write cx p w s :=
    match File.Write sound cx p w s with
    | (Ok (w', n, None), s') => ((w', Ok n), s')
    | (Ok (w', _, Some e), s') => ((w', Err e), s')
    | (Err e, s') => ((w, Err e), s')
    end;
  Blobtest.wr_Close cx w s :=
    match File.Close sound cx w s with
    | (Ok (_, None), s') => (Ok tt, s')
    | (Ok (_, Some e), s') => (Err e, s')
    | (Err e, s') => (Err e, s')
    end;
|}.

(** The file driver passes its conformance suite, in whichever order the two
    racing writers come. *)
Theorem file_conforms swapped : Blobtest.TestBucket swapped (srv, disk0) = [].
Proof. destruct swapped; vm_compute; reflexivity. Qed.
