(* ===== verification/RemoteWitnesses.v ===== *)
(** * Concrete services for the remote drivers

    A small service for each of the drivers, on which the laws that the theorems
    assume are proved and the theorems applied: a bucket that accepts one write of
    one object, and serves, lists and deletes it; and a bucket with server-side
    copies.  The ranges of a request are parsed from the header. *)
From stdpp Require Import infinite.
From S2P Require Import Prelude Strconv GoTime Md5 Core Effects Store Unicode NetUrl Remote RemoteTheorems RemoteStore S3Driver S3Theorems S3CopyTheorems GcsDriver GcsTheorems AzureKeys AzureDriver AzureTheorems AzureStore.

#[local] Arguments String.append !_ _ / : simpl nomatch.

#[local] Instance tables : GoTables := {|
  unicode_lower := id;
  DetectContentType := fun _ => "application/octet-stream";
|}.
#[local] Instance upper : UpperTable := {| unicode_upper s := s |}.
#[local] Instance urls : UrlTable := {| url_Host s := Some s |}.

(** ** Range headers *)

(** [bytes=a-] and [bytes=a-b]. *)
Definition parse_range (s : string) : option (Z * option Z) :=
  match CutPrefix s "bytes=" with
  | Some rest =>
    match SplitByte rest "-" with
    | [x; y] =>
      match Atoi x with
      | Ok a => if bool_decide (y = "") then Some (a, None)
                else match Atoi y with Ok b => Some (a, Some b) | Err _ => None end
      | Err _ => None
      end
    | _ => None
    end
  | None => None
  end.

Lemma SplitByte_cut x s c :
  LastIndexByte x c = None → SplitByte (x +:+ String c s) c = x :: SplitByte s c.
Proof.
  induction x as [|d x IH]; cbn; [by rewrite decide_True|]. destruct (LastIndexByte x c); [done|].
  case_decide; [done|]. intros _. by rewrite IH.
Qed.

Lemma SplitByte_whole x c : LastIndexByte x c = None → SplitByte x c = [x].
Proof.
  induction x as [|d x IH]; cbn; [done|]. destruct (LastIndexByte x c); [done|].
  case_decide; [done|]. intros _. by rewrite IH.
Qed.

Lemma dec_digits_no_dash w n : LastIndexByte (dec_digits w n) "-" = None.
Proof.
  induction w as [|w IH]; [done|]. cbn [dec_digits LastIndexByte]. rewrite IH.
  rewrite decide_False; [done|]. intros E. apply (f_equal Ascii.N_of_ascii) in E.
  unfold digit in E. pose proof (Z.mod_pos_bound (n `div` 10 ^ Z.of_nat w) 10).
  rewrite Ascii.N_ascii_embedding in E by lia. change (Ascii.N_of_ascii "-") with 45%N in E. lia.
Qed.

Lemma Itoa_no_dash n : 0 ≤ n → LastIndexByte (Itoa n) "-" = None.
Proof. intros. unfold Itoa. rewrite bool_decide_false by lia. apply dec_digits_no_dash. Qed.

Lemma Itoa_not_empty n : 0 ≤ n ≤ int64_max → Itoa n ≠ "".
Proof. intros Hn E. pose proof (Atoi_Itoa n Hn) as H. by rewrite E in H. Qed.

Lemma parse_from a : 0 ≤ a ≤ int64_max → parse_range ("bytes=" +:+ Itoa a +:+ "-") = Some (a, None).
Proof.
  intros Ha. unfold parse_range. rewrite CutPrefix_app.
  rewrite SplitByte_cut by (apply Itoa_no_dash; lia). cbn [SplitByte]. by rewrite Atoi_Itoa.
Qed.

Lemma parse_between a b :
  0 ≤ a ≤ int64_max → 0 ≤ b ≤ int64_max →
  parse_range ("bytes=" +:+ Itoa a +:+ "-" +:+ Itoa b) = Some (a, Some b).
Proof.
  intros Ha Hb. unfold parse_range. rewrite CutPrefix_app. change ("-" +:+ Itoa b) with (String "-" (Itoa b)).
  rewrite SplitByte_cut, SplitByte_whole by (apply Itoa_no_dash; lia).
  rewrite !Atoi_Itoa by lia. by rewrite bool_decide_false by (by apply Itoa_not_empty).
Qed.

(** ** The service

    Empty, holding the one object it accepts, or with that object deleted. *)
Inductive svc := Empty | Full | Gone.

Definition k0 : string := "locks/a".
Definition d0 : bytes := "hello".
Definition v0 : string := "1".
Definition o0 : sobject := mkSobject d0 None v0.

Definition contents (w : svc) : store :=
  match w with
  | Empty => mkStore ∅ ∅
  | Full => mkStore {[k0 := o0]} {[v0]}
  | Gone => mkStore ∅ {[v0]}
  end.

Lemma contents_lookup w k o : objs (contents w) !! k = Some o → w = Full ∧ k = k0 ∧ o = o0.
Proof.
  destruct w; [done| |done]. change (objs (contents Full)) with ({[k0 := o0]} : gmap string sobject).
  by intros [<- <-]%lookup_singleton_Some.
Qed.

(** Whether the object is there under this key. *)
Definition here (k : string) (w : svc) : bool :=
  match w with Full => bool_decide (k = k0) | _ => false end.

Lemma here_true k w : here k w = true → w = Full ∧ k = k0 ∧ objs (contents w) !! k = Some o0.
Proof.
  destruct w; [done| |done]. cbn [here]. intros ->%bool_decide_eq_true. split_and!; [done..|].
  change (objs (contents Full)) with ({[k0 := o0]} : gmap string sobject). apply lookup_singleton_eq.
Qed.

Lemma here_false k w : here k w = false → objs (contents w) !! k = None.
Proof.
  destruct w; [done| |done]. cbn [here]. intros H%bool_decide_eq_false.
  change (objs (contents Full)) with ({[k0 := o0]} : gmap string sobject). by apply lookup_singleton_ne.
Qed.

Lemma fresh0 : fresh_token (contents Empty) d0 v0.
Proof. split; [done|set_solver]. Qed.

Section calls.
Context {E : Type} (raw : E → error) (neither : E → Prop) (missing conflict busy : E).

(** A write under a condition. *)
Definition accept (allowed : option string → bool) (k : string) (d : bytes) (md : metadata) : M svc (option E) := λ w,
  if negb (allowed (version_at (contents w) k)) then (Some conflict, w)
  else match w with
       | Empty => if bool_decide (k = k0 ∧ d = d0 ∧ md = None) then (None, Full) else (Some busy, w)
       | _ => (Some busy, w)
       end.

Definition upload (allowed : option string → bool) (k : string) (md : metadata) : uploader svc E :=
  mkUploader (λ _ _, mret None)
    (λ src, match s_err src with Some _ => mret (Some busy) | None => accept allowed k (s_bytes src) md end).

Definition remove (allowed : option string → bool) (k : string) : M svc (option E) := λ w,
  if negb (here k w) then (Some missing, w)
  else if negb (allowed (version_at (contents w) k)) then (Some conflict, w)
  else (None, Gone).

Context (rule : token_rule) (Hrule : rule (contents Empty) d0 v0).
Context (Hc : other_error (raw conflict)) (Hb : other_error (raw busy)) (Hn : neither busy).

Lemma accept_law allowed k d md w a w' :
  accept allowed k d md w = (a, w') → put_law contents rule raw neither k d md allowed w a w'.
Proof.
  unfold accept, put_law. destruct (allowed _) eqn:Ea; cbn [negb].
  2: { intros [= <- <-]. split; [done|]. left. auto. }
  assert (a = Some busy → w' = w → put_law contents rule raw neither k d md allowed w a w') as Hbusy.
  { intros -> ->. split; [done|]. left. auto. }
  unfold put_law in Hbusy. rewrite Ea in Hbusy.
  destruct w; [|intros [= <- <-]; by apply Hbusy..].
  case_bool_decide as H; intros [= <- <-]; [|by apply Hbusy]. destruct H as (-> & -> & ->).
  split; [done|]. exists v0. split; [done|]. cbn. by rewrite union_empty_r_L.
Qed.

Lemma upload_laws allowed k md : upload_law contents rule raw neither (upload allowed k md) k md allowed.
Proof.
  split.
  - intros sent p w a w' [= <- <-]. done.
  - intros d w a w'. apply accept_law.
  - intros d cause w a w' [= <- <-]. done.
Qed.

Lemma remove_law allowed k w a w' :
  other_error (raw missing) → remove allowed k w = (a, w') →
  let ok := allowed (version_at (contents w) k) in
  let gone := mkStore (delete k (objs (contents w))) (used (contents w)) in
  match a with
  | None => is_Some (objs (contents w) !! k) ∧ ok = true ∧ contents w' = gone
  | Some e => other_error (raw e) ∧
      ((contents w' = contents w ∧ (neither e ∨ ok = false ∨ objs (contents w) !! k = None)) ∨
       (neither e ∧ ok = true ∧ contents w' = gone))
  end.
Proof.
  intros Hm. unfold remove. destruct (here k w) eqn:Eh; cbn [negb].
  2: { intros [= <- <-]. split; [done|]. left. split; [done|]. right. right. by apply here_false. }
  destruct (allowed _) eqn:Ea; cbn [negb]; intros [= <- <-].
  - apply here_true in Eh as (-> & -> & Ho). cbn zeta. rewrite Ho. split_and!; [by eexists|done|].
    change (mkStore ∅ {[v0]} = mkStore (delete k0 ({[k0 := o0]} : gmap string sobject)) {[v0]}).
    by rewrite delete_singleton_eq.
  - split; [done|]. left. auto.
Qed.
End calls.

(** ** S3 *)

Definition s3_error (c : string) (st : Z) : S3.sdk_error := S3.mkSdkError (Some c) false false (Some st) (ErrOther c).
Definition s3_busy := s3_error "SlowDown" 503.
Definition s3_missing := s3_error "NoSuchKey" 404.
Definition s3_conflict := s3_error "PreconditionFailed" 412.
Definition s3_invalid := s3_error "InvalidRange" 416.

Definition s3_req (h : option string) : option S3T.range_req :=
  match h with
  | None => Some S3T.RAll
  | Some s => '(a, b) ← parse_range s; Some match b with None => S3T.RFrom a | Some b => S3T.RBetween a b end
  end.

Lemma s3_req_render req : S3T.req_ok req → s3_req (S3T.render req) = Some req.
Proof.
  destruct req as [|a|a b]; [done|..]; cbn [S3T.req_ok S3T.render s3_req]; intros H.
  - by rewrite parse_from.
  - by rewrite parse_between by lia.
Qed.

#[local] Instance satisfiable_dec data r : Decision (S3T.satisfiable data r).
Proof. destruct r; cbn; apply _. Defined.

(** A body that arrives in two pieces. *)
Definition pieces (s : bytes) : body := mkBody [str_take 2 s; str_drop 2 s] None false None.

Lemma pieces_bytes s : body_bytes (pieces s) = s.
Proof. unfold body_bytes. cbn [b_chunks pieces foldr]. by rewrite string_app_nil_r, str_take_drop. Qed.

Lemma pieces_sends s : sends (pieces s) s.
Proof. exists "". by rewrite pieces_bytes, string_app_nil_r. Qed.

(** A header that is no range is ignored, as HTTP asks. *)
Definition s3_get (input : S3.GetObjectInput) : M svc (answer S3.sdk_error S3.GetObjectOutput) := λ w,
  (if here (S3.gi_Key input) w then
     let req := default S3T.RAll (s3_req (S3.gi_Range input)) in
     if bool_decide (S3T.satisfiable d0 req) then
       let '(bytes, cr) := S3T.served d0 req in
       Ans (S3.mkGetObjectOutput (pieces bytes) (Some (strlen bytes)) cr None None None None None (Some (S3T.quoted v0)))
     else Fail s3_invalid
   else Fail s3_missing, w).

Definition s3_service : S3.client svc := {|
  S3.HeadObject _ k w :=
    (if here k w then Ans (S3.mkHeadObjectOutput None None None None None None None (Some (strlen d0)) (Some (S3T.quoted v0)))
     else Fail s3_missing, w);
  S3.GetObject := s3_get;
  S3.Upload input _ := upload s3_conflict s3_busy (S3T.put_allowed input) (S3.pi_Key input) (S3.pi_Metadata input);
  S3.CopyObject _ := mret (Fail s3_busy);
  S3.DeleteObject input :=
    e ← remove s3_missing s3_conflict (S3T.if_match (S3.di_IfMatch input)) (S3.di_Key input);
    mret match e with None => Ans tt | Some e => Fail e end;
  S3.ListObjectsV2 input w :=
    (Ans (S3.mkListObjectsV2Output
       (if here k0 w && HasPrefix k0 (S3.ToString (S3.li_Prefix input))
        then [S3.mkListEntry (Some k0) None (Some (strlen d0))] else []) [] (Some false) None), w);
  S3.HeadBucket _ := mret (Ans tt);
  S3.PresignGetObject _ _ _ := mret (Fail s3_busy);
  S3.PresignPutObject _ _ _ _ := mret (Fail s3_busy);
  S3.PresignDeleteObject _ _ _ := mret (Fail s3_busy);
  S3.CreateMultipartUpload _ := mret (Fail s3_busy);
  S3.UploadPartCopy _ := mret (Fail s3_busy);
  S3.CompleteMultipartUpload _ _ _ _ := mret (Fail s3_busy);
  S3.AbortMultipartUpload _ _ _ := mret (Ans tt);
|}.

Lemma s3_error_raw c st : other_error (S3.se_raw (s3_error c st)).
Proof. done. Qed.

Lemma s3_error_neither c st :
  c ∉ ["NoSuchKey"; "NotFound"; "NoSuchBucket"; "PreconditionFailed"; "ConditionalRequestConflict"] →
  st ∉ [404; 412; 409] → S3T.says_neither (s3_error c st).
Proof.
  intros Hc Hst. split; unfold S3T.says_missing, S3T.says_conflict; cbn; intros H.
  - destruct H as [(c' & [= <-] & Hin)|[[=]|[[=]|[= ->]]]]; [apply Hc|apply Hst]; set_solver.
  - destruct H as [(c' & [= <-] & Hin)|[[= ->]|[= ->]]]; [apply Hc|apply Hst|apply Hst]; set_solver.
Qed.

Lemma s3_missing_read k w : here k w = false → S3T.failed_read k (contents w) s3_missing.
Proof.
  intros H. split; [done|]. split; [intros _; by apply here_false|].
  unfold S3T.says_conflict. cbn. intros [(c & [= <-] & Hin)|[[=]|[=]]].
  rewrite !elem_of_cons, elem_of_nil in Hin. by destruct Hin as [[=]|[[=]|[]]].
Qed.

Lemma neither_read k s e : other_error (S3.se_raw e) → S3T.says_neither e → S3T.failed_read k s e.
Proof. intros Ho [Hm Hc]. split; [done|]. split; [by intros ?%Hm|done]. Qed.

Lemma s3_service_laws (rule : token_rule) :
  rule (contents Empty) d0 v0 → S3T.s3_laws s3_service "b" contents rule.
Proof.
  intros Hrule. split.
  - intros w k o (-> & -> & ->)%contents_lookup. split; [vm_compute; by repeat constructor|done].
  - intros w k o (-> & -> & ->)%contents_lookup. done.
  - intros key w a w' [= <- <-]. split; [done|]. destruct (here key w) eqn:E; [|by apply s3_missing_read].
    apply here_true in E as (-> & -> & Ho). by exists o0.
  - intros key req w a w' Hr. cbn [S3.GetObject s3_service]. unfold s3_get. cbn [S3.gi_Key S3.gi_Range].
    rewrite s3_req_render by done. cbn [default from_option id]. intros [= <- <-]. split; [done|].
    destruct (here key w) eqn:E; [|by apply s3_missing_read].
    apply here_true in E as (-> & -> & Ho). case_bool_decide as Hs.
    + destruct (S3T.served d0 req) as [bytes cr] eqn:Es. exists o0. cbn [so_data o0]. rewrite Es.
      split_and!; [done..|apply pieces_sends].
    + apply neither_read; [done|]. apply s3_error_neither; set_solver.
  - intros input uo _. apply upload_laws; [done..|]. apply s3_error_neither; set_solver.
  - intros key im w a w'. cbn [S3.DeleteObject s3_service]. unfold mbind, M_bind.
    cbn [S3.di_IfMatch S3.di_Key]. destruct (remove _ _ _ _ w) as [e w1] eqn:E.
    apply (remove_law S3.se_raw S3T.says_neither) in E; [|done..]. intros [= <- <-].
    destruct e as [e|]; cbn zeta in *; [done|]. by destruct E as (_ & ? & ?).
  - intros input w a w' _ [= <- <-]. split; [done|]. intros out e [= <-]. cbn [S3.lo_Contents].
    destruct (here k0 w) eqn:E; [|by rewrite elem_of_nil]. destruct (HasPrefix k0 _) eqn:Ep; [|by rewrite elem_of_nil].
    intros ->%list_elem_of_singleton. split; [done|]. apply here_true in E as (-> & _ & Ho). by eexists.
Qed.

Definition locks : Handle := mkHandle 0 "locks/".

(** Creating the object, only if it is not there. *)
Definition write0 : op := OWriteAll locks "a" d0 zeroWriterOptions [Some IfNotExists].

Lemma write0_ok (okput : Preconditions → Prop) (okkey okprefix : string → Prop) (okmd : metadata → Prop) (okdel : Preconditions → Prop) :
  okkey k0 → okmd None → okput (mkPreconditions true "" "") →
  remote_ok okkey okprefix okmd okput okdel write0.
Proof.
  intros Hk Hm Hp. split_and!; [exact Hk|done| |].
  - by intros c [= <-].
  - by intros md md' [= <-] [= <-].
Qed.

Definition s3_b : S3.s3Backend svc := S3.mkS3Backend s3_service "b".
Definition in_order (k : nat) : list nat := seq 0 k.
Definition lens1 (_ : nat) : Z := 1.

(** A service whose tokens are a sum over the bytes. *)
Definition etag0 (d : bytes) (v : string) : Prop :=
  v = Itoa (foldr (λ c n, Z.of_N (Ascii.N_of_ascii c) + n) 0 (String.list_ascii_of_string d) `mod` 3).

Lemma s3_refines_store_witness :
  remote_exec (Backend0:=S3.s3_Backend in_order) s3_b 0 lens1 write0 Empty = (Some (Ok tt), Full) ∧
  gspec (hash_token etag0) write0 (contents Empty) (Ok tt) (contents Full).
Proof.
  assert (remote_exec (Backend0:=S3.s3_Backend in_order) s3_b 0 lens1 write0 Empty = (Some (Ok tt), Full)) as E
    by reflexivity.
  split; [exact E|].
  apply (S3T.s3_refines_store s3_service "b" contents etag0 in_order 0 lens1 write0 Empty (Ok tt) Full).
  - apply s3_service_laws. reflexivity.
  - apply write0_ok; [done|done|]. split; constructor.
  - intros i. done.
  - exact E.
Defined.

Lemma s3_available : S3T.available s3_service "b" contents k0.
Proof.
  intros req w o Hr Ho Hs. apply contents_lookup in Ho as (-> & _ & ->).
  cbn [S3.GetObject s3_service]. unfold s3_get. cbn [S3.gi_Key S3.gi_Range]. rewrite s3_req_render by done. cbn [default from_option id].
  cbn [here]. rewrite bool_decide_true by done. rewrite bool_decide_true by done.
  destruct (S3T.served d0 req) as [bytes cr]. by eexists _, _.
Qed.

Lemma s3_range_read_witness :
  objs (contents Full) !! k0 = Some o0 ∧
  ∃ r w', S3.NewRangeReader s3_b k0 1 3 None Full = (Ok r, w') ∧
    (∃ m, ∀ fuel, (m < fuel)%nat → ∃ r', ReadAll_loop S3.Read fuel lens1 "" r = Some (Ok "ell", r')) ∧
    ∃ r2 w2, S3.Seek (S3.openReader s3_b) (-1) 2 r w' = ((Ok 2, r2), w2) ∧
    ∃ m, ∀ fuel, (m < fuel)%nat → ∃ r', ReadAll_loop S3.Read fuel lens1 "" r2 = Some (Ok "l", r').
Proof.
  split; [reflexivity|].
  destruct (S3T.s3_range_read s3_service "b" contents fresh_token k0 1 3 Full o0) as (r & w' & E & _ & _ & (m & Hm) & Hs).
  - apply s3_service_laws, fresh0.
  - apply s3_available.
  - reflexivity.
  - lia.
  - left. reflexivity.
  - done.
  - exists r, w'. split; [exact E|]. split.
    + exists m. intros fuel Hf. apply (Hm fuel lens1 Hf). by intros i.
    + destruct (Hs r w' 0 (S3T.session_open _ _ _ _ _ _)) as (_ & _ & Hk).
      destruct (Hk (-1) 2 ltac:(lia)) as [(r2 & w2 & E2 & _ & m2 & Hm2) _]; [split; [vm_compute; split; discriminate|left; discriminate]|].
      exists r2, w2. split; [exact E2|]. exists m2. intros fuel Hf. apply (Hm2 fuel lens1 Hf). by intros i.
Defined.

(** Reading from offset 2 to the largest length: the end of the range wraps, the
    service ignores the header, and the reader gives the first three bytes of the
    object for the last three. *)
Lemma s3_range_overflow_wrong_bytes :
  match S3.NewRangeReader s3_b k0 2 int64_max None Full with
  | (Ok r, _) => fst <$> ReadAll_loop S3.Read 9 lens1 "" r = Some (Ok "hel")
  | _ => False
  end ∧ range_of d0 2 int64_max = "llo".
Proof.
  split; [vm_compute; reflexivity|]. unfold range_of. change (int64_max <? 0) with false.
  rewrite clamp_all; [reflexivity|]. vm_compute. discriminate.
Qed.

(** *** Server-side copies *)

Fixpoint cut_slash (s : string) : option (string * string) :=
  match s with
  | EmptyString => None
  | String c s' =>
    if decide (c = "/"%char) then Some ("", s')
    else '(x, y) ← cut_slash s'; Some (String c x, y)
  end.

Lemma cut_slash_app x y : LastIndexByte x "/" = None → cut_slash (x +:+ "/" +:+ y) = Some (x, y).
Proof.
  induction x as [|c x IH]; [done|]. cbn. destruct (LastIndexByte x "/"); [done|].
  case_decide; [done|]. intros _. rewrite decide_False by congruence. cbn in IH. by rewrite IH.
Qed.

(** The object a copy source names. *)
Definition source_data (cs : string) (w : S3C.mstate) : option bytes :=
  s ← PathUnescape cs; p ← cut_slash s; S3C.m_objs w !! p.

Lemma source_data_names cs sb sk w :
  S3C.names cs sb sk → source_data cs w = S3C.m_objs w !! (sb, sk).
Proof. intros [Hu Hs]. unfold source_data. rewrite Hu. cbn [mbind option_bind]. by rewrite cut_slash_app. Qed.

Definition part_data (ps : gmap Z (option string * bytes)) (cp : S3.CompletedPart) : option bytes :=
  '(etag, x) ← ps !! S3.cp_PartNumber cp; if decide (etag = S3.cp_ETag cp) then Some x else None.

Definition copy_part (input : S3.UploadPartCopyInput) : M S3C.mstate (answer S3.sdk_error (option (option string))) := λ w,
  match S3.up_UploadId input with
  | Some id =>
    match S3C.m_uploads w !! id, source_data (S3.up_CopySource input) w, parse_range (S3.up_CopySourceRange input) with
    | Some ps, Some data, Some (a, Some e) =>
      if decide (strlen data ≤ int64_max) then
        (Ans (Some (Some "p")), S3C.mkMstate (S3C.m_objs w)
           (<[id := <[S3.up_PartNumber input := (Some "p", range_of data a (e - a + 1))]> ps]> (S3C.m_uploads w)))
      else (Fail s3_busy, w)
    | _, _, _ => (Fail s3_busy, w)
    end
  | None => (Fail s3_busy, w)
  end.

Definition copy_service : S3.client S3C.mstate := {|
  S3.HeadObject b k w :=
    (match S3C.m_objs w !! (b, k) with
     | Some d => Ans (S3.mkHeadObjectOutput None None None None None None None (Some (strlen d)) None)
     | None => Fail s3_missing
     end, w);
  S3.GetObject _ := mret (Fail s3_busy);
  S3.Upload _ _ := mkUploader (λ _ _, mret None) (λ _, mret (Some s3_busy));
  S3.CopyObject input w :=
    match source_data (S3.ci_CopySource input) w with
    | Some d => (Ans None, S3C.mkMstate (<[(S3.ci_Bucket input, S3.ci_Key input) := d]> (S3C.m_objs w)) (S3C.m_uploads w))
    | None => (Fail s3_missing, w)
    end;
  S3.DeleteObject _ := mret (Fail s3_busy);
  S3.ListObjectsV2 _ := mret (Fail s3_busy);
  S3.HeadBucket _ := mret (Ans tt);
  S3.PresignGetObject _ _ _ := mret (Fail s3_busy);
  S3.PresignPutObject _ _ _ _ := mret (Fail s3_busy);
  S3.PresignDeleteObject _ _ _ := mret (Fail s3_busy);
  S3.CreateMultipartUpload _ w :=
    let id := fresh (dom (S3C.m_uploads w)) in
    (Ans (Some id), S3C.mkMstate (S3C.m_objs w) (<[id := ∅]> (S3C.m_uploads w)));
  S3.UploadPartCopy := copy_part;
  S3.CompleteMultipartUpload b k oid parts w :=
    match (id ← oid; S3C.m_uploads w !! id) with
    | Some ps =>
      match mapM (part_data ps) parts, oid with
      | Some bs, Some id =>
        (Ans tt, S3C.mkMstate (<[(b, k) := S3C.concat_bytes bs]> (S3C.m_objs w)) (delete id (S3C.m_uploads w)))
      | _, _ => (Fail s3_busy, w)
      end
    | None => (Fail s3_missing, w)
    end;
  S3.AbortMultipartUpload _ _ oid w :=
    match oid with
    | Some id => (Ans tt, S3C.mkMstate (S3C.m_objs w) (delete id (S3C.m_uploads w)))
    | None => (Fail s3_missing, w)
    end;
|}.

Lemma mapM_lists ps parts bs : mapM (part_data ps) parts = Some bs → S3C.lists ps parts bs.
Proof.
  intros H%mapM_Some. unfold S3C.lists. eapply Forall2_impl; [exact H|]. intros cp x Hx. unfold part_data in Hx.
  destruct (ps !! S3.cp_PartNumber cp) as [[etag y]|]; [|done]. cbn in Hx. case_decide; [|done]. by simplify_eq.
Qed.

Lemma copy_service_laws : S3C.copy_laws copy_service id.
Proof.
  split; cbn [id].
  - intros b k w a w' [= <- <-]. split; [done|]. intros out. destruct (S3C.m_objs w !! (b, k)) as [d|]; [|done].
    intros [= <-]. by exists d.
  - intros input w a w' sb sk data Hn Hd. cbn [S3.CopyObject copy_service].
    rewrite (source_data_names _ _ _ _ Hn), Hd. by intros [= <- <-].
  - intros input w a w' [= <- <-]. eexists. split; [done|]. split; [apply not_elem_of_dom, is_fresh|done].
  - intros input w r w' id ps sb sk data a e Hid Hps Hn Hd Ha He Hr. cbn [S3.UploadPartCopy copy_service].
    unfold copy_part. rewrite Hid, Hps, (source_data_names _ _ _ _ Hn), Hd, Hr.
    destruct (decide (strlen data ≤ int64_max)).
    + rewrite parse_between by lia. intros [= <- <-]. by eexists.
    + destruct (parse_range _) as [[? [?|]]|]; by intros [= <- <-].
  - intros db dk id parts w r w' ps Hps. cbn [S3.CompleteMultipartUpload copy_service mbind option_bind].
    rewrite Hps. destruct (mapM (part_data ps) parts) as [bs|] eqn:E; intros [= <- <-]; [|by left].
    exists bs. split; [by apply mapM_lists|done].
  - by intros db dk id w r w' [= <- <-].
Qed.

Definition world_copy : S3C.mstate := S3C.mkMstate {[("src", "k") := "hello"]} ∅.
Definition copy_dst : S3.s3Backend S3C.mstate := S3.mkS3Backend copy_service "dst".
Definition copy_src : S3.s3Backend S3C.mstate := S3.mkS3Backend copy_service "src".
Definition copy_job : M S3C.mstate outcome :=
  match S3.XCopyFrom in_order copy_dst "k2" (Some copy_src) "k" None with Ok job => job | Err e => mret (Returned (Some e)) end.

Lemma s3_copy_complete_witness :
  (copy_job world_copy).1 = Returned None ∧
  S3C.m_objs (copy_job world_copy).2 !! ("dst", "k2") = Some "hello" ∧
  ∃ err, (copy_job world_copy).1 = Returned err ∧
    S3C.copy_result copy_service id ("src", "k") ("dst", "k2") world_copy err (copy_job world_copy).2.
Proof.
  split; [vm_compute; reflexivity|]. split; [vm_compute; reflexivity|].
  apply (S3C.s3_copy_complete copy_service id copy_dst copy_src "k2" "k" None in_order copy_job world_copy).
  - apply copy_service_laws.
  - reflexivity.
  - reflexivity.
  - intros k. reflexivity.
  - intros k data.
    change (({[("src", "k") := "hello"]} : gmap (string * string) bytes) !! k = Some data → strlen data ≤ 2 ^ 61).
    intros [<- <-]%lookup_singleton_Some. vm_compute. discriminate.
  - reflexivity.
  - by destruct (copy_job world_copy).
Defined.

(** ** Cloud Storage *)

Definition gcs_error (c : Z) : GCS.sdk_error := GCS.mkSdkError (bool_decide (c = 404)) (Some c) GCS.Unknown (ErrOther "googleapi").
Definition gcs_busy := gcs_error 503.
Definition gcs_missing := gcs_error 404.
Definition gcs_conflict := gcs_error 412.

Definition gcs_attrs : GCS.ObjectAttrs :=
  GCS.mkObjectAttrs "" k0 "" "" "" "" "" None 0 0 (strlen d0) "" 1.

Definition gcs_service : GCS.client svc := {|
  GCS.Attrs h w := (if here (GCS.oh_key h) w then Ans gcs_attrs else Fail gcs_missing, w);
  GCS.SdkRangeReader h off len w :=
    (if here (GCS.oh_key h) w then Ans (pieces (range_of d0 off len), GCS.mkReaderAttrs "" "" "" 0 (strlen d0) 1)
     else Fail gcs_missing, w);
  GCS.SdkWriter h f := upload gcs_conflict gcs_busy (GCST.conditions_met (GCS.oh_conds h)) (GCS.oh_key h) (GCS.wf_Metadata f);
  GCS.Update _ _ := mret (Fail gcs_busy);
  GCS.SdkDelete h := remove gcs_missing gcs_conflict (GCST.conditions_met (GCS.oh_conds h)) (GCS.oh_key h);
  GCS.CopierRun _ _ := mret (Some gcs_busy);
  GCS.NextPage _ prefix _ _ _ w := (Ans (if here k0 w && HasPrefix k0 prefix then [gcs_attrs] else [], ""), w);
  GCS.BucketAttrs _ := mret None;
  GCS.SdkSignedURL _ _ _ := Fail ErrUnsupported;
|}.

Lemma gcs_missing_read k w : here k w = false → GCST.failed_read k (contents w) gcs_missing.
Proof.
  intros H. split; [done|]. split; [intros _; by apply here_false|].
  unfold GCST.says_conflict. cbn. by intros [[=]|[[=]|[=]]].
Qed.

Lemma gcs_busy_neither : GCST.says_neither gcs_busy.
Proof.
  split; unfold GCST.says_missing, GCST.says_conflict; cbn; [by intros [[=]|[[=]|[=]]]|by intros [[=]|[[=]|[=]]]].
Qed.

Lemma gcs_service_laws : GCST.gcs_laws gcs_service "b" contents fresh_token.
Proof.
  split.
  - intros w k o (-> & -> & ->)%contents_lookup. exists 1. done.
  - intros key w a w' [= <- <-]. split; [done|]. cbn [GCS.oh_key]. destruct (here key w) eqn:E; [|by apply gcs_missing_read].
    apply here_true in E as (-> & -> & Ho). by exists o0.
  - intros key off len w a w' _ [= <- <-]. split; [done|]. cbn [GCS.oh_key].
    destruct (here key w) eqn:E; [|by apply gcs_missing_read].
    apply here_true in E as (-> & -> & Ho). exists o0. split_and!; [done|done|apply pieces_sends].
  - intros key conds f _ _. apply upload_laws; [apply fresh0|done|done|apply gcs_busy_neither].
  - intros key conds w a w' _ E. by apply (remove_law GCS.ge_raw GCST.says_neither) in E.
  - intros prefix delimiter size token w a w' [= <- <-]. split; [done|]. intros attrs next x [= <- _].
    destruct (here k0 w) eqn:E; [|by rewrite elem_of_nil]. destruct (HasPrefix k0 prefix) eqn:Ep; [|by rewrite elem_of_nil].
    intros ->%list_elem_of_singleton _. split; [done|]. apply here_true in E as (-> & _ & Ho). by eexists.
Qed.

Definition gcs_b : GCS.storageBackend svc := GCS.mkStorageBackend gcs_service "b" None.
#[local] Existing Instance GCS.gcs_Backend.

(** Writing over anything but generation 5. *)
Definition write5 : op := OWriteAll locks "a" d0 zeroWriterOptions [Some (IfNotMatch "5")].

Lemma gcs_refines_store_witness :
  (remote_exec gcs_b 0 lens1 write0 Empty = (Some (Ok tt), Full) ∧
   spec write0 (contents Empty) (Ok tt) (contents Full)) ∧
  (∃ e, remote_exec gcs_b 0 lens1 write5 Empty = (Some (Err e), Empty) ∧
   GCST.refused write5 (contents Empty) (Err e) (contents Empty)).
Proof.
  split.
  - assert (remote_exec gcs_b 0 lens1 write0 Empty = (Some (Ok tt), Full)) as E by reflexivity.
    split; [exact E|].
    apply (GCST.gcs_refines_store gcs_service "b" None contents 0 lens1 write0 Empty (Ok tt) Full); [| | |exact E|].
    + apply gcs_service_laws.
    + apply write0_ok; [done|done|]. split; by left.
    + intros i. done.
    + by intros (c & [= <-] & Hn & _).
  - destruct (remote_exec gcs_b 0 lens1 write5 Empty) as [[[[]|e]|] w'] eqn:E; [by vm_compute in E| |by vm_compute in E].
    assert (w' = Empty) as -> by (by vm_compute in E; injection E).
    exists e. split; [done|].
    apply (GCST.gcs_refines_store gcs_service "b" None contents 0 lens1 write5 Empty _ Empty); [| | |exact E|].
    + apply gcs_service_laws.
    + split_and!; [done|done| |].
      * intros c [= <-]. split; [by left|]. right. by exists 5.
      * by intros md md' [= <-] [= <-].
    + intros i. done.
    + by eexists.
Defined.

(** The reader the driver opens on the object. *)
Definition gcs_reader : GCS.gcsReader :=
  match (GCS.NewRangeReader gcs_b k0 0 (-1) None Full).1 with
  | Ok r => r
  | Err _ => GCS.mkGcsReader "" 0 0 0 None None false
  end.

Lemma gcs_download_diverges_witness :
  GCS.NewRangeReader gcs_b k0 0 (-1) None Full = (Ok gcs_reader, Full) ∧
  ∀ fuel, Remote.Download fuel (Remote.mkBucket gcs_b "locks/") "a" (mkSink "" None) None Full = (None, Full).
Proof.
  split; [reflexivity|]. intros fuel.
  apply (GCST.gcs_download_diverges gcs_service "b" None fuel "locks/" "a" (mkSink "" None) None Full gcs_reader Full).
  reflexivity.
Defined.

(** ** Azure *)

Definition az_error (c : string) (st : Z) : Azure.sdk_error := Azure.mkSdkError (Some c) (Some st) (ErrOther c).
Definition az_busy := az_error "ServerBusy" 503.
Definition az_missing := az_error "BlobNotFound" 404.
Definition az_conflict := az_error "ConditionNotMet" 412.
Definition az_invalid := az_error "InvalidRange" 416.

Definition az_properties (status : option string) : Azure.Properties :=
  Azure.mkProperties None None None None None None None None (Some (strlen d0)) "" (Some v0) status.

Definition az_service : Azure.client svc := {|
  Azure.GetProperties n w := (if here n w then Ans (az_properties None) else Fail az_missing, w);
  Azure.DownloadStream n h w :=
    (if here n w then
       if bool_decide (S3T.satisfiable d0 (AzureS.req_of h)) then
         let '(bytes, cr) := S3T.served d0 (AzureS.req_of h) in
         Ans (Azure.mkDownloadResponse (pieces bytes) (Some (strlen bytes)) cr None None None None None (Some v0))
       else Fail az_invalid
     else Fail az_missing, w);
  Azure.UploadStream q :=
    upload az_conflict az_busy (AzureS.conditions_met (Azure.ur_AccessConditions q)) (Azure.ur_name q)
      (AzureS.down (Azure.ur_Metadata q));
  Azure.SdkUpload q d :=
    accept az_conflict az_busy (AzureS.conditions_met (Azure.ur_AccessConditions q)) (Azure.ur_name q) d
      (AzureS.down (Azure.ur_Metadata q));
  Azure.SetMetadata _ _ := mret (Fail az_busy);
  Azure.SdkDelete n conds := remove az_missing az_conflict (AzureS.conditions_met conds) n;
  Azure.StartCopyFromURL _ _ := mret (Ans (Some "pending", Some "id"));
  Azure.ListBlobs q w :=
    (Ans (Azure.mkListResponse
       (if here k0 w && HasPrefix k0 (Azure.deref (Azure.lr_Prefix q)) then [Azure.mkBlobItem (Some k0) None] else [])
       [] None), w);
  Azure.ContainerProperties := mret None;
  Azure.GetSASURL _ _ _ := Fail az_busy;
  Azure.BlobURL n := n;
  Azure.ContainerURL := "account";
|}.

Lemma az_error_neither c st :
  c ∉ ["BlobNotFound"; "ContainerNotFound"; "ConditionNotMet"; "BlobAlreadyExists"] →
  st ∉ [404; 412; 409] → AzureS.says_neither (az_error c st).
Proof.
  intros Hc Hst. split; unfold AzureS.says_missing, AzureS.says_conflict; cbn; intros H.
  - destruct H as [(c' & [= <-] & Hin)|[= ->]]; [apply Hc|apply Hst]; set_solver.
  - destruct H as [(c' & [= <-] & Hin)|[[= ->]|[= ->]]]; [apply Hc|apply Hst|apply Hst]; set_solver.
Qed.

Lemma az_missing_read k w : here k w = false → AzureS.failed_read k (contents w) az_missing.
Proof.
  intros H. split; [done|]. split; [intros _; by apply here_false|].
  unfold AzureS.says_conflict. cbn. intros [(c & [= <-] & Hin)|[[=]|[=]]].
  rewrite !elem_of_cons, elem_of_nil in Hin. by destruct Hin as [[=]|[[=]|[]]].
Qed.

Lemma k0_plain : AzureT.plain_key k0.
Proof.
  split; [|reflexivity]. exists (runes k0). split; [|reflexivity]. apply (bool_decide_unpack _). vm_compute. exact I.
Qed.

Lemma az_service_laws : AzureS.azure_laws az_service contents fresh_token.
Proof.
  split.
  - intros w n o (-> & -> & ->)%contents_lookup. exists k0. split; [apply k0_plain|reflexivity].
  - intros w n o (-> & -> & ->)%contents_lookup. done.
  - intros n w a w' [= <- <-]. split; [done|]. destruct (here n w) eqn:E; [|by apply az_missing_read].
    apply here_true in E as (-> & -> & Ho). by exists o0.
  - intros n h w a w' _ _ [= <- <-]. split; [done|]. destruct (here n w) eqn:E; [|by apply az_missing_read].
    apply here_true in E as (-> & -> & Ho). case_bool_decide as Hs.
    + destruct (S3T.served d0 (AzureS.req_of h)) as [bytes cr] eqn:Es. exists o0. cbn [so_data o0]. rewrite Es.
      split_and!; [done..|apply pieces_sends].
    + destruct (az_error_neither "InvalidRange" 416) as [H1 H2]; [set_solver..|].
      split; [done|]. split; [by intros ?%H1|done].
  - intros q _ _. apply upload_laws; [apply fresh0|done|done|]. apply az_error_neither; set_solver.
  - intros q d w a w' _ _ E. eapply accept_law; [| | | |exact E]; [apply fresh0|done|done|]. apply az_error_neither; set_solver.
  - intros n conds w a w' E. by apply (remove_law Azure.ae_raw AzureS.says_neither) in E.
  - intros q w a w' [= <- <-]. split; [done|]. intros out x [= <-]. cbn [Azure.ls_BlobItems].
    destruct (here k0 w) eqn:E; [|by rewrite elem_of_nil]. destruct (HasPrefix k0 _) eqn:Ep; [|by rewrite elem_of_nil].
    intros ->%list_elem_of_singleton. split; [done|]. apply here_true in E as (-> & _ & Ho). by eexists.
Qed.

Definition az_b : Azure.azureBackend svc := Azure.mkAzureBackend az_service 1 0.
Definition quiet (_ : nat) : Azure.poll_env := Azure.mkPollEnv None None.

Lemma azure_refines_store_witness :
  remote_exec (Backend0:=Azure.azure_Backend quiet None 0) az_b 0 lens1 write0 Empty = (Some (Ok tt), Full) ∧
  spec write0 (AzureS.decode (contents Empty)) (Ok tt) (AzureS.decode (contents Full)).
Proof.
  assert (remote_exec (Backend0:=Azure.azure_Backend quiet None 0) az_b 0 lens1 write0 Empty = (Some (Ok tt), Full)) as E
    by (vm_compute; reflexivity).
  split; [exact E|].
  apply (AzureS.azure_refines_store az_service 1 0 contents quiet None 0 0 lens1 write0 Empty (Ok tt) Full).
  - apply az_service_laws.
  - apply write0_ok; [apply k0_plain|done|]. split; discriminate.
  - intros i. done.
  - exact E.
Defined.

(** *** Copies *)

(** A poller that fails twice, reports a pending copy, and then a success. *)
Definition script : list (answer Azure.sdk_error Azure.Properties) :=
  [Fail az_busy; Fail az_busy; Ans (az_properties (Some "pending")); Ans (az_properties (Some "success"))].

Definition az_copier : Azure.client nat := {|
  Azure.GetProperties _ n := (default (Fail az_missing) (script !! n), S n);
  Azure.DownloadStream _ _ := mret (Fail az_busy);
  Azure.UploadStream _ := mkUploader (λ _ _, mret None) (λ _, mret (Some az_busy));
  Azure.SdkUpload _ _ := mret (Some az_busy);
  Azure.SetMetadata _ _ := mret (Fail az_busy);
  Azure.SdkDelete _ _ := mret (Some az_busy);
  Azure.StartCopyFromURL _ _ := mret (Ans (Some "pending", Some "id"));
  Azure.ListBlobs _ := mret (Fail az_busy);
  Azure.ContainerProperties := mret None;
  Azure.GetSASURL _ _ _ := Fail az_busy;
  Azure.BlobURL n := n;
  Azure.ContainerURL := "account";
|}.

Lemma azure_copy_terminates_witness :
  Azure.copyBlob 10 quiet az_copier "dst" "src" None 0%nat = (Returned None, 4%nat) ∧
  ∃ err w', Azure.copyBlob 10 quiet az_copier "dst" "src" None 0%nat = (Returned err, w').
Proof.
  split; [vm_compute; reflexivity|].
  apply (AzureT.azure_copy_terminates az_copier 10 quiet "dst" "src" None 0%nat (Some "pending") (Some "id") 0%nat 3%nat).
  - reflexivity.
  - lia.
  - intros [H _]. vm_compute in H. discriminate H.
Defined.

(** *** Readers, keys and metadata *)

Definition az_reader : Azure.azureReader := Azure.mkAzureReader k0 0 (-1) 0 (Some (pieces d0)) None false.

Lemma azure_reader_equiv_witness :
  Azure.r_closed az_reader = false ∧
  S3.Read 3 (AzureT.as_s3 az_reader) = let '(p, err, r') := Azure.Read 3 az_reader in (p, err, AzureT.as_s3 r').
Proof.
  split; [reflexivity|].
  apply (AzureT.azure_reader_equiv (λ _ _ _, mret (Err ErrUnsupported)) az_reader 3 0 0 Empty). reflexivity.
Defined.

(** A key with characters Azure cannot address, and one outside ASCII. *)
Definition odd_key : string := "a?\../é/".

Lemma odd_key_utf8 : utf8 odd_key.
Proof. exists (runes odd_key). split; [apply (bool_decide_unpack _); vm_compute; exact I|vm_compute; reflexivity]. Qed.

Lemma azure_key_roundtrip_witness :
  AzureKeys.escapeKey odd_key false = "a__0x3f____0x5c__..__0x2f__é__0x2f__" ∧
  AzureKeys.unescapeKey (AzureKeys.escapeKey odd_key false) = odd_key.
Proof.
  split; [vm_compute; reflexivity|]. apply (AzureKeys.azure_key_roundtrip odd_key false); [apply odd_key_utf8|reflexivity].
Defined.

Lemma azure_names_escape_free_witness : AzureKeys.escape_free false (runes (AzureKeys.escapeKey odd_key false)).
Proof. apply (AzureKeys.azure_names_escape_free odd_key false). apply odd_key_utf8. Defined.

Definition md0 : gmap string string := {["owner-id" := "a b&c"]}.

Lemma azure_metadata_roundtrip_witness :
  ∃ out, AzureKeys.toAzureMetadata (Some md0) = Ok (Some out) ∧ AzureKeys.fromAzureMetadata (Some out) = Some md0.
Proof.
  apply (AzureKeys.azure_metadata_roundtrip md0).
  - intros E. apply (f_equal (λ m, m !! "owner-id")) in E. vm_compute in E. discriminate E.
  - intros k [v Hv]. unfold md0 in Hv. apply lookup_singleton_Some in Hv as [<- _]. split_and!; [|reflexivity|reflexivity].
    exists (runes "owner-id"). split; [apply (bool_decide_unpack _); vm_compute; exact I|reflexivity].
Defined.
