(* ===== verification/DeployedWitnesses.v ===== *)
(** * Concrete runs on the drivers

    A process that runs alone on the in-memory driver, for the theorems on the
    deployed lock and queue; its run, seen as one of the pool, for the theorems
    on the pool. *)
From stdpp Require Import relations.
From S2P Require Import Prelude Strconv GoTime Md5 Core Effects Store MemDriver MemTheorems MemStore Locker MemRun.
From S2P Require Import LeaseSafety LockSafety Queue QueueTheorems QueueSafety QueuePool Unicode Remote RemoteTheorems RemoteStore GcsDriver GcsTheorems Deployed LockDeployed QueueDeployed Witnesses RemoteWitnesses.
From S2P Require Import Filesystem FileDriver FileTheorems FileStore FileDeployed FileWitnesses.

#[local] Existing Instance Witnesses.tables.
#[local] Existing Instance utc.

(** ** The in-memory driver, answering without errors at time 0 *)

Definition mem_answer (o : op) (w : nat → Mem.state) : option (ans o * (nat → Mem.state)) :=
  match target o with
  | Some m =>
    if bool_decide (Mem.nextVersion (w m) + 1 < 2 ^ 64) then
      match exec (envs0 0%nat) o w with (Some a, w') => Some (a, w') | (None, _) => None end
    else None
  | None => None
  end.

Lemma mem_answer_call o w a w' : is_Some (target o) → mem_answer o w = Some (a, w') → mem_call o w a w'.
Proof.
  intros [m Hm]. unfold mem_answer. rewrite Hm. case_bool_decide as Hlt; [|done].
  destruct (exec (envs0 0%nat) o w) as [[a'|] w1] eqn:Hx; [|done]. intros [= <- <-].
  exists (envs0 0%nat). split; [done|]. split; [|done]. intros m' Hm'. congruence.
Qed.

Lemma clock0 : 0 ≤ 0 ≤ 10 ^ 18.
Proof. lia. Qed.

(** A run of one process, between two steps of its own. *)
Lemma alone {S Phase} (dcall : ∀ o, S → ans o → S → Prop) view permits
    (active : Phase → option { o : op & ans o → Phase }) (plocal : bool → Phase → Phase → Prop) others
    (answer : ∀ o, S → option (ans o * S)) fuel w ph0 ph1 ph2 ph3 w' :
  (∀ o s a s', is_Some (target o) → answer o s = Some (a, s') → dcall o s a s') →
  plocal true ph0 ph1 → play active answer fuel 0 ph1 w = Some (ph2, w') → plocal true ph2 ph3 →
  ∃ f, rtc (dstep dcall view permits active plocal (10 ^ 18) others)
         (mkDconfig w 0 (λ _ : bool, ph0)) (mkDconfig w' 0 f) ∧ f true = ph3.
Proof.
  intros Ha H1 Hp H3.
  destruct (play_steps dcall view permits active plocal (10 ^ 18) others answer Ha fuel true 0
    (set_dphase true ph1 (λ _, ph0)) w ph2 w') as (f & Hs & Hf & _); [exact Hp|].
  exists (set_dphase true ph3 f). split; [|reflexivity].
  eapply rtc_l; [by apply (ds_local _ _ _ _ _ _ _ true)|]. eapply rtc_r; [exact Hs|].
  apply ds_local. by rewrite Hf.
Qed.

(** ** The lock *)

Definition trying0 : phase := Trying (Locker.tryAcquire lk0 "k" P0 "a").
Definition mem_held : option (phase * (nat → Mem.state)) := play lock_active mem_answer 10 0 trying0 (λ _, Mem.NewState).

Lemma lock_exclusive_on_mem_witness :
  ∃ c, rtc (lock_dstep mem_call mem_view op_ok 0 P0 (10 ^ 18) both)
         (mkDconfig (λ _, Mem.NewState) 0 (λ _, Idle)) c ∧
    claims (d_phase c true) (d_clock c) = true ∧
    ∀ j, claims (d_phase c j) (d_clock c) = true → true = j.
Proof.
  assert (∃ lk w, mem_held = Some (Trying (Ret (Ok lk)), w) ∧ claims (Held lk) 0 = true) as (lk & w & Hh & Hc).
  { eexists _, _. split; [vm_compute; reflexivity|vm_compute; reflexivity]. }
  destruct (alone mem_call mem_view op_ok lock_active (λ i, local (both i)) (leaves_record 0 P0) mem_answer 10 _ _ _ _ (Held lk) w
    mem_answer_call (local_start (both true)) Hh (local_acquired _ lk)) as (f & Hs & Hf).
  exists (mkDconfig w 0 f). split; [exact Hs|]. cbn [d_phase d_clock]. rewrite Hf. split; [exact Hc|].
  intros j Hj. apply (lock_exclusive_on_mem 0 P0 0 (10 ^ 18) both (mkDconfig (λ _, Mem.NewState) 0 (λ _, Idle))
    (mkDconfig w 0 f) true j both_contending
    (λ _, Mem.wf_New) clock0 (λ _, eq_refl) Hs); [|exact Hj].
  cbn [d_phase d_clock]. by rewrite Hf.
Defined.

(** ** The queue *)

Definition qb : Handle := mkHandle 0 "q/".
Definition workers (i : bool) : worker := mkWorker q0 (if i then "a" else "b").

Lemma workers_working : working qb 0 (10 ^ 18) workers.
Proof.
  split; [done|by intros [] []|..].
  - intros i t Ht. apply utc_printable.
    assert (Queue.q_lease (w_queue (workers i)) = 15 * 10 ^ 9) as -> by by destruct i. lia.
  - intros t Ht. apply utc_printable. lia.
Qed.

Definition claiming0 : wphase := Claiming (Queue.tryClaim q0 "m" "a").
Definition mem_claimed : option (wphase * (nat → Mem.state)) := play queue_active mem_answer 10 0 claiming0 (λ _, st_msg).

Definition waiting0 : dconfig := mkDconfig (λ _ : nat, st_msg) 0 (λ _ : bool, QueuePool.Waiting).

(** One worker claims the message. *)
Lemma run_claimed_alone :
  ∃ w f, rtc (queue_dstep qb "m" (10 ^ 18) workers) waiting0 (mkDconfig w 0 f) ∧
    has_message (f true) 0 = true ∧ is_Some (Mem.objects (w 0%nat) !! msg_key qb "m").
Proof.
  assert (∃ m w, mem_claimed = Some (Claiming (Ret (Ok (Some m))), w) ∧ has_message (Delivered m) 0 = true ∧
    is_Some (Mem.objects (w 0%nat) !! msg_key qb "m")) as (m & w & Hh & Hc & Hp).
  { eexists _, _. split; [vm_compute; reflexivity|]. split; [vm_compute; reflexivity|]. eexists. vm_compute. reflexivity. }
  destruct (alone mem_call mem_view op_ok queue_active (queue_local "m" workers) (leaves_message qb "m") mem_answer 10 _ _ _ _
    (Delivered m) w mem_answer_call (ex_intro _ false (wl_claim "m" (workers true))) Hh (ex_intro _ false (wl_delivered "m" (workers true) m))) as (f & Hs & Hf).
  exists w, f. rewrite Hf. split; [exact Hs|]. split; [exact Hc|exact Hp].
Qed.

Lemma queue_exclusive_on_mem_witness :
  ∃ c, rtc (queue_dstep qb "m" (10 ^ 18) workers) waiting0 c ∧
    has_message (d_phase c true) (d_clock c) = true ∧
    ∀ j, has_message (d_phase c j) (d_clock c) = true → true = j.
Proof.
  destruct run_claimed_alone as (w & f & Hs & Hc & Hp). exists (mkDconfig w 0 f).
  split; [exact Hs|]. split; [exact Hc|]. intros j Hj.
  exact (queue_exclusive_on_mem qb "m" 0 (10 ^ 18) workers waiting0 (mkDconfig w 0 f) true j workers_working
    (λ _, st_msg_wf) clock0 (λ _, eq_refl) Hs Hp Hc Hj).
Defined.

(** The same run, as one of the pool. *)
Definition qconfig0 : qconfig := mkQconfig (d_world mem_view waiting0) (λ _ : bool, QueuePool.Waiting) [].

Lemma qconfig0_initial : qinitial 0 (10 ^ 18) qconfig0.
Proof. split; [|done]. split; [intros n; apply mem_swf, st_msg_wf|exact clock0]. Qed.

Lemma run_claimed_pool :
  ∃ cf, rtc (qstep qb "m" (10 ^ 18) workers) qconfig0 cf ∧ has_message (qc_phase cf true) (clock (qc_world cf)) = true ∧
    is_Some (payload qb "m" (qc_world cf)).
Proof.
  destruct run_claimed_alone as (w & f & Hs & Hc & Hp).
  destruct (queue_deployed qb "m" (10 ^ 18) workers _ _ Hs (λ _, st_msg_wf) (λ _, eq_refl)) as [acks Hr].
  eexists. split; [exact Hr|]. split; [exact Hc|].
  unfold payload. cbn. rewrite lookup_fmap. by apply fmap_is_Some.
Qed.

Lemma queue_exclusive_delivery_witness :
  ∃ cf, rtc (qstep qb "m" (10 ^ 18) workers) qconfig0 cf ∧
    has_message (qc_phase cf true) (clock (qc_world cf)) = true ∧
    ∀ j, has_message (qc_phase cf j) (clock (qc_world cf)) = true → true = j.
Proof.
  destruct run_claimed_pool as (cf & Hs & Hc & Hp). exists cf. split; [exact Hs|]. split; [exact Hc|]. intros j Hj.
  exact (queue_exclusive_delivery qb "m" 0 (10 ^ 18) workers qconfig0 cf true j workers_working qconfig0_initial Hs Hp Hc Hj).
Defined.

Lemma queue_no_loss_witness :
  ∃ cf pl, rtc (qstep qb "m" (10 ^ 18) workers) qconfig0 cf ∧
    has_message (qc_phase cf true) (clock (qc_world cf)) = true ∧
    (qc_acks cf ≠ [] ∨ payload qb "m" (qc_world cf) = Some pl ∨
     (payload qb "m" (qc_world cf) = None ∧ ∃ o, dead qb "m" (qc_world cf) = Some o ∧ so_data o = so_data pl)).
Proof.
  destruct run_claimed_pool as (cf & Hs & Hc & _).
  assert (∃ pl, payload qb "m" (qc_world qconfig0) = Some pl) as [pl Hpl] by (eexists; vm_compute; reflexivity).
  exists cf, pl. split; [exact Hs|]. split; [exact Hc|].
  exact (queue_no_loss qb "m" 0 (10 ^ 18) workers qconfig0 cf pl workers_working qconfig0_initial Hpl Hs).
Defined.

(** ** Cloud Storage

    A service that keeps a log of writes and deletes, the last first.  The
    generation of an object is the place of its write in the log. *)
Inductive entry :=
| EPut (k : string) (d : bytes) (md : metadata)
| EDel (k : string).

Definition place (w : list entry) : Z := Z.of_nat (length w) + 1.

Fixpoint log_view (w : list entry) : store :=
  match w with
  | [] => mkStore ∅ ∅
  | EPut k d md :: w =>
    if bool_decide (place w ≤ int64_max) then
      mkStore (<[k := mkSobject d md (Itoa (place w))]> (objs (log_view w))) ({[Itoa (place w)]} ∪ used (log_view w))
    else log_view w
  | EDel k :: w => mkStore (delete k (objs (log_view w))) (used (log_view w))
  end.

Lemma log_used w v : v ∈ used (log_view w) → ∃ g, 0 < g < place w ∧ g ≤ int64_max ∧ v = Itoa g.
Proof.
  unfold place. induction w as [|[k d md|k] w IH]; cbn [log_view length]; [set_solver|..].
  - case_bool_decide as Hg; cbn [used].
    + intros [->%elem_of_singleton|(g & ? & ? & ->)%IH]%elem_of_union; [|exists g; split; [lia|done]].
      exists (place w). unfold place in *. split; [lia|done].
    + intros (g & ? & ? & ->)%IH. exists g. split; [lia|done].
  - intros (g & ? & ? & ->)%IH. exists g. split; [lia|done].
Qed.

Lemma log_version w k o : objs (log_view w) !! k = Some o → so_version o ∈ used (log_view w).
Proof.
  induction w as [|[k' d md|k'] w IH]; cbn [log_view]; [done|..].
  - case_bool_decide; [|done]. cbn [objs used]. intros [[_ <-]|[_ Ho]]%lookup_insert_Some; [set_solver|].
    apply IH in Ho. set_solver.
  - cbn [objs used]. intros [_ Ho]%lookup_delete_Some. by apply IH.
Qed.

Lemma log_generation w k o : objs (log_view w) !! k = Some o → GCST.generation (so_version o).
Proof. intros (g & ? & ? & ->)%log_version%log_used. exists g. split; [lia|done]. Qed.

Lemma log_swf w : swf (log_view w).
Proof.
  split; [apply log_version|]. intros (g & ? & ? & E)%log_used. symmetry in E. revert E. apply Itoa_not_empty. lia.
Qed.

Lemma log_fresh w : place w ≤ int64_max → fresh_token (log_view w) "" (Itoa (place w)).
Proof.
  intros Hp. assert (0 < place w) by (unfold place; lia). split; [apply Itoa_not_empty; lia|].
  intros (g & ? & ? & E)%log_used. apply GCST.Itoa_inj in E; lia.
Qed.

Definition log_put (allowed : option string → bool) (k : string) (d : bytes) (md : metadata)
    : M (list entry) (option GCS.sdk_error) := λ w,
  if negb (allowed (version_at (log_view w) k)) then (Some gcs_conflict, w)
  else if bool_decide (place w ≤ int64_max) then (None, EPut k d md :: w) else (Some gcs_busy, w).

Definition log_attrs (k : string) (o : sobject) : GCS.ObjectAttrs :=
  GCS.mkObjectAttrs "" k "" "" "" "" "" (so_meta o) 0 0 (strlen (so_data o)) ""
    (match Atoi (so_version o) with Ok g => g | Err _ => 0 end).

Definition log_service : GCS.client (list entry) := {|
  GCS.Attrs h w :=
    (match objs (log_view w) !! GCS.oh_key h with
     | Some o => Ans (log_attrs (GCS.oh_key h) o) | None => Fail gcs_missing end, w);
  GCS.SdkRangeReader h off len w :=
    (match objs (log_view w) !! GCS.oh_key h with
     | Some o => Ans (pieces (range_of (so_data o) off len), GCS.mkReaderAttrs "" "" "" 0 (strlen (so_data o)) 1)
     | None => Fail gcs_missing
     end, w);
  GCS.SdkWriter h f := mkUploader (λ _ _, mret None)
    (λ src, match s_err src with
     | Some _ => mret (Some gcs_busy)
     | None => log_put (GCST.conditions_met (GCS.oh_conds h)) (GCS.oh_key h) (s_bytes src) (GCS.wf_Metadata f)
     end);
  GCS.Update _ _ := mret (Fail gcs_busy);
  GCS.SdkDelete h := λ w,
    match objs (log_view w) !! GCS.oh_key h with
    | None => (Some gcs_missing, w)
    | Some o =>
      if GCST.conditions_met (GCS.oh_conds h) (version_at (log_view w) (GCS.oh_key h)) then (None, EDel (GCS.oh_key h) :: w)
      else (Some gcs_conflict, w)
    end;
  GCS.CopierRun _ _ := mret (Some gcs_busy);
  GCS.NextPage _ _ _ _ _ w := (Fail gcs_busy, w);
  GCS.BucketAttrs _ := mret None;
  GCS.SdkSignedURL _ _ _ := Fail ErrUnsupported;
|}.

Lemma log_missing_read k w : objs (log_view w) !! k = None → GCST.failed_read k (log_view w) gcs_missing.
Proof.
  intros H. split; [done|]. split; [done|]. unfold GCST.says_conflict. cbn. by intros [[=]|[[=]|[=]]].
Qed.

Lemma log_service_laws : GCST.gcs_laws log_service "b" log_view fresh_token.
Proof.
  split.
  - apply log_generation.
  - intros key w a w' [= <- <-]. split; [done|]. cbn [GCS.oh_key].
    destruct (objs (log_view w) !! key) as [o|] eqn:E; [|by apply log_missing_read].
    exists o. split; [done|]. destruct (log_generation _ _ _ E) as (g & Hg & Ev). cbn. rewrite Ev.
    rewrite Atoi_Itoa by lia. done.
  - intros key off len w a w' _ [= <- <-]. split; [done|]. cbn [GCS.oh_key].
    destruct (objs (log_view w) !! key) as [o|] eqn:E; [|by apply log_missing_read].
    exists o. split_and!; [done|done|apply pieces_sends].
  - intros key conds f _ _. split.
    + intros sent p w a w' [= <- <-]. done.
    + intros d w a w'. cbn [GCS.SdkWriter log_service up_end s_err s_bytes GCS.oh_key GCS.oh_conds].
      unfold log_put, put_law. destruct (GCST.conditions_met conds _) eqn:Ec; cbn [negb].
      * case_bool_decide as Hp; intros [= <- <-].
        -- split; [done|]. exists (Itoa (place w)). split; [by apply log_fresh|].
           cbn [log_view]. by rewrite bool_decide_true.
        -- split; [done|]. left. split; [done|]. left. apply gcs_busy_neither.
      * intros [= <- <-]. split; [done|]. left. split; [done|]. by right.
    + intros d cause w a w' [= <- <-]. done.
  - intros key conds w a w' _. cbn [GCS.SdkDelete log_service GCS.oh_key GCS.oh_conds].
    destruct (objs (log_view w) !! key) as [o|] eqn:E.
    + destruct (GCST.conditions_met conds _) eqn:Ec; intros [= <- <-].
      * split_and!; [by eexists|done|done].
      * split; [done|]. left. split; [done|]. by auto.
    + intros [= <- <-]. split; [done|]. left. split; [done|]. by auto.
  - intros prefix delimiter size token w a w' [= <- <-]. done.
Qed.

Definition log_answer (o : op) (w : list entry) : option (ans o * list entry) :=
  match target o with
  | Some 0%nat =>
    match remote_exec (Backend0:=GCS.gcs_Backend) (GCS.mkStorageBackend log_service "b" None) 10 lens1 o w with
    | (Some a, w') => Some (a, w')
    | (None, _) => None
    end
  | _ => None
  end.

Lemma log_answer_call o w a w' : is_Some (target o) → log_answer o w = Some (a, w') → gcs_call log_service "b" None 0 o w a w'.
Proof.
  intros _. unfold log_answer. destruct (target o) as [[|m]|] eqn:Ht; [|done..].
  destruct (remote_exec _ _ _ _ _) as [[a1|] w1] eqn:Hx; [|done]. intros [= <- <-].
  exists tt, 10%nat, lens1. split; [done|]. split; [exact Ht|exact Hx].
Qed.

#[local] Abbreviation gcs_permits :=
  (remote_ok (λ _, True) (λ _, True) GCST.representable_md GCST.token_pre GCST.token_pre).

Lemma lock_exclusive_on_gcs_witness :
  ∃ c, rtc (lock_dstep (gcs_call log_service "b" None 0) (remote_view log_view 0) gcs_permits 0 P0 (10 ^ 18) both)
         (mkDconfig [] 0 (λ _, Idle)) c ∧
    claims (d_phase c true) (d_clock c) = true ∧
    ∀ j, claims (d_phase c j) (d_clock c) = true → true = j.
Proof.
  assert (∃ lk w, play lock_active log_answer 10 0 trying0 [] = Some (Trying (Ret (Ok lk)), w) ∧ claims (Held lk) 0 = true)
    as (lk & w & Hh & Hc).
  { eexists _, _. split; [vm_compute; reflexivity|vm_compute; reflexivity]. }
  destruct (alone (gcs_call log_service "b" None 0) (remote_view log_view 0) gcs_permits lock_active (λ i, local (both i))
    (leaves_record 0 P0) log_answer 10 _ _ _ _ (Held lk) w log_answer_call (local_start (both true)) Hh
    (local_acquired _ lk)) as (f & Hs & Hf).
  exists (mkDconfig w 0 f). split; [exact Hs|]. cbn [d_phase d_clock]. rewrite Hf. split; [exact Hc|].
  intros j Hj. apply (lock_exclusive_on_gcs log_service "b" None log_view 0 P0 0 (10 ^ 18) both
    (mkDconfig [] 0 (λ _, Idle)) (mkDconfig w 0 f) true j log_service_laws both_contending (log_swf []) clock0
    (λ _, eq_refl) Hs); [|exact Hj].
  cbn [d_phase d_clock]. by rewrite Hf.
Defined.

(** ** The file driver

    A machine without faults that draws one token per call, from the number of
    system calls made so far. *)

#[local] Existing Instance FileWitnesses.codec.

Definition fresh_machine (k : nat) : sysenv :=
  mkSysenv (fun _ => None) (fun _ => 0%nat) (fun _ => 0%nat) (fun _ => 0) (fun _ => Ok (Itoa (Z.of_nat k)))
    (fun i => Itoa (Z.of_nat i)) (fun _ => (0, 4096)).

Definition lock_dir : list string := [".blobster"; "locks"; "k"].

(** Answers without an error. *)
Definition succeeded (o : op) : ans o → bool :=
  match o return ans o → bool with
  | OWriteAll _ _ _ _ _ => λ r, is_Ok r
  | _ => λ _, true
  end.

Definition file_answer (o : op) (w : os * gset string) : option (ans o * (os * gset string)) :=
  let y := fresh_machine (calls w.1) in
  if decide (target o = Some 0%nat ∧ version_of y 0 ≠ "" ∧ version_of y 0 ∉ w.2) then
    match file_exec ["srv"] y None None o w.1 with
    | (Some a, s) => if succeeded o a then Some (a, (s, tokens ["srv"] w.2 (nodes s))) else None
    | (None, _) => None
    end
  else None.

#[local] Abbreviation srv_call := (file_call ["srv"] (one_key lock_dir) (λ _, True) (λ _, True) 0).
#[local] Abbreviation srv_ok := (file_ok (one_key lock_dir) (λ _, True) (λ _, True)).

Lemma file_answer_call o w a w' : is_Some (target o) → file_answer o w = Some (a, w') → srv_call o w a w'.
Proof.
  intros _. unfold file_answer. case_decide as Hd; [|done]. destruct Hd as (Ht & Hv & HU).
  set (y := fresh_machine _) in *. destruct (file_exec ["srv"] y None None o w.1) as [[a1|] s] eqn:Hx; [|done].
  destruct (succeeded o a1) eqn:Hs; [|done]. intros [= <- <-].
  exists y, None, None. split; [|split; [done|split; [done|split; [|done]]]].
  - split; [by intros i e|by intros e [?|?]|done|done|]. intros i. split; [exact Hv|exact HU].
  - destruct o; try (by intros []). cbn in Hs |- *. intros (r & e & _ & -> & _). discriminate Hs.
Qed.

Definition file_held : option (phase * (os * gset string)) := play lock_active file_answer 10 0 trying0 (disk0, ∅).

Lemma file_held_claims :
  match file_held with Some (Trying (Ret (Ok lk)), _) => claims (Held lk) 0 | _ => false end = true.
Proof. vm_compute. reflexivity. Qed.

Lemma lock_dir_flat : flat (one_key lock_dir).
Proof. apply one_key_flat; [done|by repeat constructor]. Qed.

Lemma both_storable i : lock_storable (one_key lock_dir) (λ _, True) (λ _, True) both i.
Proof. split; [exists lock_dir; by destruct i|by intros]. Qed.

Lemma lock_exclusive_on_file_witness :
  ∃ c, rtc (lock_dstep srv_call (file_view ["srv"] 0) srv_ok 0 P0 (10 ^ 18) both)
         (mkDconfig (disk0, ∅) 0 (λ _, Idle)) c ∧
    claims (d_phase c true) (d_clock c) = true ∧
    ∀ j, claims (d_phase c j) (d_clock c) = true → true = j.
Proof.
  pose proof file_held_claims as Hc. destruct file_held as [[ph w]|] eqn:Hh; [|discriminate Hc].
  destruct ph as [|[[lk|]| |]| | | |]; try discriminate Hc.
  destruct (alone srv_call (file_view ["srv"] 0) srv_ok lock_active (λ i, local (both i))
    (leaves_record 0 P0) file_answer 10 _ _ _ _ (Held lk) w file_answer_call (local_start (both true)) Hh
    (local_acquired _ lk)) as (f & Hs & Hf).
  exists (mkDconfig w 0 f). split; [exact Hs|]. cbn [d_phase d_clock]. rewrite Hf. split; [exact Hc|].
  intros j Hj. apply (lock_exclusive_on_file ["srv"] (one_key lock_dir) plain_srv lock_dir_flat (λ _, True) (λ _, True) 0 P0 0
    (10 ^ 18) both (mkDconfig (disk0, ∅) 0 (λ _, Idle)) (mkDconfig w 0 f) true j both_storable both_contending
    (disk0_sound _ (λ r E, eq_ind_r (λ r, r ≠ []) (λ E : lock_dir = [], ltac:(discriminate E)) E)) clock0
    (λ _, eq_refl) Hs); [|exact Hj].
  cbn [d_phase d_clock]. by rewrite Hf.
Defined.
